(* ===== verification/_CoqProject ===== *)
-Q . S2P
Prelude.v
Command.v
Worker.v
BucketWorker.v
Certifier.v
Tracker.v
Peer.v
Runs.v
Quorum.v
Pbft.v
PbftSafety.v
PbftView.v
Wire.v
PbftProps.v
RuntimeProps.v
MirBft.v
MirProps.v
MinBft.v
MinProps.v
ChainHotstuff.v
HotstuffSafety.v
HotstuffProps.v
Dispel.v
DispelSafety.v
DispelEnds.v
DispelProps.v
Rcc.v
RccProps.v
Sbft.v
SbftSafety.v
SbftProps.v
Dqpbft.v
DqpbftSafety.v
DqpbftDeliver.v
DqpbftProps.v
Signer.v
Duobft.v
DuobftSafety.v
DuobftProps.v
GoSort.v
Trinx.v
Hybster.v
HybsterSafety.v
HybsterProps.v
Network.v
Prime.v
PrimeSafety.v
PrimeEnds.v
PrimeProps.v
ChainDuo.v
ChainDuoSafety.v
ChainDuoLeader.v
ChainDuoNet.v
ChainDuoEnds.v
ChainDuoProps.v
