(* ===== verification/Prelude.v ===== *)
(** * go-consensus: a verification library

    The repository implements Byzantine consensus protocols behind one Go
    interface, [peer.Protocol] (src/peer/protocol.go).  A server process is a
    peer (src/peer): it takes client commands and messages, hands them to its
    protocol, sends what the protocol wants sent, and executes the commands it
    has ordered on a key-value store.  This library models the runtime and the
    protocols as functions, translated from the Go code one definition per Go
    function, and proves what makes them correct, and where they are not.

    ** How Go is modelled

    A method with receiver [*S] is a function in the monad [M S] below: it
    returns ([Ret]), stops the process ([Panic]: a Go panic, a nil dereference,
    [logger.Panicf] or [Fatalf]), or does not end within the fuel its loop was
    given ([Diverge]).  A [uint64] is a [Z] with the wrap-around written out
    ([u64]), a [[]byte] an optional list of bytes ([None] is nil), a Go map a
    [gmap], and the order in which Go ranges over it a parameter ([MapRange]),
    so that the theorems hold for every order.  A closure is the data it
    captures and a function of that data.  Goroutines are steps of a state
    machine: what holds the peer's mutex is one step, and the workers of a pool
    step between the calls of their protocol.  A Go pointer into a map from
    which nothing is removed or replaced is the key it is filed under; the
    instances of SBFT and DuoBFT, which can be replaced, and the blocks of a DuoBFT
    chain with their fast halves, which are written to, live in heaps.  A slice
    that several owners hold and one writes to is modelled as shared (the rows of
    the matrices of Prime).

    Code outside the repository is a parameter, with its documented behaviour
    as a class of laws: the protobuf marshallers ([Codec]), the hash functions
    and [fmt] ([GoEnv], [GoEnvLaws]), ed25519 ([Ed25519], [Ed25519Laws]), the
    USIG enclave ([Usig], [UsigLaws]), the threshold signatures of the enclave
    ([Threshsign], [ThreshsignLaws]), ECDSA with its encoding ([Ecdsa],
    [EcdsaLaws]), the certificates that the USIG enclave signs with it
    ([UsigSig], [UsigSigLaws]), the counter of that enclave over ed25519
    ([UsigEd]), the TrInX enclave ([Trinx]) and the sorting of package sort
    ([GoSort]).  Wire.v gives one concrete function for each ([Toy]; the last
    two are in [HybDemo], [UsigEd] in [ChainDuoDemo]), at which every theorem
    with hypotheses is applied.

    ** The files

    - Prelude.v: Go values, the monad, its logic ([wp] for partial correctness,
      [twp] for total, [ends] for termination, [keeps] for frames, [preserves]
      for invariants), record updates and the tactics [wp_step], [twp_step],
      [ends_step], [keeps_step], [preserves_step].
    - Command.v (src/pkg/command/commandpb): commands, [Equal], [Hash].
      Tracker.v (src/pkg/command/tracker.go): which client waits for a result.
    - Worker.v, BucketWorker.v (src/pkg/worker, src/pkg/bucketworker): the
      worker pools.  Certifier.v (src/utils): message certificates.
    - Peer.v (src/peer): the interface [Protocol] as a class, [Timer], [ReqBuf],
      [Applier], and the goroutines of the peer over any [Protocol].
    - Runs.v: [runs], the sequences of calls through that interface, and the
      simulation that shows that a protocol under a peer makes such a run.
      The invariants of the protocols are stated about [runs].
    - Quorum.v: the vote record of the protocols (quorum.go of PBFT, MirBFT and
      MinBFT), generic in the message; quorum intersection; the abstract voting
      specification that protocols refine.
    - Pbft.v (src/protocols/pbft): the agreement phase and the view change.
      PbftSafety.v: agreement of a system with Byzantine replicas.  PbftView.v:
      termination, and what the view change checks.  PbftProps.v: the theorems.
    - MirBft.v, MirProps.v (src/protocols/mirbft).
    - MinBft.v, MinProps.v (src/protocols/minbft).
    - ChainHotstuff.v, HotstuffSafety.v, HotstuffProps.v
      (src/protocols/chainhotstuff).
    - Dispel.v, DispelSafety.v (the invariant), DispelEnds.v (termination),
      DispelProps.v (src/protocols/dispel).
    - Sbft.v, SbftSafety.v (the invariant), SbftProps.v (src/protocols/sbft).
    - Dqpbft.v, DqpbftSafety.v (the ordering of the batches), DqpbftDeliver.v
      (the delivery), DqpbftProps.v (src/protocols/dqpbft).
    - Signer.v (src/utils/signer): ECDSA signatures.  Duobft.v, DuobftSafety.v
      (the invariant), DuobftProps.v (src/protocols/duobft).
    - GoSort.v: package sort.  Trinx.v (src/enclaves/trinx): the Go half of the
      TrInX enclave.  Hybster.v, HybsterSafety.v (the invariant, what a replica
      has sent), HybsterProps.v (src/protocols/hybster).
    - Network.v: a network of replicas of one protocol with faulty ones, whose
      runs are computed; what its correct replicas are fed.
    - Prime.v, PrimeSafety.v (the invariant), PrimeEnds.v (termination),
      PrimeProps.v (src/protocols/prime).
    - ChainDuo.v (src/protocols/multichainduobft/chainduobft): a chain of DuoBFT.
      ChainDuoSafety.v: what a replica that follows the leader keeps to (the
      ledger of the leader's blocks).  ChainDuoLeader.v: what the leader keeps
      to.  ChainDuoNet.v: a network of them.  ChainDuoEnds.v: termination.
      ChainDuoProps.v: the theorems.
    - Rcc.v, RccProps.v (src/protocols/rcc): a protocol over the class
      [Protocol], as the Go code is one over the Go interface.
    - Wire.v: the concrete parameters.  RuntimeProps.v: the theorems of the
      shared parts.

    State corresponds to the Go structs field by field (a field that only logs
    or measures is left out), operations have the names of the Go functions; a
    part of a Go function that needed a name of its own (a loop body, a block
    that two handlers share) says which in its comment.

    ** What the theorems show

    - Safety of protocols: two correct PBFT replicas of a system with at most
      [f] faulty ones never execute different commands at an index, and so reach
      the same store ([pbft_agreement], [pbft_stores_agree]), by refinement of
      abstract voting ([pbft_refines_voting]); what a Chained HotStuff replica
      locks and executes has verified chains of certificates
      ([hs_lock_justified]), also when it runs under a peer
      ([hs_peer_executes_decided]); what MinBFT commits has its votes
      ([minbft_commit_backed]); what Dispel delivers is decided and broadcast
      ([dispel_delivers_decided], with what backs a decision and a broadcast);
      SBFT replicas that get no requests, and no commands in shares and commits,
      execute the same commands ([sbft_agreement]); what happens otherwise is in
      [sbft_share_poisons] and [sbft_leader_diverges]; DQPBFT replicas that
      follow the ordering commit batches with the same hash at an index
      ([dq_ordering_agreement]), which are the same batches only when the hash
      tells them apart ([dq_batches_diverge]); DuoBFT replicas execute the same
      commands under the slow of its two rules ([duo_agreement]), not under the
      fast one ([duo_fast_equivocation]), and in no common order
      ([duo_rules_reorder]); Hybster replicas agree within a view however many
      are faulty ([hyb_agreement]); in every run of a network, Prime replicas
      agree on the command of an instance and execute those of a replica in order
      ([prime_replicas_agree]), as long as nobody proposes a replica's instances
      to it ([prime_foreign_proposal]), but not on the order of the whole
      ([prime_leader_diverges], [prime_commits_uncertified]); in every run of a
      network in which only the leader proposes, the replicas of a DuoBFT chain
      execute prefixes of one list of its requests by the fast rule
      ([chain_fast_agreement]), but the slow rule can skip a command
      ([chain_slow_skips]), and one faulty replica can stop both
      ([chain_doubled_vote_stops]).
    - View changes: a Hybster replica enters the new views that the checks of
      [hyb_new_view_justified] let through, which is not enough to keep what
      was committed ([hyb_view_change_forgets]); and no replica asks for one
      ([hyb_never_leaves]).
    - Execution: in order, once each, and equal to reference definitions
      ([pbft_executes_in_order], [minbft_executes_in_order],
      [mir_exec_delivers], [hs_commit_executes_branch], [dq_delivers_batches],
      [applier_refines_map]).
    - Composition: the peer refines the runs of its protocol
      ([peer_refines_runs]); RCC composes runs of its replicators
      ([rcc_composes]).
    - The shared parts: pools, tracker, buffer, quorums, commands.
    - Round trips of certificates; termination of every handler; and the error
      behaviour that the model brought to light, each proved on a reachable state
      or from the handler's code.

    ** Fuel

    [loop] and the recursive handlers take fuel computed from the state: the
    [exec] loops the size of their log plus one (an executed instance, or batch
    of DQPBFT, is not executed again), of DuoBFT that of its heap, [sort_Search]
    the length of its interval, [AsyncCallback] the length of its channel plus one, the
    view-change loops of PBFT the number of PSet entries plus one, [commit] of
    HotStuff the number of blocks plus one, [binaryPropose] of Dispel the number
    of rounds of the instance plus two (a round sends its Aux message once), the
    loops of Prime over the instances of a replica the size of the log plus one
    (they stop at an index that is not there), the walks and commits of a DuoBFT
    chain the number of its stored blocks plus two (heights fall on the way to
    the genesis block), its handlers of proposals the size of the queue plus two
    (each call takes a proposal out), its [AsyncCallback] twenty steps for each
    callback and queued proposal ([chain_bounds_suffice]; this bound is proved for
    the replicas that do not lead).
    The [*_terminates] theorems show that it never runs out, under the bounds
    on sizes that they state (an index does not wrap around).

    ** What is not modelled

    Transport, process set-up, discovery, the experiment runner, logging and
    metrics (I/O); the enclaves (native code in submodules); protobuf code
    (generated); [Peer.HandleCommand] (a gRPC stream) and [Peer.Stop].  Of the
    protocols: LinHybster and HybsterX, SBFT-slow and SBFTx, DQSBFT-slow and
    Destiny, variants of those above, and the merge of several DuoBFT chains
    (multichainduobft.go), whose chains are modelled.  Liveness of a
    network of replicas, and the safety of view changes (which the findings
    show not to hold in PBFT), are not stated. *)
From Stdlib Require Export Strings.Byte.
From stdpp Require Export base tactics list gmap sets strings.
From stdpp Require Export numbers fin_maps.

#[export] Set Warnings "-clear-no-such-hyp,-postfix-notation-not-level-1".

Declare Scope go_scope.
Delimit Scope go_scope with go.

(** ** Go values *)

(** A Go [[]byte]: [None] is the nil slice, which differs from the empty one
    under [== nil] and not under [bytes.Equal]. *)
Abbreviation bytes := (list Byte.byte) (only parsing).
Abbreviation slice := (option (list Byte.byte)) (only parsing).

#[export] Instance byte_eq_dec : EqDecision Byte.byte := Byte.byte_eq_dec.

#[export] Program Instance byte_countable : Countable Byte.byte :=
  inj_countable Byte.to_N Byte.of_N Byte.of_to_N.

(** Go's [bytes.Equal]. *)
Definition bytes_Equal (a b : slice) : bool :=
  bool_decide (default [] a = default [] b).

(** The relation [bytes_Equal] decides: equality up to nil against empty. *)
Definition slice_eqv (a b : slice) : Prop := default [] a = default [] b.
Infix "≈" := slice_eqv (at level 70) : go_scope.
Open Scope go_scope.

#[export] Instance slice_eqv_equiv : Equivalence slice_eqv.
Proof. unfold slice_eqv. split; [intros ?|intros ???|intros ?????]; congruence. Qed.

#[export] Instance slice_eqv_dec : RelDecision slice_eqv.
Proof. unfold slice_eqv. solve_decision. Defined.

#[export] Instance bytes_Equal_proper :
  Proper (slice_eqv ==> slice_eqv ==> eq) bytes_Equal.
Proof.
  intros a a' Ha b b' Hb. unfold bytes_Equal, slice_eqv in *. by rewrite Ha, Hb.
Qed.

Lemma bytes_Equal_spec a b : bytes_Equal a b = true ↔ a ≈ b.
Proof. unfold bytes_Equal, slice_eqv. by rewrite bool_decide_eq_true. Qed.

Lemma bytes_Equal_refl a : bytes_Equal a a = true.
Proof. by apply bytes_Equal_spec. Qed.

(** Machine integers: [uint64] values are [Z] in [[0, 2^64)], with the
    wrap-around written out; [i64] is Go's [int(x)] of a [uint64]. *)
Definition two64 : Z := 18446744073709551616.
Definition two63 : Z := 9223372036854775808.
Definition u64 (z : Z) : Z := z `mod` two64.
Definition i64 (z : Z) : Z :=
  if decide (u64 z < two63)%Z then u64 z else (u64 z - two64)%Z.

Lemma u64_range z : (0 ≤ u64 z < two64)%Z.
Proof. unfold u64, two64. apply Z.mod_pos_bound. lia. Qed.

Lemma u64_id z : (0 ≤ z < two64)%Z → u64 z = z.
Proof. intros. unfold u64. by apply Z.mod_small. Qed.

Lemma u64_add_l a b : u64 (u64 a + b) = u64 (a + b).
Proof. unfold u64. by rewrite Zplus_mod_idemp_l. Qed.
Lemma u64_u64 z : u64 (u64 z) = u64 z.
Proof. apply u64_id, u64_range. Qed.

Lemma i64_id z : (0 ≤ z < two63)%Z → i64 z = z.
Proof.
  intros Hz. unfold i64. rewrite u64_id by (unfold two63, two64 in *; lia).
  rewrite decide_True; lia.
Qed.

(** An [int32]. *)
Definition i32 (z : Z) : Z := ((z + 2147483648) `mod` 4294967296 - 2147483648)%Z.

Lemma i32_id z : (-2147483648 ≤ z < 2147483648)%Z → i32 z = z.
Proof. intros. unfold i32. rewrite Z.mod_small; lia. Qed.

(** The [k] words from [x] on, with the wrap-around; fewer than [2^64] of them
    are distinct. *)
Definition slots (x : Z) (k : nat) : list Z := (λ i : nat, u64 (x + Z.of_nat i)) <$> seq 0 k.

Lemma slots_NoDup x k : (Z.of_nat k < two64)%Z → NoDup (slots x k).
Proof.
  intros Hk. unfold slots. apply NoDup_fmap_2_strong; [|apply NoDup_seq].
  intros i j Hi%elem_of_seq Hj%elem_of_seq Heq. unfold u64 in Heq.
  assert ((Z.of_nat i - Z.of_nat j) `mod` two64 = 0)%Z as Hm.
  { replace (Z.of_nat i - Z.of_nat j)%Z with ((x + Z.of_nat i) - (x + Z.of_nat j))%Z by lia.
    rewrite Zminus_mod, Heq, Z.sub_diag. done. }
  apply Z.mod_divide in Hm as [q Hq]; [|done]. unfold two64 in *. nia.
Qed.

Lemma slots_S x k : slots x (S k) = slots x k ++ [u64 (x + Z.of_nat k)].
Proof. unfold slots. by rewrite seq_S, fmap_app. Qed.

Lemma slots_size x k (X : gset Z) :
  (Z.of_nat k < two64)%Z → (∀ s, s ∈ slots x k → s ∈ X) → k ≤ size X.
Proof.
  intros Hk Hin. assert (size (list_to_set (slots x k) : gset Z) = k) as <-.
  { rewrite size_list_to_set by by apply slots_NoDup. unfold slots. by rewrite length_fmap, length_seq. }
  apply subseteq_size. intros s. rewrite elem_of_list_to_set. auto.
Qed.

(** ** Outcomes, and the state-and-panic monad

    [Panic] is a Go panic, a nil dereference or [logger.Fatalf] (which exits):
    all of them stop the process.  [Diverge] is a loop that did not end within
    the fuel it was given. *)
Inductive outcome (A : Type) : Type :=
| Ret (a : A)
| Panic (why : string)
| Diverge.
Arguments Ret {A} a.
Arguments Panic {A} why%_string.
Arguments Diverge {A}.

#[export] Instance outcome_ret : MRet outcome := @Ret.
#[export] Instance outcome_bind : MBind outcome := λ A B k m,
  match m with Ret a => k a | Panic w => Panic w | Diverge => Diverge end.

(** A method on a receiver of type [S]. *)
Definition M (S A : Type) : Type := S → outcome (A * S).
#[export] Instance M_ret S : MRet (M S) := λ A a s, Ret (a, s).
#[export] Instance M_bind S : MBind (M S) := λ A B k m s,
  match m s with
  | Ret (a, s') => k a s'
  | Panic w => Panic w
  | Diverge => Diverge
  end.

Section monad.
Context {S A : Type}.
Definition get : M S S := λ s, Ret (s, s).
Definition gets (g : S → A) : M S A := λ s, Ret (g s, s).
Definition modify (g : S → S) : M S unit := λ s, Ret (tt, g s).
Definition panic (why : string) : M S A := λ _, Panic why.
(** A receiver-free computation run inside a method. *)
Definition lift (o : outcome A) : M S A := λ s,
  match o with Ret a => Ret (a, s) | Panic w => Panic w | Diverge => Diverge end.
(** [when b m]: Go's [if b { m }]. *)
Definition when (b : bool) (m : M S unit) : M S unit := if b then m else mret tt.
End monad.
Arguments panic {S A} why%_string.

(** Go's [for { ... }]: the body returns [true] to go round again. *)
Fixpoint loop {S} (fuel : nat) (body : M S bool) : M S unit :=
  match fuel with
  | O => λ _, Diverge
  | Datatypes.S n => b ← body; if (b : bool) then loop n body else mret tt
  end.

(** Go's [for _, x := range l { body x }]. *)
Fixpoint for_each {S A} (l : list A) (body : A → M S unit) : M S unit :=
  match l with
  | [] => mret tt
  | x :: l => body x;; for_each l body
  end.

Fixpoint for_out {A B} (l : list A) (acc : B) (body : A → B → outcome B) : outcome B :=
  match l with
  | [] => Ret acc
  | x :: l => acc ← body x acc; for_out l acc body
  end.

(** Go ranges over a map in an unspecified order: [range m] is some list of
    its entries. *)
Class MapRange := {
  range : ∀ {V : Type}, gmap Z V → list (Z * V);
  range_perm V (m : gmap Z V) : range m ≡ₚ map_to_list m;
}.

(** Go's [b[lo:hi]] of a byte slice (its capacity taken to be its length). *)
Definition sub_slice (b : bytes) (lo hi : Z) : outcome bytes :=
  if decide (0 ≤ lo ≤ hi ∧ hi ≤ Z.of_nat (length b))%Z
  then Ret (take (Z.to_nat (hi - lo)) (drop (Z.to_nat lo) b))
  else Panic "slice bounds out of range".

(** Slice number [i] of [n] equal slices joined. *)
Lemma sub_slice_join (c : bytes) (n i : nat) :
  i < n → sub_slice (mjoin (replicate n c)) (Z.of_nat (i * length c))
            (Z.of_nat (i * length c + length c)) = Ret c.
Proof.
  intros Hi. unfold sub_slice.
  assert (length (mjoin (replicate n c)) = n * length c) as Hl.
  { clear Hi. induction n as [|n IH]; [done|]. simpl. rewrite length_app, IH. done. }
  rewrite decide_True by (rewrite Hl; nia). rewrite Nat2Z.id.
  replace (Z.to_nat _) with (length c) by lia. clear Hl. f_equal.
  revert n Hi. induction i as [|i IH]; intros [|n] Hi; [lia| |lia|]; simpl.
  - by rewrite drop_0, take_app_length.
  - rewrite drop_app_add. apply IH. lia.
Qed.

(** [binary.LittleEndian] on 64-bit words. *)
Definition byte_of_Z (z : Z) : Byte.byte := default Byte.x00 (Byte.of_N (Z.to_N (z `mod` 256))).
Definition Z_of_byte (b : Byte.byte) : Z := Z.of_N (Byte.to_N b).
Fixpoint le_encode (n : nat) (z : Z) : bytes :=
  match n with O => [] | S n => byte_of_Z z :: le_encode n (z / 256) end.
Fixpoint le_decode (l : bytes) : Z :=
  match l with [] => 0 | b :: l => Z_of_byte b + 256 * le_decode l end.
Definition LittleEndian_PutUint64 (z : Z) : bytes := le_encode 8 z.
Definition LittleEndian_Uint64 (l : bytes) : outcome Z :=
  if decide (8 ≤ length l) then Ret (le_decode (take 8 l)) else Panic "index out of range".

Lemma Z_of_byte_of_Z z : Z_of_byte (byte_of_Z z) = (z `mod` 256)%Z.
Proof.
  unfold Z_of_byte, byte_of_Z. pose proof (Z.mod_pos_bound z 256 ltac:(lia)).
  destruct (Byte.of_N (Z.to_N (z `mod` 256))) as [b|] eqn:Hb; simpl.
  - apply Byte.to_of_N in Hb. rewrite Hb. lia.
  - apply Byte.of_N_None_iff in Hb. lia.
Qed.

Lemma le_decode_encode n z : (0 ≤ z < 256 ^ Z.of_nat n)%Z → le_decode (le_encode n z) = z.
Proof.
  revert z. induction n as [|n IH]; intros z Hz; simpl; [simpl in Hz; lia|].
  rewrite Z_of_byte_of_Z, IH.
  - pose proof (Z.div_mod z 256 ltac:(lia)). lia.
  - rewrite Nat2Z.inj_succ, Z.pow_succ_r in Hz by lia.
    split; [apply Z.div_pos; lia|]. apply Z.div_lt_upper_bound; lia.
Qed.

Lemma length_le_encode n z : length (le_encode n z) = n.
Proof. revert z. induction n as [|n IH]; intros z; simpl; [done|]. by rewrite IH. Qed.

Lemma LittleEndian_roundtrip z :
  (0 ≤ z < two64)%Z → LittleEndian_Uint64 (LittleEndian_PutUint64 z) = Ret z.
Proof.
  intros Hz. unfold LittleEndian_Uint64, LittleEndian_PutUint64.
  rewrite decide_True by (rewrite length_le_encode; lia).
  rewrite take_ge by (rewrite length_le_encode; lia). f_equal. by apply le_decode_encode.
Qed.

(** Go's [x % y] on [int]s: truncated division. *)
Definition go_rem (x y : Z) : outcome Z :=
  if decide (y = 0)%Z then Panic "integer divide by zero" else Ret (Z.rem x y).

(** [PeerID(int(view) % len(nodes))], the leader of a view in several protocols:
    the conversion of a view to [int] is signed. *)
Definition leader_of (view : Z) (n : nat) : outcome Z :=
  r ← go_rem (i64 view) (Z.of_nat n); Ret (u64 r).

Lemma leader_of_small view n :
  (0 ≤ view < two63)%Z → 0 < n → (Z.of_nat n < two63)%Z →
  leader_of view n = Ret (view `mod` Z.of_nat n)%Z.
Proof.
  intros Hv Hn Hn'. unfold leader_of, go_rem. rewrite i64_id, decide_False by lia. simpl.
  rewrite Z.rem_mod_nonneg by lia.
  pose proof (Z.mod_pos_bound view (Z.of_nat n)).
  rewrite u64_id; [done|]. unfold two63, two64 in *. lia.
Qed.

(** ** Maps *)

(** The measure of the [exec] loops: one entry fewer passes the filter. *)
Lemma map_filter_insert_size_lt {K A} `{Countable K} (P : K * A → Prop) `{∀ x, Decision (P x)}
    (m : gmap K A) i x x' :
  m !! i = Some x → P (i, x) → ¬ P (i, x') → size (filter P (<[i := x']> m)) < size (filter P m).
Proof.
  intros Hi Hx Hx'. rewrite map_filter_insert_False, map_filter_delete by done.
  assert (filter P m !! i = Some x) as Hf by by apply map_lookup_filter_Some.
  rewrite map_size_delete_Some by eauto. assert (size (filter P m) ≠ 0); [|lia].
  intros Hz%map_size_empty_inv. rewrite Hz in Hf. by rewrite lookup_empty in Hf.
Qed.

(** ** Weakest preconditions

    [wp m Q s]: if method [m] returns from state [s], [Q] holds of its result
    and final state.  [wp_total] also asks that it returns. *)
Definition wp {S A} (m : M S A) (Q : A → S → Prop) (s : S) : Prop :=
  match m s with Ret (a, s') => Q a s' | _ => True end.
Definition wp_total {S A} (m : M S A) (Q : A → S → Prop) (s : S) : Prop :=
  match m s with Ret (a, s') => Q a s' | _ => False end.

Section wp.
Context {S A : Type}.
Implicit Types (m : M S A) (s : S).

Lemma wp_ret (a : A) (Q : A → S → Prop) s : Q a s → wp (mret a) Q s.
Proof. done. Qed.
Lemma wp_bind {B} (m : M S B) (k : B → M S A) Q s :
  wp m (λ b, wp (k b) Q) s → wp (m ≫= k) Q s.
Proof. unfold wp, mbind, M_bind. by destruct (m s) as [[b s']| |]. Qed.
Lemma wp_mono m (Q Q' : A → S → Prop) s :
  wp m Q s → (∀ a s', Q a s' → Q' a s') → wp m Q' s.
Proof. unfold wp. destruct (m s) as [[b s']| |]; auto. Qed.
Lemma wp_get (Q : S → S → Prop) s : Q s s → wp get Q s.
Proof. done. Qed.
Lemma wp_gets (g : S → A) Q s : Q (g s) s → wp (gets g) Q s.
Proof. done. Qed.
Lemma wp_modify (g : S → S) Q s : Q tt (g s) → wp (modify g) Q s.
Proof. done. Qed.
Lemma wp_panic w (Q : A → S → Prop) s : wp (panic w) Q s.
Proof. done. Qed.
Lemma wp_lift (o : outcome A) Q s : (∀ a, o = Ret a → Q a s) → wp (lift o) Q s.
Proof. unfold wp, lift. destruct o; auto. Qed.
Lemma wp_when b (m : M S unit) Q s :
  (b = true → wp m Q s) → (b = false → Q tt s) → wp (when b m) Q s.
Proof. destruct b; [auto|]. intros _ H. by apply H. Qed.
Lemma wp_if (b : bool) (m1 m2 : M S A) Q s :
  (b = true → wp m1 Q s) → (b = false → wp m2 Q s) → wp (if b then m1 else m2) Q s.
Proof. destruct b; auto. Qed.
Lemma wp_match_option {B} (o : option B) (m1 : B → M S A) (m2 : M S A) Q s :
  (∀ b, o = Some b → wp (m1 b) Q s) → (o = None → wp m2 Q s) →
  wp (match o with Some b => m1 b | None => m2 end) Q s.
Proof. destruct o; auto. Qed.

(** [wp] is what a run that returns gives. *)
Lemma wp_run m Q s a s' : wp m Q s → m s = Ret (a, s') → Q a s'.
Proof. unfold wp. intros H E. by rewrite E in H. Qed.
End wp.

(** One step of a run. *)
Lemma run_bind {S A B} (m : M S A) (k : A → M S B) s a s' :
  m s = Ret (a, s') → (m ≫= k) s = k a s'.
Proof. unfold mbind, M_bind. by intros ->. Qed.

Lemma wp_loop {S} (I : S → Prop) (Q : unit → S → Prop) n (body : M S bool) s :
  (∀ s, I s → wp body (λ b s', if b then I s' else Q tt s') s) →
  I s → wp (loop n body) Q s.
Proof.
  intros Hb. revert s. induction n as [|n IH]; intros s HI; [done|].
  apply wp_bind. eapply wp_mono; [by apply Hb|].
  intros [] s' H; [by apply IH | done].
Qed.

Lemma wp_for_each {S A} (I : S → Prop) (l : list A) (body : A → M S unit) s :
  (∀ x s, x ∈ l → I s → wp (body x) (λ _, I) s) → I s → wp (for_each l body) (λ _, I) s.
Proof.
  intros Hb. revert s. induction l as [|x l IH]; intros s HI; [done|].
  apply wp_bind. eapply wp_mono; [apply Hb; [left|done]|].
  intros ? s' H. apply IH; [|done]. intros y s'' Hy. apply Hb. by right.
Qed.

(** [wp] of a conjunction, and of a loop whose invariant depends on the part done. *)
Lemma wp_and {S A} (m : M S A) (Q1 Q2 : A → S → Prop) s :
  wp m Q1 s → wp m Q2 s → wp m (λ a s', Q1 a s' ∧ Q2 a s') s.
Proof. unfold wp. by destruct (m s) as [[? ?]| |]. Qed.

Lemma wp_for_each_done {S A} (I : list A → S → Prop) (l : list A) (body : A → M S unit) s :
  (∀ done x rest s, l = done ++ x :: rest → I done s → wp (body x) (λ _, I (done ++ [x])) s) →
  I [] s → wp (for_each l body) (λ _, I l) s.
Proof.
  intros Hb. cut (∀ rest done s, l = done ++ rest → I done s → wp (for_each rest body) (λ _, I l) s).
  { intros Hcut Hs. by apply (Hcut l []). }
  intros rest. induction rest as [|x rest IH]; intros done s0 Hl Hs; simpl.
  { rewrite app_nil_r in Hl. by subst. }
  apply wp_bind. eapply wp_mono; [by eapply Hb|]. simpl. intros _ s1 Hs1.
  apply (IH (done ++ [x])); [by rewrite <-app_assoc|done].
Qed.

(** ** Termination

    [ends m s]: run from [s], [m] returns or panics; no loop runs out of fuel. *)
Definition ends {S A} (m : M S A) (s : S) : Prop := m s ≠ Diverge.

Section ends.
Context {S A : Type}.
Implicit Types (m : M S A) (s : S).

Lemma ends_ret (a : A) s : ends (mret a) s.
Proof. done. Qed.
Lemma ends_bind {B} (m : M S B) (k : B → M S A) s :
  ends m s → (∀ b s', m s = Ret (b, s') → ends (k b) s') → ends (m ≫= k) s.
Proof.
  unfold ends, mbind, M_bind. intros Hm Hk. destruct (m s) as [[b s']| |]; try done.
  by apply Hk.
Qed.
(** With a fact about the state after [m]. *)
Lemma ends_bind_wp {B} (m : M S B) (k : B → M S A) Q s :
  ends m s → wp m Q s → (∀ b s', Q b s' → ends (k b) s') → ends (m ≫= k) s.
Proof. intros Hm Hw Hk. apply ends_bind; [done|]. intros b s' E. by eapply Hk, wp_run. Qed.
Lemma ends_get s : ends get s.
Proof. done. Qed.
Lemma ends_modify (g : S → S) s : ends (modify g) s.
Proof. done. Qed.
Lemma ends_panic w s : ends (panic w : M S A) s.
Proof. done. Qed.
Lemma ends_lift (o : outcome A) s : o ≠ Diverge → ends (lift o) s.
Proof. unfold ends, lift. by destruct o. Qed.
Lemma ends_when b (m : M S unit) s : ends m s → ends (when b m) s.
Proof. by destruct b. Qed.
End ends.

Lemma bind_ends {A B} (o : outcome A) (k : A → outcome B) :
  o ≠ Diverge → (∀ a, o = Ret a → k a ≠ Diverge) → o ≫= k ≠ Diverge.
Proof. unfold mbind, outcome_bind. destruct o; auto. Qed.

Lemma for_each_ends {S A} (l : list A) (body : A → M S unit) s :
  (∀ x s, x ∈ l → ends (body x) s) → ends (for_each l body) s.
Proof.
  revert s. induction l as [|x l IH]; intros s Hb; simpl; [done|].
  apply ends_bind; [apply Hb; by left|]. intros ? s' _. apply IH. intros y s'' ?. apply Hb. by right.
Qed.

Lemma for_out_ends {A B} (l : list A) (acc : B) (body : A → B → outcome B) :
  (∀ x acc, x ∈ l → body x acc ≠ Diverge) → for_out l acc body ≠ Diverge.
Proof.
  revert acc. induction l as [|x l IH]; intros acc Hb; simpl; [done|].
  apply bind_ends; [apply Hb; by left|]. intros acc' _. apply IH. intros y ? ?. apply Hb. by right.
Qed.

(** [mapM] over outcomes runs until the first that does not return. *)
Lemma mapM_ends {A B} (g : A → outcome B) l : (∀ x, x ∈ l → g x ≠ Diverge) → mapM g l ≠ Diverge.
Proof.
  induction l as [|x l IH]; intros Hg; simpl; [done|]. apply bind_ends; [apply Hg; by left|]. intros y _.
  apply bind_ends; [|done]. apply IH. intros z Hz. apply Hg. by right.
Qed.
Lemma mapM_Ret {A B} (g : A → outcome B) l k : mapM g l = Ret k → Forall2 (λ x y, g x = Ret y) l k.
Proof.
  revert k. induction l as [|x l IH]; intros k; simpl; [intros [= <-]; constructor|].
  destruct (g x) as [y| |] eqn:Hx; simpl; [|done..]. destruct (mapM g l) as [k'| |]; simpl; [|done..].
  intros [= <-]. constructor; [done|by apply IH].
Qed.
(** What holds of the elements treated so far and the accumulator. *)
Lemma for_out_inv {A B} (I : list A → B → Prop) (body : A → B → outcome B) l acc r :
  (∀ done x acc acc', I done acc → body x acc = Ret acc' → I (done ++ [x]) acc') →
  I [] acc → for_out l acc body = Ret r → I l r.
Proof.
  intros Hb. cut (∀ rest done acc, I done acc → for_out rest acc body = Ret r → I (done ++ rest) r).
  { intros Hcut Hacc. by apply (Hcut l []). }
  intros rest. induction rest as [|x rest IH]; intros done acc0 Hi; simpl; [intros [= <-]; by rewrite app_nil_r|].
  destruct (body x acc0) as [acc1| |] eqn:Hx; simpl; [|done..]. intros Hr.
  replace (done ++ x :: rest) with ((done ++ [x]) ++ rest) by by rewrite <-app_assoc.
  eapply IH; [by eapply Hb|done].
Qed.

(** A loop ends when every round that continues makes a measure smaller. *)
Lemma loop_ends {S} (I : S → Prop) (μ : S → nat) (body : M S bool) n s :
  (∀ s, I s → ends body s ∧ wp body (λ b s', b = true → I s' ∧ μ s' < μ s) s) →
  I s → μ s < n → ends (loop n body) s.
Proof.
  intros Hb. revert s. induction n as [|n IH]; intros s HI Hn; [lia|]. simpl.
  destruct (Hb s HI) as [He Hw]. eapply ends_bind_wp; [done..|].
  intros [] s' Hs'; [|done]. destruct Hs'; [done|]. apply IH; [done|lia].
Qed.

Lemma loop_fuel_mono {S} (body : M S bool) n k s :
  loop n body s ≠ Diverge → loop (n + k) body s = loop n body s.
Proof.
  revert s. induction n as [|n IH]; intros s; [done|]. simpl.
  unfold mbind, M_bind. destruct (body s) as [[[] s']| |]; auto.
Qed.

(** [twp m Q s]: from [s], method [m] does not run out of fuel, and [Q] holds if
    it returns: [wp] and [ends] in one, for loops whose bound depends on what
    the earlier steps kept. *)
Definition twp {S A} (m : M S A) (Q : A → S → Prop) (s : S) : Prop :=
  match m s with Ret (a, s') => Q a s' | Panic _ => True | Diverge => False end.

Section twp.
Context {S A : Type}.
Implicit Types (m : M S A) (s : S).

Lemma twp_intro m Q s : ends m s → wp m Q s → twp m Q s.
Proof. unfold ends, wp, twp. by destruct (m s) as [[? ?]| |]. Qed.
Lemma twp_and m (Q1 Q2 : A → S → Prop) s :
  twp m Q1 s → wp m Q2 s → twp m (λ a s', Q1 a s' ∧ Q2 a s') s.
Proof. unfold wp, twp. by destruct (m s) as [[? ?]| |]. Qed.
Lemma twp_wp m Q s : twp m Q s → wp m Q s.
Proof. unfold wp, twp. by destruct (m s) as [[? ?]| |]. Qed.
Lemma twp_ends m Q s : twp m Q s → ends m s.
Proof. unfold ends, twp. by destruct (m s) as [[? ?]| |]. Qed.
Lemma twp_ret (a : A) (Q : A → S → Prop) s : Q a s → twp (mret a) Q s.
Proof. done. Qed.
Lemma twp_bind {B} (m : M S B) (k : B → M S A) Q s :
  twp m (λ b, twp (k b) Q) s → twp (m ≫= k) Q s.
Proof. unfold twp, mbind, M_bind. by destruct (m s) as [[b s']| |]. Qed.
Lemma twp_mono m (Q Q' : A → S → Prop) s :
  twp m Q s → (∀ a s', Q a s' → Q' a s') → twp m Q' s.
Proof. unfold twp. destruct (m s) as [[b s']| |]; auto. Qed.
Lemma twp_get (Q : S → S → Prop) s : Q s s → twp get Q s.
Proof. done. Qed.
Lemma twp_modify (g : S → S) Q s : Q tt (g s) → twp (modify g) Q s.
Proof. done. Qed.
Lemma twp_panic w (Q : A → S → Prop) s : twp (panic w) Q s.
Proof. done. Qed.
Lemma twp_lift (o : outcome A) Q s : o ≠ Diverge → (∀ a, o = Ret a → Q a s) → twp (lift o) Q s.
Proof. unfold twp, lift. destruct o; auto. Qed.
Lemma twp_when b (m : M S unit) Q s :
  (b = true → twp m Q s) → (b = false → Q tt s) → twp (when b m) Q s.
Proof. destruct b; [auto|]. intros _ H. by apply H. Qed.
Lemma twp_if (b : bool) (m1 m2 : M S A) Q s :
  (b = true → twp m1 Q s) → (b = false → twp m2 Q s) → twp (if b then m1 else m2) Q s.
Proof. destruct b; auto. Qed.
End twp.

Lemma twp_for_each {S A} (I : S → Prop) (l : list A) (body : A → M S unit) s :
  (∀ x s, x ∈ l → I s → twp (body x) (λ _, I) s) → I s → twp (for_each l body) (λ _, I) s.
Proof.
  intros Hb. revert s. induction l as [|x l IH]; intros s HI; [done|].
  apply twp_bind. eapply twp_mono; [apply Hb; [left|done]|].
  intros ? s' H. apply IH; [|done]. intros y s'' Hy. apply Hb. by right.
Qed.

Lemma leader_of_ends view n : leader_of view n ≠ Diverge.
Proof. unfold leader_of, go_rem. by case_decide. Qed.
Lemma sub_slice_ends b lo hi : sub_slice b lo hi ≠ Diverge.
Proof. unfold sub_slice. by case_decide. Qed.
Lemma LittleEndian_ends l : LittleEndian_Uint64 l ≠ Diverge.
Proof. unfold LittleEndian_Uint64. by case_decide. Qed.

(** The lemmas [ends_step] closes leaves with. *)
Create HintDb go_ends discriminated.
#[export] Hint Resolve leader_of_ends sub_slice_ends LittleEndian_ends : go_ends.

(** ** Frames: [keeps g m s] when [m], run from [s], leaves [g] of the state as it was *)
Definition keeps {S A T} (g : S → T) (m : M S A) (s : S) : Prop := wp m (λ _ s', g s' = g s) s.

Section keeps.
Context {S T : Type} (g : S → T).

Lemma keeps_ret {A} (a : A) s : keeps g (mret a) s.
Proof. done. Qed.
Lemma keeps_bind {A B} (m : M S B) (k : B → M S A) s :
  keeps g m s → (∀ b s', g s' = g s → keeps g (k b) s') → keeps g (m ≫= k) s.
Proof.
  unfold keeps. intros Hm Hk. apply wp_bind. eapply wp_mono; [done|]. intros b s' Hs'.
  eapply wp_mono; [by apply Hk|]. simpl. congruence.
Qed.
Lemma keeps_get s : keeps g get s.
Proof. done. Qed.
Lemma keeps_modify (h : S → S) s : g (h s) = g s → keeps g (modify h) s.
Proof. done. Qed.
Lemma keeps_panic {A} w s : keeps g (panic w : M S A) s.
Proof. done. Qed.
Lemma keeps_lift {A} (o : outcome A) s : keeps g (lift o) s.
Proof. by apply wp_lift. Qed.
Lemma keeps_when b (m : M S unit) s : keeps g m s → keeps g (when b m) s.
Proof. by destruct b. Qed.
Lemma keeps_for_each {A} (l : list A) (body : A → M S unit) s :
  (∀ x s, keeps g (body x) s) → keeps g (for_each l body) s.
Proof.
  intros Hb. apply (wp_for_each (λ s', g s' = g s)); [|done].
  intros x s' _ Hs'. eapply wp_mono; [apply Hb|]. simpl. congruence.
Qed.
Lemma keeps_loop n (body : M S bool) s :
  (∀ s, keeps g body s) → keeps g (loop n body) s.
Proof.
  intros Hb. apply (wp_loop (λ s', g s' = g s)); [|done].
  intros s' Hs'. eapply wp_mono; [apply Hb|]. intros [] s'' Hs''; simpl in *; congruence.
Qed.
End keeps.

(** Termination of a bind whose first part leaves a frame. *)
Lemma ends_bind_keeps {S A B T} (g : S → T) (m : M S B) (k : B → M S A) s :
  ends m s → keeps g m s → (∀ b s', g s' = g s → ends (k b) s') → ends (m ≫= k) s.
Proof. intros Hm Hk. by apply ends_bind_wp. Qed.

Create HintDb go_keeps discriminated.

(** ** Invariants: [preserves I m] when [m], run from a state with [I], ends in one *)
Definition preserves {S A} (I : S → Prop) (m : M S A) : Prop := ∀ s, I s → wp m (λ _, I) s.

Section preserves.
Context {S : Type} (I : S → Prop).

Lemma preserves_ret {A} (a : A) : preserves I (mret a).
Proof. by intros s. Qed.
Lemma preserves_bind {A B} (m : M S B) (k : B → M S A) :
  preserves I m → (∀ b, preserves I (k b)) → preserves I (m ≫= k).
Proof. intros Hm Hk s Hs. apply wp_bind. eapply wp_mono; [by apply Hm|]. intros b s'. apply Hk. Qed.
Lemma preserves_get : preserves I get.
Proof. by intros s. Qed.
Lemma preserves_gets {A} (g : S → A) : preserves I (gets g).
Proof. by intros s. Qed.
Lemma preserves_modify (g : S → S) : (∀ s, I s → I (g s)) → preserves I (modify g).
Proof. intros Hg s. apply Hg. Qed.
Lemma preserves_panic {A} w : preserves I (panic w : M S A).
Proof. intros s _. apply wp_panic. Qed.
Lemma preserves_lift {A} (o : outcome A) : preserves I (lift o).
Proof. intros s Hs. by apply wp_lift. Qed.
Lemma preserves_when b (m : M S unit) : preserves I m → preserves I (when b m).
Proof. intros Hm. destruct b; [done|apply preserves_ret]. Qed.
Lemma preserves_for_each {A} (l : list A) (body : A → M S unit) :
  (∀ x, preserves I (body x)) → preserves I (for_each l body).
Proof. intros Hb s. apply wp_for_each. intros x s' _. apply Hb. Qed.
Lemma preserves_loop n (body : M S bool) : preserves I body → preserves I (loop n body).
Proof.
  intros Hb s. apply (wp_loop I). intros s' Hs'. eapply wp_mono; [by apply Hb|]. by intros [].
Qed.
(** A method that leaves what the invariant looks at. *)
Lemma preserves_keeps {A T} (g : S → T) (m : M S A) :
  (∀ s s', g s' = g s → I s → I s') → (∀ s, keeps g m s) → preserves I m.
Proof. intros Hg Hk s Hs. eapply wp_mono; [apply Hk|]. simpl. intros _ s' E. by eapply Hg. Qed.
End preserves.
Create HintDb go_inv discriminated.

(** ** Record updates

    [r <| f := v |>] is Go's [r.f = v] on a value.  A record declares the
    expansion of itself into its fields ([Eta]) and each field its [Setter]. *)
Class Eta (R : Type) := eta : R → R.
Class Setter {R T : Type} (proj : R → T) := set : (T → T) → R → R.
#[global] Arguments set {R T} proj {_} _ _.

Ltac solve_setter :=
  lazymatch goal with
  | |- @Setter ?R ?T ?proj =>
      let g := fresh "g" in let r := fresh "r" in
      refine (λ (g : T → T) (r : R), _);
      let e := eval hnf in (@eta R _ r) in
      lazymatch e with
      | context C [proj r] => let e' := context C [g (proj r)] in exact e'
      end
  end.

Notation "r <| p ::= g |>" := (set p g r)
  (at level 12, left associativity, format "r  <| p  ::=  g |>") : go_scope.
Notation "r <| p := v |>" := (set p (λ _, v) r)
  (at level 12, left associativity, format "r  <| p  :=  v |>") : go_scope.

(** ** Tactics *)

(** One step of symbolic execution of a [wp] goal. *)
Ltac wp_step :=
  lazymatch goal with
  | |- wp (mbind _ _) _ _ => apply wp_bind
  | |- wp (mret _) _ _ => apply wp_ret
  | |- wp get _ _ => apply wp_get
  | |- wp (gets _) _ _ => apply wp_gets
  | |- wp (modify _) _ _ => apply wp_modify
  | |- wp (panic _) _ _ => apply wp_panic
  | |- wp (lift _) _ _ => apply wp_lift; intros ? ?
  | |- wp (when ?b _) _ _ => apply wp_when; intros ?
  | |- wp (if ?b then _ else _) _ _ => apply wp_if; intros ?
  | |- wp (match ?o with Some _ => _ | None => _ end) _ _ =>
      apply wp_match_option; [intros ? ?|intros ?]
  | |- wp (match ?p with (_, _) => _ end) _ _ => destruct p as [??] eqn:?
  end; cbv beta.
Ltac wp_steps := repeat wp_step.

(** One step of a [twp] goal. *)
Ltac twp_step :=
  lazymatch goal with
  | |- twp (mbind _ _) _ _ => apply twp_bind
  | |- twp (mret _) _ _ => apply twp_ret
  | |- twp get _ _ => apply twp_get
  | |- twp (modify _) _ _ => apply twp_modify
  | |- twp (panic _) _ _ => apply twp_panic
  | |- twp (lift _) _ _ => apply twp_lift; [|intros ? ?]
  | |- twp (when ?b _) _ _ => apply twp_when; intros ?
  | |- twp (if ?b then _ else _) _ _ => apply twp_if; intros ?
  end; cbv beta.

(** One step of an [ends] goal; results and final states are forgotten. *)
Ltac ends_step :=
  lazymatch goal with
  | |- ends (mbind _ _) _ => apply ends_bind; [|intros ? ? _]
  | |- ends (mret _) _ => apply ends_ret
  | |- ends get _ => apply ends_get
  | |- ends (modify _) _ => apply ends_modify
  | |- ends (panic _) _ => apply ends_panic
  | |- ends (lift _) _ => apply ends_lift
  | |- ends (when _ _) _ => apply ends_when
  | |- ends (for_each _ _) _ => apply for_each_ends; intros ? ? _
  | |- ends (match ?x with _ => _ end) _ => destruct x
  | |- ends (let '(_, _) := ?x in _) _ => destruct x
  | |- mbind _ _ ≠ Diverge => apply bind_ends; [|intros ? _]
  | |- Ret _ ≠ Diverge => discriminate
  | |- Panic _ ≠ Diverge => discriminate
  | |- (match ?x with _ => _ end) ≠ Diverge => destruct x
  | |- _ => solve [auto with go_ends]
  end; cbv beta.
Ltac ends_steps := repeat ends_step.

(** One step of a [keeps] goal; every [modify] must leave the frame by computation. *)
Ltac keeps_step :=
  lazymatch goal with
  | |- keeps _ (mbind _ _) _ => apply keeps_bind; [|intros ? ? _]
  | |- keeps _ (mret _) _ => apply keeps_ret
  | |- keeps _ get _ => apply keeps_get
  | |- keeps _ (modify _) _ => apply keeps_modify; reflexivity
  | |- keeps _ (panic _) _ => apply keeps_panic
  | |- keeps _ (lift _) _ => apply keeps_lift
  | |- keeps _ (when _ _) _ => apply keeps_when
  | |- keeps _ (for_each _ _) _ => apply keeps_for_each; intros ? ?
  | |- keeps _ (loop _ _) _ => apply keeps_loop; intros ?
  | |- keeps _ (match ?x with _ => _ end) _ => destruct x
  | |- _ => solve [auto with go_keeps]
  end; cbv beta.
Ltac keeps_steps := repeat keeps_step.

(** One step of a [preserves] goal; what [go_inv] does not know is left. *)
Ltac preserves_step :=
  lazymatch goal with
  | |- preserves _ (mbind _ _) => apply preserves_bind; [|intros ?]
  | |- preserves _ (mret _) => apply preserves_ret
  | |- preserves _ get => apply preserves_get
  | |- preserves _ (gets _) => apply preserves_gets
  | |- preserves _ (panic _) => apply preserves_panic
  | |- preserves _ (lift _) => apply preserves_lift
  | |- preserves _ (when _ _) => apply preserves_when
  | |- preserves _ (for_each _ _) => apply preserves_for_each; intros ?
  | |- preserves _ (loop _ _) => apply preserves_loop
  | |- preserves _ (match ?x with _ => _ end) => destruct x
  | |- _ => solve [auto with go_inv]
  end; cbv beta.
Ltac preserves_steps := repeat preserves_step.

(** Open the outcome-monad computations that returned. *)
Ltac outcome_inv :=
  repeat match goal with
  | H : mbind _ _ = Ret _ |- _ => unfold mbind, outcome_bind in H
  | H : mret _ = Ret _ |- _ => injection H as H; subst
  | H : Ret _ = Ret _ |- _ => injection H as H; subst
  | H : Panic _ = Ret _ |- _ => discriminate H
  | H : Diverge = Ret _ |- _ => discriminate H
  | H : match ?o with Ret _ => _ | Panic _ => _ | Diverge => _ end = Ret _ |- _ =>
      destruct o eqn:?; try discriminate H
  end.
