(* ===== verification/Command.v ===== *)
(** * Commands (src/pkg/command/commandpb/types.go)

    The client commands every protocol orders, their equality and their hash;
    the record fields are those of src/pkg/command/commandpb/command.proto.
    The generated marshaller and the hash functions are code outside the
    repository's own sources: they are the operations of the classes [Codec]
    and [GoEnv] below. *)
From S2P Require Import Prelude.

(** ** External code *)

(** [proto.Marshal] and [proto.Unmarshal] of one message type: [None] is a
    non-nil error. *)
Class Codec (T : Type) := {
  Marshal : T → option bytes;
  Unmarshal : bytes → option T;
}.

(** Functions of the Go standard library the sources call on byte strings:
    [sha256.Sum256], HMAC-SHA256 under a key, SHA-512, and [fmt.Sprintf("%q")]. *)
Class GoEnv := {
  sha256 : bytes → bytes;
  hmac_sha256 : bytes → bytes → bytes;
  sha512 : bytes → bytes;
  Sprintf_q : bytes → string;
}.

(** What the code relies on of them. *)
Class GoEnvLaws `{GoEnv} := {
  length_sha256 b : length (sha256 b) = 32;
  length_hmac_sha256 k b : length (hmac_sha256 k b) = 32;
  length_sha512 b : length (sha512 b) = 64;
  Sprintf_q_inj :: Inj (=) (=) Sprintf_q;
}.

(** ** Data *)

Record KVOp := mkKVOp { kv_Key : slice; kv_Value : slice; kv_Read : bool }.
Record KVOpResult := mkKVOpResult {
  kvr_Key : slice; kvr_Value : slice; kvr_WriteSuccess : bool }.

(** The [oneof] wrappers: a nil [Type], or a case holding a pointer. *)
Inductive Operation_Type := Operation_KVOp (op : option KVOp).
Inductive OperationResult_Type := OperationResult_KVOpResult (r : option KVOpResult).
Record Operation := mkOperation { op_Type : option Operation_Type }.
Record OperationResult := mkOperationResult { opr_Type : option OperationResult_Type }.

Record Command := mkCommand {
  c_Timestamp : Z;
  c_Ops : list Operation;
  c_Target : Z;
  c_Meta : slice;
  c_ConflictKey : slice;
  c_TraceInfo : option (gmap string string);
}.

Record CommandResult := mkCommandResult {
  cr_Timestamp : Z;
  cr_OpResults : list OperationResult;
  cr_Target : Z;
  cr_Meta : slice;
}.

#[export] Instance Command_eta : Eta Command := λ c,
  mkCommand (c_Timestamp c) (c_Ops c) (c_Target c) (c_Meta c) (c_ConflictKey c)
    (c_TraceInfo c).
#[export] Instance set_c_TraceInfo : Setter c_TraceInfo := ltac:(solve_setter).
#[export] Instance CommandResult_eta : Eta CommandResult := λ c,
  mkCommandResult (cr_Timestamp c) (cr_OpResults c) (cr_Target c) (cr_Meta c).
#[export] Instance set_cr_Meta : Setter cr_Meta := ltac:(solve_setter).

#[export] Instance KVOp_eq_dec : EqDecision KVOp.
Proof. solve_decision. Defined.
#[export] Instance Operation_Type_eq_dec : EqDecision Operation_Type.
Proof. solve_decision. Defined.
#[export] Instance Operation_eq_dec : EqDecision Operation.
Proof. solve_decision. Defined.
#[export] Instance Command_eq_dec : EqDecision Command.
Proof. solve_decision. Defined.
#[export] Instance KVOpResult_eq_dec : EqDecision KVOpResult.
Proof. solve_decision. Defined.
#[export] Instance OperationResult_Type_eq_dec : EqDecision OperationResult_Type.
Proof. solve_decision. Defined.
#[export] Instance OperationResult_eq_dec : EqDecision OperationResult.
Proof. solve_decision. Defined.
#[export] Instance CommandResult_eq_dec : EqDecision CommandResult.
Proof. solve_decision. Defined.

Definition Operation_GetKVOp (o : Operation) : option KVOp :=
  match op_Type o with Some (Operation_KVOp k) => k | None => None end.
Definition OperationResult_GetKVOpResult (o : OperationResult) : option KVOpResult :=
  match opr_Type o with Some (OperationResult_KVOpResult k) => k | None => None end.

(** ** Equality

    The receivers and arguments are pointers; [k == o] on pointers only
    matters when both are nil, since two equal pointers have equal fields. *)

Definition Key_Equal (k o : slice) : bool := bytes_Equal k o.

Definition KVOp_Equal (k o : option KVOp) : outcome bool :=
  match k, o with
  | None, None => Ret true
  | _, None => Ret false
  | None, Some _ => Panic "nil KVOp"
  | Some k, Some o =>
      Ret (bytes_Equal (kv_Key k) (kv_Key o) && bytes_Equal (kv_Value k) (kv_Value o)
           && Bool.eqb (kv_Read k) (kv_Read o))
  end.

Definition KVOpResult_Equal (k o : option KVOpResult) : outcome bool :=
  match k, o with
  | None, None => Ret true
  | _, None => Ret false
  | None, Some _ => Panic "nil KVOpResult"
  | Some k, Some o =>
      Ret (bytes_Equal (kvr_Key k) (kvr_Key o) && bytes_Equal (kvr_Value k) (kvr_Value o)
           && Bool.eqb (kvr_WriteSuccess k) (kvr_WriteSuccess o))
  end.

Definition Operation_Equal (k o : Operation) : outcome bool :=
  match op_Type k with
  | Some (Operation_KVOp t) => KVOp_Equal t (Operation_GetKVOp o)
  | None => Ret false
  end.

Definition OperationResult_Equal (k o : OperationResult) : outcome bool :=
  match opr_Type k with
  | Some (OperationResult_KVOpResult t) =>
      KVOpResult_Equal t (OperationResult_GetKVOpResult o)
  | None => Ret false
  end.

(** The loop [for i := range a { if !eq(a[i], b[i]) { return false } }]. *)
Fixpoint all_Equal {A} (eq : A → A → outcome bool) (a b : list A) : outcome bool :=
  match a, b with
  | x :: a, y :: b => e ← eq x y; if (e : bool) then all_Equal eq a b else Ret false
  | _, _ => Ret true
  end.

Definition OperationResults_Equal (k o : list OperationResult) : outcome bool :=
  if bool_decide (length k ≠ length o) then Ret false
  else all_Equal OperationResult_Equal k o.

Definition Command_Equal (m : Command) (o : option Command) : outcome bool :=
  match o with
  | None => Panic "nil Command"
  | Some o =>
      if bool_decide (c_Timestamp m ≠ c_Timestamp o)
         || bool_decide (c_Target m ≠ c_Target o)
         || negb (bytes_Equal (c_ConflictKey m) (c_ConflictKey o))
      then Ret false
      else if bool_decide (length (c_Ops m) ≠ length (c_Ops o)) then Ret false
      else all_Equal Operation_Equal (c_Ops m) (c_Ops o)
  end.

Definition CommandResult_Equal (m : CommandResult) (o : option CommandResult) : outcome bool :=
  match o with
  | None => Panic "nil CommandResult"
  | Some o =>
      if bool_decide (cr_Timestamp m ≠ cr_Timestamp o)
         || bool_decide (cr_Target m ≠ cr_Target o)
         || negb (bytes_Equal (cr_Meta m) (cr_Meta o))
      then Ret false
      else OperationResults_Equal (cr_OpResults m) (cr_OpResults o)
  end.

Definition Command_Interferes (m o : Command) : bool :=
  bytes_Equal (c_ConflictKey m) (c_ConflictKey o).

(** ** Hash

    [Hash] clears the trace field of the command it is called on, marshals,
    and puts the field back; on a marshalling error it returns nil and leaves
    the field cleared.  The command after the call is the second result. *)
Definition Command_Hash `{GoEnv, Codec Command} (m : Command) : slice * Command :=
  let traceInfo := c_TraceInfo m in
  let m := m <| c_TraceInfo := None |> in
  match Marshal m with
  | None => (None, m)
  | Some cmdBytes => (Some (sha256 cmdBytes), m <| c_TraceInfo := traceInfo |>)
  end.

(** The method on a pointer that may be nil. *)
Definition Command_Hash_ptr `{GoEnv, Codec Command} (m : option Command)
    : outcome (slice * option Command) :=
  match m with
  | None => Panic "nil Command"
  | Some m => let '(h, m) := Command_Hash m in Ret (h, Some m)
  end.

(** ** What equality and hash distinguish *)

(** The part of an operation that [Equal] compares. *)
Definition op_content (o : Operation) : option (bytes * bytes * bool) :=
  (λ k, (default [] (kv_Key k), default [] (kv_Value k), kv_Read k)) <$> Operation_GetKVOp o.

(** The part of a command that [Equal] compares: everything but [Meta] and
    [TraceInfo], with nil and empty byte strings the same. *)
Definition request (c : Command) :=
  (c_Timestamp c, c_Target c, default [] (c_ConflictKey c), op_content <$> c_Ops c).

Definition same_request (c1 c2 : Command) : Prop := request c1 = request c2.

#[export] Instance same_request_equiv : Equivalence same_request.
Proof. unfold same_request. split; [intros ?|intros ???|intros ?????]; congruence. Qed.

#[export] Instance same_request_dec : RelDecision same_request.
Proof. unfold same_request. solve_decision. Defined.

(** The operation carries a case of the [oneof]. *)
Definition typed (o : Operation) : Prop := is_Some (op_Type o).

#[export] Instance typed_dec o : Decision (typed o).
Proof. unfold typed. apply _. Defined.

Lemma KVOp_Equal_spec k o :
  KVOp_Equal k o = Ret true ↔
  (λ k, (default [] (kv_Key k), default [] (kv_Value k), kv_Read k)) <$> k =
  (λ k, (default [] (kv_Key k), default [] (kv_Value k), kv_Read k)) <$> o.
Proof.
  destruct k as [k|], o as [o|]; simpl; try (split; congruence).
  unfold bytes_Equal. split.
  - intros [= [[?%bool_decide_eq_true ?%bool_decide_eq_true]%andb_true_iff
      ?%eqb_prop]%andb_true_iff]. congruence.
  - intros [= -> -> ->]. by rewrite !bool_decide_eq_true_2, eqb_reflx.
Qed.

Lemma Operation_Equal_spec k o :
  Operation_Equal k o = Ret true ↔ typed k ∧ op_content k = op_content o.
Proof.
  unfold Operation_Equal, typed, op_content.
  destruct k as [[[t]|]]; simpl.
  - rewrite KVOp_Equal_spec. naive_solver.
  - split; [done|]. by intros [[??] ?].
Qed.

Lemma all_Equal_spec {A B} (eq : A → A → outcome bool) (P : A → Prop) (g : A → B) a b :
  (∀ x y, eq x y = Ret true ↔ P x ∧ g x = g y) → length a = length b →
  all_Equal eq a b = Ret true ↔ Forall P a ∧ g <$> a = g <$> b.
Proof.
  intros He. revert b. induction a as [|x a IH]; intros [|y b] Hl; simplify_eq/=.
  { split; auto. }
  specialize (IH b Hl). unfold mbind, outcome_bind.
  rewrite Forall_cons. specialize (He x y).
  destruct (eq x y) as [[]| |]; split; try done;
    rewrite ?IH; naive_solver congruence.
Qed.

Lemma Command_Equal_iff m o :
  Command_Equal m (Some o) = Ret true ↔ same_request m o ∧ Forall typed (c_Ops m).
Proof.
  unfold Command_Equal, same_request, request.
  destruct (decide (length (c_Ops m) = length (c_Ops o))) as [Hl|Hl].
  - rewrite (bool_decide_eq_false_2 (length _ ≠ _)) by auto.
    pose proof (all_Equal_spec Operation_Equal typed op_content _ _
      Operation_Equal_spec Hl) as Hs.
    unfold bytes_Equal. repeat case_bool_decide; simpl; rewrite ?Hs;
      (split; [|intros [[=] ?]]); naive_solver congruence.
  - rewrite (bool_decide_eq_true_2 (length _ ≠ _)) by auto.
    split; [repeat case_match; congruence|].
    intros [[= _ _ _ Ho] _]. apply (f_equal length) in Ho.
    rewrite !length_fmap in Ho. done.
Qed.

Lemma all_Equal_ends {A} (eq : A → A → outcome bool) a b :
  (∀ x y, eq x y ≠ Diverge) → all_Equal eq a b ≠ Diverge.
Proof.
  intros He. revert b. induction a as [|x a IH]; intros [|y b]; simpl; try done.
  apply bind_ends; [done|]. intros [] _; [apply IH|done].
Qed.

Lemma Command_Equal_ends m o : Command_Equal m o ≠ Diverge.
Proof.
  unfold Command_Equal. destruct o; [|done]. ends_steps. apply all_Equal_ends.
  intros x y. unfold Operation_Equal, KVOp_Equal. ends_steps.
Qed.
#[export] Hint Resolve Command_Equal_ends : go_ends.
Lemma Command_Hash_ptr_ends `{GoEnv, Codec Command} c : Command_Hash_ptr c ≠ Diverge.
Proof. unfold Command_Hash_ptr. destruct c; [|done]. by destruct (Command_Hash _). Qed.
#[export] Hint Resolve Command_Hash_ptr_ends : go_ends.

Section hash.
Context `{GoEnv, Codec Command}.

Lemma Command_Hash_restores m h m' :
  Command_Hash m = (Some h, m') → m' = m.
Proof.
  unfold Command_Hash. destruct (Marshal _); intros [= _ <-]. by destruct m.
Qed.

Lemma Command_Hash_TraceInfo m t :
  (Command_Hash (m <| c_TraceInfo := t |>)).1 = (Command_Hash m).1.
Proof. unfold Command_Hash. simpl. by destruct (Marshal _). Qed.

Lemma Command_Hash_request m h m' :
  Command_Hash m = (h, m') → same_request m m'.
Proof. unfold Command_Hash. destruct (Marshal _); intros [= _ <-]; done. Qed.

Lemma Command_Hash_nonempty `{!GoEnvLaws} m h :
  (Command_Hash m).1 = Some h → h ≠ [].
Proof.
  unfold Command_Hash. destruct (Marshal _) as [b|]; simpl; [|done].
  intros [= <-] E. pose proof (length_sha256 b) as L. by rewrite E in L.
Qed.
End hash.
