(* ===== verification/Worker.v ===== *)
(** * The worker pool (src/pkg/worker/worker.go)

    The protocols hand signing and verification to pools of goroutines.  A job
    is a payload [P]: its [execFunc] runs in a worker and gives an [R]; its
    callback is then sent on a channel that the protocol drains in
    [AsyncCallback].  Closures are defunctionalised: a callback is the pair of
    the payload and the result.  The goroutines are a step function: every
    channel operation that can happen next is an event. *)
From S2P Require Import Prelude.

(** ** The shared-queue pool *)
Module Worker.
Section pool.
Context {P R : Type} (execFunc : P → R).

(** A worker is about to register, waits on its own channel (registered), or
    runs a job. *)
Inductive worker := Idle | Waiting | Running (j : P).

Record Dispatcher := mkDispatcher {
  d_jobQueue : list P;
  d_inHand : option P;          (* the job the dispatch goroutine has removed *)
  d_workerPool : list nat;      (* the registered worker channels, a channel *)
  d_workers : list worker;
}.
#[export] Instance Dispatcher_eta : Eta Dispatcher := λ d,
  mkDispatcher (d_jobQueue d) (d_inHand d) (d_workerPool d) (d_workers d).
#[export] Instance set_d_jobQueue : Setter d_jobQueue := ltac:(solve_setter).

Definition NewDispatcher (maxWorkers : nat) : Dispatcher :=
  mkDispatcher [] None [] (replicate maxWorkers Idle).

Definition Exec (j : P) (d : Dispatcher) : Dispatcher :=
  d <| d_jobQueue ::= λ q, q ++ [j] |>.

Inductive event :=
| Register (k : nat)     (* w.workerPool <- w.jobChannel *)
| Take                   (* the dispatch goroutine removes the front *)
| Assign                 (* jobChannel := <-d.workerPool; jobChannel <- j *)
| Done (k : nat).        (* result := execFunc(); job.callbackC <- ... *)

(** One step of the pool, with the buffered channel [cbs] of capacity [cap]
    the callbacks go to; [None] when the event cannot happen. *)
Definition step (cap : nat) (e : event) (d : Dispatcher) (cbs : list (P * R))
    : option (Dispatcher * list (P * R)) :=
  match e with
  | Register k =>
      match d_workers d !! k with
      | Some Idle =>
          Some (mkDispatcher (d_jobQueue d) (d_inHand d) (d_workerPool d ++ [k])
                  (<[k := Waiting]> (d_workers d)), cbs)
      | _ => None
      end
  | Take =>
      match d_inHand d, d_jobQueue d with
      | None, j :: q => Some (mkDispatcher q (Some j) (d_workerPool d) (d_workers d), cbs)
      | _, _ => None
      end
  | Assign =>
      match d_inHand d, d_workerPool d with
      | Some j, k :: ks =>
          match d_workers d !! k with
          | Some Waiting =>
              Some (mkDispatcher (d_jobQueue d) None ks
                      (<[k := Running j]> (d_workers d)), cbs)
          | _ => None
          end
      | _, _ => None
      end
  | Done k =>
      match d_workers d !! k with
      | Some (Running j) =>
          if decide (length cbs < cap)
          then Some (mkDispatcher (d_jobQueue d) (d_inHand d) (d_workerPool d)
                       (<[k := Idle]> (d_workers d)), cbs ++ [(j, execFunc j)])
          else None
      | _ => None
      end
  end.

Definition running (w : worker) : option P :=
  match w with Running j => Some j | _ => None end.

(** Every job in the pool whose callback has not been sent. *)
Definition pending (d : Dispatcher) : list P :=
  omap running (d_workers d) ++ option_list (d_inHand d) ++ d_jobQueue d.

(** The pool's invariant: the registered channels are those of distinct
    waiting workers, and every waiting worker is registered. *)
Definition pool_ok (d : Dispatcher) : Prop :=
  NoDup (d_workerPool d) ∧
  ∀ k, k ∈ d_workerPool d ↔ d_workers d !! k = Some Waiting.
End pool.
Arguments worker : clear implicits.
Arguments Dispatcher : clear implicits.
End Worker.

Section worker_lemmas.
Import Worker.
Context {P R : Type} (execFunc : P → R).
Implicit Types (d : Dispatcher P) (cbs : list (P * R)).

Lemma omap_running_insert (ws : list (worker P)) k w w' :
  ws !! k = Some w →
  option_list (running w) ++ omap running (<[k := w']> ws) ≡ₚ
  option_list (running w') ++ omap running ws.
Proof.
  revert k. induction ws as [|x ws IH]; intros [|k] Hk; simplify_eq/=.
  - destruct (running w), (running w'); simpl; try done. apply perm_swap.
  - specialize (IH k Hk). destruct (running x) as [y|]; simpl; [|done].
    rewrite <-!Permutation_middle. by f_equiv.
Qed.

Lemma NewDispatcher_ok n : pool_ok (NewDispatcher (P := P) n).
Proof.
  split; simpl; [constructor|]. intros k. split; [by intros ?%not_elem_of_nil|].
  intros [Hk _]%lookup_replicate. done.
Qed.

Lemma NewDispatcher_pending n : pending (NewDispatcher (P := P) n) = [].
Proof. unfold pending; simpl. rewrite app_nil_r. by induction n. Qed.

Lemma Exec_ok j d : pool_ok d → pool_ok (Exec j d).
Proof. done. Qed.

Lemma Exec_pending j d : pending (Exec j d) ≡ₚ j :: pending d.
Proof. unfold pending, Exec. simpl. rewrite !app_assoc. solve_Permutation. Qed.

Lemma step_ok cap e d cbs d' cbs' :
  pool_ok d → step execFunc cap e d cbs = Some (d', cbs') → pool_ok d'.
Proof.
  intros [Hnd Hp] Hs. destruct e as [k| | |k]; simpl in Hs; repeat case_match; simplify_eq/=.
  - split; simpl.
    + apply NoDup_app; split_and!; [done| |apply NoDup_singleton].
      intros k' Hk'%Hp ->%list_elem_of_singleton. congruence.
    + intros k'. rewrite elem_of_app, list_elem_of_singleton, Hp.
      destruct (decide (k = k')) as [->|].
      * rewrite list_lookup_insert_eq by (by eapply lookup_lt_Some). naive_solver.
      * rewrite list_lookup_insert_ne by done. naive_solver.
  - done.
  - match goal with H : d_workerPool d = ?k :: _ |- _ =>
      rename k into w end.
    apply NoDup_cons in Hnd as [Hk Hnd]. split; [done|]. simpl.
    intros k'. destruct (decide (w = k')) as [->|].
    + rewrite list_lookup_insert_eq by (by eapply lookup_lt_Some). naive_solver.
    + rewrite list_lookup_insert_ne, <-Hp by done. set_solver.
  - split; [done|]. simpl. intros k'. rewrite Hp. destruct (decide (k = k')) as [->|].
    + rewrite list_lookup_insert_eq by (by eapply lookup_lt_Some). naive_solver.
    + by rewrite list_lookup_insert_ne.
Qed.

(** No step loses or invents a job: the payloads in the callback channel
    together with the pending ones are the same multiset before and after. *)
Lemma step_conserves cap e d cbs d' cbs' :
  step execFunc cap e d cbs = Some (d', cbs') →
  cbs'.*1 ++ pending d' ≡ₚ cbs.*1 ++ pending d.
Proof.
  unfold pending. intros Hs.
  destruct e as [k| | |k]; simpl in Hs; repeat case_match; simplify_eq/=;
    repeat match goal with H : _ = _ |- _ => rewrite H; clear H end; simpl.
  all: try (match goal with H : ?ws !! ?k = Some ?w |- context [<[?k := ?w']> ?ws] =>
    pose proof (omap_running_insert ws k w w' H) as Hp; simpl in Hp end).
  - by rewrite Hp.
  - done.
  - rewrite Hp. solve_Permutation.
  - rewrite fmap_app. simpl. rewrite <-Hp. solve_Permutation.
Qed.

Lemma step_results cap e d cbs d' cbs' :
  step execFunc cap e d cbs = Some (d', cbs') →
  ∃ new, cbs' = cbs ++ new ∧ Forall (λ c, c.2 = execFunc c.1) new.
Proof.
  intros Hs. destruct e; simpl in Hs; repeat case_match; simplify_eq/=;
    first [by exists []; rewrite app_nil_r
          |by eexists; split; [done|]; repeat constructor].
Qed.

(** Where the jobs and the callbacks after a step come from. *)
Lemma step_jobs cap e d cbs d' cbs' :
  step execFunc cap e d cbs = Some (d', cbs') →
  (∀ j, j ∈ pending d' → j ∈ pending d) ∧
  ∀ c, c ∈ cbs' → c ∈ cbs ∨ c.1 ∈ pending d ∧ c.2 = execFunc c.1.
Proof.
  intros Hs. pose proof (step_conserves _ _ _ _ _ _ Hs) as Hc.
  destruct (step_results _ _ _ _ _ _ Hs) as (new & -> & Hn).
  rewrite fmap_app, <-app_assoc in Hc. apply Permutation_app_inv_l in Hc. split.
  - intros j Hj. rewrite <-Hc. apply elem_of_app. by right.
  - intros c [?|Hin]%elem_of_app; [by left|right]. rewrite Forall_forall in Hn. split; [|by apply Hn].
    rewrite <-Hc. apply elem_of_app. left. by apply list_elem_of_fmap_2.
Qed.

Lemma step_cap cap e d cbs d' cbs' :
  step execFunc cap e d cbs = Some (d', cbs') → length cbs ≤ cap → length cbs' ≤ cap.
Proof.
  intros Hs. destruct e; simpl in Hs; repeat case_match; simplify_eq/=; [done..|].
  rewrite length_app. simpl. lia.
Qed.
End worker_lemmas.

(** *** Progress *)
Section worker_progress.
Import Worker.
Context {P R : Type} (execFunc : P → R).
Implicit Types (d : Dispatcher P) (cbs : list (P * R)).

(** Events with the protocol draining the callback channel after each one. *)
Fixpoint run (cap : nat) (es : list event) d : option (Dispatcher P * list (P * R)) :=
  match es with
  | [] => Some (d, [])
  | e :: es =>
      '(d', out) ← step execFunc cap e d [];
      '(d'', out') ← run cap es d';
      Some (d'', out ++ out')
  end.

Definition worker_weight (w : worker P) : nat :=
  match w with Idle => 1 | Waiting => 0 | Running _ => 3 end.
Definition weight d : nat :=
  5 * length (d_jobQueue d) + 4 * length (option_list (d_inHand d))
  + sum_list_with worker_weight (d_workers d).

Lemma weight_insert (ws : list (worker P)) k w w' :
  ws !! k = Some w →
  sum_list_with worker_weight (<[k := w']> ws) + worker_weight w =
  sum_list_with worker_weight ws + worker_weight w'.
Proof.
  revert k. induction ws as [|x ws IH]; intros [|k] Hk; simplify_eq/=; [lia|].
  specialize (IH k Hk). lia.
Qed.

Lemma step_progress cap d :
  0 < cap → 0 < length (d_workers d) → pool_ok d → pending d ≠ [] →
  ∃ e d' out, step execFunc cap e d [] = Some (d', out) ∧ weight d' < weight d
    ∧ length (d_workers d') = length (d_workers d).
Proof.
  intros Hcap Hn [_ Hp] Hd. unfold weight.
  assert (∀ k w, d_workers d !! k = Some w → (∃ j, w = Running j) ∨ w = Waiting ∨ w = Idle)
    as Hcases by (intros k []; eauto).
  destruct (omap running (d_workers d)) as [|j js] eqn:Hrun.
  - destruct (d_inHand d) as [j|] eqn:Hh.
    + destruct (d_workerPool d) as [|k ks] eqn:Hpool.
      * destruct (lookup_lt_is_Some_2 (d_workers d) 0 Hn) as [w Hw].
        assert (w = Idle) as ->.
        { destruct (Hcases _ _ Hw) as [[j' ->]|[->|]]; [| |done].
          - assert (j' ∈ omap running (d_workers d)) as Hj'.
            { apply list_elem_of_omap. exists (Running j').
              split; [by eapply list_elem_of_lookup_2|done]. }
            rewrite Hrun in Hj'. by apply not_elem_of_nil in Hj'.
          - by apply Hp, not_elem_of_nil in Hw. }
        exists (Register 0). simpl. rewrite Hw. do 2 eexists; split; [done|]. simpl.
        pose proof (weight_insert _ _ _ Waiting Hw). rewrite Hh, length_insert.
        simpl in *. lia.
      * assert (d_workers d !! k = Some Waiting) as Hw by (apply Hp; left).
        exists Assign. simpl. rewrite Hh, Hpool, Hw. do 2 eexists; split; [done|]. simpl.
        pose proof (weight_insert _ _ _ (Running j) Hw). rewrite length_insert.
        simpl in *. lia.
    + unfold pending in Hd. rewrite Hrun, Hh in Hd. simpl in Hd.
      destruct (d_jobQueue d) as [|j q] eqn:Hq; [done|].
      exists Take. simpl. rewrite Hh, Hq. do 2 eexists; split; [done|]. simpl. lia.
  - assert (j ∈ omap running (d_workers d)) as Hj by (rewrite Hrun; left).
    apply list_elem_of_omap in Hj as ([| |j'] & Hin & [= ->]).
    apply list_elem_of_lookup in Hin as [k Hk].
    exists (Done k). simpl. rewrite Hk, decide_True by done.
    do 2 eexists; split; [done|]. simpl.
    pose proof (weight_insert _ _ _ Idle Hk). rewrite length_insert. simpl in *. lia.
Qed.

Lemma run_conserves cap es d d' out :
  pool_ok d → run cap es d = Some (d', out) →
  pool_ok d' ∧ out.*1 ++ pending d' ≡ₚ pending d ∧ Forall (λ c, c.2 = execFunc c.1) out.
Proof.
  revert d out. induction es as [|e es IH]; intros d out Hok Hr; simplify_eq/=; [done|].
  apply bind_Some in Hr as ([d1 out1] & Hs & Hr).
  apply bind_Some in Hr as ([d2 out2] & Hr & [= -> <-]).
  pose proof (step_ok _ _ _ _ _ _ _ Hok Hs) as Hok1.
  destruct (IH _ _ Hok1 Hr) as (? & Hperm & ?).
  pose proof (step_conserves _ _ _ _ _ _ _ Hs) as Hc.
  destruct (step_results _ _ _ _ _ _ _ Hs) as (new & Hnew & Hres).
  simpl in Hnew. subst new. split_and!; [done| |by apply Forall_app].
  rewrite fmap_app, <-app_assoc, Hperm. by rewrite Hc.
Qed.

Lemma run_completes cap d :
  0 < cap → 0 < length (d_workers d) → pool_ok d →
  ∃ es d' out, run cap es d = Some (d', out) ∧ pending d' = [].
Proof.
  intros Hcap. remember (weight d) as n eqn:Hw. revert d Hw.
  induction (lt_wf n) as [n _ IH]; intros d -> Hn Hok.
  destruct (pending d) as [|j js] eqn:Hp; [by exists [], d, []|].
  destruct (step_progress cap d) as (e & d1 & out & Hs & Hlt & Hl);
    [done..|by rewrite Hp|].
  destruct (IH (weight d1) Hlt d1) as (es & d2 & out2 & Hr & Hp2);
    [done|by rewrite Hl|by eapply step_ok|].
  exists (e :: es), d2, (out ++ out2). split; [|done]. simpl.
  rewrite Hs. simpl. by rewrite Hr.
Qed.
End worker_progress.
