(* ===== verification/BucketWorker.v ===== *)
(** * The per-bucket worker pool (src/pkg/bucketworker/worker.go)

    Like the pool of Worker.v, but a job names the worker that runs it, so that
    the jobs of one bucket are called back in the order they were submitted. *)
From S2P Require Import Prelude.

(** ** The per-bucket pool *)
Module BucketWorker.
Section pool.
Context {P R : Type} (execFunc : P → R).

Record job := mkJob { j_payload : P; j_bucketIdx : nat }.

(** A worker: the jobs buffered in its channel and the one it runs. *)
Record worker := mkWorker { w_jobChannel : list job; w_running : option job }.

Record BucketDispatcher := mkBucketDispatcher {
  b_jobQueue : list job;
  b_inHand : option job;
  b_workers : list worker;
  b_maxJobs : nat;
}.
#[export] Instance BucketDispatcher_eta : Eta BucketDispatcher := λ d,
  mkBucketDispatcher (b_jobQueue d) (b_inHand d) (b_workers d) (b_maxJobs d).
#[export] Instance set_b_jobQueue : Setter b_jobQueue := ltac:(solve_setter).

Definition NewBucketDispatcher (maxJobs maxWorkers : nat) : BucketDispatcher :=
  mkBucketDispatcher [] None (replicate maxWorkers (mkWorker [] None)) maxJobs.

Definition Exec (p : P) (bucket : nat) (d : BucketDispatcher) : BucketDispatcher :=
  d <| b_jobQueue ::= λ q, q ++ [mkJob p bucket] |>.

Inductive event :=
| Take                  (* dispatch removes the front of the queue *)
| Send                  (* d.workers[idx].jobChannel <- j *)
| Receive (k : nat)     (* job := <-w.jobChannel *)
| Done (k : nat).       (* job.callbackC <- ... *)

(** [Ret None]: the event cannot happen; [Panic]: index out of range. *)
Definition step (cap : nat) (e : event) (d : BucketDispatcher) (cbs : list (job * R))
    : outcome (option (BucketDispatcher * list (job * R))) :=
  let upd q h ws cbs := Ret (Some (mkBucketDispatcher q h ws (b_maxJobs d), cbs)) in
  match e with
  | Take =>
      match b_inHand d, b_jobQueue d with
      | None, j :: q => upd q (Some j) (b_workers d) cbs
      | _, _ => Ret None
      end
  | Send =>
      match b_inHand d with
      | None => Ret None
      | Some j =>
          match b_workers d !! j_bucketIdx j with
          | None => Panic "index out of range"
          | Some w =>
              if decide (length (w_jobChannel w) < b_maxJobs d)
              then upd (b_jobQueue d) None
                     (<[j_bucketIdx j := mkWorker (w_jobChannel w ++ [j]) (w_running w)]>
                        (b_workers d)) cbs
              else Ret None
          end
      end
  | Receive k =>
      match b_workers d !! k with
      | Some (mkWorker (j :: q) None) =>
          upd (b_jobQueue d) (b_inHand d) (<[k := mkWorker q (Some j)]> (b_workers d)) cbs
      | _ => Ret None
      end
  | Done k =>
      match b_workers d !! k with
      | Some (mkWorker q (Some j)) =>
          if decide (length cbs < cap)
          then upd (b_jobQueue d) (b_inHand d) (<[k := mkWorker q None]> (b_workers d))
                 (cbs ++ [(j, execFunc (j_payload j))])
          else Ret None
      | _ => Ret None
      end
  end.

Definition in_bucket (b : nat) (js : list job) : list job :=
  filter (λ j, j_bucketIdx j = b) js.

(** The jobs of bucket [b] that are not called back yet, oldest first. *)
Definition bucket_pending (b : nat) (d : BucketDispatcher) : list job :=
  match b_workers d !! b with
  | Some w => option_list (w_running w) ++ w_jobChannel w
  | None => []
  end ++ in_bucket b (option_list (b_inHand d) ++ b_jobQueue d).

(** Every worker holds jobs of its own bucket only. *)
Definition buckets_ok (d : BucketDispatcher) : Prop :=
  ∀ k w, b_workers d !! k = Some w →
  Forall (λ j, j_bucketIdx j = k) (option_list (w_running w) ++ w_jobChannel w).
End pool.
Arguments job : clear implicits.
Arguments worker : clear implicits.
Arguments BucketDispatcher : clear implicits.
End BucketWorker.

Section bucket_lemmas.
Import BucketWorker.
Context {P R : Type} (execFunc : P → R).
Implicit Types (d : BucketDispatcher P) (cbs : list (job P * R)).

Lemma in_bucket_app b (l1 l2 : list (job P)) :
  in_bucket b (l1 ++ l2) = in_bucket b l1 ++ in_bucket b l2.
Proof. apply filter_app. Qed.

Lemma in_bucket_cons b (j : job P) l :
  in_bucket b (j :: l) = (if decide (j_bucketIdx j = b) then [j] else []) ++ in_bucket b l.
Proof. unfold in_bucket. rewrite filter_cons. by case_decide. Qed.

Lemma NewBucketDispatcher_ok maxJobs n : buckets_ok (NewBucketDispatcher (P := P) maxJobs n).
Proof. intros k w [-> _]%lookup_replicate. constructor. Qed.

Lemma bucket_step_ok cap e d cbs d' cbs' :
  buckets_ok d → step execFunc cap e d cbs = Ret (Some (d', cbs')) → buckets_ok d'.
Proof.
  intros Hok Hs k' w'. destruct e as [| |k|k]; simpl in Hs; repeat case_match;
    simplify_eq/=; try apply Hok.
  all: match goal with |- <[?i := _]> _ !! _ = _ → _ => destruct (decide (i = k')) as [<-|] end;
    [|rewrite list_lookup_insert_ne by done; apply Hok].
  all: rewrite list_lookup_insert_eq by (by eapply lookup_lt_Some); intros [= <-]; simpl.
  all: match goal with Hw : b_workers _ !! _ = Some _ |- _ => pose proof (Hok _ _ Hw) as Hheld; simpl in Hheld end.
  - rewrite app_assoc. apply Forall_app. by rewrite Forall_singleton.
  - done.
  - by apply Forall_cons in Hheld as [_ Hheld].
Qed.

(** Per bucket, the callbacks come in the order of submission: what is called
    back, followed by what is pending, never changes. *)
Lemma bucket_step_fifo cap e d cbs d' cbs' b :
  buckets_ok d → step execFunc cap e d cbs = Ret (Some (d', cbs')) →
  in_bucket b cbs'.*1 ++ bucket_pending b d' = in_bucket b cbs.*1 ++ bucket_pending b d.
Proof.
  intros Hok Hs. unfold bucket_pending.
  destruct e as [| |k|k]; simpl in Hs.
  - destruct (b_inHand d) eqn:Hh, (b_jobQueue d) eqn:Hq; simplify_eq/=.
    done.
  - destruct (b_inHand d) as [j|] eqn:Hh; [|done].
    destruct (b_workers d !! _) as [w|] eqn:Hw; [|done].
    case_decide; simplify_eq/=. rewrite in_bucket_cons.
    case_decide as Hb; simplify_eq.
    + rewrite list_lookup_insert_eq, Hw by (by eapply lookup_lt_Some). simpl.
      by rewrite <-!app_assoc.
    + by rewrite list_lookup_insert_ne.
  - destruct (b_workers d !! k) as [[[|j q] [|]]|] eqn:Hw; simplify_eq/=.
    destruct (decide (k = b)) as [->|]; [|by rewrite list_lookup_insert_ne].
    rewrite list_lookup_insert_eq by (by eapply lookup_lt_Some). by rewrite Hw.
  - destruct (b_workers d !! k) as [[q [j|]]|] eqn:Hw; simplify_eq/=.
    case_decide; simplify_eq/=.
    pose proof (Hok _ _ Hw) as Hj. apply Forall_cons in Hj as [Hj _].
    rewrite fmap_app, in_bucket_app. simpl. rewrite in_bucket_cons.
    destruct (decide (k = b)) as [->|].
    + rewrite list_lookup_insert_eq by (by eapply lookup_lt_Some). rewrite Hw. simpl.
      rewrite decide_True by done. by rewrite <-!app_assoc.
    + rewrite list_lookup_insert_ne by done. rewrite decide_False by congruence.
      by rewrite app_nil_r.
Qed.
End bucket_lemmas.

(** ** Runs of the per-bucket pool *)
Section bucket_run.
Import BucketWorker.
Context {P R : Type} (execFunc : P → R).

(** Jobs submitted and events of the goroutines, in any order; the callback
    channel is never drained here, so that it records every callback. *)
Inductive bucket_op := Submit (p : P) (bucket : nat) | Ev (e : event).

Fixpoint bucket_run (cap : nat) (ops : list bucket_op) (d : BucketDispatcher P)
    (cbs : list (job P * R)) : outcome (option (BucketDispatcher P * list (job P * R))) :=
  match ops with
  | [] => Ret (Some (d, cbs))
  | Submit p b :: ops => bucket_run cap ops (Exec p b d) cbs
  | Ev e :: ops =>
      r ← step execFunc cap e d cbs;
      match r with Some (d, cbs) => bucket_run cap ops d cbs | None => Ret None end
  end.

Definition submitted (b : nat) (ops : list bucket_op) : list (job P) :=
  in_bucket b (omap (λ op, match op with Submit p b => Some (mkJob p b) | Ev _ => None end) ops).

Lemma bucket_run_fifo cap ops d cbs d' cbs' b :
  buckets_ok d → bucket_run cap ops d cbs = Ret (Some (d', cbs')) →
  in_bucket b cbs'.*1 ++ bucket_pending b d' =
  in_bucket b cbs.*1 ++ bucket_pending b d ++ submitted b ops.
Proof.
  revert d cbs. induction ops as [|[p k|e] ops IH]; intros d cbs Hok Hr; simpl in Hr.
  - simplify_eq. unfold submitted. simpl. by rewrite app_nil_r.
  - rewrite (IH (Exec p k d) cbs Hok Hr). unfold bucket_pending, submitted. simpl.
    rewrite !in_bucket_app, !in_bucket_cons. by rewrite <-!app_assoc.
  - outcome_inv. destruct a as [[d1 cbs1]|]; [|done].
    match goal with Hs : step _ _ _ _ _ = _ |- _ =>
      pose proof (bucket_step_ok _ _ _ _ _ _ _ Hok Hs) as Hok1;
      pose proof (bucket_step_fifo _ _ _ _ _ _ _ b Hok Hs) as Hf end.
    rewrite (IH _ _ Hok1 Hr), (app_assoc _ _ (submitted _ _)), Hf. by rewrite <-app_assoc.
Qed.
End bucket_run.
