(* ===== verification/Certifier.v ===== *)
(** * Message certificates (src/utils/certifier.go, sw_certifier.go, dummy_certifier.go) *)
From S2P Require Import Prelude Command.

(** The interface; the second argument of the Go methods is ignored by both
    implementations. *)
Class Certifier := {
  CreateSignedCertificate : bytes → bytes;
  VerifyCertificate : bytes → bytes → bool;
}.

Class CertifierLaws `{Certifier} := {
  Verify_Create m : VerifyCertificate m (CreateSignedCertificate m) = true;
}.

Section certifiers.
Context `{GoEnv}.

(** [[]byte("thisisasamplekeyforswmaccreation")] *)
Definition sw_key : bytes := String.list_byte_of_string "thisisasamplekeyforswmaccreation".

Definition swCertifier : Certifier := {|
  CreateSignedCertificate message := hmac_sha256 sw_key message;
  VerifyCertificate message mac := bool_decide (hmac_sha256 sw_key message = mac);
|}.

Definition dummyCertifier : Certifier := {|
  CreateSignedCertificate _ := [Byte.x00];
  VerifyCertificate _ _ := true;
|}.

#[export] Instance swCertifier_laws : @CertifierLaws swCertifier.
Proof. split. intros m. simpl. by apply bool_decide_eq_true. Qed.

#[export] Instance dummyCertifier_laws : @CertifierLaws dummyCertifier.
Proof. split. done. Qed.
End certifiers.

(** ** Threshold signatures (src/enclaves/threshsign2)

    The enclave is native code behind cgo.  [Sign] makes the share of the
    replica that the enclave was set up for, by its index; [Aggregate] combines
    shares, by the replica each comes from, into a signature that it verifies
    itself; [None], and [false] of [Verify], stand for the panics of the Go
    wrappers. *)
Class Threshsign := {
  ts_Sign : Z → bytes → bytes;
  ts_Aggregate : bytes → gmap Z bytes → option bytes;
  ts_Verify : bytes → bytes → bool;
}.

(** [AggregateSigAndVerify] has verified what it returns. *)
Class ThreshsignLaws `{Threshsign} := {
  ts_aggregate_verifies m sigs s : ts_Aggregate m sigs = Some s → ts_Verify m s = true;
}.
