(* ===== verification/Tracker.v ===== *)
(** * In-flight requests (src/pkg/command/tracker.go)

    The tracker matches the results of executed commands with the channels of
    the client handlers that wait for them.  A channel is an identifier; the
    sends and closes are the output of each operation, in order. *)
From S2P Require Import Prelude Command.

(** A response channel, and what the tracker does on it. *)
Abbreviation chan := nat (only parsing).
Inductive chan_event :=
| Send (c : chan) (r : CommandResult)
| Close (c : chan).

(** [trackerID{target, id}]. *)
Abbreviation trackerID := (Z * Z)%type (only parsing).
Definition cmd_tid (c : Command) : trackerID := (c_Target c, c_Timestamp c).
Definition res_tid (r : CommandResult) : trackerID := (cr_Target r, cr_Timestamp r).

Record Tracker := mkTracker {
  t_requests : gmap trackerID chan;
  t_responses : gmap trackerID CommandResult;
}.

Definition MakeTracker : Tracker := mkTracker ∅ ∅.

(** The new tracker, the sends, and the method's result. *)
Definition Tracker_Register (cmd : Command) (c : chan) (pr : Tracker)
    : Tracker * list chan_event * bool :=
  let tid := cmd_tid cmd in
  match t_responses pr !! tid with
  | Some res => (pr, [Send c res], false)
  | None =>
      match t_requests pr !! tid with
      | None => (mkTracker (<[tid := c]> (t_requests pr)) (t_responses pr), [], true)
      | Some _ => (pr, [], false)
      end
  end.

Definition Tracker_Finish (cp : CommandResult) (pr : Tracker) : Tracker * list chan_event :=
  let tid := res_tid cp in
  match t_requests pr !! tid with
  | Some ret => (mkTracker (delete tid (t_requests pr)) (t_responses pr), [Send ret cp])
  | None => (mkTracker (t_requests pr) (<[tid := cp]> (t_responses pr)), [])
  end.

(** [order] is the order in which Go ranges over the map: any list of its
    entries. *)
Definition Tracker_FinishAll (order : list (trackerID * chan)) (pr : Tracker)
    : Tracker * list chan_event :=
  (mkTracker (foldr (λ x, delete x.1) (t_requests pr) order) (t_responses pr),
   (λ x, Close x.2) <$> order).

(** ** A run of the tracker *)
Inductive tracker_op := OpRegister (cmd : Command) (c : chan) | OpFinish (r : CommandResult).

Definition tracker_step (op : tracker_op) (pr : Tracker) : Tracker * list chan_event :=
  match op with
  | OpRegister cmd c => (Tracker_Register cmd c pr).1
  | OpFinish r => Tracker_Finish r pr
  end.

Fixpoint tracker_run (ops : list tracker_op) (pr : Tracker) : Tracker * list chan_event :=
  match ops with
  | [] => (pr, [])
  | op :: ops =>
      let '(pr, out) := tracker_step op pr in
      let '(pr, out') := tracker_run ops pr in (pr, out ++ out')
  end.

(** The channels registered for a request, in order. *)
Definition registered (ops : list tracker_op) : list (chan * trackerID) :=
  omap (λ op, match op with
              | OpRegister cmd c => Some (c, cmd_tid cmd)
              | OpFinish _ => None
              end) ops.

Definition sent_on (out : list chan_event) : list (chan * trackerID) :=
  omap (λ e, match e with Send c r => Some (c, res_tid r) | Close _ => None end) out.

(** The state after a prefix [ops] of a run: what it holds comes from [ops]. *)
Record tracker_ok (ops : list tracker_op) (pr : Tracker) : Prop := {
  ok_requests tid c : t_requests pr !! tid = Some c → (c, tid) ∈ registered ops;
  ok_responses tid r : t_responses pr !! tid = Some r →
    OpFinish r ∈ ops ∧ res_tid r = tid;
}.

Lemma registered_app ops1 ops2 : registered (ops1 ++ ops2) = registered ops1 ++ registered ops2.
Proof. apply omap_app. Qed.

Lemma tracker_ok_app ops ops' pr : tracker_ok ops pr → tracker_ok (ops ++ ops') pr.
Proof.
  intros [Hreq Hres]. split.
  - intros tid c ?%Hreq. rewrite registered_app, elem_of_app. by left.
  - intros tid r [??]%Hres. rewrite elem_of_app. auto.
Qed.

Lemma tracker_step_ok ops op pr pr' out :
  tracker_ok ops pr → tracker_step op pr = (pr', out) →
  tracker_ok (ops ++ [op]) pr' ∧
  ∀ c r, Send c r ∈ out →
    OpFinish r ∈ ops ++ [op] ∧ (c, res_tid r) ∈ registered (ops ++ [op]).
Proof.
  intros Hok. pose proof (tracker_ok_app _ [op] _ Hok) as [Hreq Hres]. destruct op as [cmd c|r]; simpl.
  - unfold Tracker_Register. destruct (t_responses pr !! _) as [r|] eqn:Hr.
    + intros [= <- <-]. split; [done|].
      intros c' r'. rewrite list_elem_of_singleton. intros [= -> ->].
      apply Hres in Hr as [Hr Htid]. split; [done|].
      rewrite registered_app, elem_of_app, Htid. right. by left.
    + destruct (t_requests pr !! _) eqn:Hq; intros [= <- <-];
        (split; [|by intros ?? ?%not_elem_of_nil]).
      { done. }
      split; simpl; [|done]. intros tid c'. rewrite lookup_insert_Some.
      intros [[<- <-]|[_ ?]]; [|by apply Hreq].
      rewrite registered_app, elem_of_app. right. by left.
  - assert (OpFinish r ∈ ops ++ [OpFinish r]) by (rewrite elem_of_app; right; by left).
    unfold Tracker_Finish. destruct (t_requests pr !! _) as [c|] eqn:Hq; intros [= <- <-].
    + split.
      { split; simpl; [|done]. intros tid c' [??]%lookup_delete_Some. by apply Hreq. }
      intros c' r'. rewrite list_elem_of_singleton. intros [= -> ->]. auto.
    + split; [|by intros ?? ?%not_elem_of_nil]. split; simpl; [done|].
      intros tid r'. rewrite lookup_insert_Some. intros [[<- <-]|[_ ?]]; auto.
Qed.

Lemma tracker_run_ok ops0 ops pr pr' out :
  tracker_ok ops0 pr → tracker_run ops pr = (pr', out) →
  ∀ c r, Send c r ∈ out → OpFinish r ∈ ops0 ++ ops ∧ (c, res_tid r) ∈ registered (ops0 ++ ops).
Proof.
  revert ops0 pr out. induction ops as [|op ops IH]; intros ops0 pr out Hok Hr; simpl in Hr.
  { simplify_eq. by intros ?? ?%not_elem_of_nil. }
  destruct (tracker_step op pr) as [pr1 out1] eqn:Hs.
  destruct (tracker_run ops pr1) as [pr2 out2] eqn:Hr2. simplify_eq.
  destruct (tracker_step_ok _ _ _ _ _ Hok Hs) as [Hok1 Hout1].
  intros c r [Hc|Hc]%elem_of_app.
  - apply Hout1 in Hc as [??].
    change (op :: ops) with ([op] ++ ops). rewrite (assoc (++)).
    rewrite registered_app. split; apply elem_of_app; auto.
  - specialize (IH (ops0 ++ [op]) pr1 out2 Hok1 Hr2 c r Hc).
    by rewrite <-app_assoc in IH.
Qed.

(** How many sends a channel got plus whether it still waits, against how often
    it was registered: a channel is never sent more results than registrations. *)
Definition waits (c : chan) (pr : Tracker) : nat :=
  size (filter (λ x : trackerID * chan, x.2 = c) (t_requests pr)).
Definition one (c c' : chan) : nat := if decide (c' = c) then 1 else 0.
Definition count_sends (c : chan) (out : list chan_event) : nat :=
  sum_list_with (λ e, match e with Send c' _ => one c c' | Close _ => 0 end) out.
Definition count_registers (c : chan) (ops : list tracker_op) : nat :=
  sum_list_with (λ op, match op with OpRegister _ c' => one c c' | OpFinish _ => 0 end) ops.

Lemma waits_insert c c' tid pr :
  t_requests pr !! tid = None →
  waits c (mkTracker (<[tid := c']> (t_requests pr)) (t_responses pr)) =
  one c c' + waits c pr.
Proof.
  intros Hn. unfold waits, one. simpl. rewrite map_filter_insert. simpl. case_decide.
  - rewrite map_size_insert_None; [done|].
    apply map_lookup_filter_None. by left.
  - by rewrite delete_id.
Qed.

Lemma waits_delete c c' tid pr :
  t_requests pr !! tid = Some c' →
  one c c' + waits c (mkTracker (delete tid (t_requests pr)) (t_responses pr)) = waits c pr.
Proof.
  intros Hs. set (pr0 := mkTracker (delete tid (t_requests pr)) (t_responses pr)).
  assert (pr = mkTracker (<[tid := c']> (t_requests pr0)) (t_responses pr0)) as Heq.
  { unfold pr0. simpl. rewrite insert_delete_id by done. by destruct pr. }
  rewrite Heq, (waits_insert c c' tid pr0); [done|]. apply lookup_delete_eq.
Qed.

Lemma tracker_step_sends c op pr pr' out :
  tracker_step op pr = (pr', out) →
  count_sends c out + waits c pr' ≤ count_registers c [op] + waits c pr.
Proof.
  destruct op as [cmd c'|r]; simpl.
  - unfold Tracker_Register. destruct (t_responses pr !! _) as [r|] eqn:Hr.
    + intros [= <- <-]. simpl. lia.
    + destruct (t_requests pr !! _) eqn:Hq; intros [= <- <-]; simpl; [lia|].
      rewrite waits_insert by done. lia.
  - unfold Tracker_Finish. destruct (t_requests pr !! _) as [c'|] eqn:Hq; intros [= <- <-].
    + rewrite <-(waits_delete c c' _ _ Hq). simpl. lia.
    + done.
Qed.

Lemma tracker_run_sends c ops pr pr' out :
  tracker_run ops pr = (pr', out) →
  count_sends c out + waits c pr' ≤ count_registers c ops + waits c pr.
Proof.
  revert pr out. induction ops as [|op ops IH]; intros pr out Hr; simpl in Hr.
  { by simplify_eq. }
  destruct (tracker_step op pr) as [pr1 out1] eqn:Hs.
  destruct (tracker_run ops pr1) as [pr2 out2] eqn:Hr2. simplify_eq.
  apply (tracker_step_sends c) in Hs. specialize (IH pr1 out2 Hr2).
  unfold count_sends, count_registers in *. rewrite sum_list_with_app. simpl in *. lia.
Qed.
