(* ===== verification/Peer.v ===== *)
(** * The peer runtime (src/peer)

    The interface every protocol implements ([Protocol], peer/protocol.go), the
    logical timers (peer/timer.go), the request buffer (peer/req_buf.go), the
    asynchronous applier with its key-value store (peer/applier.go) and the
    loop that drives a protocol (peer/peer.go).  Goroutines are steps of the
    state machine [Peer]; what holds the peer's mutex is one step. *)
From S2P Require Import Prelude Command Tracker.

(** ** Messages and packets *)

(** peerpb.Message *)
Record Message := mkMessage {
  msg_From : Z;
  msg_To : Z;
  msg_Content : bytes;
  msg_Certificate : bytes;
}.

Record ExecPacket := mkExecPacket {
  x_Cmd : Command;
  x_IsSpec : bool;
  x_Meta : slice;
  x_Callback : bool;
  x_NoExec : bool;
}.

Record ExecCallback := mkExecCallback { xc_Cmd : Command; xc_Result : bytes }.

Record Ready := mkReady {
  rd_Messages : list Message;
  rd_OrderedCommands : list ExecPacket;
}.

#[export] Instance Message_eq_dec : EqDecision Message.
Proof. solve_decision. Defined.
#[export] Instance ExecPacket_eq_dec : EqDecision ExecPacket.
Proof. solve_decision. Defined.

(** The zero value of a Go [Command]. *)
Definition zero_Command : Command := mkCommand 0 [] 0 None None None.

(** [ExecPacket{Cmd: *cmd}]. *)
Definition exec_pkt (cmd : Command) : ExecPacket :=
  mkExecPacket cmd false None false false.

(** peer.Protocol: what a protocol promises to the peer loop. *)
Class Protocol (P : Type) := {
  Step : Message → M P unit;
  Tick : M P unit;
  Request : Command → M P unit;
  Callback : ExecCallback → M P unit;
  MakeReady : M P Ready;
  ClearMsgs : M P unit;
  ClearExecutedCommands : M P unit;
  AsyncCallback : M P unit;
}.

(** ** Logical timers *)
Module Timer.
(** [onTimeout] is a closure; [Instrument] puts a new one before it.  The
    actions are those the closures perform, in the order they run: a reset of
    the timer itself, or an action [A] of the protocol. *)
Inductive action (A : Type) := Reset_self | Stop_self | Act (a : A).
Arguments Reset_self {A}.
Arguments Stop_self {A}.
Arguments Act {A} a.

Record tickingTimer (A : Type) := mkTimer {
  timeout : Z;
  ticksElapsed : Z;
  paused : bool;
  onTimeout : list (action A);
}.
Arguments mkTimer {A}.
Arguments timeout {A}.
Arguments ticksElapsed {A}.
Arguments paused {A}.
Arguments onTimeout {A}.

Section timer.
Context {A : Type}.
Implicit Types t : tickingTimer A.

Definition MakeTickingTimer (timeout : Z) (onTimeout : list (action A)) : tickingTimer A :=
  mkTimer timeout 0 true onTimeout.

Definition Reset t : tickingTimer A := mkTimer (timeout t) 0 false (onTimeout t).
Definition resetWithJitter (jitter : Z) t : tickingTimer A :=
  mkTimer (timeout t) jitter false (onTimeout t).
Definition Stop t : tickingTimer A := mkTimer (timeout t) 0 true (onTimeout t).
Definition IsSet t : bool := negb (paused t).
Definition Instrument (instrumentedTimeout : list (action A)) t : tickingTimer A :=
  mkTimer (timeout t) (ticksElapsed t) (paused t) (instrumentedTimeout ++ onTimeout t).

(** Run the closures: the timer after them and the protocol actions. *)
Fixpoint fire (l : list (action A)) t : tickingTimer A * list A :=
  match l with
  | [] => (t, [])
  | Reset_self :: l => fire l (Reset t)
  | Stop_self :: l => fire l (Stop t)
  | Act a :: l => let '(t, out) := fire l t in (t, a :: out)
  end.

Definition Tick t : tickingTimer A * list A :=
  if paused t then (t, []) else
  let ticks := (ticksElapsed t + 1)%Z in
  if decide (timeout t ≤ ticks)%Z
  then fire (onTimeout t) (mkTimer (timeout t) ticks true (onTimeout t))
  else (mkTimer (timeout t) ticks false (onTimeout t), []).

(** The protocols' [registerInfiniteTimer]: re-arm before the action. *)
Definition registerInfiniteTimer t : tickingTimer A := Reset (Instrument [Reset_self] t).

Fixpoint ticks (n : nat) t : tickingTimer A * list A :=
  match n with
  | O => (t, [])
  | S n => let '(t, out) := Tick t in let '(t, out') := ticks n t in (t, out ++ out')
  end.

(** The state of an infinite timer [e] ticks after its last timeout. *)
Definition armed (to : nat) (e : nat) (a : A) : tickingTimer A :=
  mkTimer (Z.of_nat to) (Z.of_nat e) false [Reset_self; Act a].

Lemma Tick_armed to e a :
  e < to →
  Tick (armed to e a) = if decide (S e = to) then (armed to 0 a, [a]) else (armed to (S e) a, []).
Proof.
  intros He. unfold Tick, armed; simpl. repeat case_decide; try lia; simpl.
  - done.
  - do 2 f_equal. lia.
Qed.

Lemma ticks_armed to n e a :
  e < to → ticks n (armed to e a) =
    (armed to ((e + n) mod to) a, replicate ((e + n) / to) a).
Proof.
  revert e. induction n as [|n IH]; intros e He; simpl.
  { rewrite Nat.add_0_r, Nat.mod_small, Nat.div_small by done. done. }
  rewrite Tick_armed by done. case_decide as Hd.
  - rewrite IH by lia.
    replace (e + S n) with (n + 1 * to) by lia.
    rewrite Nat.Div0.mod_add, Nat.div_add by lia.
    rewrite Nat.add_1_r. done.
  - rewrite IH by lia. rewrite Nat.add_succ_r. done.
Qed.
End timer.
End Timer.

(** ** The request buffer *)
Module ReqBuf.
Definition propBufCap : nat := 1024.

(** [c] is the channel the handler waits on. *)
Record reqBufElem := mkElem { e_cmd : Command; e_c : nat }.

(** The array [b], with [None] for the zero element, and the counter [i]. *)
Record reqBuf := mkReqBuf {
  rb_b : list (option reqBufElem);
  rb_i : Z;
  rb_threshold : Z;
}.

Definition init (threshold : Z) : reqBuf :=
  mkReqBuf (replicate propBufCap None) 0 threshold.

(** One round of [add]'s loop: [true] when the element was stored, [false]
    when the caller waits on [full] and will go round again. *)
Definition add (e : reqBufElem) (b : reqBuf) : outcome (reqBuf * bool) :=
  let n := i32 (rb_i b + 1) in      (* atomic.AddInt32(&b.i, 1) *)
  let i := i32 (n - 1) in
  if decide (i < Z.of_nat (length (rb_b b)))%Z
  then if decide (i < 0)%Z then Panic "index out of range" else
       Ret (mkReqBuf (<[Z.to_nat i := Some e]> (rb_b b)) n (rb_threshold b), true)
  else Ret (mkReqBuf (rb_b b) n (rb_threshold b), false).

(** [flush]: the slice [f] is called on, if it is called. *)
Definition flush (force : bool) (b : reqBuf) : reqBuf * option (list (option reqBufElem)) :=
  if (bool_decide (rb_i b < rb_threshold b)%Z) && negb force then (b, None) else
  let i := rb_i b in
  let i := if decide (Z.of_nat (length (rb_b b)) ≤ i)%Z then Z.of_nat (length (rb_b b)) else i in
  if decide (0 < i)%Z
  then (mkReqBuf (rb_b b) 0 (rb_threshold b), Some (take (Z.to_nat i) (rb_b b)))
  else (b, None).

Inductive op := Add (e : reqBufElem) | Flush (force : bool).

(** A run: what was accepted, and the batches that were flushed. *)
Fixpoint run (ops : list op) (b : reqBuf)
    : outcome (reqBuf * list reqBufElem * list (list (option reqBufElem))) :=
  match ops with
  | [] => Ret (b, [], [])
  | Add e :: ops =>
      '(b, ok) ← add e b;
      '(b, acc, fl) ← run ops b;
      Ret (b, (if ok : bool then [e] else []) ++ acc, fl)
  | Flush force :: ops =>
      let '(b, batch) := flush force b in
      '(b, acc, fl) ← run ops b;
      Ret (b, acc, option_list batch ++ fl)
  end.

(** The abstract queue: the elements stored since the last flush. *)
Definition contents (b : reqBuf) : list (option reqBufElem) :=
  take (Z.to_nat (rb_i b)) (rb_b b).
(** The counter is within what [n] more additions cannot overflow. *)
Definition buf_ok (n : nat) (b : reqBuf) : Prop :=
  length (rb_b b) = propBufCap ∧ (0 ≤ rb_i b)%Z ∧ (rb_i b + Z.of_nat n < 2147483648)%Z.

Lemma init_ok n t : (Z.of_nat n < 2147483648)%Z → buf_ok n (init t).
Proof. split; [apply length_replicate|done]. Qed.

Lemma add_spec n e b :
  buf_ok (S n) b →
  ∃ b' ok, add e b = Ret (b', ok) ∧
  buf_ok n b' ∧ contents b' = contents b ++ (if ok : bool then [Some e] else []) ∧
  (ok = true ↔ (rb_i b < Z.of_nat propBufCap)%Z).
Proof.
  unfold add, buf_ok, contents. intros (Hl & Hi & Hn). rewrite Hl.
  rewrite (i32_id (rb_i b + 1)) by lia. rewrite (i32_id (rb_i b + 1 - 1)) by lia.
  replace (rb_i b + 1 - 1)%Z with (rb_i b) by lia.
  case_decide as Hd; [rewrite decide_False by lia|]; do 2 eexists; (split; [done|]); simpl.
  - rewrite length_insert. split_and!; [done|lia|lia| |done].
    rewrite Z2Nat.inj_add by lia. rewrite Nat.add_1_r.
    rewrite (take_S_r _ _ (Some e)).
    + by rewrite take_insert_ge.
    + apply list_lookup_insert_eq. rewrite Hl. lia.
  - rewrite app_nil_r. split_and!; [done|lia|lia| |done].
    rewrite !take_ge; [done|lia|lia].
Qed.

Lemma flush_spec n force b b' batch :
  buf_ok n b → flush force b = (b', batch) →
  buf_ok n b' ∧
  ((batch = None ∧ b' = b) ∨ (batch = Some (contents b) ∧ contents b' = [])).
Proof.
  unfold flush, buf_ok, contents. intros (Hl & Hi & Hn) Hf.
  destruct (_ && _); [simplify_eq; auto|]. rewrite Hl in Hf.
  case_decide as H1; case_decide as H2; simplify_eq; auto; simpl.
  all: split; [split_and!; [done|lia|lia]|]; right; split; [|by rewrite take_0]; f_equal.
  rewrite Nat2Z.id, !take_ge by lia. done.
Qed.

Lemma run_spec ops b :
  buf_ok (length ops) b →
  ∃ b' acc fl, run ops b = Ret (b', acc, fl) ∧
  concat fl ++ contents b' = contents b ++ (Some <$> acc).
Proof.
  revert b. induction ops as [|[e|force] ops IH]; intros b Hok.
  - do 3 eexists; split; [done|]. simpl. by rewrite app_nil_r.
  - destruct (add_spec _ e _ Hok) as (b1 & ok & Ha & Hok1 & Hc & _).
    destruct (IH _ Hok1) as (b2 & acc & fl & Hr & Heq).
    do 3 eexists; split. { simpl. rewrite Ha. simpl. by rewrite Hr. }
    rewrite Heq, Hc, fmap_app, <-app_assoc. by destruct ok.
  - assert (buf_ok (length ops) b) as Hok0 by (unfold buf_ok in *; simpl in *; lia).
    destruct (flush force b) as [b1 batch] eqn:Ha.
    destruct (flush_spec _ _ _ _ _ Hok0 Ha) as [Hok1 Hb].
    destruct (IH _ Hok1) as (b2 & acc & fl & Hr & Heq).
    do 3 eexists; split. { simpl. rewrite Ha. simpl. by rewrite Hr. }
    destruct Hb as [[-> ->]|[-> Hc]]; simpl; [done|].
    rewrite <-app_assoc, Heq, Hc. done.
Qed.
End ReqBuf.

(** ** Execution of a command on the key-value store *)
Module Applier.
Section kv.
Context `{GoEnv}.

(** [Key.String()]. *)
Definition Key_String (k : slice) : string := Sprintf_q (default [] k).

Definition write_result (key val : slice) : OperationResult :=
  mkOperationResult (Some (OperationResult_KVOpResult (Some (mkKVOpResult key val true)))).

(** The loop body for one operation, on the store [pl.kv]. *)
Definition execOp (op : Operation) (kv : gmap string slice)
    : outcome (OperationResult * gmap string slice) :=
  match Operation_GetKVOp op with
  | None => Panic "nil KVOp"
  | Some kvOp =>
      if negb (kv_Read kvOp)
      then Ret (write_result (kv_Key kvOp) None,
                <[Key_String (kv_Key kvOp) := kv_Value kvOp]> kv)
      else match kv !! Key_String (kv_Key kvOp) with
           | Some val => Ret (write_result (kv_Key kvOp) val, kv)
           | None => Panic "key not present"
           end
  end.

Fixpoint execOps (ops : list Operation) (kv : gmap string slice)
    : outcome (list OperationResult * gmap string slice) :=
  match ops with
  | [] => Ret ([], kv)
  | op :: ops => '(r, kv) ← execOp op kv; '(rs, kv) ← execOps ops kv; Ret (r :: rs, kv)
  end.

Definition executeCommand (cmd : Command) (kv : gmap string slice)
    : outcome (CommandResult * gmap string slice) :=
  '(results, kv) ← execOps (c_Ops cmd) kv;
  Ret (mkCommandResult (c_Timestamp cmd) results (c_Target cmd) None, kv).

(** The specification: a map from key bytes to values, with no quoting. *)
Definition spec_op (op : Operation) (s : gmap bytes slice)
    : option (OperationResult * gmap bytes slice) :=
  k ← Operation_GetKVOp op;
  if kv_Read k
  then v ← s !! default [] (kv_Key k); Some (write_result (kv_Key k) v, s)
  else Some (write_result (kv_Key k) None, <[default [] (kv_Key k) := kv_Value k]> s).

Fixpoint spec_ops (ops : list Operation) (s : gmap bytes slice)
    : option (list OperationResult * gmap bytes slice) :=
  match ops with
  | [] => Some ([], s)
  | op :: ops => '(r, s) ← spec_op op s; '(rs, s) ← spec_ops ops s; Some (r :: rs, s)
  end.

(** The store of the code that represents an abstract one. *)
Definition represents (kv : gmap string slice) (s : gmap bytes slice) : Prop :=
  kv = kmap Sprintf_q s.

Lemma execOp_spec `{!GoEnvLaws} op kv s :
  represents kv s →
  match spec_op op s with
  | Some (r, s') => ∃ kv', execOp op kv = Ret (r, kv') ∧ represents kv' s'
  | None => ∃ w, execOp op kv = Panic w
  end.
Proof.
  intros ->. unfold spec_op, execOp, Key_String.
  destruct (Operation_GetKVOp op) as [k|]; simpl; [|eauto].
  destruct (kv_Read k); simpl.
  - rewrite lookup_kmap by apply _. destruct (s !! _); simpl; [|eauto].
    eexists; split; [done|]. done.
  - eexists; split; [done|]. unfold represents. by rewrite kmap_insert by apply _.
Qed.

Lemma execOps_spec `{!GoEnvLaws} ops kv s :
  represents kv s →
  match spec_ops ops s with
  | Some (rs, s') => ∃ kv', execOps ops kv = Ret (rs, kv') ∧ represents kv' s'
  | None => ∃ w, execOps ops kv = Panic w
  end.
Proof.
  revert kv s. induction ops as [|op ops IH]; intros kv s Hr; simpl; [eauto|].
  pose proof (execOp_spec op kv s Hr) as Hop.
  destruct (spec_op op s) as [[r s1]|]; simpl.
  - destruct Hop as (kv1 & -> & Hr1). simpl. specialize (IH kv1 s1 Hr1).
    destruct (spec_ops ops s1) as [[rs s2]|]; simpl.
    + destruct IH as (kv2 & -> & ?). simpl. eauto.
    + destruct IH as (w & ->). simpl. eauto.
  - destruct Hop as (w & ->). simpl. eauto.
Qed.

(** *** Equal requests have equal effects

    Stores are compared up to nil against empty values. *)
Definition kv_eqv (kv1 kv2 : gmap string slice) : Prop :=
  ∀ k, option_Forall2 slice_eqv (kv1 !! k) (kv2 !! k).

#[export] Instance kv_eqv_equiv : Equivalence kv_eqv.
Proof.
  unfold kv_eqv. split.
  - intros kv k. destruct (kv !! k); by constructor.
  - intros kv1 kv2 Hk k. destruct (Hk k); constructor. by symmetry.
  - intros kv1 kv2 kv3 H12 H23 k. specialize (H23 k). revert H23.
    destruct (H12 k) as [x y Hxy|]; intros H23; inversion H23; subst; constructor. by etrans.
Qed.

(** Two runs both stop, or end in equivalent stores. *)
Definition same_store {A} (o1 o2 : outcome (A * gmap string slice)) : Prop :=
  match o1, o2 with
  | Ret (_, kv1), Ret (_, kv2) => kv_eqv kv1 kv2
  | Panic _, Panic _ => True
  | _, _ => False
  end.

Lemma execOp_eqv op1 op2 kv1 kv2 :
  op_content op1 = op_content op2 → kv_eqv kv1 kv2 →
  same_store (execOp op1 kv1) (execOp op2 kv2).
Proof.
  unfold op_content, execOp, Key_String. intros Hop Hkv.
  destruct (Operation_GetKVOp op1) as [k1|], (Operation_GetKVOp op2) as [k2|]; simplify_eq/=; [|done].
  match goal with Hk : default [] (kv_Key k1) = _, Hv : default [] (kv_Value k1) = _,
    Hr : kv_Read k1 = _ |- _ => rename Hk into Hkey, Hv into Hval, Hr into Hread end.
  rewrite Hkey, Hread. destruct (kv_Read k2); simpl.
  - by destruct (Hkv (Sprintf_q (default [] (kv_Key k2)))).
  - intros k. rewrite !lookup_insert. case_decide; [by constructor|apply Hkv].
Qed.

Lemma execOps_eqv ops1 ops2 kv1 kv2 :
  op_content <$> ops1 = op_content <$> ops2 → kv_eqv kv1 kv2 →
  same_store (execOps ops1 kv1) (execOps ops2 kv2).
Proof.
  revert ops2 kv1 kv2. induction ops1 as [|op1 ops1 IH]; intros [|op2 ops2] kv1 kv2 Ho Hkv;
    simplify_eq/=; [done|].
  pose proof (execOp_eqv op1 op2 kv1 kv2) as He. unfold mbind, outcome_bind.
  destruct (execOp op1 kv1) as [[r1 kv1']| |], (execOp op2 kv2) as [[r2 kv2']| |];
    simpl in *; try tauto.
  pose proof (IH ops2 kv1' kv2') as Hs.
  destruct (execOps ops1 kv1') as [[]| |], (execOps ops2 kv2') as [[]| |]; simpl in *; tauto.
Qed.

(** The store after a list of commands. *)
Fixpoint executeAll (cmds : list Command) (kv : gmap string slice)
    : outcome (list CommandResult * gmap string slice) :=
  match cmds with
  | [] => Ret ([], kv)
  | c :: cmds =>
      '(r, kv) ← executeCommand c kv; '(rs, kv) ← executeAll cmds kv; Ret (r :: rs, kv)
  end.

Lemma executeCommand_eqv c1 c2 kv1 kv2 :
  same_request c1 c2 → kv_eqv kv1 kv2 →
  same_store (executeCommand c1 kv1) (executeCommand c2 kv2).
Proof.
  intros [= _ _ _ Ho] Hkv. pose proof (execOps_eqv _ _ _ _ Ho Hkv) as Hs.
  unfold executeCommand, mbind, outcome_bind.
  by destruct (execOps (c_Ops c1) kv1) as [[]| |], (execOps (c_Ops c2) kv2) as [[]| |].
Qed.

Lemma executeAll_eqv l1 l2 kv1 kv2 :
  Forall2 same_request l1 l2 → kv_eqv kv1 kv2 →
  same_store (executeAll l1 kv1) (executeAll l2 kv2).
Proof.
  intros Hl. revert kv1 kv2. induction Hl as [|c1 c2 l1 l2 Hc Hl IH]; intros kv1 kv2 Hkv; [done|].
  simpl. pose proof (executeCommand_eqv _ _ _ _ Hc Hkv) as He. unfold mbind, outcome_bind.
  destruct (executeCommand c1 kv1) as [[r1 kv1']| |], (executeCommand c2 kv2) as [[r2 kv2']| |];
    simpl in *; try tauto.
  specialize (IH kv1' kv2' He).
  by destruct (executeAll l1 kv1') as [[]| |], (executeAll l2 kv2') as [[]| |].
Qed.
End kv.
End Applier.

(** ** The peer *)
Section peer.
Import Applier.
Context `{GoEnv, Codec Command, Codec CommandResult}.
Context {P : Type} `{Protocol P}.

(** An event on the applier's channel. *)
Inductive asyncApplyEvent := Apply (ents : list ExecPacket) | SyncEv | StopEv.

Record Peer := mkPeer {
  pr_id : Z;
  pr_nPeers : nat;                    (* len(cfg.Peers) *)
  pr_n : P;
  pr_rb : ReqBuf.reqBuf;
  pr_ct : Tracker;
  pr_msgs : list (list Message);      (* received, a channel *)
  pr_toSend : list (list Message);    (* a channel of capacity 512 *)
  pr_toApply : list asyncApplyEvent;  (* a channel of capacity 512 *)
  pr_sending : option asyncApplyEvent; (* what the loop waits to put on toApply *)
  pr_applying : list ExecPacket;      (* the rest of the applier's event *)
  pr_applyStopped : bool;
  pr_kv : gmap string slice;
  pr_sig : bool;                      (* the wake-up signal is pending *)
  pr_transport : list Message;        (* handed to the transport, in order *)
  pr_out : list chan_event;           (* sends to clients, in order *)
}.

#[export] Instance Peer_eta : Eta Peer := λ p,
  mkPeer (pr_id p) (pr_nPeers p) (pr_n p) (pr_rb p) (pr_ct p) (pr_msgs p) (pr_toSend p)
    (pr_toApply p) (pr_sending p) (pr_applying p) (pr_applyStopped p) (pr_kv p)
    (pr_sig p) (pr_transport p) (pr_out p).
#[export] Instance set_pr_n : Setter pr_n := ltac:(solve_setter).
#[export] Instance set_pr_rb : Setter pr_rb := ltac:(solve_setter).
#[export] Instance set_pr_ct : Setter pr_ct := ltac:(solve_setter).
#[export] Instance set_pr_msgs : Setter pr_msgs := ltac:(solve_setter).
#[export] Instance set_pr_toSend : Setter pr_toSend := ltac:(solve_setter).
#[export] Instance set_pr_toApply : Setter pr_toApply := ltac:(solve_setter).
#[export] Instance set_pr_sending : Setter pr_sending := ltac:(solve_setter).
#[export] Instance set_pr_applying : Setter pr_applying := ltac:(solve_setter).
#[export] Instance set_pr_applyStopped : Setter pr_applyStopped := ltac:(solve_setter).
#[export] Instance set_pr_kv : Setter pr_kv := ltac:(solve_setter).
#[export] Instance set_pr_sig : Setter pr_sig := ltac:(solve_setter).
#[export] Instance set_pr_transport : Setter pr_transport := ltac:(solve_setter).
#[export] Instance set_pr_out : Setter pr_out := ltac:(solve_setter).

Definition chanCap : nat := 512.

(** Run a method of the protocol the peer holds. *)
Definition on_n {A} (m : M P A) : M Peer A := λ p,
  match m (pr_n p) with
  | Ret (a, n) => Ret (a, p <| pr_n := n |>)
  | Panic w => Panic w
  | Diverge => Diverge
  end.

Definition signal : M Peer unit := modify (λ p, p <| pr_sig := true |>).

(** [flushMsgs] takes at most [len(cfg.Peers)] batches (at least one). *)
Fixpoint flushMsgs_loop (times : nat) (q : list (list Message)) : M Peer unit :=
  match q with
  | [] => modify (λ p, p <| pr_msgs := [] |>)
  | m :: q =>
      for_each m (λ msg, on_n (Step msg));;
      p ← get;
      if decide (pr_nPeers p ≤ S times)
      then modify (λ p, p <| pr_msgs := q |>)
      else flushMsgs_loop (S times) q
  end.

Definition flushMsgs : M Peer unit :=
  on_n AsyncCallback;;
  p ← get;
  flushMsgs_loop 0 (pr_msgs p).

Definition flushCmds (rb : list (option ReqBuf.reqBufElem)) : M Peer unit :=
  for_each rb (λ e,
    match e with
    | None => panic "nil command"
    | Some e =>
        p ← get;
        let cmd := ReqBuf.e_cmd e in
        let '(ct, out, ok) := Tracker_Register cmd (ReqBuf.e_c e) (pr_ct p) in
        modify (λ p, p <| pr_ct := ct |> <| pr_out ::= λ o, o ++ out |>);;
        when (ok && bool_decide (c_Target cmd = pr_id p)) (on_n (Request cmd))
    end).

Definition rb_flush (force : bool) : M Peer unit :=
  p ← get;
  let '(rb, batch) := ReqBuf.flush force (pr_rb p) in
  match batch with Some l => flushCmds l | None => mret tt end;;
  modify (λ p, p <| pr_rb := rb |>).

(** A non-blocking send on [toSend]. *)
Definition trySendMessages (msgs : list Message) : M Peer bool :=
  p ← get;
  if bool_decide (msgs = []) then mret false else
  if decide (length (pr_toSend p) < chanCap)
  then modify (λ p, p <| pr_toSend ::= λ q, q ++ [msgs] |>);; mret true
  else mret false.

(** [pl.toApply <- ...] may block: the event is left in [pr_sending]. *)
Definition maybeApplyAsync (ents : list ExecPacket) : M Peer unit :=
  if bool_decide (ents = []) then mret tt
  else modify (λ p, p <| pr_sending := Some (Apply ents) |>).

Definition RunOnce : M Peer unit :=
  rd ← on_n MakeReady;
  sent ← trySendMessages (rd_Messages rd);
  when sent (on_n ClearMsgs);;
  on_n ClearExecutedCommands;;
  maybeApplyAsync (rd_OrderedCommands rd).

(** One iteration of [Run]'s loop, the signal received and the peer not stopped. *)
Definition Run_body : M Peer unit :=
  modify (λ p, p <| pr_sig := false |>);;
  flushMsgs;;
  rb_flush false;;
  RunOnce.

Definition ticker_body : M Peer unit := on_n Tick;; signal.

Definition HandleMessage (m : list Message) : M Peer unit :=
  modify (λ p, p <| pr_msgs ::= λ q, q ++ [m] |>);; signal.

(** One packet of [handleExecutedCmds]. *)
Definition handlePkt (pkt : ExecPacket) : M Peer unit :=
  p ← get;
  result ←
    (if negb (x_NoExec pkt)
     then '(r, kv) ← lift (executeCommand (x_Cmd pkt) (pr_kv p));
          modify (λ p, p <| pr_kv := kv |>);;
          mret (r <| cr_Meta := x_Meta pkt |>)
     else if x_Callback pkt then panic "cannot set callback and noexec at same time"
     else match Unmarshal (default [] (x_Meta pkt)) with
          | Some r => mret r
          | None => panic "unable to unmarshal"
          end);
  if x_Callback pkt
  then match Marshal result with
       | Some msgBytes => on_n (Callback (mkExecCallback (x_Cmd pkt) msgBytes))
       | None => panic "Unable to marshal msg"
       end
  else p ← get;
       let '(ct, out) := Tracker_Finish result (pr_ct p) in
       modify (λ p, p <| pr_ct := ct |> <| pr_out ::= λ o, o ++ out |>).

(** The applier goroutine: take an event, or treat the next packet of the
    current one; the peer is woken up after the last packet. *)
Definition applier_take : M Peer unit :=
  p ← get;
  match pr_toApply p with
  | [] => mret tt
  | ev :: q =>
      modify (λ p, p <| pr_toApply := q |>);;
      match ev with
      | Apply ents => modify (λ p, p <| pr_applying := ents |>)
      | SyncEv => signal
      | StopEv => modify (λ p, p <| pr_applyStopped := true |>)
      end
  end.

Definition applier_pkt : M Peer unit :=
  p ← get;
  match pr_applying p with
  | [] => mret tt
  | pkt :: rest =>
      handlePkt pkt;;
      modify (λ p, p <| pr_applying := rest |>);;
      when (bool_decide (rest = [])) signal
  end.

Inductive peer_event :=
| EvMessage (m : list Message)
| EvCommand (e : ReqBuf.reqBufElem)
| EvTick
| EvRun          (* the loop wakes up *)
| EvPushApply    (* the blocked send on toApply goes through *)
| EvTake | EvPkt (* the applier goroutine *)
| EvSend.        (* the sender goroutine *)

(** When an event can happen, and its effect. *)
Definition enabled (e : peer_event) (p : Peer) : bool :=
  match e with
  | EvMessage _ => bool_decide (length (pr_msgs p) < 1024)
  | EvCommand _ | EvTick => true
  | EvRun => pr_sig p && bool_decide (pr_sending p = None)
  | EvPushApply => bool_decide (is_Some (pr_sending p) ∧ length (pr_toApply p) < chanCap)
  | EvTake => bool_decide (pr_applying p = [] ∧ pr_toApply p ≠ []) && negb (pr_applyStopped p)
  | EvPkt => bool_decide (pr_applying p ≠ [])
  | EvSend => bool_decide (pr_toSend p ≠ [])
  end.

Definition peer_step (e : peer_event) : M Peer unit :=
  match e with
  | EvMessage m => HandleMessage m
  | EvCommand el =>
      p ← get;
      '(rb, _) ← lift (ReqBuf.add el (pr_rb p));
      modify (λ p, p <| pr_rb := rb |>);; signal
  | EvTick => ticker_body
  | EvRun => Run_body
  | EvPushApply => modify (λ p, p <| pr_toApply ::= λ q, q ++ option_list (pr_sending p) |>
                                  <| pr_sending := None |>)
  | EvTake => applier_take
  | EvPkt => applier_pkt
  | EvSend =>
      p ← get;
      match pr_toSend p with
      | [] => mret tt
      | ms :: q => modify (λ p, p <| pr_toSend := q |> <| pr_transport ::= λ t, t ++ ms |>)
      end
  end.
End peer.
Arguments Peer : clear implicits.

(** ** The applier's queue *)
Section peer_lemmas.
Import Applier.
Context `{GoEnv, Codec Command, Codec CommandResult}.
Context {P : Type} `{Protocol P}.
Implicit Types (p : Peer P).

(** The state on the way from the protocol to the store. *)
Definition queues p := (pr_applying p, pr_toApply p, pr_sending p).

Lemma on_n_queues {A} (m : M P A) p : wp (on_n m) (λ _ p', queues p' = queues p) p.
Proof. unfold wp, on_n. by destruct (m (pr_n p)) as [[]| |]. Qed.

(** A method that keeps the queues, followed by another. *)
Lemma keep_bind {A B} (m : M (Peer P) A) (k : A → M (Peer P) B) (Q : B → Peer P → Prop) p :
  wp m (λ _ p', queues p' = queues p) p →
  (∀ a p', queues p' = queues p → wp (k a) Q p') → wp (m ≫= k) Q p.
Proof. intros Hm Hk. wp_step. eapply wp_mono; [done|]. auto. Qed.

Lemma for_each_queues {A} (l : list A) (body : A → M (Peer P) unit) p :
  (∀ x p, wp (body x) (λ _ p', queues p' = queues p) p) →
  wp (for_each l body) (λ _ p', queues p' = queues p) p.
Proof.
  intros Hb. apply (wp_for_each (λ p', queues p' = queues p)); [|done].
  intros x s _ Hs. eapply wp_mono; [apply Hb|]. intros ? s' Hs'. simpl in *. congruence.
Qed.

Lemma flushMsgs_loop_queues times q p :
  wp (flushMsgs_loop times q) (λ _ p', queues p' = queues p) p.
Proof.
  revert times p. induction q as [|m q IH]; intros times p; simpl; [by wp_step|].
  apply keep_bind; [apply for_each_queues; intros; apply on_n_queues|].
  intros _ p1 Hq1. wp_step. wp_step. case_decide; [by wp_step|].
  eapply wp_mono; [apply IH|]. simpl. congruence.
Qed.

Lemma flushMsgs_queues p : wp flushMsgs (λ _ p', queues p' = queues p) p.
Proof.
  unfold flushMsgs. apply keep_bind; [apply on_n_queues|]. intros _ p1 Hq1. wp_step. wp_step.
  eapply wp_mono; [apply flushMsgs_loop_queues|]. simpl. congruence.
Qed.

Lemma rb_flush_queues force p : wp (rb_flush force) (λ _ p', queues p' = queues p) p.
Proof.
  unfold rb_flush. wp_step. wp_step. destruct (ReqBuf.flush force (pr_rb p)) as [rb batch].
  apply keep_bind.
  - destruct batch; [|by wp_step]. apply for_each_queues. intros [e|] p1; [|done].
    wp_step. wp_step. cbv zeta. destruct (Tracker_Register (ReqBuf.e_cmd e) (ReqBuf.e_c e) (pr_ct p1)) as [[ct out] ok]. wp_step. wp_step.
    wp_step; [|done]. eapply wp_mono; [apply on_n_queues|]. by intros ? p2 ->.
  - intros _ p1 Hq1. by wp_step.
Qed.

Lemma handlePkt_queues pkt p : wp (handlePkt pkt) (λ _ p', queues p' = queues p) p.
Proof.
  unfold handlePkt. wp_step. wp_step. apply keep_bind.
  - wp_step; [|wp_step; [done|]].
    + wp_step. apply wp_lift. intros [r kv] _. wp_steps. done.
    + destruct (Unmarshal _); [by wp_step|done].
  - intros r p1 Hq1. wp_step.
    + destruct (Marshal r); [|done]. eapply wp_mono; [apply on_n_queues|]. by intros ? p2 ->.
    + wp_step. wp_step. destruct (Tracker_Finish _ _) as [ct out]. by wp_step.
Qed.

Definition ents (ev : asyncApplyEvent) : list ExecPacket :=
  match ev with Apply l => l | _ => [] end.

(** The packets handed over by the protocol that are not executed yet. *)
Definition backlog p : list ExecPacket :=
  pr_applying p ++ (pr_toApply p ≫= ents) ++ (option_list (pr_sending p) ≫= ents).

Lemma backlog_queues p p' : queues p' = queues p → backlog p' = backlog p.
Proof. unfold queues, backlog. by intros [= -> -> ->]. Qed.

(** What a step of the peer hands over, and what it executes. *)
Definition handed (e : peer_event) (p' : Peer P) : list ExecPacket :=
  match e with EvRun => option_list (pr_sending p') ≫= ents | _ => [] end.
Definition applied (e : peer_event) (p : Peer P) : list ExecPacket :=
  match e with EvPkt => take 1 (pr_applying p) | _ => [] end.

Lemma RunOnce_sending p :
  wp RunOnce (λ _ p', pr_applying p' = pr_applying p ∧ pr_toApply p' = pr_toApply p ∧
    (pr_sending p = None → ∃ n rd n', MakeReady n = Ret (rd, n') ∧
      option_list (pr_sending p') ≫= ents = rd_OrderedCommands rd)) p.
Proof.
  unfold RunOnce. wp_step. unfold on_n at 1, wp at 1.
  destruct (MakeReady (pr_n p)) as [[rd n']| |] eqn:Hrd; [|done..].
  apply keep_bind; [unfold trySendMessages; wp_step; wp_step; wp_step; [by wp_step|case_decide; by wp_steps]|].
  intros sent p1 Hq1. apply keep_bind; [wp_step; [apply on_n_queues|done]|].
  intros _ p2 Hq2. apply keep_bind; [apply on_n_queues|]. intros _ p3 Hq3.
  assert (queues p3 = queues p) as [= Ha Ht Hs] by (rewrite Hq3, Hq2, Hq1; done).
  unfold maybeApplyAsync. wp_step.
  - wp_step. split_and!; [done..|]. intros Hn. exists (pr_n p), rd, n'. split; [done|].
    rewrite Hs, Hn. match goal with Hb : bool_decide _ = true |- _ =>
      apply bool_decide_eq_true in Hb; by rewrite Hb end.
  - wp_step. split_and!; [done..|]. intros Hn. exists (pr_n p), rd, n'. split; [done|]. simpl.
    by rewrite app_nil_r.
Qed.

Lemma Run_body_backlog p :
  pr_sending p = None →
  wp Run_body (λ _ p', backlog p' = backlog p ++ handed EvRun p') p.
Proof.
  intros Hn. unfold Run_body. apply keep_bind; [by wp_step|]. intros _ p1 Hq1.
  apply keep_bind; [apply flushMsgs_queues|]. intros _ p2 Hq2.
  apply keep_bind; [apply rb_flush_queues|]. intros _ p3 Hq3.
  assert (queues p3 = queues p) as [= Ha Ht Hs] by congruence.
  eapply wp_mono; [apply RunOnce_sending|]. intros _ p4 (Ha4 & Ht4 & _). simpl.
  unfold backlog. rewrite Ha4, Ht4, Ha, Ht, Hn. simpl. by rewrite app_nil_r, <-app_assoc.
Qed.

Lemma Run_step_ready p p' :
  enabled EvRun p = true → peer_step EvRun p = Ret (tt, p') →
  ∃ n rd n', MakeReady n = Ret (rd, n') ∧ handed EvRun p' = rd_OrderedCommands rd.
Proof.
  intros [_ Hn%bool_decide_eq_true]%andb_true_iff Hs. simpl in Hs.
  assert (wp Run_body (λ _ p', ∃ n rd n', MakeReady n = Ret (rd, n') ∧
    handed EvRun p' = rd_OrderedCommands rd) p) as Hw; [|by apply (wp_run _ _ _ _ _ Hw Hs)].
  unfold Run_body. apply keep_bind; [by wp_step|]. intros _ p1 Hq1.
  apply keep_bind; [apply flushMsgs_queues|]. intros _ p2 Hq2.
  apply keep_bind; [apply rb_flush_queues|]. intros _ p3 Hq3.
  assert (queues p3 = queues p) as [= _ _ Hs3] by congruence.
  eapply wp_mono; [apply RunOnce_sending|]. intros _ p4 (_ & _ & Hrd). apply Hrd. congruence.
Qed.

(** One step keeps the packets in line: executed from the front, added at the
    back. *)
Lemma peer_step_backlog e p p' :
  enabled e p = true → peer_step e p = Ret (tt, p') →
  applied e p ++ backlog p' = backlog p ++ handed e p'.
Proof.
  intros He Hs. assert (wp (peer_step e) (λ _ p', applied e p ++ backlog p' = backlog p ++ handed e p') p)
    as Hw; [|by apply (wp_run _ _ _ _ _ Hw Hs)].
  destruct e; simpl in *; rewrite ?app_nil_r.
  - unfold HandleMessage. by wp_steps.
  - wp_step. wp_step. wp_step. apply wp_lift. intros [rb ok] _. by wp_steps.
  - unfold ticker_body, signal. apply keep_bind; [apply on_n_queues|]. intros _ p1 Hq1.
    wp_step. by apply backlog_queues.
  - apply andb_true_iff in He as [_ He%bool_decide_eq_true]. by apply Run_body_backlog.
  - wp_step. unfold backlog. simpl. by rewrite bind_app, app_nil_r.
  - unfold applier_take. wp_step. wp_step. apply andb_true_iff in He as [[Ha _]%bool_decide_eq_true _].
    unfold backlog. destruct (pr_toApply p) as [|ev q] eqn:Hq; [by wp_step; rewrite Hq|].
    wp_step. wp_step. rewrite Ha. destruct ev; unfold signal; wp_step; simpl; rewrite ?Ha; by rewrite <-?app_assoc.
  - unfold applier_pkt. wp_step. wp_step. unfold backlog.
    destruct (pr_applying p) as [|pkt rest] eqn:Hq; [by wp_step; rewrite Hq|].
    apply keep_bind; [apply handlePkt_queues|]. intros _ p1 [= Ha Ht Hse]. wp_step. wp_step.
    unfold signal. wp_step; [wp_step|]; simpl; by rewrite Ht, Hse.
  - wp_step. wp_step. destruct (pr_toSend p); [by wp_step|]. by wp_step.
Qed.

(** A run: the events, the packets handed over and those executed. *)
Inductive peer_run : Peer P → list ExecPacket → list ExecPacket → Peer P → Prop :=
| run_nil p : peer_run p [] [] p
| run_step p e p1 hs xs p2 :
    enabled e p = true → peer_step e p = Ret (tt, p1) → peer_run p1 hs xs p2 →
    peer_run p (handed e p1 ++ hs) (applied e p ++ xs) p2.

Lemma peer_run_backlog p hs xs p' :
  peer_run p hs xs p' → xs ++ backlog p' = backlog p ++ hs.
Proof.
  induction 1 as [p|p e p1 hs xs p2 He Hs Hr IH]; [by rewrite app_nil_r|].
  apply peer_step_backlog in Hs; [|done]. by rewrite <-app_assoc, IH, !app_assoc, Hs.
Qed.

(** Runs, executed. *)
Fixpoint peer_exec (es : list peer_event) (p : Peer P)
    : option (list ExecPacket * list ExecPacket * Peer P) :=
  match es with
  | [] => Some ([], [], p)
  | e :: es =>
      if enabled e p then
        match peer_step e p with
        | Ret (_, p1) =>
            '(hs, xs, p2) ← peer_exec es p1; Some (handed e p1 ++ hs, applied e p ++ xs, p2)
        | _ => None
        end
      else None
  end.

Lemma peer_exec_run es p hs xs p' : peer_exec es p = Some (hs, xs, p') → peer_run p hs xs p'.
Proof.
  revert p hs xs. induction es as [|e es IH]; intros p hs xs Hr; simpl in Hr.
  { simplify_eq. constructor. }
  destruct (enabled e p) eqn:He; [|done]. destruct (peer_step e p) as [[[] p1]| |] eqn:Hs; [|done..].
  apply bind_Some in Hr as ([[hs1 xs1] p2] & Hr & [= <- <- ->]). by econstructor; eauto.
Qed.
End peer_lemmas.
