(* ===== verification/Runs.v ===== *)
(** * Runs of a replica

    A peer (Peer.v) drives a consensus protocol through the [Protocol]
    interface only: it hands it messages, requests, ticks and callbacks, takes
    what [MakeReady] returns and clears it.  A run is a sequence of such calls
    that return, in any order, and of steps of the protocol's worker threads
    between the calls.  The theorems about a protocol are stated about every
    run, and so hold under every peer. *)
From S2P Require Import Prelude Command Tracker Peer.

(** The calls of the interface, but for [MakeReady]. *)
Inductive call :=
| Call_Step (m : Message)
| Call_Request (c : Command)
| Call_Tick
| Call_Callback (cb : ExecCallback)
| Call_AsyncCallback
| Call_ClearMsgs.

Section runs.
Context {P : Type} `{Protocol P}.
(** The steps of the protocol's worker threads. *)
Context (other : P → P → Prop).
Implicit Types (p : P) (h : list ExecPacket).

Definition do_call (c : call) : M P unit :=
  match c with
  | Call_Step m => Step m
  | Call_Request c => Request c
  | Call_Tick => Tick
  | Call_Callback cb => Callback cb
  | Call_AsyncCallback => AsyncCallback
  | Call_ClearMsgs => ClearMsgs
  end.

Section runs_with.
(** The calls that are made. *)
Context (allowed : call → Prop).

(** [runs_with h p h' p']: from state [p], with the packets [h] taken by the
    peer, to [p'] with [h'] taken.  The peer clears the executed commands after
    it has taken them, with at most [ClearMsgs] in between. *)
Inductive runs_with : list ExecPacket → P → list ExecPacket → P → Prop :=
| runs_with_nil h p : runs_with h p h p
| runs_with_call c h p p1 h2 p2 :
    allowed c → do_call c p = Ret (tt, p1) → runs_with h p1 h2 p2 → runs_with h p h2 p2
| runs_with_other h p p1 h2 p2 : other p p1 → runs_with h p1 h2 p2 → runs_with h p h2 p2
| runs_with_ready sent h p rd p1 p2 p3 h4 p4 :
    MakeReady p = Ret (rd, p1) → when sent ClearMsgs p1 = Ret (tt, p2) →
    ClearExecutedCommands p2 = Ret (tt, p3) →
    runs_with (h ++ rd_OrderedCommands rd) p3 h4 p4 → runs_with h p h4 p4.

Lemma runs_with_trans h1 p1 h2 p2 h3 p3 :
  runs_with h1 p1 h2 p2 → runs_with h2 p2 h3 p3 → runs_with h1 p1 h3 p3.
Proof. induction 1; eauto using runs_with. Qed.

(** An invariant of the state and the packets taken: what the calls, the worker
    steps and the hand-over keep. *)
Record invariant_with (I : list ExecPacket → P → Prop) : Prop := {
  iw_call c h p : allowed c → I h p → wp (do_call c) (λ _, I h) p;
  iw_other h p p1 : other p p1 → I h p → I h p1;
  iw_ready h p : I h p →
    wp MakeReady (λ rd p1, ∀ sent, wp (when sent ClearMsgs;; ClearExecutedCommands)
      (λ _, I (h ++ rd_OrderedCommands rd)) p1) p;
}.

Lemma runs_with_inv I h p h' p' : invariant_with I → runs_with h p h' p' → I h p → I h' p'.
Proof.
  intros HI. induction 1 as [|c h p p1 h2 p2 Ha Hc _ IH|h p p1 h2 p2 Ho _ IH
    |sent h p rd p1 p2 p3 h4 p4 Hr Hm Hx _ IH]; intros Hi; [done|apply IH..].
  - by apply (wp_run _ _ _ _ _ (iw_call I HI c h p Ha Hi) Hc).
  - by eapply iw_other.
  - pose proof (wp_run _ _ _ _ _ (iw_ready I HI h p Hi) Hr sent) as Hw. simpl in Hw.
    eapply (wp_run _ _ _ _ _ Hw). by rewrite (run_bind _ _ _ _ _ Hm).
Qed.

(** A call that does not return leaves the run where it was. *)
Lemma runs_with_calls cs h p :
  Forall allowed cs →
  runs_with h p h (foldl (λ p c, match do_call c p with Ret (_, p) => p | _ => p end) p cs).
Proof.
  intros Hcs. revert p. induction Hcs as [|c cs Hc _ IH]; intros p; simpl; [apply runs_with_nil|].
  destruct (do_call c p) as [[[] p1]| |] eqn:E; [by eapply runs_with_call|apply IH..].
Qed.
End runs_with.

Lemma runs_with_mono (allowed allowed' : call → Prop) h p h' p' :
  (∀ c, allowed c → allowed' c) → runs_with allowed h p h' p' → runs_with allowed' h p h' p'.
Proof.
  intros Ha. induction 1; [constructor|eapply runs_with_call; [by apply Ha|done..]|..]; by eauto using runs_with.
Qed.

(** Any calls. *)
Definition any_call (c : call) : Prop := True.
Definition runs : list ExecPacket → P → list ExecPacket → P → Prop := runs_with any_call.

Lemma runs_nil h p : runs h p h p.
Proof. apply runs_with_nil. Qed.
Lemma runs_call c h p p1 h2 p2 : do_call c p = Ret (tt, p1) → runs h p1 h2 p2 → runs h p h2 p2.
Proof. by apply runs_with_call. Qed.
Lemma runs_other h p p1 h2 p2 : other p p1 → runs h p1 h2 p2 → runs h p h2 p2.
Proof. apply runs_with_other. Qed.
Lemma runs_ready sent h p rd p1 p2 p3 h4 p4 :
  MakeReady p = Ret (rd, p1) → when sent ClearMsgs p1 = Ret (tt, p2) →
  ClearExecutedCommands p2 = Ret (tt, p3) →
  runs (h ++ rd_OrderedCommands rd) p3 h4 p4 → runs h p h4 p4.
Proof. apply runs_with_ready. Qed.
Lemma runs_trans h1 p1 h2 p2 h3 p3 : runs h1 p1 h2 p2 → runs h2 p2 h3 p3 → runs h1 p1 h3 p3.
Proof. apply runs_with_trans. Qed.
Lemma runs_with_runs allowed h p h' p' : runs_with allowed h p h' p' → runs h p h' p'.
Proof. by apply runs_with_mono. Qed.

Definition run_invariant : (list ExecPacket → P → Prop) → Prop := invariant_with any_call.
Lemma runs_inv I h p h' p' : run_invariant I → runs h p h' p' → I h p → I h' p'.
Proof. apply runs_with_inv. Qed.

(** A call that does not return leaves the run where it was. *)
Definition do_calls (cs : list call) p : P :=
  foldl (λ p c, match do_call c p with Ret (_, p) => p | _ => p end) p cs.

Lemma runs_calls cs h p : runs h p h (do_calls cs p).
Proof. apply runs_with_calls. by apply Forall_true. Qed.
End runs.

(** ** Runs that are computed

    A call that returns, or a step of the worker threads that can happen; others
    leave the run where it was. *)
Inductive act (E : Type) := Do (c : call) | Other (e : E).
#[global] Arguments Do {E} c.
#[global] Arguments Other {E} e.

Section acts.
Context {P : Type} `{Protocol P} {E : Type} (other : P → P → Prop) (step : E → P → option P).
Context (steps : ∀ e p p', step e p = Some p' → other p p').
Implicit Types (p : P) (h : list ExecPacket).

Definition do_act p (a : act E) : P :=
  match a with
  | Do c => match do_call c p with Ret (_, p) => p | _ => p end
  | Other e => default p (step e p)
  end.
Definition do_acts (acts : list (act E)) p : P := foldl do_act p acts.
Definition act_allowed (allowed : call → Prop) (a : act E) : Prop :=
  match a with Do c => allowed c | Other _ => True end.

Lemma do_acts_app acts1 acts2 p : do_acts (acts1 ++ acts2) p = do_acts acts2 (do_acts acts1 p).
Proof. apply foldl_app. Qed.
Lemma acts_run_with allowed acts h p :
  Forall (act_allowed allowed) acts → runs_with other allowed h p h (do_acts acts p).
Proof.
  intros Ha. revert p. induction Ha as [|a acts Hx _ IH]; intros p; [apply runs_with_nil|].
  destruct a as [c|e]; simpl.
  - destruct (do_call c p) as [[[] p1]| |] eqn:Hc; [eapply runs_with_call; [exact Hx|exact Hc|apply IH]|apply IH..].
  - destruct (step e p) as [p1|] eqn:Hw; simpl; [|apply IH]. eapply runs_with_other; [by eapply steps|apply IH].
Qed.
Lemma acts_runs acts h p : runs other h p h (do_acts acts p).
Proof. apply acts_run_with, Forall_true. by intros []. Qed.
End acts.

(** ** The peer drives its protocol

    Whatever the goroutines of a peer do, its protocol makes a run, and the
    packets of that run are those handed to the applier. *)
Section drives.
Context `{GoEnv, Codec Command, Codec CommandResult}.
Context {P : Type} `{Protocol P} (other : P → P → Prop).
Implicit Types (p : Peer P) (h : list ExecPacket).

(** From [p] to [p'] the protocol makes a run without handing packets over. *)
Definition moves p p' : Prop := ∀ h, runs other h (pr_n p) h (pr_n p').

Lemma moves_refl p p' : pr_n p' = pr_n p → moves p p'.
Proof. intros E h. rewrite E. apply runs_nil. Qed.
Lemma moves_trans p p1 p2 : moves p p1 → moves p1 p2 → moves p p2.
Proof. intros Hm1 Hm2 h. eapply runs_trans; [apply Hm1|apply Hm2]. Qed.

Lemma on_n_moves c p0 p : moves p0 p → wp (on_n (do_call c)) (λ _, moves p0) p.
Proof.
  intros Hm. unfold wp, on_n. destruct (do_call c (pr_n p)) as [[[] n]| |] eqn:Hc; [|done..].
  eapply moves_trans; [done|]. intros h. eapply runs_call; [done|apply runs_nil].
Qed.

Lemma flushMsgs_loop_moves times q p0 p :
  moves p0 p → wp (flushMsgs_loop times q) (λ _, moves p0) p.
Proof.
  revert times p. induction q as [|m q IH]; intros times p Hm; simpl; [by wp_step|]. wp_step.
  eapply wp_mono.
  - apply (wp_for_each (moves p0)); [|done]. intros msg p1 _ Hm1. by apply (on_n_moves (Call_Step msg)).
  - simpl. intros _ p1 Hm1. wp_step. wp_step. case_decide; [by wp_step|by apply IH].
Qed.

Lemma rb_flush_moves force p0 p : moves p0 p → wp (rb_flush force) (λ _, moves p0) p.
Proof.
  intros Hm. unfold rb_flush. wp_step. wp_step.
  destruct (ReqBuf.flush force (pr_rb p)) as [rb batch]. wp_step. eapply (wp_mono _ (λ _, moves p0)).
  - destruct batch as [l|]; [|by wp_step]. apply wp_for_each; [|done]. intros [e|] p1 _ Hm1; [|done].
    wp_step. wp_step. cbv zeta.
    destruct (Tracker_Register (ReqBuf.e_cmd e) (ReqBuf.e_c e) (pr_ct p1)) as [[ct out] ok].
    wp_step. wp_step. wp_step; [|done]. by apply (on_n_moves (Call_Request _)).
  - simpl. intros _ p1 Hm1. by wp_step.
Qed.

Lemma handlePkt_moves pkt p0 p : moves p0 p → wp (handlePkt pkt) (λ _, moves p0) p.
Proof.
  intros Hm. unfold handlePkt. wp_step. wp_step. wp_step. eapply (wp_mono _ (λ _, moves p0)).
  - wp_step; [|wp_step; [done|]].
    + wp_step. apply wp_lift. intros [r kv] _. by wp_steps.
    + destruct (Unmarshal _); [by wp_step|done].
  - simpl. intros r p1 Hm1. wp_step.
    + destruct (Marshal r); [|done]. by apply (on_n_moves (Call_Callback _)).
    + wp_step. wp_step. destruct (Tracker_Finish _ _) as [ct out]. by wp_step.
Qed.
Lemma RunOnce_moves p0 p :
  moves p0 p → pr_sending p = None →
  wp RunOnce (λ _ p', ∀ h, runs other h (pr_n p0) (h ++ handed EvRun p') (pr_n p')) p.
Proof.
  intros Hm Hn. unfold RunOnce. wp_step. unfold on_n at 1, wp at 1.
  destruct (MakeReady (pr_n p)) as [[rd n1]| |] eqn:Hrd; [|done..].
  wp_step. eapply (wp_mono _ (λ _ p1, pr_n p1 = n1 ∧ queues p1 = queues p)).
  { unfold trySendMessages. wp_step. wp_step. wp_step; [by wp_step|]. case_decide; by wp_steps. }
  simpl. intros sent p1 [E1 Q1]. wp_step.
  eapply (wp_mono _ (λ _ p2, when sent ClearMsgs n1 = Ret (tt, pr_n p2) ∧ queues p2 = queues p)).
  { destruct sent; simpl; [|by rewrite <-E1]. unfold wp, on_n. rewrite E1.
    by destruct (ClearMsgs n1) as [[[] n2]| |]. }
  simpl. intros _ p2 [E2 Q2]. wp_step.
  eapply (wp_mono _ (λ _ p3, ClearExecutedCommands (pr_n p2) = Ret (tt, pr_n p3) ∧ queues p3 = queues p)).
  { unfold wp, on_n. by destruct (ClearExecutedCommands (pr_n p2)) as [[[] n3]| |]. }
  simpl. intros _ p3 [E3 [= _ _ Q3]].
  assert (∀ h, runs other h (pr_n p0) (h ++ rd_OrderedCommands rd) (pr_n p3)) as Hr.
  { intros h. eapply runs_trans; [apply Hm|]. eapply runs_ready; [done..|]. apply runs_nil. }
  unfold maybeApplyAsync. wp_step; wp_step; simpl.
  - rewrite Q3, Hn. simpl. match goal with Hb : bool_decide _ = true |- _ =>
      apply bool_decide_eq_true in Hb; by rewrite Hb in Hr end.
  - intros h. rewrite app_nil_r. apply Hr.
Qed.

Lemma Run_body_moves p :
  pr_sending p = None →
  wp Run_body (λ _ p', ∀ h, runs other h (pr_n p) (h ++ handed EvRun p') (pr_n p')) p.
Proof.
  intros Hn. unfold Run_body, flushMsgs. wp_step. wp_step. wp_step. wp_step.
  eapply wp_mono.
  { apply wp_and; [apply (on_n_moves Call_AsyncCallback p); by apply moves_refl|apply on_n_queues]. }
  simpl. intros _ p1 [Hm1 Q1]. wp_step. wp_step. eapply wp_mono.
  { apply wp_and; [by apply flushMsgs_loop_moves|apply flushMsgs_loop_queues]. }
  simpl. intros _ p2 [Hm2 Q2]. wp_step. eapply wp_mono.
  { apply wp_and; [by apply rb_flush_moves|apply rb_flush_queues]. }
  simpl. intros _ p3 [Hm3 Q3]. apply RunOnce_moves; [done|].
  rewrite Q1 in Q2. rewrite Q2 in Q3. injection Q3 as _ _ ->. done.
Qed.

Lemma peer_step_moves e p p' h :
  enabled e p = true → peer_step e p = Ret (tt, p') →
  runs other h (pr_n p) (h ++ handed e p') (pr_n p').
Proof.
  intros He Hs. assert (e = EvRun ∨ e ≠ EvRun) as [->|Hne] by (destruct e; auto).
  { apply andb_true_iff in He as [_ Hn%bool_decide_eq_true].
    exact (wp_run _ _ _ _ _ (Run_body_moves p Hn) Hs h). }
  replace (handed e p') with (@nil ExecPacket) by by destruct e. rewrite app_nil_r.
  assert (moves p p) as Hp by by apply moves_refl.
  assert (wp (peer_step e) (λ _, moves p) p) as Hw; [|by apply (wp_run _ _ _ _ _ Hw Hs)].
  destruct e; simpl; unfold HandleMessage, ticker_body, applier_take, applier_pkt, signal; try by wp_steps.
  - wp_step. eapply wp_mono; [by apply (on_n_moves Call_Tick)|]. simpl. intros _ p1 Hm1. by wp_step.
  - wp_step. wp_step. destruct (pr_toApply p) as [|[]]; by wp_steps.
  - wp_step. wp_step. destruct (pr_applying p) as [|pkt rest]; [by wp_step|]. wp_step.
    eapply wp_mono; [by apply handlePkt_moves|]. simpl. intros _ p1 Hm1. wp_step. wp_step.
    wp_step; by try wp_step.
  - wp_step. wp_step. destruct (pr_toSend p); by wp_step.
Qed.

(** The goroutines of the peer interleaved with the worker threads of its
    protocol: the packets handed over and those executed. *)
Inductive system_run : Peer P → list ExecPacket → list ExecPacket → Peer P → Prop :=
| system_nil p : system_run p [] [] p
| system_step p e p1 hs xs p2 :
    enabled e p = true → peer_step e p = Ret (tt, p1) → system_run p1 hs xs p2 →
    system_run p (handed e p1 ++ hs) (applied e p ++ xs) p2
| system_other p n hs xs p2 :
    other (pr_n p) n → system_run (p <| pr_n := n |>) hs xs p2 → system_run p hs xs p2.

Lemma peer_run_system p hs xs p' : peer_run p hs xs p' → system_run p hs xs p'.
Proof. induction 1; eauto using system_run. Qed.

Lemma system_run_runs p hs xs p' h :
  system_run p hs xs p' → runs other h (pr_n p) (h ++ hs) (pr_n p').
Proof.
  intros Hr. revert h. induction Hr as [p|p e p1 hs xs p2 He Hs Hr IH|p n hs xs p2 Ho Hr IH]; intros h.
  - rewrite app_nil_r. apply runs_nil.
  - eapply runs_trans; [by apply peer_step_moves|]. rewrite app_assoc. apply IH.
  - eapply runs_other; [done|]. apply IH.
Qed.

Lemma system_run_backlog p hs xs p' :
  system_run p hs xs p' → xs ++ backlog p' = backlog p ++ hs.
Proof.
  induction 1 as [p|p e p1 hs xs p2 He Hs Hr IH|p n hs xs p2 Ho Hr IH]; [by rewrite app_nil_r| |done].
  apply peer_step_backlog in Hs; [|done]. by rewrite <-app_assoc, IH, !app_assoc, Hs.
Qed.

(** What the peer executes is a prefix of what a run of its protocol hands over. *)
Lemma system_run_prefix p hs xs p' :
  backlog p = [] → system_run p hs xs p' → runs other [] (pr_n p) hs (pr_n p') ∧ xs `prefix_of` hs.
Proof.
  intros Hb Hr. split; [by apply (system_run_runs _ _ _ _ [] Hr)|].
  apply system_run_backlog in Hr. rewrite Hb in Hr. by exists (backlog p').
Qed.
End drives.
