(* ===== verification/Quorum.v ===== *)
(** * Vote records and quorum intersection

    PBFT, MirBFT, DQPBFT and MinBFT each have a file quorum.go with the same
    type: messages by view and sender, a guard against messages of older views,
    and a count of the messages equal to a given one.  The type is generic here
    in the message ([QMsg]); each protocol instantiates it with its own message
    and threshold.  The second part is the arithmetic of quorums and the
    abstract voting specification that protocols refine. *)
From S2P Require Import Prelude.

(** What a protocol's message offers to its quorum. *)
Class QMsg (Msg : Type) := {
  q_view : Msg → Z;
  q_Equals : Msg → Msg → bool;
}.

(** [Equals] is an equivalence. *)
Class QMsgLaws (Msg : Type) `{QMsg Msg} := {
  q_Equals_refl m : q_Equals m m = true;
  q_Equals_sym m1 m2 : q_Equals m1 m2 = true → q_Equals m2 m1 = true;
  q_Equals_trans m1 m2 m3 :
    q_Equals m1 m2 = true → q_Equals m2 m3 = true → q_Equals m1 m3 = true;
}.

Section quorum.
Context {Msg : Type} `{QMsg Msg}.

Record Quorum := mkQuorum {
  maxView : Z;
  msgs : gmap Z (gmap Z Msg);
}.

Definition newQuorum : Quorum := mkQuorum 0 ∅.

(** The messages of a view, by sender. *)
Definition view_msgs (v : Z) (q : Quorum) : gmap Z Msg := default ∅ (msgs q !! v).

(** [log]: [strict] protocols panic on a second message of a sender, the
    others keep the first one. *)
Definition log (strict : bool) (id : Z) (m : Msg) (q : Quorum) : outcome Quorum :=
  if decide (q_view m < maxView q)%Z then Panic "quorum view is greater"
  else
    let vm := view_msgs (q_view m) q in
    match vm !! id with
    | None => Ret (mkQuorum (q_view m) (<[q_view m := <[id := m]> vm]> (msgs q)))
    | Some _ =>
        if strict then Panic "multiple messages vcSender same replica"
        else Ret (mkQuorum (q_view m) (<[q_view m := vm]> (msgs q)))
    end.

(** The messages of the view equal to [m]. *)
Definition matching (m : Msg) (q : Quorum) : gmap Z Msg :=
  filter (λ x : Z * Msg, q_Equals m x.2 = true) (view_msgs (q_view m) q).

(** [Majority]: more than [thr] messages equal to [m] in its view. *)
Definition Majority (thr : Z) (m : Msg) (q : Quorum) : bool :=
  match msgs q !! q_view m with
  | Some msgPairs =>
      if bool_decide (Z.of_nat (size msgPairs) ≤ thr)%Z then false
      else bool_decide (thr < Z.of_nat (size
             (filter (λ x : Z * Msg, q_Equals m x.2 = true) msgPairs)))%Z
  | None => false
  end.

(** Every message is filed under its view. *)
Definition quorum_ok (q : Quorum) : Prop :=
  ∀ v j m, view_msgs v q !! j = Some m → q_view m = v.

Lemma newQuorum_ok : quorum_ok newQuorum.
Proof. intros v j m. unfold view_msgs. simpl. by rewrite !lookup_empty. Qed.

Lemma view_msgs_insert v v' vm mv q :
  view_msgs v (mkQuorum mv (<[v' := vm]> (msgs q))) =
  if decide (v' = v) then vm else view_msgs v q.
Proof. unfold view_msgs. simpl. rewrite lookup_insert. by case_decide. Qed.

(** What [log] does to the messages of every view. *)
Lemma log_strict_inv id m q q' :
  log true id m q = Ret q' →
  (maxView q ≤ q_view m)%Z ∧ view_msgs (q_view m) q !! id = None ∧ maxView q' = q_view m ∧
  ∀ v, view_msgs v q' =
    if decide (q_view m = v) then <[id := m]> (view_msgs v q) else view_msgs v q.
Proof.
  unfold log. case_decide; [done|]. destruct (_ !! id) eqn:Hid; intros [= <-].
  split_and!; [lia|done|done|]. intros v. rewrite view_msgs_insert.
  by case_decide; subst.
Qed.

Lemma log_ok strict id m q q' :
  quorum_ok q → log strict id m q = Ret q' → quorum_ok q'.
Proof.
  unfold log, quorum_ok. intros Hok. case_decide; [done|].
  destruct (_ !! id) eqn:Hid; [destruct strict|]; intros [= <-] v j m';
    rewrite view_msgs_insert; case_decide; subst; eauto.
  rewrite lookup_insert. case_decide; [by intros [= <-]|]. eauto.
Qed.

Lemma log_ends strict id m q : log strict id m q ≠ Diverge.
Proof. unfold log. ends_steps. Qed.

(** Messages are only added. *)
Lemma log_grows strict id m q q' v :
  log strict id m q = Ret q' → view_msgs v q ⊆ view_msgs v q'.
Proof.
  unfold log. case_decide; [done|].
  destruct (view_msgs (q_view m) q !! id) eqn:Hid; [destruct strict|]; intros [= <-];
    rewrite view_msgs_insert; case_decide; subst; try done. by apply insert_subseteq.
Qed.

(** Only the logged message is added. *)
Lemma log_entries strict id m q q' v j m' :
  log strict id m q = Ret q' → view_msgs v q' !! j = Some m' →
  view_msgs v q !! j = Some m' ∨ m' = m ∧ v = q_view m ∧ j = id.
Proof.
  unfold log. case_decide; [done|].
  destruct (view_msgs (q_view m) q !! id) eqn:Hid; [destruct strict|]; intros [= <-];
    rewrite view_msgs_insert; case_decide; subst; auto.
  rewrite lookup_insert. case_decide; [|auto]. intros [= <-]. auto.
Qed.

(** The two tests of [Majority] are one. *)
Lemma Majority_spec thr m q :
  (0 ≤ thr)%Z → Majority thr m q = true ↔ (thr < Z.of_nat (size (matching m q)))%Z.
Proof.
  intros Hthr. unfold Majority, matching, view_msgs.
  destruct (msgs q !! q_view m) as [vm|] eqn:Hm; simpl.
  - pose proof (map_subseteq_size _ _ (map_filter_subseteq
      (λ x : Z * Msg, q_Equals m x.2 = true) vm)).
    repeat case_bool_decide; split; try done; lia.
  - rewrite map_filter_empty, map_size_empty. split; [done|lia].
Qed.

(** A majority is kept when messages are only added. *)
Lemma matching_mono m q q' :
  view_msgs (q_view m) q ⊆ view_msgs (q_view m) q' →
  size (matching m q) ≤ size (matching m q').
Proof.
  intros Hs. apply map_subseteq_size, map_subseteq_spec. unfold matching.
  intros j m' [Hj ?]%map_lookup_filter_Some. apply map_lookup_filter_Some.
  split; [by eapply lookup_weaken|done].
Qed.

(** What one logged message adds to the count. *)
Definition counts (m m' : Msg) : bool :=
  bool_decide (q_view m' = q_view m) && q_Equals m m'.

Lemma matching_log id m m' q q' :
  log true id m' q = Ret q' →
  size (matching m q') = (if counts m m' then 1 else 0) + size (matching m q).
Proof.
  intros (_ & Hnone & _ & Hview)%log_strict_inv. unfold matching, counts. rewrite Hview.
  case_decide as Hv; [rewrite bool_decide_true by done|rewrite bool_decide_false by done]; simpl; [|done].
  rewrite Hv in Hnone. rewrite map_filter_insert. simpl. case_decide as He.
  - rewrite He. rewrite map_size_insert_None; [done|]. apply map_lookup_filter_None. by left.
  - destruct (q_Equals m m'); [done|]. by rewrite delete_id.
Qed.

(** Messages logged one after the other. *)
Fixpoint log_all (l : list (Z * Msg)) (q : Quorum) : outcome Quorum :=
  match l with [] => Ret q | (id, m) :: l => q ← log true id m q; log_all l q end.

Lemma log_all_count l q q' m :
  log_all l q = Ret q' →
  size (matching m q') = length (filter (λ x, counts m x.2 = true) l) + size (matching m q).
Proof.
  revert q. induction l as [|[id m'] l IH]; intros q Hl; simpl in Hl; [by simplify_eq|].
  outcome_inv. match goal with Hx : log _ _ _ _ = Ret _ |- _ => apply (matching_log _ m) in Hx end.
  rewrite filter_cons. simpl. rewrite (IH _ Hl). destruct (counts m m'); simpl; lia.
Qed.

Lemma log_all_new l q' :
  log_all l newQuorum = Ret q' → NoDup ((λ x, (q_view x.2, x.1)) <$> l).
Proof.
  intros Hl. assert (∀ q, log_all l q = Ret q' →
    NoDup ((λ x, (q_view x.2, x.1)) <$> l) ∧
    ∀ x, x ∈ l → view_msgs (q_view x.2) q !! x.1 = None) as Hg; [|by apply (Hg newQuorum)].
  clear Hl. induction l as [|[id m] l IH]; intros q Hl; simpl in Hl.
  { split; [constructor|]. by intros x ?%not_elem_of_nil. }
  outcome_inv. apply IH in Hl as [Hnd Hn].
  match goal with Hx : log _ _ _ _ = Ret _ |- _ =>
    apply log_strict_inv in Hx as (_ & Hnone & _ & Hview) end. split.
  - simpl. apply NoDup_cons. split; [|done].
    intros ([id' m'] & [= Hvm ->] & Hin)%list_elem_of_fmap.
    specialize (Hn _ Hin). simpl in Hn. rewrite Hview, <-Hvm, decide_True, lookup_insert_eq in Hn by done.
    done.
  - intros x [->|Hx]%elem_of_cons; [done|]. specialize (Hn x Hx). rewrite Hview in Hn.
    case_decide; [|done]. rewrite lookup_insert in Hn. by case_decide.
Qed.

(** Equal messages have the same matching messages. *)
Lemma matching_eqv `{!QMsgLaws Msg} m1 m2 q :
  q_view m1 = q_view m2 → q_Equals m1 m2 = true → matching m1 q = matching m2 q.
Proof.
  intros Hv He. unfold matching. rewrite Hv. apply map_filter_ext. intros j m _. simpl. split.
  - intros ?. eapply q_Equals_trans; [|done]. by apply q_Equals_sym.
  - intros ?. by eapply q_Equals_trans.
Qed.

(** The senders of a quorum's matching messages. *)
Definition senders (m : Msg) (q : Quorum) : gset Z := dom (matching m q).

Lemma size_senders m q : size (senders m q) = size (matching m q).
Proof. unfold senders. by rewrite size_dom. Qed.

Lemma elem_of_senders j m q :
  j ∈ senders m q ↔ ∃ m', view_msgs (q_view m) q !! j = Some m' ∧ q_Equals m m' = true.
Proof.
  unfold senders, matching. rewrite elem_of_dom. split.
  - intros [m' [? ?]%map_lookup_filter_Some]. eauto.
  - intros (m' & ? & ?). exists m'. by apply map_lookup_filter_Some.
Qed.

(** Every logged message is a vote that [vote] allows. *)
Definition votes (vote : Z → Msg → Prop) (q : Quorum) : Prop :=
  ∀ v j m, view_msgs v q !! j = Some m → vote j m.

Lemma votes_new vote : votes vote newQuorum.
Proof. intros v j m. unfold view_msgs. simpl. by rewrite !lookup_empty. Qed.
Lemma votes_log vote strict id m q q' :
  votes vote q → vote id m → log strict id m q = Ret q' → votes vote q'.
Proof.
  intros Hv Hm Hl v j m' Hj. destruct (log_entries _ _ _ _ _ _ _ _ Hl Hj) as [?|(-> & _ & ->)]; [|done].
  by eapply Hv.
Qed.
Lemma votes_mono (vote vote' : Z → Msg → Prop) q :
  (∀ j m, vote j m → vote' j m) → votes vote q → votes vote' q.
Proof. intros Hm Hv v j m Hj. by eapply Hm, Hv. Qed.

(** The voters of a majority. *)
Lemma Majority_voters vote thr m q :
  (0 ≤ thr)%Z → votes vote q → Majority thr m q = true →
  ∃ A : gset Z, (thr < Z.of_nat (size A))%Z ∧ ∀ j, j ∈ A → ∃ m', vote j m' ∧ q_Equals m m' = true.
Proof.
  intros Ht Hv Hm. exists (senders m q). rewrite size_senders. split; [by apply Majority_spec|].
  intros j (m' & Hj & He)%elem_of_senders. exists m'. split; [by eapply Hv|done].
Qed.
End quorum.
Arguments Quorum : clear implicits.
#[export] Hint Resolve log_ends : go_ends.

(** ** Quorum intersection *)
Section intersection.
Implicit Types X Y A B Byz : gset Z.

(** Two sets whose sizes add up to more than the replicas and [f] share more than
    [f] of them. *)
Lemma sets_overlap X A B f :
  A ⊆ X → B ⊆ X → size X + f < size A + size B → f < size (A ∩ B).
Proof.
  intros HA HB Hs.
  assert (size (A ∪ B) ≤ size X) as Hu by (apply subseteq_size; set_solver).
  pose proof (size_union_alt A B) as Hd.
  assert (size (A ∩ B) + size (B ∖ A) = size B) as Hp.
  { rewrite <-size_union by set_solver. f_equal. apply set_eq. intros x.
    destruct (decide (x ∈ A)); set_solver. }
  lia.
Qed.

(** A set of more than [f] replicas holds a correct one. *)
Lemma some_correct A Byz f : size Byz ≤ f → f < size A → ∃ j, j ∈ A ∧ j ∉ Byz.
Proof.
  intros Hb Ha. destruct (decide (A ∖ Byz = ∅)) as [He|Hne].
  - assert (A ⊆ Byz) as Hs by (intros x Hx; destruct (decide (x ∈ Byz)); set_solver).
    apply subseteq_size in Hs. lia.
  - apply set_choose_L in Hne as [j Hj]. exists j. set_solver.
Qed.

Lemma sets_correct_overlap X A B Byz f :
  A ⊆ X → B ⊆ X → size Byz ≤ f → size X + f < size A + size B → ∃ j, j ∈ A ∧ j ∈ B ∧ j ∉ Byz.
Proof.
  intros HA HB Hb Hs.
  destruct (some_correct (A ∩ B) Byz f Hb) as (j & ? & ?); [by eapply sets_overlap|].
  exists j. set_solver.
Qed.

(** Sets of more than [2f] among at most [3f+1] replicas. *)
Lemma quorum_correct_overlap X A B Byz f :
  A ⊆ X → B ⊆ X → size X ≤ 3 * f + 1 → size Byz ≤ f → 2 * f < size A → 2 * f < size B →
  ∃ j, j ∈ A ∧ j ∈ B ∧ j ∉ Byz.
Proof. intros. apply (sets_correct_overlap X A B Byz f); [done..|lia]. Qed.
End intersection.

(** ** The abstract voting specification

    Correct replicas vote for at most one value per slot; a value is certified
    in a slot by votes of more than [2f] of the at most [3f+1] replicas. *)
Section voting.
Context {Slot Val : Type} (eqv : Val → Val → Prop) `{!Equivalence eqv}.
Context (peers Byz : gset Z) (f : nat).
Context (voted : Z → Slot → Val → Prop).

Record voting_ok : Prop := {
  vo_peers : size peers ≤ 3 * f + 1;
  vo_byz : size Byz ≤ f;
  vo_once j s v1 v2 : j ∉ Byz → voted j s v1 → voted j s v2 → eqv v1 v2;
}.

(** A certificate: votes that, where the sender is correct, were cast. *)
Definition certified (s : Slot) (v : Val) : Prop :=
  ∃ A : gset Z, A ⊆ peers ∧ 2 * f < size A ∧ ∀ j, j ∈ A → j ∉ Byz → voted j s v.

Lemma certified_unique s v1 v2 :
  voting_ok → certified s v1 → certified s v2 → eqv v1 v2.
Proof.
  intros [Hp Hb Ho] (A & HA & Hsa & Hva) (B & HB & Hsb & Hvb).
  destruct (quorum_correct_overlap peers A B Byz f) as (j & ? & ? & ?); [done..|].
  apply (Ho j s); auto.
Qed.
End voting.
