(* ===== verification/Pbft.v ===== *)
(** * PBFT (src/protocols/pbft)

    The replica of the PBFT protocol: its data (pbftpb), the agreement handlers
    (instance.go, request.go, quorum.go), the view change (pbft.go,
    vcquorum.go), the messaging and signing (messaging.go), and the
    [Protocol] instance that the peer loop drives.  One Rocq definition per Go
    function, in the state-and-panic monad [M PBFT]. *)
From S2P Require Import Prelude Command Worker Certifier Peer.
From S2P Require Quorum.
Import Worker (Dispatcher, NewDispatcher).

Module Pbft.

(** ** Data (pbftpb)

    Enum fields are [int32] on the wire, so any integer can arrive in them. *)
Definition InstanceState_None : Z := 0.
Definition InstanceState_PrePrepared : Z := 1.
Definition InstanceState_Prepared : Z := 2.
Definition InstanceState_Committed : Z := 3.

Definition AgreementMessage_PrePrepare : Z := 0.
Definition AgreementMessage_Prepare : Z := 1.
Definition AgreementMessage_Commit : Z := 2.

Record InstanceState := mkIS {
  is_View : Z;
  is_Index : Z;
  is_Status : Z;
  is_Command : option Command;
  is_CommandHash : slice;
}.

Record AgreementMessage := mkAM {
  m_View : Z;
  m_Index : Z;
  m_Type : Z;
  m_Command : option Command;
  m_CommandHash : slice;
}.

Record ViewChangeMessage := mkVC {
  vc_NewView : Z;
  vc_LowIndex : Z;
  vc_HighIndex : Z;
  vc_PSet : list InstanceState;
  vc_QSet : list InstanceState;
}.

Record ViewChangeAckMessage := mkVCA {
  vca_NewView : Z;
  vca_AckFor : Z;
  vca_Digest : slice;
}.

Record NewViewProof := mkNVP { nvp_AckFor : Z; nvp_Digest : slice }.

Record NewViewMessage := mkNV {
  nv_NewView : Z;
  nv_NvProof : list NewViewProof;
  nv_Instances : gmap Z InstanceState;
}.

(** The [oneof], nil when no case is set. *)
Inductive PBFTMessage :=
| PBFTMessage_Agreement (m : AgreementMessage)
| PBFTMessage_ViewChange (m : ViewChangeMessage)
| PBFTMessage_ViewChangeAck (m : ViewChangeAckMessage)
| PBFTMessage_NewView (m : NewViewMessage)
| PBFTMessage_nil.

#[export] Instance IS_eta : Eta InstanceState := λ s,
  mkIS (is_View s) (is_Index s) (is_Status s) (is_Command s) (is_CommandHash s).
#[export] Instance set_is_Status : Setter is_Status := ltac:(solve_setter).
#[export] Instance set_is_Command : Setter is_Command := ltac:(solve_setter).
#[export] Instance set_is_CommandHash : Setter is_CommandHash := ltac:(solve_setter).
#[export] Instance AM_eta : Eta AgreementMessage := λ m,
  mkAM (m_View m) (m_Index m) (m_Type m) (m_Command m) (m_CommandHash m).
#[export] Instance set_m_Command : Setter m_Command := ltac:(solve_setter).

#[export] Instance IS_eq_dec : EqDecision InstanceState.
Proof. solve_decision. Defined.
#[export] Instance AM_eq_dec : EqDecision AgreementMessage.
Proof. solve_decision. Defined.

Definition IsPrePrepared (s : InstanceState) : bool :=
  bool_decide (is_Status s = InstanceState_PrePrepared).
Definition IsPrepared (s : InstanceState) : bool :=
  bool_decide (is_Status s = InstanceState_Prepared).
Definition IsCommitted (s : InstanceState) : bool :=
  bool_decide (is_Status s = InstanceState_Committed).
Definition IsAtleastPrePrepared (s : InstanceState) : bool :=
  bool_decide (InstanceState_PrePrepared ≤ is_Status s)%Z.
Definition IsAtleastPrepared (s : InstanceState) : bool :=
  bool_decide (InstanceState_Prepared ≤ is_Status s)%Z.

Definition AgreementMessage_Equals (m other : AgreementMessage) : bool :=
  if bool_decide (m_View m ≠ m_View other) then false
  else if bool_decide (m_Index m ≠ m_Index other) then false
  else bytes_Equal (m_CommandHash m) (m_CommandHash other).

Definition InstanceState_Equals (m other : InstanceState) : bool :=
  bool_decide (is_Index m = is_Index other)
  && bytes_Equal (is_CommandHash m) (is_CommandHash other)
  && bool_decide (is_View m = is_View other).

(** ** Quorums (quorum.go) *)
#[export] Instance AM_QMsg : Quorum.QMsg AgreementMessage :=
  {| Quorum.q_view := m_View; Quorum.q_Equals := AgreementMessage_Equals |}.

Abbreviation Quorum := (Quorum.Quorum AgreementMessage).
Definition newQuorum : Quorum := Quorum.newQuorum.
Definition Quorum_log (id : Z) (m : AgreementMessage) (q : Quorum) : outcome Quorum :=
  Quorum.log true id m q.
Definition Quorum_Majority (f : Z) (m : AgreementMessage) (q : Quorum) : bool :=
  Quorum.Majority (2 * f) m q.

(** ** The view-change record (vcquorum.go) *)
Record vcItem := mkVCItem {
  vcSender : Z;
  vcMessage : option ViewChangeMessage;
  vcDigest : slice;
  vcaMessages : gmap Z ViewChangeAckMessage;
  valid : bool;
}.

Record VCQuorum := mkVCQuorum {
  vq_messages : gmap Z (gmap Z vcItem);
  vq_nvMessage : gmap Z NewViewMessage;
}.
#[export] Instance VCQuorum_eta : Eta VCQuorum := λ q,
  mkVCQuorum (vq_messages q) (vq_nvMessage q).
#[export] Instance set_vq_messages : Setter vq_messages := ltac:(solve_setter).
#[export] Instance set_vq_nvMessage : Setter vq_nvMessage := ltac:(solve_setter).

Definition newVCQuorum : VCQuorum := mkVCQuorum ∅ ∅.

(** The test that ends the Go function compares the pointer just stored with
    itself, and is left out. *)
Definition addVCMessage (f : Z) (id : Z) (m : ViewChangeMessage) (digest : slice)
    (q : VCQuorum) : VCQuorum :=
  let vMsgs := default ∅ (vq_messages q !! vc_NewView m) in
  let item :=
    match vMsgs !! id with
    | None => mkVCItem id (Some m) digest ∅ false
    | Some item =>
        mkVCItem id (Some m) digest (vcaMessages item)
          (bool_decide (2 * f ≤ Z.of_nat (size (vcaMessages item)))%Z)
    end in
  q <| vq_messages ::= <[vc_NewView m := <[id := item]> vMsgs]> |>.

Definition addVCAMessage (f : Z) (id : Z) (m : ViewChangeAckMessage) (q : VCQuorum)
    : outcome VCQuorum :=
  let vMsgs := default ∅ (vq_messages q !! vca_NewView m) in
  item ←
    match vMsgs !! vca_AckFor m with
    | None => Ret (mkVCItem 0 None None ∅ false)
    | Some item =>
        match vcMessage item with
        | Some _ => if negb (bytes_Equal (vcDigest item) (vca_Digest m))
                    then Panic "Digest not equal" else Ret item
        | None => Ret item
        end
    end;
  let acks := <[id := m]> (vcaMessages item) in
  let item := mkVCItem (vcSender item) (vcMessage item) (vcDigest item) acks
    (bool_decide (2 * f ≤ Z.of_nat (size acks))%Z && bool_decide (is_Some (vcMessage item))) in
  Ret (q <| vq_messages ::= <[vca_NewView m := <[vca_AckFor m := item]> vMsgs]> |>).

Definition addNVMessage (id : Z) (m : NewViewMessage) (q : VCQuorum) : VCQuorum :=
  q <| vq_nvMessage ::= <[id := m]> |>.

(** ** The replica (pbft.go, instance.go) *)
Record instance := mkInstance {
  i_is : InstanceState;
  pCert : Quorum;
  cCert : Quorum;
}.
#[export] Instance instance_eta : Eta instance := λ i, mkInstance (i_is i) (pCert i) (cCert i).
#[export] Instance set_i_is : Setter i_is := ltac:(solve_setter).
#[export] Instance set_pCert : Setter pCert := ltac:(solve_setter).
#[export] Instance set_cCert : Setter cCert := ltac:(solve_setter).

(** A signing job: the marshalled message and whether it goes to self too. *)
Record signJob := mkSignJob { sj_mBytes : bytes; sj_sendToSelf : bool }.

Record PBFT := mkPBFT {
  p_id : Z;
  p_nodes : list Z;
  p_log : gmap Z instance;
  p_execute : Z;
  p_active : bool;
  p_view : Z;
  p_index : Z;
  p_msgs : list Message;
  p_executedCmds : list ExecPacket;
  p_timers : list (Timer.tickingTimer Empty_set);
  p_viewChanging : bool;
  p_changingView : Z;
  p_vcQuorum : VCQuorum;
  p_f : Z;
  p_signDispatcher : Dispatcher signJob;
  p_callbackC : list (signJob * bytes);
}.
#[export] Instance PBFT_eta : Eta PBFT := λ p,
  mkPBFT (p_id p) (p_nodes p) (p_log p) (p_execute p) (p_active p) (p_view p) (p_index p)
    (p_msgs p) (p_executedCmds p) (p_timers p) (p_viewChanging p) (p_changingView p)
    (p_vcQuorum p) (p_f p) (p_signDispatcher p) (p_callbackC p).
#[export] Instance set_p_log : Setter p_log := ltac:(solve_setter).
#[export] Instance set_p_execute : Setter p_execute := ltac:(solve_setter).
#[export] Instance set_p_view : Setter p_view := ltac:(solve_setter).
#[export] Instance set_p_index : Setter p_index := ltac:(solve_setter).
#[export] Instance set_p_msgs : Setter p_msgs := ltac:(solve_setter).
#[export] Instance set_p_executedCmds : Setter p_executedCmds := ltac:(solve_setter).
#[export] Instance set_p_timers : Setter p_timers := ltac:(solve_setter).
#[export] Instance set_p_viewChanging : Setter p_viewChanging := ltac:(solve_setter).
#[export] Instance set_p_changingView : Setter p_changingView := ltac:(solve_setter).
#[export] Instance set_p_vcQuorum : Setter p_vcQuorum := ltac:(solve_setter).
#[export] Instance set_p_signDispatcher : Setter p_signDispatcher := ltac:(solve_setter).
#[export] Instance set_p_callbackC : Setter p_callbackC := ltac:(solve_setter).

(** The configuration fields [NewPBFT] reads. *)
Record Config := mkConfig {
  cfg_ID : Z;
  cfg_Peers : list Z;
  cfg_LeaderID : Z;
  cfg_MaxFailures : Z;
  cfg_Workers : gmap string nat;
  cfg_WorkersQueueSizes : gmap string nat;
}.

Definition NewPBFT (c : Config) : outcome PBFT :=
  match cfg_Workers c !! "mac_sign"%string, cfg_WorkersQueueSizes c !! "mac_sign"%string with
  | None, _ => Panic "Worker count for mac_sign missing."
  | _, None => Panic "Worker queue size for mac_sign missing."
  | Some workers, Some _ =>
      Ret (mkPBFT (cfg_ID c) (cfg_Peers c) ∅ 1 false (cfg_LeaderID c) 0 [] [] [] false 0
             newVCQuorum (cfg_MaxFailures c) (NewDispatcher workers) [])
  end.

Section pbft.
Context `{GoEnv, Codec Command, Codec PBFTMessage, Codec ViewChangeMessage}.
Context `{MapRange, Certifier}.

(** *** Messaging (messaging.go) *)

Definition enqueueForSending (to : Z) (mm certificate : bytes) : M PBFT unit :=
  modify (λ p, p <| p_msgs ::= λ l, l ++ [mkMessage (p_id p) to mm certificate] |>).

Definition sendTo (to : Z) (m : PBFTMessage) : M PBFT unit :=
  match Marshal m with
  | None => panic "unable to marshall"
  | Some mBytes => enqueueForSending to mBytes (CreateSignedCertificate mBytes)
  end.

Definition broadcast (m : PBFTMessage) (sendToSelf : bool) : M PBFT unit :=
  match Marshal m with
  | None => panic "unable to marshall"
  | Some mBytes =>
      modify (λ p, p <| p_signDispatcher ::= Worker.Exec (mkSignJob mBytes sendToSelf) |>)
  end.

(** The two closures [broadcast] hands to the dispatcher: the certificates of
    all the nodes, one after the other, ... *)
Definition sign_all (nNodes : nat) (j : signJob) : bytes :=
  mjoin (replicate nNodes (CreateSignedCertificate (sj_mBytes j))).

(** ... and the sends, each with its node's 32 bytes. *)
Definition send_signed (j : signJob) (cert : bytes) : M PBFT unit :=
  p ← get;
  for_each (p_nodes p) (λ node,
    when (sj_sendToSelf j || bool_decide (node ≠ p_id p))
      (let idx := u64 (node * 32) in
       c ← lift (sub_slice cert idx (u64 (idx + 32)));
       enqueueForSending node (sj_mBytes j) c)).

(** A step of the signing pool. *)
Definition worker_step (cap : nat) (e : Worker.event) (p : PBFT) : option PBFT :=
  '(d, cbs) ← Worker.step (sign_all (length (p_nodes p))) cap e
                (p_signDispatcher p) (p_callbackC p);
  Some (p <| p_signDispatcher := d |> <| p_callbackC := cbs |>).

Definition AsyncCallback_body : M PBFT bool :=
  p ← get;
  match p_callbackC p with
  | [] => mret false
  | (j, cert) :: rest =>
      modify (λ p, p <| p_callbackC := rest |>);;
      send_signed j cert;;
      mret true
  end.

Definition AsyncCallback : M PBFT unit :=
  p ← get; loop (S (length (p_callbackC p))) AsyncCallback_body.

Definition Execute (cmd : Command) : M PBFT unit :=
  modify (λ p, p <| p_executedCmds ::= λ l, l ++ [exec_pkt cmd] |>).

(** *** Agreement (instance.go) *)

Definition makeInstance (m : AgreementMessage) : instance :=
  mkInstance (mkIS (m_View m) (m_Index m) InstanceState_None (m_Command m) (m_CommandHash m))
    newQuorum newQuorum.

(** Update the instance filed at [idx] through its pointer: every instance is
    reachable only through the log, at the key it was filed under. *)
Definition with_inst (idx : Z) (g : instance → outcome instance) : M PBFT unit :=
  p ← get;
  match p_log p !! idx with
  | None => panic "nil instance"
  | Some inst => inst' ← lift (g inst); modify (λ p, p <| p_log ::= <[idx := inst']> |>)
  end.

Definition get_inst (idx : Z) : M PBFT instance :=
  p ← get; match p_log p !! idx with None => panic "nil instance" | Some i => mret i end.

Definition updateCommand (m : AgreementMessage) (inst : instance) : outcome instance :=
  match is_Command (i_is inst) with
  | Some c =>
      e ← Command_Equal c (m_Command m);
      if negb e then Panic "Different commands for same instance" else Ret inst
  | None => Ret (inst <| i_is ::= set is_Command (λ _, m_Command m) |>)
  end.

Definition updateCommandHash (m : AgreementMessage) (inst : instance) : outcome instance :=
  match is_CommandHash (i_is inst) with
  | Some _ =>
      if negb (bytes_Equal (is_CommandHash (i_is inst)) (m_CommandHash m))
      then Panic "Different command hashes for same instance" else Ret inst
  | None => Ret (inst <| i_is ::= set is_CommandHash (λ _, m_CommandHash m) |>)
  end.

(** The test, and the command after [Hash] was called on it. *)
Definition checkCommandHash (cmd : option Command) (hash : slice)
    : outcome (bool * option Command) :=
  '(compHash, cmd) ← Command_Hash_ptr cmd;
  Ret (bytes_Equal hash compHash, cmd).

Definition isPrimaryAtView (id view : Z) (p : PBFT) : outcome bool :=
  l ← leader_of view (length (p_nodes p)); Ret (bool_decide (id = l)).

Definition isCurrentPrimary (id : Z) (p : PBFT) : outcome bool :=
  isPrimaryAtView id (p_view p) p.

Definition exec_body : M PBFT bool :=
  p ← get;
  match p_log p !! p_execute p with
  | None => mret false
  | Some inst =>
      match is_Command (i_is inst) with
      | Some cmd =>
          if negb (IsCommitted (i_is inst)) then mret false else
          Execute cmd;;
          modify (λ p, p <| p_log ::= <[p_execute p := inst <| i_is ::= set is_Command (λ _, None) |>]> |>);;
          modify (λ p, p <| p_execute ::= λ x, u64 (x + 1) |>);;
          mret true
      | None => mret false
      end
  end.

Definition exec : M PBFT unit := p ← get; loop (S (size (p_log p))) exec_body.

Definition set_status (idx st : Z) : M PBFT unit :=
  with_inst idx (λ inst, Ret (inst <| i_is ::= set is_Status (λ _, st) |>)).

(** What [onCommit], and the end of the two other handlers, do once [cm] is
    in the commit certificate. *)
Definition maybeCommit (idx : Z) (cm : AgreementMessage) : M PBFT unit :=
  inst ← get_inst idx;
  p ← get;
  when (Quorum_Majority (p_f p) cm (cCert inst) && IsPrepared (i_is inst))
    (set_status idx InstanceState_Committed;; exec).

(** The block under [if inst.pCert.Majority(m) && inst.is.IsPrePrepared()]. *)
Definition maybePrepare (idx : Z) (m : AgreementMessage) : M PBFT unit :=
  inst ← get_inst idx;
  p ← get;
  when (Quorum_Majority (p_f p) m (pCert inst) && IsPrePrepared (i_is inst))
    (set_status idx InstanceState_Prepared;;
     let cm := mkAM (m_View m) (m_Index m) AgreementMessage_Commit None
                 (is_CommandHash (i_is inst)) in
     broadcast (PBFTMessage_Agreement cm) false;;
     with_inst idx (λ i, c ← Quorum_log (p_id p) cm (cCert i); Ret (i <| cCert := c |>));;
     maybeCommit idx cm).

(** The instance of a message, made or checked against it. *)
Definition fetch_instance (checks : instance → outcome instance) (m : AgreementMessage)
    : M PBFT unit :=
  p ← get;
  match p_log p !! m_Index m with
  | None => modify (λ p, p <| p_log ::= <[m_Index m := makeInstance m]> |>)
  | Some inst =>
      inst' ← lift (checks inst);
      modify (λ p, p <| p_log ::= <[m_Index m := inst']> |>)
  end.

(** [onPrePrepare] once the instance agrees with the message; the command is
    dropped from the message before it is logged. *)
Definition acceptPrePrepare (m : AgreementMessage) (from : Z) : M PBFT unit :=
  let idx := m_Index m in
  let m := m <| m_Command := None |> in
  with_inst idx (λ i, c ← Quorum_log from m (pCert i); Ret (i <| pCert := c |>));;
  set_status idx InstanceState_PrePrepared;;
  inst ← get_inst idx;
  let pm := mkAM (is_View (i_is inst)) (is_Index (i_is inst)) AgreementMessage_Prepare None
              (is_CommandHash (i_is inst)) in
  p ← get;
  with_inst idx (λ i, c ← Quorum_log (p_id p) pm (pCert i); Ret (i <| pCert := c |>));;
  broadcast (PBFTMessage_Agreement pm) false;;
  maybePrepare idx pm.

Definition onPrePrepare (m : AgreementMessage) (from : Z) : M PBFT unit :=
  p ← get;
  prim ← lift (isCurrentPrimary from p);
  if negb prim then mret tt else
  '(ok, cmd) ← lift (checkCommandHash (m_Command m) (m_CommandHash m));
  let m := m <| m_Command := cmd |> in
  if negb ok then panic "The hash does not correspond to the command" else
  fetch_instance (λ i, i ← updateCommand m i; updateCommandHash m i) m;;
  acceptPrePrepare m from.

Definition onPrepare (m : AgreementMessage) (from : Z) : M PBFT unit :=
  p ← get;
  prim ← lift (isCurrentPrimary from p);
  if (prim : bool) then mret tt else
  fetch_instance (updateCommandHash m) m;;
  with_inst (m_Index m) (λ i, c ← Quorum_log from m (pCert i); Ret (i <| pCert := c |>));;
  maybePrepare (m_Index m) m.

Definition onCommit (m : AgreementMessage) (from : Z) : M PBFT unit :=
  fetch_instance (updateCommandHash m) m;;
  with_inst (m_Index m) (λ i, c ← Quorum_log from m (cCert i); Ret (i <| cCert := c |>));;
  maybeCommit (m_Index m) m.

Definition stepAgreement (m : AgreementMessage) (from : Z) : M PBFT unit :=
  p ← get;
  if p_viewChanging p then mret tt
  else if bool_decide (m_View m ≠ p_view p) then mret tt
  else if decide (m_Type m = AgreementMessage_PrePrepare) then onPrePrepare m from
  else if decide (m_Type m = AgreementMessage_Prepare) then onPrepare m from
  else if decide (m_Type m = AgreementMessage_Commit) then onCommit m from
  else panic "unexpected Message type".

(** *** Requests (request.go) *)
Definition onRequest (cmd : Command) : M PBFT unit :=
  p ← get;
  if decide (Z.of_nat (length (p_nodes p)) = 0)%Z then panic "integer divide by zero" else
  if bool_decide (p_view p `mod` Z.of_nat (length (p_nodes p)) ≠ p_id p)%Z then mret tt else
  modify (λ p, p <| p_index ::= λ x, u64 (x + 1) |>);;
  let '(cmdHash, cmd) := Command_Hash cmd in
  p ← get;
  let idx := p_index p in
  modify (λ p, p <| p_log ::= <[idx :=
    mkInstance (mkIS (p_view p) idx InstanceState_PrePrepared (Some cmd) cmdHash)
      newQuorum newQuorum]> |>);;
  let ppm := mkAM (p_view p) idx AgreementMessage_PrePrepare (Some cmd) cmdHash in
  with_inst idx (λ i, c ← Quorum_log (p_id p) ppm (pCert i); Ret (i <| pCert := c |>));;
  broadcast (PBFTMessage_Agreement ppm) false.

(** *** View change (pbft.go) *)

Definition startViewChange (nextView : Z) : M PBFT unit :=
  p ← get;
  if p_viewChanging p && bool_decide (nextView ≤ p_changingView p)%Z then mret tt else
  modify (λ p, p <| p_viewChanging := true |> <| p_changingView := nextView |>);;
  let entries := range (p_log p) in
  let states := (λ e : Z * instance, i_is e.2) <$> entries in
  let maxIdx := foldl (λ mx e, if decide (mx < e.1)%Z then e.1 else mx) 0%Z entries in
  broadcast (PBFTMessage_ViewChange
    (mkVC nextView 0 maxIdx (filter (λ s, IsAtleastPrepared s) states)
       (filter (λ s, IsAtleastPrePrepared s) states))) true.

(** [continue for1] leaves a message out of the count when one of its [PSet]
    entries fails the test. *)
Definition A1_entry (is1 is2 : InstanceState) : bool :=
  bool_decide (is_View is2 < is_View is1)%Z
  || (bool_decide (is_View is1 = is_View is2)
      && bytes_Equal (is_CommandHash is1) (is_CommandHash is2)).

Definition verifyA1 (f : Z) (is1 : InstanceState) (SSet : list ViewChangeMessage) : bool :=
  let count := length (filter (λ vcm,
    bool_decide (vc_LowIndex vcm < is_Index is1)%Z && forallb (A1_entry is1) (vc_PSet vcm)) SSet) in
  bool_decide (2 * f + 1 ≤ Z.of_nat count)%Z.

(** [continue for2] continues the loop on the entries of one message: every
    entry that passes the test is counted. *)
Definition A2_entry (is1 is2 : InstanceState) : bool :=
  bool_decide (is_View is1 ≤ is_View is2)%Z
  && bytes_Equal (is_CommandHash is1) (is_CommandHash is2).

Definition verifyA2 (f : Z) (is1 : InstanceState) (SSet : list ViewChangeMessage) : bool :=
  let count := foldl (λ n vcm, n + length (filter (λ is2, A2_entry is1 is2) (vc_QSet vcm)))
                 0 SSet in
  bool_decide (f + 1 ≤ Z.of_nat count)%Z.

Definition getInstanceAtIndex (f : Z) (SSet : list ViewChangeMessage) (index : Z)
    : option InstanceState :=
  head (filter (λ s, bool_decide (is_Index s = index) && (verifyA1 f s SSet && verifyA2 f s SSet))
          (SSet ≫= vc_PSet)).

(** The [if entry.valid] blocks of the loops over the view-change items:
    the proofs, the messages and the highest index. *)
Definition nv_acc : Type := list NewViewProof * list ViewChangeMessage * Z.
Definition collect (entry : vcItem) (acc : nv_acc) : outcome nv_acc :=
  let '(nvproof, SSet, maxIdx) := acc in
  match vcMessage entry with
  | None => Panic "nil vcMessage"
  | Some vcm =>
      Ret (nvproof ++ [mkNVP (vcSender entry) (vcDigest entry)], SSet ++ [vcm],
           if decide (maxIdx < vc_HighIndex vcm)%Z then vc_HighIndex vcm else maxIdx)
  end.

(** Enough for the loops over the indices, which stop at the first index that
    no [PSet] holds ([nv_loop_returns] in PbftView). *)
Definition nv_fuel (SSet : list ViewChangeMessage) : nat := S (length (SSet ≫= vc_PSet)).

(** The loop of [constructNewView]: the instances found and [hasHoles]. *)
Fixpoint nv_loop (fuel : nat) (f : Z) (SSet : list ViewChangeMessage) (idx maxIdx : Z)
    (instances : gmap Z InstanceState) (hasHoles : bool)
    : outcome (gmap Z InstanceState * bool) :=
  if decide (idx ≤ maxIdx)%Z then
    match fuel with
    | O => Diverge
    | S fuel =>
        match getInstanceAtIndex f SSet idx with
        | Some inst => nv_loop fuel f SSet (u64 (idx + 1)) maxIdx (<[idx := inst]> instances) false
        | None => Ret (instances, true)
        end
    end
  else Ret (instances, hasHoles).

Definition vc_items (view : Z) (p : PBFT) : list vcItem :=
  snd <$> range (default ∅ (vq_messages (p_vcQuorum p) !! view)).

(** The first loop of [constructNewView] returns at an entry that is not valid. *)
Fixpoint collect_all_valid (entries : list vcItem) (acc : nv_acc) : outcome (option nv_acc) :=
  match entries with
  | [] => Ret (Some acc)
  | entry :: entries =>
      if valid entry then acc ← collect entry acc; collect_all_valid entries acc
      else Ret None
  end.

Definition constructNewView (newView : Z) : M PBFT unit :=
  p ← get;
  found ← lift (collect_all_valid (vc_items newView p) ([], [], 0%Z));
  match found with
  | None => mret tt
  | Some (nvproof, SSet, maxIdx) =>
      '(instances, hasHoles) ← lift (nv_loop (nv_fuel SSet) (p_f p) SSet 1 maxIdx ∅ true);
      when (negb hasHoles)
        (broadcast (PBFTMessage_NewView (mkNV newView nvproof instances)) true)
  end.

Inductive nv_error := ErrNewViewVerifyFailed | ErrNewViewNotPossible.

Definition zero_IS : InstanceState := mkIS 0 0 0 None None.

(** The loop of [verifyNewView]; [None] is a nil error. *)
Fixpoint verify_loop (fuel : nat) (f : Z) (SSet : list ViewChangeMessage) (idx maxIdx : Z)
    (instances : gmap Z InstanceState) : outcome (option nv_error) :=
  if decide (idx ≤ maxIdx)%Z then
    match fuel with
    | O => Diverge
    | S fuel =>
        match getInstanceAtIndex f SSet idx with
        | None => Ret (Some ErrNewViewNotPossible)
        | Some inst =>
            if negb (InstanceState_Equals inst (default zero_IS (instances !! idx)))
            then Ret (Some ErrNewViewVerifyFailed)
            else verify_loop fuel f SSet (u64 (idx + 1)) maxIdx instances
        end
    end
  else Ret None.

Definition verifyNewView (m : NewViewMessage) (p : PBFT) : outcome (option nv_error) :=
  '(_, SSet, maxIdx) ←
    for_out (vc_items (nv_NewView m) p) ([], [], 0%Z)
      (λ entry acc, if valid entry then collect entry acc else Ret acc);
  verify_loop (nv_fuel SSet) (p_f p) SSet 1 maxIdx (nv_Instances m).

(** One instance of an accepted NewView. *)
Definition adoptInstance (m : NewViewMessage) (from : Z) (st : InstanceState) : M PBFT unit :=
  modify (λ p, p <| p_log ::= <[is_Index st :=
    mkInstance (mkIS (nv_NewView m) (is_Index st) InstanceState_PrePrepared (is_Command st) None)
      newQuorum newQuorum]> |>);;
  let ppm := mkAM (nv_NewView m) (is_Index st) AgreementMessage_PrePrepare (is_Command st)
               (is_CommandHash st) in
  p ← get;
  prim ← lift (isCurrentPrimary (p_id p) p);
  if negb prim then onPrePrepare ppm from
  else with_inst (is_Index st) (λ i, c ← Quorum_log (p_id p) ppm (pCert i); Ret (i <| pCert := c |>)).

Definition processNewView (m : NewViewMessage) (from : Z) : M PBFT unit :=
  p ← get;
  if negb (p_viewChanging p) && bool_decide (p_view p = nv_NewView m) then mret tt else
  err ← lift (verifyNewView m p);
  match err with
  | Some ErrNewViewVerifyFailed => panic "Verification Failed. Trigger VC Again"
  | Some ErrNewViewNotPossible => mret tt
  | None =>
      modify (λ p, p <| p_view := nv_NewView m |> <| p_viewChanging := false |>);;
      for_each (range (nv_Instances m)) (λ e, adoptInstance m from e.2)
  end.

Definition onViewChange (m : ViewChangeMessage) (from : Z) : M PBFT unit :=
  p ← get;
  if bool_decide (vc_NewView m ≤ p_view p)%Z
     || (p_viewChanging p && bool_decide (vc_NewView m < p_changingView p)%Z) then mret tt else
  for_each (vc_PSet m) (λ st,
    if decide (p_view p < is_View st)%Z then panic "View in PSet entry is higher than current view"
    else mret tt);;
  for_each (vc_QSet m) (λ st,
    if decide (p_view p < is_View st)%Z then panic "View in QSet entry is higher than current view"
    else mret tt);;
  match Marshal m with
  | None => panic "marshal"
  | Some mBytes =>
      let digest := Some (sha256 mBytes) in
      to ← lift (leader_of (vc_NewView m) (length (p_nodes p)));
      sendTo to (PBFTMessage_ViewChangeAck (mkVCA (vc_NewView m) from digest));;
      modify (λ p, p <| p_vcQuorum ::= addVCMessage (p_f p) from m digest |>);;
      p ← get;
      prim ← lift (isPrimaryAtView (p_id p) (vc_NewView m) p);
      when prim (constructNewView (vc_NewView m));;
      p ← get;
      match vq_nvMessage (p_vcQuorum p) !! to with
      | Some nv => processNewView nv to
      | None => mret tt
      end
  end.

Definition onViewChangeAck (m : ViewChangeAckMessage) (from : Z) : M PBFT unit :=
  p ← get;
  vq ← lift (addVCAMessage (p_f p) from m (p_vcQuorum p));
  modify (λ p, p <| p_vcQuorum := vq |>);;
  constructNewView (vca_NewView m).

Definition onNewView (m : NewViewMessage) (from : Z) : M PBFT unit :=
  p ← get;
  prim ← lift (isPrimaryAtView from (nv_NewView m) p);
  if negb prim then panic "New View message received from non-primary" else
  modify (λ p, p <| p_vcQuorum ::= addNVMessage from m |>);;
  processNewView m from.

Definition hasStatus (index status : Z) (p : PBFT) : bool :=
  match p_log p !! index with
  | Some inst => bool_decide (is_Status (i_is inst) = status)
  | None => false
  end.
Definition hasPrePrepared (index : Z) (p : PBFT) : bool :=
  hasStatus index InstanceState_PrePrepared p.
Definition hasExecuted (index : Z) (p : PBFT) : bool :=
  hasStatus index InstanceState_Committed p.

(** *** The [Protocol] methods (pbft.go) *)

Definition Step (message : Message) : M PBFT unit :=
  match Unmarshal (msg_Content message) with
  | None => panic "unmarshal"
  | Some pbftMsg =>
      if negb (VerifyCertificate (msg_Content message) (msg_Certificate message))
      then panic "Invalid certificate" else
      match pbftMsg with
      | PBFTMessage_Agreement m => stepAgreement m (msg_From message)
      | PBFTMessage_ViewChange m => onViewChange m (msg_From message)
      | PBFTMessage_ViewChangeAck m => onViewChangeAck m (msg_From message)
      | PBFTMessage_NewView m => onNewView m (msg_From message)
      | PBFTMessage_nil => mret tt
      end
  end.

Definition Tick : M PBFT unit :=
  modify (λ p, p <| p_timers ::= fmap (λ t, (Timer.Tick t).1) |>).

Definition Callback (message : ExecCallback) : M PBFT unit := panic "not implemented".

Definition MakeReady : M PBFT Ready := gets (λ p, mkReady (p_msgs p) (p_executedCmds p)).
Definition ClearMsgs : M PBFT unit := modify (λ p, p <| p_msgs := [] |>).
Definition ClearExecutedCommands : M PBFT unit := modify (λ p, p <| p_executedCmds := [] |>).

#[export] Instance PBFT_Protocol : Protocol PBFT := {|
  Peer.Step := Step;
  Peer.Tick := Tick;
  Peer.Request := onRequest;
  Peer.Callback := Callback;
  Peer.MakeReady := MakeReady;
  Peer.ClearMsgs := ClearMsgs;
  Peer.ClearExecutedCommands := ClearExecutedCommands;
  Peer.AsyncCallback := AsyncCallback;
|}.
End pbft.
End Pbft.
