(* ===== verification/PbftSafety.v ===== *)
(** * Agreement of PBFT in a view

    A system of PBFT replicas in the view they start in: the correct replicas
    run the handlers of Pbft.v, the others send arbitrary agreement messages
    under their own names.  [agreement_inv] is the invariant of one replica,
    which every handler keeps; [world_inv] adds what the messages in flight
    say.  The executed sequences of correct replicas agree. *)
From S2P Require Import Prelude Command Worker Certifier Peer Pbft.
From S2P Require Quorum.
Import Pbft.

(** Equality of what a marshalled agreement message carries, with the empty and
    the nil hash the same. *)
Definition AM_agrees (m m' : AgreementMessage) : Prop :=
  m_View m = m_View m' ∧ m_Index m = m_Index m' ∧ m_Type m = m_Type m' ∧
  m_CommandHash m ≈ m_CommandHash m'.

(** What the marshaller promises: commands are marshalled without an error and
    agreement messages come back. *)
Class AgreementCodecLaws `{Codec Command, Codec PBFTMessage} := {
  Marshal_Command (c : Command) : is_Some (Marshal c);
  Unmarshal_Agreement m b : Marshal (PBFTMessage_Agreement m) = Some b →
    ∃ m', Unmarshal b = Some (PBFTMessage_Agreement m') ∧ AM_agrees m m';
}.

Lemma AM_Equals_spec m m' :
  AgreementMessage_Equals m m' = true ↔
  m_View m = m_View m' ∧ m_Index m = m_Index m' ∧ m_CommandHash m ≈ m_CommandHash m'.
Proof.
  unfold AgreementMessage_Equals. repeat case_bool_decide; rewrite ?bytes_Equal_spec; naive_solver.
Qed.

#[export] Instance AM_QMsgLaws : Quorum.QMsgLaws AgreementMessage.
Proof.
  split; simpl; setoid_rewrite AM_Equals_spec; [done|by intros ?? (-> & -> & ->)|].
  by intros ??? (-> & -> & ->).
Qed.

Section world.
Context `{GoEnv, Codec Command, Codec PBFTMessage, Codec ViewChangeMessage, MapRange, Certifier}.
Context (nodes : list Z) (Byz : gset Z) (f : nat) (v0 : Z) (cap workers : nat).
Context (C : Command → Prop) `{!∀ c, Decision (C c)}.

(** ** The system *)
Record world := mkWorld {
  w_reps : gmap Z PBFT;               (* the correct replicas *)
  w_done : gmap Z (list ExecPacket);  (* what each handed to its applier *)
  w_net : list Message;               (* what they handed to the transport *)
}.

Definition config (j : Z) : Config :=
  mkConfig j nodes v0 (Z.of_nat f) {["mac_sign"%string := workers]} {["mac_sign"%string := cap]}.

Definition init_world : world :=
  mkWorld
    (list_to_map (omap (λ j, match NewPBFT (config j) with
                             | Ret p => if decide (j ∈ Byz) then None else Some (j, p)
                             | _ => None
                             end) nodes)) ∅ [].

Inductive event :=
| Deliver (m : Message)
| Submit (j : Z) (cmd : Command)
| SignStep (j : Z) (e : Worker.event)
| Drain (j : Z)
| HandMsgs (j : Z)
| HandCmds (j : Z)
| TickAt (j : Z).

Definition target (e : event) : Z :=
  match e with
  | Deliver m => msg_To m
  | Submit j _ | SignStep j _ | Drain j | HandMsgs j | HandCmds j | TickAt j => j
  end.

(** The messages a correct replica may receive: those a correct replica sent
    to it, and any agreement message from a faulty one.  Commands come from [C]. *)
Definition guard (e : event) (p : PBFT) (w : world) : bool :=
  match e with
  | Deliver m =>
      match Unmarshal (msg_Content m) with
      | Some (PBFTMessage_Agreement am) =>
          bool_decide (msg_From m ∈ nodes ∧ (msg_From m ∈ Byz ∨ m ∈ w_net w))
          && match m_Command am with Some c => bool_decide (C c) | None => true end
      | _ => false
      end
  | Submit _ cmd => bool_decide (C cmd ∧ (p_index p + 1 < two64)%Z)
  | SignStep _ e => bool_decide (is_Some (worker_step cap e p))
  | _ => true
  end.

(** The effect on the replica, with what it hands over. *)
Definition effect (e : event) : M PBFT (list Message * list ExecPacket) :=
  match e with
  | Deliver m => Pbft.Step m;; mret ([], [])
  | Submit _ cmd => onRequest cmd;; mret ([], [])
  | SignStep _ e => modify (λ p, default p (worker_step cap e p));; mret ([], [])
  | Drain _ => Pbft.AsyncCallback;; mret ([], [])
  | HandMsgs _ => rd ← Pbft.MakeReady; Pbft.ClearMsgs;; mret (rd_Messages rd, [])
  | HandCmds _ => rd ← Pbft.MakeReady; Pbft.ClearExecutedCommands;; mret ([], rd_OrderedCommands rd)
  | TickAt _ => Pbft.Tick;; mret ([], [])
  end.

(** A replica that panics takes no further step. *)
Definition world_step (e : event) (w : world) : option world :=
  p ← w_reps w !! target e;
  if guard e p w then
    match effect e p with
    | Ret ((ms, xs), p') =>
        Some (mkWorld (<[target e := p']> (w_reps w))
                (<[target e := default [] (w_done w !! target e) ++ xs]> (w_done w))
                (w_net w ++ ms))
    | _ => None
    end
  else None.

Fixpoint world_run (es : list event) (w : world) : option world :=
  match es with
  | [] => Some w
  | e :: es => w ← world_step e w; world_run es w
  end.

(** The commands a replica has executed, in order. *)
Definition executed (j : Z) (w : world) : list Command :=
  x_Cmd <$> default [] (w_done w !! j) ++ default [] (p_executedCmds <$> w_reps w !! j).

(** ** The setting *)
Record setting_ok : Prop := {
  so_nodes : NoDup nodes;
  so_size : length nodes ≤ 3 * f + 1;
  so_byz : size Byz ≤ f;
  so_byz_nodes : Byz ⊆ list_to_set nodes;
  so_leader : (0 ≤ v0 < Z.of_nat (length nodes))%Z;
  so_small : (Z.of_nat (length nodes) < two63)%Z;
}.

(** No two commands of the run have one hash and different requests. *)
Definition collision_free : Prop :=
  ∀ c1 c2, C c1 → C c2 → (Command_Hash c1).1 ≈ (Command_Hash c2).1 → same_request c1 c2.
End world.
Arguments world : clear implicits.

(** ** The invariant of one replica *)
Section replica.
Context `{GoEnv, Codec Command, Codec PBFTMessage, Codec ViewChangeMessage, MapRange, Certifier}.
Context `{!GoEnvLaws, !AgreementCodecLaws}.
Context (nodes : list Z) (Byz : gset Z) (f : nat) (v0 : Z) (C : Command → Prop).
Context (Hset : setting_ok nodes Byz f v0).
(** The replica, the votes of the others, and what it handed over before. *)
Context (j : Z) (Hj : j ∈ nodes) (Hjb : j ∉ Byz).
Context (votes : Z → Z → slice → Prop) (before : list ExecPacket).
Context (own0 : Z → slice → Prop).

(** Replica [k] with state [p] has voted for hash [h] at index [i]. *)
Definition voted (k : Z) (p : PBFT) (i : Z) (h : slice) : Prop :=
  ∃ inst m, p_log p !! i = Some inst ∧
    Quorum.view_msgs v0 (pCert inst) !! k = Some m ∧ m_CommandHash m ≈ h.

Definition status (inst : instance) : Z := is_Status (i_is inst).
Definition hash (inst : instance) : slice := is_CommandHash (i_is inst).
Definition prep_of (i : Z) (h : slice) : AgreementMessage :=
  mkAM v0 i AgreementMessage_Prepare None h.

Record inst_ok (i : Z) (inst : instance) : Prop := {
  io_view : is_View (i_is inst) = v0;
  io_index : is_Index (i_is inst) = i;
  io_votes k m : Quorum.view_msgs v0 (pCert inst) !! k = Some m →
    k ∈ nodes ∧ m_Index m = i ∧ (k ∉ Byz → k ≠ j → votes k i (m_CommandHash m));
  io_pre : (InstanceState_PrePrepared ≤ status inst)%Z →
    is_Some (hash inst) ∧
    (∃ m, Quorum.view_msgs v0 (pCert inst) !! j = Some m ∧ m_CommandHash m ≈ hash inst) ∧
    ∀ c, is_Command (i_is inst) = Some c →
      ∃ c', C c' ∧ (Command_Hash c').1 ≈ hash inst ∧ same_request c c';
  io_prep : (InstanceState_Prepared ≤ status inst)%Z →
    2 * f < size (Quorum.matching (prep_of i (hash inst)) (pCert inst));
}.

(** How an instance may evolve. *)
Record inst_le (i1 i2 : instance) : Prop := {
  il_own m : Quorum.view_msgs v0 (pCert i1) !! j = Some m →
    Quorum.view_msgs v0 (pCert i2) !! j = Some m;
  il_prep : (InstanceState_Prepared ≤ status i1)%Z →
    (InstanceState_Prepared ≤ status i2)%Z ∧ hash i2 = hash i1;
}.

(** A command executed at an index. *)
Definition done_ok (p : PBFT) (i : Z) (c : Command) : Prop :=
  ∃ inst c', p_log p !! i = Some inst ∧ (InstanceState_Prepared ≤ status inst)%Z ∧
    C c' ∧ (Command_Hash c').1 ≈ hash inst ∧ same_request c c'.

(** A marshalled message of this replica says what it voted. *)
Definition backed (p : PBFT) (b : bytes) : Prop :=
  ∃ am, Unmarshal b = Some (PBFTMessage_Agreement am) ∧
    (m_Type am ≠ AgreementMessage_Commit → m_View am = v0 →
     voted j p (m_Index am) (m_CommandHash am)).

Definition job_ok (p : PBFT) (s : signJob) : Prop :=
  backed p (sj_mBytes s) ∧ sj_sendToSelf s = false.

Record agreement_inv (p : PBFT) : Prop := {
  ai_id : p_id p = j;
  ai_nodes : p_nodes p = nodes;
  ai_view : p_view p = v0;
  ai_vc : p_viewChanging p = false;
  ai_f : p_f p = Z.of_nat f;
  ai_index : (0 ≤ p_index p)%Z;
  ai_log i inst : p_log p !! i = Some inst → inst_ok i inst;
  ai_primary i inst : j = v0 → p_log p !! i = Some inst → (p_index p < i)%Z →
    Quorum.view_msgs v0 (pCert inst) !! j = None;
  ai_execute : p_execute p = u64 (1 + Z.of_nat (length (before ++ p_executedCmds p)));
  ai_done k c : (x_Cmd <$> before ++ p_executedCmds p) !! k = Some c →
    done_ok p (u64 (1 + Z.of_nat k)) c;
  ai_own i h : own0 i h → voted j p i h;
  ai_jobs : Forall (job_ok p) ((p_callbackC p).*1 ++ Worker.pending (p_signDispatcher p));
  ai_msgs : Forall (λ m, msg_From m = j ∧ msg_To m ≠ j ∧ backed p (msg_Content m)) (p_msgs p);
}.

(** ** Evolution of the log *)
Lemma inst_le_refl inst : inst_le inst inst.
Proof. by split. Qed.

Definition put (idx : Z) (inst : instance) (p : PBFT) : PBFT :=
  p <| p_log ::= <[idx := inst]> |>.

(** What is needed to file [inst] at [idx]. *)
Record can_put (idx : Z) (inst : instance) (p : PBFT) : Prop := {
  cp_ok : inst_ok idx inst;
  cp_le old : p_log p !! idx = Some old → inst_le old inst;
  cp_primary : j = v0 → (p_index p < idx)%Z → Quorum.view_msgs v0 (pCert inst) !! j = None;
}.

Lemma voted_put idx inst p i h :
  (∀ old, p_log p !! idx = Some old → inst_le old inst) →
  voted j p i h → voted j (put idx inst p) i h.
Proof.
  intros Hle (old & m & Hi & Hm & ?). unfold voted, put; simpl.
  destruct (decide (idx = i)) as [->|].
  - exists inst, m. rewrite lookup_insert_eq. split_and!; [done| |done].
    by apply (il_own _ _ (Hle _ Hi)).
  - exists old, m. by rewrite lookup_insert_ne.
Qed.

Lemma backed_mono p p' b :
  (∀ i h, voted j p i h → voted j p' i h) → backed p b → backed p' b.
Proof. intros Hv (am & ? & Hb). exists am. split; [done|]. auto. Qed.

Lemma done_put idx inst p i c :
  (∀ old, p_log p !! idx = Some old → inst_le old inst) →
  done_ok p i c → done_ok (put idx inst p) i c.
Proof.
  intros Hle (old & c' & Hi & Hst & ? & Hh & ?). unfold done_ok, put; simpl.
  destruct (decide (idx = i)) as [->|].
  - destruct (il_prep _ _ (Hle _ Hi)) as [? Hh']; [done|].
    exists inst, c'. rewrite lookup_insert_eq, Hh'. by split_and!.
  - exists old, c'. by rewrite lookup_insert_ne.
Qed.

Lemma put_inv idx inst p :
  agreement_inv p → can_put idx inst p → agreement_inv (put idx inst p).
Proof.
  intros Hp [Hok Hle Hpr].
  assert (∀ b, backed p b → backed (put idx inst p) b) as Hb.
  { intros b. apply backed_mono. intros ??. by apply voted_put. }
  destruct Hp. split; simpl; try done.
  - intros i inst'. rewrite lookup_insert. case_decide; [by intros [= <-]; subst|auto].
  - intros i inst' ?. rewrite lookup_insert. case_decide; [intros [= <-]; subst; auto|eauto].
  - intros k c ?. apply done_put; auto.
  - intros i h ?. apply voted_put; auto.
  - eapply Forall_impl; [done|]. intros s []. split; auto.
  - eapply Forall_impl; [done|]. simpl. intros m (? & ? & ?). auto.
Qed.

(** Changes outside the log and the pipeline. *)
Lemma backed_log p p' b : p_log p' = p_log p → backed p b → backed p' b.
Proof. intros Hl. apply backed_mono. intros i h. unfold voted. by rewrite Hl. Qed.

(** ** The small operations *)
Lemma wp_with_inst idx g (Q : unit → PBFT → Prop) p inst :
  p_log p !! idx = Some inst →
  (∀ inst', g inst = Ret inst' → Q tt (put idx inst' p)) → wp (with_inst idx g) Q p.
Proof.
  intros Hi HQ. unfold with_inst. wp_steps. apply HQ. congruence.
Qed.

Lemma wp_get_inst idx (Q : instance → PBFT → Prop) p inst :
  p_log p !! idx = Some inst → Q inst p → wp (get_inst idx) Q p.
Proof. intros Hi HQ. unfold get_inst. wp_steps. congruence. Qed.

Lemma lookup_put idx inst p : p_log (put idx inst p) !! idx = Some inst.
Proof. unfold put; simpl. apply lookup_insert_eq. Qed.

Lemma broadcast_inv am (Q : unit → PBFT → Prop) p :
  agreement_inv p →
  (m_Type am ≠ AgreementMessage_Commit → m_View am = v0 → voted j p (m_Index am) (m_CommandHash am)) →
  (∀ p', agreement_inv p' → p_log p' = p_log p → Q tt p') →
  wp (broadcast (PBFTMessage_Agreement am) false) Q p.
Proof.
  intros Hp Hv HQ. unfold broadcast. destruct (Marshal _) as [b|] eqn:Hm; [|done].
  apply wp_modify. apply HQ; [|done].
  destruct (Unmarshal_Agreement _ _ Hm) as (am' & Hu & Hag & Hai & Hat & Hah).
  destruct Hp. split; try done. simpl. rewrite Worker.Exec_pending, <-Permutation_middle.
  apply Forall_cons. split; [|done]. split; [|done]. exists am'. split; [done|].
  intros Ht Hvw. destruct Hv as (inst & m & ? & ? & Hh); [congruence..|].
  exists inst, m. rewrite <-Hai. split_and!; [done..|]. simpl in *.
  by rewrite Hh.
Qed.

(** ** Filing an instance: votes, status, command *)
Lemma cCert_ok idx inst c p :
  agreement_inv p → p_log p !! idx = Some inst → can_put idx (inst <| cCert := c |>) p.
Proof.
  intros Hp Hi. destruct (ai_log _ Hp _ _ Hi). split; [by split| |].
  - intros old Ho. simplify_eq. by split.
  - intros ??. cbn. by eapply (ai_primary p).
Qed.

Lemma pCert_ok idx inst k m c p :
  agreement_inv p → p_log p !! idx = Some inst → Quorum_log k m (pCert inst) = Ret c →
  k ∈ nodes → m_View m = v0 → m_Index m = idx →
  (k ∉ Byz → k ≠ j → votes k idx (m_CommandHash m)) → (k = j → j = v0 → (idx ≤ p_index p)%Z) →
  can_put idx (inst <| pCert := c |>) p.
Proof.
  intros Hp Hi Hlog Hk Hv Hidx Hvote Hpr.
  apply Quorum.log_strict_inv in Hlog as (_ & Hnone & _ & Hview). simpl in *. rewrite Hv in *.
  specialize (Hview v0). rewrite decide_True in Hview by done.
  assert (Quorum.view_msgs v0 (pCert inst) ⊆ Quorum.view_msgs v0 c) as Hsub.
  { rewrite Hview. by apply insert_subseteq. }
  destruct (ai_log _ Hp _ _ Hi) as [? ? Hvotes Hpre Hprep]. split.
  - split; simpl; try done.
    + intros k' m'. rewrite Hview, lookup_insert. case_decide; [|auto].
      intros [= <-]. subst. auto.
    + intros Hst. destruct (Hpre Hst) as (? & (m' & ? & ?) & ?). split_and!; [done| |done].
      exists m'. split; [|done]. by eapply lookup_weaken.
    + intros Hst. specialize (Hprep Hst). eapply Nat.lt_le_trans; [done|].
      by apply Quorum.matching_mono.
  - intros old Ho. simplify_eq. split; simpl; [|done]. intros m' ?. by eapply lookup_weaken.
  - intros Hl Hlt. simpl. rewrite Hview, lookup_insert. case_decide as Hkj.
    + specialize (Hpr Hkj Hl). lia.
    + by eapply ai_primary.
Qed.

(** A new status, with what it asks for. *)
Lemma status_ok idx inst st p :
  agreement_inv p → p_log p !! idx = Some inst →
  (InstanceState_PrePrepared ≤ status inst)%Z →
  (InstanceState_Prepared ≤ st)%Z →
  2 * f < size (Quorum.matching (prep_of idx (hash inst)) (pCert inst)) →
  can_put idx (inst <| i_is ::= set is_Status (λ _, st) |>) p.
Proof.
  intros Hp Hi Hpp Hst Hm. destruct (ai_log _ Hp _ _ Hi) as [? ? Hvotes Hpre Hprep]. split.
  - split; simpl; try done. intros _. by apply Hpre.
  - intros old Ho. simplify_eq. split; simpl; done.
  - intros ??. cbn. by eapply (ai_primary p).
Qed.

(** ** Execution *)
Lemma exec_body_inv p : agreement_inv p → wp exec_body (λ b p', agreement_inv p') p.
Proof.
  intros Hp. unfold exec_body. wp_steps; try done.
  match goal with H : p_log p !! _ = Some ?i, H' : is_Command _ = Some ?c |- _ =>
    rename i into inst, c into cmd, H into Hi, H' into Hc end.
  assert (IsCommitted (i_is inst) = true) as Hco by (by destruct (IsCommitted _)).
  unfold IsCommitted in Hco. apply bool_decide_eq_true in Hco.
  unfold Execute. wp_steps. cbn.
  pose proof (ai_log _ Hp _ _ Hi) as [? ? Hvotes Hpre Hprep].
  unfold status, InstanceState_Prepared, InstanceState_PrePrepared, InstanceState_Committed in *.
  destruct Hpre as (Hh & Hown & Hcmd); [lia|].
  destruct (Hcmd _ Hc) as (c' & HC & Hhc & Hcc).
  assert (can_put (p_execute p) (inst <| i_is ::= set is_Command (λ _, None) |>) p) as Hcp.
  { split; [by split|..].
    - intros old Ho. simplify_eq. by split.
    - intros ??. cbn. by eapply (ai_primary p). }
  pose proof (put_inv _ _ _ Hp Hcp) as Hp'. pose proof (lookup_put (p_execute p)
    (inst <| i_is ::= set is_Command (λ _, None) |>) p) as Hl.
  unfold put in *. destruct Hp'. split; try done; simpl in *.
  - rewrite (app_assoc before), length_app, ai_execute0; simpl.
    unfold u64. rewrite Zplus_mod_idemp_l. f_equal. lia.
  - intros k c. rewrite (app_assoc before), fmap_app, lookup_app_Some. simpl.
    intros [Hk|[Hk Hc2]]; [by apply ai_done0 in Hk|].
    rewrite length_fmap in *.
    destruct (k - length (before ++ p_executedCmds p)) eqn:Hd; [|done]. simplify_eq/=.
    replace k with (length (before ++ p_executedCmds p)) by lia.
    rewrite <-ai_execute0. eexists _, c'. split; [done|]. split_and!; auto.
    unfold status, InstanceState_Prepared. cbn. lia.
Qed.

Lemma exec_inv p : agreement_inv p → wp exec (λ _, agreement_inv) p.
Proof.
  intros Hp. unfold exec. wp_steps. apply (wp_loop agreement_inv); [|done].
  intros s Hs. eapply wp_mono; [by apply exec_body_inv|]. by intros [] ? ?.
Qed.

(** ** Agreement handlers *)
Lemma maybeCommit_inv idx cm p inst :
  agreement_inv p → p_log p !! idx = Some inst →
  wp (maybeCommit idx cm) (λ _, agreement_inv) p.
Proof.
  intros Hp Hi. unfold maybeCommit. wp_step. eapply wp_get_inst; [done|].
  wp_steps; [|done]. unfold set_status. eapply wp_with_inst; [done|]. intros inst' [= <-].
  apply exec_inv, put_inv; [done|].
  assert (status inst = InstanceState_Prepared) as Hst.
  { destruct (_ && _) eqn:Hb; [|done].
    apply andb_true_iff in Hb as [_ Hb%bool_decide_eq_true]. done. }
  apply status_ok; try done.
  - by rewrite Hst.
  - apply (io_prep _ _ (ai_log _ Hp _ _ Hi)). by rewrite Hst.
Qed.

Lemma maybePrepare_inv idx m p inst :
  agreement_inv p → p_log p !! idx = Some inst →
  m_View m = v0 → m_Index m = idx → m_CommandHash m ≈ hash inst →
  wp (maybePrepare idx m) (λ _, agreement_inv) p.
Proof.
  intros Hp Hi Hv Hidx Hh. unfold maybePrepare. wp_step. eapply wp_get_inst; [done|].
  wp_steps; [|done].
  match goal with H : _ && _ = true |- _ => apply andb_true_iff in H as [Hmaj Hst] end.
  apply bool_decide_eq_true in Hst.
  unfold Quorum_Majority in Hmaj. rewrite (ai_f _ Hp) in Hmaj.
  apply Quorum.Majority_spec in Hmaj; [|lia].
  rewrite (Quorum.matching_eqv m (prep_of idx (hash inst))) in Hmaj;
    [|done|by apply AM_Equals_spec].
  unfold set_status. eapply wp_with_inst; [done|]. intros inst' [= <-].
  match goal with |- context [put idx ?i p] => set (inst' := i) end.
  assert (agreement_inv (put idx inst' p)) as Hp'.
  { apply put_inv; [done|]. apply status_ok; try done; [|lia].
    unfold status. by rewrite Hst. }
  wp_steps. apply broadcast_inv; [done|done|]. intros p2 Hp2 Hl2. wp_step.
  assert (p_log p2 !! idx = Some inst') as Hi2 by (rewrite Hl2; apply lookup_put).
  eapply wp_with_inst; [done|]. intros inst2 Hin2.
  outcome_inv. eapply maybeCommit_inv; [|apply lookup_put].
  apply put_inv; [done|]. by apply cCert_ok.
Qed.

Lemma put_put idx inst inst' p : put idx inst' (put idx inst p) = put idx inst' p.
Proof. unfold put, set, set_p_log. destruct p; simpl. f_equal. apply insert_insert_eq. Qed.

Lemma wp_fetch checks m (Q : unit → PBFT → Prop) p :
  (p_log p !! m_Index m = None → Q tt (put (m_Index m) (makeInstance m) p)) →
  (∀ inst inst', p_log p !! m_Index m = Some inst → checks inst = Ret inst' →
    Q tt (put (m_Index m) inst' p)) →
  wp (fetch_instance checks m) Q p.
Proof. intros HN HS. unfold fetch_instance. wp_steps; [by eapply HS|by apply HN]. Qed.

Lemma makeInstance_ok m p :
  p_log p !! m_Index m = None → m_View m = v0 → can_put (m_Index m) (makeInstance m) p.
Proof.
  intros Hn Hv. unfold makeInstance, newQuorum, Quorum.newQuorum. split.
  - by split.
  - intros old. by rewrite Hn.
  - done.
Qed.

(** Setting a hash that was nil, and a command that was nil. *)
Lemma update_ok idx inst oc h p :
  agreement_inv p → p_log p !! idx = Some inst →
  is_CommandHash (i_is inst) = h ∨ is_CommandHash (i_is inst) = None →
  (is_Command (i_is inst) = oc ∨
   (∀ c, oc = Some c → ∃ c', C c' ∧ (Command_Hash c').1 ≈ h ∧ same_request c c')) →
  can_put idx (inst <| i_is ::= λ s, s <| is_Command := oc |> <| is_CommandHash := h |> |>) p.
Proof.
  intros Hp Hi Hh Hc. destruct (ai_log _ Hp _ _ Hi) as [? ? Hvotes Hpre Hprep].
  assert ((InstanceState_PrePrepared ≤ status inst)%Z → h = hash inst) as Hsame.
  { intros Hst. destruct Hh as [<-|Hh]; [done|].
    destruct (Hpre Hst) as ([? Hs] & _). unfold hash in Hs. congruence. }
  split.
  - split; simpl; try done.
    + intros Hst. destruct (Hpre Hst) as (? & ? & Hcmd). rewrite (Hsame Hst) in *.
      split_and!; [done..|]. intros c Hoc. destruct Hc as [<-|Hc]; [by apply Hcmd|by apply Hc].
    + intros Hst. rewrite Hsame; [by apply Hprep|].
      unfold InstanceState_PrePrepared, InstanceState_Prepared, status in *. cbn in *. lia.
  - intros old Ho. simplify_eq. split; simpl; [done|]. intros Hst. split; [done|].
    apply Hsame. unfold InstanceState_PrePrepared, InstanceState_Prepared in *. lia.
  - intros ??. cbn. by eapply (ai_primary p).
Qed.

Lemma update_id inst :
  inst <| i_is ::= λ s, s <| is_Command := is_Command (i_is inst) |>
                          <| is_CommandHash := is_CommandHash (i_is inst) |> |> = inst.
Proof. by destruct inst as [[] ? ?]. Qed.

(** [updateCommandHash] on what is filed, or on what [updateCommand] left. *)
Lemma updateCommandHash_spec m inst inst' :
  updateCommandHash m inst = Ret inst' →
  ∃ h, inst' = inst <| i_is ::= set is_CommandHash (λ _, h) |> ∧ m_CommandHash m ≈ h ∧
    (is_CommandHash (i_is inst) = h ∨ is_CommandHash (i_is inst) = None) ∧
    (is_Some (m_CommandHash m) → is_Some h).
Proof.
  unfold updateCommandHash. destruct (is_CommandHash _) as [h0|] eqn:Hh.
  - destruct (bytes_Equal _ _) eqn:He; intros [= <-]. apply bytes_Equal_spec in He.
    exists (Some h0). split_and!; [|done|by left|done].
    destruct inst as [[] ? ?]; cbn in *. by subst.
  - intros [= <-]. exists (m_CommandHash m). split_and!; auto. done.
Qed.

Lemma fetch_hash_inv m (Q : unit → PBFT → Prop) p :
  agreement_inv p → m_View m = v0 →
  (∀ p' inst, agreement_inv p' → p_log p' !! m_Index m = Some inst →
    m_CommandHash m ≈ hash inst → p_view p' = p_view p → Q tt p') →
  wp (fetch_instance (updateCommandHash m) m) Q p.
Proof.
  intros Hp Hv HQ. apply wp_fetch.
  - intros Hn. eapply HQ; [|apply lookup_put|done..].
    apply put_inv; [done|]. by apply makeInstance_ok.
  - intros inst inst' Hi (h & -> & Hm & Hh & _)%updateCommandHash_spec.
    eapply HQ; [|apply lookup_put|done..]. apply put_inv; [done|].
    pose proof (update_ok (m_Index m) inst (is_Command (i_is inst)) h p Hp Hi Hh
      (or_introl eq_refl)) as Hok.
    by replace (set i_is _ inst) with
      (inst <| i_is ::= λ s, s <| is_Command := is_Command (i_is inst) |> <| is_CommandHash := h |> |>)
      by (by destruct inst as [[] ? ?]).
Qed.

Lemma onCommit_inv m from p :
  agreement_inv p → m_View m = v0 → wp (onCommit m from) (λ _, agreement_inv) p.
Proof.
  intros Hp Hv. unfold onCommit. wp_step. apply fetch_hash_inv; [done..|].
  intros p1 inst Hp1 Hi _ _. wp_step. eapply wp_with_inst; [done|].
  intros inst' Hin. outcome_inv. eapply maybeCommit_inv; [|apply lookup_put].
  apply put_inv; [done|]. by apply cCert_ok.
Qed.

Lemma onPrepare_inv m from p :
  agreement_inv p → m_View m = v0 → from ∈ nodes → from ≠ j →
  (from ∉ Byz → votes from (m_Index m) (m_CommandHash m)) →
  wp (onPrepare m from) (λ _, agreement_inv) p.
Proof.
  intros Hp Hv Hf Hfj Hvote. unfold onPrepare. wp_steps; [done|]. apply fetch_hash_inv; [done..|].
  intros p1 inst Hp1 Hi Hh _. wp_step. eapply wp_with_inst; [done|].
  intros inst' Hin. outcome_inv.
  eapply maybePrepare_inv; [|apply lookup_put|done..].
  apply put_inv; [done|]. eapply pCert_ok; try done; auto.
Qed.

Lemma isCurrentPrimary_spec k p b :
  agreement_inv p → isCurrentPrimary k p = Ret b → b = bool_decide (k = v0).
Proof.
  intros Hp. destruct Hset. unfold isCurrentPrimary, isPrimaryAtView.
  rewrite (ai_view _ Hp), (ai_nodes _ Hp), leader_of_small by (unfold two63 in *; lia).
  rewrite Z.mod_small by done. by intros [= <-].
Qed.

Lemma checkCommandHash_spec c h ok oc :
  checkCommandHash (Some c) h = Ret (ok, oc) →
  oc = Some c ∧ (ok = true → is_Some h ∧ (Command_Hash c).1 ≈ h).
Proof.
  unfold checkCommandHash, Command_Hash_ptr. simpl.
  destruct (Command_Hash c) as [hc c'] eqn:Hc. simpl. intros [= <- <-].
  assert (is_Some hc) as [x ->].
  { unfold Command_Hash in Hc. destruct (Marshal_Command (c <| c_TraceInfo := None |>)) as [b Hb].
    rewrite Hb in Hc. simplify_eq. eauto. }
  split; [by apply Command_Hash_restores in Hc as ->|].
  intros Hx%bytes_Equal_spec. split; [|done].
  pose proof (Command_Hash_nonempty c x) as Hne. rewrite Hc in Hne.
  destruct h; [eauto|]. unfold slice_eqv in Hx. simpl in Hx. destruct x; [by destruct Hne|done].
Qed.

(** The status, and then the vote of the replica itself: the panic on a second
    vote keeps a prepared instance from going back. *)
Lemma own_vote_ok idx inst c p :
  agreement_inv p → p_log p !! idx = Some inst → j ≠ v0 →
  Quorum_log j (prep_of idx (hash inst)) (pCert inst) = Ret c →
  is_Some (hash inst) →
  (∀ c, is_Command (i_is inst) = Some c →
    ∃ c', C c' ∧ (Command_Hash c').1 ≈ hash inst ∧ same_request c c') →
  can_put idx (inst <| i_is ::= set is_Status (λ _, InstanceState_PrePrepared) |>
                    <| pCert := c |>) p.
Proof.
  intros Hp Hi Hjv Hlog Hh Hcmd.
  apply Quorum.log_strict_inv in Hlog as (_ & Hnone & _ & Hview). simpl in *.
  specialize (Hview v0). rewrite decide_True in Hview by done.
  destruct (ai_log _ Hp _ _ Hi) as [? ? Hvotes Hpre _].
  assert (¬ (InstanceState_PrePrepared ≤ status inst)%Z) as Hlt.
  { intros Hst. destruct (Hpre Hst) as (_ & (m & ? & _) & _). congruence. }
  split.
  - split; simpl; try done.
    + intros k' m'. rewrite Hview, lookup_insert. case_decide; [|auto].
      intros [= <-]. subst. by split_and!.
    + intros _. split_and!; [done| |done]. eexists. by rewrite Hview, lookup_insert_eq.
  - intros old Ho. simplify_eq. split; simpl.
    + intros m ?. rewrite Hview, lookup_insert_ne by congruence. done.
    + unfold InstanceState_PrePrepared, InstanceState_Prepared in *. lia.
  - intros ->. done.
Qed.

(** The command filed in an instance has the instance's hash. *)
Definition cmd_ok (inst : instance) : Prop :=
  ∀ c, is_Command (i_is inst) = Some c →
    ∃ c', C c' ∧ (Command_Hash c').1 ≈ hash inst ∧ same_request c c'.

Lemma acceptPrePrepare_inv m from p inst :
  agreement_inv p → m_View m = v0 → from ∈ nodes → from ≠ j → from = v0 →
  (from ∉ Byz → votes from (m_Index m) (m_CommandHash m)) →
  p_log p !! m_Index m = Some inst → is_Some (hash inst) → cmd_ok inst →
  wp (acceptPrePrepare m from) (λ _, agreement_inv) p.
Proof.
  intros Hp Hv Hf Hfj Hfv Hvote Hi Hhs Hcmd. unfold acceptPrePrepare. cbv zeta. wp_step.
  eapply wp_with_inst; [done|]. intros inst1 Hin. outcome_inv.
  match goal with H : Quorum_log _ _ _ = Ret ?x |- _ => rename x into c1, H into Hlog1 end.
  assert (agreement_inv (put (m_Index m) (inst <| pCert := c1 |>) p)) as Hp2.
  { apply put_inv; [done|]. eapply pCert_ok; try done; auto. }
  wp_step. eapply wp_with_inst; [apply lookup_put|].
  intros inst2 [= <-]. wp_step. eapply wp_get_inst; [apply lookup_put|].
  wp_step. wp_step. wp_step. eapply wp_with_inst; [apply lookup_put|]. intros inst3 Hin. outcome_inv.
  match goal with H : Quorum_log _ ?pm0 _ = Ret ?x |- _ =>
    rename x into c2, H into Hlog2; set (pm := pm0) in * end.
  assert (pm = prep_of (m_Index m) (hash inst)) as Hpm.
  { unfold pm, prep_of. cbn. by destruct (ai_log _ Hp _ _ Hi) as [<- <- _ _ _]. }
  rewrite put_put. cbn in Hlog2. rewrite (ai_id _ Hp), Hpm in Hlog2.
  match goal with |- context [put (m_Index m) ?i (put _ _ p)] => set (inst3 := i) end.
  assert (agreement_inv (put (m_Index m) inst3 (put (m_Index m) (inst <| pCert := c1 |>) p))) as Hp3.
  { apply put_inv; [done|]. eapply own_vote_ok; try done. apply lookup_put. }
  wp_step. apply broadcast_inv; [done| |].
  - rewrite Hpm. intros _ _. simpl. exists inst3, (prep_of (m_Index m) (hash inst)).
    apply Quorum.log_strict_inv in Hlog2 as (_ & _ & _ & Hview). simpl in Hview.
    split_and!; [apply lookup_put| |reflexivity].
    cbn. by rewrite Hview, decide_True, lookup_insert_eq.
  - intros p4 Hp4 Hl4. eapply maybePrepare_inv; [done|by rewrite Hl4; apply lookup_put|..];
      by rewrite Hpm.
Qed.

Lemma updateCommand_spec m inst inst' c :
  updateCommand m inst = Ret inst' → m_Command m = Some c →
  ∃ oc, inst' = inst <| i_is ::= set is_Command (λ _, oc) |> ∧
    ∀ c1, oc = Some c1 → same_request c1 c.
Proof.
  unfold updateCommand. intros Hu Hm.
  destruct (is_Command (i_is inst)) as [c0|] eqn:Hc0.
  - unfold mbind, outcome_bind in Hu. destruct (Command_Equal _ _) as [[]| |] eqn:He; simplify_eq/=.
    rewrite Hm in He. apply Command_Equal_iff in He as [? _]. exists (Some c0).
    split; [by destruct inst' as [[] ? ?]; cbn in *; subst|]. by intros c1 [= <-].
  - simplify_eq. exists (m_Command m). split; [done|]. rewrite Hm. by intros c1 [= <-].
Qed.

Lemma onPrePrepare_inv m from p :
  agreement_inv p → m_View m = v0 → from ∈ nodes → from ≠ j →
  (from ∉ Byz → votes from (m_Index m) (m_CommandHash m)) →
  (∀ c, m_Command m = Some c → C c) →
  wp (onPrePrepare m from) (λ _, agreement_inv) p.
Proof.
  intros Hp Hv Hf Hfj Hvote HC. unfold onPrePrepare.
  wp_step. wp_step. wp_step. apply wp_lift. intros prim Hprim.
  apply isCurrentPrimary_spec in Hprim as ->; [|done].
  wp_step; [done|]. match goal with H : negb _ = false |- _ =>
    apply negb_false_iff, bool_decide_eq_true in H as Hfrom end.
  wp_step. apply wp_lift. intros [ok oc] Hok. destruct (m_Command m) as [c|] eqn:Hmc; [|done].
  apply checkCommandHash_spec in Hok as [-> Hok].
  wp_step; [done|]. destruct ok; [|done]. destruct Hok as [Hhs Hhc]; [done|].
  specialize (HC c eq_refl). wp_step. apply wp_fetch; simpl.
  - intros Hn. eapply acceptPrePrepare_inv; try done; [|apply lookup_put|done|].
    + apply put_inv; [done|]. pose proof (makeInstance_ok (m <| m_Command := Some c |>) p) as Hmk. by apply Hmk.
    + intros c' [= <-]. exists c. by split_and!.
  - intros inst inst' Hi Hin. outcome_inv.
    match goal with H : updateCommand _ _ = Ret _ |- _ =>
      eapply updateCommand_spec in H as (oc & -> & Hsame); [|done] end.
    apply updateCommandHash_spec in Hin as (h & -> & Hmh & Hh & Hhs1). simpl in *.
    assert (∀ c1, oc = Some c1 → ∃ c', C c' ∧ (Command_Hash c').1 ≈ h ∧ same_request c1 c') as Hoc.
    { intros c1 Hc1. exists c. split_and!; [done|by rewrite Hhc|auto]. }
    eapply acceptPrePrepare_inv; try done; [|apply lookup_put|by apply Hhs1|done].
    apply put_inv; [done|]. pose proof (update_ok (m_Index m) inst oc h p) as Hup. by apply Hup; auto.
Qed.

(** ** Requests *)
Lemma index_inv p n :
  agreement_inv p → (p_index p ≤ n)%Z → agreement_inv (p <| p_index := n |>).
Proof.
  intros Hp Hn. destruct Hp. split; try done; simpl.
  - lia.
  - intros i inst ? ? ?. eapply ai_primary0; [done..|lia].
Qed.

(** The instance of a request, with the primary's vote: [idx] is fresh. *)
Lemma own_request_ok idx cmd h c p :
  agreement_inv p → j = v0 → idx = p_index p → C cmd → Command_Hash cmd = (Some h, cmd) →
  (∀ old, p_log p !! idx = Some old → Quorum.view_msgs v0 (pCert old) !! j = None) →
  Quorum_log j (mkAM v0 idx AgreementMessage_PrePrepare (Some cmd) (Some h)) newQuorum = Ret c →
  can_put idx (mkInstance (mkIS v0 idx InstanceState_PrePrepared (Some cmd) (Some h)) c newQuorum) p.
Proof.
  intros Hp Hjv Hidx HC Hh Hfresh Hlog.
  apply Quorum.log_strict_inv in Hlog as (_ & _ & _ & Hview). simpl in *.
  specialize (Hview v0). rewrite decide_True in Hview by done. split.
  - split; simpl; try done.
    + intros k m. rewrite Hview, lookup_insert. case_decide; [|done].
      intros [= <-]. subst k. by split_and!.
    + intros _. split_and!; [done| |].
      * eexists. rewrite Hview, lookup_insert_eq. done.
      * intros c' [= <-]. exists cmd. by rewrite Hh.
  - intros old Ho. specialize (Hfresh old Ho). split; [naive_solver congruence|].
    intros Hst. destruct (io_pre _ _ (ai_log _ Hp _ _ Ho)) as (_ & (m & Hm & _) & _).
    { unfold InstanceState_PrePrepared, InstanceState_Prepared in *. lia. }
    congruence.
  - intros _ ?. lia.
Qed.

Lemma onRequest_inv cmd p :
  agreement_inv p → (p_index p + 1 < two64)%Z → C cmd →
  wp (onRequest cmd) (λ _, agreement_inv) p.
Proof.
  intros Hp Hlt HC. unfold onRequest. wp_step. wp_step.
  case_decide; [done|]. wp_step; [done|].
  match goal with H : bool_decide _ = false |- _ => apply bool_decide_eq_false in H as Hid end.
  assert (j = v0) as Hjv.
  { rewrite (ai_view _ Hp), (ai_nodes _ Hp), (ai_id _ Hp), Z.mod_small in Hid by apply Hset.
    destruct (decide (j = v0)); [done|]. by destruct Hid. }
  wp_step. wp_step. replace (p <| p_index ::= _ |>) with (p <| p_index := (p_index p + 1)%Z |>).
  2:{ unfold set, set_p_index. rewrite u64_id; [done|]. pose proof (ai_index _ Hp). lia. }
  destruct (Command_Hash cmd) as [h cmd'] eqn:Hh.
  assert (∃ x, h = Some x ∧ cmd' = cmd) as (x & -> & ->).
  { destruct (Marshal_Command (cmd <| c_TraceInfo := None |>)) as [b Hb].
    pose proof Hh as Hh'. unfold Command_Hash in Hh'. rewrite Hb in Hh'. simplify_eq.
    eexists; split; [done|]. by destruct cmd. }
  set (pA := p <| p_index := (p_index p + 1)%Z |>).
  assert (agreement_inv pA) as HpA by (apply index_inv; [done|lia]).
  wp_step. wp_step. wp_step. wp_step. change (p_index pA) with (p_index p + 1)%Z.
  change (p_view pA) with (p_view p). rewrite (ai_view _ Hp).
  wp_step. eapply wp_with_inst; [apply lookup_insert_eq|]. intros inst Hin. outcome_inv.
  match goal with H : Quorum_log _ _ _ = Ret ?x |- _ => rename x into c, H into Hlog end.
  change (p_id pA) with (p_id p) in Hlog. rewrite (ai_id _ Hp) in Hlog.
  match goal with |- context [put ?idx ?i (pA <| p_log ::= insert ?idx ?i0 |>)] =>
    change (put idx i (pA <| p_log ::= insert idx i0 |>)) with (put idx i (put idx i0 pA)) end.
  rewrite put_put. eapply own_request_ok in Hlog as Hcp; try done.
  - apply broadcast_inv.
    + by apply put_inv.
    + intros _ _. eexists _, _. split_and!; [apply lookup_put| |reflexivity].
      apply Quorum.log_strict_inv in Hlog as (_ & _ & _ & Hview). cbn in Hview |- *.
      by rewrite Hview, decide_True, lookup_insert_eq.
    + auto.
  - intros old Ho. eapply (ai_primary p); try done. lia.
Qed.

(** ** The pipeline of outgoing messages *)
Lemma worker_step_inv cap e p p' :
  agreement_inv p → worker_step cap e p = Some p' → agreement_inv p'.
Proof.
  intros Hp Hw. unfold worker_step in Hw. apply bind_Some in Hw as ([d cbs] & Hs & [= <-]).
  pose proof (Worker.step_conserves _ _ _ _ _ _ _ Hs) as Hc.
  destruct Hp. split; try done. simpl. by rewrite Hc.
Qed.

Lemma enqueue_inv to b c (Q : unit → PBFT → Prop) p :
  agreement_inv p → to ≠ j → backed p b →
  (∀ p', agreement_inv p' → p_log p' = p_log p → p_nodes p' = p_nodes p → Q tt p') →
  wp (enqueueForSending to b c) Q p.
Proof.
  intros Hp Hto Hb HQ. unfold enqueueForSending. wp_step. apply HQ; [|done..].
  destruct Hp. split; try done. simpl. apply Forall_app. split; [done|].
  apply Forall_singleton. simpl. by split_and!.
Qed.

(** Jobs are never sent to the replica itself. *)
Lemma send_signed_inv s cert p :
  agreement_inv p → job_ok p s →
  wp (send_signed s cert) (λ _, agreement_inv) p.
Proof.
  intros Hp [Hb Hs]. unfold send_signed. wp_step. wp_step.
  eapply wp_mono; [apply (wp_for_each (λ p1, agreement_inv p1 ∧ p_log p1 = p_log p))|]; [|done|naive_solver].
  intros node p1 _ [Hp1 Hl]. rewrite Hs. wp_step; [|done].
  match goal with H : false || _ = true |- _ =>
    rewrite orb_false_l in H; apply bool_decide_eq_true in H; rename H into Hne end.
  wp_step. wp_step. apply enqueue_inv; [done|by rewrite <-(ai_id _ Hp)|by eapply backed_log|].
  intros p2 ? Hl2 _. by rewrite Hl2.
Qed.

Lemma AsyncCallback_body_inv p : agreement_inv p → wp AsyncCallback_body (λ _, agreement_inv) p.
Proof.
  intros Hp. unfold AsyncCallback_body. wp_step. wp_step.
  destruct (p_callbackC p) as [|[s cert] rest] eqn:Hc; [done|]. wp_step. wp_step. wp_step.
  pose proof (ai_jobs _ Hp) as Hjobs. rewrite Hc in Hjobs. simpl in Hjobs.
  apply Forall_cons in Hjobs as [Hs Hjobs].
  eapply wp_mono; [apply send_signed_inv|by intros]; [|done].
  destruct Hp. by split.
Qed.

Lemma AsyncCallback_inv p : agreement_inv p → wp Pbft.AsyncCallback (λ _, agreement_inv) p.
Proof.
  intros Hp. unfold Pbft.AsyncCallback. wp_steps. apply (wp_loop agreement_inv); [|done].
  intros s Hs. eapply wp_mono; [by apply AsyncCallback_body_inv|]. by intros [] ? ?.
Qed.

(** ** Messages *)
Lemma Step_inv m am p :
  agreement_inv p → Unmarshal (msg_Content m) = Some (PBFTMessage_Agreement am) →
  msg_From m ∈ nodes → msg_From m ≠ j →
  (msg_From m ∉ Byz → m_Type am ≠ AgreementMessage_Commit → m_View am = v0 →
    votes (msg_From m) (m_Index am) (m_CommandHash am)) →
  (∀ c, m_Command am = Some c → C c) →
  wp (Pbft.Step m) (λ _, agreement_inv) p.
Proof.
  intros Hp Hu Hf Hfj Hvote HC. unfold Pbft.Step. rewrite Hu. wp_step; [done|].
  unfold stepAgreement. wp_step. wp_step. rewrite (ai_vc _ Hp).
  wp_step; [done|]. match goal with H : bool_decide _ = false |- _ =>
    apply bool_decide_eq_false in H as Hv end.
  apply dec_stable in Hv. rewrite (ai_view _ Hp) in Hv.
  unfold AgreementMessage_PrePrepare, AgreementMessage_Prepare, AgreementMessage_Commit in *.
  destruct (decide (m_Type am = 0)%Z) as [Ht|Ht]; [apply onPrePrepare_inv; try done; intros; apply Hvote; try done; lia|].
  destruct (decide (m_Type am = 1)%Z); [apply onPrepare_inv; try done; intros; apply Hvote; try done; lia|].
  destruct (decide (m_Type am = 2)%Z); [by apply onCommit_inv|done].
Qed.

(** ** Certificates of votes *)
Lemma prepared_certified p i inst (V : Z → Z → slice → Prop) :
  agreement_inv p → p_log p !! i = Some inst → (InstanceState_Prepared ≤ status inst)%Z →
  (∀ k h h', V k i h → h ≈ h' → V k i h') →
  (∀ k h, votes k i h → V k i h) → (∀ h, voted j p i h → V j i h) →
  Quorum.certified (list_to_set nodes) Byz f V i (hash inst).
Proof.
  intros Hp Hi Hst HV Hvo Hown. destruct (ai_log _ Hp _ _ Hi) as [? ? Hvotes _ Hprep].
  exists (Quorum.senders (prep_of i (hash inst)) (pCert inst)). split_and!.
  - intros k (m & Hm & _)%Quorum.elem_of_senders. apply elem_of_list_to_set. by eapply Hvotes.
  - rewrite Quorum.size_senders. auto.
  - intros k (m & Hm & (_ & _ & Hh)%AM_Equals_spec)%Quorum.elem_of_senders Hk. simpl in *.
    destruct (Hvotes k m Hm) as (_ & _ & Hvk). destruct (decide (k = j)) as [->|Hkj].
    + apply Hown. exists inst, m. by split_and!.
    + eapply HV; [by apply Hvo, Hvk|]. done.
Qed.
End replica.

(** ** The invariant of the system *)
Section system.
Context `{GoEnv, Codec Command, Codec PBFTMessage, Codec ViewChangeMessage, MapRange, Certifier}.
Context `{!GoEnvLaws, !AgreementCodecLaws}.
Context (nodes : list Z) (Byz : gset Z) (f : nat) (v0 : Z) (cap workers : nat).
Context (C : Command → Prop) `{!∀ c, Decision (C c)}.
Context (Hset : setting_ok nodes Byz f v0).

Abbreviation inv := (agreement_inv nodes Byz f v0 C).

Lemma inv_change j (V V' : Z → Z → slice → Prop) before own0 p :
  (∀ k i h, V k i h → V' k i h) → inv j V before own0 p →
  inv j V' before (voted v0 j p) p.
Proof.
  intros HV Hp. destruct Hp. split; try done.
  intros i inst Hi. destruct (ai_log0 i inst Hi) as [? ? Hvotes ? ?]. split; try done.
  intros k m Hm. destruct (Hvotes k m Hm) as (? & ? & ?). split_and!; auto.
Qed.

Definition sent_ok (j : Z) (p : PBFT) (m : Message) : Prop :=
  msg_From m = j ∧ msg_To m ≠ j ∧ backed v0 j p (msg_Content m).

(** The inputs of a replica's event that the guard promises. *)
Definition input_ok (j : Z) (V : Z → Z → slice → Prop) (e : event) (p : PBFT) : Prop :=
  match e with
  | Deliver m => ∃ am, Unmarshal (msg_Content m) = Some (PBFTMessage_Agreement am) ∧
      msg_From m ∈ nodes ∧ msg_From m ≠ j ∧
      (msg_From m ∉ Byz → m_Type am ≠ AgreementMessage_Commit → m_View am = v0 →
        V (msg_From m) (m_Index am) (m_CommandHash am)) ∧
      (∀ c, m_Command am = Some c → C c)
  | Submit _ cmd => C cmd ∧ (p_index p + 1 < two64)%Z
  | _ => True
  end.

Lemma effect_inv j V before own0 e p :
  j ∈ nodes → j ∉ Byz → inv j V before own0 p → input_ok j V e p →
  wp (effect cap e) (λ r p', inv j V (before ++ r.2) own0 p' ∧ Forall (sent_ok j p') r.1) p.
Proof.
  intros Hj Hjb Hp Hin. destruct e as [m|k cmd|k e|k|k|k|k]; simpl in *; wp_step.
  - destruct Hin as (am & ? & ? & ? & ? & ?).
    eapply wp_mono; [eapply (Step_inv nodes Byz f v0 C Hset j Hj Hjb V before own0); [done..|eassumption|done|done|done|done]|]. intros [] p' ?. cbn. by rewrite app_nil_r.
  - destruct Hin. eapply wp_mono; [eapply (onRequest_inv nodes Byz f v0 C Hset j Hj V before own0); done|]. intros [] p' ?. cbn. by rewrite app_nil_r.
  - wp_step. wp_step. simpl. rewrite app_nil_r. split; [|done].
    destruct (worker_step cap e p) eqn:Hw; [|done]. by eapply worker_step_inv.
  - eapply wp_mono; [by apply AsyncCallback_inv|]. intros [] p' ?. cbn. by rewrite app_nil_r.
  - unfold Pbft.MakeReady, Pbft.ClearMsgs. wp_steps. simpl. rewrite app_nil_r.
    destruct Hp. split; [by split|]. done.
  - unfold Pbft.MakeReady, Pbft.ClearExecutedCommands. wp_steps. simpl.
    destruct Hp. split; [|done]. split; try done; simpl; by rewrite app_nil_r.
  - unfold Pbft.Tick. wp_steps. simpl. rewrite app_nil_r. split; [|done]. destruct Hp. by split.
Qed.

Definition wvoted (w : world) (k i : Z) (h : slice) : Prop :=
  ∃ p, w_reps w !! k = Some p ∧ voted v0 k p i h.

Record world_inv (w : world) : Prop := {
  wi_reps j p : w_reps w !! j = Some p →
    j ∈ nodes ∧ (j ∉ Byz) ∧
    inv j (wvoted w) (default [] (w_done w !! j)) (λ _ _, False) p;
  wi_net m : m ∈ w_net w → ∃ p, w_reps w !! msg_From m = Some p ∧ sent_ok (msg_From m) p m;
}.

Lemma guard_input j p e w :
  world_inv w → w_reps w !! j = Some p → target e = j →
  guard nodes Byz cap C e p w = true → input_ok j (wvoted w) e p.
Proof.
  intros Hw Hp Ht Hg. destruct (wi_reps _ Hw _ _ Hp) as (Hj & Hjb & _).
  destruct e as [m|k cmd|k e|k|k|k|k]; simpl in *; try done; subst.
  - destruct (Unmarshal (msg_Content m)) as [[am| | | |]|] eqn:Hu; try done.
    apply andb_true_iff in Hg as [[Hf Hnet]%bool_decide_eq_true HC]. exists am.
    assert (msg_From m ∉ Byz → ∃ p', w_reps w !! msg_From m = Some p' ∧ sent_ok (msg_From m) p' m) as Hs.
    { intros ?. apply (wi_net _ Hw). by destruct Hnet. }
    split_and!; [done..| | |].
    + destruct (decide (msg_From m ∈ Byz)) as [|Hnb]; [congruence|].
      destruct (Hs Hnb) as (? & ? & ? & ? & ?). congruence.
    + intros Hnb Hty Hv. destruct (Hs Hnb) as (p' & ? & _ & _ & am' & ? & Hb).
      simplify_eq. exists p'. split; [done|]. by apply Hb.
    + intros c Hc. rewrite Hc in HC. by apply bool_decide_eq_true in HC.
  - by apply bool_decide_eq_true in Hg.
Qed.

Lemma world_step_inv e w w' :
  world_inv w → world_step nodes Byz cap C e w = Some w' → world_inv w'.
Proof.
  intros Hw Hs. unfold world_step in Hs. apply bind_Some in Hs as (p & Hp & Hs).
  destruct (guard _ _ _ _ e p w) eqn:Hg; [|done].
  destruct (effect cap e p) as [[[ms xs] p']| |] eqn:He; [|done..]. injection Hs as <-.
  set (j := target e) in *.
  destruct (wi_reps _ Hw _ _ Hp) as (Hj & Hjb & Hinv).
  pose proof (guard_input j p e w Hw Hp eq_refl Hg) as Hin.
  apply (inv_change _ _ (wvoted w)) in Hinv; [|done].
  pose proof (wp_run _ _ _ _ _ (effect_inv _ _ _ _ _ _ Hj Hjb Hinv Hin) He) as [Hinv' Hms].
  simpl in *.
  assert (∀ i h, voted v0 j p i h → voted v0 j p' i h) as Hown by apply (ai_own _ _ _ _ _ _ _ _ _ _ Hinv').
  set (w' := mkWorld _ _ _).
  assert (∀ k i h, wvoted w k i h → wvoted w' k i h) as HV.
  { intros k i h (q & Hq & Hv). unfold wvoted; simpl. rewrite lookup_insert. case_decide; subst; [|by exists q].
    simplify_eq. exists p'. auto. }
  split; simpl.
  - intros k q. rewrite !lookup_insert. case_decide; subst.
    + intros [= <-]. split_and!; [done..|]. simpl.
      eapply inv_change in Hinv'; [|done]. by destruct Hinv'; split.
    + intros Hq. destruct (wi_reps _ Hw _ _ Hq) as (? & ? & Hqi). split_and!; [done..|].
      eapply inv_change in Hqi; [|done]. by destruct Hqi; split.
  - intros m [Hm|Hm]%elem_of_app.
    + destruct (wi_net _ Hw m Hm) as (q & Hq & Hso). rewrite lookup_insert. case_decide as Hd; [|by eauto].
      exists p'. split; [done|]. destruct Hso as (? & ? & Hb). rewrite <-Hd in *. simplify_eq.
      split_and!; [done..|]. by eapply backed_mono.
    + rewrite Forall_forall in Hms. destruct (Hms m Hm) as (Hmf & ?). rewrite Hmf, lookup_insert_eq.
      exists p'. split; [done|]. by split.
Qed.

Lemma init_world_inv : world_inv (init_world nodes Byz f v0 cap workers).
Proof.
  split; [|by intros m ?%not_elem_of_nil].
  intros j p Hp. apply elem_of_list_to_map_2, list_elem_of_omap in Hp as (k & Hk & Hkp).
  unfold NewPBFT, config in Hkp. cbn in Hkp. rewrite !lookup_singleton_eq in Hkp. case_decide; simplify_eq/=. split_and!; [done..|].
  split; simpl; try done; try (by intros ??; rewrite lookup_empty).
  by rewrite Worker.NewDispatcher_pending.
Qed.

Lemma world_run_inv es w w' :
  world_inv w → world_run nodes Byz cap C es w = Some w' → world_inv w'.
Proof.
  revert w. induction es as [|e es IH]; intros w Hw Hr; simpl in Hr; [by simplify_eq|].
  apply bind_Some in Hr as (w1 & Hs & Hr). eapply IH; [|done]. by eapply world_step_inv.
Qed.

(** ** Agreement *)
Lemma wvoted_once w j i h1 h2 : wvoted w j i h1 → wvoted w j i h2 → h1 ≈ h2.
Proof.
  intros (p & Hp & inst & m & Hi & Hm & Hh1) (p2 & ? & inst2 & m2 & Hi2 & Hm2 & Hh2).
  simplify_eq. by rewrite <-Hh1.
Qed.

Lemma world_voting w : Quorum.voting_ok slice_eqv (list_to_set nodes) Byz f (wvoted w).
Proof.
  destruct Hset. split; [|done|].
  - by rewrite size_list_to_set.
  - intros j i h1 h2 _. apply wvoted_once.
Qed.

(** A replica that prepared an instance holds a certificate for its hash. *)
Lemma world_certified w j p i inst :
  world_inv w → w_reps w !! j = Some p → p_log p !! i = Some inst →
  (InstanceState_Prepared ≤ status inst)%Z →
  Quorum.certified (list_to_set nodes) Byz f (wvoted w) i (hash inst).
Proof.
  intros Hw Hp Hi Hst. destruct (wi_reps _ Hw _ _ Hp) as (? & ? & Hinv).
  eapply prepared_certified; try done.
  - intros k h h' (q & ? & inst' & m & ? & ? & ?) Hh. exists q. split; [done|].
    exists inst', m. split_and!; [done..|]. by rewrite <-Hh.
  - intros h ?. by exists p.
Qed.

(** At one index, two correct replicas prepare one hash. *)
Lemma world_prepared_agree w j1 j2 p1 p2 i inst1 inst2 :
  world_inv w → w_reps w !! j1 = Some p1 → w_reps w !! j2 = Some p2 →
  p_log p1 !! i = Some inst1 → p_log p2 !! i = Some inst2 →
  (InstanceState_Prepared ≤ status inst1)%Z → (InstanceState_Prepared ≤ status inst2)%Z →
  hash inst1 ≈ hash inst2.
Proof.
  intros. apply (Quorum.certified_unique slice_eqv (list_to_set nodes) Byz f (wvoted w) i);
    [apply world_voting|by eapply (world_certified w j1 p1)|by eapply (world_certified w j2 p2)].
Qed.

Lemma executed_done w j p k c :
  world_inv w → w_reps w !! j = Some p → executed j w !! k = Some c →
  done_ok C p (u64 (1 + Z.of_nat k)) c.
Proof.
  intros Hw Hp Hk. destruct (wi_reps _ Hw _ _ Hp) as (_ & _ & Hinv).
  apply (ai_done _ _ _ _ _ _ _ _ _ _ Hinv). unfold executed in Hk. by rewrite Hp in Hk.
Qed.

Lemma world_executed_agree w j1 j2 p1 p2 k c1 c2 :
  collision_free C → world_inv w → w_reps w !! j1 = Some p1 → w_reps w !! j2 = Some p2 →
  executed j1 w !! k = Some c1 → executed j2 w !! k = Some c2 → same_request c1 c2.
Proof.
  intros Hcf Hw Hp1 Hp2 Hc1 Hc2.
  apply (executed_done w j1 p1) in Hc1 as (inst1 & c1' & ? & ? & ? & Hh1 & ->); [|done..].
  apply (executed_done w j2 p2) in Hc2 as (inst2 & c2' & ? & ? & ? & Hh2 & ->); [|done..].
  apply Hcf; [done..|]. rewrite Hh1, Hh2. by eapply (world_prepared_agree w j1 j2 p1 p2).
Qed.
End system.
