(* ===== verification/PbftView.v ===== *)
(** * PBFT: termination, and what the view change checks

    Every handler of the agreement phase ends without running out of fuel, and
    so do the loops of the view change.  The second part is about the tests of
    the view change: what they count and what they leave out. *)
From S2P Require Import Prelude Command Worker Certifier Peer Pbft.
From S2P Require Quorum.
Import Pbft.

Section ends.
Context `{GoEnv, Codec Command, Codec PBFTMessage, Codec ViewChangeMessage, MapRange, Certifier}.

Lemma checkCommandHash_ends c h : checkCommandHash c h ≠ Diverge.
Proof. unfold checkCommandHash, Command_Hash_ptr. destruct c; simpl; [|done]. by destruct (Command_Hash _). Qed.
Lemma isCurrentPrimary_ends k p : isCurrentPrimary k p ≠ Diverge.
Proof. unfold isCurrentPrimary, isPrimaryAtView. ends_steps. Qed.
Lemma updateCommand_ends m i : updateCommand m i ≠ Diverge.
Proof. unfold updateCommand. ends_steps. Qed.
Lemma updateCommandHash_ends m i : updateCommandHash m i ≠ Diverge.
Proof. unfold updateCommandHash. ends_steps. Qed.
Lemma Quorum_log_ends k m q : Quorum_log k m q ≠ Diverge.
Proof. apply Quorum.log_ends. Qed.
Hint Resolve checkCommandHash_ends isCurrentPrimary_ends updateCommand_ends
  updateCommandHash_ends Quorum_log_ends : go_ends.

(** *** Execution: each round takes a command out of the log *)
Definition commands_left (p : PBFT) : nat :=
  size (filter (λ x : Z * instance, is_Some (is_Command (i_is x.2))) (p_log p)).

Lemma commands_left_put i inst inst' p :
  p_log p !! i = Some inst → is_Some (is_Command (i_is inst)) → is_Command (i_is inst') = None →
  size (filter (λ x : Z * instance, is_Some (is_Command (i_is x.2))) (<[i := inst']> (p_log p)))
    < commands_left p.
Proof.
  intros Hi Hs Hn. eapply map_filter_insert_size_lt; [done..|]. simpl. rewrite Hn. by intros [].
Qed.

Lemma exec_ends p : ends exec p.
Proof.
  change (ends (loop (S (size (p_log p))) exec_body) p). apply (loop_ends (λ _, True) commands_left); [|done|].
  - intros s _. split.
    + unfold exec_body, Execute. ends_steps.
    + unfold exec_body, Execute. wp_steps; try done. intros _. split; [done|].
      apply (commands_left_put _ b _ s); eauto.
  - unfold commands_left. apply Nat.lt_succ_r, map_subseteq_size, map_filter_subseteq.
Qed.
Hint Resolve exec_ends : go_ends.

(** *** The agreement handlers *)
Lemma with_inst_ends idx g p : (∀ i, g i ≠ Diverge) → ends (with_inst idx g) p.
Proof. intros Hg. unfold with_inst. ends_steps. Qed.
Lemma log_vote_ends idx k m p :
  ends (with_inst idx (λ i, c ← Quorum_log k m (pCert i); Ret (i <| pCert := c |>))) p.
Proof. apply with_inst_ends. intros i. ends_steps. Qed.
Hint Resolve log_vote_ends : go_ends.
Lemma get_inst_ends idx p : ends (get_inst idx) p.
Proof. unfold get_inst. ends_steps. Qed.
Lemma set_status_ends idx st p : ends (set_status idx st) p.
Proof. by apply with_inst_ends. Qed.
Lemma broadcast_ends m self p : ends (broadcast m self) p.
Proof. unfold broadcast. ends_steps. Qed.
Lemma sendTo_ends to m p : ends (sendTo to m) p.
Proof. unfold sendTo, enqueueForSending. ends_steps. Qed.
Lemma log_commit_ends idx k m p :
  ends (with_inst idx (λ i, c ← Quorum_log k m (cCert i); Ret (i <| cCert := c |>))) p.
Proof. apply with_inst_ends. intros i. ends_steps. Qed.
Hint Resolve get_inst_ends set_status_ends broadcast_ends sendTo_ends log_commit_ends : go_ends.

Lemma maybeCommit_ends idx cm p : ends (maybeCommit idx cm) p.
Proof. unfold maybeCommit. ends_steps. Qed.
Hint Resolve maybeCommit_ends : go_ends.
Lemma maybePrepare_ends idx m p : ends (maybePrepare idx m) p.
Proof. unfold maybePrepare. ends_steps. Qed.
Hint Resolve maybePrepare_ends : go_ends.
Lemma acceptPrePrepare_ends m from p : ends (acceptPrePrepare m from) p.
Proof. unfold acceptPrePrepare. ends_steps. Qed.
Lemma fetch_instance_ends checks m p :
  (∀ i, checks i ≠ Diverge) → ends (fetch_instance checks m) p.
Proof. intros Hc. unfold fetch_instance. ends_steps. Qed.
Lemma fetch_both_ends m m' p :
  ends (fetch_instance (λ i, i ← updateCommand m i; updateCommandHash m i) m') p.
Proof. apply fetch_instance_ends. intros i. ends_steps. Qed.
Lemma fetch_hash_ends m p : ends (fetch_instance (updateCommandHash m) m) p.
Proof. apply fetch_instance_ends. intros i. ends_steps. Qed.
Hint Resolve acceptPrePrepare_ends fetch_both_ends fetch_hash_ends : go_ends.

Lemma onPrePrepare_ends m from p : ends (onPrePrepare m from) p.
Proof. unfold onPrePrepare. ends_steps. Qed.
Lemma onPrepare_ends m from p : ends (onPrepare m from) p.
Proof. unfold onPrepare. ends_steps. Qed.
Lemma onCommit_ends m from p : ends (onCommit m from) p.
Proof. unfold onCommit. ends_steps. Qed.
Hint Resolve onPrePrepare_ends onPrepare_ends onCommit_ends : go_ends.

Lemma stepAgreement_ends m from p : ends (stepAgreement m from) p.
Proof. unfold stepAgreement. ends_steps. Qed.

Lemma onRequest_ends cmd p : ends (onRequest cmd) p.
Proof. unfold onRequest. ends_steps. Qed.

Lemma AsyncCallback_ends p : ends Pbft.AsyncCallback p.
Proof.
  change (ends (loop (S (length (p_callbackC p))) AsyncCallback_body) p).
  apply (loop_ends (λ _, True) (λ p, length (p_callbackC p))); [|done|lia].
  intros s _. unfold AsyncCallback_body. split.
  - unfold send_signed, enqueueForSending. ends_steps.
  - wp_step. wp_step. destruct (p_callbackC s) as [|[j cert] rest] eqn:Hc; [by wp_step|].
    wp_step. wp_step. wp_step. eapply wp_mono.
    + unfold send_signed. wp_step. wp_step.
      apply (wp_for_each (λ p, p_callbackC p = rest)); [|done].
      intros node p1 _ Hp1. wp_steps; done.
    + intros ? s1 Hs1. wp_step. intros _. simpl in Hs1. rewrite Hs1. simpl. split; [done|lia].
Qed.

(** *** The view change *)

(** The [PSet] entries of the messages the loops look at. *)
Definition pset_entries (SSet : list ViewChangeMessage) : list InstanceState := SSet ≫= vc_PSet.

Lemma getInstanceAtIndex_Some f SSet idx s :
  getInstanceAtIndex f SSet idx = Some s →
  s ∈ pset_entries SSet ∧ is_Index s = idx ∧ verifyA1 f s SSet = true ∧ verifyA2 f s SSet = true.
Proof.
  unfold getInstanceAtIndex. intros Hh%head_Some_elem_of.
  apply list_elem_of_filter in Hh as [Ht Hin]. apply Is_true_true, andb_true_iff in Ht as [Hi Ha].
  apply andb_true_iff in Ha as []. apply bool_decide_eq_true in Hi. by split_and!.
Qed.

(** Indices [1..k] that all occur are at most as many as the entries. *)
Lemma seen_bound (L : list Z) (k : nat) :
  (∀ i : nat, 1 ≤ i ≤ k → Z.of_nat i ∈ L) → k ≤ length L.
Proof.
  intros Hs. assert (Z.of_nat <$> seq 1 k ⊆+ L) as Hsub.
  { apply NoDup_submseteq.
    - apply NoDup_fmap_2; [apply _|apply NoDup_seq].
    - intros x (i & -> & Hi%elem_of_seq)%list_elem_of_fmap. apply Hs. lia. }
  apply submseteq_length in Hsub. by rewrite length_fmap, length_seq in Hsub.
Qed.

(** The loops have seen [1..k]: the fuel left is what the other entries allow. *)
Definition seen (f : Z) (SSet : list ViewChangeMessage) (k : nat) : Prop :=
  ∀ i : nat, 1 ≤ i ≤ k → is_Some (getInstanceAtIndex f SSet (Z.of_nat i)).

Lemma seen_entries f SSet k : seen f SSet k → k ≤ length (pset_entries SSet).
Proof.
  intros Hs. rewrite <-(length_fmap is_Index). apply seen_bound. intros i Hi.
  destruct (Hs i Hi) as [s (Hin & <- & _)%getInstanceAtIndex_Some]. by apply list_elem_of_fmap_2.
Qed.

Lemma seen_next f SSet k s :
  seen f SSet k → getInstanceAtIndex f SSet (1 + Z.of_nat k) = Some s → seen f SSet (S k).
Proof.
  intros Hs Hk i Hi. destruct (decide (i = S k)) as [->|]; [|apply Hs; lia].
  replace (Z.of_nat (S k)) with (1 + Z.of_nat k)%Z by lia. eauto.
Qed.

Lemma next_index f SSet k :
  (Z.of_nat (length (pset_entries SSet)) + 1 < two64)%Z → seen f SSet (S k) →
  u64 (1 + Z.of_nat k + 1) = (1 + Z.of_nat (S k))%Z.
Proof. intros Hl Hs%seen_entries. rewrite u64_id; lia. Qed.

Lemma nv_loop_ends f SSet maxIdx k inst hh :
  (Z.of_nat (length (pset_entries SSet)) + 1 < two64)%Z → seen f SSet k →
  nv_loop (nv_fuel SSet - k) f SSet (1 + Z.of_nat k) maxIdx inst hh ≠ Diverge.
Proof.
  intros Hl. remember (nv_fuel SSet - k) as fuel eqn:Hf. revert k inst hh Hf.
  induction fuel as [|fuel IH]; intros k inst hh Hf Hs; simpl.
  - pose proof (seen_entries _ _ _ Hs). unfold nv_fuel, pset_entries in *. lia.
  - case_decide; [|done]. destruct (getInstanceAtIndex _ _ _) eqn:Hg; [|done].
    pose proof (seen_next _ _ _ _ Hs Hg) as Hs'. rewrite (next_index _ _ _ Hl Hs').
    apply IH; [lia|done].
Qed.

Lemma verify_loop_ends f SSet maxIdx k insts :
  (Z.of_nat (length (pset_entries SSet)) + 1 < two64)%Z → seen f SSet k →
  verify_loop (nv_fuel SSet - k) f SSet (1 + Z.of_nat k) maxIdx insts ≠ Diverge.
Proof.
  intros Hl. remember (nv_fuel SSet - k) as fuel eqn:Hf. revert k Hf.
  induction fuel as [|fuel IH]; intros k Hf Hs; simpl.
  - pose proof (seen_entries _ _ _ Hs). unfold nv_fuel, pset_entries in *. lia.
  - case_decide; [|done]. destruct (getInstanceAtIndex _ _ _) eqn:Hg; [|done].
    destruct (negb _); [done|].
    pose proof (seen_next _ _ _ _ Hs Hg) as Hs'. rewrite (next_index _ _ _ Hl Hs').
    apply IH; [lia|done].
Qed.

(** The messages the loops collect are among those of the view's items. *)
Definition item_msgs (items : list vcItem) : list ViewChangeMessage := omap vcMessage items.

Lemma collect_inv entry acc acc' :
  collect entry acc = Ret acc' →
  ∃ vcm, vcMessage entry = Some vcm ∧ acc'.1.2 = acc.1.2 ++ [vcm].
Proof.
  unfold collect. destruct acc as [[pr SS] mx]. destruct (vcMessage entry) as [vcm|]; [|done].
  intros [= <-]. eauto.
Qed.

Lemma collect_all_valid_msgs entries acc acc' :
  collect_all_valid entries acc = Ret (Some acc') →
  acc'.1.2 = acc.1.2 ++ item_msgs entries.
Proof.
  revert acc. induction entries as [|e es IH]; intros acc Hc; simpl in Hc.
  { simplify_eq. by rewrite app_nil_r. }
  destruct (valid e); [|done]. outcome_inv.
  match goal with Hx : collect _ _ = Ret _ |- _ => apply collect_inv in Hx as (vcm & Hv & Ha) end.
  apply IH in Hc. unfold item_msgs in *. simpl. rewrite Hv, Hc, Ha. by rewrite <-app_assoc.
Qed.

Lemma collect_valid_msgs entries acc acc' :
  for_out entries acc (λ entry acc, if valid entry then collect entry acc else Ret acc) = Ret acc' →
  ∃ SS, acc'.1.2 = acc.1.2 ++ SS ∧ SS `sublist_of` item_msgs entries.
Proof.
  revert acc. induction entries as [|e es IH]; intros acc Hc; simpl in Hc.
  { simplify_eq. exists []. by rewrite app_nil_r. }
  outcome_inv. apply IH in Hc as (SS & Ha & Hs). unfold item_msgs in *. simpl.
  destruct (valid e).
  - match goal with Hx : collect _ _ = Ret _ |- _ => apply collect_inv in Hx as (vcm & Hv & Hb) end.
    rewrite Hv, Ha, Hb. exists (vcm :: SS). rewrite <-app_assoc. split; [done|]. by constructor.
  - outcome_inv. exists SS. split; [done|]. destruct (vcMessage e); [by constructor|done].
Qed.

Lemma pset_entries_sublist SS SS' :
  SS `sublist_of` SS' → length (pset_entries SS) ≤ length (pset_entries SS').
Proof. intros Hs. unfold pset_entries. induction Hs; rewrite ?bind_cons, ?length_app; lia. Qed.

Lemma collect_ends entry acc : collect entry acc ≠ Diverge.
Proof. unfold collect. ends_steps. Qed.
Hint Resolve collect_ends : go_ends.

(** The entries of the view's messages fit the index type. *)
Definition view_small (v : Z) (p : PBFT) : Prop :=
  (Z.of_nat (length (pset_entries (item_msgs (vc_items v p)))) + 1 < two64)%Z.

Lemma constructNewView_ends v p : view_small v p → ends (constructNewView v) p.
Proof.
  intros Hs. unfold constructNewView.
  apply (ends_bind_wp _ _ (λ q q', q = p ∧ q' = p)); [ends_steps|by wp_step|]. intros ? ? [-> ->].
  apply (ends_bind_wp _ _ (λ found q', found = None ∨ ∃ acc, found = Some acc ∧ acc.1.2 = item_msgs (vc_items v p))).
  - apply ends_lift. generalize (([], [], 0%Z) : nv_acc). induction (vc_items v p); intros acc; simpl;
      ends_steps; auto.
  - wp_step. destruct a as [acc|]; [right|by left].
    match goal with Hx : collect_all_valid _ _ = _ |- _ => apply collect_all_valid_msgs in Hx end.
    eauto.
  - intros [acc|] q' [?|(acc' & ? & Ha)]; simplify_eq; [|done]. destruct acc' as [[pr SS] mx].
    simpl in Ha. subst SS. ends_step; [|ends_steps]. apply ends_lift.
    pose proof (nv_loop_ends (p_f p) _ mx 0 ∅ true Hs) as Hn.
    rewrite Nat.sub_0_r, Z.add_0_r in Hn. apply Hn. intros i ?. lia.
Qed.

Lemma verifyNewView_ends m p : view_small (nv_NewView m) p → verifyNewView m p ≠ Diverge.
Proof.
  intros Hs. unfold verifyNewView. apply bind_ends.
  { apply for_out_ends. intros. ends_steps. }
  intros [[pr SS] mx] (SS' & Ha & Hsub)%collect_valid_msgs. simpl in Ha. subst SS.
  apply pset_entries_sublist in Hsub. unfold view_small in Hs.
  pose proof (verify_loop_ends (p_f p) SS' mx 0 (nv_Instances m)) as Hn.
  rewrite Nat.sub_0_r, Z.add_0_r in Hn. apply Hn; [lia|]. intros i ?. lia.
Qed.

Lemma processNewView_ends m from p :
  view_small (nv_NewView m) p → ends (processNewView m from) p.
Proof.
  intros Hs. unfold processNewView.
  apply (ends_bind_wp _ _ (λ q q', q = p ∧ q' = p)); [ends_steps|by wp_step|]. intros ? ? [-> ->].
  ends_step; [ends_steps|]. ends_step; [apply ends_lift; by apply verifyNewView_ends|].
  unfold adoptInstance. ends_steps.
Qed.
End ends.

(** ** What the view change checks *)
Section view_change.
Context `{GoEnv, Codec Command, Codec PBFTMessage, Codec ViewChangeMessage, MapRange, Certifier}.

(** With no valid view-change item for its view, every NewView passes. *)
Lemma verifyNewView_no_items m p :
  vq_messages (p_vcQuorum p) !! nv_NewView m = None → verifyNewView m p = Ret None.
Proof.
  intros Hn. unfold verifyNewView, vc_items. rewrite Hn. simpl.
  assert (range (∅ : gmap Z vcItem) = []) as ->; [|done].
  apply Permutation_nil_r. rewrite range_perm. by rewrite map_to_list_empty.
Qed.

Lemma isPrimaryAtView_Ret id view p :
  (0 < length (p_nodes p)) → isPrimaryAtView id view p =
    Ret (bool_decide (id = u64 (Z.rem (i64 view) (Z.of_nat (length (p_nodes p)))))).
Proof.
  intros Hn. unfold isPrimaryAtView, leader_of, go_rem. by rewrite decide_False by lia.
Qed.

(** A replica that is not the primary stops on an instance with no command. *)
Lemma onPrePrepare_nil m from p :
  isCurrentPrimary from p = Ret true → m_Command m = None →
  onPrePrepare m from p = Panic "nil Command".
Proof.
  intros Hp Hm. unfold onPrePrepare, mbind, M_bind, get, lift. rewrite Hp. simpl. by rewrite Hm.
Qed.

(** Condition A1 of a candidate fails on a message that holds two entries of
    one view and different hashes, whatever their indices. *)
Definition conflicting (v : Z) (vcm : ViewChangeMessage) : Prop :=
  ∃ s1 s2, s1 ∈ vc_PSet vcm ∧ s2 ∈ vc_PSet vcm ∧ is_View s1 = v ∧ is_View s2 = v ∧
    ¬ is_CommandHash s1 ≈ is_CommandHash s2.

Lemma A1_conflicting v vcm s :
  conflicting v vcm → (is_View s ≤ v)%Z → forallb (A1_entry s) (vc_PSet vcm) = false.
Proof.
  intros (s1 & s2 & Hi1 & Hi2 & Hv1 & Hv2 & Hne) Hs.
  destruct (forallb _ _) eqn:Hf; [|done]. destruct Hne.
  rewrite forallb_forall in Hf. unfold A1_entry in Hf.
  assert (∀ s', s' ∈ vc_PSet vcm → is_View s' = v → is_CommandHash s ≈ is_CommandHash s') as Heq.
  { intros s' Hin Hv'. apply list_elem_of_In, Hf, orb_true_iff in Hin as [Hlt|Hb].
    - apply bool_decide_eq_true in Hlt. lia.
    - apply andb_true_iff in Hb as [_ Hb]. by apply bytes_Equal_spec. }
  by rewrite <-(Heq s1), <-(Heq s2).
Qed.

Lemma verifyA1_conflicting f v SSet s :
  (0 ≤ f)%Z → Forall (conflicting v) SSet → (is_View s ≤ v)%Z → verifyA1 f s SSet = false.
Proof.
  intros Hf HS Hs. unfold verifyA1. apply bool_decide_eq_false.
  assert (filter (λ vcm, bool_decide (vc_LowIndex vcm < is_Index s)%Z
    && forallb (A1_entry s) (vc_PSet vcm)) SSet = []) as ->; [|simpl; lia].
  induction HS as [|vcm SSet Hc HS IH]; [done|]. rewrite filter_cons.
  rewrite (A1_conflicting _ _ _ Hc Hs), andb_false_r. by rewrite decide_False by auto.
Qed.

Lemma getInstanceAtIndex_conflicting f v SSet idx :
  (0 ≤ f)%Z → Forall (conflicting v) SSet →
  Forall (λ s, is_View s ≤ v)%Z (pset_entries SSet) → getInstanceAtIndex f SSet idx = None.
Proof.
  intros Hf HS Hv. destruct (getInstanceAtIndex f SSet idx) as [s|] eqn:Hg; [|done].
  apply getInstanceAtIndex_Some in Hg as (Hin & _ & HA1 & _).
  rewrite Forall_forall in Hv. rewrite (verifyA1_conflicting f v) in HA1; auto. done.
Qed.

(** Condition A2 counts the entries of one message. *)
Lemma verifyA2_one_message f s v lo hi PSet :
  verifyA2 (Z.of_nat f) s [mkVC v lo hi PSet (replicate (S f) s)] = true.
Proof.
  unfold verifyA2. apply bool_decide_eq_true. cbn [foldl vc_QSet].
  assert (∀ n, length (filter (λ s2, A2_entry s s2) (replicate n s)) = n) as Hn.
  { intros n. induction n as [|n IH]; [done|]. simpl replicate. rewrite filter_cons.
    rewrite decide_True; [simpl; by rewrite IH|].
    apply Is_true_true. unfold A2_entry. by rewrite bool_decide_true, bytes_Equal_refl. }
  rewrite Hn. lia.
Qed.
End view_change.

(** ** Signed messages *)
Section messaging.
Context `{Certifier}.

Lemma send_signed_spec j n p :
  p_nodes p = seqZ 0 (Z.of_nat n) → (Z.of_nat n * 32 < two64)%Z →
  length (CreateSignedCertificate (sj_mBytes j)) = 32 →
  send_signed j (sign_all n j) p =
    Ret (tt, p <| p_msgs ::= λ l, l ++
      ((λ node, mkMessage (p_id p) node (sj_mBytes j) (CreateSignedCertificate (sj_mBytes j)))
         <$> filter (λ node, sj_sendToSelf j = true ∨ node ≠ p_id p) (p_nodes p)) |>).
Proof.
  intros Hn Hsmall Hlen. unfold send_signed, mbind, M_bind, get.
  assert (∀ x, x ∈ p_nodes p → ∃ i : nat, x = Z.of_nat i ∧ i < n) as Hx.
  { rewrite Hn. intros x ?%elem_of_seqZ. exists (Z.to_nat x). lia. }
  assert (∀ l p1, p_id p1 = p_id p → (∀ x, x ∈ l → x ∈ p_nodes p) →
    for_each l (λ node, when (sj_sendToSelf j || bool_decide (node ≠ p_id p))
      (c ← lift (sub_slice (sign_all n j) (u64 (node * 32)) (u64 (u64 (node * 32) + 32)));
       enqueueForSending node (sj_mBytes j) c)) p1 =
    Ret (tt, p1 <| p_msgs ::= λ l', l' ++
      ((λ node, mkMessage (p_id p) node (sj_mBytes j) (CreateSignedCertificate (sj_mBytes j)))
         <$> filter (λ node, sj_sendToSelf j = true ∨ node ≠ p_id p) l) |>)) as Hl; [|by apply Hl].
  induction l as [|x l IH]; intros p1 Hid Hin.
  { simpl. unfold set, set_p_msgs. destruct p1; simpl. by rewrite app_nil_r. }
  assert (∀ y, y ∈ l → y ∈ p_nodes p) as Hin' by (intros; apply Hin; by right).
  cbn [for_each]. unfold mbind at 1, M_bind at 1. rewrite filter_cons.
  assert (sj_sendToSelf j || bool_decide (x ≠ p_id p) =
    bool_decide (sj_sendToSelf j = true ∨ x ≠ p_id p)) as ->.
  { destruct (sj_sendToSelf j); [done|rewrite orb_false_l].
    apply bool_decide_ext. naive_solver. }
  destruct (decide (sj_sendToSelf j = true ∨ x ≠ p_id p)) as [Hd|Hd];
    [rewrite bool_decide_true by exact Hd|rewrite bool_decide_false by exact Hd]; simpl.
  - destruct (Hx x (Hin x ltac:(by left))) as (i & -> & Hi).
    pose proof (sub_slice_join (CreateSignedCertificate (sj_mBytes j)) n i Hi) as Hs.
    rewrite Hlen in Hs. unfold mbind at 1, M_bind at 1, lift.
    rewrite (u64_id (Z.of_nat i * 32)), u64_id by lia.
    replace (Z.of_nat i * 32)%Z with (Z.of_nat (i * 32)) by lia.
    replace (Z.of_nat (i * 32) + 32)%Z with (Z.of_nat (i * 32 + 32)) by lia.
    unfold sign_all in *. rewrite Hs. cbn. rewrite IH by done. cbn.
    unfold set, set_p_msgs. simpl. rewrite Hid, <-app_assoc. done.
  - by apply IH.
Qed.
End messaging.
