(* ===== verification/Wire.v ===== *)
(** * A concrete codec and environment

    The marshallers, hash functions and map orders are parameters of the model
    ([Codec], [GoEnv], [MapRange]).  This file gives one concrete function for
    each, so that the definitions run and the theorems can be applied at
    concrete inputs: self-delimiting encodings [Wire], a checksum in place of
    SHA-256, and the order of [map_to_list]. *)
From S2P Require Import Prelude Command Certifier Peer.
From Stdlib Require Import Strings.Byte.

(** ** Self-delimiting encodings *)
Class Wire (A : Type) := {
  put : A → bytes;
  get_wire : bytes → option (A * bytes);
  wire_law a r : get_wire (put a ++ r) = Some (a, r);
}.

#[export] Instance wire_byte : Wire Byte.byte.
Proof.
  refine {|
  put b := [b];
  get_wire l := match l with b :: r => Some (b, r) | [] => None end
  |}.
  done.
Defined.

#[export] Instance wire_bool : Wire bool.
Proof.
  refine {|
  put (b : bool) := [if b then x01 else x00];
  get_wire l := match l with x00 :: r => Some (false, r) | x01 :: r => Some (true, r) | _ => None end
  |}.
  by intros [].
Defined.

Fixpoint put_pos (p : positive) : bytes :=
  match p with xH => [x00] | xO p => x01 :: put_pos p | xI p => x02 :: put_pos p end.
Fixpoint get_pos (l : bytes) : option (positive * bytes) :=
  match l with
  | x00 :: r => Some (xH, r)
  | x01 :: r => '(p, r) ← get_pos r; Some (xO p, r)
  | x02 :: r => '(p, r) ← get_pos r; Some (xI p, r)
  | _ => None
  end.

#[export] Instance wire_pos : Wire positive.
Proof.
  refine {| put := put_pos; get_wire := get_pos
  |}.
  intros p r. induction p as [p IH|p IH|]; simpl; by rewrite ?IH.
Defined.

#[export] Instance wire_Z : Wire Z.
Proof.
  refine {|
  put z := match z with Z0 => [x00] | Zpos p => x01 :: put p | Zneg p => x02 :: put p end;
  get_wire l :=
    match l with
    | x00 :: r => Some (Z0, r)
    | x01 :: r => '(p, r) ← get_wire r; Some (Zpos p, r)
    | x02 :: r => '(p, r) ← get_wire r; Some (Zneg p, r)
    | _ => None
    end
  |}.
  intros [] r; [done|..]; cbn -[get_wire put]; by rewrite wire_law.
Defined.

#[export] Instance wire_prod {A B} `{Wire A, Wire B} : Wire (A * B).
Proof.
  refine {|
  put ab := put ab.1 ++ put ab.2;
  get_wire l := '(a, l) ← get_wire l; '(b, l) ← get_wire l; Some ((a, b), l)
  |}.
  intros [a b] r; simpl. by rewrite <-app_assoc, wire_law; simpl; rewrite wire_law.
Defined.

#[export] Instance wire_option {A} `{Wire A} : Wire (option A).
Proof.
  refine {|
  put o := match o with None => [x00] | Some a => x01 :: put a end;
  get_wire l :=
    match l with
    | x00 :: r => Some (None, r)
    | x01 :: r => '(a, r) ← get_wire r; Some (Some a, r)
    | _ => None
    end
  |}.
  intros [a|] r; simpl; [by rewrite wire_law|done].
Defined.

(** Lists: a mark before each element; the fuel is the length of the input. *)
Fixpoint put_list {A} `{Wire A} (l : list A) : bytes :=
  match l with [] => [x00] | a :: l => x01 :: put a ++ put_list l end.
Fixpoint get_list {A} `{Wire A} (fuel : nat) (l : bytes) : option (list A * bytes) :=
  match fuel, l with
  | S _, x00 :: r => Some ([], r)
  | S fuel, x01 :: r => '(a, r) ← get_wire r; '(l, r) ← get_list fuel r; Some (a :: l, r)
  | _, _ => None
  end.

Lemma get_list_put {A} `{Wire A} (l : list A) r fuel :
  length l < fuel → get_list fuel (put_list l ++ r) = Some (l, r).
Proof.
  revert fuel. induction l as [|a l IH]; intros [|fuel] Hf; simpl in *; [lia|done|lia|].
  rewrite <-app_assoc, wire_law; simpl. by rewrite IH by lia.
Qed.

Lemma length_put_list {A} `{Wire A} (l : list A) : length l < length (put_list l).
Proof. induction l; simpl; rewrite ?length_app; lia. Qed.

#[export] Instance wire_list {A} `{Wire A} : Wire (list A).
Proof.
  refine {|
  put := put_list;
  get_wire l := get_list (length l) l
  |}.
  intros l r. apply get_list_put. rewrite length_app. pose proof (length_put_list l). lia.
Defined.

(** Along an isomorphism. *)
Definition wire_iso {A B} `{Wire B} (enc : A → B) (dec : B → A)
    (Hdec : ∀ a, dec (enc a) = a) : Wire A.
Proof.
  refine {|
    put a := put (enc a);
    get_wire l := '(b, l) ← get_wire l; Some (dec b, l)
  |}.
  intros a r. simpl. rewrite wire_law. simpl. by rewrite Hdec.
Defined.

#[export] Instance wire_string : Wire string :=
  wire_iso String.list_byte_of_string String.string_of_list_byte
    String.string_of_list_byte_of_string.

#[export] Instance wire_gmap {K V} `{Countable K, Wire K, Wire V} : Wire (gmap K V) :=
  wire_iso map_to_list list_to_map list_to_map_to_list.

(** ** Codecs *)
Definition wire_codec {A} (W : Wire A) : Codec A := {|
  Marshal a := Some (put a);
  Unmarshal l := match get_wire l with Some (a, []) => Some a | _ => None end;
|}.

Lemma wire_codec_law {A} (W : Wire A) (a : A) b :
  @Marshal _ (wire_codec W) a = Some b → @Unmarshal _ (wire_codec W) b = Some a.
Proof.
  simpl. intros [= <-]. pose proof (wire_law a []) as Hl. rewrite app_nil_r in Hl. by rewrite Hl.
Qed.

#[export] Instance wire_KVOp : Wire KVOp :=
  wire_iso (λ k, (kv_Key k, kv_Value k, kv_Read k)) (λ '(a, b, c), mkKVOp a b c)
    ltac:(by intros []).
#[export] Instance wire_Operation_Type : Wire Operation_Type :=
  wire_iso (λ '(Operation_KVOp o), o) Operation_KVOp ltac:(by intros []).
#[export] Instance wire_Operation : Wire Operation :=
  wire_iso op_Type mkOperation ltac:(by intros []).
#[export] Instance wire_Command : Wire Command :=
  wire_iso (λ c, (c_Timestamp c, c_Target c, c_Meta c, c_ConflictKey c, c_Ops c, c_TraceInfo c))
    (λ '(t, g, m, k, o, i), mkCommand t o g m k i) ltac:(by intros []).

(** ** The toy environment *)
Module Toy.
#[export] Instance Command_codec : Codec Command := wire_codec wire_Command.
Lemma command_marshals (c : Command) : is_Some (Marshal c).
Proof. by eexists. Qed.

(** The first [n] bytes, padded. *)
Definition digest (n : nat) (b : bytes) : bytes := take n (b ++ replicate n x00).

Lemma length_digest n b : length (digest n b) = n.
Proof. unfold digest. rewrite length_take, length_app, length_replicate. lia. Qed.

(** A checksum of all the bytes. *)
Definition checksum (b : bytes) : Z :=
  foldl (λ acc x, (acc * 257 + Z_of_byte x + 1) `mod` 2305843009213693951)%Z 7%Z b.

#[export] Instance env : GoEnv := {|
  sha256 := digest 32;
  hmac_sha256 k b := digest 32 b;
  sha512 b := le_encode 64 (checksum b);
  Sprintf_q := String.string_of_list_byte;
|}.

#[export] Instance env_laws : GoEnvLaws.
Proof.
  split; simpl; intros; try apply length_digest; try reflexivity.
  intros a b Hab. apply (f_equal String.list_byte_of_string) in Hab.
  by rewrite !String.list_byte_of_string_of_list_byte in Hab.
Qed.

#[export] Instance map_range : MapRange := {|
  range _ m := map_to_list m;
  range_perm _ m := reflexivity _;
|}.

(** Another order of iteration. *)
Definition rev_range : MapRange := {|
  range _ m := reverse (map_to_list m);
  range_perm _ m := reverse_Permutation _;
|}.

(** A command of a client. *)
Definition cmd (t target : Z) : Command :=
  mkCommand t [mkOperation (Some (Operation_KVOp (Some (mkKVOp (Some [x61]) (Some [x62]) false))))]
    target None (Some [x63]) None.
End Toy.
