(* ===== verification/PbftProps.v ===== *)
(** * The properties of PBFT, with runs of a concrete system

    [Demo] runs four replicas, one of them faulty, on the concrete codec of
    Wire.v.  The theorems are the properties of Pbft.v, of its agreement phase
    (proved in PbftSafety.v) and of its view change (PbftView.v). *)
From S2P Require Import Prelude Command Worker Certifier Peer Pbft PbftSafety PbftView Wire.
From S2P Require Quorum.
From Stdlib Require Import Strings.Byte.
Import Pbft.

Module Demo.
Import Toy.

#[export] Instance wire_IS : Wire InstanceState :=
  wire_iso (λ s, (is_View s, is_Index s, is_Status s, is_Command s, is_CommandHash s))
    (λ '(v, i, s, c, h), mkIS v i s c h) ltac:(by intros []).
#[export] Instance wire_AM : Wire AgreementMessage :=
  wire_iso (λ m, (m_View m, m_Index m, m_Type m, m_Command m, m_CommandHash m))
    (λ '(v, i, t, c, h), mkAM v i t c h) ltac:(by intros []).
#[export] Instance wire_VC : Wire ViewChangeMessage :=
  wire_iso (λ m, (vc_NewView m, vc_LowIndex m, vc_HighIndex m, vc_PSet m, vc_QSet m))
    (λ '(v, l, h, p, q), mkVC v l h p q) ltac:(by intros []).
#[export] Instance wire_VCA : Wire ViewChangeAckMessage :=
  wire_iso (λ m, (vca_NewView m, vca_AckFor m, vca_Digest m))
    (λ '(v, a, d), mkVCA v a d) ltac:(by intros []).
#[export] Instance wire_NVP : Wire NewViewProof :=
  wire_iso (λ m, (nvp_AckFor m, nvp_Digest m)) (λ '(a, d), mkNVP a d) ltac:(by intros []).
#[export] Instance wire_NV : Wire NewViewMessage :=
  wire_iso (λ m, (nv_NewView m, nv_NvProof m, nv_Instances m))
    (λ '(v, p, i), mkNV v p i) ltac:(by intros []).
#[export] Instance wire_PBFTMessage : Wire PBFTMessage :=
  wire_iso (λ m, match m with
    | PBFTMessage_Agreement m => (Some m, None, None, None)
    | PBFTMessage_ViewChange m => (None, Some m, None, None)
    | PBFTMessage_ViewChangeAck m => (None, None, Some m, None)
    | PBFTMessage_NewView m => (None, None, None, Some m)
    | PBFTMessage_nil => (None, None, None, None)
    end)
    (λ '(a, b, c, d), match a, b, c, d with
    | Some m, _, _, _ => PBFTMessage_Agreement m
    | _, Some m, _, _ => PBFTMessage_ViewChange m
    | _, _, Some m, _ => PBFTMessage_ViewChangeAck m
    | _, _, _, Some m => PBFTMessage_NewView m
    | _, _, _, _ => PBFTMessage_nil
    end) ltac:(by intros []).

#[export] Instance PBFTMessage_codec : Codec PBFTMessage := wire_codec wire_PBFTMessage.
#[export] Instance VC_codec : Codec ViewChangeMessage := wire_codec wire_VC.
#[export] Instance cert : Certifier := swCertifier.

#[export] Instance codec_laws : AgreementCodecLaws.
Proof.
  split; [by eexists|]. intros m b Hm. exists m. split; [by apply wire_codec_law|]. done.
Qed.

Definition nodes : list Z := [0; 1; 2; 3]%Z.
Definition Byz : gset Z := {[3%Z]}.
Definition cmd1 : Command := cmd 1 0.
Definition cmd2 : Command := cmd 2 0.
(** The commands of the run. *)
Definition C (c : Command) : Prop := c ∈ [cmd1; cmd2].
#[export] Instance C_dec c : Decision (C c).
Proof. unfold C. apply _. Defined.

Definition w0 : world := init_world nodes Byz 1 0 10 1.
Definition run (es : list event) (w : world) : world :=
  default w0 (world_run nodes Byz 10 C es w).

(** Sign, drain and hand over one message of replica [j]. *)
Definition send_one (j : Z) : list event :=
  [SignStep j (Worker.Register 0); SignStep j Worker.Take; SignStep j Worker.Assign;
   SignStep j (Worker.Done 0); Drain j; HandMsgs j].

Definition pending_at (w : world) (j : Z) : bool :=
  match w_reps w !! j with
  | Some p => negb (bool_decide (Worker.pending (p_signDispatcher p) = []))
  | None => false
  end.

(** The events of a run: replicas send what they signed, and messages are
    delivered in the order they were sent. *)
Fixpoint sched (n seen : nat) (w : world) : list event :=
  match n with
  | O => []
  | S n =>
      match filter (λ j, pending_at w j) [0; 1; 2]%Z with
      | j :: _ => send_one j ++ sched n seen (run (send_one j) w)
      | [] =>
          match w_net w !! seen with
          | None => []
          | Some m =>
              if bool_decide (msg_To m ∈ [0; 1; 2]%Z)
              then Deliver m :: sched n (S seen) (run [Deliver m] w)
              else sched n (S seen) w
          end
      end
  end.

(** Replica 3 is faulty: it prepares an index nobody proposed. *)
Definition byz_msg : Message :=
  let b := default [] (Marshal (PBFTMessage_Agreement
             (mkAM 0 5 AgreementMessage_Prepare None (Some [x01])))) in
  mkMessage 3 1 b (CreateSignedCertificate b).

Definition start : list event := [Submit 0 cmd1; Submit 0 cmd2; Deliver byz_msg].
Definition events : list event := start ++ sched 100 0 (run start w0).
Definition w_end : world := run events w0.

Lemma setting : setting_ok nodes Byz 1 0.
Proof.
  split.
  - repeat constructor; set_solver.
  - done.
  - by vm_compute.
  - intros x. unfold Byz, nodes. set_solver.
  - done.
  - done.
Qed.

Lemma no_collision : collision_free C.
Proof.
  intros c1 c2 Hc1 Hc2. unfold C in *.
  repeat match goal with H : _ ∈ _ :: _ |- _ => apply elem_of_cons in H as [->|H] end;
    try (by apply not_elem_of_nil in Hc1); try (by apply not_elem_of_nil in Hc2);
    intros Hh; try reflexivity; vm_compute in Hh; discriminate.
Qed.

Lemma run_ok : world_run nodes Byz 10 C events w0 = Some w_end.
Proof.
  assert (is_Some (world_run nodes Byz 10 C events w0)) as [w Hw].
  { apply (bool_decide_unpack _). vm_compute. exact I. }
  unfold w_end, run. by rewrite Hw.
Qed.

Lemma executed_ok j : j ∈ [0; 1; 2]%Z → executed j w_end = [cmd1; cmd2].
Proof.
  intros Hj. repeat (apply elem_of_cons in Hj as [->|Hj]; [vm_compute; reflexivity|]).
  exfalso; by apply not_elem_of_nil in Hj.
Qed.

(** A correct replica of the run. *)
Definition rep (j : Z) : PBFT := default (mkPBFT 0 [] ∅ 0 false 0 0 [] [] [] false 0 newVCQuorum 0
  (Worker.NewDispatcher 0) []) (w_reps w_end !! j).

Lemma rep_ok j : j ∈ [0; 1; 2]%Z → w_reps w_end !! j = Some (rep j).
Proof.
  intros Hj. assert (is_Some (w_reps w_end !! j)) as [p Hp].
  { repeat (apply elem_of_cons in Hj as [->|Hj]; [apply (bool_decide_unpack _); vm_compute; exact I|]).
    exfalso; by apply not_elem_of_nil in Hj. }
  unfold rep. by rewrite Hp.
Qed.
End Demo.

(** ** The agreement phase *)
Section agreement.
Context `{GoEnv, Codec Command, Codec PBFTMessage, Codec ViewChangeMessage, MapRange, Certifier}.
Context `{!GoEnvLaws, !AgreementCodecLaws}.
Context (nodes : list Z) (Byz : gset Z) (f : nat) (v0 : Z) (cap workers : nat).
Context (C : Command → Prop) `{!∀ c, Decision (C c)}.

(** C1.  Agreement: in every run of PBFT in a view, with at most [f] faulty
    replicas among at most [3f+1], the sequences of commands that two correct
    replicas have executed hold the same request at every position they
    share. *)
Theorem pbft_agreement es w i j p q k c1 c2 :
  setting_ok nodes Byz f v0 → collision_free C →
  world_run nodes Byz cap C es (init_world nodes Byz f v0 cap workers) = Some w →
  w_reps w !! i = Some p → w_reps w !! j = Some q →
  executed i w !! k = Some c1 → executed j w !! k = Some c2 → same_request c1 c2.
Proof.
  intros Hset Hcf Hr Hp Hq. eapply (world_executed_agree nodes Byz f v0 C Hset w i j p q); try done.
  eapply world_run_inv; [done| |done]. by apply init_world_inv.
Qed.

(** C22.  The state machine is replicated: correct replicas that execute equally
    many commands of a run from equivalent stores either both stop on a
    missing key or end in equivalent stores. *)
Theorem pbft_stores_agree es w i j p q n kv1 kv2 :
  setting_ok nodes Byz f v0 → collision_free C →
  world_run nodes Byz cap C es (init_world nodes Byz f v0 cap workers) = Some w →
  w_reps w !! i = Some p → w_reps w !! j = Some q →
  n ≤ length (executed i w) → n ≤ length (executed j w) → Applier.kv_eqv kv1 kv2 →
  Applier.same_store (Applier.executeAll (take n (executed i w)) kv1)
    (Applier.executeAll (take n (executed j w)) kv2).
Proof.
  intros Hset Hcf Hr Hp Hq Hi Hj Hkv. apply Applier.executeAll_eqv; [|done].
  apply Forall2_same_length_lookup_2; [rewrite !length_take; lia|].
  intros k c1 c2 [Hc1 _]%lookup_take_Some [Hc2 _]%lookup_take_Some.
  eapply (world_executed_agree nodes Byz f v0 C Hset w i j p q); try done.
  eapply world_run_inv; [done| |done]. by apply init_world_inv.
Qed.

(** C2.  The agreement phase refines the abstract voting specification: in every
    reachable state each correct replica's votes are one hash per index, and
    an instance a correct replica has prepared holds a certificate for the
    instance's hash. *)
Theorem pbft_refines_voting es w :
  setting_ok nodes Byz f v0 →
  world_run nodes Byz cap C es (init_world nodes Byz f v0 cap workers) = Some w →
  Quorum.voting_ok slice_eqv (list_to_set nodes) Byz f (wvoted v0 w) ∧
  ∀ j p i inst, w_reps w !! j = Some p → p_log p !! i = Some inst →
    IsAtleastPrepared (i_is inst) = true →
    Quorum.certified (list_to_set nodes) Byz f (wvoted v0 w) i (is_CommandHash (i_is inst)).
Proof.
  intros Hset Hr. split; [by apply world_voting|].
  intros j p i inst Hp Hi Hst%bool_decide_eq_true.
  eapply (world_certified nodes Byz f v0 C); try done.
  eapply world_run_inv; [done| |done]. by apply init_world_inv.
Qed.

(** C3.  Order and integrity of execution: a correct replica's next index follows
    the commands it has executed, and the k-th executed command is, up to
    [same_request], a command of the run whose hash is that of the instance
    at index k+1, which the replica has prepared. *)
Theorem pbft_executes_in_order es w j p :
  setting_ok nodes Byz f v0 →
  world_run nodes Byz cap C es (init_world nodes Byz f v0 cap workers) = Some w →
  w_reps w !! j = Some p →
  p_execute p = u64 (1 + Z.of_nat (length (executed j w))) ∧
  ∀ k c, executed j w !! k = Some c →
    ∃ inst c', p_log p !! u64 (1 + Z.of_nat k) = Some inst ∧
      IsAtleastPrepared (i_is inst) = true ∧
      C c' ∧ (Command_Hash c').1 ≈ is_CommandHash (i_is inst) ∧ same_request c c'.
Proof.
  intros Hset Hr Hp.
  assert (world_inv nodes Byz f v0 C w) as Hw.
  { eapply world_run_inv; [done| |done]. by apply init_world_inv. }
  split.
  - destruct (wi_reps _ _ _ _ _ _ Hw _ _ Hp) as (_ & _ & Hi).
    rewrite (ai_execute _ _ _ _ _ _ _ _ _ _ Hi). unfold executed. by rewrite Hp, length_fmap.
  - intros k c Hk. eapply executed_done in Hk as (inst & c' & ? & ? & ? & ? & ?); [|done..].
    exists inst, c'. split_and!; try done. by apply bool_decide_eq_true.
Qed.
End agreement.

Section agreement_witnesses.
Import Toy Demo.

Lemma pbft_agreement_witness :
  executed 0 w_end !! 0 = Some cmd1 ∧ executed 1 w_end !! 0 = Some cmd1 ∧ same_request cmd1 cmd1.
Proof.
  split; [by rewrite executed_ok by set_solver|]. split; [by rewrite executed_ok by set_solver|].
  apply (pbft_agreement nodes Byz 1 0 10 1 C events w_end 0 1 (rep 0) (rep 1) 0).
  - apply setting.
  - apply no_collision.
  - apply run_ok.
  - apply rep_ok. set_solver.
  - apply rep_ok. set_solver.
  - by rewrite executed_ok by set_solver.
  - by rewrite executed_ok by set_solver.
Defined.

Lemma pbft_stores_agree_witness :
  Applier.same_store (Applier.executeAll (take 2 (executed 0 w_end)) ∅)
    (Applier.executeAll (take 2 (executed 2 w_end)) ∅).
Proof.
  apply (pbft_stores_agree nodes Byz 1 0 10 1 C events w_end 0 2 (rep 0) (rep 2)).
  - apply setting.
  - apply no_collision.
  - apply run_ok.
  - apply rep_ok. set_solver.
  - apply rep_ok. set_solver.
  - by rewrite executed_ok by set_solver.
  - by rewrite executed_ok by set_solver.
  - intros k. rewrite lookup_empty. constructor.
Defined.

Lemma pbft_refines_voting_witness :
  Quorum.voting_ok slice_eqv (list_to_set nodes) Byz 1 (wvoted 0 w_end).
Proof.
  apply (pbft_refines_voting nodes Byz 1 0 10 1 C events w_end); [apply setting|apply run_ok].
Defined.

Lemma pbft_executes_in_order_witness : p_execute (rep 1) = 3%Z.
Proof.
  assert (p_execute (rep 1) = u64 (1 + Z.of_nat (length (executed 1 w_end)))) as Hx.
  { apply (pbft_executes_in_order nodes Byz 1 0 10 1 C events w_end 1 (rep 1));
      [apply setting|apply run_ok|apply rep_ok; set_solver]. }
  rewrite Hx, (executed_ok 1) by (right; left). reflexivity.
Defined.
End agreement_witnesses.

(** ** Termination, signing and error paths *)
Section handlers.
Context `{GoEnv, Codec Command, Codec PBFTMessage, Codec ViewChangeMessage, MapRange, Certifier}.

(** C31.  PBFT terminates.  The agreement handlers always end: for every state and
    every message, request or set of waiting callbacks, the loops of [exec] and
    [AsyncCallback] stop within the fuel they are given.  So do the loops of the
    view change, whatever the HighIndex of the messages says: they stop at the
    first index no PSet entry has, so that their rounds are bounded by the PSet
    entries (which must be fewer than 2^64-1 for the index not to wrap around). *)
Theorem pbft_terminates p m from cmd nv :
  (stepAgreement m from p ≠ Diverge ∧ onRequest cmd p ≠ Diverge ∧ Pbft.AsyncCallback p ≠ Diverge) ∧
  (view_small (nv_NewView nv) p →
   constructNewView (nv_NewView nv) p ≠ Diverge ∧ processNewView nv from p ≠ Diverge).
Proof.
  split; [split_and!; [apply stepAgreement_ends|apply onRequest_ends|apply AsyncCallback_ends]|].
  intros Hs. split; [by apply constructNewView_ends|by apply processNewView_ends].
Qed.

(**  The two closures of [broadcast] fit: for replicas numbered 0..n-1, a
    signed job becomes one message per destination, in order, each with a
    certificate of its own that the receiver's check accepts. *)
Theorem pbft_broadcast_certified j n p :
  CertifierLaws → p_nodes p = seqZ 0 (Z.of_nat n) → (Z.of_nat n * 32 < two64)%Z →
  length (CreateSignedCertificate (sj_mBytes j)) = 32 →
  ∃ new, send_signed j (sign_all n j) p = Ret (tt, p <| p_msgs ::= λ l, l ++ new |>) ∧
    msg_To <$> new = filter (λ node, sj_sendToSelf j = true ∨ node ≠ p_id p) (p_nodes p) ∧
    Forall (λ m, msg_From m = p_id p ∧ msg_Content m = sj_mBytes j ∧
                 VerifyCertificate (msg_Content m) (msg_Certificate m) = true) new.
Proof.
  intros ? Hn Hs Hl. eexists. split; [by apply send_signed_spec|]. split.
  - rewrite <-list_fmap_compose. apply list_fmap_id.
  - apply Forall_fmap, Forall_true. intros x. split_and!; [done..|]. apply Verify_Create.
Qed.

(**  An executed instance cannot go through a view change: execution drops
    the command of the instance, which stays at least prepared and so is
    reported to the next primary, and a backup that adopts it from a NewView
    panics. *)
Theorem pbft_executed_not_adoptable p p' :
  exec_body p = Ret (true, p') →
  ∃ inst, p_log p' !! p_execute p = Some inst ∧ IsAtleastPrepared (i_is inst) = true ∧
    is_Command (i_is inst) = None ∧
    ∀ m from q, isCurrentPrimary (p_id q) q = Ret false → isCurrentPrimary from q = Ret true →
      adoptInstance m from (i_is inst) q = Panic "nil Command".
Proof.
  intros He. unfold exec_body, mbind, M_bind, get in He.
  destruct (p_log p !! p_execute p) as [inst|] eqn:Hi; [|done].
  destruct (is_Command (i_is inst)) eqn:Hc; [|done].
  destruct (IsCommitted (i_is inst)) eqn:Hst; [|done]. cbn in He.
  unfold mret, M_ret in He. injection He as <-.
  eexists. split; [apply lookup_insert_eq|]. split_and!; [|done|].
  - apply bool_decide_eq_true in Hst. apply bool_decide_eq_true.
    unfold InstanceState_Committed, InstanceState_Prepared in *. cbn. lia.
  - intros m from q Hq Hf. unfold adoptInstance, mbind, M_bind, modify, get, lift.
    unfold isCurrentPrimary in *. cbn in *. unfold isPrimaryAtView in *. cbn in *. rewrite Hq.
    cbn. by rewrite onPrePrepare_nil.
Qed.

(** A Prepare of any replica but the primary with a hash other than the
    instance's stops the receiver: [updateCommandHash] panics. *)
Theorem pbft_wrong_hash_panics p m from inst :
  p_viewChanging p = false → m_View m = p_view p → m_Type m = AgreementMessage_Prepare →
  isCurrentPrimary from p = Ret false → p_log p !! m_Index m = Some inst →
  is_Some (is_CommandHash (i_is inst)) → ¬ is_CommandHash (i_is inst) ≈ m_CommandHash m →
  ∃ why, stepAgreement m from p = Panic why.
Proof.
  intros Hvc Hv Ht Hf Hi [h Hh] Hne. unfold stepAgreement, mbind, M_bind, get.
  rewrite Hvc, bool_decide_false, Ht by auto. simpl.
  unfold onPrepare, mbind, M_bind, get, lift. rewrite Hf. simpl.
  unfold fetch_instance, updateCommandHash, mbind, M_bind, get, lift. rewrite Hi, Hh in *.
  destruct (bytes_Equal _ _) eqn:He; [|by eexists]. by apply bytes_Equal_spec in He.
Qed.

(** A NewView needs no evidence: the leader of any view [v] other than the
    current one, even an older one, moves a replica that holds no
    view-change message for [v] into [v]. *)
Theorem pbft_new_view_unjustified p v from :
  isPrimaryAtView from v p = Ret true → v ≠ p_view p →
  vq_messages (p_vcQuorum p) !! v = None →
  ∃ p', onNewView (mkNV v [] ∅) from p = Ret (tt, p') ∧
    p_view p' = v ∧ p_viewChanging p' = false ∧ p_log p' = p_log p.
Proof.
  intros Hf Hv Hn. unfold onNewView, mbind, M_bind, get, lift. simpl. rewrite Hf. simpl.
  unfold processNewView, mbind, M_bind, get, lift. simpl.
  rewrite (bool_decide_false (p_view p = v)), andb_false_r by auto.
  rewrite verifyNewView_no_items by done.
  assert (range (∅ : gmap Z InstanceState) = []) as ->.
  { apply Permutation_nil_r. by rewrite range_perm, map_to_list_empty. }
  by eexists.
Qed.

(** Condition A1 looks at all entries of a view at once: when every
    view-change message holds two entries of one view with different hashes,
    for instance of two indices, no instance is chosen at any index. *)
Theorem pbft_new_view_stuck f v SSet idx :
  (0 ≤ f)%Z → Forall (conflicting v) SSet →
  Forall (λ s, is_View s ≤ v)%Z (pset_entries SSet) →
  getInstanceAtIndex f SSet idx = None.
Proof. apply getInstanceAtIndex_conflicting. Qed.

(** Condition A2 counts entries and not messages: a single view-change
    message with f+1 equal QSet entries satisfies it. *)
Theorem pbft_A2_counts_entries f s v lo hi PSet :
  verifyA2 (Z.of_nat f) s [mkVC v lo hi PSet (replicate (S f) s)] = true.
Proof. apply verifyA2_one_message. Qed.
End handlers.

Section handlers_witnesses.
Import Toy Demo.

Definition hash1 : slice := (Command_Hash cmd1).1.

(** Replica 2 in view 1, with instance 1 committed and not executed. *)
Definition committed : PBFT :=
  mkPBFT 2 nodes {[1%Z := mkInstance (mkIS 1 1 InstanceState_Committed (Some cmd1) hash1)
                            newQuorum newQuorum]}
    1 false 1 1 [] [] [] false 0 newVCQuorum 1 (Worker.NewDispatcher 1) [].

(** The same with a valid view-change item for view 2 whose [HighIndex] is the
    largest index. *)
Definition changing : PBFT :=
  committed <| p_vcQuorum := mkVCQuorum {[2%Z := {[0%Z := mkVCItem 0
    (Some (mkVC 2 0 (two64 - 1) [mkIS 1 1 InstanceState_Prepared (Some cmd1) hash1] []))
    None ∅ true]}]} ∅ |>.

Lemma pbft_terminates_witness :
  constructNewView 2 changing ≠ Diverge ∧ processNewView (mkNV 2 [] ∅) 2 changing ≠ Diverge.
Proof.
  destruct (pbft_terminates changing (mkAM 0 0 0 None None) 2 cmd1 (mkNV 2 [] ∅)) as [_ Hv].
  apply Hv. vm_compute. reflexivity.
Defined.

Lemma pbft_broadcast_certified_witness :
  ∃ new, send_signed (mkSignJob [x01] false) (sign_all 4 (mkSignJob [x01] false)) committed =
    Ret (tt, committed <| p_msgs ::= λ l, l ++ new |>) ∧ msg_To <$> new = [0; 1; 3]%Z.
Proof.
  destruct (pbft_broadcast_certified (mkSignJob [x01] false) 4 committed) as (new & Hs & Ht & _).
  - apply swCertifier_laws.
  - reflexivity.
  - reflexivity.
  - reflexivity.
  - exists new. split; [exact Hs|]. rewrite Ht. reflexivity.
Defined.

Lemma pbft_executed_not_adoptable_witness :
  ∃ p' inst, exec_body committed = Ret (true, p') ∧ p_log p' !! 1%Z = Some inst ∧
    adoptInstance (mkNV 1 [] ∅) 1 (i_is inst) committed = Panic "nil Command".
Proof.
  destruct (exec_body committed) as [[b p']| |] eqn:He; [|discriminate He|discriminate He].
  assert (b = true) as -> by (vm_compute in He; congruence).
  destruct (pbft_executed_not_adoptable _ _ He) as (inst & Hi & _ & _ & Ha).
  exists p', inst. split; [reflexivity|]. split; [exact Hi|]. apply Ha; reflexivity.
Defined.

Lemma pbft_wrong_hash_panics_witness :
  ∃ why, stepAgreement (mkAM 1 1 AgreementMessage_Prepare None (Some [x07])) 3 committed = Panic why.
Proof.
  eapply pbft_wrong_hash_panics; try reflexivity.
  - eexists. reflexivity.
  - intros Hh. vm_compute in Hh. discriminate.
Defined.

Lemma pbft_new_view_unjustified_witness :
  ∃ p', onNewView (mkNV 0 [] ∅) 0 committed = Ret (tt, p') ∧
    p_view p' = 0%Z ∧ p_viewChanging p' = false ∧ p_log p' = p_log committed.
Proof. apply pbft_new_view_unjustified; [reflexivity|discriminate|reflexivity]. Defined.

Lemma pbft_new_view_stuck_witness :
  getInstanceAtIndex 0 [mkVC 2 0 2 [mkIS 1 1 2 None (Some [x01]); mkIS 1 2 2 None (Some [x02])] []] 1
    = None.
Proof.
  apply (pbft_new_view_stuck 0 1); [lia| |].
  - apply Forall_singleton. eexists _, _. split; [by left|]. split; [by right; left|].
    split; [reflexivity|]. split; [reflexivity|]. intros Hh. vm_compute in Hh. discriminate.
  - repeat constructor; vm_compute; discriminate.
Defined.
End handlers_witnesses.
