(* ===== verification/RuntimeProps.v ===== *)
(** * The properties of the shared parts

    Commands, worker pools, the request tracker and buffer, the applier, the
    peer loop, the timers and the vote records. *)
From S2P Require Import Prelude Command Worker BucketWorker Tracker Peer Runs Wire.
From S2P Require Quorum.
From Stdlib Require Import Strings.Byte.

Section commands.
Context `{GoEnv, Codec Command}.

(**  [Command.Equal] decides equality of requests: it returns true exactly
    on commands with the same timestamp, target, conflict key and operations
    (nil and empty byte strings taken as one), whose operations all carry a
    case of the oneof; [Meta] and [TraceInfo] are not compared. *)
Theorem command_equal_decides m o :
  Command_Equal m (Some o) = Ret true ↔ same_request m o ∧ Forall typed (c_Ops m).
Proof. apply Command_Equal_iff. Qed.

(** [Command.Hash] leaves the command as it was when marshalling succeeds,
    its result does not depend on the trace field, and it is 32 bytes long. *)
Theorem command_hash_stable m h m' :
  GoEnvLaws → Command_Hash m = (Some h, m') →
  m' = m ∧ length h = 32 ∧ ∀ t, (Command_Hash (m <| c_TraceInfo := t |>)).1 = Some h.
Proof.
  intros Hlaws Hh. split_and!.
  - by eapply Command_Hash_restores.
  - unfold Command_Hash in Hh. destruct (Marshal _); simplify_eq. apply length_sha256.
  - intros t. by rewrite Command_Hash_TraceInfo, Hh.
Qed.
End commands.

Section pools.
Context {P R : Type} (execFunc : P → R).

(** C29.  The worker pool loses, duplicates and invents no job: in every run the
    jobs called back and the jobs still pending are the jobs submitted, each
    callback has its job's result, and with at least one worker some run
    calls all of them back. *)
Theorem worker_pool_serves cap n (jobs : list P) :
  0 < cap → 0 < n →
  let d := foldr Worker.Exec (Worker.NewDispatcher n) jobs in
  (∀ es d' out, Worker.run execFunc cap es d = Some (d', out) →
    out.*1 ++ Worker.pending d' ≡ₚ jobs ∧ Forall (λ c, c.2 = execFunc c.1) out) ∧
  ∃ es d' out, Worker.run execFunc cap es d = Some (d', out) ∧ out.*1 ≡ₚ jobs.
Proof.
  intros Hcap Hn d.
  assert (Worker.pool_ok d ∧ Worker.pending d ≡ₚ jobs ∧ length (Worker.d_workers d) = n) as (Hok & Hp & Hl).
  { subst d. induction jobs as [|j jobs (Hok & Hp & Hl)]; simpl.
    - rewrite Worker.NewDispatcher_pending. split_and!; [apply Worker.NewDispatcher_ok|done|].
      apply length_replicate.
    - split_and!; [by apply Worker.Exec_ok|by rewrite Worker.Exec_pending, Hp|done]. }
  assert (∀ es d' out, Worker.run execFunc cap es d = Some (d', out) →
    out.*1 ++ Worker.pending d' ≡ₚ jobs ∧ Forall (λ c, c.2 = execFunc c.1) out) as Hall.
  { intros es d' out Hr. destruct (Worker.run_conserves _ _ _ _ _ _ Hok Hr) as (_ & Hc & ?).
    by rewrite Hc, Hp. }
  split; [done|].
  destruct (Worker.run_completes execFunc cap d) as (es & d' & out & Hr & He); [done|lia|done|].
  exists es, d', out. split; [done|]. destruct (Hall _ _ _ Hr) as [Hperm _].
  by rewrite He, app_nil_r in Hperm.
Qed.

(**  The bucket pool is a queue per bucket: in every run, the callbacks of a
    bucket followed by its pending jobs are the jobs submitted to that bucket,
    in the order of submission. *)
Theorem bucket_pool_fifo cap n maxJobs ops d cbs b :
  bucket_run execFunc cap ops (BucketWorker.NewBucketDispatcher maxJobs n) [] = Ret (Some (d, cbs)) →
  BucketWorker.in_bucket b cbs.*1 ++ BucketWorker.bucket_pending b d = submitted b ops.
Proof.
  intros Hr. apply (bucket_run_fifo _ _ _ _ _ _ _ b) in Hr; [|apply NewBucketDispatcher_ok].
  rewrite Hr. unfold BucketWorker.bucket_pending; simpl.
  destruct (replicate n _ !! b) as [w|] eqn:Hw; [|done].
  by apply lookup_replicate in Hw as [-> _].
Qed.
End pools.

(** C27.  The tracker answers the right clients: in every run from an empty
    tracker, a result is sent only on a channel that was registered for the
    result's target and timestamp, and only if that result was finished; and a
    channel gets at most as many results as it has registrations. *)
Theorem tracker_answers ops pr out :
  tracker_run ops MakeTracker = (pr, out) →
  (∀ c r, Send c r ∈ out → OpFinish r ∈ ops ∧ (c, res_tid r) ∈ registered ops) ∧
  ∀ c, count_sends c out ≤ count_registers c ops.
Proof.
  intros Hr. split.
  - apply (tracker_run_ok [] ops MakeTracker pr); [|done]. by split.
  - intros c. apply (tracker_run_sends c) in Hr.
    change (waits c MakeTracker) with 0 in Hr. lia.
Qed.

(** C28.  The request buffer loses and reorders nothing it accepted: as long as
    the 32-bit counter cannot overflow, the batches flushed, followed by what the
    buffer still holds, are the accepted elements in order. *)
Theorem request_buffer_fifo ops threshold :
  (Z.of_nat (length ops) < 2147483648)%Z →
  ∃ b acc batches, ReqBuf.run ops (ReqBuf.init threshold) = Ret (b, acc, batches) ∧
    concat batches ++ ReqBuf.contents b = Some <$> acc.
Proof.
  intros Hn. destruct (ReqBuf.run_spec ops (ReqBuf.init threshold)) as (b & acc & fl & Hr & Heq).
  { by apply ReqBuf.init_ok. }
  exists b, acc, fl. split; [done|]. by rewrite Heq.
Qed.

(** C18.  The applier implements a map from keys to values: on a store that
    represents a map, [executeCommand] gives the results of the abstract
    operations and a store that represents the new map, and it stops exactly
    when the abstract operations are undefined (a read of a missing key, or an
    operation without content). *)
Theorem applier_refines_map `{GoEnv} cmd kv s :
  GoEnvLaws → Applier.represents kv s →
  match Applier.spec_ops (c_Ops cmd) s with
  | Some (rs, s') => ∃ kv',
      Applier.executeCommand cmd kv =
        Ret (mkCommandResult (c_Timestamp cmd) rs (c_Target cmd) None, kv') ∧
      Applier.represents kv' s'
  | None => ∃ why, Applier.executeCommand cmd kv = Panic why
  end.
Proof.
  intros Hlaws Hr. pose proof (Applier.execOps_spec (c_Ops cmd) kv s Hr) as Hs.
  unfold Applier.executeCommand. destruct (Applier.spec_ops _ _) as [[rs s']|].
  - destruct Hs as (kv' & -> & ?). by exists kv'.
  - destruct Hs as (why & ->). by exists why.
Qed.

(** The peer executes what its protocol ordered, in order: in every run of
    the peer's goroutines, the packets executed, followed by those in the
    applier, in its channel and in the blocked send, are the packets that were
    there at the start followed by those handed over; and what an iteration of
    the loop hands over is what the protocol's [MakeReady] returned in it. *)
Theorem peer_applies_in_order `{GoEnv, Codec Command, Codec CommandResult} {P} `{Protocol P}
    (p p' : Peer P) handed_over executed_pkts :
  peer_run p handed_over executed_pkts p' →
  executed_pkts ++ backlog p' = backlog p ++ handed_over ∧
  ∀ p0 p1, enabled EvRun p0 = true → peer_step EvRun p0 = Ret (tt, p1) →
    ∃ n rd n', MakeReady n = Ret (rd, n') ∧ handed EvRun p1 = rd_OrderedCommands rd.
Proof. intros Hr. split; [by apply peer_run_backlog|apply Run_step_ready]. Qed.

(** C14.  A peer refines its protocol: however the goroutines of the peer and the
    worker threads of the protocol interleave, the protocol makes a run through
    its interface alone, in which it hands over the packets that the peer takes;
    and the packets executed, followed by those on the way to the store, are
    those that were on the way at the start followed by the packets handed over.
    What holds of every run of a protocol thus holds under the peer. *)
Theorem peer_refines_runs `{GoEnv, Codec Command, Codec CommandResult} {P} `{Protocol P}
    (other : P → P → Prop) (p p' : Peer P) handed_over executed_pkts :
  system_run other p handed_over executed_pkts p' →
  runs other [] (pr_n p) handed_over (pr_n p') ∧
  executed_pkts ++ backlog p' = backlog p ++ handed_over.
Proof. intros Hr. split; [by apply (system_run_runs _ _ _ _ _ []) in Hr|by eapply system_run_backlog]. Qed.

(** An infinite timer armed [e] ticks ago fires once every [timeout] ticks. *)
Theorem infinite_timer_period {A} (timeout n e : nat) (a : A) :
  e < timeout →
  Timer.ticks n (Timer.armed timeout e a) =
    (Timer.armed timeout ((e + n) mod timeout) a, replicate ((e + n) / timeout) a).
Proof. apply Timer.ticks_armed. Qed.

(** C21.  A majority counts senders: when messages logged one after the other
    from an empty quorum are all accepted, no sender occurs twice in a view, and
    [Majority] holds of a message exactly when more than [thr] of the logged
    messages have its view and are equal to it. *)
Theorem quorum_counts_senders {Msg} `{Quorum.QMsg Msg} (l : list (Z * Msg)) q thr m :
  (0 ≤ thr)%Z → Quorum.log_all l Quorum.newQuorum = Ret q →
  NoDup ((λ x, (Quorum.q_view x.2, x.1)) <$> l) ∧
  (Quorum.Majority thr m q = true ↔
   (thr < Z.of_nat (length (filter (λ x, Quorum.counts m x.2 = true) l)))%Z).
Proof.
  intros Hthr Hl. split; [by eapply Quorum.log_all_new|].
  rewrite Quorum.Majority_spec, (Quorum.log_all_count _ _ _ m Hl) by done.
  assert (size (Quorum.matching m Quorum.newQuorum) = 0) as ->.
  { unfold Quorum.matching, Quorum.view_msgs. simpl. rewrite lookup_empty. simpl. by rewrite map_filter_empty. }
  by rewrite Nat.add_0_r.
Qed.

(** ** Concrete runs *)
Module RuntimeDemo.
Import Toy.

(** A protocol that orders every request at once. *)
Definition Echo : Type := list ExecPacket.
#[export] Instance Echo_Protocol : Protocol Echo := {|
  Step _ := mret tt;
  Tick := mret tt;
  Request c := modify (λ l, l ++ [exec_pkt c]);
  Callback _ := mret tt;
  MakeReady := gets (λ l, mkReady [] l);
  ClearMsgs := mret tt;
  ClearExecutedCommands := modify (λ _, []);
  AsyncCallback := mret tt;
|}.
#[export] Instance Result_codec : Codec CommandResult :=
  {| Marshal _ := Some []; Unmarshal _ := None |}.

Definition peer0 : Peer Echo :=
  mkPeer 0 4 [] (ReqBuf.init 0) MakeTracker [] [] [] None [] false ∅ false [] [].
Definition peer_events : list peer_event :=
  [EvCommand (ReqBuf.mkElem (cmd 1 0) 7); EvCommand (ReqBuf.mkElem (cmd 2 0) 8); EvRun;
   EvPushApply; EvTake; EvPkt].
End RuntimeDemo.

Section runtime_witnesses.
Import Toy RuntimeDemo.

Lemma command_hash_stable_witness :
  ∃ h, Command_Hash (cmd 1 0) = (Some h, cmd 1 0) ∧ length h = 32.
Proof.
  destruct (Command_Hash (cmd 1 0)) as [[h|] m'] eqn:Hh; [|discriminate Hh].
  destruct (command_hash_stable _ _ _ env_laws Hh) as (-> & Hl & _). exists h. split; [reflexivity|exact Hl].
Defined.

Lemma worker_pool_serves_witness :
  ∃ es d' out, Worker.run S 3 es (foldr Worker.Exec (Worker.NewDispatcher 2) [1; 2; 3]) = Some (d', out) ∧
    out.*1 ≡ₚ [1; 2; 3].
Proof. apply (worker_pool_serves S 3 2 [1; 2; 3]); repeat constructor. Defined.

Definition bucket_ops : list (bucket_op (P := nat)) :=
  [Submit 4 1; Submit 5 0; Submit 6 1; Ev BucketWorker.Take; Ev BucketWorker.Send;
   Ev (BucketWorker.Receive 1); Ev (BucketWorker.Done 1)].

Lemma bucket_pool_fifo_witness :
  ∃ d cbs, bucket_run S 9 bucket_ops (BucketWorker.NewBucketDispatcher 4 2) [] = Ret (Some (d, cbs)) ∧
    BucketWorker.in_bucket 1 cbs.*1 ++ BucketWorker.bucket_pending 1 d =
      [BucketWorker.mkJob 4 1; BucketWorker.mkJob 6 1].
Proof.
  destruct (bucket_run S 9 bucket_ops (BucketWorker.NewBucketDispatcher 4 2) [])
    as [[[d cbs]|]| |] eqn:Hr; try discriminate Hr.
  exists d, cbs. split; [reflexivity|]. exact (bucket_pool_fifo S 9 2 4 bucket_ops d cbs 1 Hr).
Defined.

Lemma tracker_answers_witness :
  count_sends 7 (tracker_run [OpRegister (cmd 1 0) 7; OpFinish (mkCommandResult 1 [] 0 None)]
                   MakeTracker).2 ≤ 1.
Proof.
  destruct (tracker_run _ _) as [pr out] eqn:Hr. exact (proj2 (tracker_answers _ _ _ Hr) 7).
Defined.

Lemma request_buffer_fifo_witness :
  ∃ b acc batches, ReqBuf.run [ReqBuf.Add (ReqBuf.mkElem (cmd 1 0) 7); ReqBuf.Flush true;
      ReqBuf.Add (ReqBuf.mkElem (cmd 2 0) 8)] (ReqBuf.init 5) = Ret (b, acc, batches) ∧
    concat batches ++ ReqBuf.contents b = Some <$> acc.
Proof. apply request_buffer_fifo. reflexivity. Defined.

Lemma applier_refines_map_witness :
  ∃ kv', Applier.executeCommand (cmd 1 0) ∅ =
      Ret (mkCommandResult 1 [Applier.write_result (Some [x61]) None] 0 None, kv') ∧
    Applier.represents kv' {[ [x61] := Some [x62] ]}.
Proof.
  apply (applier_refines_map (cmd 1 0) ∅ ∅ env_laws). reflexivity.
Defined.

Lemma peer_applies_in_order_witness :
  ∃ hs xs p', peer_run peer0 hs xs p' ∧ hs = [exec_pkt (cmd 1 0); exec_pkt (cmd 2 0)] ∧
    xs ++ backlog p' = hs.
Proof.
  destruct (peer_exec peer_events peer0) as [[[hs xs] p']|] eqn:Hr; [|vm_compute in Hr; discriminate].
  assert (hs = [exec_pkt (cmd 1 0); exec_pkt (cmd 2 0)]) as Hhs by (vm_compute in Hr; injection Hr as <- _ _; reflexivity).
  pose proof (peer_exec_run _ _ _ _ _ Hr) as Hrun.
  exists hs, xs, p'. split; [exact Hrun|]. split; [exact Hhs|].
  exact (proj1 (peer_applies_in_order _ _ _ _ Hrun)).
Defined.

Lemma peer_refines_runs_witness :
  ∃ hs p', hs = [exec_pkt (cmd 1 0); exec_pkt (cmd 2 0)] ∧
    runs (λ _ _ : Echo, False) [] [] hs (pr_n p').
Proof.
  destruct (peer_exec peer_events peer0) as [[[hs xs] p']|] eqn:Hr; [|vm_compute in Hr; discriminate].
  assert (hs = [exec_pkt (cmd 1 0); exec_pkt (cmd 2 0)]) as Hhs by (vm_compute in Hr; injection Hr as <- _ _; reflexivity).
  exists hs, p'. split; [exact Hhs|].
  apply (peer_refines_runs (λ _ _ : Echo, False) peer0 p' hs xs).
  apply peer_run_system, (peer_exec_run _ _ _ _ _ Hr).
Defined.

Lemma infinite_timer_period_witness :
  Timer.ticks 7 (Timer.armed 3 0 tt) = (Timer.armed 3 1 tt, [tt; tt]).
Proof. apply (infinite_timer_period 3 7 0 tt). repeat constructor. Defined.

(** Votes of a small protocol: a view and a value. *)
Definition vote_QMsg : Quorum.QMsg (Z * Z) :=
  {| Quorum.q_view := fst; Quorum.q_Equals a b := bool_decide (a = b) |}.

Definition votes : list (Z * (Z * Z)) := [(0, (1, 5)); (1, (1, 5)); (2, (1, 6))]%Z.

Lemma quorum_counts_senders_witness :
  ∃ q, @Quorum.log_all _ vote_QMsg votes Quorum.newQuorum = Ret q ∧
    @Quorum.Majority _ vote_QMsg 1 (1, 5)%Z q = true.
Proof.
  destruct (@Quorum.log_all _ vote_QMsg votes Quorum.newQuorum) as [q| |] eqn:Hl;
    [|vm_compute in Hl; discriminate|vm_compute in Hl; discriminate].
  exists q. split; [reflexivity|].
  apply (@quorum_counts_senders _ vote_QMsg votes q 1 (1, 5)%Z); [lia|exact Hl|vm_compute; reflexivity].
Defined.
End runtime_witnesses.
