(* ===== verification/MirBft.v ===== *)
(** * MirBFT (src/protocols/mirbft)

    Several leaders at once: the replicas of an epoch's leader set propose at
    indices of their own (index modulo the number of leaders), and each index
    goes through the three phases of PBFT.  One Rocq definition per Go
    function, in the state-and-panic monad [M MirBFT]. *)
From S2P Require Import Prelude Command Worker Certifier Peer.
From S2P Require Quorum.
Import Worker (Dispatcher, NewDispatcher).

Module MirBft.

(** ** Data (mirbftpb) *)
Definition InstanceState_None : Z := 0.
Definition InstanceState_PrePrepared : Z := 1.
Definition InstanceState_Prepared : Z := 2.
Definition InstanceState_Committed : Z := 3.
Definition InstanceState_Executed : Z := 4.

Definition AgreementMessage_PrePrepare : Z := 0.
Definition AgreementMessage_Prepare : Z := 1.
Definition AgreementMessage_Commit : Z := 2.

Record InstanceState := mkIS {
  is_Epoch : Z;
  is_Index : Z;
  is_Status : Z;
  is_Command : option Command;
  is_CommandHash : slice;
}.

Record AgreementMessage := mkAM {
  m_Epoch : Z;
  m_Index : Z;
  m_Type : Z;
  m_Command : option Command;
  m_CommandHash : slice;
}.

Record EpochChangeMessage := mkEC {
  ec_NewEpoch : Z;
  ec_LowIndex : Z;
  ec_HighIndex : Z;
  ec_PSet : list InstanceState;
  ec_QSet : list InstanceState;
}.

Record EpochChangeAckMessage := mkECA {
  eca_NewEpoch : Z;
  eca_AckFor : Z;
  eca_Digest : slice;
}.

Record NewEpochProof := mkNEP { nep_AckFor : Z; nep_Digest : slice }.

Record NewEpochMessage := mkNE {
  ne_NewEpoch : Z;
  ne_NvProof : list NewEpochProof;
  ne_Instances : gmap Z InstanceState;
}.

Inductive MirBFTMessage :=
| MirBFTMessage_Agreement (m : AgreementMessage)
| MirBFTMessage_EpochChange (m : EpochChangeMessage)
| MirBFTMessage_EpochChangeAck (m : EpochChangeAckMessage)
| MirBFTMessage_NewEpoch (m : NewEpochMessage)
| MirBFTMessage_nil.

#[export] Instance IS_eta : Eta InstanceState := λ s,
  mkIS (is_Epoch s) (is_Index s) (is_Status s) (is_Command s) (is_CommandHash s).
#[export] Instance set_is_Status : Setter is_Status := ltac:(solve_setter).
#[export] Instance set_is_Command : Setter is_Command := ltac:(solve_setter).
#[export] Instance set_is_CommandHash : Setter is_CommandHash := ltac:(solve_setter).
#[export] Instance AM_eta : Eta AgreementMessage := λ m,
  mkAM (m_Epoch m) (m_Index m) (m_Type m) (m_Command m) (m_CommandHash m).
#[export] Instance set_m_Command : Setter m_Command := ltac:(solve_setter).
#[export] Instance set_m_CommandHash : Setter m_CommandHash := ltac:(solve_setter).

Definition IsPrePrepared (s : InstanceState) : bool :=
  bool_decide (is_Status s = InstanceState_PrePrepared).
Definition IsPrepared (s : InstanceState) : bool :=
  bool_decide (is_Status s = InstanceState_Prepared).
Definition IsCommitted (s : InstanceState) : bool :=
  bool_decide (is_Status s = InstanceState_Committed).
Definition IsAtleastPrePrepared (s : InstanceState) : bool :=
  bool_decide (InstanceState_PrePrepared ≤ is_Status s)%Z.
Definition IsAtleastPrepared (s : InstanceState) : bool :=
  bool_decide (InstanceState_Prepared ≤ is_Status s)%Z.

Definition AgreementMessage_Equals (m other : AgreementMessage) : bool :=
  if bool_decide (m_Epoch m ≠ m_Epoch other) then false
  else if bool_decide (m_Index m ≠ m_Index other) then false
  else bytes_Equal (m_CommandHash m) (m_CommandHash other).

(** ** Quorums (quorum.go) *)
#[export] Instance AM_QMsg : Quorum.QMsg AgreementMessage :=
  {| Quorum.q_view := m_Epoch; Quorum.q_Equals := AgreementMessage_Equals |}.

Abbreviation Quorum := (Quorum.Quorum AgreementMessage).
Definition newQuorum : Quorum := Quorum.newQuorum.
Definition Quorum_log (id : Z) (m : AgreementMessage) (q : Quorum) : outcome Quorum :=
  Quorum.log true id m q.
Definition Quorum_Majority (f : Z) (m : AgreementMessage) (q : Quorum) : bool :=
  Quorum.Majority (2 * f) m q.

(** ** The replica (mirbft.go, instance.go) *)
Record instance := mkInstance {
  i_is : InstanceState;
  pCert : Quorum;
  cCert : Quorum;
}.
#[export] Instance instance_eta : Eta instance := λ i, mkInstance (i_is i) (pCert i) (cCert i).
#[export] Instance set_i_is : Setter i_is := ltac:(solve_setter).
#[export] Instance set_pCert : Setter pCert := ltac:(solve_setter).
#[export] Instance set_cCert : Setter cCert := ltac:(solve_setter).

Record signJob := mkSignJob { sj_mBytes : bytes; sj_sendToSelf : bool }.

Record MirBFT := mkMirBFT {
  p_id : Z;
  p_nodes : list Z;
  p_log : gmap Z instance;
  p_nextDeliverIndex : Z;
  p_nextLocalIndex : Z;
  p_epoch : Z;
  p_epochLeaders : gmap Z (gset Z);
  p_msgs : list Message;
  p_toDeliver : list ExecPacket;
  p_timers : list (Timer.tickingTimer Empty_set);
  p_viewChanging : bool;
  p_f : Z;
  p_signDispatcher : Dispatcher signJob;
  p_callbackC : list (signJob * bytes);
}.
#[export] Instance MirBFT_eta : Eta MirBFT := λ p,
  mkMirBFT (p_id p) (p_nodes p) (p_log p) (p_nextDeliverIndex p) (p_nextLocalIndex p)
    (p_epoch p) (p_epochLeaders p) (p_msgs p) (p_toDeliver p) (p_timers p)
    (p_viewChanging p) (p_f p) (p_signDispatcher p) (p_callbackC p).
#[export] Instance set_p_log : Setter p_log := ltac:(solve_setter).
#[export] Instance set_p_nextDeliverIndex : Setter p_nextDeliverIndex := ltac:(solve_setter).
#[export] Instance set_p_nextLocalIndex : Setter p_nextLocalIndex := ltac:(solve_setter).
#[export] Instance set_p_msgs : Setter p_msgs := ltac:(solve_setter).
#[export] Instance set_p_toDeliver : Setter p_toDeliver := ltac:(solve_setter).
#[export] Instance set_p_timers : Setter p_timers := ltac:(solve_setter).
#[export] Instance set_p_signDispatcher : Setter p_signDispatcher := ltac:(solve_setter).
#[export] Instance set_p_callbackC : Setter p_callbackC := ltac:(solve_setter).

Record Config := mkConfig {
  cfg_ID : Z;
  cfg_Peers : list Z;
  cfg_MaxFailures : Z;
  cfg_Workers : gmap string nat;
  cfg_WorkersQueueSizes : gmap string nat;
}.

Definition NewMirBFT (c : Config) : outcome MirBFT :=
  match cfg_Workers c !! "mac_sign"%string, cfg_WorkersQueueSizes c !! "mac_sign"%string with
  | None, _ => Panic "Worker count for mac_sign missing."
  | _, None => Panic "Worker queue size for mac_sign missing."
  | Some workers, Some _ =>
      Ret (mkMirBFT (cfg_ID c) (cfg_Peers c) ∅ 0 (cfg_ID c) 0
             {[0%Z := list_to_set (cfg_Peers c)]} [] [] [] false (cfg_MaxFailures c)
             (NewDispatcher workers) [])
  end.

Section mirbft.
Context `{GoEnv, Codec Command, Codec MirBFTMessage, Certifier}.

(** *** Messaging (messaging.go) *)

Definition enqueueForSending (to : Z) (mm certificate : bytes) : M MirBFT unit :=
  modify (λ p, p <| p_msgs ::= λ l, l ++ [mkMessage (p_id p) to mm certificate] |>).

Definition sendTo (to : Z) (m : MirBFTMessage) : M MirBFT unit :=
  match Marshal m with
  | None => panic "unable to marshall"
  | Some mBytes => enqueueForSending to mBytes (CreateSignedCertificate mBytes)
  end.

Definition broadcast (m : MirBFTMessage) (sendToSelf : bool) : M MirBFT unit :=
  match Marshal m with
  | None => panic "unable to marshall"
  | Some mBytes =>
      modify (λ p, p <| p_signDispatcher ::= Worker.Exec (mkSignJob mBytes sendToSelf) |>)
  end.

Definition sign_all (nNodes : nat) (j : signJob) : bytes :=
  mjoin (replicate nNodes (CreateSignedCertificate (sj_mBytes j))).

Definition send_signed (j : signJob) (cert : bytes) : M MirBFT unit :=
  p ← get;
  for_each (p_nodes p) (λ node,
    when (sj_sendToSelf j || bool_decide (node ≠ p_id p))
      (let idx := u64 (node * 32) in
       c ← lift (sub_slice cert idx (u64 (idx + 32)));
       enqueueForSending node (sj_mBytes j) c)).

Definition worker_step (cap : nat) (e : Worker.event) (p : MirBFT) : option MirBFT :=
  '(d, cbs) ← Worker.step (sign_all (length (p_nodes p))) cap e
                (p_signDispatcher p) (p_callbackC p);
  Some (p <| p_signDispatcher := d |> <| p_callbackC := cbs |>).

Definition AsyncCallback_body : M MirBFT bool :=
  p ← get;
  match p_callbackC p with
  | [] => mret false
  | (j, cert) :: rest =>
      modify (λ p, p <| p_callbackC := rest |>);;
      send_signed j cert;;
      mret true
  end.

Definition AsyncCallback : M MirBFT unit :=
  p ← get; loop (S (length (p_callbackC p))) AsyncCallback_body.

(** *** Agreement (instance.go) *)

Definition enqueueForExecution (cmd : Command) : M MirBFT unit :=
  modify (λ p, p <| p_toDeliver ::= λ l, l ++ [exec_pkt cmd] |>).

Definition leaders (e : Z) (p : MirBFT) : gset Z := default ∅ (p_epochLeaders p !! e).

(** The modulus is of unsigned integers. *)
Definition leaderOfSeq (e seq : Z) (p : MirBFT) : outcome Z :=
  let n := Z.of_nat (size (leaders e p)) in
  if decide (n = 0)%Z then Panic "integer divide by zero" else Ret (seq `mod` n)%Z.

Definition makeInstance (m : AgreementMessage) : instance :=
  mkInstance (mkIS (m_Epoch m) (m_Index m) InstanceState_None (m_Command m) (m_CommandHash m))
    newQuorum newQuorum.

(** Update the instance filed at [idx] through its pointer. *)
Definition with_inst (idx : Z) (g : instance → outcome instance) : M MirBFT unit :=
  p ← get;
  match p_log p !! idx with
  | None => panic "nil instance"
  | Some inst => inst' ← lift (g inst); modify (λ p, p <| p_log ::= <[idx := inst']> |>)
  end.

Definition get_inst (idx : Z) : M MirBFT instance :=
  p ← get; match p_log p !! idx with None => panic "nil instance" | Some i => mret i end.

Definition updateCommand (m : AgreementMessage) (inst : instance) : outcome instance :=
  match is_Command (i_is inst) with
  | Some c =>
      e ← Command_Equal c (m_Command m);
      if negb e then Panic "Different commands for same instance" else Ret inst
  | None => Ret (inst <| i_is ::= set is_Command (λ _, m_Command m) |>)
  end.

Definition updateCommandHash (m : AgreementMessage) (inst : instance) : outcome instance :=
  match is_CommandHash (i_is inst) with
  | Some _ =>
      if negb (bytes_Equal (is_CommandHash (i_is inst)) (m_CommandHash m))
      then Panic "Different command hashes for same instance" else Ret inst
  | None => Ret (inst <| i_is ::= set is_CommandHash (λ _, m_CommandHash m) |>)
  end.

Definition exec_body : M MirBFT bool :=
  p ← get;
  match p_log p !! p_nextDeliverIndex p with
  | None => mret false
  | Some inst =>
      match is_Command (i_is inst) with
      | Some cmd =>
          if negb (IsCommitted (i_is inst)) then mret false else
          enqueueForExecution cmd;;
          modify (λ p, p <| p_log ::= <[p_nextDeliverIndex p :=
            inst <| i_is ::= λ s, s <| is_Command := None |>
                                    <| is_Status := InstanceState_Executed |> |>]> |>);;
          modify (λ p, p <| p_nextDeliverIndex ::= λ x, u64 (x + 1) |>);;
          mret true
      | None => mret false
      end
  end.

Definition exec : M MirBFT unit := p ← get; loop (S (size (p_log p))) exec_body.

Definition set_status (idx st : Z) : M MirBFT unit :=
  with_inst idx (λ inst, Ret (inst <| i_is ::= set is_Status (λ _, st) |>)).

Definition maybeCommit (idx : Z) (cm : AgreementMessage) : M MirBFT unit :=
  inst ← get_inst idx;
  p ← get;
  when (Quorum_Majority (p_f p) cm (cCert inst) && IsPrepared (i_is inst))
    (set_status idx InstanceState_Committed;; exec).

(** The block under [if inst.pCert.Majority(m) && inst.is.IsPrePrepared()]. *)
Definition maybePrepare (idx : Z) (m : AgreementMessage) : M MirBFT unit :=
  inst ← get_inst idx;
  p ← get;
  when (Quorum_Majority (p_f p) m (pCert inst) && IsPrePrepared (i_is inst))
    (set_status idx InstanceState_Prepared;;
     let cm := mkAM (m_Epoch m) (m_Index m) AgreementMessage_Commit None
                 (is_CommandHash (i_is inst)) in
     broadcast (MirBFTMessage_Agreement cm) false;;
     with_inst idx (λ i, c ← Quorum_log (p_id p) cm (cCert i); Ret (i <| cCert := c |>));;
     maybeCommit idx cm).

Definition fetch_instance (checks : instance → outcome instance) (m : AgreementMessage)
    : M MirBFT unit :=
  p ← get;
  match p_log p !! m_Index m with
  | None => modify (λ p, p <| p_log ::= <[m_Index m := makeInstance m]> |>)
  | Some inst =>
      inst' ← lift (checks inst);
      modify (λ p, p <| p_log ::= <[m_Index m := inst']> |>)
  end.

(** [onPrePrepare] once the instance agrees with the message. *)
Definition acceptPrePrepare (m : AgreementMessage) (from : Z) : M MirBFT unit :=
  let idx := m_Index m in
  let m := m <| m_Command := None |> in
  with_inst idx (λ i, c ← Quorum_log from m (pCert i); Ret (i <| pCert := c |>));;
  set_status idx InstanceState_PrePrepared;;
  inst ← get_inst idx;
  let pm := mkAM (is_Epoch (i_is inst)) (is_Index (i_is inst)) AgreementMessage_Prepare None
              (is_CommandHash (i_is inst)) in
  p ← get;
  with_inst idx (λ i, c ← Quorum_log (p_id p) pm (pCert i); Ret (i <| pCert := c |>));;
  broadcast (MirBFTMessage_Agreement pm) false;;
  maybePrepare idx pm.

Definition onPrePrepare (m : AgreementMessage) (from : Z) : M MirBFT unit :=
  p ← get;
  if negb (bool_decide (from ∈ leaders (m_Epoch m) p)) then mret tt else
  l ← lift (leaderOfSeq (m_Epoch m) (m_Index m) p);
  if negb (bool_decide (l = from)) then mret tt else
  '(hash, cmd) ← lift (Command_Hash_ptr (m_Command m));
  let m := m <| m_Command := cmd |> <| m_CommandHash := hash |> in
  fetch_instance (λ i, i ← updateCommand m i; updateCommandHash m i) m;;
  acceptPrePrepare m from.

Definition onPrepare (m : AgreementMessage) (from : Z) : M MirBFT unit :=
  fetch_instance (updateCommandHash m) m;;
  with_inst (m_Index m) (λ i, c ← Quorum_log from m (pCert i); Ret (i <| pCert := c |>));;
  maybePrepare (m_Index m) m.

Definition onCommit (m : AgreementMessage) (from : Z) : M MirBFT unit :=
  fetch_instance (updateCommandHash m) m;;
  with_inst (m_Index m) (λ i, c ← Quorum_log from m (cCert i); Ret (i <| cCert := c |>));;
  maybeCommit (m_Index m) m.

Definition stepAgreement (m : AgreementMessage) (from : Z) : M MirBFT unit :=
  p ← get;
  if p_viewChanging p then mret tt
  else if bool_decide (m_Epoch m ≠ p_epoch p) then mret tt
  else if decide (m_Type m = AgreementMessage_PrePrepare) then onPrePrepare m from
  else if decide (m_Type m = AgreementMessage_Prepare) then onPrepare m from
  else if decide (m_Type m = AgreementMessage_Commit) then onCommit m from
  else panic "unexpected Message type".

(** *** Requests (request.go)

    The leader's own vote names the hash of the command; its instance and the
    message it sends hold the command without the hash.  All of them hold the
    same pointer, so that what [Hash] does to the command shows in each. *)
Definition onRequest (cmd : Command) : M MirBFT unit :=
  p ← get;
  if negb (bool_decide (p_id p ∈ leaders (p_epoch p) p)) then mret tt else
  let idx := p_nextLocalIndex p in
  modify (λ p, p <| p_nextLocalIndex ::= λ x,
    u64 (x + Z.of_nat (size (leaders (p_epoch p) p))) |>);;
  let '(cmdHash, cmd) := Command_Hash cmd in
  modify (λ p, p <| p_log ::= <[idx :=
    mkInstance (mkIS (p_epoch p) idx InstanceState_PrePrepared (Some cmd) None)
      newQuorum newQuorum]> |>);;
  let ppm := mkAM (p_epoch p) idx AgreementMessage_PrePrepare (Some cmd) None in
  let logppm := mkAM (p_epoch p) idx AgreementMessage_PrePrepare None cmdHash in
  with_inst idx (λ i, c ← Quorum_log (p_id p) logppm (pCert i); Ret (i <| pCert := c |>));;
  broadcast (MirBFTMessage_Agreement ppm) false.

Definition hasStatus (index status : Z) (p : MirBFT) : bool :=
  match p_log p !! index with
  | Some inst => bool_decide (is_Status (i_is inst) = status)
  | None => false
  end.
Definition hasPrePrepared (index : Z) (p : MirBFT) : bool :=
  hasStatus index InstanceState_PrePrepared p.
Definition hasCommitted (index : Z) (p : MirBFT) : bool :=
  hasStatus index InstanceState_Committed p.
Definition hasExecuted (index : Z) (p : MirBFT) : bool :=
  hasStatus index InstanceState_Executed p.

(** *** The [Protocol] methods (mirbft.go) *)

Definition Step (message : Message) : M MirBFT unit :=
  match Unmarshal (msg_Content message) with
  | None => panic "unmarshal"
  | Some mirMsg =>
      if negb (VerifyCertificate (msg_Content message) (msg_Certificate message))
      then panic "Invalid certificate" else
      match mirMsg with
      | MirBFTMessage_Agreement m => stepAgreement m (msg_From message)
      | _ => panic "Unknown message"
      end
  end.

Definition Tick : M MirBFT unit :=
  modify (λ p, p <| p_timers ::= fmap (λ t, (Timer.Tick t).1) |>).

Definition Callback (message : ExecCallback) : M MirBFT unit := panic "not implemented".

Definition MakeReady : M MirBFT Ready := gets (λ p, mkReady (p_msgs p) (p_toDeliver p)).
Definition ClearMsgs : M MirBFT unit := modify (λ p, p <| p_msgs := [] |>).
Definition ClearExecutedCommands : M MirBFT unit := modify (λ p, p <| p_toDeliver := [] |>).

#[export] Instance MirBFT_Protocol : Protocol MirBFT := {|
  Peer.Step := Step;
  Peer.Tick := Tick;
  Peer.Request := onRequest;
  Peer.Callback := Callback;
  Peer.MakeReady := MakeReady;
  Peer.ClearMsgs := ClearMsgs;
  Peer.ClearExecutedCommands := ClearExecutedCommands;
  Peer.AsyncCallback := AsyncCallback;
|}.
End mirbft.
End MirBft.
