(* ===== verification/MirProps.v ===== *)
(** * The properties of MirBFT

    Termination of the handlers, the ownership of indices, the delivery loop
    against a reference definition, and what a leader does with the hashes it
    is told. *)
From S2P Require Import Prelude Command Worker Certifier Peer MirBft Wire.
From S2P Require Quorum.
From Stdlib Require Import Strings.Byte.
Import MirBft.

Section ends.
Context `{GoEnv, Codec Command, Codec MirBFTMessage, Certifier}.

Lemma leaderOfSeq_ends e s p : leaderOfSeq e s p ≠ Diverge.
Proof. unfold leaderOfSeq. ends_steps. Qed.
Lemma mir_updateCommand_ends m i : updateCommand m i ≠ Diverge.
Proof. unfold updateCommand. ends_steps. Qed.
Lemma mir_updateCommandHash_ends m i : updateCommandHash m i ≠ Diverge.
Proof. unfold updateCommandHash. ends_steps. Qed.
Lemma mir_Quorum_log_ends k m q : Quorum_log k m q ≠ Diverge.
Proof. apply Quorum.log_ends. Qed.
Hint Resolve leaderOfSeq_ends mir_updateCommand_ends
  mir_updateCommandHash_ends mir_Quorum_log_ends : go_ends.

(** ** The delivery loop *)

(** The reference: the commands of the committed instances from [idx] on. *)
Fixpoint deliverable (fuel : nat) (log : gmap Z instance) (idx : Z) : list Command :=
  match fuel with
  | O => []
  | S fuel =>
      match log !! idx with
      | Some inst =>
          match is_Command (i_is inst) with
          | Some cmd =>
              if IsCommitted (i_is inst) then cmd :: deliverable fuel log (u64 (idx + 1)) else []
          | None => []
          end
      | None => []
      end
  end.

(** The instances that can still be delivered. *)
Definition commands_left (log : gmap Z instance) : nat :=
  size (filter (λ x : Z * instance, is_Some (is_Command (i_is x.2))) log).

Definition delivered (inst : instance) : instance :=
  inst <| i_is ::= λ s, s <| is_Command := None |> <| is_Status := InstanceState_Executed |> |>.

Lemma commands_left_delivered log i inst :
  log !! i = Some inst → is_Some (is_Command (i_is inst)) →
  commands_left (<[i := delivered inst]> log) < commands_left log.
Proof.
  intros Hi Hs. eapply map_filter_insert_size_lt; [done..|]. simpl. by intros [].
Qed.

(** Delivering the first instance does not change what the others give. *)
Lemma deliverable_delivered fuel log i inst idx :
  log !! i = Some inst → is_Some (is_Command (i_is inst)) → IsCommitted (i_is inst) = true →
  (∀ k, k < fuel → u64 (idx + Z.of_nat k) ≠ i) → (0 ≤ idx < two64)%Z →
  deliverable fuel (<[i := delivered inst]> log) idx = deliverable fuel log idx.
Proof.
  revert idx. induction fuel as [|fuel IH]; intros idx Hi Hs Hc Hne Hr; [done|]. simpl.
  assert (i ≠ idx) as Hd.
  { specialize (Hne 0 ltac:(lia)). rewrite Z.add_0_r, u64_id in Hne by done. done. }
  rewrite lookup_insert_ne by done. destruct (log !! idx) as [inst'|]; [|done].
  destruct (is_Command (i_is inst')); [|done]. destruct (IsCommitted (i_is inst')); [|done]. f_equal.
  apply IH; try done.
  - intros k Hk. specialize (Hne (S k) ltac:(lia)). unfold u64 in *.
    rewrite Zplus_mod_idemp_l. replace (idx + 1 + Z.of_nat k)%Z with (idx + Z.of_nat (S k))%Z by lia.
    done.
  - apply u64_range.
Qed.

(** The range of [n] indices from [idx]. *)
Definition in_range (idx : Z) (n : nat) (i : Z) : Prop := ∃ k : nat, k < n ∧ i = u64 (idx + Z.of_nat k).

(** What [exec] leaves: the commands in order, the next index, and the log. *)
Record exec_post (p p' : MirBFT) (ds : list Command) : Prop := {
  ep_state : p' = p <| p_log := p_log p' |> <| p_nextDeliverIndex := p_nextDeliverIndex p' |>
                    <| p_toDeliver := p_toDeliver p' |>;
  ep_deliver : p_toDeliver p' = p_toDeliver p ++ (exec_pkt <$> ds);
  ep_next : p_nextDeliverIndex p' = u64 (p_nextDeliverIndex p + Z.of_nat (length ds));
  ep_stop : deliverable 1 (p_log p') (p_nextDeliverIndex p') = [];
  ep_log i : (in_range (p_nextDeliverIndex p) (length ds) i →
      ∃ inst, p_log p !! i = Some inst ∧ p_log p' !! i = Some (delivered inst)) ∧
    (¬ in_range (p_nextDeliverIndex p) (length ds) i → p_log p' !! i = p_log p !! i);
}.

(** One round of the loop. *)
Lemma exec_body_spec p :
  (exec_body p = Ret (false, p) ∧ deliverable 1 (p_log p) (p_nextDeliverIndex p) = []) ∨
  ∃ inst cmd, p_log p !! p_nextDeliverIndex p = Some inst ∧ is_Command (i_is inst) = Some cmd ∧
    IsCommitted (i_is inst) = true ∧
    exec_body p = Ret (true, p <| p_toDeliver ::= λ l, l ++ [exec_pkt cmd] |>
      <| p_log ::= <[p_nextDeliverIndex p := delivered inst]> |>
      <| p_nextDeliverIndex ::= λ x, u64 (x + 1) |>).
Proof.
  unfold exec_body, deliverable, mbind, M_bind, get.
  destruct (p_log p !! p_nextDeliverIndex p) as [inst|] eqn:Hi; [|by left].
  destruct (is_Command (i_is inst)) as [cmd|] eqn:Hc; [|by left].
  destruct (IsCommitted (i_is inst)) eqn:Hst; [|by left]. right. by exists inst, cmd.
Qed.

Lemma u64_succ x k : u64 (u64 (x + 1) + Z.of_nat k) = u64 (x + Z.of_nat (S k)).
Proof. unfold u64. rewrite Zplus_mod_idemp_l. f_equal. lia. Qed.

Lemma u64_inj_lt x k k' :
  (Z.of_nat k < two64)%Z → (Z.of_nat k' < two64)%Z →
  u64 (x + Z.of_nat k) = u64 (x + Z.of_nat k') → k = k'.
Proof.
  unfold u64. intros Hk Hk' Heq.
  assert ((Z.of_nat k - Z.of_nat k') `mod` two64 = 0)%Z as Hm.
  { replace (Z.of_nat k - Z.of_nat k')%Z with ((x + Z.of_nat k) - (x + Z.of_nat k'))%Z by lia.
    rewrite Zminus_mod, Heq, Z.sub_diag. done. }
  apply Z.mod_divide in Hm as [q Hq]; [|done]. unfold two64 in *. nia.
Qed.

Lemma length_deliverable n log idx : length (deliverable n log idx) ≤ n.
Proof.
  revert idx. induction n as [|n IH]; intros idx; simpl; [lia|].
  repeat case_match; simpl; try lia. specialize (IH (u64 (idx + 1))). lia.
Qed.

Lemma not_in_later_range idx n :
  (Z.of_nat (S n) < two64)%Z → (0 ≤ idx < two64)%Z → ¬ in_range (u64 (idx + 1)) n idx.
Proof.
  intros Hn Hr (k & Hk & Heq). rewrite u64_succ in Heq.
  rewrite <-(u64_id idx) in Heq at 1 by done. rewrite <-(Z.add_0_r idx) in Heq at 1.
  apply (u64_inj_lt _ 0 (S k)) in Heq; lia.
Qed.

(** A round that delivers [inst], before the others. *)
Lemma exec_post_cons p inst cmd ds p' :
  let p1 := p <| p_toDeliver ::= λ l, l ++ [exec_pkt cmd] |>
              <| p_log ::= <[p_nextDeliverIndex p := delivered inst]> |>
              <| p_nextDeliverIndex ::= λ x, u64 (x + 1) |> in
  (Z.of_nat (S (length ds)) < two64)%Z → (0 ≤ p_nextDeliverIndex p < two64)%Z →
  p_log p !! p_nextDeliverIndex p = Some inst →
  exec_post p1 p' ds → exec_post p p' (cmd :: ds).
Proof.
  intros p1 Hn Hr Hi [Hs Hdel Hnext Hstop Hlog].
  assert (p_log p1 = <[p_nextDeliverIndex p := delivered inst]> (p_log p)) as Hl1 by done.
  assert (p_nextDeliverIndex p1 = u64 (p_nextDeliverIndex p + 1)) as Hn1 by done.
  pose proof (not_in_later_range _ _ Hn Hr) as Hnot. split; [| | |done|].
  - rewrite Hs. by destruct p.
  - rewrite Hdel. cbn. by rewrite <-app_assoc.
  - rewrite Hnext, Hn1. apply u64_succ.
  - intros i. specialize (Hlog i). rewrite Hl1, Hn1 in Hlog. destruct Hlog as [Hin Hout].
    simpl length. split.
    + intros ([|k] & Hk & Heq).
      * rewrite Z.add_0_r, u64_id in Heq by done. subst i. exists inst. split; [done|].
        rewrite Hout by done. apply lookup_insert_eq.
      * destruct Hin as (inst' & Hi' & Hp').
        { exists k. split; [lia|]. by rewrite u64_succ. }
        exists inst'. split; [|done]. rewrite lookup_insert_ne in Hi'; [done|].
        intros <-. apply Hnot. exists k. split; [lia|]. by rewrite u64_succ.
    + intros Hni. rewrite Hout.
      * apply lookup_insert_ne. intros <-. apply Hni. exists 0. split; [lia|].
        by rewrite Z.add_0_r, u64_id.
      * intros (k & ? & ->). apply Hni. exists (S k). split; [lia|]. apply u64_succ.
Qed.

Lemma exec_loop_spec n p :
  (Z.of_nat n < two64)%Z → (0 ≤ p_nextDeliverIndex p < two64)%Z →
  commands_left (p_log p) < n →
  ∃ p', loop n exec_body p = Ret (tt, p') ∧
    exec_post p p' (deliverable n (p_log p) (p_nextDeliverIndex p)).
Proof.
  revert p. induction n as [|n IH]; intros p Hn Hr Hm; [lia|]. simpl loop.
  destruct (exec_body_spec p) as [[Hb Hd]|(inst & cmd & Hi & Hc & Hst & Hb)];
    unfold mbind, M_bind; rewrite Hb.
  - exists p. split; [done|].
    assert (deliverable (S n) (p_log p) (p_nextDeliverIndex p) = []) as ->.
    { simpl in *. repeat case_match; done. }
    split; simpl; [by destruct p|by rewrite app_nil_r|by rewrite Z.add_0_r, u64_id|done|].
    intros i. split; [|done]. intros (k & ? & _). lia.
  - set (p1 := set _ _ _). destruct (IH p1) as (p' & Hr' & Hp').
    { lia. } { apply u64_range. }
    { pose proof (commands_left_delivered _ _ _ Hi ltac:(eauto)). cbn. unfold delivered in *. lia. }
    exists p'. split; [done|].
    assert (deliverable n (p_log p1) (p_nextDeliverIndex p1) =
      deliverable n (p_log p) (u64 (p_nextDeliverIndex p + 1))) as Hd.
    { apply deliverable_delivered; eauto; [|apply u64_range].
      intros k Hk Heq. apply (not_in_later_range (p_nextDeliverIndex p) n Hn Hr).
      by exists k. }
    rewrite Hd in Hp'. simpl deliverable. rewrite Hi, Hc, Hst.
    apply (exec_post_cons p inst cmd); try done.
    pose proof (length_deliverable n (p_log p) (u64 (p_nextDeliverIndex p + 1))). lia.
Qed.

Lemma commands_left_size log : commands_left log ≤ size log.
Proof. apply map_subseteq_size, map_filter_subseteq. Qed.

Lemma exec_spec p :
  (Z.of_nat (size (p_log p)) + 1 < two64)%Z → (0 ≤ p_nextDeliverIndex p < two64)%Z →
  ∃ p', exec p = Ret (tt, p') ∧
    exec_post p p' (deliverable (S (size (p_log p))) (p_log p) (p_nextDeliverIndex p)).
Proof.
  intros Hs Hr. apply exec_loop_spec; [lia|done|]. pose proof (commands_left_size (p_log p)). lia.
Qed.

(** ** Termination *)
Lemma mir_exec_ends p : ends exec p.
Proof.
  change (ends (loop (S (size (p_log p))) exec_body) p).
  apply (loop_ends (λ _, True) (λ p, commands_left (p_log p))); [|done|].
  - intros s _. unfold ends, wp.
    destruct (exec_body_spec s) as [[Hb _]|(inst & cmd & Hi & Hc & Hst & Hb)]; rewrite Hb; [done|].
    split; [done|]. intros _. split; [done|]. by apply commands_left_delivered; eauto.
  - apply Nat.lt_succ_r, commands_left_size.
Qed.
Hint Resolve mir_exec_ends : go_ends.

Lemma mir_with_inst_ends idx g p : (∀ i, g i ≠ Diverge) → ends (with_inst idx g) p.
Proof. intros Hg. unfold with_inst. ends_steps. Qed.
Lemma mir_log_vote_ends idx k m p :
  ends (with_inst idx (λ i, c ← Quorum_log k m (pCert i); Ret (i <| pCert := c |>))) p.
Proof. apply mir_with_inst_ends. intros i. ends_steps. Qed.
Lemma mir_log_commit_ends idx k m p :
  ends (with_inst idx (λ i, c ← Quorum_log k m (cCert i); Ret (i <| cCert := c |>))) p.
Proof. apply mir_with_inst_ends. intros i. ends_steps. Qed.
Lemma mir_get_inst_ends idx p : ends (get_inst idx) p.
Proof. unfold get_inst. ends_steps. Qed.
Lemma mir_set_status_ends idx st p : ends (set_status idx st) p.
Proof. by apply mir_with_inst_ends. Qed.
Lemma mir_broadcast_ends m self p : ends (broadcast m self) p.
Proof. unfold broadcast. ends_steps. Qed.
Hint Resolve mir_log_vote_ends mir_log_commit_ends mir_get_inst_ends mir_set_status_ends mir_broadcast_ends : go_ends.

Lemma mir_maybeCommit_ends idx cm p : ends (maybeCommit idx cm) p.
Proof. unfold maybeCommit. ends_steps. Qed.
Hint Resolve mir_maybeCommit_ends : go_ends.
Lemma mir_maybePrepare_ends idx m p : ends (maybePrepare idx m) p.
Proof. unfold maybePrepare. ends_steps. Qed.
Hint Resolve mir_maybePrepare_ends : go_ends.
Lemma mir_fetch_both_ends m m' p :
  ends (fetch_instance (λ i, i ← updateCommand m i; updateCommandHash m i) m') p.
Proof. unfold fetch_instance. ends_steps. Qed.
Lemma mir_fetch_hash_ends m p : ends (fetch_instance (updateCommandHash m) m) p.
Proof. unfold fetch_instance. ends_steps. Qed.
Hint Resolve mir_fetch_both_ends mir_fetch_hash_ends : go_ends.

Lemma mir_Step_ends m p : ends (MirBft.Step m) p.
Proof.
  unfold MirBft.Step, stepAgreement, onPrePrepare, acceptPrePrepare, onPrepare, onCommit. ends_steps.
Qed.
Lemma mir_onRequest_ends cmd p : ends (onRequest cmd) p.
Proof. unfold onRequest. ends_steps. Qed.
End ends.

(** ** Ownership of the indices *)
Section ownership.
Context `{GoEnv, Codec Command, Codec MirBFTMessage, Certifier}.

(** What only [onRequest] changes, and only in its last part. *)
Definition proposer (p : MirBFT) := (p_id p, p_epoch p, p_epochLeaders p, p_nextLocalIndex p).

Lemma Step_keeps m p : keeps proposer (MirBft.Step m) p.
Proof.
  unfold MirBft.Step, stepAgreement, onPrePrepare, acceptPrePrepare, onPrepare, onCommit,
    fetch_instance, maybePrepare, maybeCommit, set_status, with_inst, get_inst, exec, exec_body,
    enqueueForExecution, broadcast.
  keeps_steps.
Qed.

Lemma AsyncCallback_keeps p : keeps proposer MirBft.AsyncCallback p.
Proof.
  unfold MirBft.AsyncCallback, AsyncCallback_body, send_signed, enqueueForSending. keeps_steps.
Qed.

(** The leaders are [n] replicas, this one among them, and the next index to
    propose is one of this replica's. *)
Record owner_ok (n : nat) (p : MirBFT) : Prop := {
  ow_leaders : size (leaders (p_epoch p) p) = n;
  ow_self : p_id p ∈ leaders (p_epoch p) p;
  ow_id : (0 ≤ p_id p < Z.of_nat n)%Z;
  ow_next : (0 ≤ p_nextLocalIndex p)%Z ∧ (p_nextLocalIndex p `mod` Z.of_nat n = p_id p)%Z;
}.

Lemma owner_ok_keeps n p p' : proposer p' = proposer p → owner_ok n p → owner_ok n p'.
Proof.
  unfold proposer. intros [= Hid He Hl Hn] []. unfold leaders in *.
  split; unfold leaders; rewrite ?Hid, ?He, ?Hl, ?Hn; done.
Qed.

Lemma onRequest_owner n cmd p :
  owner_ok n p → (p_nextLocalIndex p + Z.of_nat n < two64)%Z →
  wp (onRequest cmd) (λ _, owner_ok n) p.
Proof.
  intros Hp Hlt. unfold onRequest. wp_step. wp_step. wp_step; [done|]. wp_step. wp_step.
  set (p1 := set _ _ _). assert (owner_ok n p1) as Hp1.
  { destruct Hp as [Hl Hs Hi [Hn0 Hn]]. split; try done. unfold p1. cbn. rewrite Hl.
    rewrite u64_id by lia. split; [lia|].
    replace (p_nextLocalIndex p + Z.of_nat n)%Z with (p_nextLocalIndex p + 1 * Z.of_nat n)%Z by lia.
    rewrite Z.mod_add by lia. done. }
  destruct (Command_Hash cmd) as [h cmd'].
  match goal with |- wp ?m _ _ => assert (keeps proposer m p1) as Hk end.
  { unfold with_inst, broadcast. keeps_steps. }
  eapply wp_mono; [exact Hk|]. intros [] p2 Hp2. by eapply owner_ok_keeps.
Qed.

Lemma owner_leader n p : owner_ok n p → leaderOfSeq (p_epoch p) (p_nextLocalIndex p) p = Ret (p_id p).
Proof.
  intros [Hl _ Hi [_ Hn]]. unfold leaderOfSeq. rewrite Hl, decide_False by lia. by rewrite Hn.
Qed.

Lemma NewMirBFT_owner n c p :
  NewMirBFT c = Ret p → cfg_Peers c = seqZ 0 (Z.of_nat n) → cfg_ID c ∈ cfg_Peers c → owner_ok n p.
Proof.
  unfold NewMirBFT. intros Hp Hn Hid. repeat case_match; simplify_eq.
  assert (leaders 0 (mkMirBFT (cfg_ID c) (cfg_Peers c) ∅ 0 (cfg_ID c) 0
    {[0%Z := list_to_set (cfg_Peers c)]} [] [] [] false (cfg_MaxFailures c) (Worker.NewDispatcher n0) [])
    = list_to_set (cfg_Peers c)) as Hl.
  { unfold leaders; simpl. by rewrite lookup_singleton_eq. }
  assert (0 ≤ cfg_ID c < Z.of_nat n)%Z as Hr by (rewrite Hn in Hid; apply elem_of_seqZ in Hid; lia).
  split; simpl; rewrite ?Hl.
  - rewrite Hn, size_list_to_set by apply NoDup_seqZ. rewrite length_seqZ. lia.
  - by apply elem_of_list_to_set.
  - done.
  - split; [lia|]. by apply Z.mod_small.
Qed.

(** The calls of the peer loop. *)
Inductive mir_run : MirBFT → MirBFT → Prop :=
| mr_nil p : mir_run p p
| mr_step p m p1 p2 : MirBft.Step m p = Ret (tt, p1) → mir_run p1 p2 → mir_run p p2
| mr_async p p1 p2 : MirBft.AsyncCallback p = Ret (tt, p1) → mir_run p1 p2 → mir_run p p2
| mr_request p cmd p1 p2 :
    (p_nextLocalIndex p + Z.of_nat (size (leaders (p_epoch p) p)) < two64)%Z →
    onRequest cmd p = Ret (tt, p1) → mir_run p1 p2 → mir_run p p2
| mr_worker cap e p p1 p2 : worker_step cap e p = Some p1 → mir_run p1 p2 → mir_run p p2
| mr_ready p p1 p2 : p1 = p <| p_msgs := [] |> ∨ p1 = p <| p_toDeliver := [] |> →
    mir_run p1 p2 → mir_run p p2.

Lemma mir_run_owner n p p' : mir_run p p' → owner_ok n p → owner_ok n p'.
Proof.
  induction 1 as [|p m p1 p2 Hs _ IH|p p1 p2 Hs _ IH|p cmd p1 p2 Hlt Hs _ IH|cap e p p1 p2 Hs _ IH|p p1 p2 Hs _ IH];
    intros Hp; [done|..]; apply IH.
  - eapply owner_ok_keeps; [|done]. apply (wp_run _ _ _ _ _ (Step_keeps m p) Hs).
  - eapply owner_ok_keeps; [|done]. apply (wp_run _ _ _ _ _ (AsyncCallback_keeps p) Hs).
  - rewrite (ow_leaders _ _ Hp) in Hlt. apply (wp_run _ _ _ _ _ (onRequest_owner n cmd p Hp Hlt) Hs).
  - unfold worker_step in Hs. apply bind_Some in Hs as ([d cbs] & _ & [= <-]).
    by apply (owner_ok_keeps n p).
  - destruct Hs as [->| ->]; by apply (owner_ok_keeps n p).
Qed.
End ownership.

(** ** Hashes a leader is told *)
Section hashes.
Context `{GoEnv, Codec Command, Codec MirBFTMessage, Certifier}.

(** The instance a request makes: no hash, and one vote. *)
Lemma onRequest_instance cmd p p1 :
  onRequest cmd p = Ret (tt, p1) → p_id p ∈ leaders (p_epoch p) p →
  ∃ inst m0, p_log p1 !! p_nextLocalIndex p = Some inst ∧
    p_epoch p1 = p_epoch p ∧ p_viewChanging p1 = p_viewChanging p ∧ p_f p1 = p_f p ∧
    is_CommandHash (i_is inst) = None ∧
    Quorum.log_all [(p_id p, m0)] newQuorum = Ret (pCert inst) ∧ m_Epoch m0 = p_epoch p.
Proof.
  intros Hr Hl. unfold onRequest, mbind, M_bind, get, modify, lift in Hr.
  rewrite bool_decide_true in Hr by done. simpl in Hr.
  destruct (Command_Hash cmd) as [h cmd'].
  unfold with_inst, mbind, M_bind, get, modify, lift in Hr. cbn in Hr.
  rewrite lookup_insert_eq in Hr.
  set (m0 := mkAM (p_epoch p) (p_nextLocalIndex p) AgreementMessage_PrePrepare None h) in *.
  cbn in Hr. destruct (outcome_bind _ _ _ _) as [inst| |] eqn:Ho in Hr; [|done..].
  unfold broadcast in Hr. destruct (Marshal _); [|done]. unfold modify in Hr. injection Hr as <-.
  unfold outcome_bind in Ho. destruct (Quorum_log (p_id p) m0 newQuorum) as [c| |] eqn:Hlog; [|done..].
  injection Ho as <-. eexists _, m0. split; [apply lookup_insert_eq|]. split_and!; try done.
  unfold Quorum_log in Hlog. simpl. by rewrite Hlog.
Qed.

Lemma log_fresh k m m0 k0 q :
  Quorum.log_all [(k0, m0)] newQuorum = Ret q → m_Epoch m = m_Epoch m0 → k ≠ k0 →
  ∃ q', Quorum_log k m q = Ret q' ∧ ∀ m', size (Quorum.matching m' q') ≤ 2.
Proof.
  intros Hq He Hk.
  assert (∃ q', Quorum_log k m q = Ret q') as [q' Hl].
  { simpl in Hq. unfold newQuorum, Quorum.log, Quorum.newQuorum in Hq. simpl in Hq.
    case_decide; [done|]. unfold Quorum.view_msgs in Hq. simpl in Hq.
    rewrite lookup_empty in Hq. simpl in Hq. rewrite lookup_empty in Hq. injection Hq as <-.
    unfold Quorum_log, Quorum.log, Quorum.view_msgs; simpl. rewrite He, decide_False by lia.
    rewrite lookup_insert_eq. simpl. rewrite lookup_insert_ne, lookup_empty by done. by eexists. }
  exists q'. split; [done|]. intros m'.
  assert (Quorum.log_all [(k0, m0); (k, m)] newQuorum = Ret q') as Hall.
  { simpl in *. unfold newQuorum in *.
    destruct (Quorum.log true k0 m0 Quorum.newQuorum) as [q0| |]; simplify_eq/=.
    unfold Quorum_log in Hl. by rewrite Hl. }
  apply (Quorum.log_all_count _ _ _ m') in Hall. rewrite Hall.
  assert (size (Quorum.matching m' newQuorum) = 0) as ->.
  { unfold Quorum.matching, Quorum.view_msgs. simpl. rewrite lookup_empty. simpl.
    by rewrite map_filter_empty. }
  rewrite Nat.add_0_r, !filter_cons. repeat case_decide; simpl; lia.
Qed.

(** The first Prepare of another replica decides the hash of the instance. *)
Lemma onPrepare_adopts m from p inst m0 h :
  p_log p !! m_Index m = Some inst → is_CommandHash (i_is inst) = None →
  Quorum.log_all [(p_id p, m0)] newQuorum = Ret (pCert inst) → m_Epoch m0 = m_Epoch m →
  from ≠ p_id p → (1 ≤ p_f p)%Z → m_CommandHash m = Some h →
  ∃ p2, onPrepare m from p = Ret (tt, p2) ∧ p_epoch p2 = p_epoch p ∧
    p_viewChanging p2 = p_viewChanging p ∧
    ∃ inst2, p_log p2 !! m_Index m = Some inst2 ∧ is_CommandHash (i_is inst2) = Some h.
Proof.
  intros Hi Hn Hq He Hf Hfp Hh. unfold onPrepare, fetch_instance, updateCommandHash, mbind, M_bind, get, lift, modify.
  rewrite Hi, Hn. unfold with_inst, mbind, M_bind, get, lift, modify. cbn. rewrite lookup_insert_eq. cbn.
  destruct (log_fresh from m m0 (p_id p) (pCert inst)) as (c & Hc & Hsz); [done..|].
  rewrite Hc. cbn. unfold maybePrepare, get_inst, mbind, M_bind, get. cbn.
  rewrite lookup_insert_eq. cbn.
  assert (Quorum_Majority (p_f p) m c = false) as ->.
  { destruct (Quorum_Majority _ _ _) eqn:Hm; [|done]. unfold Quorum_Majority in Hm.
    apply Quorum.Majority_spec in Hm; [|lia]. specialize (Hsz m). lia. }
  eexists. split; [done|]. split_and!; [done..|]. eexists. split; [apply lookup_insert_eq|]. done.
Qed.
End hashes.

(** ** The properties *)
Section mir_properties.
Context `{GoEnv, Codec Command, Codec MirBFTMessage, Certifier}.

(**  The leaders share out the indices: for replicas numbered 0..n-1, after any
    calls the next index a replica proposes is one that every other replica
    takes for that replica's ([leaderOfSeq]), and no two replicas propose the
    same index. *)
Theorem mir_index_owner n ci cj p0 q0 p q :
  NewMirBFT ci = Ret p0 → NewMirBFT cj = Ret q0 →
  cfg_Peers ci = seqZ 0 (Z.of_nat n) → cfg_Peers cj = seqZ 0 (Z.of_nat n) →
  cfg_ID ci ∈ cfg_Peers ci → cfg_ID cj ∈ cfg_Peers cj →
  mir_run p0 p → mir_run q0 q →
  leaderOfSeq (p_epoch q) (p_nextLocalIndex p) q = Ret (p_id p) ∧
  (p_id p ≠ p_id q → p_nextLocalIndex p ≠ p_nextLocalIndex q).
Proof.
  intros Hp0 Hq0 Hci Hcj Hi Hj Hp Hq.
  assert (owner_ok n p) as Hop by (eapply mir_run_owner; [done|by eapply NewMirBFT_owner]).
  assert (owner_ok n q) as Hoq by (eapply mir_run_owner; [done|by eapply NewMirBFT_owner]).
  destruct Hop as [_ _ Hip [_ Hnp]], Hoq as [Hl _ _ [_ Hnq]]. split.
  - unfold leaderOfSeq. rewrite Hl, decide_False by lia. by rewrite Hnp.
  - intros Hne Heq. rewrite Heq in Hnp. congruence.
Qed.

(** C20.  Delivery equals its reference: [exec] ends, and delivers the commands of
    the longest run of committed instances from the next index on, in index
    order; it marks exactly those instances executed, drops their commands,
    and leaves the rest of the replica as it was. *)
Theorem mir_exec_delivers p :
  (Z.of_nat (size (p_log p)) + 1 < two64)%Z → (0 ≤ p_nextDeliverIndex p < two64)%Z →
  ∃ p', exec p = Ret (tt, p') ∧
    exec_post p p' (deliverable (S (size (p_log p))) (p_log p) (p_nextDeliverIndex p)).
Proof. apply exec_spec. Qed.

(** The handlers of MirBFT end on every message and request. *)
Theorem mir_terminates p m cmd : MirBft.Step m p ≠ Diverge ∧ onRequest cmd p ≠ Diverge.
Proof. split; [apply mir_Step_ends|apply mir_onRequest_ends]. Qed.

(**  A leader believes the first hash it is told: right after a request, the
    first Prepare of any other replica sets the hash of the leader's own
    instance, even to one that is not the hash of the command; every Prepare
    and Commit with a different hash then stops the leader. *)
Theorem mir_leader_adopts_hash cmd p p1 m from h :
  onRequest cmd p = Ret (tt, p1) → p_id p ∈ leaders (p_epoch p) p → p_id p1 = p_id p →
  p_viewChanging p = false → (1 ≤ p_f p)%Z →
  m_Epoch m = p_epoch p → m_Index m = p_nextLocalIndex p →
  m_Type m = AgreementMessage_Prepare → m_CommandHash m = Some h → from ≠ p_id p →
  ∃ p2, stepAgreement m from p1 = Ret (tt, p2) ∧
    ∀ m' from', m_Epoch m' = p_epoch p → m_Index m' = p_nextLocalIndex p →
      m_Type m' = AgreementMessage_Prepare ∨ m_Type m' = AgreementMessage_Commit →
      ¬ m_CommandHash m' ≈ Some h →
      ∃ why, stepAgreement m' from' p2 = Panic why.
Proof.
  intros Hr Hl Hid Hvc Hf He Hidx Ht Hh Hfrom.
  destruct (onRequest_instance _ _ _ Hr Hl) as (inst & m0 & Hi & Hep & Hv & Hfp & Hn & Hq & He0).
  destruct (onPrepare_adopts m from p1 inst m0 h) as (p2 & Hs & Hep2 & Hv2 & inst2 & Hi2 & Hh2);
    try congruence.
  exists p2. split.
  - unfold stepAgreement, mbind, M_bind, get. rewrite Hv, Hvc, bool_decide_false, Ht by congruence.
    exact Hs.
  - intros m' from' He' Hidx' Ht' Hne. unfold stepAgreement, mbind, M_bind, get.
    rewrite Hv2, Hv, Hvc, bool_decide_false by congruence.
    assert (updateCommandHash m' inst2 = Panic "Different command hashes for same instance") as Hu.
    { unfold updateCommandHash. rewrite Hh2. destruct (bytes_Equal _ _) eqn:Hb; [|done].
      destruct Hne. symmetry. by apply bytes_Equal_spec. }
    rewrite Hidx in Hi2. rewrite <-Hidx' in Hi2. exists "Different command hashes for same instance"%string.
    destruct Ht' as [-> | ->]; simpl.
    + unfold onPrepare, fetch_instance, mbind, M_bind, get, lift. by rewrite Hi2, Hu.
    + unfold onCommit, fetch_instance, mbind, M_bind, get, lift. by rewrite Hi2, Hu.
Qed.
End mir_properties.

Module MirDemo.
Import Toy.
#[export] Instance wire_AM : Wire AgreementMessage :=
  wire_iso (λ m, (m_Epoch m, m_Index m, m_Type m, m_Command m, m_CommandHash m))
    (λ '(v, i, t, c, h), mkAM v i t c h) ltac:(by intros []).
(** Only agreement messages are sent by the replicas. *)
#[export] Instance MirBFTMessage_codec : Codec MirBFTMessage := {|
  Marshal m := match m with MirBFTMessage_Agreement m => Some (put m) | _ => None end;
  Unmarshal l := match get_wire l with Some (m, []) => Some (MirBFTMessage_Agreement m) | _ => None end;
|}.
#[export] Instance cert : Certifier := swCertifier.

Definition config (j : Z) : Config :=
  mkConfig j (seqZ 0 4) 1 {["mac_sign"%string := 1]} {["mac_sign"%string := 9]}.
Definition rep (j : Z) : MirBFT :=
  mkMirBFT j (seqZ 0 4) ∅ 0 j 0 {[0%Z := list_to_set (seqZ 0 4)]} [] [] [] false 1
    (Worker.NewDispatcher 1) [].
Definition after (cmd : Command) (p : MirBFT) : MirBFT :=
  match onRequest cmd p with Ret (_, p) => p | _ => p end.
Definition committed (i : Z) (c : Command) : instance :=
  mkInstance (mkIS 0 i InstanceState_Committed (Some c) (Some [x01])) newQuorum newQuorum.
End MirDemo.

Section mir_witnesses.
Import Toy MirDemo.

Lemma mir_index_owner_witness :
  leaderOfSeq 0 5 (rep 2) = Ret 1%Z ∧ p_nextLocalIndex (after (cmd 1 1) (rep 1)) ≠ 2%Z.
Proof.
  assert (mir_run (rep 1) (after (cmd 1 1) (rep 1))) as Hrun.
  { eapply (mr_request _ (cmd 1 1)); [vm_compute; reflexivity| |apply mr_nil].
    unfold after. vm_compute. reflexivity. }
  destruct (mir_index_owner 4 (config 1) (config 2) (rep 1) (rep 2) (after (cmd 1 1) (rep 1)) (rep 2))
    as [Hl Hne]; try reflexivity; try (apply elem_of_seqZ; simpl; lia).
  - exact Hrun.
  - apply mr_nil.
  - split; [exact Hl|]. apply Hne. vm_compute. discriminate.
Defined.

Lemma mir_exec_delivers_witness :
  ∃ p', exec (rep 0 <| p_log := {[0%Z := committed 0 (cmd 1 0); 1%Z := committed 1 (cmd 2 1)]} |>)
    = Ret (tt, p') ∧ p_toDeliver p' = [exec_pkt (cmd 1 0); exec_pkt (cmd 2 1)].
Proof.
  destruct (mir_exec_delivers
    (rep 0 <| p_log := {[0%Z := committed 0 (cmd 1 0); 1%Z := committed 1 (cmd 2 1)]} |>))
    as (p' & He & Hp).
  - vm_compute. reflexivity.
  - split; [reflexivity|vm_compute; reflexivity].
  - exists p'. split; [exact He|]. rewrite (ep_deliver _ _ _ Hp). vm_compute. reflexivity.
Defined.

Lemma mir_leader_adopts_hash_witness :
  ∃ p2, stepAgreement (mkAM 0 1 AgreementMessage_Prepare None (Some [x07])) 3 (after (cmd 1 1) (rep 1))
    = Ret (tt, p2) ∧
    ∃ why, stepAgreement (mkAM 0 1 AgreementMessage_Prepare None (Command_Hash (cmd 1 1)).1) 2 p2
      = Panic why.
Proof.
  destruct (mir_leader_adopts_hash (cmd 1 1) (rep 1) (after (cmd 1 1) (rep 1))
    (mkAM 0 1 AgreementMessage_Prepare None (Some [x07])) 3 [x07]) as (p2 & Hs & Hp).
  - vm_compute. reflexivity.
  - apply (bool_decide_unpack _). vm_compute. exact I.
  - vm_compute. reflexivity.
  - reflexivity.
  - vm_compute; discriminate.
  - reflexivity.
  - reflexivity.
  - reflexivity.
  - reflexivity.
  - discriminate.
  - exists p2. split; [exact Hs|]. apply Hp; [reflexivity|reflexivity|left; reflexivity|].
    intros Hh. vm_compute in Hh. discriminate.
Defined.
End mir_witnesses.
