(* ===== verification/MinBft.v ===== *)
(** * MinBFT (src/protocols/minbft)

    The two-phase protocol over a trusted counter.  The enclave that keeps the
    counter (src/enclaves/usig, native code behind cgo) is the interface
    [Usig]; the replica follows instance.go, request.go, quorum.go,
    messaging.go and minbft.go, one Rocq definition per Go function. *)
From S2P Require Import Prelude Command Peer.
From S2P Require Quorum.

(** ** The enclave

    [CreateUIMac] signs a digest under the next counter value. *)
Class Usig (U : Type) := {
  CreateUIMac : bytes → U → (Z * bytes) * U;
  VerifyUIMac : bytes → bytes → Z → bool;
}.

(** What the enclave promises: every signature takes the next counter value,
    and a certificate verifies with the digest and the counter it was made
    for. *)
Class UsigLaws (U : Type) `{Usig U} := {
  usig_counter : U → Z;
  usig_next d u : (usig_counter (CreateUIMac d u).2 = usig_counter u + 1)%Z;
  usig_create d u : (CreateUIMac d u).1.1 = usig_counter (CreateUIMac d u).2;
  usig_verify d u :
    VerifyUIMac d (CreateUIMac d u).1.2 (CreateUIMac d u).1.1 = true;
}.

Module MinBft.

(** ** Data (minbftpb) *)
Definition NormalMessage_Prepare : Z := 0.
Definition NormalMessage_Commit : Z := 1.

Record NormalMessage := mkNM {
  m_Type : Z;
  m_View : Z;
  m_Order : Z;
  m_Command : option Command;
  m_CommandHash : slice;
}.
#[export] Instance NM_eta : Eta NormalMessage := λ m,
  mkNM (m_Type m) (m_View m) (m_Order m) (m_Command m) (m_CommandHash m).
#[export] Instance set_m_Command : Setter m_Command := ltac:(solve_setter).

Inductive MinBFTMessage := MinBFTMessage_Normal (m : NormalMessage) | MinBFTMessage_nil.

Definition NormalMessage_Equals (m other : NormalMessage) : bool :=
  if bool_decide (m_View m ≠ m_View other) then false
  else if bool_decide (m_Order m ≠ m_Order other) then false
  else bytes_Equal (m_CommandHash m) (m_CommandHash other).

(** ** Quorums (quorum.go): a second message of a sender is dropped *)
#[export] Instance NM_QMsg : Quorum.QMsg NormalMessage :=
  {| Quorum.q_view := m_View; Quorum.q_Equals := NormalMessage_Equals |}.

Abbreviation Quorum := (Quorum.Quorum NormalMessage).
Definition newQuorum : Quorum := Quorum.newQuorum.
Definition Quorum_log (id : Z) (m : NormalMessage) (q : Quorum) : outcome Quorum :=
  Quorum.log false id m q.
Definition Quorum_Reset (q : Quorum) : Quorum := Quorum.mkQuorum (Quorum.maxView q) ∅.
Definition Quorum_Majority (f : Z) (m : NormalMessage) (q : Quorum) : bool :=
  Quorum.Majority f m q.

(** ** The replica *)
Record instance := mkInstance {
  i_slot : Z;
  i_view : Z;
  i_command : option Command;
  i_commandHash : slice;
  i_prepared : bool;
  i_commit : bool;
  i_executed : bool;
  i_quorum : option Quorum;   (* nil in the instance of slot 0 *)
}.
#[export] Instance instance_eta : Eta instance := λ i,
  mkInstance (i_slot i) (i_view i) (i_command i) (i_commandHash i) (i_prepared i) (i_commit i)
    (i_executed i) (i_quorum i).
#[export] Instance set_i_command : Setter i_command := ltac:(solve_setter).
#[export] Instance set_i_commandHash : Setter i_commandHash := ltac:(solve_setter).
#[export] Instance set_i_prepared : Setter i_prepared := ltac:(solve_setter).
#[export] Instance set_i_commit : Setter i_commit := ltac:(solve_setter).
#[export] Instance set_i_executed : Setter i_executed := ltac:(solve_setter).
#[export] Instance set_i_quorum : Setter i_quorum := ltac:(solve_setter).

(** [&instance{}] *)
Definition zero_instance : instance := mkInstance 0 0 None None false false false None.

Section minbft.
Context {U : Type} `{GoEnv, Codec Command, Codec MinBFTMessage, Usig U}.

Record minbft := mkMinbft {
  p_id : Z;
  p_nodes : list Z;
  p_f : Z;
  p_log : gmap Z instance;
  p_execute : Z;
  p_slot : Z;
  p_msgs : list Message;
  p_executedCmds : list ExecPacket;
  p_timers : list (Timer.tickingTimer Empty_set);
  p_certifier : U;
  p_stableView : Z;
  p_curView : Z;
}.
#[export] Instance minbft_eta : Eta minbft := λ p,
  mkMinbft (p_id p) (p_nodes p) (p_f p) (p_log p) (p_execute p) (p_slot p) (p_msgs p)
    (p_executedCmds p) (p_timers p) (p_certifier p) (p_stableView p) (p_curView p).
#[export] Instance set_p_log : Setter p_log := ltac:(solve_setter).
#[export] Instance set_p_execute : Setter p_execute := ltac:(solve_setter).
#[export] Instance set_p_slot : Setter p_slot := ltac:(solve_setter).
#[export] Instance set_p_msgs : Setter p_msgs := ltac:(solve_setter).
#[export] Instance set_p_executedCmds : Setter p_executedCmds := ltac:(solve_setter).
#[export] Instance set_p_timers : Setter p_timers := ltac:(solve_setter).
#[export] Instance set_p_certifier : Setter p_certifier := ltac:(solve_setter).

(** [NewMinBFT], with the initialised enclave. *)
Definition NewMinBFT (id : Z) (peers : list Z) (leader maxFailures : Z) (u : U) : minbft :=
  mkMinbft id peers maxFailures {[0%Z := zero_instance]} 1 0 [] [] [] u leader leader.

(** *** Messaging (messaging.go) *)

(** [marshalAndSignNormal]: the bytes, and the certificate followed by the
    counter. *)
Definition marshalAndSignNormal (m : NormalMessage) : M minbft (bytes * bytes) :=
  match Marshal (MinBFTMessage_Normal m) with
  | None => panic "unable to marshal"
  | Some mBytes =>
      p ← get;
      let '((counter, cert), u) := CreateUIMac (sha256 mBytes) (p_certifier p) in
      modify (λ p, p <| p_certifier := u |>);;
      mret (mBytes, cert ++ LittleEndian_PutUint64 counter)
  end.

Definition sendTo (to : Z) (mm cert : bytes) : M minbft unit :=
  modify (λ p, p <| p_msgs ::= λ l, l ++ [mkMessage (p_id p) to mm cert] |>).

Definition broadcast (mBytes cert : bytes) : M minbft unit :=
  p ← get;
  for_each (p_nodes p) (λ node, when (bool_decide (node ≠ p_id p)) (sendTo node mBytes cert)).

Definition broadcastNormal (m : NormalMessage) : M minbft unit :=
  '(mBytes, cert) ← marshalAndSignNormal m;
  broadcast mBytes cert.

(** [p.Execute(e.command)] dereferences the command. *)
Definition Execute (cmd : option Command) : M minbft unit :=
  match cmd with
  | None => panic "nil Command"
  | Some c => modify (λ p, p <| p_executedCmds ::= λ l, l ++ [exec_pkt c] |>)
  end.

(** *** Agreement (instance.go) *)

Definition makeInstance (m : NormalMessage) : instance :=
  mkInstance (m_Order m) (m_View m) (m_Command m) (m_CommandHash m) false false false
    (Some newQuorum).

Definition with_inst (slot : Z) (g : instance → outcome instance) : M minbft unit :=
  p ← get;
  match p_log p !! slot with
  | None => panic "nil instance"
  | Some inst => inst' ← lift (g inst); modify (λ p, p <| p_log ::= <[slot := inst']> |>)
  end.

Definition get_inst (slot : Z) : M minbft instance :=
  p ← get; match p_log p !! slot with None => panic "nil instance" | Some i => mret i end.

Definition updateCommand (m : NormalMessage) (inst : instance) : outcome instance :=
  match i_command inst with
  | Some c =>
      e ← Command_Equal c (m_Command m);
      if negb e then Panic "Different commands for same instance" else Ret inst
  | None => Ret (inst <| i_command := m_Command m |>)
  end.

Definition updateCommandHash (m : NormalMessage) (inst : instance) : outcome instance :=
  match i_commandHash inst with
  | Some _ =>
      if negb (bytes_Equal (i_commandHash inst) (m_CommandHash m))
      then Panic "Different command hashes for same instance" else Ret inst
  | None => Ret (inst <| i_commandHash := m_CommandHash m |>)
  end.

Definition checkCommandHash (cmd : option Command) (hash : slice)
    : outcome (bool * option Command) :=
  '(compHash, cmd) ← Command_Hash_ptr cmd;
  Ret (bytes_Equal hash compHash, cmd).

(** [inst.quorum.log(id, m)] *)
Definition log_vote (id : Z) (m : NormalMessage) (inst : instance) : outcome instance :=
  match i_quorum inst with
  | None => Panic "nil Quorum"
  | Some q => q ← Quorum_log id m q; Ret (inst <| i_quorum := Some q |>)
  end.

Definition inst_Majority (f : Z) (m : NormalMessage) (inst : instance) : bool :=
  match i_quorum inst with Some q => Quorum_Majority f m q | None => false end.

Definition exec_body : M minbft bool :=
  p ← get;
  match p_log p !! p_execute p with
  | None => mret false
  | Some e =>
      if negb (i_commit e) then mret false else
      Execute (i_command e);;
      modify (λ p, p <| p_log ::= <[p_execute p := e <| i_executed := true |>]> |>);;
      modify (λ p, p <| p_execute ::= λ x, u64 (x + 1) |>);;
      mret true
  end.

(** The loop stops at the first slot that is not in the log ([min_exec_ends]). *)
Definition exec : M minbft unit := p ← get; loop (S (size (p_log p))) exec_body.

(** [if inst.prepared && !inst.commit && inst.quorum.Majority(m)]; Go would
    dereference a nil quorum here, but [log] has done so before. *)
Definition maybeCommit (slot : Z) (m : NormalMessage) : M minbft unit :=
  inst ← get_inst slot;
  p ← get;
  when (i_prepared inst && negb (i_commit inst) && inst_Majority (p_f p) m inst)
    (with_inst slot (λ i, Ret (i <| i_commit := true |>));; exec).

Definition fetch_instance (checks : instance → outcome instance) (m : NormalMessage)
    : M minbft unit :=
  p ← get;
  match p_log p !! m_Order m with
  | None => modify (λ p, p <| p_log ::= <[m_Order m := makeInstance m]> |>)
  | Some inst =>
      inst' ← lift (checks inst);
      modify (λ p, p <| p_log ::= <[m_Order m := inst']> |>)
  end.

Definition update_slot (m : NormalMessage) : M minbft unit :=
  p ← get; when (bool_decide (p_slot p < m_Order m)%Z) (modify (λ p, p <| p_slot := m_Order m |>)).

Definition onPrepare (m : NormalMessage) (from : Z) : M minbft unit :=
  p ← get;
  if bool_decide (m_View m < p_curView p)%Z then mret tt else
  update_slot m;;
  '(ok, cmd) ← lift (checkCommandHash (m_Command m) (m_CommandHash m));
  let m := m <| m_Command := cmd |> in
  if negb ok then panic "The hash does not correspond to the command" else
  fetch_instance (λ i, i ← updateCommand m i; updateCommandHash m i) m;;
  with_inst (m_Order m) (log_vote from m);;
  with_inst (m_Order m) (λ i, Ret (i <| i_prepared := true |>));;
  let cm := mkNM NormalMessage_Commit (m_View m) (m_Order m) None (m_CommandHash m) in
  p ← get;
  with_inst (m_Order m) (log_vote (p_id p) cm);;
  broadcastNormal cm;;
  maybeCommit (m_Order m) m.

Definition onCommit (m : NormalMessage) (from : Z) : M minbft unit :=
  update_slot m;;
  fetch_instance (updateCommandHash m) m;;
  with_inst (m_Order m) (log_vote from m);;
  maybeCommit (m_Order m) m.

(** *** Requests (request.go) *)
Definition onRequest (cmd : Command) : M minbft unit :=
  p ← get;
  if bool_decide (p_curView p ≠ p_stableView p) then panic "Fix this" else
  if decide (Z.of_nat (length (p_nodes p)) = 0)%Z then panic "integer divide by zero" else
  if bool_decide (p_stableView p `mod` Z.of_nat (length (p_nodes p)) ≠ p_id p)%Z
  then panic "not the leader" else
  modify (λ p, p <| p_slot ::= λ x, u64 (x + 1) |>);;
  let '(cmdHash, cmd) := Command_Hash cmd in
  p ← get;
  let slot := p_slot p in
  modify (λ p, p <| p_log ::= <[slot :=
    mkInstance slot (p_curView p) (Some cmd) None false false false (Some newQuorum)]> |>);;
  let pr := mkNM NormalMessage_Prepare (p_curView p) slot (Some cmd) cmdHash in
  with_inst slot (log_vote (p_id p) pr);;
  with_inst slot (λ i, Ret (i <| i_prepared := true |>));;
  broadcastNormal pr.

(** *** The [Protocol] methods (minbft.go) *)

Definition stepNormal (m : NormalMessage) (hash content cert : bytes) (from : Z) : M minbft unit :=
  p ← get;
  if bool_decide (p_curView p ≠ p_stableView p) then mret tt else
  let n := Z.of_nat (length cert) in
  counterBytes ← lift (sub_slice cert (n - 8) n);
  counter ← lift (LittleEndian_Uint64 counterBytes);
  mac ← lift (sub_slice cert 0 (n - 8));
  if negb (VerifyUIMac hash mac counter) then mret tt else
  if bool_decide (m_View m ≠ p_curView p) then panic "inconsistent views" else
  if decide (m_Type m = NormalMessage_Prepare) then onPrepare m from
  else if decide (m_Type m = NormalMessage_Commit) then onCommit m from
  else panic "unexpected Message type".

Definition Step (mm : Message) : M minbft unit :=
  match Unmarshal (msg_Content mm) with
  | None => panic "unmarshal"
  | Some (MinBFTMessage_Normal m) =>
      stepNormal m (sha256 (msg_Content mm)) (msg_Content mm) (msg_Certificate mm) (msg_From mm)
  | Some MinBFTMessage_nil => panic "unexpected Message type"
  end.

Definition Callback (message : ExecCallback) : M minbft unit := mret tt.
Definition Tick : M minbft unit :=
  modify (λ p, p <| p_timers ::= fmap (λ t, (Timer.Tick t).1) |>).
Definition MakeReady : M minbft Ready := gets (λ p, mkReady (p_msgs p) (p_executedCmds p)).
Definition ClearMsgs : M minbft unit := modify (λ p, p <| p_msgs := [] |>).
Definition ClearExecutedCommands : M minbft unit := modify (λ p, p <| p_executedCmds := [] |>).
Definition AsyncCallback : M minbft unit := mret tt.

Definition hasPrepared (index : Z) (p : minbft) : bool :=
  match p_log p !! index with Some i => i_prepared i | None => false end.
Definition hasCommitted (index : Z) (p : minbft) : bool :=
  match p_log p !! index with Some i => i_prepared i && i_commit i | None => false end.
Definition hasExecuted (index : Z) (p : minbft) : bool :=
  match p_log p !! index with
  | Some i => i_prepared i && i_commit i && i_executed i
  | None => false
  end.

(** [leaderOfView]: a modulus of unsigned integers. *)
Definition leaderOfView (v : Z) (p : minbft) : outcome Z :=
  if decide (length (p_nodes p) = 0) then Panic "integer divide by zero"
  else Ret (v `mod` Z.of_nat (length (p_nodes p)))%Z.

#[export] Instance minbft_Protocol : Protocol minbft := {|
  Peer.Step := Step;
  Peer.Tick := Tick;
  Peer.Request := onRequest;
  Peer.Callback := Callback;
  Peer.MakeReady := MakeReady;
  Peer.ClearMsgs := ClearMsgs;
  Peer.ClearExecutedCommands := ClearExecutedCommands;
  Peer.AsyncCallback := AsyncCallback;
|}.
End minbft.
Arguments minbft : clear implicits.
End MinBft.
