(* ===== verification/MinProps.v ===== *)
(** * The properties of MinBFT

    The invariant of a replica, termination, the certificates, and what a
    replica accepts from a faulty leader. *)
From S2P Require Import Prelude Command Peer MinBft Wire.
From S2P Require Quorum.
From Stdlib Require Import Strings.Byte.
Import MinBft.

Section ends.
Context {U : Type} `{GoEnv, Codec Command, Codec MinBFTMessage, Usig U}.
Implicit Types (p : minbft U).

Lemma min_checkCommandHash_ends c h : checkCommandHash c h ≠ Diverge.
Proof.
  unfold checkCommandHash, Command_Hash_ptr. destruct c; simpl; [|done]. by destruct (Command_Hash _).
Qed.
Lemma min_updateCommand_ends m i : updateCommand m i ≠ Diverge.
Proof. unfold updateCommand. ends_steps. Qed.
Lemma min_updateCommandHash_ends m i : updateCommandHash m i ≠ Diverge.
Proof. unfold updateCommandHash. ends_steps. Qed.
Lemma min_log_vote_ends k m i : log_vote k m i ≠ Diverge.
Proof. unfold log_vote, Quorum_log. pose proof Quorum.log_ends. ends_steps. Qed.
Hint Resolve min_checkCommandHash_ends min_updateCommand_ends
  min_updateCommandHash_ends min_log_vote_ends : go_ends.

(** *** The loop of [exec]: a round does not come back to a slot it treated *)

(** After [k] rounds from [p0]: the slots treated are in the log. *)
Definition rounds (p0 : minbft U) (k : nat) p : Prop :=
  dom (p_log p) = dom (p_log p0) ∧ p_execute p = u64 (p_execute p0 + Z.of_nat k) ∧
  (∀ s, s ∈ slots (p_execute p0) k → s ∈ dom (p_log p0)).

Lemma rounds_bound p0 k p :
  (Z.of_nat (size (p_log p0)) + 1 < two64)%Z → (Z.of_nat k < two64)%Z →
  rounds p0 k p → k ≤ size (p_log p0).
Proof.
  intros Hs Hk (_ & _ & Hin). rewrite <-size_dom. by apply (slots_size (p_execute p0)).
Qed.

Lemma exec_loop_ends p0 n k p :
  (Z.of_nat (size (p_log p0)) + 1 < two64)%Z → n + k = S (size (p_log p0)) →
  rounds p0 k p → (p_execute p0 = u64 (p_execute p0)) → ends (loop n exec_body) p.
Proof.
  intros Hsz. revert k p. induction n as [|n IH]; intros k p Hn Hr Hx.
  { pose proof (rounds_bound p0 k p Hsz ltac:(lia) Hr). lia. }
  simpl. eapply (ends_bind_wp _ _ (λ b p', b = true → rounds p0 (S k) p')).
  - unfold exec_body, Execute. ends_steps.
  - destruct Hr as (Hd & He & Hin). unfold exec_body. do 2 wp_step.
    destruct (p_log p !! p_execute p) as [e|] eqn:Hlk; [|done]. wp_steps; [done|].
    unfold Execute. wp_steps. intros _. split_and!; [cbn|cbn|].
    + rewrite dom_insert_lookup_L; [done|by eexists].
    + rewrite He. unfold u64. rewrite Zplus_mod_idemp_l. f_equal. lia.
    + intros s. rewrite slots_S, elem_of_app, list_elem_of_singleton, <-He. intros [?| ->]; [auto|].
      rewrite <-Hd. by apply elem_of_dom_2 in Hlk.
  - intros [] p' Hp'; [|done]. apply (IH (S k)); [lia|by apply Hp'|done].
Qed.

(** The state fits: the log has a free slot, and the counter is a word. *)
Definition frame p : gset Z * Z := (dom (p_log p), p_execute p).
Definition fits p : Prop :=
  (Z.of_nat (size (p_log p)) + 1 < two64)%Z ∧ p_execute p = u64 (p_execute p).

Lemma fits_frame p p' : frame p' = frame p → fits p → fits p'.
Proof. unfold frame, fits. intros [= Hd He]. by rewrite <-!size_dom, Hd, He. Qed.

Lemma min_exec_ends p : fits p → ends exec p.
Proof.
  intros [Hs Hx]. change (ends (loop (S (size (p_log p))) exec_body) p).
  apply (exec_loop_ends p _ 0); [done|lia| |done]. split_and!; [done| |].
  - by rewrite Z.add_0_r.
  - intros s Hin%elem_of_nil. done.
Qed.

Lemma min_with_inst_ends slot g p : (∀ i, g i ≠ Diverge) → ends (with_inst slot g) p.
Proof. intros Hg. unfold with_inst. ends_steps. Qed.
Lemma with_inst_keeps slot g p : keeps frame (with_inst slot g) p.
Proof.
  unfold keeps, with_inst. wp_step. wp_step. destruct (p_log p !! slot) eqn:Hi; [|done].
  wp_steps. unfold frame. cbn. by rewrite dom_insert_lookup_L by by eexists.
Qed.
Lemma broadcastNormal_ends m p : ends (broadcastNormal m) p.
Proof. unfold broadcastNormal, marshalAndSignNormal, broadcast, sendTo. ends_steps. Qed.
Lemma broadcastNormal_keeps m p : keeps frame (broadcastNormal m) p.
Proof. unfold broadcastNormal, marshalAndSignNormal, broadcast, sendTo. keeps_steps. Qed.
Hint Resolve with_inst_keeps broadcastNormal_keeps broadcastNormal_ends : go_keeps go_ends.

Lemma min_maybeCommit_ends slot m p : fits p → ends (maybeCommit slot m) p.
Proof.
  intros Hf. unfold maybeCommit, get_inst. apply (ends_bind_keeps frame); [ends_steps|keeps_steps|].
  intros i p1 Hp1. apply (ends_bind_keeps frame); [done|done|]. intros ? p2 Hp2. apply ends_when.
  apply (ends_bind_keeps frame); [by apply min_with_inst_ends|apply with_inst_keeps|].
  intros ? p3 Hp3. apply min_exec_ends, (fits_frame p); [congruence|done].
Qed.

(** A message adds at most one slot. *)
Definition room p : Prop :=
  (Z.of_nat (size (p_log p)) + 2 < two64)%Z ∧ p_execute p = u64 (p_execute p).

Lemma room_frame p p' : frame p' = frame p → room p → room p'.
Proof. unfold frame, room. intros [= Hd He]. by rewrite <-!size_dom, Hd, He. Qed.

Lemma min_fetch_instance_ends g m p : (∀ i, g i ≠ Diverge) → ends (fetch_instance g m) p.
Proof. intros Hg. unfold fetch_instance. ends_steps. Qed.
Lemma fetch_instance_fits g m p : room p → wp (fetch_instance g m) (λ _, fits) p.
Proof.
  intros [Hs Hx]. unfold fetch_instance. wp_step. wp_step.
  assert (∀ i, fits (p <| p_log ::= <[m_Order m := i]> |>)) as Hi; [|by destruct (_ !! _); wp_steps].
  intros i. split; [|done]. cbn. rewrite map_size_insert. destruct (_ !! _); unfold id; lia.
Qed.

Lemma update_slot_ends m p : ends (update_slot m) p.
Proof. unfold update_slot. ends_steps. Qed.
Lemma update_slot_keeps m p : keeps frame (update_slot m) p.
Proof. unfold update_slot. keeps_steps. Qed.

(** The part that the handlers share, up to the majority test. *)
Lemma commit_tail_ends (pre : M (minbft U) unit) slot m p :
  fits p → ends pre p → keeps frame pre p → ends (pre;; maybeCommit slot m) p.
Proof.
  intros Hf He Hk. apply (ends_bind_keeps frame); [done..|]. intros _ p' Hp'.
  by apply min_maybeCommit_ends, (fits_frame p).
Qed.

Lemma min_get_inst_ends slot p : ends (get_inst slot) p.
Proof. unfold get_inst. ends_steps. Qed.
Lemma get_inst_keeps slot p : keeps frame (get_inst slot) p.
Proof. unfold get_inst. keeps_steps. Qed.

Lemma min_onPrepare_ends m from p : room p → ends (onPrepare m from) p.
Proof.
  intros Hr. unfold onPrepare. apply (ends_bind_keeps frame); [done|done|]. intros q p1 Hp1.
  case_bool_decide; [done|].
  apply (ends_bind_keeps frame); [apply update_slot_ends|apply update_slot_keeps|]. intros _ p2 Hp2.
  apply (ends_bind_keeps frame); [ends_steps|keeps_steps|]. intros [ok cmd] p3 Hp3.
  destruct ok; [|done]. simpl negb. cbv iota.
  assert (room p3) as Hr3 by (eapply room_frame; [|done]; congruence).
  eapply (ends_bind_wp _ _ (λ _, fits)); [apply min_fetch_instance_ends; intros i; ends_steps
    |by apply fetch_instance_fits|].
  intros _ p4 Hf. do 2 (apply (ends_bind_keeps frame); [apply min_with_inst_ends; intros i; ends_steps
    |apply with_inst_keeps|intros ? ? ?]).
  apply (ends_bind_keeps frame); [done|done|]. intros ? ? ?.
  apply (ends_bind_keeps frame); [apply min_with_inst_ends; intros i; ends_steps|apply with_inst_keeps|intros ? ? ?].
  apply commit_tail_ends; [|apply broadcastNormal_ends|apply broadcastNormal_keeps].
  eapply fits_frame; [|done]. congruence.
Qed.

Lemma min_onCommit_ends m from p : room p → ends (onCommit m from) p.
Proof.
  intros Hr. unfold onCommit.
  apply (ends_bind_keeps frame); [apply update_slot_ends|apply update_slot_keeps|]. intros _ p2 Hp2.
  eapply (ends_bind_wp _ _ (λ _, fits)); [by apply min_fetch_instance_ends, min_updateCommandHash_ends
    |by apply fetch_instance_fits, (room_frame p)|].
  intros _ p4 Hf. apply commit_tail_ends; [done|apply min_with_inst_ends; intros i; ends_steps|apply with_inst_keeps].
Qed.

Lemma stepNormal_ends m h c cert from p : room p → ends (stepNormal m h c cert from) p.
Proof.
  intros Hr. unfold stepNormal. apply (ends_bind_keeps frame); [done|done|]. intros q p1 Hp1.
  case_bool_decide; [done|].
  do 3 (apply (ends_bind_keeps frame); [ends_steps|keeps_steps|intros ? ? ?]).
  assert (room s'1) as Hr1 by (eapply room_frame; [|done]; congruence).
  repeat case_match; try done; by (apply min_onPrepare_ends || apply min_onCommit_ends).
Qed.

Lemma min_Step_ends m p : room p → ends (MinBft.Step m) p.
Proof. intros Hr. unfold MinBft.Step. repeat case_match; try done. by apply stepNormal_ends. Qed.
Lemma min_onRequest_ends cmd p : ends (onRequest cmd) p.
Proof.
  unfold onRequest. pose proof min_with_inst_ends as Hw.
  repeat (ends_step || (apply Hw; intros ?)).
Qed.
End ends.

(** ** The invariant of a replica *)
Section invariant.
Context {U : Type} `{GoEnv, Codec Command, Codec MinBFTMessage, Usig U}.
Context `{!GoEnvLaws} (marshal_ok : ∀ c : Command, is_Some (Marshal c)).
Context (id : Z) (nodes : list Z) (f v : Z).
(** The packets that the peer has taken. *)
Context (before : list ExecPacket).
Implicit Types (p : minbft U).

(** This replica proposes in view [v]. *)
Definition leading : Prop := (v `mod` Z.of_nat (length nodes) = id)%Z.

(** A command and the hash it was accepted under. *)
Definition hashed (i : instance) : Prop :=
  ∃ c c' h, i_command i = Some c ∧ same_request c c' ∧ i_commandHash i = Some h ∧
    (Command_Hash c').1 ≈ Some h.

(** More than [f] equal votes in an instance, under its hash. *)
Definition backed_by_quorum (s : Z) (i : instance) : Prop :=
  ∃ m q, i_quorum i = Some q ∧ (f < Z.of_nat (size (Quorum.matching m q)))%Z ∧ m_Order m = s ∧
    (¬ leading → m_CommandHash m ≈ i_commandHash i).

Record inst_ok (s : Z) (i : instance) : Prop := {
  io_prepared : i_prepared i = true → is_Some (i_command i);
  io_hash : ¬ leading → i_prepared i = true → hashed i;
  io_votes q w j m : i_quorum i = Some q → Quorum.view_msgs w q !! j = Some m →
    m_View m = w ∧ m_Order m = s;
  io_commit : i_commit i = true → i_prepared i = true ∧ backed_by_quorum s i;
  io_executed : i_executed i = true → i_commit i = true;
}.

(** What is never taken back. *)
Record inst_le (i i' : instance) : Prop := {
  le_command c : i_command i = Some c → i_command i' = Some c;
  le_commit : i_commit i = true → i_commit i' = true;
  le_executed : i_executed i = true → i_executed i' = true;
}.

Lemma min_inst_le_refl i : inst_le i i.
Proof. by split. Qed.

(** The [k]-th packet is that of the instance in slot [k+1]. *)
Definition executed_from (k : nat) (pkt : ExecPacket) (log : gmap Z instance) : Prop :=
  ∃ i c, log !! u64 (1 + Z.of_nat k) = Some i ∧ i_commit i = true ∧ i_executed i = true ∧
    i_command i = Some c ∧ pkt = exec_pkt c.

Record min_inv p : Prop := {
  mi_config : p_id p = id ∧ p_nodes p = nodes ∧ p_f p = f ∧ p_curView p = v ∧ p_stableView p = v;
  mi_slot : (0 ≤ p_slot p)%Z;
  mi_log s i : p_log p !! s = Some i → inst_ok s i ∧ (s ≤ p_slot p)%Z;
  mi_execute : p_execute p = u64 (1 + Z.of_nat (length (before ++ p_executedCmds p)));
  mi_done k pkt : (before ++ p_executedCmds p) !! k = Some pkt → executed_from k pkt (p_log p);
}.

(** *** Storing an instance *)
Lemma executed_from_put s i k pkt (log : gmap Z instance) :
  (∀ old, log !! s = Some old → inst_le old i) →
  executed_from k pkt log → executed_from k pkt (<[s := i]> log).
Proof.
  intros Hle (i0 & c & Hi & Hc & He & Hcmd & ->). unfold executed_from. rewrite lookup_insert.
  case_decide as Hs; [|by exists i0, c]. subst s. destruct (Hle _ Hi). exists i, c. split_and!; auto.
Qed.

Lemma min_put_inv s i p :
  min_inv p → inst_ok s i → (∀ old, p_log p !! s = Some old → inst_le old i) →
  (s ≤ p_slot p)%Z → min_inv (p <| p_log ::= <[s := i]> |>).
Proof.
  intros [] Hok Hle Hs. split; try done; cbn.
  - intros s' i'. rewrite lookup_insert. case_decide; [by intros [= <-]; subst|auto].
  - intros k pkt Hk. apply executed_from_put; auto.
Qed.

(** The instance of a slot satisfies [P]. *)
Definition at_slot (s : Z) (P : instance → Prop) p : Prop := ∃ i, p_log p !! s = Some i ∧ P i.

Lemma with_inst_inv s g (Q : instance → Prop) p :
  min_inv p →
  (∀ i i', p_log p !! s = Some i → inst_ok s i → g i = Ret i' →
    inst_ok s i' ∧ inst_le i i' ∧ Q i') →
  wp (with_inst s g) (λ _ p', min_inv p' ∧ at_slot s Q p') p.
Proof.
  intros Hp Hg. unfold with_inst. wp_step. wp_step. destruct (p_log p !! s) as [i|] eqn:Hi; [|done].
  destruct (mi_log _ Hp _ _ Hi) as [Hok Hs]. wp_steps.
  destruct (Hg i a) as (Ha & Hle & HQ); [done..|]. split.
  - apply min_put_inv; try done. intros old Ho. by simplify_eq.
  - exists a. split; [|done]. apply lookup_insert_eq.
Qed.

(** *** Votes *)
Lemma min_backed_log s i q q' k m :
  i_quorum i = Some q → Quorum_log k m q = Ret q' →
  backed_by_quorum s i → backed_by_quorum s (i <| i_quorum := Some q' |>).
Proof.
  intros Hq Hlog (m0 & q0 & Hq0 & Hm & Ho & Hh). rewrite Hq in Hq0. injection Hq0 as <-. exists m0, q'. split_and!; try done.
  pose proof (Quorum.matching_mono m0 q q' ltac:(by eapply Quorum.log_grows)). lia.
Qed.

Lemma log_vote_ok s k m i i' :
  m_Order m = s → inst_ok s i → log_vote k m i = Ret i' →
  inst_ok s i' ∧ inst_le i i' ∧ i_command i' = i_command i ∧ i_commandHash i' = i_commandHash i ∧
    i_prepared i' = i_prepared i.
Proof.
  intros Ho [Hprep Hhash Hv Hc He] Hl. unfold log_vote in Hl.
  destruct (i_quorum i) as [q|] eqn:Hq; [|done].
  outcome_inv. split_and!; try done. split; try done.
  - intros q' w j m' [= <-] Hm'. eapply Quorum.log_entries in Hm' as [?|(-> & -> & ->)]; eauto.
  - intros Hci. destruct (Hc Hci) as [Hpr Hb]. split; [done|]. by eapply min_backed_log.
Qed.

(** *** Execution *)
Lemma min_exec_body_inv p : min_inv p → wp exec_body (λ _, min_inv) p.
Proof.
  intros Hp. unfold exec_body. wp_step. wp_step.
  destruct (p_log p !! p_execute p) as [e|] eqn:Hl; [|done].
  destruct (i_commit e) eqn:Hc; [|done]. simpl negb. cbv iota. unfold Execute. wp_steps.
  destruct (mi_log _ Hp _ _ Hl) as [[Hprep Hhash Hv Hco He] Hs].
  assert (min_inv (p <| p_log ::= <[p_execute p := e <| i_executed := true |>]> |>)) as Hp'.
  { apply min_put_inv; [done|by split| |done]. intros old Ho. simplify_eq. by split. }
  destruct Hp' as [? ? ? Hx Hd]. split; try done; cbn in *.
  - rewrite (app_assoc before), length_app, Hx. unfold u64. rewrite Zplus_mod_idemp_l.
    f_equal. simpl. lia.
  - intros k pkt. rewrite (app_assoc before), lookup_app_Some. intros [?|[Hk Hk']]; [by apply Hd|].
    apply list_lookup_singleton_Some in Hk' as [Hk' <-].
    replace k with (length (before ++ p_executedCmds p)) by lia.
    unfold executed_from. rewrite <-Hx, lookup_insert_eq. eexists _, _. split_and!; done.
Qed.

Lemma min_exec_inv p : min_inv p → wp exec (λ _, min_inv) p.
Proof.
  intros Hp. unfold exec. wp_step. wp_step. apply (wp_loop min_inv); [|done].
  intros s Hs. eapply wp_mono; [by apply min_exec_body_inv|]. by intros [].
Qed.

Lemma min_maybeCommit_inv s m p :
  (0 ≤ f)%Z → min_inv p → m_Order m = s →
  at_slot s (λ i, ¬ leading → m_CommandHash m ≈ i_commandHash i) p →
  wp (maybeCommit s m) (λ _, min_inv) p.
Proof.
  intros Hf Hp Ho (i & Hi & Hh). unfold maybeCommit, get_inst. wp_step. wp_step. wp_step.
  rewrite Hi. do 4 wp_step; [|done].
  match goal with Hx : _ && _ = true |- _ => apply andb_true_iff in Hx as [[Hpr _]%andb_true_iff Hm] end.
  destruct (mi_config _ Hp) as (_ & _ & Hpf & _). rewrite Hpf in Hm.
  wp_step. eapply wp_mono.
  { apply (with_inst_inv s _ (λ _, True)); [done|].
    intros i0 i' Hi0 Hok [= <-]. rewrite Hi in Hi0. injection Hi0 as <-. split_and!; [|by split|done].
    destruct Hok as [Hprep Hhash Hv Hco He]. split; try done; cbn.
    - intros _. split; [done|]. unfold inst_Majority in Hm.
      destruct (i_quorum i) as [q|] eqn:Hq; [|done]. exists m, q. split_and!; try done.
      by apply Quorum.Majority_spec in Hm. }
  intros _ p' [Hp' _]. by apply min_exec_inv.
Qed.

(** *** Sending *)
Definition content p :=
  (p_id p, p_nodes p, p_f p, p_curView p, p_stableView p, p_log p, p_execute p, p_slot p,
   p_executedCmds p).

Lemma content_inv p p' : content p' = content p → min_inv p → min_inv p'.
Proof.
  unfold content. intros [= H1' H2' H3' H4' H5' H6' H7' H8' H9'] [].
  split; rewrite ?H1', ?H2', ?H3', ?H4', ?H5', ?H6', ?H7', ?H8', ?H9'; done.
Qed.

Lemma broadcastNormal_content m p : keeps content (broadcastNormal m) p.
Proof. unfold broadcastNormal, marshalAndSignNormal, broadcast, sendTo. keeps_steps. Qed.

Lemma broadcastNormal_inv m s P p :
  min_inv p → at_slot s P p → wp (broadcastNormal m) (λ _ p', min_inv p' ∧ at_slot s P p') p.
Proof.
  intros Hp Hs. eapply wp_mono; [apply broadcastNormal_content|]. simpl. intros _ p' Hc.
  split; [by apply (content_inv p)|]. unfold at_slot. assert (p_log p' = p_log p) as -> by (unfold content in Hc; congruence). done.
Qed.

(** *** The first steps of the handlers *)
Lemma update_slot_inv m p :
  min_inv p → wp (update_slot m) (λ _ p', min_inv p' ∧ (m_Order m ≤ p_slot p')%Z) p.
Proof.
  intros Hp. unfold update_slot. wp_step. wp_step. wp_step.
  - match goal with Hx : bool_decide _ = true |- _ => apply bool_decide_eq_true in Hx as Hlt end.
    wp_step. destruct Hp as [? ? Hl ? ?]. split; [|cbn; lia]. split; try done; cbn; [lia|].
    intros s i Hi. destruct (Hl s i Hi). split; [done|lia].
  - match goal with Hx : bool_decide _ = false |- _ => apply bool_decide_eq_false in Hx as Hge end.
    split; [done|lia].
Qed.

Lemma newQuorum_empty w j : Quorum.view_msgs w newQuorum !! j = None.
Proof.
  unfold newQuorum, Quorum.view_msgs, Quorum.newQuorum. cbn [Quorum.msgs].
  rewrite lookup_empty. simpl. by rewrite lookup_empty.
Qed.

Lemma min_makeInstance_ok m : inst_ok (m_Order m) (makeInstance m).
Proof.
  split; try done. intros q w j m' [= <-]. by rewrite newQuorum_empty.
Qed.

Lemma fetch_instance_inv g m (Q : instance → Prop) p :
  min_inv p → (m_Order m ≤ p_slot p)%Z → Q (makeInstance m) →
  (∀ i i', inst_ok (m_Order m) i → g i = Ret i' → inst_ok (m_Order m) i' ∧ inst_le i i' ∧ Q i') →
  wp (fetch_instance g m) (λ _ p', min_inv p' ∧ at_slot (m_Order m) Q p') p.
Proof.
  intros Hp Hs Hn Hg. unfold fetch_instance. wp_step. wp_step.
  destruct (p_log p !! m_Order m) as [i|] eqn:Hi; wp_steps.
  - destruct (mi_log _ Hp _ _ Hi) as [Hok _]. destruct (Hg i a) as (Ha & Hle & HQ); [done..|]. split.
    + apply min_put_inv; try done. intros old Ho. by simplify_eq.
    + exists a. split; [apply lookup_insert_eq|done].
  - split; [|exists (makeInstance m); split; [apply lookup_insert_eq|done]].
    apply min_put_inv; try done; [apply min_makeInstance_ok|]. intros old Ho. by simplify_eq.
Qed.

Lemma updateCommand_ok s m i i' :
  inst_ok s i → updateCommand m i = Ret i' →
  inst_ok s i' ∧ inst_le i i' ∧ i_commandHash i' = i_commandHash i ∧
    ∀ c1, m_Command m = Some c1 → ∃ c, i_command i' = Some c ∧ same_request c c1.
Proof.
  intros [Hprep Hhash Hv Hco He] Hu. unfold updateCommand in Hu.
  destruct (i_command i) as [c|] eqn:Hc.
  - outcome_inv. destruct a; [|done]. simplify_eq/=. split_and!; try done.
    + intros c1 Hc1. rewrite Hc1 in *. exists c. split; [done|].
      by match goal with Hx : Command_Equal _ _ = _ |- _ => apply Command_Equal_iff in Hx as [? _] end.
  - injection Hu as <-. assert (i_prepared i = false) as Hpf.
    { destruct (i_prepared i); [|done]. by destruct (Hprep eq_refl). }
    rewrite Hpf in *. assert (i_commit i = false) as Hcf by (destruct (i_commit i); naive_solver).
    split_and!; try done.
    + split; cbn; rewrite ?Hpf, ?Hcf; try done. by rewrite <-Hcf.
    + split; cbn; rewrite ?Hc; done.
    + intros c1 Hc1. by exists c1.
Qed.

Lemma updateCommandHash_ok s m i i' :
  inst_ok s i → updateCommandHash m i = Ret i' →
  inst_ok s i' ∧ inst_le i i' ∧ i_command i' = i_command i ∧ m_CommandHash m ≈ i_commandHash i'.
Proof.
  intros [Hprep Hhash Hv Hco He] Hu. unfold updateCommandHash in Hu.
  destruct (i_commandHash i) as [h|] eqn:Hh.
  - destruct (bytes_Equal _ _) eqn:Hb; [|done]. simplify_eq/=. split_and!; try done.
    rewrite Hh. symmetry. by apply bytes_Equal_spec.
  - injection Hu as <-.
    assert (¬ leading → i_prepared i = false) as Hpf.
    { intros Hnl. destruct (i_prepared i); [|done]. destruct (Hhash Hnl eq_refl) as (? & ? & ? & _ & _ & ? & _).
      congruence. }
    split_and!; try done. split; try done; cbn.
    + intros Hnl. by rewrite Hpf.
    + intros Hci. destruct (Hco Hci) as [Hpr (m0 & q & Hq & Hm & Ho & Hmh)]. split; [done|].
      exists m0, q. split_and!; try done. intros Hnl. rewrite Hpf in Hpr; done.
Qed.

Lemma hash_Some c : ∃ h, Command_Hash c = (Some h, c) ∧ h ≠ [].
Proof.
  destruct (Command_Hash c) as [[h|] c'] eqn:Hh.
  - exists h. assert (c' = c) as -> by by eapply Command_Hash_restores. split; [done|].
    apply (Command_Hash_nonempty c). by rewrite Hh.
  - unfold Command_Hash in Hh. destruct (marshal_ok (c <| c_TraceInfo := None |>)) as [b Hb].
    by rewrite Hb in Hh.
Qed.

Lemma checkCommandHash_inv c h cmd :
  checkCommandHash c h = Ret (true, cmd) →
  ∃ c0 h0, c = Some c0 ∧ cmd = Some c0 ∧ h = Some h0 ∧ (Command_Hash c0).1 ≈ Some h0.
Proof.
  unfold checkCommandHash, Command_Hash_ptr. destruct c as [c0|]; [|done].
  destruct (hash_Some c0) as (h1 & Hh1 & Hne). rewrite Hh1. simpl. intros [= Hb <-].
  apply bytes_Equal_spec in Hb. destruct h as [h0|]; [|by destruct h1].
  exists c0, h0. rewrite Hh1. split_and!; done.
Qed.

(** *** The handlers *)
Definition accepted (h : slice) (i : instance) : Prop := hashed i ∧ h ≈ i_commandHash i.

Lemma log_vote_inv s k m P p :
  min_inv p → m_Order m = s → at_slot s P p →
  (∀ i i', P i → i_command i' = i_command i → i_commandHash i' = i_commandHash i → P i') →
  wp (with_inst s (log_vote k m)) (λ _ p', min_inv p' ∧ at_slot s P p') p.
Proof.
  intros Hp Ho (i0 & Hi0 & HP) Hmono. apply with_inst_inv; [done|]. intros i i' Hi Hok Hl.
  rewrite Hi0 in Hi. injection Hi as <-.
  destruct (log_vote_ok s k m i0 i') as (? & ? & ? & ? & ?); try done. split_and!; try done.
  by apply (Hmono i0).
Qed.

Lemma accepted_same h i i' :
  accepted h i → i_command i' = i_command i → i_commandHash i' = i_commandHash i → accepted h i'.
Proof. unfold accepted, hashed. by intros ? -> ->. Qed.

Lemma min_onPrepare_inv m from p : (0 ≤ f)%Z → min_inv p → wp (onPrepare m from) (λ _, min_inv) p.
Proof.
  intros Hf Hp. unfold onPrepare. wp_step. wp_step. wp_step; [done|]. wp_step.
  eapply wp_mono; [by apply update_slot_inv|]. intros _ p1 [Hp1 Hs1]. wp_step. wp_step.
  destruct a as [ok cmd]. destruct ok; [|done].
  match goal with Hx : checkCommandHash _ _ = _ |- _ =>
    apply checkCommandHash_inv in Hx as (c0 & h0 & Hc & -> & Hh & Hch) end.
  simpl negb. cbv iota. set (m' := set m_Command _ m). wp_step.
  eapply wp_mono.
  { apply (fetch_instance_inv _ m' (accepted (m_CommandHash m))); [done..| |].
    - split; [|done]. exists c0, c0, h0. split_and!; done.
    - intros i i' Hok Hu. outcome_inv.
      match goal with Hx : updateCommand _ _ = _, Hy : updateCommandHash _ _ = _ |- _ =>
        destruct (updateCommand_ok _ _ _ _ Hok Hx) as (Hok1 & Hle1 & Hh1 & Hc1);
        destruct (updateCommandHash_ok _ _ _ _ Hok1 Hy) as (Hok2 & Hle2 & Hc2 & Hh2) end.
      destruct (Hc1 c0 eq_refl) as (c & Hic & Hsame). split; [done|]. split.
      { destruct Hle1, Hle2. split; auto. }
      split; [|done]. cbn in Hh2. rewrite Hh in Hh2.
      destruct (i_commandHash i') as [h'|] eqn:Hh'.
      + exists c, c0, h'. split_and!; [congruence|done|done|]. by rewrite Hch.
      + destruct (hash_Some c0) as (h1 & Hh1' & Hne). rewrite Hh1' in Hch. destruct Hne.
        unfold slice_eqv in *. simpl in *. congruence. }
  intros _ p2 [Hp2 Ha2]. wp_step.
  eapply wp_mono; [apply log_vote_inv; [done..|apply accepted_same]|]. intros _ p3 [Hp3 Ha3]. wp_step.
  eapply wp_mono.
  { apply (with_inst_inv _ _ (accepted (m_CommandHash m))); [done|].
    intros i i' Hi [Hprep Hhash Hv Hco He] [= <-]. destruct Ha3 as (i3 & Hi3 & Hha & Hh3).
    rewrite Hi3 in Hi. injection Hi as <-. split_and!; [|by split|by apply (accepted_same _ i3)].
    split; try done; cbn.
    - intros _. by destruct Hha as (c & ? & ? & ? & _).
    - intros Hci. split; [done|]. by destruct (Hco Hci). }
  intros _ p4 [Hp4 Ha4]. do 3 wp_step.
  eapply wp_mono; [apply log_vote_inv; [done..|apply accepted_same]|]. intros _ p5 [Hp5 Ha5]. wp_step.
  eapply wp_mono; [by apply broadcastNormal_inv|]. intros _ p6 [Hp6 Ha6].
  apply min_maybeCommit_inv; try done. destruct Ha6 as (i & Hi & _ & Hih). by exists i.
Qed.

Lemma min_onCommit_inv m from p : (0 ≤ f)%Z → min_inv p → wp (onCommit m from) (λ _, min_inv) p.
Proof.
  intros Hf Hp. unfold onCommit. wp_step.
  eapply wp_mono; [by apply update_slot_inv|]. intros _ p1 [Hp1 Hs1]. wp_step.
  eapply wp_mono.
  { apply (fetch_instance_inv _ m (λ i, m_CommandHash m ≈ i_commandHash i)); [done..|].
    intros i i' Hok Hu. by destruct (updateCommandHash_ok _ _ _ _ Hok Hu) as (? & ? & _ & ?). }
  intros _ p2 [Hp2 Ha2]. wp_step.
  eapply wp_mono.
  { apply (log_vote_inv _ _ m (λ i, m_CommandHash m ≈ i_commandHash i)); [done..|].
    by intros i i' Hi _ ->. }
  intros _ p3 [Hp3 (i & Hi & Hh)]. apply min_maybeCommit_inv; try done. by exists i.
Qed.

Lemma min_onRequest_inv cmd p :
  min_inv p → (p_slot p + 1 < two64)%Z → wp (onRequest cmd) (λ _, min_inv) p.
Proof.
  intros Hp Hlt. destruct (mi_config _ Hp) as (Hid & Hnodes & _ & Hv & Hst). unfold onRequest.
  wp_step. wp_step. wp_step; [done|]. destruct (decide _) as [|_]; [done|]. wp_step; [done|].
  match goal with Hx : bool_decide (_ `mod` _ ≠ _)%Z = false |- _ =>
    apply bool_decide_eq_false, dec_stable in Hx as Hlead; rewrite Hst, Hnodes, Hid in Hlead end.
  wp_step. wp_step. destruct (Command_Hash cmd) as [h cmd']. wp_step. wp_step.
  set (p1 := set p_slot _ p).
  set (i := mkInstance (p_slot p1) (p_curView p1) (Some cmd') None false false false (Some newQuorum)).
  wp_step. wp_step.
  assert (p_slot p1 = p_slot p + 1)%Z as Hs1.
  { unfold p1. cbn. apply u64_id. pose proof (mi_slot _ Hp). lia. }
  assert (p_log p1 = p_log p) as Hl1 by done.
  assert (min_inv (p1 <| p_log ::= <[p_slot p1 := i]> |>)) as Hp1.
  { apply min_put_inv; [| | |lia].
    - destruct Hp as [? ? Hl ? ?]. split; try done; rewrite Hs1; [lia|].
      intros s i' Hi'. destruct (Hl s i' Hi'). split; [done|lia].
    - split; try done. intros q w j m [= <-]. by rewrite newQuorum_empty.
    - rewrite Hl1. intros old Ho. apply (mi_log _ Hp) in Ho as [_ Ho]. lia. }
  wp_step. eapply wp_mono.
  { apply (log_vote_inv _ _ _ (λ i, is_Some (i_command i))); [done|done| |by intros ? ? ? ->].
    exists i. split; [apply lookup_insert_eq|by eexists]. }
  intros _ p2 [Hp2 Ha2]. wp_step. eapply wp_mono.
  { apply (with_inst_inv _ _ (λ _, True)); [done|].
    intros i0 i' Hi [Hprep Hhash Hvo Hco He] [= <-]. destruct Ha2 as (i2 & Hi2 & Hc2).
    rewrite Hi2 in Hi. injection Hi as <-. split_and!; [|by split|done]. split; try done; cbn.
    intros Hci. split; [done|]. by destruct (Hco Hci). }
  intros _ p3 [Hp3 _]. eapply wp_mono; [apply broadcastNormal_content|]. simpl.
  intros _ p4 Hc. by apply (content_inv p3).
Qed.

Lemma min_Step_inv mm p : (0 ≤ f)%Z → min_inv p → wp (MinBft.Step mm) (λ _, min_inv) p.
Proof.
  intros Hf Hp. unfold MinBft.Step. destruct (Unmarshal _) as [[m|]|]; [|done..].
  unfold stepNormal. wp_step. wp_step. wp_step; [done|]. wp_steps; [done|].
  repeat case_match; try done; by (apply min_onPrepare_inv || apply min_onCommit_inv).
Qed.
End invariant.

Section runs.
Context {U : Type} `{GoEnv, Codec Command, Codec MinBFTMessage, Usig U}.
Context `{!GoEnvLaws} (marshal_ok : ∀ c : Command, is_Some (Marshal c)).
Implicit Types (p : minbft U).

(** The calls of the peer loop, with the packets it has taken. *)
Inductive min_run : list ExecPacket → minbft U → list ExecPacket → minbft U → Prop :=
| mr_nil h p : min_run h p h p
| mr_step h p m p1 h2 p2 : MinBft.Step m p = Ret (tt, p1) → min_run h p1 h2 p2 → min_run h p h2 p2
| mr_request h p cmd p1 h2 p2 : (p_slot p + 1 < two64)%Z →
    onRequest cmd p = Ret (tt, p1) → min_run h p1 h2 p2 → min_run h p h2 p2
| mr_tick h p p1 h2 p2 : MinBft.Tick p = Ret (tt, p1) → min_run h p1 h2 p2 → min_run h p h2 p2
| mr_msgs h p p1 h2 p2 : MinBft.ClearMsgs p = Ret (tt, p1) → min_run h p1 h2 p2 → min_run h p h2 p2
| mr_executed h p p1 h2 p2 : MinBft.ClearExecutedCommands p = Ret (tt, p1) →
    min_run (h ++ p_executedCmds p) p1 h2 p2 → min_run h p h2 p2.

Lemma NewMinBFT_inv id nodes f v (u : U) :
  min_inv id nodes f v [] (NewMinBFT id nodes v f u).
Proof.
  split; try done; simpl.
  intros s i [<- <-]%lookup_singleton_Some. split; [by split|done].
Qed.

Lemma min_run_inv id nodes f v h p h' p' :
  (0 ≤ f)%Z → min_run h p h' p' → min_inv id nodes f v h p → min_inv id nodes f v h' p'.
Proof.
  intros Hf. induction 1 as [|h p m p1 h2 p2 Hs _ IH|h p cmd p1 h2 p2 Hlt Hs _ IH|h p p1 h2 p2 Hs _ IH
    |h p p1 h2 p2 Hs _ IH|h p p1 h2 p2 Hs _ IH]; intros Hp; [done|..]; apply IH.
  - by apply (wp_run _ _ _ _ _ (min_Step_inv marshal_ok _ _ _ _ _ m p Hf Hp) Hs).
  - by apply (wp_run _ _ _ _ _ (min_onRequest_inv _ _ _ _ _ cmd p Hp Hlt) Hs).
  - injection Hs as <-. by apply (content_inv _ _ _ _ _ p).
  - injection Hs as <-. by apply (content_inv _ _ _ _ _ p).
  - injection Hs as <-. destruct Hp as [? ? ? Hx Hd].
    split; try done; cbn; rewrite ?app_nil_r; done.
Qed.
End runs.

(** ** Certificates, and what a replica accepts from a faulty sender *)
Section certificates.
Context {U : Type} `{GoEnv, Codec Command, Codec MinBFTMessage, Usig U, !UsigLaws U}.
Context (marshal_msg : ∀ m, is_Some (Marshal (MinBFTMessage_Normal m))).
Context (unmarshal_msg : ∀ m b, Marshal (MinBFTMessage_Normal m) = Some b →
  Unmarshal b = Some (MinBFTMessage_Normal m)).
Implicit Types (p q : minbft U).

(** The counter of a replica's enclave. *)
Definition counter q : Z := usig_counter (p_certifier q).

Lemma marshalAndSignNormal_inv m q b cert q' :
  marshalAndSignNormal m q = Ret ((b, cert), q') →
  Marshal (MinBFTMessage_Normal m) = Some b ∧ counter q' = (counter q + 1)%Z ∧
  ∃ mac, cert = mac ++ LittleEndian_PutUint64 (counter q') ∧
    VerifyUIMac (sha256 b) mac (counter q') = true.
Proof.
  unfold marshalAndSignNormal, counter. destruct (Marshal _) as [b'|]; [|done].
  unfold mbind, M_bind, get, modify.
  pose proof (usig_next (sha256 b') (p_certifier q)) as Hn.
  pose proof (usig_create (sha256 b') (p_certifier q)) as Hc.
  pose proof (usig_verify (sha256 b') (p_certifier q)) as Hv.
  destruct (CreateUIMac _ _) as [[ctr mac] u]. simpl in *. intros [= <- <- <-]. cbn. subst ctr.
  split_and!; [done..|]. exists mac. by split.
Qed.

Lemma sub_slice_app_l (a b : bytes) n :
  Z.of_nat (length b) = n →
  sub_slice (a ++ b) 0 (Z.of_nat (length (a ++ b)) - n) = Ret a.
Proof.
  intros <-. unfold sub_slice. rewrite length_app, decide_True by lia. simpl.
  rewrite drop_0. rewrite take_app_length' by lia. done.
Qed.
Lemma sub_slice_app_r (a b : bytes) n :
  Z.of_nat (length b) = n →
  sub_slice (a ++ b) (Z.of_nat (length (a ++ b)) - n) (Z.of_nat (length (a ++ b))) = Ret b.
Proof.
  intros <-. unfold sub_slice. rewrite length_app, decide_True by lia.
  rewrite drop_app_length' by lia. rewrite take_ge by lia. done.
Qed.

(** A signed message of the current view reaches its handler. *)
Lemma step_signed m q b cert q' from to p :
  marshalAndSignNormal m q = Ret ((b, cert), q') → (0 ≤ counter q')%Z → (counter q' < two64)%Z →
  p_curView p = p_stableView p → m_View m = p_curView p →
  MinBft.Step (mkMessage from to b cert) p =
    (if decide (m_Type m = NormalMessage_Prepare) then onPrepare m from
     else if decide (m_Type m = NormalMessage_Commit) then onCommit m from
     else panic "unexpected Message type") p.
Proof.
  intros (Hb & _ & mac & -> & Hmac)%marshalAndSignNormal_inv Hc0 Hc Hcur Hv.
  assert (Z.of_nat (length (LittleEndian_PutUint64 (counter q'))) = 8%Z) as Hlen.
  { unfold LittleEndian_PutUint64. by rewrite length_le_encode. }
  unfold MinBft.Step; cbn [msg_Content msg_Certificate msg_From]. rewrite (unmarshal_msg m b Hb).
  unfold stepNormal, mbind, M_bind, get, lift. rewrite bool_decide_false by (intros []; done).
  rewrite sub_slice_app_r, LittleEndian_roundtrip, sub_slice_app_l by done.
  rewrite Hmac. simpl negb. cbv iota. rewrite bool_decide_false by (intros []; done). done.
Qed.

Lemma send_loop l self b cert p :
  ∃ p', for_each l (λ node, when (bool_decide (node ≠ self)) (sendTo node b cert)) p = Ret (tt, p').
Proof.
  revert p. induction l as [|x l IH]; intros p; [by eexists|]. simpl. unfold mbind, M_bind.
  destruct (bool_decide (x ≠ self)); simpl; apply IH.
Qed.

Lemma broadcastNormal_run m p :
  ∃ p', broadcastNormal m p = Ret (tt, p') ∧ content p' = content p.
Proof.
  pose proof (broadcastNormal_content m p) as Hk. unfold keeps, wp in Hk.
  assert (∃ p', broadcastNormal m p = Ret (tt, p')) as [p' Hb]; [|rewrite Hb in Hk; eauto].
  clear Hk. unfold broadcastNormal, marshalAndSignNormal, broadcast.
  destruct (marshal_msg m) as [b ->]. unfold mbind, M_bind, get, modify.
  destruct (CreateUIMac _ _) as [[ctr mac] u]. apply send_loop.
Qed.

Lemma NormalMessage_Equals_iff m m' :
  NormalMessage_Equals m m' = true ↔
  m_View m = m_View m' ∧ m_Order m = m_Order m' ∧ m_CommandHash m ≈ m_CommandHash m'.
Proof.
  unfold NormalMessage_Equals. repeat case_bool_decide; rewrite ?bytes_Equal_spec; naive_solver.
Qed.

(** Two equal votes make a majority for [f = 1]. *)
Lemma two_votes j k m m' :
  j ≠ k → (0 ≤ m_View m)%Z → NormalMessage_Equals m m' = true →
  ∃ q1 q2 : Quorum, Quorum_log j m newQuorum = Ret q1 ∧ Quorum_log k m' q1 = Ret q2 ∧
    Quorum_Majority 1 m q2 = true.
Proof.
  intros Hjk Hv He. pose proof He as (Hvv & _)%NormalMessage_Equals_iff.
  assert (NormalMessage_Equals m m = true) as Hr by (by apply NormalMessage_Equals_iff).
  eexists _, (Quorum.mkQuorum (m_View m) {[m_View m := {[j := m; k := m']}]}). split_and!.
  - unfold Quorum_log, Quorum.log. simpl. rewrite decide_False by lia.
    rewrite newQuorum_empty. reflexivity.
  - unfold Quorum_log, Quorum.log, Quorum.view_msgs. simpl. rewrite <-Hvv, decide_False by lia.
    rewrite lookup_insert_eq. simpl. rewrite lookup_insert_ne by done.
    match goal with |- context [?X !! k] =>
      replace (X !! k) with (@None NormalMessage) by (symmetry; apply lookup_empty) end.
    rewrite insert_insert_eq. do 2 f_equal.
    unfold singletonM, map_singleton. f_equal. by apply insert_insert_ne.
  - unfold Quorum_Majority. apply Quorum.Majority_spec; [done|]. unfold Quorum.matching, Quorum.view_msgs.
    simpl. rewrite lookup_singleton_eq. simpl.
    rewrite map_filter_insert_True, map_filter_singleton_True by done.
    rewrite map_size_insert_None, map_size_singleton; [done|]. by apply lookup_singleton_ne.
Qed.

(** The instance the replica waits for commits, and the next one is not there. *)
Lemma maybeCommit_first p s m i (qu : Quorum) c :
  p_log p !! s = Some i → p_execute p = s → p_log p !! u64 (s + 1) = None →
  i_prepared i = true → i_commit i = false → i_quorum i = Some qu → i_command i = Some c →
  Quorum_Majority (p_f p) m qu = true →
  ∃ p', maybeCommit s m p = Ret (tt, p') ∧ p_executedCmds p' = p_executedCmds p ++ [exec_pkt c].
Proof.
  intros Hi Hx Hn Hp Hc Hq Hcmd Hm. unfold maybeCommit, get_inst.
  erewrite run_bind; [|erewrite run_bind by reflexivity; rewrite Hi; reflexivity].
  erewrite run_bind by reflexivity. unfold inst_Majority. rewrite Hp, Hc, Hq, Hm. simpl andb.
  unfold when. erewrite run_bind.
  2:{ unfold with_inst. erewrite run_bind by reflexivity. rewrite Hi. reflexivity. }
  unfold exec. erewrite run_bind by reflexivity.
  set (p1 := set p_log _ p).
  assert (p_log p1 = <[s := i <| i_commit := true |>]> (p_log p)) as Hl1 by done.
  assert (p_execute p1 = s) as Hx1 by done.
  assert (p_executedCmds p1 = p_executedCmds p) as <- by done. clearbody p1.
  assert (size (p_log p1) ≠ 0) as Hsz.
  { intros Hz%map_size_empty_inv. rewrite Hl1 in Hz. by apply insert_non_empty in Hz. }
  destruct (size (p_log p1)) as [|k]; [done|]. simpl loop.
  erewrite run_bind.
  2:{ unfold exec_body. erewrite run_bind by reflexivity. rewrite Hx1, Hl1, lookup_insert_eq. cbn.
      unfold Execute. rewrite Hcmd. reflexivity. }
  cbv beta iota. erewrite run_bind.
  2:{ unfold exec_body. erewrite run_bind by reflexivity. cbn. rewrite Hx1, Hl1.
      rewrite !lookup_insert_ne, Hn; [reflexivity|..].
      all: intros Hs; rewrite <-Hs, Hi in Hn; done. }
  eexists. split; [reflexivity|]. done.
Qed.

(** A fresh replica, with one tolerated fault, and a Prepare for slot 1: two
    votes are enough, the sender's and its own. *)
Lemma onPrepare_fresh id nodes v u m from c h :
  from ≠ id → (0 ≤ v)%Z → m_View m = v → m_Order m = 1%Z → m_Command m = Some c →
  m_CommandHash m = Some h → Command_Hash c = (Some h, c) →
  ∃ p', onPrepare m from (NewMinBFT id nodes v 1 u) = Ret (tt, p') ∧
    p_executedCmds p' = [exec_pkt c].
Proof.
  intros Hne Hv Hmv Ho Hc Hh Hch. unfold onPrepare.
  erewrite run_bind by reflexivity. rewrite Hmv. rewrite bool_decide_false by (simpl; lia).
  erewrite run_bind; [|unfold update_slot; erewrite run_bind by reflexivity;
    rewrite Ho, bool_decide_true by (simpl; lia); reflexivity].
  erewrite run_bind; [|unfold checkCommandHash, Command_Hash_ptr; rewrite Hc, Hch; reflexivity].
  cbv beta iota zeta. rewrite Hh, bytes_Equal_refl. change (negb true) with false. cbv iota.
  assert (set m_Command (λ _, Some c) m = m) as Hm.
  { destruct m. simpl in *. by subst. }
  rewrite Hm. erewrite run_bind.
  2:{ unfold fetch_instance. erewrite run_bind by reflexivity. rewrite Ho. cbn. reflexivity. }
  set (cm := mkNM NormalMessage_Commit _ _ _ _).
  destruct (two_votes from id m cm) as (q1 & q2 & Hq1 & Hq2 & Hmaj); [done|rewrite Hmv; lia| |].
  { by apply NormalMessage_Equals_iff. }
  assert (∀ s i g i', p_log s !! 1%Z = Some i → g i = Ret i' →
    with_inst (U:=U) 1 g s = Ret (tt, s <| p_log ::= <[1%Z := i']> |>)) as Hw.
  { intros s i g i' Hs Hg. unfold with_inst. erewrite run_bind by reflexivity. rewrite Hs.
    unfold lift, mbind, M_bind. by rewrite Hg. }
  rewrite Ho. erewrite run_bind; [|eapply Hw; [apply lookup_insert_eq|]].
  2:{ unfold log_vote, makeInstance. simpl. rewrite Hq1. reflexivity. }
  erewrite run_bind; [|eapply Hw; [apply lookup_insert_eq|reflexivity]].
  erewrite run_bind by reflexivity.
  erewrite run_bind; [|eapply Hw; [apply lookup_insert_eq|]].
  2:{ unfold log_vote. simpl. rewrite Hq2. reflexivity. }
  match goal with |- context [(broadcastNormal cm ≫= _) ?s] => set (p5 := s) end.
  destruct (broadcastNormal_run cm p5) as (p6 & Hb & Hc6). erewrite run_bind by exact Hb.
  assert (p_log p6 = p_log p5 ∧ p_execute p6 = p_execute p5 ∧ p_f p6 = p_f p5 ∧
    p_executedCmds p6 = p_executedCmds p5) as (Hl6 & Hx6 & Hf6 & He6).
  { unfold content in Hc6. by simplify_eq. }
  edestruct (maybeCommit_first p6 1 m) as (p' & Hr & He).
  - rewrite Hl6. unfold p5. cbn. apply lookup_insert_eq.
  - by rewrite Hx6.
  - rewrite Hl6. unfold p5. cbn. by rewrite !lookup_insert_ne, lookup_singleton_ne by done.
  - done.
  - done.
  - done.
  - done.
  - by rewrite Hf6.
  - exists p'. split; [exact Hr|]. by rewrite He, He6.
Qed.
End certificates.

(** ** The properties *)
Section min_properties.
Context {U : Type} `{GoEnv, Codec Command, Codec MinBFTMessage, Usig U}.
Implicit Types (p q : minbft U).

(** C15.  Certificates of commitment: after any calls, every instance a replica
    has committed is prepared, has a command, and holds more than [f] equal
    votes for its slot; on a replica that is not the proposer of the view
    these votes are for the hash the instance was accepted under, which is
    the hash of the instance's request. *)
Theorem minbft_commit_backed `{!GoEnvLaws} id nodes f v u h p s i :
  (∀ c : Command, is_Some (Marshal c)) → (0 ≤ f)%Z →
  min_run [] (NewMinBFT id nodes v f u) h p →
  p_log p !! s = Some i → i_commit i = true →
  i_prepared i = true ∧ is_Some (i_command i) ∧ backed_by_quorum id nodes f v s i ∧
  (¬ leading id nodes v → hashed i).
Proof.
  intros Hm Hf Hr Hi Hc.
  eapply (min_run_inv Hm id nodes f v) in Hr; [|done|apply NewMinBFT_inv].
  destruct (mi_log _ _ _ _ _ _ Hr _ _ Hi) as [[Hprep Hhash _ Hco _] _].
  destruct (Hco Hc) as [Hp Hb]. split_and!; auto.
Qed.

(** C17.  Execution in slot order: after any calls, the k-th packet a replica has
    handed to its peer is the command of its committed instance in slot k+1,
    and the next slot follows them. *)
Theorem minbft_executes_in_order `{!GoEnvLaws} id nodes f v u h p :
  (∀ c : Command, is_Some (Marshal c)) → (0 ≤ f)%Z →
  min_run [] (NewMinBFT id nodes v f u) h p →
  p_execute p = u64 (1 + Z.of_nat (length (h ++ p_executedCmds p))) ∧
  ∀ k pkt, (h ++ p_executedCmds p) !! k = Some pkt → executed_from k pkt (p_log p).
Proof.
  intros Hm Hf Hr. eapply (min_run_inv Hm id nodes f v) in Hr; [|done|apply NewMinBFT_inv].
  split; [apply (mi_execute _ _ _ _ _ _ Hr)|apply (mi_done _ _ _ _ _ _ Hr)].
Qed.

(** The handlers of MinBFT end on every message and request, as long as the
    log does not hold all 64-bit slots: the delivery loop visits a slot once. *)
Theorem minbft_terminates p m cmd :
  room p → MinBft.Step m p ≠ Diverge ∧ onRequest cmd p ≠ Diverge.
Proof. intros Hr. split; [by apply min_Step_ends|apply min_onRequest_ends]. Qed.

(**  Certificate round trip: what [marshalAndSignNormal] makes, any replica in
    the message's view accepts; the message reaches its handler as it was
    signed. *)
Theorem minbft_certificate_roundtrip `{!UsigLaws U} m q b cert q' from to p :
  (∀ m b, Marshal (MinBFTMessage_Normal m) = Some b → Unmarshal b = Some (MinBFTMessage_Normal m)) →
  marshalAndSignNormal m q = Ret ((b, cert), q') → (0 ≤ counter q' < two64)%Z →
  p_curView p = p_stableView p → m_View m = p_curView p → m_Type m = NormalMessage_Prepare →
  MinBft.Step (mkMessage from to b cert) p = onPrepare m from p.
Proof. intros Hu Hs [? ?] ? ? Ht. rewrite (step_signed Hu m q b cert q'), Ht; done. Qed.

(**  Equivocation is not prevented: the counter in a certificate is not compared
    with the last one seen, and the sender of a Prepare need not be the
    proposer of the view.  With [f = 1], a faulty replica that signs two
    Prepares for slot 1, under two counter values, makes two fresh correct
    replicas execute different commands there. *)
Theorem minbft_equivocation `{!UsigLaws U} nodes v i j ui uj q q1 q2 c1 c2 h1 h2 b1 b2 cert1 cert2 :
  (∀ m, is_Some (Marshal (MinBFTMessage_Normal m))) →
  (∀ m b, Marshal (MinBFTMessage_Normal m) = Some b → Unmarshal b = Some (MinBFTMessage_Normal m)) →
  (0 ≤ v)%Z → p_id q ≠ i → p_id q ≠ j →
  Command_Hash c1 = (Some h1, c1) → Command_Hash c2 = (Some h2, c2) →
  (0 ≤ counter q)%Z → (counter q + 2 < two64)%Z →
  marshalAndSignNormal (mkNM NormalMessage_Prepare v 1 (Some c1) (Some h1)) q = Ret ((b1, cert1), q1) →
  marshalAndSignNormal (mkNM NormalMessage_Prepare v 1 (Some c2) (Some h2)) q1 = Ret ((b2, cert2), q2) →
  ∃ pi pj,
    MinBft.Step (mkMessage (p_id q) i b1 cert1) (NewMinBFT i nodes v 1 ui) = Ret (tt, pi) ∧
    MinBft.Step (mkMessage (p_id q) j b2 cert2) (NewMinBFT j nodes v 1 uj) = Ret (tt, pj) ∧
    p_executedCmds pi = [exec_pkt c1] ∧ p_executedCmds pj = [exec_pkt c2].
Proof.
  intros Hmar Hun Hv Hi Hj Hc1 Hc2 H0c Hlt Hs1 Hs2.
  pose proof (marshalAndSignNormal_inv _ _ _ _ _ Hs1) as (_ & Hn1 & _).
  pose proof (marshalAndSignNormal_inv _ _ _ _ _ Hs2) as (_ & Hn2 & _).
  rewrite (step_signed Hun _ _ _ _ _ _ _ _ Hs1), (step_signed Hun _ _ _ _ _ _ _ _ Hs2) by
    (done || lia).
  destruct (onPrepare_fresh Hmar i nodes v ui
    (mkNM NormalMessage_Prepare v 1 (Some c1) (Some h1)) (p_id q) c1 h1) as (pi & ? & ?); try done.
  destruct (onPrepare_fresh Hmar j nodes v uj
    (mkNM NormalMessage_Prepare v 1 (Some c2) (Some h2)) (p_id q) c2 h2) as (pj & ? & ?); try done.
  by exists pi, pj.
Qed.
End min_properties.

Module MinDemo.
Import Toy.
#[export] Instance wire_NM : Wire NormalMessage :=
  wire_iso (λ m, (m_Type m, m_View m, m_Order m, m_Command m, m_CommandHash m))
    (λ '(t, v, o, c, h), mkNM t v o c h) ltac:(by intros []).
#[export] Instance MinBFTMessage_codec : Codec MinBFTMessage :=
  wire_codec (wire_iso (λ m, match m with MinBFTMessage_Normal m => Some m | MinBFTMessage_nil => None end)
    (λ o, match o with Some m => MinBFTMessage_Normal m | None => MinBFTMessage_nil end)
    ltac:(by intros [])).
(** An enclave that signs by writing the digest and the counter. *)
#[export] Instance usig : Usig Z := {|
  CreateUIMac d u := ((u + 1, d ++ put (u + 1))%Z, (u + 1)%Z);
  VerifyUIMac d mac c := bool_decide (mac = d ++ put c);
|}.
#[export] Instance usig_laws : UsigLaws Z.
Proof.
  refine {| usig_counter u := u |}; [done|done|]. intros d u. by apply bool_decide_eq_true.
Defined.

Lemma marshal_msg m : is_Some (Marshal (MinBFTMessage_Normal m)).
Proof. by eexists. Qed.
Lemma unmarshal_msg m b :
  Marshal (MinBFTMessage_Normal m) = Some b → Unmarshal b = Some (MinBFTMessage_Normal m).
Proof. apply wire_codec_law. Qed.

Definition rep (j : Z) : minbft Z := NewMinBFT j [0; 1; 2]%Z 0 1 0%Z.
Definition pr (c : Command) : NormalMessage :=
  mkNM NormalMessage_Prepare 0 1 (Some c) (Command_Hash c).1.
Definition signed (m : NormalMessage) (q : minbft Z) : (bytes * bytes) * minbft Z :=
  match marshalAndSignNormal m q with Ret x => x | _ => (([], []), q) end.
Definition msg (m : NormalMessage) (q : minbft Z) (to : Z) : Message :=
  mkMessage (p_id q) to (signed m q).1.1 (signed m q).1.2.
Definition after (m : Message) (p : minbft Z) : minbft Z :=
  match MinBft.Step m p with Ret (_, p) => p | _ => p end.

(** The leader proposes; replica 1 prepares, commits and executes. *)
Definition p1 : minbft Z := after (msg (pr (cmd 1 0)) (rep 0) 1) (rep 1).
Lemma p1_run : min_run [] (rep 1) [] p1.
Proof.
  eapply (mr_step _ _ (msg (pr (cmd 1 0)) (rep 0) 1)); [|apply mr_nil]. unfold p1, after.
  destruct (MinBft.Step _ _) as [[[] p]| |] eqn:Hs; [done|vm_compute in Hs; discriminate Hs..].
Qed.
End MinDemo.

Section min_witnesses.
Import Toy MinDemo.

Lemma minbft_commit_backed_witness :
  ∃ i, p_log p1 !! 1%Z = Some i ∧ i_commit i = true ∧ backed_by_quorum 1 [0; 1; 2]%Z 1 0 1 i ∧ hashed i.
Proof.
  assert (∃ i, p_log p1 !! 1%Z = Some i ∧ i_commit i = true) as (i & Hi & Hc).
  { eexists. split; vm_compute; reflexivity. }
  exists i. split; [exact Hi|]. split; [exact Hc|].
  destruct (minbft_commit_backed 1 [0; 1; 2]%Z 1 0 0%Z [] p1 1 i) as (_ & _ & Hb & Hh).
  - apply command_marshals.
  - done.
  - apply p1_run.
  - exact Hi.
  - exact Hc.
  - split; [exact Hb|]. apply Hh. by vm_compute.
Defined.

Lemma minbft_executes_in_order_witness :
  p_execute p1 = 2%Z ∧ executed_from 0 (exec_pkt (cmd 1 0)) (p_log p1).
Proof.
  destruct (minbft_executes_in_order 1 [0; 1; 2]%Z 1 0 0%Z [] p1) as [Hx Hd].
  - apply command_marshals.
  - done.
  - apply p1_run.
  - split; [vm_compute; reflexivity|]. apply Hd. vm_compute. reflexivity.
Defined.

Lemma minbft_terminates_witness :
  MinBft.Step (msg (pr (cmd 1 0)) (rep 0) 1) (rep 1) ≠ Diverge ∧ onRequest (cmd 1 0) (rep 1) ≠ Diverge.
Proof. apply (minbft_terminates (rep 1)). split; vm_compute; reflexivity. Defined.

Lemma minbft_certificate_roundtrip_witness :
  MinBft.Step (msg (pr (cmd 1 0)) (rep 0) 1) (rep 1) = onPrepare (pr (cmd 1 0)) 0 (rep 1).
Proof.
  apply (minbft_certificate_roundtrip _ (rep 0) _ _ (signed (pr (cmd 1 0)) (rep 0)).2).
  - apply unmarshal_msg.
  - vm_compute. reflexivity.
  - split; [by vm_compute|vm_compute; reflexivity].
  - reflexivity.
  - reflexivity.
  - reflexivity.
Defined.

(** Replica 2, not the proposer of view 0, is faulty. *)
Lemma minbft_equivocation_witness :
  let q := rep 2 in let q1 := (signed (pr (cmd 1 0)) q).2 in
  ∃ pi pj, MinBft.Step (msg (pr (cmd 1 0)) q 0) (rep 0) = Ret (tt, pi) ∧
    MinBft.Step (msg (pr (cmd 2 0)) q1 1) (rep 1) = Ret (tt, pj) ∧
    p_executedCmds pi = [exec_pkt (cmd 1 0)] ∧ p_executedCmds pj = [exec_pkt (cmd 2 0)].
Proof.
  intros q q1.
  refine (minbft_equivocation [0; 1; 2]%Z 0 0 1 0%Z 0%Z q q1 (signed (pr (cmd 2 0)) q1).2 (cmd 1 0) (cmd 2 0)
    (default [] (Command_Hash (cmd 1 0)).1) (default [] (Command_Hash (cmd 2 0)).1)
    _ _ _ _ _ _ _ _ _ _ _ _ _ _ _).
  - apply marshal_msg.
  - apply unmarshal_msg.
  - done.
  - done.
  - done.
  - vm_compute. reflexivity.
  - vm_compute. reflexivity.
  - by vm_compute.
  - vm_compute. reflexivity.
  - vm_compute. reflexivity.
  - vm_compute. reflexivity.
Defined.
End min_witnesses.
