(* ===== verification/ChainHotstuff.v ===== *)
(** * Chained HotStuff (src/protocols/chainhotstuff)

    The block tree of one replica: proposals and votes whose signatures are
    checked by a worker pool (block.go), the two- and three-chain rules that
    lock and decide blocks, the pacemaker (pacemaker.go), view changes
    (newview.go) and quorum certificates (signer.go); one Rocq definition per
    Go function.  A block is the value of its [BlockState]: the code never
    changes a block after it has computed its hash, so the cached hash of the
    Go struct is the function [hash].  The ed25519 library is the class
    [Ed25519]. *)
From S2P Require Import Prelude Command Worker Peer.
From Stdlib Require Import Strings.Byte.
Import Worker (Dispatcher, NewDispatcher).

(** ** The signature library, under the key pair written in signer.go

    [PrivateKey.Sign] ([None] is an error), [VerifyWithOptions], and
    [VerifyBatch]: the first result of the last says whether all the signatures
    hold, the second which; [None] is an error. *)
Class Ed25519 := {
  ed_Sign : bytes → option bytes;
  ed_Verify : bytes → slice → bool;
  ed_VerifyBatch : list (slice * slice) → option (bool * list bool);
}.

(** What the code relies on: a signature made by the library verifies, and a
    batch of 64-byte digests is verified like its parts. *)
Class Ed25519Laws `{Ed25519} := {
  ed_Sign_Verify m s : ed_Sign m = Some s → ed_Verify m (Some s) = true;
  ed_VerifyBatch_parts l :
    Forall (λ ms : slice * slice, length (default [] ms.1) = 64) l →
    let oks := (λ ms : slice * slice, ed_Verify (default [] ms.1) ms.2) <$> l in
    ed_VerifyBatch l = Some (forallb id oks, oks);
}.

Module ChainHotstuff.

(** ** Data (chainhotstuffpb) *)
Record Signature := mkSig { s_Sig : slice; s_Signer : Z }.
Record QuorumCert := mkQC { qc_Sigs : gmap Z (option Signature); qc_BlockHash : slice }.
Record BlockState := mkBS {
  b_Parent : slice;
  b_Command : option Command;
  b_Height : Z;
  b_QC : option QuorumCert;
  b_Proposer : Z;
}.
(** A [ProposeMessage] embeds a [BlockState] and holds nothing else. *)
Abbreviation ProposeMessage := BlockState.
Record VoteMessage := mkVote { v_BlockHash : slice; v_Signature : option Signature }.
Record NewViewMessage := mkNewView { nv_Height : Z; nv_QC : option QuorumCert; nv_Hash512 : slice }.

Inductive ChainHotstuffMessage :=
| ChainHotstuffMessage_Propose (m : ProposeMessage)
| ChainHotstuffMessage_Vote (m : VoteMessage)
| ChainHotstuffMessage_NewView (m : NewViewMessage)
| ChainHotstuffMessage_nil.

#[export] Instance Signature_eq_dec : EqDecision Signature.
Proof. solve_decision. Defined.
#[export] Instance QuorumCert_eq_dec : EqDecision QuorumCert.
Proof. solve_decision. Defined.
#[export] Instance BlockState_eq_dec : EqDecision BlockState.
Proof. solve_decision. Defined.

(** [BlockHashSlice.Array]: the 64 bytes copied into an array of zeros. *)
Definition Array (bhs : slice) : bytes := take 64 (default [] bhs ++ replicate 64 x00).

Definition genesis : BlockState := mkBS None None 0 None 0.

(** ** The state *)

(** The closures handed to the verification pool. *)
Inductive verifyJob :=
| VerifyPropose (m : ProposeMessage)
| VerifyVote (m : VoteMessage) (blk : BlockState)
| VerifyNewView (from : Z) (m : NewViewMessage).

Inductive pmAction := PmTimeout.

Record hotstuff := mkHotstuff {
  hs_id : Z;
  hs_peers : list Z;
  hs_msgs : list Message;
  hs_committedCmds : list ExecPacket;
  hs_timers : list (Timer.tickingTimer pmAction);
  hs_f : Z;
  hs_cmdQueue : list Command;
  pm_lastBeat : Z;
  pm_timer : Timer.tickingTimer pmAction;
  quorumSize : Z;
  hs_blocks : gmap (list Byte.byte) BlockState;
  lastVote : Z;
  bLock : BlockState;
  bExec : BlockState;
  bLeaf : BlockState;
  highQC : QuorumCert;
  verifiedVotes : gmap (list Byte.byte) (list VoteMessage);
  pendingVotes : gmap (list Byte.byte) (list VoteMessage);
  pendingProposals : gmap (list Byte.byte) ProposeMessage;
  hs_newView : gmap Z (gset Z);
  verifyDispatcher : Dispatcher verifyJob;
  hs_callbackC : list (verifyJob * outcome bytes);
}.
#[export] Instance hotstuff_eta : Eta hotstuff := λ s,
  mkHotstuff (hs_id s) (hs_peers s) (hs_msgs s) (hs_committedCmds s) (hs_timers s) (hs_f s)
    (hs_cmdQueue s) (pm_lastBeat s) (pm_timer s) (quorumSize s) (hs_blocks s) (lastVote s)
    (bLock s) (bExec s) (bLeaf s) (highQC s) (verifiedVotes s) (pendingVotes s)
    (pendingProposals s) (hs_newView s) (verifyDispatcher s) (hs_callbackC s).
#[export] Instance set_hs_msgs : Setter hs_msgs := ltac:(solve_setter).
#[export] Instance set_hs_committedCmds : Setter hs_committedCmds := ltac:(solve_setter).
#[export] Instance set_hs_timers : Setter hs_timers := ltac:(solve_setter).
#[export] Instance set_hs_cmdQueue : Setter hs_cmdQueue := ltac:(solve_setter).
#[export] Instance set_pm_lastBeat : Setter pm_lastBeat := ltac:(solve_setter).
#[export] Instance set_pm_timer : Setter pm_timer := ltac:(solve_setter).
#[export] Instance set_hs_blocks : Setter hs_blocks := ltac:(solve_setter).
#[export] Instance set_lastVote : Setter lastVote := ltac:(solve_setter).
#[export] Instance set_bLock : Setter bLock := ltac:(solve_setter).
#[export] Instance set_bExec : Setter bExec := ltac:(solve_setter).
#[export] Instance set_bLeaf : Setter bLeaf := ltac:(solve_setter).
#[export] Instance set_highQC : Setter highQC := ltac:(solve_setter).
#[export] Instance set_verifiedVotes : Setter verifiedVotes := ltac:(solve_setter).
#[export] Instance set_pendingVotes : Setter pendingVotes := ltac:(solve_setter).
#[export] Instance set_pendingProposals : Setter pendingProposals := ltac:(solve_setter).
#[export] Instance set_hs_newView : Setter hs_newView := ltac:(solve_setter).
#[export] Instance set_verifyDispatcher : Setter verifyDispatcher := ltac:(solve_setter).
#[export] Instance set_hs_callbackC : Setter hs_callbackC := ltac:(solve_setter).

Inductive signerErr := ErrHashMismatch | ErrPartialDuplicate.

Section hotstuff.
Context `{GoEnv, Codec BlockState, Codec ChainHotstuffMessage, MapRange, Ed25519}.

(** *** Blocks *)
Definition hash (b : BlockState) : outcome bytes :=
  match Marshal b with None => Panic "proto.Marshal" | Some bBytes => Ret (sha512 bBytes) end.

Definition newBlock (parent : bytes) (cmd : option Command) (qc : option QuorumCert)
    (height proposer : Z) : BlockState :=
  mkBS (Some parent) cmd height qc proposer.

(** *** Quorum certificates (signer.go) *)

(** The loop of [createQuorumCert]. *)
Fixpoint add_votes (hash : bytes) (votes : list VoteMessage) (sigs : gmap Z (option Signature))
    : outcome (gmap Z (option Signature) + signerErr) :=
  match votes with
  | [] => Ret (inl sigs)
  | s :: votes =>
      if negb (bytes_Equal (Some hash) (v_BlockHash s)) then Ret (inr ErrHashMismatch) else
      match v_Signature s with
      | None => Panic "nil Signature"
      | Some sig =>
          match sigs !! s_Signer sig with
          | Some _ => Ret (inr ErrPartialDuplicate)
          | None => add_votes hash votes (<[s_Signer sig := Some sig]> sigs)
          end
      end
  end.

Definition createQuorumCert (blk : BlockState) (signatures : list VoteMessage)
    : outcome (QuorumCert + signerErr) :=
  h ← hash blk;
  r ← add_votes h signatures ∅;
  Ret (match r with inl sigs => inl (mkQC sigs (Some h)) | inr e => inr e end).

(** The messages and signatures of the batch, in the order the map is ranged. *)
Fixpoint batch (h : slice) (l : list (Z * option Signature)) : outcome (list (slice * slice)) :=
  match l with
  | [] => Ret []
  | (_, None) :: _ => Panic "nil Signature"
  | (_, Some sig) :: l => b ← batch h l; Ret ((h, s_Sig sig) :: b)
  end.

Definition verifyQuorumCert (quorumSize : Z) (qc : option QuorumCert) : outcome bool :=
  match qc with
  | None => Panic "nil QuorumCert"
  | Some qc =>
      g ← hash genesis;
      if decide (Array (qc_BlockHash qc) = g) then Ret true else
      if bool_decide (Z.of_nat (size (qc_Sigs qc)) < quorumSize)%Z then Ret false else
      b ← batch (qc_BlockHash qc) (range (qc_Sigs qc));
      match ed_VerifyBatch b with
      | None => Panic "VerifyBatch"
      | Some (allOk, ok) =>
          if (allOk : bool) then Ret true
          else Ret (bool_decide (quorumSize ≤ Z.of_nat (length (filter (λ o, o = true) ok)))%Z)
      end
  end.

(** What a worker computes for a job; a panic in a worker stops the process,
    here when its result is read. *)
Definition verify_job (qsize : Z) (j : verifyJob) : outcome bytes :=
  ok ← match j with
       | VerifyPropose m => verifyQuorumCert qsize (b_QC m)
       | VerifyVote m blk =>
           h ← hash blk;
           match v_Signature m with
           | None => Panic "nil Signature"
           | Some sig => Ret (ed_Verify h (s_Sig sig))
           end
       | VerifyNewView _ m => verifyQuorumCert qsize (nv_QC m)
       end;
  Ret (if (ok : bool) then [x01] else [x00]).

(** *** Messaging (messaging.go) *)
Definition enqueueForSending (to : Z) (mm certificate : bytes) : M hotstuff unit :=
  modify (λ s, s <| hs_msgs ::= λ l, l ++ [mkMessage (hs_id s) to mm certificate] |>).

Definition marshall (m : ChainHotstuffMessage) : outcome bytes :=
  match Marshal m with None => Panic "unable to marshall" | Some b => Ret b end.

Definition sendTo (to : Z) (mBytes sign : bytes) : M hotstuff unit :=
  enqueueForSending to mBytes sign.

Definition broadcast (mBytes : bytes) (sendToSelf : bool) (sign : bytes) : M hotstuff unit :=
  s ← get;
  for_each (hs_peers s) (λ peer,
    when (sendToSelf || bool_decide (peer ≠ hs_id s)) (enqueueForSending peer mBytes sign)).

(** [hs.verifyDispatcher.Exec] *)
Definition verify (j : verifyJob) : M hotstuff unit :=
  modify (λ s, s <| verifyDispatcher ::= Worker.Exec j |>).

Definition lookup_block (h : bytes) : M hotstuff (option BlockState) :=
  gets (λ s, hs_blocks s !! h).
Definition store_block (h : bytes) (b : BlockState) : M hotstuff unit :=
  modify (λ s, s <| hs_blocks ::= <[h := b]> |>).

(** *** Proposals and votes (block.go), the pacemaker (pacemaker.go) *)
Definition getLeader (view : Z) : M hotstuff Z :=
  s ← get;
  if decide (length (hs_peers s) = 0) then panic "integer divide by zero"
  else mret (view `mod` Z.of_nat (length (hs_peers s)))%Z.

Definition onPropose (m : ProposeMessage) : M hotstuff unit :=
  h ← lift (hash m);
  leader ← getLeader (b_Height m);
  if bool_decide (b_Proposer m ≠ leader) then panic "Very bad" else
  s ← get;
  if bool_decide (b_Height m ≤ lastVote s)%Z then mret tt else
  verify (VerifyPropose m).

Definition propose : M hotstuff unit :=
  s ← get;
  let cmd := head (hs_cmdQueue s) in
  modify (λ s, s <| hs_cmdQueue ::= tail |>);;
  h ← lift (hash (bLeaf s));
  let blk := newBlock h cmd (Some (highQC s)) (u64 (b_Height (bLeaf s) + 1)) (hs_id s) in
  blkHash ← lift (hash blk);
  store_block blkHash blk;;
  mBytes ← lift (marshall (ChainHotstuffMessage_Propose blk));
  broadcast mBytes false [];;
  onPropose blk.

Definition beat : M hotstuff unit :=
  s ← get;
  let view := b_Height (bLeaf s) in
  if bool_decide (view ≤ pm_lastBeat s)%Z then mret tt else
  leader ← getLeader (u64 (view + 1));
  if bool_decide (hs_id s ≠ leader) then mret tt else
  modify (λ s, s <| pm_lastBeat := view |>);;
  propose.

Definition pm_onPropose : M hotstuff unit := modify (λ s, s <| pm_timer ::= Timer.Reset |>).
Definition pm_onFinishQC : M hotstuff unit := beat.
Definition pm_onNewView : M hotstuff unit := beat.

Definition queueBlockVote (vote : VoteMessage) : M hotstuff unit :=
  let h := Array (v_BlockHash vote) in
  modify (λ s, s <| pendingVotes ::= λ pv, <[h := default [] (pv !! h) ++ [vote]]> pv |>).

Definition queueBlockPropose (m : ProposeMessage) : M hotstuff unit :=
  h ← lift (hash m);
  match b_QC m with
  | None => panic "nil QuorumCert"
  | Some qc => modify (λ s, s <| pendingProposals ::= <[Array (qc_BlockHash qc) := m]> |>)
  end.

(** The votes that the deferred function of [onVote] keeps. *)
Definition live_votes (s : hotstuff) : gmap (list Byte.byte) (list VoteMessage) :=
  filter (λ kv : list Byte.byte * list VoteMessage, match hs_blocks s !! kv.1 with
                | Some blk => bool_decide (b_Height (bLeaf s) < b_Height blk)%Z
                | None => false
                end = true) (verifiedVotes s).

Definition onVote (m : VoteMessage) : M hotstuff unit :=
  match v_Signature m with
  | None => panic "nil Signature"
  | Some _ =>
      blk ← lookup_block (Array (v_BlockHash m));
      s ← get;
      match blk with
      | None => queueBlockVote m
      | Some blk =>
          if bool_decide (b_Height blk ≤ b_Height (bLeaf s))%Z then mret tt
          else verify (VerifyVote m blk)
      end;;
      modify (λ s, s <| verifiedVotes := live_votes s |>)
  end.

Definition updateHighQC (qc : option QuorumCert) : M hotstuff unit :=
  match qc with
  | None => panic "nil QuorumCert"
  | Some qc =>
      newBlock ← lookup_block (Array (qc_BlockHash qc));
      match newBlock with
      | None => mret tt
      | Some newBlock =>
          s ← get;
          oldBlock ← lookup_block (Array (qc_BlockHash (highQC s)));
          match oldBlock with
          | None => panic "Block from the old highQC missing from chain"
          | Some oldBlock =>
              when (bool_decide (b_Height oldBlock < b_Height newBlock)%Z)
                (modify (λ s, s <| highQC := qc |> <| bLeaf := newBlock |>))
          end
      end
  end.

Definition onVoteContinue (m : VoteMessage) (blk : BlockState) : M hotstuff unit :=
  match v_Signature m with
  | None => panic "nil Signature"
  | Some _ =>
      h ← lift (hash blk);
      s ← get;
      let votes := default [] (verifiedVotes s !! h) ++ [m] in
      modify (λ s, s <| verifiedVotes ::= <[h := votes]> |>);;
      if bool_decide (Z.of_nat (length votes) < 2 * hs_f s + 1)%Z then mret tt else
      qc ← lift (createQuorumCert blk votes);
      match qc with
      | inr _ => panic "OnVote: could not create QC for block"
      | inl qc =>
          modify (λ s, s <| verifiedVotes ::= delete h |>);;
          updateHighQC (Some qc);;
          pm_onFinishQC
      end
  end.

(** *** The chain rules *)
Definition qcRef (blocks : gmap (list Byte.byte) BlockState) (qc : option QuorumCert)
    : option BlockState :=
  qc ← qc; blocks !! Array (qc_BlockHash qc).

Definition execute (cmd : Command) : M hotstuff unit :=
  modify (λ s, s <| hs_committedCmds ::= λ l, l ++ [exec_pkt cmd] |>).

(** The recursion follows parents; see [commit_ends] for the fuel. *)
Fixpoint commit_rec (fuel : nat) (blk : BlockState) : M hotstuff unit :=
  match fuel with
  | O => λ _, Diverge
  | S fuel =>
      s ← get;
      when (bool_decide (b_Height (bExec s) < b_Height blk)%Z)
        (parent ← lookup_block (Array (b_Parent blk));
         match parent with Some parent => commit_rec fuel parent | None => mret tt end;;
         match b_QC blk, b_Command blk with
         | Some _, Some cmd => execute cmd
         | _, _ => mret tt
         end)
  end.
Definition commit (blk : BlockState) : M hotstuff unit :=
  s ← get; commit_rec (S (S (size (hs_blocks s)))) blk.

Definition update (blk : BlockState) : M hotstuff unit :=
  s ← get;
  match qcRef (hs_blocks s) (b_QC blk) with
  | None => mret tt
  | Some block1 =>
      updateHighQC (b_QC blk);;
      s ← get;
      match qcRef (hs_blocks s) (b_QC block1) with
      | None => mret tt
      | Some block2 =>
          when (bool_decide (b_Height (bLock s) < b_Height block2)%Z)
            (modify (λ s, s <| bLock := block2 |>));;
          match qcRef (hs_blocks s) (b_QC block2) with
          | None => mret tt
          | Some block3 =>
              h2 ← lift (hash block2);
              h3 ← lift (hash block3);
              when (bool_decide (Array (b_Parent block1) = h2 ∧ Array (b_Parent block2) = h3))
                (commit block3;; modify (λ s, s <| bExec := block3 |>))
          end
      end
  end.

Definition deliver (blk : BlockState) : M hotstuff unit :=
  h ← lift (hash blk);
  s ← get;
  match pendingVotes s !! h with
  | Some votes =>
      modify (λ s, s <| pendingVotes ::= delete h |>);;
      store_block h blk;;
      for_each votes onVote
  | None => mret tt
  end;;
  s ← get;
  match pendingProposals s !! h with
  | Some nextProposal =>
      modify (λ s, s <| pendingProposals ::= delete h |>);;
      onPropose nextProposal
  | None => mret tt
  end.

(** The loop of [onProposeContinue]: the first ancestor of [b] that is not
    above [lockHeight], when all the blocks before it are there. *)
Fixpoint walk (fuel : nat) (blocks : gmap (list Byte.byte) BlockState) (lockHeight : Z)
    (b : BlockState) : outcome (option BlockState) :=
  match fuel with
  | O => Diverge
  | S fuel =>
      if bool_decide (lockHeight < b_Height b)%Z then
        match blocks !! Array (b_Parent b) with
        | Some b => walk fuel blocks lockHeight b
        | None => Ret None
        end
      else Ret (Some b)
  end.

(** The tests of [onProposeContinue] that set [safe]: the block's certificate
    is for a block above the lock, or the block extends the locked block. *)
Definition above_lock (qc : QuorumCert) (s : hotstuff) : bool :=
  match hs_blocks s !! Array (qc_BlockHash qc) with
  | Some qcBlock => bool_decide (b_Height (bLock s) < b_Height qcBlock)%Z
  | None => false
  end.
Definition extends_lock (blk : BlockState) (s : hotstuff) : outcome bool :=
  b ← walk (S (S (size (hs_blocks s)))) (hs_blocks s) (b_Height (bLock s)) blk;
  match b with
  | Some b => h ← hash b; hl ← hash (bLock s); Ret (bool_decide (h = hl))
  | None => Ret false
  end.
Definition safe_block (blk : BlockState) (qc : QuorumCert) (s : hotstuff) : outcome bool :=
  if above_lock qc s then Ret true else extends_lock blk s.

Definition finish (blk : BlockState) : M hotstuff unit := update blk;; deliver blk.

Definition onProposeContinue (blk : BlockState) : M hotstuff unit :=
  match b_QC blk with
  | None => panic "nil QuorumCert"
  | Some qc =>
      s ← get;
      safe ← lift (safe_block blk qc s);
      if negb safe then queueBlockPropose blk else
      pm_onPropose;;
      h ← lift (hash blk);
      match ed_Sign h with
      | None => mret tt
      | Some sig =>
          store_block h blk;;
          modify (λ s, s <| lastVote := b_Height blk |>);;
          let vm := mkVote (Some h) (Some (mkSig (Some sig) (hs_id s))) in
          leaderID ← getLeader (u64 (b_Height blk + 1));
          if bool_decide (leaderID = hs_id s) then finish blk;; onVote vm
          else
            vmBytes ← lift (marshall (ChainHotstuffMessage_Vote vm));
            sendTo leaderID vmBytes [];;
            finish blk
      end
  end.

(** *** View changes (newview.go) *)
Definition onNewView (from : Z) (msg : NewViewMessage) : M hotstuff unit :=
  verify (VerifyNewView from msg);;
  modify (λ s, s <| hs_newView ::= filter (λ vw : Z * gset Z, (b_Height (bLeaf s) ≤ vw.1)%Z) |>).

Definition onNewViewContinue (from : Z) (msg : NewViewMessage) (ok : bool) : M hotstuff unit :=
  when ok (updateHighQC (nv_QC msg));;
  s ← get;
  let v := {[from]} ∪ default ∅ (hs_newView s !! nv_Height msg) in
  modify (λ s, s <| hs_newView ::= <[nv_Height msg := v]> |>);;
  if bool_decide (Z.of_nat (size v) < quorumSize s)%Z then mret tt else pm_onNewView.

Definition startNewView : M hotstuff unit :=
  s ← get;
  h ← lift (hash (bLeaf s));
  let msg := mkNewView (b_Height (bLeaf s)) (Some (highQC s)) (Some h) in
  leaderID ← getLeader (u64 (b_Height (bLeaf s) + 1));
  if bool_decide (leaderID = hs_id s) then onNewView (hs_id s) msg else
  mBytes ← lift (marshall (ChainHotstuffMessage_NewView msg));
  sendTo leaderID mBytes [].

Definition createDummy : M hotstuff unit :=
  s ← get;
  h ← lift (hash (bLeaf s));
  let dummy := newBlock h None None (u64 (b_Height (bLeaf s) + 1)) (hs_id s) in
  hd ← lift (hash dummy);
  store_block hd dummy;;
  modify (λ s, s <| bLeaf := dummy |>).

(** [onTimeout]; the timer is in no list that [Tick] visits. *)
Definition onTimeout : M hotstuff unit :=
  createDummy;; startNewView;; modify (λ s, s <| pm_timer ::= Timer.Reset |>).

(** *** The verification pool *)

(** The callback of a job, with the result of the worker: [res[0] == 0]. *)
Definition verified (j : verifyJob) (res : outcome bytes) : M hotstuff unit :=
  res ← lift res;
  match res with
  | [] => panic "index out of range"
  | r0 :: _ =>
      let ok := negb (bool_decide (r0 = x00)) in
      match j with
      | VerifyPropose m =>
          if ok then onProposeContinue m else panic "updateHighQC: QC could not be verified!"
      | VerifyVote m blk =>
          if ok then onVoteContinue m blk else panic "updateHighQC: QC could not be verified!"
      | VerifyNewView from m => onNewViewContinue from m ok
      end
  end.

Definition worker_step (cap : nat) (e : Worker.event) (s : hotstuff) : option hotstuff :=
  '(d, cbs) ← Worker.step (verify_job (quorumSize s)) cap e (verifyDispatcher s) (hs_callbackC s);
  Some (s <| verifyDispatcher := d |> <| hs_callbackC := cbs |>).

Definition AsyncCallback_body : M hotstuff bool :=
  s ← get;
  match hs_callbackC s with
  | [] => mret false
  | (j, res) :: rest =>
      modify (λ s, s <| hs_callbackC := rest |>);;
      verified j res;;
      mret true
  end.

(** A callback adds nothing to the channel, so one round per element is enough. *)
Definition AsyncCallback : M hotstuff unit :=
  s ← get; loop (S (length (hs_callbackC s))) AsyncCallback_body.

(** *** The [Protocol] methods (chainhotstuff.go, request.go) *)
Definition onRequest (cmd : Command) : M hotstuff unit :=
  modify (λ s, s <| hs_cmdQueue ::= λ q, q ++ [cmd] |>);;
  beat.

Definition Step (message : Message) : M hotstuff unit :=
  match Unmarshal (msg_Content message) with
  | None => panic "unmarshal"
  | Some (ChainHotstuffMessage_Propose m) => onPropose m
  | Some (ChainHotstuffMessage_Vote m) => onVote m
  | Some (ChainHotstuffMessage_NewView m) => onNewView (msg_From message) m
  | Some ChainHotstuffMessage_nil => panic "Unknown message type"
  end.

(** The timers and the protocol actions they fire. *)
Definition run_action (a : pmAction) : M hotstuff unit := match a with PmTimeout => onTimeout end.
Definition Tick : M hotstuff unit :=
  s ← get;
  let r := Timer.Tick <$> hs_timers s in
  modify (λ s, s <| hs_timers := r.*1 |>);;
  for_each (mjoin r.*2) run_action.

(** [registerInfiniteTimer], which nothing calls. *)
Definition registerInfiniteTimer (t : Timer.tickingTimer pmAction) : M hotstuff unit :=
  modify (λ s, s <| hs_timers ::= λ l,
    l ++ [Timer.Reset (Timer.Instrument [Timer.Reset_self] t)] |>).

Definition MakeReady : M hotstuff Ready := gets (λ s, mkReady (hs_msgs s) (hs_committedCmds s)).
Definition ClearMsgs : M hotstuff unit := modify (λ s, s <| hs_msgs := [] |>).
Definition ClearExecutedCommands : M hotstuff unit := modify (λ s, s <| hs_committedCmds := [] |>).
Definition Callback (cb : ExecCallback) : M hotstuff unit := mret tt.

Definition hasExecuted (cmd : Command) (s : hotstuff) : outcome bool :=
  for_out (hs_committedCmds s) false (λ x acc,
    if (acc : bool) then Ret true else Command_Equal (x_Cmd x) (Some cmd)).

#[export] Instance hotstuff_Protocol : Protocol hotstuff := {|
  Peer.Step := Step;
  Peer.Tick := Tick;
  Peer.Request := onRequest;
  Peer.Callback := Callback;
  Peer.MakeReady := MakeReady;
  Peer.ClearMsgs := ClearMsgs;
  Peer.ClearExecutedCommands := ClearExecutedCommands;
  Peer.AsyncCallback := AsyncCallback;
|}.

(** [NewChainHotstuff] *)
Record Config := mkConfig {
  cfg_ID : Z;
  cfg_Peers : list Z;
  cfg_MaxFailures : Z;
  cfg_Workers : gmap string nat;
  cfg_WorkersQueueSizes : gmap string nat;
}.

Definition paceMakerTimeout : Z := 18000.

(** The struct literal, with the hash and the certificate of the genesis block. *)
Definition initial (c : Config) (g : bytes) (qc : QuorumCert) (workers : nat) : hotstuff :=
  mkHotstuff (cfg_ID c) (cfg_Peers c) [] [] [] (cfg_MaxFailures c) [] 0
    (Timer.MakeTickingTimer paceMakerTimeout [Timer.Act PmTimeout])
    (2 * cfg_MaxFailures c + 1) {[g := genesis]} 0 genesis genesis genesis qc
    ∅ ∅ ∅ ∅ (NewDispatcher workers) [].

Definition NewChainHotstuff (c : Config) : outcome hotstuff :=
  qc ← createQuorumCert genesis [];
  match qc with
  | inr _ => Panic "Failed to create QC for genesis block!"
  | inl qc =>
      g ← hash genesis;
      match cfg_Workers c !! "edd_verify"%string, cfg_WorkersQueueSizes c !! "edd_verify"%string with
      | None, _ => Panic "Worker count for edd_verify missing."
      | _, None => Panic "Worker queue size for edd_verify missing."
      | Some workers, Some _ =>
          '(_, s) ← (leader ← getLeader (u64 (b_Height genesis + 1));
                     when (bool_decide (cfg_ID c = leader)) propose) (initial c g qc workers);
          Ret s
      end
  end.
End hotstuff.
End ChainHotstuff.
