(* ===== verification/HotstuffSafety.v ===== *)
(** * Chained HotStuff: walks, certificates and the invariant

    The two walks along parents ([commit] and the safety test), what makes a
    quorum certificate verify, and the invariant of a replica: where its lock,
    its decided block and its executed commands come from. *)
From S2P Require Import Prelude Command Worker Peer Runs ChainHotstuff.
From Stdlib Require Import Strings.Byte Sorting.Sorted.
Import ChainHotstuff.

(** ** Walks along parents *)
Section walks.
Context `{GoEnv, Codec BlockState, Codec ChainHotstuffMessage, MapRange, Ed25519}.
Implicit Types (blocks : gmap (list Byte.byte) BlockState) (b : BlockState).

(** The stored parent of a block. *)
Definition parent_of blocks b : option BlockState := blocks !! Array (b_Parent b).

(** A block's stored parent is lower, and so on up the tree. *)
Definition lower_parent blocks b : Prop :=
  ∀ b', parent_of blocks b = Some b' → (b_Height b' < b_Height b)%Z.
Definition graded blocks : Prop := ∀ k b, blocks !! k = Some b → lower_parent blocks b.

(** The stored blocks below a height. *)
Definition below blocks (h : Z) : nat :=
  size (filter (λ kb : list Byte.byte * BlockState, (b_Height kb.2 < h)%Z) blocks).

Lemma below_lt blocks k b h :
  blocks !! k = Some b → (b_Height b < h)%Z → below blocks (b_Height b) < below blocks h.
Proof.
  intros Hk Hh. unfold below.
  assert (filter (λ kb : list Byte.byte * BlockState, (b_Height kb.2 < b_Height b)%Z) blocks ⊆
    delete k (filter (λ kb : list Byte.byte * BlockState, (b_Height kb.2 < h)%Z) blocks)) as Hs.
  { apply map_subseteq_spec. intros k' b' [Hk' Hlt]%map_lookup_filter_Some. simpl in Hlt.
    rewrite lookup_delete_ne by (intros ->; simplify_eq; lia).
    apply map_lookup_filter_Some. split; [done|simpl; lia]. }
  apply map_subseteq_size in Hs.
  assert (filter (λ kb : list Byte.byte * BlockState, (b_Height kb.2 < h)%Z) blocks !! k = Some b) as Hf
    by by apply map_lookup_filter_Some.
  rewrite map_size_delete_Some in Hs by eauto.
  assert (size (filter (λ kb : list Byte.byte * BlockState, (b_Height kb.2 < h)%Z) blocks) ≠ 0); [|lia].
  intros Hz%map_size_empty_inv. rewrite Hz in Hf. by rewrite lookup_empty in Hf.
Qed.

Lemma below_size blocks h : below blocks h ≤ size blocks.
Proof. apply map_subseteq_size, map_filter_subseteq. Qed.

(** [b'] is reached from [b] by stored parents. *)
Inductive ancestor blocks : BlockState → BlockState → Prop :=
| anc_self b : ancestor blocks b b
| anc_parent b b' b'' : parent_of blocks b = Some b' → ancestor blocks b' b'' → ancestor blocks b b''.

Lemma walk_ends n blocks l b :
  graded blocks → lower_parent blocks b → below blocks (b_Height b) < n →
  walk n blocks l b ≠ Diverge.
Proof.
  intros Hg. revert b. induction n as [|n IH]; intros b Hb Hn; simpl; [lia|].
  case_bool_decide; [|done]. destruct (blocks !! Array (b_Parent b)) as [b'|] eqn:Hp; [|done].
  apply IH; [by eapply Hg|]. pose proof (below_lt _ _ _ _ Hp (Hb _ Hp)). lia.
Qed.

(** The walk stops at the first ancestor that is not above [l]. *)
Lemma walk_ancestor n blocks l b b' :
  walk n blocks l b = Ret (Some b') → ancestor blocks b b' ∧ (b_Height b' ≤ l)%Z.
Proof.
  revert b. induction n as [|n IH]; intros b; simpl; [done|]. case_bool_decide as Hl.
  - destruct (blocks !! Array (b_Parent b)) as [b1|] eqn:Hp; [|done].
    intros [? ?]%IH. split; [|done]. by eapply anc_parent.
  - intros [= <-]. split; [constructor|lia].
Qed.

Lemma ancestor_lower blocks b b' :
  graded blocks → lower_parent blocks b → ancestor blocks b b' → b = b' ∨ (b_Height b' < b_Height b)%Z.
Proof.
  intros Hg Hb Ha. induction Ha as [|b b1 b2 Hp Ha IH]; [by left|]. right.
  pose proof (Hb _ Hp). destruct (IH (Hg _ _ Hp)) as [<-|?]; [done|lia].
Qed.

(** It reaches every ancestor as high as [l] below blocks that are above it. *)
Lemma walk_finds n blocks b b' :
  graded blocks → lower_parent blocks b → below blocks (b_Height b) < n →
  ancestor blocks b b' → walk n blocks (b_Height b') b = Ret (Some b').
Proof.
  intros Hg Hb Hn Ha. revert n Hb Hn. induction Ha as [b|b b1 b2 Hp Ha IH]; intros n Hb Hn;
    (destruct n as [|n]; [lia|]); simpl.
  - by rewrite bool_decide_false by lia.
  - pose proof (Hb _ Hp) as Hlt. assert (b_Height b2 ≤ b_Height b1)%Z.
    { destruct (ancestor_lower _ _ _ Hg (Hg _ _ Hp) Ha) as [<-|?]; lia. }
    rewrite bool_decide_true by lia. unfold parent_of in Hp. rewrite Hp.
    apply IH; [by eapply Hg|]. pose proof (below_lt _ _ _ _ Hp Hlt). lia.
Qed.

(** The branch from the first block above [l] to [b]. *)
Inductive branch blocks (l : Z) : list BlockState → BlockState → Prop :=
| br_stop b : (b_Height b ≤ l)%Z → branch blocks l [] b
| br_root b : (l < b_Height b)%Z → parent_of blocks b = None → branch blocks l [b] b
| br_step b b' bs : (l < b_Height b)%Z → parent_of blocks b = Some b' →
    branch blocks l bs b' → branch blocks l (bs ++ [b]) b.

(** What a block executes: nothing, for a dummy or the genesis block. *)
Definition block_command b : option Command :=
  match b_QC b with Some _ => b_Command b | None => None end.

(** The state after executing the blocks [bs]. *)
Definition emit (bs : list BlockState) (s : hotstuff) : hotstuff :=
  s <| hs_committedCmds ::= λ l, l ++ (exec_pkt <$> omap block_command bs) |>.

Lemma emit_nil s : emit [] s = s.
Proof. destruct s. unfold emit, set, set_hs_committedCmds. simpl. by rewrite app_nil_r. Qed.
Lemma emit_app bs bs' s : emit (bs ++ bs') s = emit bs' (emit bs s).
Proof.
  destruct s. unfold emit, set, set_hs_committedCmds. simpl.
  by rewrite omap_app, fmap_app, app_assoc.
Qed.

(** The end of [commit] for one block. *)
Lemma execute_emit b s :
  match b_QC b, b_Command b with Some _, Some cmd => execute cmd | _, _ => mret tt end s
  = Ret (tt, emit [b] s).
Proof.
  unfold emit. simpl. unfold block_command. destruct (b_QC b), (b_Command b); simpl;
    [done|..]; unfold mret, M_ret; do 2 f_equal; symmetry; apply (emit_nil s).
Qed.

Lemma commit_rec_spec n b s :
  graded (hs_blocks s) → lower_parent (hs_blocks s) b → below (hs_blocks s) (b_Height b) < n →
  ∃ bs, branch (hs_blocks s) (b_Height (bExec s)) bs b ∧ commit_rec n b s = Ret (tt, emit bs s).
Proof.
  intros Hg. revert b. induction n as [|n IH]; intros b Hb Hn; [lia|]. simpl commit_rec.
  erewrite run_bind by reflexivity. destruct (decide (b_Height (bExec s) < b_Height b)%Z) as [Hl|Hl].
  2:{ rewrite bool_decide_false by done. exists []. split; [constructor; lia|]. by rewrite emit_nil. }
  rewrite bool_decide_true by done. unfold when. erewrite run_bind by reflexivity.
  destruct (hs_blocks s !! Array (b_Parent b)) as [b'|] eqn:Hp.
  - pose proof (below_lt _ _ _ _ Hp (Hb _ Hp)).
    destruct (IH b') as (bs & Hbr & Hr); [by eapply Hg|lia|].
    exists (bs ++ [b]). split; [by eapply br_step|]. erewrite run_bind by exact Hr.
    by rewrite execute_emit, emit_app.
  - exists [b]. split; [by apply br_root|]. erewrite run_bind by reflexivity. by rewrite execute_emit.
Qed.

Lemma commit_spec b s :
  graded (hs_blocks s) → lower_parent (hs_blocks s) b →
  ∃ bs, branch (hs_blocks s) (b_Height (bExec s)) bs b ∧ commit b s = Ret (tt, emit bs s).
Proof.
  intros Hg Hb. unfold commit. erewrite run_bind by reflexivity. apply commit_rec_spec; try done.
  pose proof (below_size (hs_blocks s) (b_Height b)). lia.
Qed.

Lemma branch_sound blocks l bs b :
  graded blocks → lower_parent blocks b → branch blocks l bs b →
  Forall (λ b', ancestor blocks b b' ∧ (l < b_Height b')%Z) bs ∧
  StronglySorted (λ b1 b2, (b_Height b1 < b_Height b2)%Z) bs.
Proof.
  intros Hg Hb Hbr. induction Hbr as [|b Hl Hp|b b' bs Hl Hp Hbr IH].
  - split; constructor.
  - split; [|repeat constructor]. repeat constructor. done.
  - destruct (IH (Hg _ _ Hp)) as [Hf Hs]. split.
    + apply Forall_app. split; [|repeat constructor; done].
      eapply Forall_impl; [exact Hf|]. intros b1 [Ha ?]. split; [by eapply anc_parent|done].
    + clear IH Hbr. induction Hs as [|x bs Hs IHs Hx]; simpl; [repeat constructor|].
      apply Forall_cons in Hf as [[Ha _] Hf]. constructor; [by apply IHs|].
      apply Forall_app. split; [done|]. constructor; [|constructor].
      pose proof (Hb _ Hp). destruct (ancestor_lower _ _ _ Hg (Hg _ _ Hp) Ha) as [<-|?]; lia.
Qed.
End walks.

(** ** The safety test *)
Section safety.
Context `{GoEnv, Codec BlockState, Codec ChainHotstuffMessage, MapRange, Ed25519}.

Lemma hash_ends b : hash b ≠ Diverge.
Proof. unfold hash. ends_steps. Qed.

(** The tree below the proposed block is graded. *)
Definition graded_from (blk : BlockState) (s : hotstuff) : Prop :=
  graded (hs_blocks s) ∧ lower_parent (hs_blocks s) blk.

Lemma safe_walk_ends blk s l :
  graded_from blk s → walk (S (S (size (hs_blocks s)))) (hs_blocks s) l blk ≠ Diverge.
Proof.
  intros [Hg Hb]. apply walk_ends; try done.
  pose proof (below_size (hs_blocks s) (b_Height blk)). lia.
Qed.

Lemma safe_block_ends blk qc s : graded_from blk s → safe_block blk qc s ≠ Diverge.
Proof.
  intros Hg. unfold safe_block, extends_lock. destruct (above_lock qc s); [done|].
  apply bind_ends; [by apply safe_walk_ends|]. intros [b|] _; [|done].
  pose proof hash_ends. ends_steps.
Qed.

(** Soundness of the test ... *)
Lemma safe_block_sound blk qc s :
  safe_block blk qc s = Ret true →
  above_lock qc s = true ∨
  ∃ b h, ancestor (hs_blocks s) blk b ∧ (b_Height b ≤ b_Height (bLock s))%Z ∧
    hash b = Ret h ∧ hash (bLock s) = Ret h.
Proof.
  unfold safe_block. destruct (above_lock qc s); [by left|]. unfold extends_lock. intros Hs. right.
  outcome_inv. destruct a as [b|]; [|done]. outcome_inv.
  match goal with Hw : walk _ _ _ _ = _ |- _ => apply walk_ancestor in Hw as [Ha Hle] end.
  match goal with Hd : bool_decide (?x = ?y) = true |- _ => apply bool_decide_eq_true in Hd as <- end.
  exists b, a. done.
Qed.

(** ... and completeness. *)
Lemma safe_block_complete blk qc s h :
  graded_from blk s → hash (bLock s) = Ret h →
  above_lock qc s = true ∨ ancestor (hs_blocks s) blk (bLock s) → safe_block blk qc s = Ret true.
Proof.
  intros [Hg Hb] Hh [Ha|Ha]; unfold safe_block; [by rewrite Ha|].
  destruct (above_lock qc s); [done|]. unfold extends_lock. rewrite walk_finds; try done.
  - simpl. rewrite Hh. simpl. by rewrite bool_decide_true.
  - pose proof (below_size (hs_blocks s) (b_Height blk)). lia.
Qed.

(** An unsafe proposal is kept for later, and nothing else changes. *)
Lemma onProposeContinue_unsafe blk qc s h :
  b_QC blk = Some qc → hash blk = Ret h → safe_block blk qc s = Ret false →
  onProposeContinue blk s = Ret (tt, s <| pendingProposals ::= <[Array (qc_BlockHash qc) := blk]> |>).
Proof.
  intros Hq Hh Hs. unfold onProposeContinue. rewrite Hq. erewrite run_bind by reflexivity.
  unfold lift, mbind, M_bind. rewrite Hs. simpl negb. cbv iota.
  unfold queueBlockPropose, mbind, M_bind, lift. by rewrite Hh, Hq.
Qed.
End safety.

(** ** Quorum certificates *)
Section certificates.
Context `{GoEnv, Codec BlockState, Codec ChainHotstuffMessage, MapRange, Ed25519}.
Context `{!GoEnvLaws, !Ed25519Laws}.

Lemma length_hash b h : hash b = Ret h → length h = 64.
Proof. unfold hash. destruct (Marshal b); [|done]. intros [= <-]. apply length_sha512. Qed.

Lemma Array_64 h : length h = 64 → Array (Some h) = h.
Proof. intros Hl. unfold Array. simpl. rewrite <-Hl. apply take_app_length. Qed.

(** A vote for a hash, by a signer. *)
Definition vote_for (h : bytes) (v : VoteMessage) : Prop :=
  v_BlockHash v ≈ Some h ∧ is_Some (v_Signature v).
Definition signer_of (v : VoteMessage) : Z :=
  match v_Signature v with Some sig => s_Signer sig | None => 0%Z end.

Lemma add_votes_ok h votes sigs :
  Forall (vote_for h) votes → NoDup (signer_of <$> votes) →
  (∀ v, v ∈ votes → sigs !! signer_of v = None) →
  ∃ sigs', add_votes h votes sigs = Ret (inl sigs').
Proof.
  revert sigs. induction votes as [|v votes IH]; intros sigs Hv Hnd Hn; simpl; [by eexists|].
  apply Forall_cons in Hv as [[Hh [sig Hs]] Hv]. apply NoDup_cons in Hnd as [Hni Hnd].
  assert (bytes_Equal (Some h) (v_BlockHash v) = true) as -> by (by apply bytes_Equal_spec).
  specialize (Hn v ltac:(left)) as Hnv. unfold signer_of in Hnv. rewrite Hs in *. simpl. rewrite Hnv.
  apply IH; [done..|]. intros v' Hv'. rewrite lookup_insert_ne; [apply Hn; by right|].
  intros He. apply Hni. apply list_elem_of_fmap. exists v'. split; [|done].
  unfold signer_of at 1. by rewrite Hs.
Qed.

Lemma add_votes_inv h votes sigs sigs' :
  add_votes h votes sigs = Ret (inl sigs') →
  size sigs' = length votes + size sigs ∧
  ∀ k o, sigs' !! k = Some o → sigs !! k = Some o ∨
    ∃ v sig, v ∈ votes ∧ v_Signature v = Some sig ∧ o = Some sig.
Proof.
  revert sigs. induction votes as [|v votes IH]; intros sigs Hr; simpl in Hr.
  { injection Hr as <-. split; [done|auto]. }
  destruct (bytes_Equal _ _); [|done]. simpl in Hr.
  destruct (v_Signature v) as [sig|] eqn:Hs; [|done].
  destruct (sigs !! s_Signer sig) eqn:Hk; [done|]. apply IH in Hr as [Hsz Hl]. split.
  - rewrite Hsz, map_size_insert_None by done. simpl. lia.
  - intros k o [Hko|(v' & sig' & ? & ? & ?)]%Hl.
    + rewrite lookup_insert in Hko. case_decide; [|by left]. simplify_eq. right.
      exists v, sig. split; [left|done].
    + right. exists v', sig'. split; [by right|done].
Qed.

Lemma batch_ret h l :
  Forall (λ x : Z * option Signature, is_Some x.2) l →
  ∃ b, batch h l = Ret b ∧ b = omap (λ x, (λ sig, (h, s_Sig sig)) <$> x.2) l.
Proof.
  induction l as [|[k o] l IH]; intros Hf; simpl; [by eexists|].
  apply Forall_cons in Hf as [[sig Hs] Hf]. simpl in Hs. subst o.
  destruct (IH Hf) as (b & -> & ->). by eexists.
Qed.

(** A certificate of enough signatures that hold is accepted. *)
Lemma verifyQuorumCert_ok q sigs h :
  is_Some (Marshal genesis) → length h = 64 → (q ≤ Z.of_nat (size sigs))%Z →
  (∀ k o, sigs !! k = Some o → ∃ sig, o = Some sig ∧ ed_Verify h (s_Sig sig) = true) →
  verifyQuorumCert q (Some (mkQC sigs (Some h))) = Ret true.
Proof.
  intros [gb Hg] Hh Hq Hs. unfold verifyQuorumCert, hash. rewrite Hg. simpl.
  case_decide; [done|]. rewrite bool_decide_false by lia.
  assert (∀ k o, (k, o) ∈ range sigs → ∃ sig, o = Some sig ∧ ed_Verify h (s_Sig sig) = true) as Hr.
  { intros k o Hin. rewrite range_perm, elem_of_map_to_list in Hin. by eapply Hs. }
  destruct (batch_ret (Some h) (range sigs)) as (b & -> & Hb).
  { apply Forall_forall. intros [k o] (sig & -> & _)%Hr. by eexists. }
  simpl. assert (Forall (λ ms : slice * slice, ms.1 = Some h ∧ ed_Verify h ms.2 = true) b) as Hf.
  { apply Forall_forall. intros ms. rewrite Hb, list_elem_of_omap.
    intros ([k o] & (sig & -> & Hv)%Hr & [= <-]). done. }
  rewrite ed_VerifyBatch_parts.
  2:{ eapply Forall_impl; [exact Hf|]. intros ms [-> _]. done. }
  assert (forallb id ((λ ms : slice * slice, ed_Verify (default [] ms.1) ms.2) <$> b) = true) as ->; [|done].
  apply forallb_forall. intros o Ho%list_elem_of_In. apply list_elem_of_fmap in Ho as (ms & -> & Hin).
  eapply Forall_forall in Hf as [-> Hv]; [|exact Hin]. exact Hv.
Qed.

(** A certificate made of verified votes. *)
Lemma createQuorumCert_verifies q blk votes qc h :
  is_Some (Marshal genesis) → hash blk = Ret h → (q ≤ Z.of_nat (length votes))%Z →
  Forall (λ v, ∃ sig, v_Signature v = Some sig ∧ ed_Verify h (s_Sig sig) = true) votes →
  createQuorumCert blk votes = Ret (inl qc) →
  verifyQuorumCert q (Some qc) = Ret true ∧ qc_BlockHash qc = Some h ∧
  size (qc_Sigs qc) = length votes.
Proof.
  intros Hg Hh Hq Hv Hc. unfold createQuorumCert in Hc. rewrite Hh in Hc. simpl in Hc.
  destruct (add_votes h votes ∅) as [[sigs|]| |] eqn:Ha; simplify_eq/=.
  apply add_votes_inv in Ha as [Hsz Hl]. rewrite map_size_empty, Nat.add_0_r in Hsz.
  split_and!; [|done..]. apply verifyQuorumCert_ok; [done|by eapply length_hash|lia|].
  intros k o [Hk|(v & sig & Hin & Hs & ->)]%Hl; [by rewrite lookup_empty in Hk|].
  eapply Forall_forall in Hv as (sig' & Hs' & ?); [|exact Hin]. simplify_eq. by eexists.
Qed.

(** A second vote of one signer. *)
Lemma add_votes_duplicate h votes v sigs :
  vote_for h v → Forall (vote_for h) votes → signer_of v ∈ signer_of <$> votes →
  add_votes h (votes ++ [v]) sigs = Ret (inr ErrPartialDuplicate).
Proof.
  intros [Hh [sig Hs]] Hvs Hin.
  assert (∀ sigs, is_Some (sigs !! s_Signer sig) ∨ signer_of v ∈ signer_of <$> votes →
    add_votes h (votes ++ [v]) sigs = Ret (inr ErrPartialDuplicate)) as Hg; [|by apply Hg; right].
  clear Hin sigs. induction Hvs as [|v' votes [Hh' [sig' Hs']] Hvs IH]; intros sigs Hor; simpl.
  - assert (bytes_Equal (Some h) (v_BlockHash v) = true) as -> by (by apply bytes_Equal_spec).
    simpl. rewrite Hs. destruct Hor as [[o ->]|Hn%elem_of_nil]; done.
  - assert (bytes_Equal (Some h) (v_BlockHash v') = true) as -> by (by apply bytes_Equal_spec).
    simpl. rewrite Hs'. destruct (sigs !! s_Signer sig') as [o|] eqn:Hk; [done|]. apply IH.
    destruct Hor as [[o Ho]|[He|Hin]%elem_of_cons]; [left|left|by right].
    + exists o. rewrite lookup_insert_ne; [done|]. intros He. rewrite He in Hk. congruence.
    + unfold signer_of in He. rewrite Hs, Hs' in He. rewrite He, lookup_insert_eq. by eexists.
Qed.
End certificates.

(** ** The invariant of a replica *)
Section invariant.
Context `{GoEnv, Codec BlockState, Codec ChainHotstuffMessage, MapRange, Ed25519}.
Context `{!GoEnvLaws, !Ed25519Laws}.
Context (f : Z).

Definition qc_ok (qc : QuorumCert) : Prop := verifyQuorumCert (2 * f + 1) (Some qc) = Ret true.
(** A verified certificate for a block. *)
Definition certifies (qc : QuorumCert) (b : BlockState) : Prop :=
  qc_ok qc ∧ hash b = Ret (Array (qc_BlockHash qc)).
(** [b'] carries a verified certificate for [b]. *)
Definition child_cert (b' b : BlockState) : Prop := ∃ qc, b_QC b' = Some qc ∧ certifies qc b.
Definition has_parent (b' b : BlockState) : Prop := hash b = Ret (Array (b_Parent b')).
Definition two_chain (b : BlockState) : Prop := ∃ b1 b0, child_cert b1 b ∧ child_cert b0 b1.
Definition three_chain (b : BlockState) : Prop :=
  ∃ b2 b1 b0, child_cert b2 b ∧ child_cert b1 b2 ∧ child_cert b0 b1 ∧ has_parent b1 b2 ∧ has_parent b2 b.
(** A command of an ancestor of a block with a three-chain. *)
Definition decided_command (c : Command) : Prop :=
  ∃ b3 b, three_chain b3 ∧ rtc has_parent b3 b ∧ block_command b = Some c.

Definition decided_packet (x : ExecPacket) : Prop := ∃ c, x = exec_pkt c ∧ decided_command c.
Definition vote_ok (h : bytes) (v : VoteMessage) : Prop :=
  ∃ sig, v_Signature v = Some sig ∧ ed_Verify h (s_Sig sig) = true.
Definition block_ok (h : bytes) (b : BlockState) : Prop :=
  hash b = Ret h ∧ ∀ qc, b_QC b = Some qc → qc_ok qc.

(** The packets the peer has taken. *)
Context (before : list ExecPacket).

Record hs_inv (s : hotstuff) : Prop := {
  hi_config : quorumSize s = (2 * f + 1)%Z ∧ hs_f s = f ∧ hs_timers s = [];
  hi_blocks h b : hs_blocks s !! h = Some b → block_ok h b;
  hi_high : certifies (highQC s) (bLeaf s);
  hi_lock : bLock s = genesis ∨ two_chain (bLock s);
  hi_exec : bExec s = genesis ∨ three_chain (bExec s);
  hi_cmds : Forall decided_packet (before ++ hs_committedCmds s);
  hi_votes h vs : verifiedVotes s !! h = Some vs → Forall (vote_ok h) vs;
  hi_jobs : Forall (λ jr, jr.2 = verify_job (2 * f + 1) jr.1) (hs_callbackC s);
}.

(** The fields of the invariant. *)
Definition hs_content (s : hotstuff) :=
  (quorumSize s, hs_f s, hs_timers s, hs_blocks s, highQC s, bLeaf s, bLock s, bExec s,
   hs_committedCmds s, verifiedVotes s, hs_callbackC s).

Lemma hs_content_inv s s' : hs_content s' = hs_content s → hs_inv s → hs_inv s'.
Proof.
  unfold hs_content. intros Hc [].
  assert (quorumSize s' = quorumSize s ∧ hs_f s' = hs_f s ∧ hs_timers s' = hs_timers s ∧
    hs_blocks s' = hs_blocks s ∧ highQC s' = highQC s ∧ bLeaf s' = bLeaf s ∧ bLock s' = bLock s ∧
    bExec s' = bExec s ∧ hs_committedCmds s' = hs_committedCmds s ∧
    verifiedVotes s' = verifiedVotes s ∧ hs_callbackC s' = hs_callbackC s)
    as (E1 & E2 & E3 & E4 & E5 & E6 & E7 & E8 & E9 & E10 & E11) by (split_and!; congruence).
  split; rewrite ?E1, ?E2, ?E3, ?E4, ?E5, ?E6, ?E7, ?E8, ?E9, ?E10, ?E11; done.
Qed.

Lemma keeps_inv (m : M hotstuff unit) s :
  keeps hs_content m s → hs_inv s → wp m (λ _, hs_inv) s.
Proof. intros Hk Hs. eapply wp_mono; [exact Hk|]. intros [] s' Hc. by apply (hs_content_inv s). Qed.

Lemma getLeader_keeps v s : keeps hs_content (getLeader v) s.
Proof. unfold getLeader. keeps_steps. Qed.
Lemma onPropose_keeps m s : keeps hs_content (onPropose m) s.
Proof. unfold onPropose, getLeader, verify. keeps_steps. Qed.
Lemma broadcast_keeps b self sign s : keeps hs_content (broadcast b self sign) s.
Proof. unfold broadcast, enqueueForSending. keeps_steps. Qed.
Lemma queueBlockPropose_keeps m s : keeps hs_content (queueBlockPropose m) s.
Proof. unfold queueBlockPropose. keeps_steps. Qed.
Lemma onNewView_keeps from m s : keeps hs_content (onNewView from m) s.
Proof. unfold onNewView, verify. keeps_steps. Qed.

Lemma store_inv h b s :
  hs_inv s → block_ok h b → hs_inv (s <| hs_blocks ::= <[h := b]> |>).
Proof.
  intros [] Hb. split; try done. cbn. intros h' b'. rewrite lookup_insert.
  case_decide; [by intros [= <-]; subst|auto].
Qed.

Lemma propose_inv s : hs_inv s → wp propose (λ _, hs_inv) s.
Proof.
  intros Hs. unfold propose. do 2 wp_step. do 2 wp_step. set (s1 := set _ _ s).
  assert (hs_inv s1) as Hs1 by by apply (hs_content_inv s). do 2 wp_step. do 2 wp_step.
  unfold store_block. do 2 wp_step.
  match goal with Hx : hash (newBlock _ _ _ _ _) = Ret ?h |- wp _ _ ?s2 =>
    assert (hs_inv s2) as Hs2; [apply store_inv; [done|]; split; [done|]|] end.
  { simpl. intros qc [= <-]. apply (hi_high _ Hs). }
  apply keeps_inv; [|done]. apply keeps_bind; [keeps_steps|]. intros ? ? _.
  apply keeps_bind; [apply broadcast_keeps|]. intros ? ? _. apply onPropose_keeps.
Qed.

Lemma beat_inv s : hs_inv s → wp beat (λ _, hs_inv) s.
Proof.
  intros Hs. unfold beat. wp_step. wp_step. wp_step; [done|]. wp_step.
  eapply wp_mono; [apply getLeader_keeps|]. intros l s1 Hc1.
  assert (hs_inv s1) as Hs1 by by apply (hs_content_inv s). wp_step; [done|]. do 2 wp_step.
  apply propose_inv. by apply (hs_content_inv s1).
Qed.

Lemma onVote_inv m s : hs_inv s → wp (onVote m) (λ _, hs_inv) s.
Proof.
  intros Hs. unfold onVote. destruct (v_Signature m); [|done]. unfold lookup_block.
  do 4 wp_step. wp_step. eapply (wp_mono _ (λ _, hs_inv)).
  { apply keeps_inv; [|done]. unfold queueBlockVote, verify. keeps_steps. }
  intros _ s1 Hs1. wp_step. destruct Hs1. split; try done. cbn.
  intros h vs [Hv _]%map_lookup_filter_Some. eauto.
Qed.

(** *** Certificates seen *)
Lemma updateHighQC_inv qc s :
  hs_inv s → (∀ q, qc = Some q → qc_ok q) → wp (updateHighQC qc) (λ _, hs_inv) s.
Proof.
  intros Hs Hq. unfold updateHighQC, lookup_block. destruct qc as [qc|]; [|done].
  do 2 wp_step. destruct (hs_blocks s !! Array (qc_BlockHash qc)) as [nb|] eqn:Hn; [|done].
  do 4 wp_step. destruct (hs_blocks s !! Array (qc_BlockHash (highQC s))) as [ob|]; [|done].
  wp_step; [|done]. wp_step. destruct (hi_blocks _ Hs _ _ Hn) as [Hh _].
  destruct Hs. split; try done. split; [by apply Hq|done].
Qed.

Lemma add_vote_inv h m s :
  hs_inv s → vote_ok h m →
  hs_inv (s <| verifiedVotes ::= <[h := default [] (verifiedVotes s !! h) ++ [m]]> |>).
Proof.
  intros Hs Hm. pose proof (hi_votes _ Hs) as Hv. destruct Hs. split; try done. cbn.
  intros h' vs. rewrite lookup_insert. case_decide as He; [|auto]. intros [= <-]. subst h'.
  apply Forall_app. split; [|by repeat constructor].
  destruct (verifiedVotes s !! h) eqn:Hl; simpl; [by apply Hv|constructor].
Qed.

Lemma verifyQuorumCert_genesis qs qc b :
  verifyQuorumCert qs qc = Ret b → is_Some (Marshal genesis).
Proof. unfold verifyQuorumCert, hash. destruct qc; [|done]. by destruct (Marshal genesis). Qed.

Lemma onVoteContinue_inv m blk s :
  hs_inv s → (∀ h, hash blk = Ret h → vote_ok h m) → wp (onVoteContinue m blk) (λ _, hs_inv) s.
Proof.
  intros Hs Hm. unfold onVoteContinue. destruct (v_Signature m); [|done].
  wp_step. wp_step. rename a into h. do 2 wp_step.
  set (votes := default [] (verifiedVotes s !! h) ++ [m]). do 2 wp_step.
  assert (hs_inv (s <| verifiedVotes ::= <[h := votes]> |>)) as Hs1 by (apply add_vote_inv; auto).
  set (s1 := set verifiedVotes _ s) in *. wp_step; [done|].
  match goal with Hx : bool_decide (_ < _)%Z = false |- _ => apply bool_decide_eq_false in Hx as Hlen end.
  destruct (hi_config _ Hs) as (_ & Hf & _). rewrite Hf in Hlen.
  wp_step. wp_step. destruct a as [qc|]; [|done]. do 2 wp_step.
  set (s2 := set verifiedVotes _ s1).
  assert (hs_inv s2) as Hs2.
  { destruct Hs1. split; try done. cbn. intros h' vs [_ Hl]%lookup_delete_Some. eauto. }
  wp_step. eapply wp_mono.
  { apply updateHighQC_inv; [done|]. intros q [= <-].
    eapply (createQuorumCert_verifies (2 * f + 1) blk votes); [|done|lia| |done].
    - destruct (hi_high _ Hs) as [Hq _]. by eapply verifyQuorumCert_genesis.
    - apply (hi_votes _ Hs1 h). unfold s1. cbn. apply lookup_insert_eq. }
  intros [] s3 Hs3. by apply beat_inv.
Qed.

(** *** The chain rules *)
Lemma qcRef_child b' b s :
  hs_inv s → (∀ qc, b_QC b' = Some qc → qc_ok qc) → qcRef (hs_blocks s) (b_QC b') = Some b →
  child_cert b' b ∧ (∀ qc, b_QC b = Some qc → qc_ok qc).
Proof.
  intros Hs Hq Hr. unfold qcRef in Hr. destruct (b_QC b') as [qc|] eqn:Hb; [|done]. simpl in Hr.
  destruct (hi_blocks _ Hs _ _ Hr) as [Hh Hc]. split; [|done]. exists qc.
  split; [done|]. split; [by apply Hq|done].
Qed.

Lemma commit_rec_inv n b3 b s :
  hs_inv s → three_chain b3 → rtc has_parent b3 b →
  wp (commit_rec n b) (λ _ s', hs_inv s' ∧ hs_blocks s' = hs_blocks s) s.
Proof.
  intros Hs Hb3. revert b s Hs. induction n as [|n IH]; intros b s Hs Hb; [done|]. simpl.
  do 2 wp_step. wp_step; [|done]. unfold lookup_block. do 3 wp_step.
  eapply (wp_mono _ (λ _ s', hs_inv s' ∧ hs_blocks s' = hs_blocks s)).
  { destruct (hs_blocks s !! Array (b_Parent b)) as [b'|] eqn:Hp; [|done]. apply IH; [done|].
    eapply rtc_r; [done|]. by destruct (hi_blocks _ Hs _ _ Hp). }
  intros [] s1 [Hs1 Hb1]. destruct (b_QC b) eqn:Hq; [|done]. destruct (b_Command b) as [c|] eqn:Hc; [|done].
  unfold execute. wp_step. split; [|done]. destruct Hs1. split; try done. cbn.
  rewrite app_assoc. apply Forall_app. split; [done|]. repeat constructor.
  exists c. split; [done|]. exists b3, b. split_and!; [done..|]. unfold block_command. by rewrite Hq.
Qed.

Lemma update_inv blk s :
  hs_inv s → (∀ qc, b_QC blk = Some qc → qc_ok qc) → wp (update blk) (λ _, hs_inv) s.
Proof.
  intros Hs Hq. unfold update. wp_step. wp_step.
  destruct (qcRef (hs_blocks s) (b_QC blk)) as [b1|] eqn:H1'; [|done].
  destruct (qcRef_child _ _ _ Hs Hq H1') as [Hc1 Hq1]. wp_step.
  eapply wp_mono; [by apply updateHighQC_inv|]. intros [] s1 Hs1. do 2 wp_step.
  destruct (qcRef (hs_blocks s1) (b_QC b1)) as [b2|] eqn:H2'; [|done].
  destruct (qcRef_child _ _ _ Hs1 Hq1 H2') as [Hc2 Hq2]. wp_step.
  eapply (wp_mono _ (λ _, hs_inv)).
  { wp_step; [|done]. wp_step. destruct Hs1. split; try done. right. by exists b1, blk. }
  intros [] s2 Hs2. destruct (qcRef (hs_blocks s1) (b_QC b2)) as [b3|] eqn:H3'; [|done].
  destruct (qcRef_child _ _ _ Hs1 Hq2 H3') as [Hc3 Hq3]. do 4 wp_step. wp_step; [|done].
  match goal with Hx : bool_decide _ = true |- _ => apply bool_decide_eq_true in Hx as [Hp1 Hp2] end.
  assert (three_chain b3) as H3b.
  { exists b2, b1, blk. split_and!; try done; unfold has_parent; congruence. }
  wp_step. unfold commit. do 2 wp_step.
  eapply wp_mono; [by apply (commit_rec_inv _ b3)|]. intros [] s3 [Hs3 _]. wp_step.
  destruct Hs3. split; try done. by right.
Qed.

Lemma deliver_inv blk s :
  hs_inv s → (∀ qc, b_QC blk = Some qc → qc_ok qc) → wp (deliver blk) (λ _, hs_inv) s.
Proof.
  intros Hs Hq. unfold deliver. do 2 wp_step. rename a into h. do 3 wp_step.
  eapply (wp_mono _ (λ _, hs_inv)).
  { destruct (pendingVotes s !! h) as [vs|]; [|done]. do 2 wp_step. unfold store_block. do 2 wp_step.
    apply (wp_for_each hs_inv); [intros v s' _; apply onVote_inv|].
    apply store_inv; [by apply (hs_content_inv s)|by split]. }
  intros [] s1 Hs1. do 2 wp_step. destruct (pendingProposals s1 !! h); [|done]. do 2 wp_step.
  apply keeps_inv; [apply onPropose_keeps|]. by apply (hs_content_inv s1).
Qed.

Lemma finish_inv blk s :
  hs_inv s → (∀ qc, b_QC blk = Some qc → qc_ok qc) → wp (finish blk) (λ _, hs_inv) s.
Proof.
  intros Hs Hq. unfold finish. wp_step. eapply wp_mono; [by apply update_inv|].
  intros [] s1 Hs1. by apply deliver_inv.
Qed.

Lemma onProposeContinue_inv blk s :
  hs_inv s → (∀ qc, b_QC blk = Some qc → qc_ok qc) → wp (onProposeContinue blk) (λ _, hs_inv) s.
Proof.
  intros Hs Hq. unfold onProposeContinue. destruct (b_QC blk) as [qc|] eqn:Hb; [|done].
  do 4 wp_step. wp_step; [apply keeps_inv; [apply queueBlockPropose_keeps|done]|].
  unfold pm_onPropose. do 2 wp_step. do 2 wp_step. rename a0 into h. destruct (ed_Sign h) as [sig|]; [|by apply (hs_content_inv s)].
  unfold store_block. do 4 wp_step.
  match goal with |- wp _ _ ?s2 => assert (hs_inv s2) as Hs2 end.
  { apply (hs_content_inv (s <| hs_blocks ::= <[h := blk]> |>)); [done|].
    apply store_inv; [done|]. split; [done|]. by rewrite Hb. }
  wp_step. eapply wp_mono; [apply getLeader_keeps|]. intros l s3 Hc3.
  assert (hs_inv s3) as Hs3 by by apply (hs_content_inv _ _ Hc3). wp_step.
  - wp_step. eapply wp_mono; [apply finish_inv; [done|by rewrite Hb]|]. intros [] s4 Hs4. by apply onVote_inv.
  - do 2 wp_step. unfold sendTo, enqueueForSending. do 2 wp_step.
    apply finish_inv; [by apply (hs_content_inv s3)|by rewrite Hb].
Qed.

(** *** The callbacks *)
Lemma onNewViewContinue_inv from m ok s :
  hs_inv s → (ok = true → ∀ q, nv_QC m = Some q → qc_ok q) →
  wp (onNewViewContinue from m ok) (λ _, hs_inv) s.
Proof.
  intros Hs Hq. unfold onNewViewContinue. wp_step. eapply (wp_mono _ (λ _, hs_inv)).
  { wp_step; [|done]. apply updateHighQC_inv; auto. }
  intros [] s1 Hs1. do 4 wp_step. wp_step; [by apply (hs_content_inv s1)|].
  apply beat_inv. by apply (hs_content_inv s1).
Qed.

(** What a worker's positive answer means. *)
Lemma verify_job_ok j r0 r :
  verify_job (2 * f + 1) j = Ret (r0 :: r) → r0 ≠ x00 →
  match j with
  | VerifyPropose m => ∀ q, b_QC m = Some q → qc_ok q
  | VerifyVote m blk => ∀ h, hash blk = Ret h → vote_ok h m
  | VerifyNewView _ m => ∀ q, nv_QC m = Some q → qc_ok q
  end.
Proof.
  intros Hv Hr. unfold verify_job in Hv. destruct j as [m|m blk|from m].
  - intros q Hq. rewrite Hq in Hv. unfold qc_ok. outcome_inv. destruct a; [done|].
    by match goal with Hx : [_] = _ |- _ => injection Hx as <- end.
  - intros h Hh. rewrite Hh in Hv. simpl in Hv. unfold vote_ok.
    destruct (v_Signature m) as [sig|]; [|done]. exists sig. split; [done|].
    destruct (ed_Verify h (s_Sig sig)); [done|]. by injection Hv as <-.
  - intros q Hq. rewrite Hq in Hv. unfold qc_ok. outcome_inv. destruct a; [done|].
    by match goal with Hx : [_] = _ |- _ => injection Hx as <- end.
Qed.

Lemma verified_inv j s :
  hs_inv s → wp (verified j (verify_job (2 * f + 1) j)) (λ _, hs_inv) s.
Proof.
  intros Hs. unfold verified. do 2 wp_step. destruct a as [|r0 r]; [done|].
  match goal with Hx : verify_job _ _ = Ret _ |- _ => pose proof (verify_job_ok j r0 r Hx) as Hok end.
  case_bool_decide as Hr; simpl.
  - destruct j; try done. by apply onNewViewContinue_inv.
  - specialize (Hok Hr). destruct j; [by apply onProposeContinue_inv|by apply onVoteContinue_inv|].
    by apply onNewViewContinue_inv.
Qed.

Lemma hs_AsyncCallback_inv s : hs_inv s → wp AsyncCallback (λ _, hs_inv) s.
Proof.
  intros Hs. unfold AsyncCallback. do 2 wp_step. apply (wp_loop hs_inv); [|done].
  clear s Hs. intros s Hs. unfold AsyncCallback_body. do 2 wp_step.
  pose proof (hi_jobs _ Hs) as Hj. destruct (hs_callbackC s) as [|[j r] rest] eqn:Hc; [done|].
  apply Forall_cons in Hj as [Hr Hj]. simpl in Hr. subst r. do 2 wp_step.
  set (s1 := set hs_callbackC _ s). assert (hs_inv s1) as Hs1.
  { destruct Hs. by split. }
  wp_step. eapply wp_mono; [by apply verified_inv|]. by intros [] s2 Hs2.
Qed.

Lemma hs_Step_inv m s : hs_inv s → wp (ChainHotstuff.Step m) (λ _, hs_inv) s.
Proof.
  intros Hs. unfold ChainHotstuff.Step. destruct (Unmarshal _) as [[b|v|n|]|]; try done.
  - apply keeps_inv; [apply onPropose_keeps|done].
  - by apply onVote_inv.
  - apply keeps_inv; [apply onNewView_keeps|done].
Qed.

Lemma hs_onRequest_inv cmd s : hs_inv s → wp (onRequest cmd) (λ _, hs_inv) s.
Proof.
  intros Hs. unfold onRequest. do 2 wp_step. apply beat_inv. by apply (hs_content_inv s).
Qed.

Lemma Tick_inv s : hs_inv s → wp ChainHotstuff.Tick (λ _, hs_inv) s.
Proof.
  intros Hs. destruct (hi_config _ Hs) as (_ & _ & Ht). unfold ChainHotstuff.Tick.
  do 2 wp_step. rewrite Ht. simpl. do 2 wp_step. apply wp_ret. apply (hs_content_inv s); [|done].
  unfold hs_content. cbn. by rewrite Ht.
Qed.

Lemma hs_worker_step_inv cap e s s' : hs_inv s → worker_step cap e s = Some s' → hs_inv s'.
Proof.
  intros Hs Hw. unfold worker_step in Hw. apply bind_Some in Hw as ([d cbs] & Hw & [= <-]).
  destruct (hi_config _ Hs) as (Hq & _). rewrite Hq in Hw.
  pose proof (hi_jobs _ Hs) as Hj. destruct Hs. split; try done. cbn. clear -Hw Hj.
  unfold Worker.step in Hw. repeat case_match; simplify_eq; try done.
  apply Forall_app. split; [done|]. by repeat constructor.
Qed.
End invariant.

(** ** Runs *)
Section runs.
Context `{GoEnv, Codec BlockState, Codec ChainHotstuffMessage, MapRange, Ed25519}.
Context `{!GoEnvLaws, !Ed25519Laws}.

(** Runs under any peer, with the steps of the verification pool. *)
Definition pool_step (cap : nat) (s s' : hotstuff) : Prop := ∃ e, worker_step cap e s = Some s'.
Definition hs_run (cap : nat) : list ExecPacket → hotstuff → list ExecPacket → hotstuff → Prop :=
  runs (pool_step cap).

Lemma hs_run_invariant f cap : run_invariant (pool_step cap) (hs_inv f).
Proof.
  split.
  - intros [] h s _ Hi; simpl.
    + by apply hs_Step_inv.
    + by apply hs_onRequest_inv.
    + by apply Tick_inv.
    + done.
    + by apply hs_AsyncCallback_inv.
    + by apply (hs_content_inv _ _ s).
  - intros h s s' [e Hs] Hi. by eapply hs_worker_step_inv.
  - intros h s Hi sent. simpl.
    assert (hs_inv f (h ++ hs_committedCmds s) (s <| hs_committedCmds := [] |>)) as Hi'.
    { destruct Hi. split; try done. cbn. by rewrite app_nil_r. }
    destruct sent; [by apply (hs_content_inv _ _ (s <| hs_committedCmds := [] |>))|done].
Qed.

Lemma hs_run_inv f cap h s h' s' :
  hs_run cap h s h' s' → hs_inv f h s → hs_inv f h' s'.
Proof. apply runs_inv, hs_run_invariant. Qed.

Lemma initial_inv c g workers :
  hash genesis = Ret g → hs_inv (cfg_MaxFailures c) [] (initial c g (mkQC ∅ (Some g)) workers).
Proof.
  intros Hg. assert (Array (Some g) = g) as Ha by by eapply Array_64, length_hash.
  split; try done; simpl; [| |by left|by left].
  - intros h b [<- <-]%lookup_singleton_Some. by split.
  - split; simpl; rewrite ?Ha; [|done]. unfold qc_ok, verifyQuorumCert. simpl.
    rewrite Hg. simpl. by rewrite Ha, decide_True.
Qed.

Lemma NewChainHotstuff_inv c s : NewChainHotstuff c = Ret s → hs_inv (cfg_MaxFailures c) [] s.
Proof.
  unfold NewChainHotstuff, createQuorumCert. intros Hn.
  destruct (hash genesis) as [g| |] eqn:Hg; [|done..]. simpl in Hn.
  destruct (cfg_Workers c !! _) as [w|]; [|done].
  destruct (cfg_WorkersQueueSizes c !! _) as [sz|]; [|done].
  pose proof (initial_inv c g w Hg) as Hi. set (s0 := initial c g _ w) in *.
  assert (wp (leader ← getLeader (u64 (0 + 1)); when (bool_decide (cfg_ID c = leader)) propose)
    (λ _, hs_inv (cfg_MaxFailures c) []) s0) as Hw.
  { wp_step. eapply wp_mono; [apply getLeader_keeps|]. intros l s1 Hc1.
    assert (hs_inv (cfg_MaxFailures c) [] s1) by by apply (hs_content_inv _ _ _ _ Hc1).
    wp_step; [by apply propose_inv|done]. }
  unfold wp in Hw. change (b_Height genesis) with 0%Z in Hn.
  destruct ((leader ← getLeader (u64 (0 + 1)); when (bool_decide (cfg_ID c = leader)) propose) s0)
    as [[[] s1]| |]; [|done..]. by simplify_eq/=.
Qed.
End runs.

(** ** Termination *)
Section termination.
Context `{GoEnv, Codec BlockState, Codec ChainHotstuffMessage, MapRange, Ed25519}.
Hint Resolve hash_ends : go_ends.

Lemma getLeader_ends v s : ends (getLeader v) s.
Proof. unfold getLeader. ends_steps. Qed.
Hint Resolve getLeader_ends : go_ends.
Lemma onPropose_ends m s : ends (onPropose m) s.
Proof. unfold onPropose, verify. ends_steps. Qed.
Lemma hs_broadcast_ends b self sign s : ends (broadcast b self sign) s.
Proof. unfold broadcast, enqueueForSending. ends_steps. Qed.
Lemma marshall_ends m : marshall m ≠ Diverge.
Proof. unfold marshall. ends_steps. Qed.
Hint Resolve onPropose_ends hs_broadcast_ends marshall_ends : go_ends.
Lemma propose_ends s : ends propose s.
Proof. unfold propose, store_block. ends_steps. Qed.
Hint Resolve propose_ends : go_ends.
Lemma beat_ends s : ends beat s.
Proof. unfold beat. ends_steps. Qed.
Hint Resolve beat_ends : go_ends.
Lemma onVote_ends m s : ends (onVote m) s.
Proof. unfold onVote, lookup_block, gets, queueBlockVote, verify. ends_steps; done. Qed.
Lemma updateHighQC_ends qc s : ends (updateHighQC qc) s.
Proof. unfold updateHighQC, lookup_block, gets. ends_steps; done. Qed.
Lemma queueBlockPropose_ends m s : ends (queueBlockPropose m) s.
Proof. unfold queueBlockPropose. ends_steps. Qed.
Hint Resolve onVote_ends updateHighQC_ends queueBlockPropose_ends : go_ends.

Lemma add_votes_ends h votes sigs : add_votes h votes sigs ≠ Diverge.
Proof.
  revert sigs. induction votes as [|v votes IH]; intros sigs; simpl; [done|].
  repeat case_match; done.
Qed.
Hint Resolve add_votes_ends : go_ends.
Lemma createQuorumCert_ends blk votes : createQuorumCert blk votes ≠ Diverge.
Proof. unfold createQuorumCert. ends_steps. Qed.
Hint Resolve createQuorumCert_ends : go_ends.
Lemma onVoteContinue_ends m blk s : ends (onVoteContinue m blk) s.
Proof. unfold onVoteContinue. ends_steps. Qed.
Lemma onNewView_ends from m s : ends (onNewView from m) s.
Proof. unfold onNewView, verify. ends_steps. Qed.
Lemma onNewViewContinue_ends from m ok s : ends (onNewViewContinue from m ok) s.
Proof. unfold onNewViewContinue. ends_steps. Qed.
Lemma deliver_ends blk s : ends (deliver blk) s.
Proof. unfold deliver, store_block. ends_steps. Qed.
Hint Resolve onVoteContinue_ends onNewView_ends onNewViewContinue_ends deliver_ends : go_ends.

Lemma commit_ends b s : graded (hs_blocks s) → lower_parent (hs_blocks s) b → ends (commit b) s.
Proof. intros Hg Hb. destruct (commit_spec b s Hg Hb) as (bs & _ & Hr). unfold ends. by rewrite Hr. Qed.

Lemma updateHighQC_keeps qc s : keeps hs_blocks (updateHighQC qc) s.
Proof.
  unfold updateHighQC, lookup_block, gets. keeps_steps; done.
Qed.

Lemma update_ends blk s : graded (hs_blocks s) → ends (update blk) s.
Proof.
  intros Hg. unfold update. apply ends_bind; [done|]. intros _ _ [= <- <-].
  destruct (qcRef (hs_blocks s) (b_QC blk)) as [b1|]; [|done].
  apply (ends_bind_keeps hs_blocks); [apply updateHighQC_ends|apply updateHighQC_keeps|].
  intros _ s1 Hs1. apply ends_bind; [done|]. intros _ _ [= <- <-].
  destruct (qcRef (hs_blocks s1) (b_QC b1)) as [b2|]; [|done].
  apply (ends_bind_keeps hs_blocks); [ends_steps|keeps_steps|]. intros _ s2 Hs2.
  destruct (qcRef (hs_blocks s1) (b_QC b2)) as [b3|] eqn:Hb3; [|done].
  do 2 (apply (ends_bind_keeps hs_blocks); [ends_steps|keeps_steps|intros ? ? ?]).
  apply ends_when, ends_bind; [|done].
  match goal with |- ends _ ?s3 => assert (hs_blocks s3 = hs_blocks s) as Hs3 by congruence end.
  apply commit_ends; rewrite Hs3; [done|].
  unfold qcRef in Hb3. destruct (b_QC b2) as [qc|]; [|done]. simpl in Hb3.
  apply (Hg (Array (qc_BlockHash qc))). congruence.
Qed.

(** The tree stays graded when the proposal joins it. *)
Definition fits_tree (blk : BlockState) (s : hotstuff) : Prop :=
  graded_from blk s ∧ ∀ h, hash blk = Ret h → graded (<[h := blk]> (hs_blocks s)).

Lemma onProposeContinue_ends blk s : fits_tree blk s → ends (onProposeContinue blk) s.
Proof.
  intros [Hf Hg]. unfold onProposeContinue. destruct (b_QC blk) as [qc|]; [|done].
  apply ends_bind; [done|]. intros _ _ [= <- <-].
  apply (ends_bind_keeps hs_blocks); [by apply ends_lift, safe_block_ends|keeps_steps|].
  intros safe s1 Hs1. destruct safe; simpl; [|apply queueBlockPropose_ends].
  apply (ends_bind_keeps hs_blocks); [done|done|]. intros _ s2 Hs2.
  apply ends_bind; [ends_steps|]. intros h s3 Hh3. unfold lift in Hh3.
  destruct (hash blk) as [h'| |] eqn:Hh; simplify_eq.
  destruct (ed_Sign h); [|done]. apply ends_bind; [done|]. intros [] ? [= <-].
  set (s4 := set hs_blocks _ s3).
  assert (graded (hs_blocks s4)) as Hg4.
  { unfold s4. cbn. rewrite Hs2, Hs1. by apply Hg. }
  clearbody s4. apply (ends_bind_keeps hs_blocks); [done|done|]. intros [] s5 Hs5.
  apply (ends_bind_keeps hs_blocks); [ends_steps|unfold getLeader; keeps_steps|]. intros ld s6 Hs6.
  assert (∀ s', hs_blocks s' = hs_blocks s4 → ends (finish blk) s') as Hfin.
  { intros s' Hs'. unfold finish. apply ends_bind; [apply update_ends; by rewrite Hs'|].
    intros; apply deliver_ends. }
  case_bool_decide.
  - apply ends_bind; [apply Hfin; congruence|]. intros; apply onVote_ends.
  - apply (ends_bind_keeps hs_blocks); [ends_steps|keeps_steps|]. intros b s7 Hs7.
    apply (ends_bind_keeps hs_blocks); [done|done|]. intros _ s8 Hs8. apply Hfin. congruence.
Qed.

Lemma batch_ends h l : batch h l ≠ Diverge.
Proof. induction l as [|[k [sig|]] l IH]; simpl; [done| |done]. apply bind_ends; [done|]. done. Qed.
Lemma verifyQuorumCert_ends q qc : verifyQuorumCert q qc ≠ Diverge.
Proof. unfold verifyQuorumCert. pose proof batch_ends. ends_steps. Qed.
Hint Resolve verifyQuorumCert_ends : go_ends.
Lemma verify_job_ends q j : verify_job q j ≠ Diverge.
Proof. unfold verify_job. destruct j; ends_steps. Qed.

Lemma verified_ends q j s :
  (∀ m, j = VerifyPropose m → fits_tree m s) → ends (verified j (verify_job q j)) s.
Proof.
  intros Hf. unfold verified. apply (ends_bind_keeps id); [apply ends_lift, verify_job_ends|keeps_steps|].
  intros res s' Hs'. unfold id in Hs'. subst s'. destruct res as [|r0 r]; [done|].
  destruct j; repeat case_match; try done; [by apply onProposeContinue_ends, Hf|apply onVoteContinue_ends|..];
    apply onNewViewContinue_ends.
Qed.

Lemma hs_Step_ends m s : ends (ChainHotstuff.Step m) s.
Proof.
  unfold ChainHotstuff.Step. destruct (Unmarshal _) as [[]|]; ends_steps.
Qed.
Lemma hs_onRequest_ends cmd s : ends (onRequest cmd) s.
Proof. unfold onRequest. ends_steps. Qed.
End termination.
