(* ===== verification/HotstuffProps.v ===== *)
(** * The properties of Chained HotStuff

    The theorems of ChainHotstuff.v, proved from the lemmas of HotstuffSafety.v,
    with a concrete environment to apply them in. *)
From S2P Require Import Prelude Command Worker Tracker Peer Runs ChainHotstuff HotstuffSafety Wire.
From Stdlib Require Import Strings.Byte Sorting.Sorted.
Import ChainHotstuff.

Section hotstuff_properties.
Context `{GoEnv, Codec BlockState, Codec ChainHotstuffMessage, MapRange, Ed25519}.


(** Only decided commands are executed: every packet a replica hands to its
    peer is the command of an ancestor of a block that has a three-chain of
    verified certificates over direct parents. *)
Theorem hs_executes_decided `{!GoEnvLaws, !Ed25519Laws} c cap s0 h s :
  NewChainHotstuff c = Ret s0 → hs_run cap [] s0 h s →
  Forall (decided_packet (cfg_MaxFailures c)) (h ++ hs_committedCmds s).
Proof.
  intros Hn Hr. apply NewChainHotstuff_inv in Hn. apply (hs_run_inv _ _ _ _ _ _ Hr) in Hn as []. done.
Qed.


(** C19.  The recursion of [commit] equals its reference: in a tree where heights
    grow along parents it ends, and executes the commands of the branch from
    the last decided height up to the block: all of them ancestors of the
    block above that height, once each, in order of height. *)
Theorem hs_commit_executes_branch b s :
  graded (hs_blocks s) → lower_parent (hs_blocks s) b →
  ∃ bs, branch (hs_blocks s) (b_Height (bExec s)) bs b ∧
    Forall (λ b', ancestor (hs_blocks s) b b' ∧ (b_Height (bExec s) < b_Height b')%Z) bs ∧
    StronglySorted (λ b1 b2, (b_Height b1 < b_Height b2)%Z) bs ∧
    commit b s = Ret (tt, emit bs s).
Proof.
  intros Hg Hb. destruct (commit_spec b s Hg Hb) as (bs & Hbr & Hr).
  destruct (branch_sound _ _ _ _ Hg Hb Hbr) as [Hf Hs]. exists bs. done.
Qed.


(** C30.  Certificate round trip: votes of distinct signers for a block, whose
    signatures hold, make a certificate, and every replica whose quorum is no
    larger accepts it. *)
Theorem hs_certificate_roundtrip `{!GoEnvLaws, !Ed25519Laws} q blk votes h :
  is_Some (Marshal genesis) → hash blk = Ret h → (q ≤ Z.of_nat (length votes))%Z →
  Forall (λ v, v_BlockHash v ≈ Some h ∧ vote_ok h v) votes → NoDup (signer_of <$> votes) →
  ∃ qc, createQuorumCert blk votes = Ret (inl qc) ∧ verifyQuorumCert q (Some qc) = Ret true ∧
    hash blk = Ret (Array (qc_BlockHash qc)) ∧ size (qc_Sigs qc) = length votes.
Proof.
  intros Hg Hh Hq Hv Hnd.
  assert (∃ qc, createQuorumCert blk votes = Ret (inl qc)) as [qc Hc].
  { unfold createQuorumCert. rewrite Hh. simpl. destruct (add_votes_ok h votes ∅) as [sigs ->]; [|done|..].
    - eapply Forall_impl; [exact Hv|]. intros v (? & sig & Hs & _). split; [done|by exists sig].
    - done.
    - by eexists. }
  destruct (createQuorumCert_verifies q blk votes qc h) as (? & Hb & ?); try done.
  { eapply Forall_impl; [exact Hv|]. by intros v [_ ?]. }
  exists qc. split_and!; [done..| |done]. rewrite Hb, Array_64; [done|by eapply length_hash].
Qed.

(**  Termination: every message, request and verification callback of a
    replica ends; for the callback of a proposal, when the tree is one whose
    heights grow along parents, with the proposal in it. *)
Theorem hs_terminates m cmd j s :
  (∀ blk, j = VerifyPropose blk → fits_tree blk s) →
  ChainHotstuff.Step m s ≠ Diverge ∧ onRequest cmd s ≠ Diverge ∧
  verified j (verify_job (quorumSize s) j) s ≠ Diverge.
Proof.
  intros Hj. split_and!; [apply hs_Step_ends|apply hs_onRequest_ends|by apply verified_ends].
Qed.

(** A signer that votes twice stops the leader: when a replica repeats its
    vote for a block, and the two count towards a quorum, the leader's
    [createQuorumCert] fails and the process ends. *)
Theorem hs_duplicate_vote_fatal m blk s h votes :
  hash blk = Ret h → verifiedVotes s !! h = Some votes →
  Forall (vote_for h) votes → vote_for h m → signer_of m ∈ signer_of <$> votes →
  (2 * hs_f s ≤ Z.of_nat (length votes))%Z →
  ∃ why, onVoteContinue m blk s = Panic why.
Proof.
  intros Hh Hv Hvs Hm Hin Hlen. exists "OnVote: could not create QC for block"%string.
  unfold onVoteContinue. destruct Hm as [Hmh [sig Hsig]]. rewrite Hsig.
  erewrite run_bind by (unfold lift; rewrite Hh; reflexivity).
  erewrite run_bind by reflexivity. cbv zeta. rewrite Hv. simpl default.
  erewrite run_bind by reflexivity. rewrite bool_decide_false by (rewrite length_app; simpl; lia).
  unfold mbind, M_bind, lift, createQuorumCert. rewrite Hh. simpl.
  rewrite add_votes_duplicate by (done || (split; [done|by exists sig])). done.
Qed.

(** A certificate counts map entries, not replicas: one signature that holds,
    repeated under as many keys as the quorum asks for, is a certificate that
    every replica accepts. *)
Theorem hs_one_signature_certifies `{!GoEnvLaws, !Ed25519Laws} (q : nat) blk h sig :
  is_Some (Marshal genesis) → hash blk = Ret h → ed_Verify h (s_Sig sig) = true →
  verifyQuorumCert (Z.of_nat q)
    (Some (mkQC (list_to_map ((λ k, (k, Some sig)) <$> seqZ 0 (Z.of_nat q))) (Some h))) = Ret true.
Proof.
  intros Hg Hh Hv. apply verifyQuorumCert_ok; [done|by eapply length_hash| |].
  - rewrite map_size_list_to_map.
    + rewrite length_fmap, length_seqZ. lia.
    + rewrite <-list_fmap_compose. rewrite (list_fmap_ext _ id), list_fmap_id; [apply NoDup_seqZ|done].
  - intros k o Hk%elem_of_list_to_map_2. apply list_elem_of_fmap in Hk as (k' & [= -> ->] & _). eauto.
Qed.
End hotstuff_properties.

Module HotDemo.
Import Toy.
#[export] Instance wire_Signature : Wire Signature :=
  wire_iso (λ s, (s_Sig s, s_Signer s)) (λ '(a, b), mkSig a b) ltac:(by intros []).
#[export] Instance wire_QC : Wire QuorumCert :=
  wire_iso (λ q, (qc_Sigs q, qc_BlockHash q)) (λ '(a, b), mkQC a b) ltac:(by intros []).
#[export] Instance wire_BS : Wire BlockState :=
  wire_iso (λ b, (b_Parent b, b_Command b, b_Height b, b_QC b, b_Proposer b))
    (λ '(p, c, h, q, r), mkBS p c h q r) ltac:(by intros []).
#[export] Instance wire_Vote : Wire VoteMessage :=
  wire_iso (λ v, (v_BlockHash v, v_Signature v)) (λ '(a, b), mkVote a b) ltac:(by intros []).
#[export] Instance wire_NewView : Wire NewViewMessage :=
  wire_iso (λ m, (nv_Height m, nv_QC m, nv_Hash512 m)) (λ '(h, q, d), mkNewView h q d) ltac:(by intros []).
#[export] Instance BS_codec : Codec BlockState := wire_codec wire_BS.
#[export] Instance Msg_codec : Codec ChainHotstuffMessage :=
  wire_codec (wire_iso (λ m, match m with
    | ChainHotstuffMessage_Propose m => (Some m, None, None)
    | ChainHotstuffMessage_Vote m => (None, Some m, None)
    | ChainHotstuffMessage_NewView m => (None, None, Some m)
    | ChainHotstuffMessage_nil => (None, None, None)
    end) (λ '(a, b, c), match a, b, c with
    | Some m, _, _ => ChainHotstuffMessage_Propose m
    | _, Some m, _ => ChainHotstuffMessage_Vote m
    | _, _, Some m => ChainHotstuffMessage_NewView m
    | _, _, _ => ChainHotstuffMessage_nil
    end) ltac:(by intros [])).

(** A signature is a copy of the digest. *)
#[export] Instance ed : Ed25519 := {|
  ed_Sign m := Some m;
  ed_Verify m s := bool_decide (s = Some m);
  ed_VerifyBatch l :=
    let oks := (λ ms : slice * slice, bool_decide (ms.2 = Some (default [] ms.1))) <$> l in
    Some (forallb id oks, oks);
|}.
#[export] Instance ed_laws : Ed25519Laws.
Proof. split; [|done]. intros m s [= <-]. by apply bool_decide_eq_true. Qed.

Definition config (j : Z) : Config :=
  mkConfig j (seqZ 0 4) 1 {["edd_verify"%string := 2]} {["edd_verify"%string := 8]}.
Definition g : bytes := match hash genesis with Ret g => g | _ => [] end.
Definition genesisQC : QuorumCert := mkQC ∅ (Some g).
Definition start (j : Z) : hotstuff := initial (config j) g genesisQC 2.

Definition hash_of (b : BlockState) : bytes := match hash b with Ret h => h | _ => [] end.
(** The block that [cmd] makes on top of [b], certified by replicas 0, 1 and 2. *)
Definition qc_of (b : BlockState) : QuorumCert :=
  mkQC (list_to_map ((λ k, (k, Some (mkSig (Some (hash_of b)) k))) <$> [0; 1; 2]%Z)) (Some (hash_of b)).
Definition child (b : BlockState) (qc : QuorumCert) (c : Command) : BlockState :=
  mkBS (Some (hash_of b)) (Some c) (b_Height b + 1) (Some qc) ((b_Height b + 1) `mod` 4).
Definition b1 : BlockState := child genesis genesisQC (cmd 1 0).
Definition b1' : BlockState := child genesis genesisQC (cmd 2 0).
Definition b2 : BlockState := child b1 (qc_of b1) (cmd 3 0).
Definition b3 : BlockState := child b2 (qc_of b2) (cmd 4 0).
Definition b4 : BlockState := child b3 (qc_of b3) (cmd 5 0).

Definition msg (b : BlockState) (to : Z) : Message :=
  mkMessage (b_Proposer b) to (default [] (Marshal (ChainHotstuffMessage_Propose b))) [].
Definition recv (b : BlockState) (to : Z) (s : hotstuff) : hotstuff :=
  match ChainHotstuff.Step (msg b to) s with Ret (_, s) => s | _ => s end.
Definition settle (s : hotstuff) : hotstuff :=
  match ChainHotstuff.AsyncCallback s with Ret (_, s) => s | _ => s end.
Definition work (es : list Worker.event) (s : hotstuff) : hotstuff :=
  foldl (λ s e, default s (worker_step 8 e s)) s es.

(** One proposal after the other, ... *)
Definition verify_one : list Worker.event :=
  [Worker.Register 0; Worker.Take; Worker.Assign; Worker.Done 0].
Definition feed (s : hotstuff) (b : BlockState) : hotstuff :=
  settle (work (verify_one ++ verify_one) (recv b 0 s)).
Definition s4 : hotstuff := feed (feed (feed (feed (start 0) b1) b2) b3) b4.

(** ... and two proposals for one height in the pool at once. *)
Definition twice : hotstuff :=
  settle (work (verify_one ++ verify_one) (recv b1' 3 (recv b1 3 (start 3)))).
Definition vote_msg (b : BlockState) : Message :=
  mkMessage 3 2 (default [] (Marshal (ChainHotstuffMessage_Vote
    (mkVote (Some (hash_of b)) (Some (mkSig (Some (hash_of b)) 3)))))) [].

(** These are runs. *)
Lemma run_recv b to s h2 s2 : hs_run 8 [] (recv b to s) h2 s2 → hs_run 8 [] s h2 s2.
Proof.
  unfold recv. destruct (ChainHotstuff.Step (msg b to) s) as [[[] s1]| |] eqn:Hs; auto.
  intros Hr. by eapply (runs_call _ (Call_Step (msg b to))).
Qed.
Lemma run_settle s h2 s2 : hs_run 8 [] (settle s) h2 s2 → hs_run 8 [] s h2 s2.
Proof.
  unfold settle. destruct (ChainHotstuff.AsyncCallback s) as [[[] s1]| |] eqn:Hs; auto.
  intros Hr. by eapply (runs_call _ Call_AsyncCallback).
Qed.
Lemma run_work es s h2 s2 : hs_run 8 [] (work es s) h2 s2 → hs_run 8 [] s h2 s2.
Proof.
  unfold work. revert s. induction es as [|e es IH]; intros s; [auto|]. simpl. intros Hr%IH.
  destruct (worker_step 8 e s) as [s1|] eqn:Hs; [eapply runs_other; [by exists e|auto]|auto].
Qed.
Lemma run_feed b s h2 s2 : hs_run 8 [] (feed s b) h2 s2 → hs_run 8 [] s h2 s2.
Proof. unfold feed. intros Hr. apply run_settle, run_work, run_recv in Hr. exact Hr. Qed.

Lemma genesis_marshals : is_Some (Marshal genesis).
Proof. by eexists. Qed.
Lemma new_3 : NewChainHotstuff (config 3) = Ret (start 3).
Proof. vm_compute. reflexivity. Qed.
Lemma new_0 : NewChainHotstuff (config 0) = Ret (start 0).
Proof. vm_compute. reflexivity. Qed.
Lemma run_s4 : hs_run 8 [] (start 0) [] s4.
Proof. unfold s4. apply (run_feed b1), (run_feed b2), (run_feed b3), (run_feed b4), runs_nil. Qed.
Lemma run_twice : hs_run 8 [] (start 3) [] twice.
Proof. unfold twice. 
  apply (run_recv b1 3), (run_recv b1' 3), (run_work (verify_one ++ verify_one)), run_settle, runs_nil.
Qed.

(** A peer over replica 0: an event of its goroutines or one of the pool. *)
#[export] Instance Result_codec : Codec CommandResult :=
  {| Marshal _ := Some []; Unmarshal _ := None |}.


End HotDemo.

Section hotstuff_async.
Import Toy HotDemo.

(**  A correct replica can vote for two blocks of one height: the height is
    compared with the last vote when a proposal arrives, and not again when
    its certificate has been verified.  A leader that proposes two blocks
    while the first is still in the verification pool gets both votes. *)
Theorem hs_votes_twice :
  ∃ s0 s, NewChainHotstuff (config 3) = Ret s0 ∧ hs_run 8 [] s0 [] s ∧
    hs_msgs s = [vote_msg b1; vote_msg b1'] ∧
    b_Height b1 = b_Height b1' ∧ hash_of b1 ≠ hash_of b1'.
Proof.
  exists (start 3), twice. split; [apply new_3|]. split; [apply run_twice|].
  split; [vm_compute; reflexivity|]. split; [reflexivity|].
  intros Hh. vm_compute in Hh. discriminate Hh.
Qed.
End hotstuff_async.

Section hotstuff_witnesses.
Import Toy HotDemo.


Lemma hs_executes_decided_witness :
  hs_committedCmds s4 = [exec_pkt (cmd 1 0)] ∧ 
  Forall (decided_packet (cfg_MaxFailures (config 0))) ([] ++ hs_committedCmds s4).
Proof.
  split; [vm_compute; reflexivity|].
  apply (hs_executes_decided (config 0) 8 (start 0) [] s4); [apply new_0|apply run_s4].
Defined.


(** Graded trees, decided. *)
Definition lower_parentb (blocks : gmap (list Byte.byte) BlockState) (b : BlockState) : bool :=
  match parent_of blocks b with Some b' => bool_decide (b_Height b' < b_Height b)%Z | None => true end.
Definition gradedb (blocks : gmap (list Byte.byte) BlockState) : bool :=
  forallb (λ kb, lower_parentb blocks kb.2) (map_to_list blocks).

Lemma lower_parentb_spec blocks b : lower_parentb blocks b = true → lower_parent blocks b.
Proof.
  unfold lower_parentb, lower_parent. intros Hb b' Hp. rewrite Hp in Hb. by apply bool_decide_eq_true in Hb.
Qed.
Lemma gradedb_spec blocks : gradedb blocks = true → graded blocks.
Proof.
  unfold gradedb. intros Hg k b Hk. apply lower_parentb_spec.
  assert (In (k, b) (map_to_list blocks)) as Hin by (apply list_elem_of_In, elem_of_map_to_list, Hk).
  exact (proj1 (forallb_forall _ _) Hg (k, b) Hin).
Qed.

Definition s1 : hotstuff := feed (start 0) b1.
Definition vote (b : BlockState) (j : Z) : VoteMessage :=
  mkVote (Some (hash_of b)) (Some (mkSig (Some (hash_of b)) j)).

Lemma hs_commit_executes_branch_witness :
  ∃ bs, commit b2 s4 = Ret (tt, emit bs s4) ∧ branch (hs_blocks s4) (b_Height (bExec s4)) bs b2.
Proof.
  destruct (hs_commit_executes_branch b2 s4) as (bs & Hbr & _ & _ & Hc).
  - apply gradedb_spec. vm_compute. reflexivity.
  - apply lower_parentb_spec. vm_compute. reflexivity.
  - exists bs. split; [exact Hc|exact Hbr].
Defined.


Lemma hs_certificate_roundtrip_witness :
  ∃ qc, createQuorumCert b1 (vote b1 <$> [0; 1; 2]%Z) = Ret (inl qc) ∧ verifyQuorumCert 3 (Some qc) = Ret true.
Proof.
  destruct (hs_certificate_roundtrip 3 b1 (vote b1 <$> [0; 1; 2]%Z) (hash_of b1)) as (qc & Hc & Hv & _).
  - apply genesis_marshals.
  - vm_compute. reflexivity.
  - vm_compute. discriminate.
  - repeat constructor; (eexists; split; [reflexivity|apply bool_decide_eq_true; reflexivity]).
  - apply (bool_decide_unpack _). vm_compute. exact I.
  - exists qc. split; [exact Hc|exact Hv].
Defined.

Lemma hs_terminates_witness :
  verified (VerifyPropose b2) (verify_job (quorumSize s1) (VerifyPropose b2)) s1 ≠ Diverge.
Proof.
  apply (hs_terminates (msg b2 0) (cmd 9 0) (VerifyPropose b2) s1).
  intros blk [= <-]. split.
  - split; [apply gradedb_spec; vm_compute; reflexivity|apply lower_parentb_spec; vm_compute; reflexivity].
  - intros h Hh. apply gradedb_spec. vm_compute in Hh. injection Hh as <-. vm_compute. reflexivity.
Defined.

Lemma hs_duplicate_vote_fatal_witness :
  ∃ why, onVoteContinue (vote b1 0) b1
    (start 2 <| verifiedVotes := {[hash_of b1 := [vote b1 0; vote b1 1]]} |>) = Panic why.
Proof.
  apply (hs_duplicate_vote_fatal (vote b1 0) b1
    (start 2 <| verifiedVotes := {[hash_of b1 := [vote b1 0; vote b1 1]]} |>) (hash_of b1)
    [vote b1 0; vote b1 1]).
  - vm_compute. reflexivity.
  - apply lookup_singleton_eq.
  - repeat constructor; by eexists.
  - split; [reflexivity|by eexists].
  - left.
  - vm_compute. discriminate.
Defined.

Lemma hs_one_signature_certifies_witness :
  verifyQuorumCert 3 (Some (mkQC (list_to_map
    ((λ k, (k, Some (mkSig (Some (hash_of b1)) 0))) <$> seqZ 0 3)) (Some (hash_of b1)))) = Ret true.
Proof.
  apply (hs_one_signature_certifies 3 b1 (hash_of b1) (mkSig (Some (hash_of b1)) 0)).
  - apply genesis_marshals.
  - vm_compute. reflexivity.
  - apply bool_decide_eq_true. reflexivity.
Defined.
End hotstuff_witnesses.
