(* ===== verification/Dispel.v ===== *)
(** * Dispel (src/protocols/dispel)

    Every replica broadcasts a command of its own per epoch with a reliable
    broadcast (rb.go); binary consensus instances, one per replica (dbft.go),
    decide which of the broadcasts an epoch delivers (exec.go).  One Rocq
    definition per Go function, in the state-and-panic monad [M Dispel].

    Nothing is ever removed from the maps of epochs, broadcasts, consensus
    instances and rounds, so that a Go pointer to one of them is the key it is
    filed under. *)
From S2P Require Import Prelude Command Worker Certifier Peer.
Import Worker (Dispatcher, NewDispatcher).

Module Dispel.

(** ** Data (dispelpb) *)
Definition RBState_None : Z := 0.
Definition RBState_Received : Z := 1.
Definition RBState_Echoed : Z := 2.
Definition RBState_Readied : Z := 3.

Definition RBMessage_Send : Z := 0.
Definition RBMessage_Echo : Z := 1.
Definition RBMessage_Ready : Z := 2.

Definition ConsensusMessage_Estimate : Z := 0.
Definition ConsensusMessage_CoordValue : Z := 1.
Definition ConsensusMessage_Aux : Z := 2.

Record RBState := mkRBState {
  rbs_PeerID : Z;
  rbs_Status : Z;
  rbs_Command : option Command;
  rbs_CommandHash : slice;
}.

Record RBMessage := mkRBM {
  m_EpochNum : Z;
  m_PeerID : Z;
  m_Type : Z;
  m_Command : option Command;
  m_CommandHash : slice;
}.

Record ConsensusMessage := mkCM {
  cm_EpochNum : Z;
  cm_PeerID : Z;
  cm_RoundNum : Z;
  cm_Type : Z;
  cm_Estimate : Z;
  cm_Aux : list Z;
}.

Inductive DispelMessage :=
| DispelMessage_Broadcast (m : RBMessage)
| DispelMessage_Consensus (m : ConsensusMessage)
| DispelMessage_nil.

#[export] Instance RBState_eta : Eta RBState := λ s,
  mkRBState (rbs_PeerID s) (rbs_Status s) (rbs_Command s) (rbs_CommandHash s).
#[export] Instance set_rbs_Status : Setter rbs_Status := ltac:(solve_setter).
#[export] Instance set_rbs_Command : Setter rbs_Command := ltac:(solve_setter).
#[export] Instance set_rbs_CommandHash : Setter rbs_CommandHash := ltac:(solve_setter).
#[export] Instance RBMessage_eta : Eta RBMessage := λ m,
  mkRBM (m_EpochNum m) (m_PeerID m) (m_Type m) (m_Command m) (m_CommandHash m).
#[export] Instance set_m_Command : Setter m_Command := ltac:(solve_setter).
#[export] Instance set_m_CommandHash : Setter m_CommandHash := ltac:(solve_setter).

Definition HasReceived (s : RBState) : bool := bool_decide (rbs_Status s = RBState_Received).
Definition HasEchoed (s : RBState) : bool := bool_decide (rbs_Status s = RBState_Echoed).
Definition HasReadied (s : RBState) : bool := bool_decide (rbs_Status s = RBState_Readied).

Definition RBMessage_Equals (m other : RBMessage) : bool :=
  if bool_decide (m_EpochNum m ≠ m_EpochNum other) then false
  else if bool_decide (m_PeerID m ≠ m_PeerID other) then false
  else bytes_Equal (m_CommandHash m) (m_CommandHash other).

(** ** Quorums (quorum.go) *)
Abbreviation quorum := (gmap Z RBMessage).
Definition newQuorum : quorum := ∅.
Definition quorum_log (id : Z) (m : RBMessage) (q : quorum) : outcome quorum :=
  match q !! id with
  | None => Ret (<[id := m]> q)
  | Some _ => Panic "multiple messages vcSender same replica"
  end.
Definition Majority (maxFailures : Z) (m : RBMessage) (q : quorum) : bool :=
  if bool_decide (Z.of_nat (size q) ≤ 2 * maxFailures)%Z then false
  else bool_decide (2 * maxFailures < Z.of_nat (size
         (filter (λ x : Z * RBMessage, RBMessage_Equals m x.2 = true) q)))%Z.

(** ** The replica (rb.go, dbft.go, epoch.go, dispel.go) *)
Record rbroadcast := mkRB {
  rbs : RBState;
  pCert : quorum;
  cCert : quorum;
  reproposed : bool;
}.
#[export] Instance rbroadcast_eta : Eta rbroadcast := λ r,
  mkRB (rbs r) (pCert r) (cCert r) (reproposed r).
#[export] Instance set_rbs : Setter rbs := ltac:(solve_setter).
#[export] Instance set_pCert : Setter pCert := ltac:(solve_setter).
#[export] Instance set_cCert : Setter cCert := ltac:(solve_setter).
#[export] Instance set_reproposed : Setter reproposed := ltac:(solve_setter).

(** A round; the message the coordinator sent is kept, and its estimate never
    looked at (see [auxVal]). *)
Record dbftRound := mkRound {
  rs_est : Z;
  binValues : gset Z;
  bvbSent : gset Z;
  bvbEstimates : gmap Z Z;
  coordStepDone : bool;
  coordTimerExpired : bool;
  coordMessage : option ConsensusMessage;
  auxEstimates : list (gset Z);
  auxSent : bool;
}.
#[export] Instance dbftRound_eta : Eta dbftRound := λ r,
  mkRound (rs_est r) (binValues r) (bvbSent r) (bvbEstimates r) (coordStepDone r)
    (coordTimerExpired r) (coordMessage r) (auxEstimates r) (auxSent r).
#[export] Instance set_rs_est : Setter rs_est := ltac:(solve_setter).
#[export] Instance set_binValues : Setter binValues := ltac:(solve_setter).
#[export] Instance set_bvbSent : Setter bvbSent := ltac:(solve_setter).
#[export] Instance set_bvbEstimates : Setter bvbEstimates := ltac:(solve_setter).
#[export] Instance set_coordStepDone : Setter coordStepDone := ltac:(solve_setter).
#[export] Instance set_coordTimerExpired : Setter coordTimerExpired := ltac:(solve_setter).
#[export] Instance set_coordMessage : Setter coordMessage := ltac:(solve_setter).
#[export] Instance set_auxEstimates : Setter auxEstimates := ltac:(solve_setter).
#[export] Instance set_auxSent : Setter auxSent := ltac:(solve_setter).

Record dbft := mkDbft {
  rs : gmap Z dbftRound;
  decided : bool;
  decidedValue : Z;
  decidedRound : Z;
  halt : bool;
  restartOnBinValues : bool;
  timeout : Z;
}.
#[export] Instance dbft_eta : Eta dbft := λ c,
  mkDbft (rs c) (decided c) (decidedValue c) (decidedRound c) (halt c)
    (restartOnBinValues c) (timeout c).
#[export] Instance set_rs : Setter rs := ltac:(solve_setter).
#[export] Instance set_decided : Setter decided := ltac:(solve_setter).
#[export] Instance set_decidedValue : Setter decidedValue := ltac:(solve_setter).
#[export] Instance set_decidedRound : Setter decidedRound := ltac:(solve_setter).
#[export] Instance set_halt : Setter halt := ltac:(solve_setter).
#[export] Instance set_restartOnBinValues : Setter restartOnBinValues := ltac:(solve_setter).
#[export] Instance set_timeout : Setter timeout := ltac:(solve_setter).

Record epoch := mkEpoch {
  rbDoneCount : Z;
  consDoneCount : Z;
  ep_rbs : gmap Z rbroadcast;
  ep_cons : gmap Z dbft;
}.
#[export] Instance epoch_eta : Eta epoch := λ e,
  mkEpoch (rbDoneCount e) (consDoneCount e) (ep_rbs e) (ep_cons e).
#[export] Instance set_rbDoneCount : Setter rbDoneCount := ltac:(solve_setter).
#[export] Instance set_consDoneCount : Setter consDoneCount := ltac:(solve_setter).
#[export] Instance set_ep_rbs : Setter ep_rbs := ltac:(solve_setter).
#[export] Instance set_ep_cons : Setter ep_cons := ltac:(solve_setter).

(** The two closures of a coordinator timer: leave the set of timers, then
    [onCoordTimerExpired] of a round. *)
Inductive timerAct := Unregister | CoordTimerExpired (epochNum peerID roundNum : Z).

(** What the closures of [broadcast] hold. *)
Record signJob := mkSignJob { sj_node : Z; sj_mBytes : bytes }.

(** [d_timers] is the set of registered timers under their addresses;
    [d_nextTimer] is the address of the next one. *)
Record Dispel := mkDispel {
  d_id : Z;
  d_peers : list Z;
  d_maxFailures : Z;
  d_nextEpochNumber : Z;
  d_epochs : gmap Z epoch;
  d_nextDeliverEpoch : Z;
  d_msgs : list Message;
  d_toDeliver : list ExecPacket;
  d_timers : gmap Z (Timer.tickingTimer timerAct);
  d_nextTimer : Z;
  d_rbThreshold : Z;
  d_signDispatcher : Dispatcher signJob;
  d_callbackC : list (signJob * bytes);
}.
#[export] Instance Dispel_eta : Eta Dispel := λ d,
  mkDispel (d_id d) (d_peers d) (d_maxFailures d) (d_nextEpochNumber d) (d_epochs d)
    (d_nextDeliverEpoch d) (d_msgs d) (d_toDeliver d) (d_timers d) (d_nextTimer d)
    (d_rbThreshold d) (d_signDispatcher d) (d_callbackC d).
#[export] Instance set_d_nextEpochNumber : Setter d_nextEpochNumber := ltac:(solve_setter).
#[export] Instance set_d_epochs : Setter d_epochs := ltac:(solve_setter).
#[export] Instance set_d_nextDeliverEpoch : Setter d_nextDeliverEpoch := ltac:(solve_setter).
#[export] Instance set_d_msgs : Setter d_msgs := ltac:(solve_setter).
#[export] Instance set_d_toDeliver : Setter d_toDeliver := ltac:(solve_setter).
#[export] Instance set_d_timers : Setter d_timers := ltac:(solve_setter).
#[export] Instance set_d_nextTimer : Setter d_nextTimer := ltac:(solve_setter).
#[export] Instance set_d_signDispatcher : Setter d_signDispatcher := ltac:(solve_setter).
#[export] Instance set_d_callbackC : Setter d_callbackC := ltac:(solve_setter).

Record Config := mkConfig {
  cfg_ID : Z;
  cfg_Peers : list Z;
  cfg_MaxFailures : Z;
  cfg_DispelWaitForAllRb : bool;
  cfg_Workers : gmap string nat;
  cfg_WorkersQueueSizes : gmap string nat;
}.

Definition NewDispel (c : Config) : outcome Dispel :=
  let n := Z.of_nat (length (cfg_Peers c)) in
  let rbThreshold := if cfg_DispelWaitForAllRb c then n else (n - cfg_MaxFailures c)%Z in
  match cfg_Workers c !! "mac_sign"%string, cfg_WorkersQueueSizes c !! "mac_sign"%string with
  | None, _ => Panic "Worker count for mac_sign missing."
  | _, None => Panic "Worker queue size for mac_sign missing."
  | Some workers, Some _ =>
      Ret (mkDispel (cfg_ID c) (cfg_Peers c) (cfg_MaxFailures c) 0 ∅ 0 [] [] ∅ 0 rbThreshold
             (NewDispatcher workers) [])
  end.

Definition makeRB (m : RBMessage) : rbroadcast :=
  mkRB (mkRBState (m_PeerID m) RBState_None (m_Command m) (m_CommandHash m))
    newQuorum newQuorum false.
Definition makeEpoch : epoch := mkEpoch 0 0 ∅ ∅.
Definition makeCons : dbft := mkDbft ∅ false 0 0 false false 0.
Definition makeRound : dbftRound := mkRound 0 ∅ ∅ ∅ false false None [] false.

Section dispel.
Context `{GoEnv, MapRange, Codec Command, Codec DispelMessage, Certifier}.

(** *** Messaging (messaging.go) *)
Definition enqueueForSending (to : Z) (mm certificate : bytes) : M Dispel unit :=
  modify (λ d, d <| d_msgs ::= λ l, l ++ [mkMessage (d_id d) to mm certificate] |>).

Definition sendTo (to : Z) (m : DispelMessage) : M Dispel unit :=
  match Marshal m with
  | None => panic "unable to marshall"
  | Some mBytes => enqueueForSending to mBytes (CreateSignedCertificate mBytes)
  end.

Definition broadcast (m : DispelMessage) (sendToSelf : bool) : M Dispel unit :=
  match Marshal m with
  | None => panic "unable to marshall"
  | Some mBytes =>
      d ← get;
      for_each (d_peers d) (λ node,
        when (sendToSelf || bool_decide (node ≠ d_id d))
          (modify (λ d, d <| d_signDispatcher ::= Worker.Exec (mkSignJob node mBytes) |>)))
  end.

(** The two closures of [broadcast]. *)
Definition sign (j : signJob) : bytes := CreateSignedCertificate (sj_mBytes j).
Definition send_signed (j : signJob) (cert : bytes) : M Dispel unit :=
  enqueueForSending (sj_node j) (sj_mBytes j) cert.

Definition worker_step (cap : nat) (e : Worker.event) (d : Dispel) : option Dispel :=
  '(w, cbs) ← Worker.step sign cap e (d_signDispatcher d) (d_callbackC d);
  Some (d <| d_signDispatcher := w |> <| d_callbackC := cbs |>).

Definition AsyncCallback_body : M Dispel bool :=
  d ← get;
  match d_callbackC d with
  | [] => mret false
  | (j, cert) :: rest =>
      modify (λ d, d <| d_callbackC := rest |>);;
      send_signed j cert;;
      mret true
  end.

(** A callback adds nothing to the channel, so one round per element is enough. *)
Definition AsyncCallback : M Dispel unit :=
  d ← get; loop (S (length (d_callbackC d))) AsyncCallback_body.

(** *** Through the pointers

    Read or update the epoch [e], its broadcast or consensus instance of peer
    [k], or that instance's round [r]. *)
Definition upd_epoch (e : Z) (g : epoch → epoch) : M Dispel unit :=
  modify (λ d, d <| d_epochs ::= alter g e |>).
Definition upd_rb (e k : Z) (g : rbroadcast → rbroadcast) : M Dispel unit :=
  upd_epoch e (λ ep, ep <| ep_rbs ::= alter g k |>).
Definition upd_cons (e k : Z) (g : dbft → dbft) : M Dispel unit :=
  upd_epoch e (λ ep, ep <| ep_cons ::= alter g k |>).
Definition upd_round (e k r : Z) (g : dbftRound → dbftRound) : M Dispel unit :=
  upd_cons e k (λ c, c <| rs ::= alter g r |>).

Definition find_rb (e k : Z) (d : Dispel) : option rbroadcast :=
  ep ← d_epochs d !! e; ep_rbs ep !! k.
Definition find_cons (e k : Z) (d : Dispel) : option dbft :=
  ep ← d_epochs d !! e; ep_cons ep !! k.
Definition find_round (e k r : Z) (d : Dispel) : option dbftRound :=
  c ← find_cons e k d; rs c !! r.

Definition deref {A} (find : Dispel → option A) : M Dispel A :=
  d ← get; match find d with None => panic "nil pointer" | Some a => mret a end.
Definition get_ep (e : Z) : M Dispel epoch := deref (λ d, d_epochs d !! e).
Definition get_rb (e k : Z) : M Dispel rbroadcast := deref (find_rb e k).
Definition get_cons (e k : Z) : M Dispel dbft := deref (find_cons e k).
Definition get_round (e k r : Z) : M Dispel dbftRound := deref (find_round e k r).

Definition log_pCert (e k id : Z) (m : RBMessage) : M Dispel unit :=
  rb ← get_rb e k; q ← lift (quorum_log id m (pCert rb)); upd_rb e k (λ rb, rb <| pCert := q |>).
Definition log_cCert (e k id : Z) (m : RBMessage) : M Dispel unit :=
  rb ← get_rb e k; q ← lift (quorum_log id m (cCert rb)); upd_rb e k (λ rb, rb <| cCert := q |>).
Definition set_status (e k st : Z) : M Dispel unit :=
  upd_rb e k (λ rb, rb <| rbs ::= set rbs_Status (λ _, st) |>).

(** *** Requests (request.go)

    The pointer the caller passed is filed, marshalled and hashed twice; its
    command after the calls of [Hash] is returned. *)
Definition onRequest (cmd : option Command) : M Dispel (option Command) :=
  d ← get;
  let e := d_nextEpochNumber d in
  modify (λ d, d <| d_nextEpochNumber := u64 (e + 1) |>);;
  (match d_epochs d !! e with
   | None => modify (λ d, d <| d_epochs ::= <[e := makeEpoch]> |>)
   | Some _ => mret tt
   end);;
  (match find_rb e (d_id d) d with
   | None =>
       '(h, cmd) ← lift (Command_Hash_ptr cmd);
       upd_epoch e (λ ep, ep <| ep_rbs ::= <[d_id d :=
         mkRB (mkRBState (d_id d) RBState_None cmd h) newQuorum newQuorum false]> |>)
   | Some _ => mret tt
   end);;
  '(h, cmd) ← lift (Command_Hash_ptr cmd);
  rb ← get_rb e (d_id d);
  let pm := mkRBM e (rbs_PeerID (rbs rb)) RBMessage_Send cmd None in
  let logpm := mkRBM e (rbs_PeerID (rbs rb)) RBMessage_Send None h in
  set_status e (d_id d) RBState_Received;;
  log_pCert e (d_id d) (d_id d) logpm;;
  broadcast (DispelMessage_Broadcast pm) false;;
  mret cmd.

(** *** Delivery (exec.go) *)
Definition enqueueForExecution (cmd : Command) : M Dispel unit :=
  modify (λ d, d <| d_toDeliver ::= λ l, l ++ [exec_pkt cmd] |>).

(** [cons.decided && cons.decidedValue == 1] *)
Definition accepted (c : dbft) : bool := decided c && bool_decide (decidedValue c = 1)%Z.

(** The first loop of [exec], which returns at an accepted broadcast that has
    not been readied. *)
Fixpoint all_readied (conss : list (Z * dbft)) (rbm : gmap Z rbroadcast) : outcome bool :=
  match conss with
  | [] => Ret true
  | (id, c) :: conss =>
      if accepted c then
        match rbm !! id with
        | None => Panic "nil rbroadcast"
        | Some rb => if HasReadied (rbs rb) then all_readied conss rbm else Ret false
        end
      else all_readied conss rbm
  end.

(** The body of the second loop of [exec]. *)
Definition deliver (e id : Z) (c : dbft) : M Dispel unit :=
  d ← get;
  if accepted c then
    rb ← get_rb e id;
    match rbs_Command (rbs rb) with
    | None => panic "nil Command"
    | Some cmd =>
        enqueueForExecution cmd;;
        upd_rb e id (λ rb, rb <| rbs ::= set rbs_Command (λ _, None) |>)
    end
  else
    match find_rb e id d with
    | Some rb =>
        when (bool_decide (id = d_id d) && decided c)
          (match rbs_Command (rbs rb) with
           | None => panic "nil Command"
           | Some cmd =>
               upd_rb e id (λ rb, rb <| reproposed := true |>);;
               cmd ← onRequest (Some cmd);
               upd_rb e id (λ rb, rb <| rbs ::= set rbs_Command (λ _, cmd) |>)
           end)
    | None => mret tt
    end.

Definition exec_body : M Dispel bool :=
  d ← get;
  let e := d_nextDeliverEpoch d in
  match d_epochs d !! e with
  | None => mret false
  | Some ep =>
      if bool_decide (rbDoneCount ep < d_rbThreshold d)%Z
         || bool_decide (consDoneCount ep ≠ Z.of_nat (length (d_peers d))) then mret false else
      ready ← lift (all_readied (range (ep_cons ep)) (ep_rbs ep));
      if negb ready then mret false else
      for_each (range (ep_cons ep)) (λ ic, deliver e ic.1 ic.2);;
      modify (λ d, d <| d_nextDeliverEpoch ::= λ x, u64 (x + 1) |>);;
      mret true
  end.

(** The loop stops at the first epoch that is not there or not complete
    ([exec_loop_twp] in DispelEnds.v). *)
Definition exec : M Dispel unit := d ← get; loop (S (size (d_epochs d))) exec_body.

(** *** Binary consensus (dbft.go)

    [binaryPropose], [broadcastAux] and [onAfterSendReceiveAux] call each
    other, round after round; the first two take the function that proposes
    in the next round, and [binaryPropose_rec] ties the knot. *)

(** golang-set's [ToSlice] ranges over a Go map. *)
Definition ToSlice (s : gset Z) : list Z := (range (gset_to_gmap tt s)).*1.

(** Go's [Cardinality] of the union of the sets, when it is one: its element. *)
Definition single (s : gset Z) : option Z :=
  match elements s with [v] => Some v | _ => None end.

Definition onAfterSendReceiveAux_ (binaryPropose : Z → Z → M Dispel unit) (e k r : Z)
    : M Dispel unit :=
  d ← get;
  rnd ← get_round e k r;
  if negb (auxSent rnd) then mret tt else
  if bool_decide (Z.of_nat (length (auxEstimates rnd)) ≤ 2 * d_maxFailures d)%Z then mret tt else
  let valuesSet := ⋃ auxEstimates rnd in
  if negb (bool_decide (valuesSet ⊆ binValues rnd)) then mret tt else
  c ← get_cons e k;
  let b := (r `mod` 2)%Z in
  (match single valuesSet with
   | Some v =>
       upd_round e k r (λ rnd, rnd <| rs_est := v |> <| binValues ::= λ s, {[v]} ∪ s |>);;
       when (bool_decide (v = b) && negb (decided c))
         (upd_cons e k (λ c, c <| decided := true |> <| decidedValue := v |>
                               <| decidedRound := r |>);;
          upd_epoch e (λ ep, ep <| consDoneCount ::= Z.add 1 |>))
   | None => upd_round e k r (λ rnd, rnd <| rs_est := b |>)
   end);;
  c ← get_cons e k;
  rnd ← get_round e k r;
  if decided c && bool_decide (decidedRound c = r) then
    exec;;
    if bool_decide (0%Z ∈ binValues rnd) && bool_decide (1%Z ∈ binValues rnd)
    then binaryPropose (u64 (r + 1)) (rs_est rnd)
    else upd_cons e k (λ c, c <| restartOnBinValues := true |>)
  else if decided c && bool_decide (decidedRound c = u64 (r - 2))
  then upd_cons e k (λ c, c <| halt := true |>)
  else binaryPropose (u64 (r + 1)) (rs_est rnd).

Definition broadcastAux_ (binaryPropose : Z → Z → M Dispel unit) (e k r : Z) (auxVal : gset Z)
    : M Dispel unit :=
  rnd ← get_round e k r;
  if auxSent rnd then mret tt else
  let am := mkCM e k r ConsensusMessage_Aux 0 (ToSlice auxVal) in
  upd_round e k r (λ rnd, rnd <| auxSent := true |>);;
  broadcast (DispelMessage_Consensus am) true;;
  onAfterSendReceiveAux_ binaryPropose e k r.

Fixpoint binaryPropose_rec (fuel : nat) (e k r est : Z) : M Dispel unit :=
  match fuel with
  | O => λ _, Diverge
  | S fuel =>
      c ← get_cons e k;
      if halt c then mret tt else
      (match rs c !! r with
       | None => upd_cons e k (λ c, c <| rs ::= <[r := makeRound]> |>)
       | Some _ => mret tt
       end);;
      if bool_decide (est = -1)%Z then
        upd_round e k r (λ rnd, rnd <| rs_est := 1%Z |> <| binValues ::= λ s, {[1%Z]} ∪ s |>
                                    <| coordStepDone := true |>);;
        rnd ← get_round e k r;
        broadcastAux_ (binaryPropose_rec fuel e k) e k r (binValues rnd)
      else
        upd_round e k r (λ rnd, rnd <| rs_est := est |>);;
        rnd ← get_round e k r;
        when (negb (bool_decide (est ∈ bvbSent rnd)))
          (upd_round e k r (λ rnd, rnd <| bvbSent ::= λ s, {[est]} ∪ s |>
             <| bvbEstimates ::= λ m, <[est := (default 0 (m !! est) + 1)%Z]> m |>);;
           broadcast (DispelMessage_Consensus (mkCM e k r ConsensusMessage_Estimate est [])) false)
  end.

(** A round that goes on to the next one has just sent its Aux message, which
    a round does once; [binaryPropose_rec_twp] in DispelEnds.v shows that the
    fuel is enough. *)
Definition propose_fuel (e k : Z) (d : Dispel) : nat :=
  match find_cons e k d with Some c => 2 + size (rs c) | None => 1 end.
Definition binaryPropose (e k r est : Z) : M Dispel unit :=
  d ← get; binaryPropose_rec (propose_fuel e k d) e k r est.
Definition onAfterSendReceiveAux (e k r : Z) : M Dispel unit :=
  d ← get; onAfterSendReceiveAux_ (binaryPropose_rec (propose_fuel e k d) e k) e k r.
Definition broadcastAux (e k r : Z) (auxVal : gset Z) : M Dispel unit :=
  d ← get; broadcastAux_ (binaryPropose_rec (propose_fuel e k d) e k) e k r auxVal.

Definition tryStartConsensus (e : Z) : M Dispel unit :=
  d ← get;
  ep ← get_ep e;
  if bool_decide (rbDoneCount ep ≠ d_rbThreshold d) then mret tt else
  for_each (d_peers d) (λ id,
    ep ← get_ep e;
    (match ep_cons ep !! id with
     | None => upd_epoch e (λ ep, ep <| ep_cons ::= <[id := makeCons]> |>)
     | Some _ => mret tt
     end);;
    match ep_rbs ep !! id with
    | Some rb =>
        if HasReadied (rbs rb) then binaryPropose e id 1 (-1) else binaryPropose e id 1 0
    | None => binaryPropose e id 1 0
    end).

Definition onRBDone (e id : Z) : M Dispel unit :=
  d ← get;
  ep ← get_ep e;
  if bool_decide (rbDoneCount ep ≤ d_rbThreshold d)%Z then mret tt else
  match ep_cons ep !! id with
  | None => panic "RB not found"
  | Some _ => binaryPropose e id 1 (-1)
  end.

(** The epoch, instance and round of a message, the last two made when they
    are not there. *)
Definition fetch_round (m : ConsensusMessage) : M Dispel unit :=
  d ← get;
  match d_epochs d !! cm_EpochNum m with
  | None => panic "unknown epoch"
  | Some ep =>
      let c := default makeCons (ep_cons ep !! cm_PeerID m) in
      let rnd := default makeRound (rs c !! cm_RoundNum m) in
      upd_epoch (cm_EpochNum m) (λ ep, ep <| ep_cons ::=
        <[cm_PeerID m := c <| rs ::= <[cm_RoundNum m := rnd]> |>]> |>)
  end.

(** The address of the timer is new. *)
Definition registerOneTimeTimer (t : Timer.tickingTimer timerAct) : M Dispel unit :=
  modify (λ d, d <| d_timers ::= <[d_nextTimer d :=
    Timer.Reset (Timer.Instrument [Timer.Act Unregister] t)]> |>
    <| d_nextTimer ::= Z.add 1 |>).
Definition unregisterTimer (a : Z) : M Dispel unit :=
  modify (λ d, d <| d_timers ::= delete a |>).

(** [rs.binValues.Contains(rs.coordMessage)] looks for a pointer in a set of
    integers, and so is false: the value of the coordinator is not used. *)
Definition auxVal (rnd : dbftRound) : gset Z :=
  match coordMessage rnd with
  | Some m => let contains := false in
              if (contains : bool) then {[cm_Estimate m]} else binValues rnd
  | None => binValues rnd
  end.

Definition onAfterBinValuesNotNullAndCoordTimerExpires (e k r : Z) : M Dispel unit :=
  rnd ← get_round e k r; broadcastAux e k r (auxVal rnd).

Definition onAfterCoordSentAndBinValuesNotNull (e k r : Z) : M Dispel unit :=
  rnd ← get_round e k r;
  if negb (coordTimerExpired rnd) then mret tt
  else onAfterBinValuesNotNullAndCoordTimerExpires e k r.

Definition onCoordTimerExpired (e k r : Z) : M Dispel unit :=
  upd_round e k r (λ rnd, rnd <| coordTimerExpired := true |>);;
  rnd ← get_round e k r;
  if bool_decide (size (binValues rnd) < 1) then mret tt
  else onAfterBinValuesNotNullAndCoordTimerExpires e k r.

Definition coordTimeout : Z := 5.

Definition afterBVBroadcast (e k r : Z) : M Dispel unit :=
  upd_cons e k (λ c, c <| timeout ::= Z.add 1 |>);;
  rnd ← get_round e k r;
  when (negb (coordStepDone rnd))
    (upd_round e k r (λ rnd, rnd <| coordStepDone := true |>);;
     d ← get;
     coord ← lift (go_rem (i64 (i64 r - 1)) (Z.of_nat (length (d_peers d))));
     when (bool_decide (i64 (d_id d) = coord))
       (match single (binValues rnd) with
        | None => panic "length is more than one"
        | Some w =>
            broadcast (DispelMessage_Consensus (mkCM e k r ConsensusMessage_CoordValue w [])) true
        end);;
     c ← get_cons e k;
     registerOneTimeTimer (Timer.MakeTickingTimer (coordTimeout * timeout c)
                             [Timer.Act (CoordTimerExpired e k r)]);;
     onAfterCoordSentAndBinValuesNotNull e k r);;
  c ← get_cons e k;
  rnd ← get_round e k r;
  when (restartOnBinValues c && bool_decide (0%Z ∈ binValues rnd)
          && bool_decide (1%Z ∈ binValues rnd))
    (upd_cons e k (λ c, c <| restartOnBinValues := false |>);;
     binaryPropose e k (u64 (r + 1)) (rs_est rnd)).

Definition onBVBroadcast (m : ConsensusMessage) (from : Z) : M Dispel unit :=
  let '(e, k, r) := (cm_EpochNum m, cm_PeerID m, cm_RoundNum m) in
  let v := cm_Estimate m in
  d ← get;
  fetch_round m;;
  upd_round e k r (λ rnd, rnd <| bvbEstimates ::= λ l, <[v := (default 0 (l !! v) + 1)%Z]> l |>);;
  rnd ← get_round e k r;
  let count := default 0%Z (bvbEstimates rnd !! v) in
  when (bool_decide (count = d_maxFailures d + 1)%Z && negb (bool_decide (v ∈ bvbSent rnd)))
    (upd_round e k r (λ rnd, rnd <| bvbSent ::= λ s, {[v]} ∪ s |>);;
     broadcast (DispelMessage_Consensus m) false);;
  when (bool_decide (count = 2 * d_maxFailures d + 1)%Z)
    (upd_round e k r (λ rnd, rnd <| binValues ::= λ s, {[v]} ∪ s |>);;
     afterBVBroadcast e k r).

Definition onCoordValue (m : ConsensusMessage) (from : Z) : M Dispel unit :=
  fetch_round m;;
  upd_round (cm_EpochNum m) (cm_PeerID m) (cm_RoundNum m) (λ rnd, rnd <| coordMessage := Some m |>).

Definition onAuxMessage (m : ConsensusMessage) (from : Z) : M Dispel unit :=
  fetch_round m;;
  upd_round (cm_EpochNum m) (cm_PeerID m) (cm_RoundNum m)
    (λ rnd, rnd <| auxEstimates ::= λ l, l ++ [list_to_set (cm_Aux m)] |>);;
  onAfterSendReceiveAux (cm_EpochNum m) (cm_PeerID m) (cm_RoundNum m).

(** *** Reliable broadcast (rb.go) *)
Definition updateCommand (m : RBMessage) (ep : epoch) : outcome epoch :=
  match ep_rbs ep !! m_PeerID m with
  | None => Ret (ep <| ep_rbs ::= <[m_PeerID m := makeRB m]> |>)
  | Some rb =>
      match rbs_Command (rbs rb) with
      | Some c =>
          same ← Command_Equal c (m_Command m);
          if negb same then Panic "Different commands for same instance" else Ret ep
      | None => Ret (ep <| ep_rbs ::= <[m_PeerID m :=
                           rb <| rbs ::= set rbs_Command (λ _, m_Command m) |>]> |>)
      end
  end.

Definition updateCommandHash (m : RBMessage) (ep : epoch) : outcome epoch :=
  match ep_rbs ep !! m_PeerID m with
  | None => Ret (ep <| ep_rbs ::= <[m_PeerID m := makeRB m]> |>)
  | Some rb =>
      match rbs_CommandHash (rbs rb) with
      | Some _ =>
          if negb (bytes_Equal (rbs_CommandHash (rbs rb)) (m_CommandHash m))
          then Panic "Different command hashes for same instance" else Ret ep
      | None => Ret (ep <| ep_rbs ::= <[m_PeerID m :=
                           rb <| rbs ::= set rbs_CommandHash (λ _, m_CommandHash m) |>]> |>)
      end
  end.

(** The epoch of a message, made with a broadcast for it or checked against it. *)
Definition fetch_rb (checks : epoch → outcome epoch) (m : RBMessage) : M Dispel unit :=
  d ← get;
  ep ← match d_epochs d !! m_EpochNum m with
       | None => mret (makeEpoch <| ep_rbs := {[m_PeerID m := makeRB m]} |>)
       | Some ep => lift (checks ep)
       end;
  modify (λ d, d <| d_epochs ::= <[m_EpochNum m := ep]> |>);;
  match ep_rbs ep !! m_PeerID m with
  | None => panic "slot not available"
  | Some _ => mret tt
  end.

Definition onAfterReady (e k : Z) : M Dispel unit :=
  d ← get;
  rb ← get_rb e k;
  when (bool_decide (d_id d = rbs_PeerID (rbs rb)))
    (match find_cons e (rbs_PeerID (rbs rb)) d with
     | None => mret tt
     | Some c =>
         when (decided c && bool_decide (decidedValue c = 0)%Z && negb (reproposed rb))
           (cmd ← onRequest (rbs_Command (rbs rb));
            upd_rb e k (λ rb, rb <| rbs ::= set rbs_Command (λ _, cmd) |>))
     end).

(** The block under [if rb.cCert.Majority(cm) && rb.rbs.HasEchoed()]. *)
Definition maybeReady (e k : Z) (cm : RBMessage) : M Dispel unit :=
  d ← get;
  rb ← get_rb e k;
  when (Majority (d_maxFailures d) cm (cCert rb) && HasEchoed (rbs rb))
    (set_status e k RBState_Readied;;
     upd_epoch e (λ ep, ep <| rbDoneCount ::= Z.add 1 |>);;
     tryStartConsensus e;;
     onRBDone e (rbs_PeerID (rbs rb));;
     exec;;
     onAfterReady e k).

(** The block under [if rb.pCert.Majority(pm) && rb.rbs.HasReceived()]. *)
Definition maybeEcho (e k : Z) (pm : RBMessage) : M Dispel unit :=
  d ← get;
  rb ← get_rb e k;
  when (Majority (d_maxFailures d) pm (pCert rb) && HasReceived (rbs rb))
    (set_status e k RBState_Echoed;;
     let cm := mkRBM e k RBMessage_Ready None (rbs_CommandHash (rbs rb)) in
     broadcast (DispelMessage_Broadcast cm) false;;
     log_cCert e k (d_id d) cm;;
     maybeReady e k cm).

Definition onRBSend (m : RBMessage) (from : Z) : M Dispel unit :=
  let '(e, k) := (m_EpochNum m, m_PeerID m) in
  '(h, cmd) ← lift (Command_Hash_ptr (m_Command m));
  let m := m <| m_Command := cmd |> <| m_CommandHash := h |> in
  fetch_rb (λ ep, ep ← updateCommand m ep; updateCommandHash m ep) m;;
  let m := m <| m_Command := None |> in
  log_pCert e k from m;;
  set_status e k RBState_Received;;
  d ← get;
  rb ← get_rb e k;
  let pm := mkRBM e k RBMessage_Echo None (rbs_CommandHash (rbs rb)) in
  log_pCert e k (d_id d) pm;;
  broadcast (DispelMessage_Broadcast pm) false;;
  maybeEcho e k pm.

Definition onRBEcho (m : RBMessage) (from : Z) : M Dispel unit :=
  fetch_rb (updateCommandHash m) m;;
  log_pCert (m_EpochNum m) (m_PeerID m) from m;;
  maybeEcho (m_EpochNum m) (m_PeerID m) m.

Definition onRBReady (m : RBMessage) (from : Z) : M Dispel unit :=
  fetch_rb (updateCommandHash m) m;;
  log_cCert (m_EpochNum m) (m_PeerID m) from m;;
  maybeReady (m_EpochNum m) (m_PeerID m) m.

(** *** The [Protocol] methods (dispel.go) *)
Definition stepBroadcast (m : RBMessage) (from : Z) : M Dispel unit :=
  if decide (m_Type m = RBMessage_Send) then onRBSend m from
  else if decide (m_Type m = RBMessage_Echo) then onRBEcho m from
  else if decide (m_Type m = RBMessage_Ready) then onRBReady m from
  else panic "unexpected Message type".

Definition stepConsensus (m : ConsensusMessage) (from : Z) : M Dispel unit :=
  if decide (cm_Type m = ConsensusMessage_Estimate) then onBVBroadcast m from
  else if decide (cm_Type m = ConsensusMessage_CoordValue) then onCoordValue m from
  else if decide (cm_Type m = ConsensusMessage_Aux) then onAuxMessage m from
  else panic "unexpected Message type".

Definition Step (message : Message) : M Dispel unit :=
  match Unmarshal (msg_Content message) with
  | None => panic "unmarshal"
  | Some mirMsg =>
      if negb (VerifyCertificate (msg_Content message) (msg_Certificate message))
      then panic "Invalid certificate" else
      match mirMsg with
      | DispelMessage_Broadcast m => stepBroadcast m (msg_From message)
      | DispelMessage_Consensus m => stepConsensus m (msg_From message)
      | DispelMessage_nil => panic "Unknown message"
      end
  end.

Definition run_action (a : Z) (act : timerAct) : M Dispel unit :=
  match act with
  | Unregister => unregisterTimer a
  | CoordTimerExpired e k r => onCoordTimerExpired e k r
  end.

(** One timer ticks; Go does not range over an entry that has been deleted. *)
Definition tick_one (a : Z) : M Dispel unit :=
  d ← get;
  match d_timers d !! a with
  | None => mret tt
  | Some t =>
      let '(t, acts) := Timer.Tick t in
      modify (λ d, d <| d_timers ::= <[a := t]> |>);;
      for_each acts (run_action a)
  end.
Definition Tick : M Dispel unit := d ← get; for_each (range (d_timers d)) (λ at_, tick_one at_.1).

Definition Callback (cb : ExecCallback) : M Dispel unit := panic "not implemented".
Definition Request (cmd : Command) : M Dispel unit := onRequest (Some cmd);; mret tt.
Definition MakeReady : M Dispel Ready := gets (λ d, mkReady (d_msgs d) (d_toDeliver d)).
Definition ClearMsgs : M Dispel unit := modify (λ d, d <| d_msgs := [] |>).
Definition ClearExecutedCommands : M Dispel unit := modify (λ d, d <| d_toDeliver := [] |>).

Definition hasExecuted (cmd : Command) (d : Dispel) : outcome bool :=
  for_out (d_toDeliver d) false (λ x acc,
    if (acc : bool) then Ret true else Command_Equal (x_Cmd x) (Some cmd)).
Definition hasBroadcast (cmd : Command) (d : Dispel) : bool :=
  existsb (λ e, match ep_rbs e.2 !! c_Target cmd with
                | Some rb => HasReadied (rbs rb)
                | None => false
                end) (range (d_epochs d)).

#[export] Instance Dispel_Protocol : Protocol Dispel := {|
  Peer.Step := Step;
  Peer.Tick := Tick;
  Peer.Request := Request;
  Peer.Callback := Callback;
  Peer.MakeReady := MakeReady;
  Peer.ClearMsgs := ClearMsgs;
  Peer.ClearExecutedCommands := ClearExecutedCommands;
  Peer.AsyncCallback := AsyncCallback;
|}.
End dispel.
End Dispel.
