(* ===== verification/DispelSafety.v ===== *)
(** * The invariant of a Dispel replica

    What holds of every epoch, broadcast and consensus instance after any
    calls: certificates behind the states of a broadcast, evidence behind a
    decision, the counters of an epoch, and where delivered packets come from. *)
From S2P Require Import Prelude Command Worker Certifier Peer Dispel.
Import Dispel.

(** ** Counting in maps *)
Section count.
Context {A : Type} (P : A → bool).

Definition count (m : gmap Z A) : nat := size (filter (λ x : Z * A, P x.2 = true) m).
Definition one_if (o : option A) : nat := match o with Some a => if P a then 1 else 0 | None => 0 end.

Lemma count_empty : count ∅ = 0.
Proof. unfold count. by rewrite map_filter_empty, map_size_empty. Qed.

Lemma count_insert_new m k a : m !! k = None → count (<[k := a]> m) = count m + one_if (Some a).
Proof.
  intros Hk. unfold count.
  assert (filter (λ x : Z * A, P x.2 = true) m !! k = None) as Hf.
  { apply map_lookup_filter_None. by left. }
  rewrite map_filter_insert. simpl. destruct (P a); case_decide; try done.
  - rewrite map_size_insert_None; [lia|done].
  - rewrite map_filter_delete, delete_id by done. lia.
Qed.

Lemma count_insert m k a : count (<[k := a]> m) + one_if (m !! k) = count m + one_if (Some a).
Proof.
  rewrite <-(insert_delete_eq m k a), count_insert_new by apply lookup_delete_eq.
  destruct (m !! k) as [b|] eqn:Hk; [|rewrite delete_id by done; simpl; lia].
  assert (count m = count (delete k m) + one_if (Some b)) as ->; [|lia].
  rewrite <-(count_insert_new _ k) by apply lookup_delete_eq. by rewrite insert_delete_id.
Qed.

Lemma count_pos m k a : m !! k = Some a → P a = true → 1 ≤ count m.
Proof.
  intros Hk Ha. rewrite <-(insert_delete_id m k a), count_insert_new by (done || apply lookup_delete_eq).
  simpl. rewrite Ha. lia.
Qed.

Lemma count_le m : count m ≤ size m.
Proof. apply map_subseteq_size, map_filter_subseteq. Qed.

Lemma count_alter m k g :
  (∀ a, m !! k = Some a → P (g a) = P a) → count (alter g k m) = count m.
Proof.
  intros Hg. destruct (m !! k) as [a|] eqn:Hk.
  - assert (alter g k m = <[k := g a]> m) as ->.
    { apply map_eq. intros i. destruct (decide (i = k)) as [->|];
        [by rewrite lookup_alter_eq, lookup_insert_eq, Hk|].
      by rewrite lookup_alter_ne, lookup_insert_ne by done. }
    pose proof (count_insert m k (g a)) as Hc. rewrite Hk in Hc. simpl in Hc.
    rewrite Hg in Hc by done. lia.
  - assert (alter g k m = m) as ->; [|done]. apply map_eq. intros i.
    destruct (decide (i = k)) as [->|]; [by rewrite lookup_alter_eq, Hk|by rewrite lookup_alter_ne].
Qed.
End count.

(** [alter] at a key that is there. *)
Lemma alter_Some {A} (g : A → A) (m : gmap Z A) k a :
  m !! k = Some a → alter g k m = <[k := g a]> m.
Proof.
  intros Hk. apply map_eq. intros i. destruct (decide (i = k)) as [->|];
    [by rewrite lookup_alter_eq, lookup_insert_eq, Hk|].
  by rewrite lookup_alter_ne, lookup_insert_ne by done.
Qed.
Lemma single_spec s v : single s = Some v ↔ s = {[v]}.
Proof.
  unfold single. split.
  - destruct (elements s) as [|x [|]] eqn:He; try done. intros [= ->].
    apply set_eq. intros y. rewrite <-elem_of_elements, He. set_solver.
  - intros ->. by rewrite elements_singleton.
Qed.

Section invariant.
Context `{GoEnv, MapRange, Codec Command, Codec DispelMessage, Certifier}.
Context `{!GoEnvLaws} (marshal_ok : ∀ c : Command, is_Some (Marshal c)).
Context (id : Z) (peers : list Z) (f thr : Z).
(** The packets that the peer has taken. *)
Context (before : list ExecPacket).
Implicit Types (d : Dispel) (ep : epoch) (rb : rbroadcast) (c : dbft) (rnd : dbftRound).

(** ** The parts *)

(** More than [2f] messages equal to [m]. *)
Definition certified (m : RBMessage) (q : quorum) : Prop :=
  (2 * f < Z.of_nat (size (filter (λ x : Z * RBMessage, RBMessage_Equals m x.2 = true) q)))%Z.

(** A certificate for the broadcast of [k] in epoch [e], under its hash. *)
Definition certificate (e k : Z) rb (q : quorum) : Prop :=
  ∃ m, certified m q ∧ m_EpochNum m = e ∧ m_PeerID m = k ∧
    (k ≠ id → m_CommandHash m ≈ rbs_CommandHash (rbs rb)).

(** The hash of a broadcast is that of a command, and its own command is, up
    to [same_request], that one. *)
Definition hashed rb : Prop :=
  ∃ cmd h, (Command_Hash cmd).1 = Some h ∧ rbs_CommandHash (rbs rb) ≈ Some h ∧
    ∀ cmd', rbs_Command (rbs rb) = Some cmd' → same_request cmd' cmd.

Record rb_ok (e k : Z) rb : Prop := {
  ro_peer : rbs_PeerID (rbs rb) = k;
  ro_status : (0 ≤ rbs_Status (rbs rb) ≤ 3)%Z;
  ro_own : (1 ≤ rbs_Status (rbs rb))%Z → is_Some (pCert rb !! id);
  ro_hashed : k ≠ id → (1 ≤ rbs_Status (rbs rb))%Z → hashed rb;
  ro_echoed : (2 ≤ rbs_Status (rbs rb))%Z → certificate e k rb (pCert rb);
  ro_readied : (3 ≤ rbs_Status (rbs rb))%Z → certificate e k rb (cCert rb);
}.

(** Why a round decided [v]: its first Aux sets, more than [2f] of them, have
    [v] as their only value, and [v] is one of the round's own. *)
Definition decision (v : Z) rnd : Prop :=
  v ∈ binValues rnd ∧
  ∃ l, l `prefix_of` auxEstimates rnd ∧ (2 * f < Z.of_nat (length l))%Z ∧ ⋃ l = {[v]}.

Record cons_ok c : Prop := {
  co_binValues r rnd v : rs c !! r = Some rnd → v ∈ binValues rnd →
    v = 1%Z ∨ (2 * f + 1 ≤ default 0 (bvbEstimates rnd !! v))%Z;
  co_decided : decided c = true → (decidedValue c = decidedRound c `mod` 2)%Z ∧
    ∃ rnd, rs c !! decidedRound c = Some rnd ∧ decision (decidedValue c) rnd;
}.

Record epoch_ok (e : Z) ep : Prop := {
  eo_rb k rb : ep_rbs ep !! k = Some rb → rb_ok e k rb;
  eo_cons k c : ep_cons ep !! k = Some c → cons_ok c;
  eo_rbDone : rbDoneCount ep = Z.of_nat (count (λ rb, HasReadied (rbs rb)) (ep_rbs ep));
  eo_consDone : consDoneCount ep = Z.of_nat (count decided (ep_cons ep));
}.

(** What is never taken back. *)
Definition rb_le (k : Z) rb rb' : Prop :=
  HasReadied (rbs rb) = true → HasReadied (rbs rb') = true ∧
    (k ≠ id → rbs_CommandHash (rbs rb') = rbs_CommandHash (rbs rb)).
Definition cons_le c c' : Prop :=
  decided c = true → decided c' = true ∧ decidedValue c' = decidedValue c.
Definition epoch_le ep ep' : Prop :=
  (∀ k rb, ep_rbs ep !! k = Some rb → ∃ rb', ep_rbs ep' !! k = Some rb' ∧ rb_le k rb rb') ∧
  (∀ k c, ep_cons ep !! k = Some c → ∃ c', ep_cons ep' !! k = Some c' ∧ cons_le c c').

(** The broadcast of [k] in epoch [e] is readied and decided to be delivered. *)
Definition chosen (epochs : gmap Z epoch) (e k : Z) (P : rbroadcast → Prop) : Prop :=
  ∃ ep rb c, epochs !! e = Some ep ∧ ep_rbs ep !! k = Some rb ∧ ep_cons ep !! k = Some c ∧
    HasReadied (rbs rb) = true ∧ accepted c = true ∧ P rb.

(** The packet is the command of that broadcast. *)
Definition from_rb (epochs : gmap Z epoch) (e k : Z) (pkt : ExecPacket) : Prop :=
  chosen epochs e k (λ rb, k ≠ id → ∃ cmd h, (Command_Hash cmd).1 = Some h ∧
    rbs_CommandHash (rbs rb) ≈ Some h ∧ same_request (x_Cmd pkt) cmd).

Definition epoch_delivered (epochs : gmap Z epoch) (e : Z) (ks : list Z) (pkts : list ExecPacket) : Prop :=
  NoDup ks ∧ Forall2 (from_rb epochs e) ks pkts.

(** The packets are those of the epochs 0, 1, ... one after the other. *)
Definition delivered (epochs : gmap Z epoch) (hist : list ExecPacket) (pkss : list (list ExecPacket)) : Prop :=
  hist = concat pkss ∧
  ∀ i pkts, pkss !! i = Some pkts → ∃ ks, epoch_delivered epochs (u64 (Z.of_nat i)) ks pkts.

(** The invariant while the broadcasts [cur] of the epoch to deliver have been
    delivered, and [watch] are known to be chosen. *)
Record inv (watch cur : list Z) d : Prop := {
  iv_id : d_id d = id;
  iv_peers : d_peers d = peers;
  iv_f : d_maxFailures d = f;
  iv_thr : d_rbThreshold d = thr;
  iv_epochs e ep : d_epochs d !! e = Some ep → epoch_ok e ep;
  iv_watch k : k ∈ watch → chosen (d_epochs d) (d_nextDeliverEpoch d) k (λ _, True);
  iv_done : ∃ pkss pkts, delivered (d_epochs d) (concat pkss) pkss ∧
    before ++ d_toDeliver d = concat pkss ++ pkts ∧
    d_nextDeliverEpoch d = u64 (Z.of_nat (length pkss)) ∧
    epoch_delivered (d_epochs d) (d_nextDeliverEpoch d) cur pkts;
}.

(** ** What is kept *)
Definition epochs_le (m m' : gmap Z epoch) : Prop :=
  ∀ e ep, m !! e = Some ep → ∃ ep', m' !! e = Some ep' ∧ epoch_le ep ep'.

Lemma rb_le_refl k rb : rb_le k rb rb.
Proof. done. Qed.
Lemma cons_le_refl c : cons_le c c.
Proof. done. Qed.
Lemma epoch_le_refl ep : epoch_le ep ep.
Proof. split; eauto using rb_le_refl, cons_le_refl. Qed.

Lemma accepted_le c c' : cons_le c c' → accepted c = true → accepted c' = true.
Proof.
  unfold cons_le, accepted. intros Hle [Hd Hv]%andb_true_iff. destruct (Hle Hd) as [-> ->].
  by rewrite Hv.
Qed.

Lemma chosen_le m m' e k (P P' : rbroadcast → Prop) :
  epochs_le m m' → (∀ rb rb', rb_le k rb rb' → HasReadied (rbs rb) = true → P rb → P' rb') →
  chosen m e k P → chosen m' e k P'.
Proof.
  intros Hm HP (ep & rb & c & He & Hrb & Hc & Hr & Ha & Hp).
  destruct (Hm _ _ He) as (ep' & He' & Hrbs & Hcons).
  destruct (Hrbs _ _ Hrb) as (rb' & Hrb' & Hle). destruct (Hcons _ _ Hc) as (c' & Hc' & Hcle).
  exists ep', rb', c'. split_and!; eauto using accepted_le. by apply Hle.
Qed.

Lemma epoch_delivered_le m m' e ks pkts :
  epochs_le m m' → epoch_delivered m e ks pkts → epoch_delivered m' e ks pkts.
Proof.
  intros Hm [? Hf]. split; [done|]. eapply Forall2_impl; [done|]. intros k pkt.
  apply chosen_le; [done|]. intros rb rb' Hle Hr Hp Hk. destruct (Hle Hr) as [_ ->]; auto.
Qed.

Lemma delivered_le m m' hist pkss : epochs_le m m' → delivered m hist pkss → delivered m' hist pkss.
Proof.
  intros Hm [? Hd]. split; [done|]. intros i pkts Hi. destruct (Hd i pkts Hi) as [ks ?].
  exists ks. by eapply epoch_delivered_le.
Qed.

Lemma inv_epochs w cur d m' :
  inv w cur d → (∀ e ep, m' !! e = Some ep → epoch_ok e ep) → epochs_le (d_epochs d) m' →
  inv w cur (d <| d_epochs := m' |>).
Proof.
  intros [? ? ? ? Hep Hw (pkss & pkts & Hd & Hh & Hn & He)] Hok Hle. split; try done; cbn.
  - intros k Hk. eapply chosen_le; [done|done|by apply Hw].
  - exists pkss, pkts. split_and!; eauto using delivered_le, epoch_delivered_le.
Qed.

(** What the invariant looks at. *)
Definition core d :=
  (d_id d, d_peers d, d_maxFailures d, d_rbThreshold d, d_epochs d, d_nextDeliverEpoch d,
   d_toDeliver d).

Lemma inv_core w cur d d' : core d' = core d → inv w cur d → inv w cur d'.
Proof.
  unfold core. intros [= E1 E2 E3 E4 E5 E6 E7] [].
  split; rewrite ?E1, ?E2, ?E3, ?E4, ?E5, ?E6, ?E7; done.
Qed.

Lemma epochs_le_insert m e ep' :
  (∀ ep, m !! e = Some ep → epoch_le ep ep') → epochs_le m (<[e := ep']> m).
Proof.
  intros Hle i ep Hi. rewrite lookup_insert. case_decide as Hd; [subst; eauto|].
  exists ep. split; [done|apply epoch_le_refl].
Qed.

Lemma inv_put w cur d e ep' :
  inv w cur d → epoch_ok e ep' → (∀ ep, d_epochs d !! e = Some ep → epoch_le ep ep') →
  inv w cur (d <| d_epochs ::= <[e := ep']> |>).
Proof.
  intros Hi Hok Hle. apply (inv_epochs _ _ d (<[e := ep']> (d_epochs d))); [done| |by apply epochs_le_insert].
  intros i ep. rewrite lookup_insert. case_decide; [by intros [= <-]; subst|].
  apply (iv_epochs _ _ _ Hi).
Qed.

(** ** Updating an epoch in place *)
Lemma epoch_le_rb k g ep rb :
  ep_rbs ep !! k = Some rb → rb_le k rb (g rb) → epoch_le ep (ep <| ep_rbs ::= alter g k |>).
Proof.
  intros Hk Hle. split; cbn; [|eauto using cons_le_refl]. intros k' rb' Hk'.
  rewrite (alter_Some _ _ _ _ Hk), lookup_insert. case_decide; [simplify_eq; eauto|].
  eauto using rb_le_refl.
Qed.
Lemma epoch_le_cons k g ep c :
  ep_cons ep !! k = Some c → cons_le c (g c) → epoch_le ep (ep <| ep_cons ::= alter g k |>).
Proof.
  intros Hk Hle. split; cbn; [eauto using rb_le_refl|]. intros k' c' Hk'.
  rewrite (alter_Some _ _ _ _ Hk), lookup_insert. case_decide; [simplify_eq; eauto|].
  eauto using cons_le_refl.
Qed.

Lemma find_rb_Some e k d rb :
  find_rb e k d = Some rb → ∃ ep, d_epochs d !! e = Some ep ∧ ep_rbs ep !! k = Some rb.
Proof. unfold find_rb. by intros (ep & ? & ?)%bind_Some; eauto. Qed.
Lemma find_cons_Some e k d c :
  find_cons e k d = Some c → ∃ ep, d_epochs d !! e = Some ep ∧ ep_cons ep !! k = Some c.
Proof. unfold find_cons. by intros (ep & ? & ?)%bind_Some; eauto. Qed.

Lemma inv_find_rb w cur d e k rb : inv w cur d → find_rb e k d = Some rb → rb_ok e k rb.
Proof. intros Hi (ep & He & Hk)%find_rb_Some. by eapply eo_rb, Hk; eapply iv_epochs. Qed.
Lemma inv_find_cons w cur d e k c : inv w cur d → find_cons e k d = Some c → cons_ok c.
Proof. intros Hi (ep & He & Hk)%find_cons_Some. by eapply eo_cons, Hk; eapply iv_epochs. Qed.

Lemma epoch_ok_rb e k g ep rb :
  epoch_ok e ep → ep_rbs ep !! k = Some rb → rb_ok e k (g rb) →
  HasReadied (rbs (g rb)) = HasReadied (rbs rb) → epoch_ok e (ep <| ep_rbs ::= alter g k |>).
Proof.
  intros [Hr Hc Hn Hd] Hk Hok Hst. split; try done; cbn.
  - intros k' rb'. rewrite (alter_Some _ _ _ _ Hk), lookup_insert.
    case_decide; [by intros [= <-]; subst|auto].
  - rewrite count_alter; [done|]. intros a Ha. by simplify_eq.
Qed.
Lemma epoch_ok_cons e k g ep c :
  epoch_ok e ep → ep_cons ep !! k = Some c → cons_ok (g c) → decided (g c) = decided c →
  epoch_ok e (ep <| ep_cons ::= alter g k |>).
Proof.
  intros [Hr Hc Hn Hd] Hk Hok Hst. split; try done; cbn.
  - intros k' c'. rewrite (alter_Some _ _ _ _ Hk), lookup_insert.
    case_decide; [by intros [= <-]|apply Hc].
  - rewrite count_alter; [done|]. intros a Ha. by simplify_eq.
Qed.

(** The broadcast and consensus instances after an update in place. *)
Lemma find_rb_upd e k g d :
  find_rb e k (d <| d_epochs ::= alter (λ ep, ep <| ep_rbs ::= alter g k |>) e |>) = g <$> find_rb e k d.
Proof.
  unfold find_rb. cbn. rewrite lookup_alter_eq. destruct (d_epochs d !! e); simpl; [|done].
  apply lookup_alter_eq.
Qed.
Lemma find_cons_upd e k g d :
  find_cons e k (d <| d_epochs ::= alter (λ ep, ep <| ep_cons ::= alter g k |>) e |>) = g <$> find_cons e k d.
Proof.
  unfold find_cons. cbn. rewrite lookup_alter_eq. destruct (d_epochs d !! e); simpl; [|done].
  apply lookup_alter_eq.
Qed.

Lemma alter_epoch_inv w cur e g d :
  inv w cur d →
  (∀ ep, d_epochs d !! e = Some ep → epoch_ok e (g ep) ∧ epoch_le ep (g ep)) →
  inv w cur (d <| d_epochs ::= alter g e |>).
Proof.
  intros Hi Hg. destruct (d_epochs d !! e) as [ep|] eqn:He.
  - destruct (Hg ep eq_refl) as [Hok Hle].
    apply (inv_core _ _ (d <| d_epochs ::= <[e := g ep]> |>)).
    + unfold core. cbn. by rewrite (alter_Some _ _ _ _ He).
    + apply inv_put; try done. intros ep' He'. by simplify_eq.
  - apply (inv_core _ _ d); [|done]. unfold core. cbn. by rewrite alter_id'.
Qed.

Lemma upd_rb_inv w cur e k g d :
  inv w cur d →
  (∀ rb, find_rb e k d = Some rb →
    rb_ok e k (g rb) ∧ rb_le k rb (g rb) ∧ HasReadied (rbs (g rb)) = HasReadied (rbs rb)) →
  wp (upd_rb e k g) (λ _ d', inv w cur d' ∧ find_rb e k d' = g <$> find_rb e k d) d.
Proof.
  intros Hi Hg. unfold upd_rb, upd_epoch. wp_step. split; [|apply find_rb_upd].
  apply alter_epoch_inv; [done|]. intros ep He. pose proof (iv_epochs _ _ _ Hi _ _ He) as Hep.
  destruct (ep_rbs ep !! k) as [rb|] eqn:Hk.
  - destruct (Hg rb) as (Hok & Hle & Hst); [unfold find_rb; by rewrite He|].
    split; [by eapply epoch_ok_rb|by eapply epoch_le_rb].
  - assert (ep <| ep_rbs ::= alter g k |> = ep) as ->; [|split; [done|apply epoch_le_refl]].
    destruct ep. unfold set, set_ep_rbs. cbn in *. by rewrite alter_id'.
Qed.

Lemma upd_cons_inv w cur e k g d :
  inv w cur d →
  (∀ c, find_cons e k d = Some c → cons_ok (g c) ∧ cons_le c (g c) ∧ decided (g c) = decided c) →
  wp (upd_cons e k g) (λ _ d', inv w cur d' ∧ find_cons e k d' = g <$> find_cons e k d) d.
Proof.
  intros Hi Hg. unfold upd_cons, upd_epoch. wp_step. split; [|apply find_cons_upd].
  apply alter_epoch_inv; [done|]. intros ep He. pose proof (iv_epochs _ _ _ Hi _ _ He) as Hep.
  destruct (ep_cons ep !! k) as [c|] eqn:Hk.
  - destruct (Hg c) as (Hok & Hle & Hst); [unfold find_cons; by rewrite He|].
    split; [by eapply epoch_ok_cons|by eapply epoch_le_cons].
  - assert (ep <| ep_cons ::= alter g k |> = ep) as ->; [|split; [done|apply epoch_le_refl]].
    destruct ep. unfold set, set_ep_cons. cbn in *. by rewrite alter_id'.
Qed.

(** A round, updated so that the evidence of decisions is kept. *)
Definition round_le rnd rnd' : Prop :=
  binValues rnd ⊆ binValues rnd' ∧ auxEstimates rnd `prefix_of` auxEstimates rnd'.

Definition binValues_ok rnd : Prop :=
  ∀ v, v ∈ binValues rnd → v = 1%Z ∨ (2 * f + 1 ≤ default 0 (bvbEstimates rnd !! v))%Z.

Lemma decision_le v rnd rnd' : round_le rnd rnd' → decision v rnd → decision v rnd'.
Proof.
  intros [Hb Ha] (Hv & l & Hl & Hlen & Hu). split; [set_solver|]. exists l. split_and!; try done.
  by etrans.
Qed.

(** A round may be updated or made. *)
Lemma put_round_ok r rnd' c :
  cons_ok c → binValues_ok rnd' → (∀ rnd, rs c !! r = Some rnd → round_le rnd rnd') →
  cons_ok (c <| rs ::= <[r := rnd']> |>).
Proof.
  intros [Hb Hd] Hbin Hle. split; cbn.
  - intros r' rnd v. rewrite lookup_insert. case_decide; [intros [= <-]; apply Hbin|apply Hb].
  - intros Hdec. destruct (Hd Hdec) as (Hv & rnd & Hr & Hdc). split; [done|].
    rewrite lookup_insert. case_decide; [subst; eauto using decision_le|eauto].
Qed.

Lemma upd_round_inv w cur e k r g d :
  inv w cur d →
  (∀ rnd, find_round e k r d = Some rnd → binValues_ok rnd → binValues_ok (g rnd) ∧ round_le rnd (g rnd)) →
  wp (upd_round e k r g) (λ _ d', inv w cur d' ∧
    find_cons e k d' = set rs (alter g r) <$> find_cons e k d) d.
Proof.
  intros Hi Hg. apply upd_cons_inv; [done|]. intros c Hc.
  pose proof (inv_find_cons _ _ _ _ _ _ Hi Hc) as Hok. split; [|done].
  destruct (rs c !! r) as [rnd|] eqn:Hr.
  - destruct (Hg rnd) as [Hb Hle].
    { unfold find_round. by rewrite Hc. }
    { intros v. by eapply co_binValues. }
    assert (c <| rs ::= alter g r |> = c <| rs ::= <[r := g rnd]> |>) as ->.
    { destruct c. unfold set, set_rs. cbn in *. by rewrite (alter_Some _ _ _ _ Hr). }
    apply put_round_ok; try done. intros ? ?. by simplify_eq.
  - assert (c <| rs ::= alter g r |> = c) as ->; [|done].
    destruct c. unfold set, set_rs. cbn in *. by rewrite alter_id'.
Qed.

(** ** Sending and reading *)
Lemma dispel_broadcast_core m b d : keeps core (broadcast m b) d.
Proof. unfold broadcast. keeps_steps. Qed.

Lemma dispel_broadcast_inv w cur m b d (Q : Dispel → Prop) :
  inv w cur d → (∀ d', core d' = core d → Q d') →
  wp (broadcast m b) (λ _ d', inv w cur d' ∧ Q d') d.
Proof.
  intros Hi HQ. eapply wp_mono; [apply dispel_broadcast_core|]. simpl. intros _ d' Hc.
  split; [by eapply inv_core|auto].
Qed.

Lemma wp_deref {A} (find : Dispel → option A) Q d :
  (∀ a, find d = Some a → Q a d) → wp (deref find) Q d.
Proof. intros HQ. unfold deref. wp_step. wp_step. destruct (find d) eqn:E; [by apply HQ|done]. Qed.

Lemma find_rb_core e k d d' : core d' = core d → find_rb e k d' = find_rb e k d.
Proof. unfold core, find_rb. by intros [= _ _ _ _ -> _ _]. Qed.
Lemma find_cons_core e k d d' : core d' = core d → find_cons e k d' = find_cons e k d.
Proof. unfold core, find_cons. by intros [= _ _ _ _ -> _ _]. Qed.

(** ** Votes of a broadcast *)
Lemma quorum_log_spec j m q q' : quorum_log j m q = Ret q' → q !! j = None ∧ q' = <[j := m]> q.
Proof. unfold quorum_log. destruct (q !! j) eqn:E; [done|]. by intros [= <-]. Qed.

Lemma certified_insert m0 j m q : q !! j = None → certified m0 q → certified m0 (<[j := m]> q).
Proof.
  unfold certified. intros Hj Hc.
  assert (size (filter (λ x : Z * RBMessage, RBMessage_Equals m0 x.2 = true) q) ≤
    size (filter (λ x : Z * RBMessage, RBMessage_Equals m0 x.2 = true) (<[j := m]> q))) as Hle; [|lia].
  apply map_subseteq_size, map_filter_subseteq_mono; by apply insert_subseteq.
Qed.

Lemma certificate_insert e k rb rb' j m q :
  q !! j = None → rbs_CommandHash (rbs rb') = rbs_CommandHash (rbs rb) →
  certificate e k rb q → certificate e k rb' (<[j := m]> q).
Proof.
  intros Hj Hh (m0 & Hc & He & Hk & Hm). exists m0. rewrite Hh. eauto using certified_insert.
Qed.

Lemma Majority_certified m q : Majority f m q = true → certified m q.
Proof. unfold Majority, certified. case_bool_decide; [done|]. by rewrite bool_decide_eq_true. Qed.

Lemma log_pCert_inv w cur e k j m d :
  inv w cur d →
  wp (log_pCert e k j m) (λ _ d', inv w cur d' ∧ ∃ rb, find_rb e k d = Some rb ∧
    pCert rb !! j = None ∧ find_rb e k d' = Some (rb <| pCert ::= <[j := m]> |>)) d.
Proof.
  intros Hi. unfold log_pCert, get_rb. wp_step. apply wp_deref. intros rb Hrb. wp_step. wp_step.
  match goal with Hx : quorum_log _ _ _ = _ |- _ => apply quorum_log_spec in Hx as [Hj ->] end.
  eapply wp_mono; [apply (upd_rb_inv w cur); [done|]|].
  - intros rb0 Hrb0. simplify_eq. split; [|done]. destruct (inv_find_rb _ _ _ _ _ _ Hi Hrb).
    split; try done; cbn.
    + intros Hs. rewrite lookup_insert. case_decide; eauto.
    + intros Hs. eapply (certificate_insert _ _ rb); auto.
  - simpl. intros _ d' [Hi' Hf]. split; [done|]. exists rb. split_and!; [done..|].
    rewrite Hf, Hrb. done.
Qed.

Lemma log_cCert_inv w cur e k j m d :
  inv w cur d →
  wp (log_cCert e k j m) (λ _ d', inv w cur d' ∧ ∃ rb, find_rb e k d = Some rb ∧
    find_rb e k d' = Some (rb <| cCert ::= <[j := m]> |>)) d.
Proof.
  intros Hi. unfold log_cCert, get_rb. wp_step. apply wp_deref. intros rb Hrb. wp_step. wp_step.
  match goal with Hx : quorum_log _ _ _ = _ |- _ => apply quorum_log_spec in Hx as [Hj ->] end.
  eapply wp_mono; [apply (upd_rb_inv w cur); [done|]|].
  - intros rb0 Hrb0. simplify_eq. split; [|done]. destruct (inv_find_rb _ _ _ _ _ _ Hi Hrb).
    split; try done; cbn. intros Hs. eapply (certificate_insert _ _ rb); auto.
  - simpl. intros _ d' [Hi' Hf]. split; [done|]. exists rb. split_and!; [done..|].
    rewrite Hf, Hrb. done.
Qed.

(** Two updates in place are one. *)
Lemma alter_rb_twice e k (g1 g2 : rbroadcast → rbroadcast) (m : gmap Z epoch) :
  alter (λ ep, ep <| ep_rbs ::= alter g2 k |>) e (alter (λ ep, ep <| ep_rbs ::= alter g1 k |>) e m) =
  alter (λ ep, ep <| ep_rbs ::= alter (g2 ∘ g1) k |>) e m.
Proof.
  rewrite alter_alter_eq. apply alter_ext. intros ep _. destruct ep.
  unfold compose, set, set_ep_rbs. cbn. f_equal. by rewrite alter_alter_eq.
Qed.

(** A broadcast that gets to the status Received logs the replica's own vote;
    if it has been there before, the second vote stops the replica. *)
Lemma receive_inv w cur e k m rb d :
  inv w cur d → find_rb e k d = Some rb → (k ≠ id → hashed rb) →
  wp (set_status e k RBState_Received)
    (λ _, wp (log_pCert e k id m) (λ _ d', inv w cur d' ∧
       find_rb e k d' = Some (rb <| rbs ::= set rbs_Status (λ _, RBState_Received) |>
                                 <| pCert ::= <[id := m]> |>))) d.
Proof.
  intros Hi Hrb Hh. unfold set_status, upd_rb, upd_epoch. wp_step. unfold log_pCert, get_rb. wp_step. apply wp_deref. intros rb1.
  rewrite find_rb_upd, Hrb. intros [= <-]. wp_step. wp_step.
  match goal with Hx : quorum_log _ _ _ = _ |- _ => apply quorum_log_spec in Hx as [Hj ->] end.
  cbn in Hj. destruct (inv_find_rb _ _ _ _ _ _ Hi Hrb) as [Hp Hst Hown Hha Hec Hre].
  assert (rbs_Status (rbs rb) = 0)%Z as Hs.
  { destruct (decide (rbs_Status (rbs rb) = 0)%Z); [done|].
    destruct Hown as [? Ho]; [lia|]. by rewrite Hj in Ho. }
  assert (HasReadied (rbs rb) = false) as Hnr by (unfold HasReadied; by rewrite Hs).
  destruct (upd_rb_inv w cur e k
    ((λ rb', rb' <| pCert := <[id := m]> (pCert rb) |>) ∘
     (λ rb', rb' <| rbs ::= set rbs_Status (λ _, RBState_Received) |>)) d Hi) as [Hi' Hf].
  { intros rb0 Hrb0. simplify_eq. split_and!; [|by unfold rb_le; rewrite Hnr|by rewrite Hnr].
    split; cbn; unfold RBState_Received; try done.
    - intros _. rewrite lookup_insert_eq. by eexists.
    - intros Hk _. exact (Hh Hk). }
  unfold upd_rb, upd_epoch. wp_step. split.
  - eapply inv_core; [|exact Hi']. unfold core. cbn. by rewrite alter_rb_twice.
  - rewrite find_rb_upd, find_rb_upd, Hrb. done.
Qed.

(** ** Requests *)
Lemma makeEpoch_ok e : epoch_ok e makeEpoch.
Proof. split; try done; cbn; by rewrite count_empty. Qed.

Lemma new_own_rb_ok e cmd h :
  rb_ok e id (mkRB (mkRBState id RBState_None cmd h) newQuorum newQuorum false).
Proof. split; try done; cbn; unfold RBState_None; lia. Qed.

(** File a broadcast that is not there and not readied. *)
Lemma new_rb_inv w cur e k rb d :
  inv w cur d → find_rb e k d = None → rb_ok e k rb → HasReadied (rbs rb) = false →
  inv w cur (d <| d_epochs ::= alter (λ ep, ep <| ep_rbs ::= <[k := rb]> |>) e |>).
Proof.
  intros Hi Hn Hok Hr. apply alter_epoch_inv; [done|]. intros ep He.
  assert (ep_rbs ep !! k = None) as Hk by (unfold find_rb in Hn; by rewrite He in Hn).
  destruct (iv_epochs _ _ _ Hi _ _ He) as [Hrb Hc Hd Hcd]. split.
  - split; try done; cbn.
    + intros k' rb'. rewrite lookup_insert. case_decide; [by intros [= <-]; subst|apply Hrb].
    + rewrite count_insert_new by done. simpl. rewrite Hr. rewrite Hd. lia.
  - split; cbn; [|eauto using cons_le_refl]. intros k' rb' Hk'.
    rewrite lookup_insert_ne by congruence. eauto using rb_le_refl.
Qed.

Lemma dispel_onRequest_inv w cur cmd d :
  inv w cur d → wp (onRequest cmd) (λ _, inv w cur) d.
Proof.
  intros Hi. unfold onRequest. wp_step. wp_step. wp_step. wp_step. wp_step.
  set (e := d_nextEpochNumber d). rewrite (iv_id _ _ _ Hi).
  eapply wp_mono with (Q := λ _ d1, inv w cur d1 ∧ find_rb e id d1 = find_rb e id d).
  { destruct (d_epochs d !! e) as [ep|] eqn:He; wp_step.
    - split; [by apply (inv_core _ _ d)|done].
    - split.
      + apply (inv_put w cur (d <| d_nextEpochNumber := u64 (e + 1) |>)); [by apply (inv_core _ _ d)
          |apply makeEpoch_ok|]. cbn. intros ep' He'. congruence.
      + unfold find_rb. cbn. by rewrite lookup_insert_eq, He. }
  intros _ d1 [Hi1 Hf1]. wp_step.
  eapply wp_mono with (Q := λ _ d2, inv w cur d2).
  { destruct (find_rb e id d) eqn:Hf; [by wp_step|]. wp_step. wp_step. destruct a as [h cmd'].
    unfold upd_epoch. wp_step. by apply new_rb_inv. }
  intros _ d2 Hi2. wp_step. wp_step. destruct a as [h cmd']. wp_step. apply wp_deref. intros rb Hrb.
  wp_step. eapply wp_mono; [by eapply (receive_inv w cur)|]. simpl. intros _ d3 Hrec.
  wp_step. eapply wp_mono; [exact Hrec|]. simpl. intros _ d4 [Hi4 _]. wp_step.
  eapply wp_mono; [apply dispel_broadcast_core|]. simpl. intros _ d5 Hc. wp_step. by apply (inv_core _ _ d4).
Qed.

(** ** Delivery *)
Lemma all_readied_spec l rbm k c :
  all_readied l rbm = Ret true → (k, c) ∈ l → accepted c = true →
  ∃ rb, rbm !! k = Some rb ∧ HasReadied (rbs rb) = true.
Proof.
  induction l as [|[k' c'] l IH]; simpl; [by intros _ ?%not_elem_of_nil|].
  intros Hr [[= <- <-]|Hin]%elem_of_cons Ha.
  - rewrite Ha in Hr. destruct (rbm !! k); [|done]. destruct (HasReadied _) eqn:?; [eauto|done].
  - apply IH; [|done..]. destruct (accepted c'); [|done]. destruct (rbm !! k'); [|done].
    by destruct (HasReadied _).
Qed.

(** The broadcasts that a list of consensus instances delivers. *)
Definition chosen_of (l : list (Z * dbft)) : list Z :=
  (filter (λ kc : Z * dbft, accepted kc.2 = true) l).*1.

Lemma elem_of_chosen_of l k : k ∈ chosen_of l ↔ ∃ c, (k, c) ∈ l ∧ accepted c = true.
Proof.
  unfold chosen_of. rewrite list_elem_of_fmap. split.
  - intros ([k' c] & -> & [Ha Hin]%list_elem_of_filter). eauto.
  - intros (c & Hin & Ha). exists (k, c). by rewrite list_elem_of_filter.
Qed.

Lemma chosen_of_snoc l k c :
  chosen_of (l ++ [(k, c)]) = chosen_of l ++ (if accepted c then [k] else []).
Proof.
  unfold chosen_of. rewrite filter_app, fmap_app. f_equal. rewrite filter_cons, filter_nil. simpl.
  destruct (accepted c); by case_decide.
Qed.

Lemma inv_watch w w' cur d : w' ⊆ w → inv w cur d → inv w' cur d.
Proof. intros Hw []. split; eauto. Qed.

Lemma dispel_deliver_inv w cur k c d :
  inv w cur d → (accepted c = true → k ∈ w) → k ∉ cur →
  wp (deliver (d_nextDeliverEpoch d) k c)
    (λ _, inv w (cur ++ (if accepted c then [k] else []))) d.
Proof.
  intros Hi Hw Hk. unfold deliver. wp_step. wp_step. set (e := d_nextDeliverEpoch d).
  destruct (accepted c) eqn:Ha.
  - wp_step. apply wp_deref. intros rb Hrb. destruct (rbs_Command (rbs rb)) as [cmd|] eqn:Hcmd; [|done].
    wp_step. unfold enqueueForExecution. wp_step.
    assert (inv w (cur ++ [k]) (d <| d_toDeliver ::= λ l, l ++ [exec_pkt cmd] |>)) as Hi1.
    { destruct Hi as [? ? ? ? Hep Hwa (pkss & pkts & Hd & Hh & Hn & [Hnd Hf])]. split; try done.
      exists pkss, (pkts ++ [exec_pkt cmd]). cbn. split_and!; try done.
      - by rewrite !app_assoc, Hh.
      - split; [apply NoDup_app; split_and!; [done| |apply NoDup_singleton]; set_solver|].
        apply Forall2_app; [done|]. apply Forall2_cons. split; [|done].
        destruct (Hwa k (Hw eq_refl)) as (ep & rb0 & c0 & He & Hrb0 & Hc0 & Hr & Ha0 & _).
        assert (rb0 = rb) as ->.
        { apply find_rb_Some in Hrb as (ep' & He' & Hk'). unfold e in He'. by simplify_eq. }
        exists ep, rb, c0. split_and!; try done. intros Hne.
        destruct (ro_hashed _ _ _ (eo_rb _ _ (Hep _ _ He) _ _ Hrb0) Hne) as (cm & h & Hh1 & Hh2 & Hs).
        { unfold HasReadied, RBState_Readied in Hr. apply bool_decide_eq_true in Hr. lia. }
        exists cm, h. split_and!; try done. by apply Hs. }
    eapply wp_mono.
    { apply (upd_rb_inv _ _ _ _ _ _ Hi1). intros rb0 Hrb0.
      pose proof (inv_find_rb _ _ _ _ _ _ Hi1 Hrb0) as []. split_and!; [|done|done].
      split; try done; cbn. intros Hne Hs.
      destruct (ro_hashed0 Hne Hs) as (cm & h & Hh1 & Hh2 & _). by exists cm, h. }
    by simpl; intros _ d' [Hi' _].
  - rewrite app_nil_r. destruct (find_rb e k d) as [rb|] eqn:Hrb; [|by wp_step].
    wp_step; [|done].
    match goal with Hx : _ && _ = true |- _ => apply andb_true_iff in Hx as [Hx _] end.
    match goal with Hx : bool_decide _ = true |- _ => apply bool_decide_eq_true in Hx; rewrite (iv_id _ _ _ Hi) in Hx; subst k end.
    destruct (rbs_Command (rbs rb)) as [cmd|]; [|done].
    wp_step. eapply wp_mono.
    { apply (upd_rb_inv _ _ _ _ _ _ Hi). intros rb0 Hrb0.
      pose proof (inv_find_rb _ _ _ _ _ _ Hi Hrb0) as []. by split_and!. }
    simpl. intros _ d1 [Hi1 _]. wp_step. eapply wp_mono; [by apply dispel_onRequest_inv|].
    simpl. intros cmd' d2 Hi2. eapply wp_mono.
    { apply (upd_rb_inv _ _ _ _ _ _ Hi2). intros rb0 Hrb0.
      pose proof (inv_find_rb _ _ _ _ _ _ Hi2 Hrb0) as []. by split_and!. }
    by simpl; intros _ d3 [Hi3 _].
Qed.

(** *** Frames *)
Lemma upd_epoch_keeps e g d : keeps d_nextDeliverEpoch (upd_epoch e g) d.
Proof. done. Qed.
Lemma dispel_broadcast_keeps m b d : keeps d_nextDeliverEpoch (broadcast m b) d.
Proof. unfold broadcast. keeps_steps. Qed.
Lemma deref_keeps {A} (find : Dispel → option A) d : keeps d_nextDeliverEpoch (deref find) d.
Proof. unfold deref. keeps_steps. Qed.
Hint Resolve upd_epoch_keeps dispel_broadcast_keeps (@deref_keeps) : go_keeps.

Lemma dispel_onRequest_keeps cmd d : keeps d_nextDeliverEpoch (onRequest cmd) d.
Proof. unfold onRequest, set_status, log_pCert, get_rb, upd_rb. keeps_steps. Qed.
Hint Resolve dispel_onRequest_keeps : go_keeps.
Lemma deliver_keeps e k c d : keeps d_nextDeliverEpoch (deliver e k c) d.
Proof. unfold deliver, get_rb, upd_rb, enqueueForExecution. keeps_steps. Qed.

Lemma dispel_exec_body_inv d : inv [] [] d → wp exec_body (λ _, inv [] []) d.
Proof.
  intros Hi. unfold exec_body. wp_step. wp_step. set (e := d_nextDeliverEpoch d).
  destruct (d_epochs d !! e) as [ep|] eqn:He; [|by wp_step].
  wp_step; [by wp_step|]. wp_step. wp_step. wp_step; [by wp_step|]. wp_step.
  match goal with Hx : negb _ = false |- _ => apply negb_false_iff in Hx; subst end.
  set (l := range (ep_cons ep)).
  assert (∀ k c, (k, c) ∈ l ↔ ep_cons ep !! k = Some c) as Hl.
  { intros k c. unfold l. by rewrite range_perm, elem_of_map_to_list. }
  assert (NoDup l.*1) as Hnd.
  { unfold l. rewrite range_perm. apply NoDup_fst_map_to_list. }
  assert (inv (chosen_of l) [] d) as Hi0.
  { destruct Hi. split; try done. intros k (c & Hin & Ha)%elem_of_chosen_of.
    destruct (all_readied_spec l (ep_rbs ep) k c) as (rb & Hrb & Hr); [done..|].
    exists ep, rb, c. split_and!; try done. by apply Hl. }
  eapply wp_mono.
  { apply (wp_for_each_done (λ done d', inv (chosen_of l) (chosen_of done) d' ∧ d_nextDeliverEpoch d' = e)).
    - intros done [k c] rest d' Hsplit [Hi' He']. apply wp_and; simpl.
      + rewrite chosen_of_snoc, <-He'. apply dispel_deliver_inv; [done| |].
        * intros Ha. apply elem_of_chosen_of. exists c. split; [|done]. rewrite Hsplit. set_solver.
        * intros (c' & Hin & _)%elem_of_chosen_of. rewrite Hsplit, fmap_app in Hnd.
          apply NoDup_app in Hnd as (_ & Hnd & _). apply (Hnd k); [|set_solver].
          apply list_elem_of_fmap. by exists (k, c').
      + eapply wp_mono; [apply deliver_keeps|]. simpl. congruence.
    - done. }
  simpl. intros _ d' [Hi' He']. wp_step. wp_step. wp_step.
  destruct Hi' as [? ? ? ? Hep _ (pkss & pkts & [_ Hd] & Hh & Hn & Hcur)]. split; try done; cbn.
  - by intros k ?%not_elem_of_nil.
  - exists (pkss ++ [pkts]), []. split_and!.
    + split; [done|]. intros i pk. rewrite lookup_app_Some. intros [Hpk|[Hlen Hpk]]; [by apply Hd|].
      apply list_lookup_singleton_Some in Hpk as [Hpk <-]. exists (chosen_of l).
      replace i with (length pkss) by lia. by rewrite <-Hn.
    + by rewrite Hh, concat_app, app_nil_r; simpl; rewrite !app_nil_r.
    + rewrite Hn, length_app. simpl. unfold u64. rewrite Zplus_mod_idemp_l. f_equal. lia.
    + by split; [constructor|].
Qed.

Lemma dispel_exec_inv d : inv [] [] d → wp exec (λ _, inv [] []) d.
Proof.
  intros Hi. unfold exec. wp_step. wp_step. apply (wp_loop (inv [] [])); [|done].
  intros s Hs. eapply wp_mono; [by apply dispel_exec_body_inv|]. by intros [].
Qed.

(** ** Consensus *)
Lemma find_round_Some e k r d rnd :
  find_round e k r d = Some rnd → ∃ c, find_cons e k d = Some c ∧ rs c !! r = Some rnd.
Proof. unfold find_round. by intros (c & ? & ?)%bind_Some; eauto. Qed.

(** An update of an instance that leaves its rounds and its decision alone. *)
Lemma upd_cons_flag_inv w cur e k g d :
  inv w cur d →
  (∀ c, rs (g c) = rs c ∧ decided (g c) = decided c ∧ decidedValue (g c) = decidedValue c ∧
    decidedRound (g c) = decidedRound c) →
  wp (upd_cons e k g) (λ _, inv w cur) d.
Proof.
  intros Hi Hg. eapply wp_mono; [apply (upd_cons_inv w cur); [done|]|by intros _ d' [? _]].
  intros c Hc. destruct (Hg c) as (E1 & E2 & E3 & E4), (inv_find_cons _ _ _ _ _ _ Hi Hc) as [Hb Hd].
  split_and!; [|by unfold cons_le; rewrite E2, E3|done]. split; rewrite ?E1, ?E2, ?E3, ?E4; done.
Qed.

(** The decision of an instance, with its count. *)
Lemma decide_inv w cur e k r v c rnd d :
  inv w cur d → find_cons e k d = Some c → decided c = false → rs c !! r = Some rnd →
  (v = r `mod` 2)%Z → decision v rnd →
  wp (upd_cons e k (λ c, c <| decided := true |> <| decidedValue := v |> <| decidedRound := r |>);;
      upd_epoch e (λ ep, ep <| consDoneCount ::= Z.add 1 |>)) (λ _, inv w cur) d.
Proof.
  intros Hi Hc Hnd Hr Hv Hdec. unfold upd_cons, upd_epoch. wp_step. wp_step. wp_step.
  set (g2 := λ ep, ep <| consDoneCount ::= Z.add 1 |>).
  set (g1 := λ ep, ep <| ep_cons ::= alter (λ c, c <| decided := true |>
    <| decidedValue := v |> <| decidedRound := r |>) k |>).
  apply (inv_core _ _ (d <| d_epochs ::= alter (g2 ∘ g1) e |>)).
  { unfold core. cbn. by rewrite alter_alter_eq. }
  apply alter_epoch_inv; [done|]. intros ep He.
  apply find_cons_Some in Hc as (ep' & He' & Hk). rewrite He in He'. injection He' as <-.
  destruct (iv_epochs _ _ _ Hi _ _ He) as [Hrb Hco Hn Hcd].
  unfold compose, g1, g2. split.
  - split; cbn; [done| |done|].
    + intros k' c'. rewrite (alter_Some _ _ _ _ Hk), lookup_insert. case_decide; [|apply Hco].
      intros [= <-]. split; cbn; [apply (co_binValues _ (Hco _ _ Hk))|eauto].
    + rewrite (alter_Some _ _ _ _ Hk).
      pose proof (count_insert decided (ep_cons ep) k
        (c <| decided := true |> <| decidedValue := v |> <| decidedRound := r |>)) as Hcnt.
      rewrite Hk in Hcnt. cbn in Hcnt. rewrite Hnd in Hcnt. cbn. lia.
  - eapply (epoch_le_cons _ _ ep c); [done|]. unfold cons_le. by rewrite Hnd.
Qed.

Lemma onAfterSendReceiveAux_inv bp e k r d :
  (∀ r est d, inv [] [] d → wp (bp r est) (λ _, inv [] []) d) →
  inv [] [] d → wp (onAfterSendReceiveAux_ bp e k r) (λ _, inv [] []) d.
Proof.
  intros Hbp Hi. unfold onAfterSendReceiveAux_, get_round, get_cons. wp_step. wp_step. wp_step.
  apply wp_deref. intros rnd Hrnd. apply find_round_Some in Hrnd as (c & Hc & Hr).
  wp_step; [by wp_step|]. wp_step; [by wp_step|]. wp_step; [by wp_step|].
  repeat match goal with
  | Hx : negb _ = false |- _ => apply negb_false_iff in Hx
  | Hx : bool_decide _ = true |- _ => apply bool_decide_eq_true in Hx
  | Hx : bool_decide _ = false |- _ => apply bool_decide_eq_false in Hx
  end.
  rewrite (iv_f _ _ _ Hi) in *. rename H5 into Haux, H6 into Hlen, H7 into Hsub.
  wp_step. apply wp_deref. intros c' Hc'. simplify_eq. wp_step.
  eapply wp_mono with (Q := λ _, inv [] []).
  { destruct (single (⋃ auxEstimates rnd)) as [v|] eqn:Hs.
    - apply single_spec in Hs. wp_step. eapply wp_mono.
      { apply (upd_round_inv [] []); [done|]. intros rnd' Hrnd' Hb.
        apply find_round_Some in Hrnd' as (c1 & Hc1 & Hr1). simplify_eq. split.
        - intros x Hx. apply Hb. cbn in Hx. set_solver.
        - split; cbn; [set_solver|done]. }
      simpl. intros _ d1 [Hi1 Hc1]. rewrite Hc in Hc1. simpl in Hc1.
      wp_step; [|done].
      match goal with Hx : _ && _ = true |- _ => apply andb_true_iff in Hx as [Hx1%bool_decide_eq_true Hx2%negb_true_iff] end.
      eapply (decide_inv _ _ _ _ _ _ _ _ _ Hi1 Hc1); [done|cbn; by rewrite (alter_Some _ _ _ _ Hr), lookup_insert_eq|done|].
      split; cbn; [set_solver|]. exists (auxEstimates rnd). split_and!; [done|lia|done].
    - eapply wp_mono; [apply (upd_round_inv [] []); [done|]|by intros _ d1 [? _]].
      intros rnd' _ Hb. by split. }
  intros _ d1 Hi1. wp_step. apply wp_deref. intros c1 Hc1. wp_step. apply wp_deref. intros rnd1 Hrnd1.
  wp_step; [|wp_step].
  - wp_step. eapply wp_mono; [by apply dispel_exec_inv|]. simpl. intros _ d2 Hi2.
    wp_step; [by apply Hbp|by apply upd_cons_flag_inv].
  - by apply upd_cons_flag_inv.
  - by apply Hbp.
Qed.

Lemma broadcastAux_inv bp e k r s d :
  (∀ r est d, inv [] [] d → wp (bp r est) (λ _, inv [] []) d) →
  inv [] [] d → wp (broadcastAux_ bp e k r s) (λ _, inv [] []) d.
Proof.
  intros Hbp Hi. unfold broadcastAux_, get_round. wp_step. apply wp_deref. intros rnd _.
  wp_step; [by wp_step|]. wp_step. eapply wp_mono.
  { apply (upd_round_inv [] []); [done|]. intros rnd' _ Hb. by split. }
  simpl. intros _ d1 [Hi1 _]. wp_step. eapply wp_mono; [apply dispel_broadcast_core|].
  simpl. intros _ d2 Hc. apply onAfterSendReceiveAux_inv; [done|]. by eapply inv_core.
Qed.

Lemma make_round_inv w cur e k r d :
  inv w cur d → wp (upd_cons e k (λ c, c <| rs ::= <[r := makeRound]> |>)) (λ _ d', inv w cur d') d ∨
    ∃ c, find_cons e k d = Some c ∧ is_Some (rs c !! r).
Proof.
  intros Hi. destruct (find_cons e k d) as [c|] eqn:Hc.
  - destruct (rs c !! r) as [rnd|] eqn:Hr; [right; eauto|]. left.
    eapply wp_mono; [apply (upd_cons_inv w cur); [done|]|by intros _ d' [? _]].
    intros c' Hc'. simplify_eq. split; [|done]. apply put_round_ok.
    + by eapply inv_find_cons.
    + by intros v ?%elem_of_empty.
    + intros rnd Hr'. congruence.
  - left. eapply wp_mono; [apply (upd_cons_inv w cur); [done|]|by intros _ d' [? _]].
    intros c' Hc'. congruence.
Qed.

Lemma binaryPropose_rec_inv fuel e k r est d :
  inv [] [] d → wp (binaryPropose_rec fuel e k r est) (λ _, inv [] []) d.
Proof.
  revert r est d. induction fuel as [|fuel IH]; intros r est d Hi; [done|].
  cbn [binaryPropose_rec]. unfold get_cons, get_round. wp_step. apply wp_deref. intros c Hc.
  wp_step; [by wp_step|]. wp_step. eapply wp_mono with (Q := λ _, inv [] []).
  { destruct (rs c !! r) eqn:Hr; [by wp_step|].
    destruct (make_round_inv [] [] e k r d Hi) as [?|(c' & Hc' & [? Hr'])]; [done|]. by simplify_eq. }
  intros _ d1 Hi1. wp_step.
  - wp_step. eapply wp_mono.
    { apply (upd_round_inv [] []); [done|]. intros rnd' _ Hb. split; [|split; cbn; [set_solver|done]].
      intros v. cbn. intros [->%elem_of_singleton|Hv]%elem_of_union; [by left|by apply Hb]. }
    simpl. intros _ d2 [Hi2 _]. wp_step. apply wp_deref. intros rnd _.
    apply broadcastAux_inv; [|done]. intros; by apply IH.
  - wp_step. eapply wp_mono.
    { apply (upd_round_inv [] []); [done|]. intros rnd' _ Hb. by split. }
    simpl. intros _ d2 [Hi2 _]. wp_step. apply wp_deref. intros rnd _. wp_step; [|done]. wp_step.
    eapply wp_mono.
    { apply (upd_round_inv [] []); [done|]. intros rnd' _ Hb. split; [|done].
      intros v Hv. cbn in *. rewrite lookup_insert. destruct (Hb v Hv) as [?|Hn]; [by left|right].
      destruct (decide (est = v)) as [<-|]; simpl; [lia|done]. }
    simpl. intros _ d3 [Hi3 _]. eapply wp_mono; [apply dispel_broadcast_core|].
    simpl. intros _ d4 Hd. by apply (inv_core _ _ d3).
Qed.

Lemma binaryPropose_inv e k r est d : inv [] [] d → wp (binaryPropose e k r est) (λ _, inv [] []) d.
Proof. intros Hi. unfold binaryPropose. wp_step. wp_step. by apply binaryPropose_rec_inv. Qed.
Lemma onAfterSendReceiveAux_top_inv e k r d :
  inv [] [] d → wp (onAfterSendReceiveAux e k r) (λ _, inv [] []) d.
Proof.
  intros Hi. unfold onAfterSendReceiveAux. wp_step. wp_step.
  apply onAfterSendReceiveAux_inv; [|done]. intros. by apply binaryPropose_rec_inv.
Qed.
Lemma broadcastAux_top_inv e k r s d : inv [] [] d → wp (broadcastAux e k r s) (λ _, inv [] []) d.
Proof.
  intros Hi. unfold broadcastAux. wp_step. wp_step.
  apply broadcastAux_inv; [|done]. intros. by apply binaryPropose_rec_inv.
Qed.

Lemma makeCons_ok : cons_ok makeCons.
Proof. by split; cbn. Qed.

(** File a consensus instance, which is new or extends the one there. *)
Lemma put_cons_inv w cur e k c' d :
  inv w cur d → cons_ok c' →
  (∀ c, find_cons e k d = Some c → cons_le c c' ∧ decided c' = decided c) →
  (find_cons e k d = None → decided c' = false) →
  inv w cur (d <| d_epochs ::= alter (λ ep, ep <| ep_cons ::= <[k := c']> |>) e |>).
Proof.
  intros Hi Hok Hle Hnew. apply alter_epoch_inv; [done|]. intros ep He.
  destruct (iv_epochs _ _ _ Hi _ _ He) as [Hrb Hc Hd Hcd].
  unfold find_cons in Hle, Hnew. rewrite He in Hle, Hnew. cbn in Hle, Hnew. split.
  - split; try done; cbn.
    + intros k' c. rewrite lookup_insert. case_decide; [by intros [= <-]|apply Hc].
    + pose proof (count_insert decided (ep_cons ep) k c') as Hcnt. rewrite Hcd. f_equal.
      destruct (ep_cons ep !! k) as [c|] eqn:Hk; simpl in Hcnt.
      * destruct (Hle c eq_refl) as [_ E]. rewrite E in Hcnt. destruct (decided c); lia.
      * rewrite Hnew in Hcnt by done. lia.
  - split; cbn; [eauto using rb_le_refl|]. intros k' c Hk'. rewrite lookup_insert.
    case_decide; [subst|eauto using cons_le_refl]. exists c'. split; [done|]. by apply Hle.
Qed.

Lemma new_cons_inv w cur e k d :
  inv w cur d → find_cons e k d = None →
  inv w cur (d <| d_epochs ::= alter (λ ep, ep <| ep_cons ::= <[k := makeCons]> |>) e |>).
Proof. intros Hi Hn. apply put_cons_inv; try done. intros c. by rewrite Hn. Qed.

Lemma tryStartConsensus_inv e d : inv [] [] d → wp (tryStartConsensus e) (λ _, inv [] []) d.
Proof.
  intros Hi. unfold tryStartConsensus, get_ep. wp_step. wp_step. wp_step. apply wp_deref. intros ep _.
  wp_step; [by wp_step|]. apply wp_for_each; [|done]. intros k d1 _ Hi1. wp_step.
  apply wp_deref. intros ep1 He1. wp_step. eapply wp_mono with (Q := λ _, inv [] []).
  { destruct (ep_cons ep1 !! k) eqn:Hk; [by wp_step|]. unfold upd_epoch. wp_step.
    apply new_cons_inv; [done|]. unfold find_cons. by rewrite He1. }
  intros _ d2 Hi2. destruct (ep_rbs ep1 !! k); [wp_step|]; by apply binaryPropose_inv.
Qed.

Lemma onRBDone_inv e k d : inv [] [] d → wp (onRBDone e k) (λ _, inv [] []) d.
Proof.
  intros Hi. unfold onRBDone, get_ep. wp_step. wp_step. wp_step. apply wp_deref. intros ep _.
  wp_step; [by wp_step|]. destruct (ep_cons ep !! k); [by apply binaryPropose_inv|done].
Qed.

(** *** The handlers of consensus messages *)
Lemma default_cons_ok w cur e k ep d :
  inv w cur d → d_epochs d !! e = Some ep → cons_ok (default makeCons (ep_cons ep !! k)).
Proof.
  intros Hi He. destruct (ep_cons ep !! k) eqn:Hk; simpl; [|apply makeCons_ok].
  by eapply eo_cons, Hk; eapply iv_epochs.
Qed.

Lemma fetch_round_inv m d : inv [] [] d → wp (fetch_round m) (λ _, inv [] []) d.
Proof.
  intros Hi. unfold fetch_round, upd_epoch. wp_step. wp_step.
  destruct (d_epochs d !! cm_EpochNum m) as [ep|] eqn:He; [|done]. wp_step.
  set (c := default makeCons (ep_cons ep !! cm_PeerID m)).
  assert (cons_ok c) as Hc by by eapply default_cons_ok.
  assert (∀ c0, find_cons (cm_EpochNum m) (cm_PeerID m) d = Some c0 → c0 = c) as Hf.
  { unfold find_cons, c. rewrite He. simpl. by intros c0 ->. }
  apply put_cons_inv; [done| | |].
  - apply put_round_ok; [done| |].
    + destruct (rs c !! cm_RoundNum m) as [rnd|] eqn:Hr; simpl; [|by intros v ?%elem_of_empty].
      intros v. by eapply co_binValues.
    + intros rnd Hr. rewrite Hr. done.
  - intros c0 Hc0. by rewrite (Hf c0 Hc0).
  - intros Hn. unfold find_cons in Hn. rewrite He in Hn. simpl in Hn. unfold c. by rewrite Hn.
Qed.

Lemma registerOneTimeTimer_core t d : keeps core (registerOneTimeTimer t) d.
Proof. done. Qed.

Lemma onAfterBinValues_inv e k r d :
  inv [] [] d → wp (onAfterBinValuesNotNullAndCoordTimerExpires e k r) (λ _, inv [] []) d.
Proof.
  intros Hi. unfold onAfterBinValuesNotNullAndCoordTimerExpires, get_round. wp_step.
  apply wp_deref. intros rnd _. by apply broadcastAux_top_inv.
Qed.

Lemma onCoordTimerExpired_inv e k r d :
  inv [] [] d → wp (onCoordTimerExpired e k r) (λ _, inv [] []) d.
Proof.
  intros Hi. unfold onCoordTimerExpired, get_round. wp_step. eapply wp_mono.
  { apply (upd_round_inv [] []); [done|]. intros rnd' _ Hb. by split. }
  simpl. intros _ d1 [Hi1 _]. wp_step. apply wp_deref. intros rnd _.
  wp_step; [by wp_step|by apply onAfterBinValues_inv].
Qed.

Lemma afterBVBroadcast_inv e k r d : inv [] [] d → wp (afterBVBroadcast e k r) (λ _, inv [] []) d.
Proof.
  intros Hi. unfold afterBVBroadcast, get_round, get_cons. wp_step. eapply wp_mono.
  { by apply (upd_cons_flag_inv [] []). }
  simpl. intros _ d1 Hi1. wp_step. apply wp_deref. intros rnd _. wp_step.
  eapply wp_mono with (Q := λ _, inv [] []).
  - wp_step; [|done]. wp_step. eapply wp_mono.
    { apply (upd_round_inv [] []); [done|]. intros rnd' _ Hb. by split. }
    simpl. intros _ d2 [Hi2 _]. wp_step. wp_step. wp_step. wp_step. wp_step.
    eapply wp_mono with (Q := λ _, inv [] []).
    { wp_step; [|done]. destruct (single (binValues rnd)); [|done].
      eapply wp_mono; [apply dispel_broadcast_core|]. simpl. intros _ d3 Hd. by apply (inv_core _ _ d2). }
    intros _ d3 Hi3. wp_step. apply wp_deref. intros c _. wp_step.
    eapply wp_mono; [apply registerOneTimeTimer_core|]. simpl. intros _ d4 Hd.
    unfold onAfterCoordSentAndBinValuesNotNull, get_round. wp_step. apply wp_deref. intros rnd4 _.
    assert (inv [] [] d4) by by apply (inv_core _ _ d3).
    wp_step; [by wp_step|by apply onAfterBinValues_inv].
  - intros _ d2 Hi2. wp_step. apply wp_deref. intros c _. wp_step. apply wp_deref. intros rnd2 _.
    wp_step; [|done]. wp_step. eapply wp_mono.
    { by apply (upd_cons_flag_inv [] []). }
    simpl. intros _ d3 Hi3. by apply binaryPropose_inv.
Qed.

Lemma onBVBroadcast_inv m from d : inv [] [] d → wp (onBVBroadcast m from) (λ _, inv [] []) d.
Proof.
  intros Hi. unfold onBVBroadcast, get_round. wp_step. wp_step. wp_step.
  eapply wp_mono; [by apply fetch_round_inv|]. simpl. intros _ d1 Hi1. wp_step. eapply wp_mono.
  { apply (upd_round_inv [] []); [done|]. intros rnd' _ Hb. split; [|done].
    intros v Hv. cbn in *. rewrite lookup_insert. destruct (Hb v Hv) as [?|Hn]; [by left|right].
    destruct (decide (cm_Estimate m = v)) as [<-|]; simpl; [lia|done]. }
  simpl. intros _ d2 [Hi2 Hc2]. wp_step. apply wp_deref. intros rnd Hrnd. wp_step.
  apply (wp_mono _ (λ _ d3, inv [] [] d3 ∧ ∀ rnd3,
    find_round (cm_EpochNum m) (cm_PeerID m) (cm_RoundNum m) d3 = Some rnd3 →
    bvbEstimates rnd3 = bvbEstimates rnd)).
  { wp_step; [|split; [done|congruence]]. wp_step. eapply wp_mono.
    { apply (upd_round_inv [] []); [done|]. intros rnd' _ Hb. by split. }
    simpl. intros _ d3 [Hi3 Hc3]. eapply wp_mono; [apply dispel_broadcast_core|]. simpl.
    intros _ d4 Hd. split; [by apply (inv_core _ _ d3)|].
    intros rnd4 (c4 & Hc4 & Hr4)%find_round_Some. rewrite (find_cons_core _ _ _ _ Hd), Hc3 in Hc4.
    apply find_round_Some in Hrnd as (c & Hc & Hr). rewrite Hc in Hc4. injection Hc4 as <-.
    cbn in Hr4. rewrite (alter_Some _ _ _ _ Hr), lookup_insert_eq in Hr4. by injection Hr4 as <-. }
  intros _ d3 [Hi3 Hr3]. wp_step; [|done]. wp_step. eapply wp_mono.
  { apply (upd_round_inv [] []); [done|]. intros rnd' Hrnd' Hb. split; [|split; cbn; [set_solver|done]].
    intros v. cbn. intros [->%elem_of_singleton|Hv]%elem_of_union; [right|by apply Hb].
    rewrite (Hr3 _ Hrnd').
    match goal with Hx : bool_decide (_ = 2 * _ + 1)%Z = true |- _ => apply bool_decide_eq_true in Hx; rewrite Hx end.
    rewrite (iv_f _ _ _ Hi). lia. }
  simpl. intros _ d4 [Hi4 _]. by apply afterBVBroadcast_inv.
Qed.

Lemma onCoordValue_inv m from d : inv [] [] d → wp (onCoordValue m from) (λ _, inv [] []) d.
Proof.
  intros Hi. unfold onCoordValue. wp_step. eapply wp_mono; [by apply fetch_round_inv|].
  simpl. intros _ d1 Hi1. eapply wp_mono.
  { apply (upd_round_inv [] []); [done|]. intros rnd' _ Hb. by split. }
  by simpl; intros _ d2 [? _].
Qed.

Lemma onAuxMessage_inv m from d : inv [] [] d → wp (onAuxMessage m from) (λ _, inv [] []) d.
Proof.
  intros Hi. unfold onAuxMessage. wp_step. eapply wp_mono; [by apply fetch_round_inv|].
  simpl. intros _ d1 Hi1. wp_step. eapply wp_mono.
  { apply (upd_round_inv [] []); [done|]. intros rnd' _ Hb. split; [done|].
    split; cbn; [done|]. by apply prefix_app_r. }
  simpl. intros _ d2 [Hi2 _]. by apply onAfterSendReceiveAux_top_inv.
Qed.

(** ** Reliable broadcast *)

(** File a broadcast that is new or extends the one there. *)
Lemma put_rb_ok e k rb' ep :
  epoch_ok e ep → rb_ok e k rb' →
  match ep_rbs ep !! k with
  | None => HasReadied (rbs rb') = false
  | Some rb => rb_le k rb rb' ∧ HasReadied (rbs rb') = HasReadied (rbs rb)
  end →
  epoch_ok e (ep <| ep_rbs ::= <[k := rb']> |>) ∧ epoch_le ep (ep <| ep_rbs ::= <[k := rb']> |>).
Proof.
  intros [Hr Hc Hn Hd] Hok Hle. split.
  - split; try done; cbn.
    + intros k' rb. rewrite lookup_insert. case_decide; [by intros [= <-]; subst|apply Hr].
    + pose proof (count_insert (λ rb, HasReadied (rbs rb)) (ep_rbs ep) k rb') as Hcnt.
      destruct (ep_rbs ep !! k) as [rb|]; simpl in Hcnt.
      * destruct Hle as [_ E]. rewrite E in Hcnt. rewrite Hn. destruct (HasReadied (rbs rb)); lia.
      * rewrite Hle in Hcnt. lia.
  - split; cbn; [|eauto using cons_le_refl]. intros k' rb Hk'. rewrite lookup_insert.
    case_decide; [subst|eauto using rb_le_refl]. rewrite Hk' in Hle. exists rb'. split; [done|apply Hle].
Qed.

(** What the checks change of a broadcast. *)
Record rb_checked (m : RBMessage) rb rb' : Prop := {
  rc_same : rbs_PeerID (rbs rb') = rbs_PeerID (rbs rb) ∧
    rbs_Status (rbs rb') = rbs_Status (rbs rb) ∧ pCert rb' = pCert rb ∧ cCert rb' = cCert rb ∧
    reproposed rb' = reproposed rb;
  rc_hash : rbs_CommandHash (rbs rb') = rbs_CommandHash (rbs rb) ∨ rbs_CommandHash (rbs rb) = None;
  rc_match : m_CommandHash m ≈ rbs_CommandHash (rbs rb');
}.

Lemma hashed_Some rb : hashed rb → is_Some (rbs_CommandHash (rbs rb)).
Proof.
  intros (cmd & h & Hh & Heq & _). destruct (rbs_CommandHash (rbs rb)); [by eexists|].
  apply Command_Hash_nonempty in Hh. by unfold slice_eqv in Heq; simpl in Heq; subst.
Qed.

Lemma rb_checked_ok e k m rb rb' :
  rb_ok e k rb → rb_checked m rb rb' →
  (k ≠ id → (1 ≤ rbs_Status (rbs rb))%Z → hashed rb → hashed rb') →
  rb_ok e k rb' ∧ rb_le k rb rb' ∧ HasReadied (rbs rb') = HasReadied (rbs rb).
Proof.
  intros [Hp Hst Hown Hha Hec Hre] [(E1 & E2 & E3 & E4 & _) Hhash _] Hh.
  assert (k ≠ id → (1 ≤ rbs_Status (rbs rb))%Z → rbs_CommandHash (rbs rb') = rbs_CommandHash (rbs rb)) as Heq.
  { intros Hne Hs. destruct Hhash as [?|Hn]; [done|].
    destruct (hashed_Some rb) as [? Hsome]; [auto|congruence]. }
  assert (∀ q, (1 ≤ rbs_Status (rbs rb))%Z → certificate e k rb q → certificate e k rb' q) as Hcert.
  { intros q Hs (m0 & Hc & He & Hk & Hm). exists m0. split_and!; try done. intros Hne.
    rewrite Heq; auto. }
  split_and!.
  - split; rewrite ?E1, ?E2, ?E3, ?E4; auto; intros Hs; apply Hcert; auto; lia.
  - intros Hr. unfold HasReadied in *. rewrite E2. split; [done|]. intros Hne.
    apply Heq; [done|]. unfold RBState_Readied in Hr. apply bool_decide_eq_true in Hr. lia.
  - unfold HasReadied. by rewrite E2.
Qed.

(** The checks of a message file a broadcast under its peer. *)
Definition files (m : RBMessage) (P : rbroadcast → Prop) (checks : epoch → outcome epoch) : Prop :=
  ∀ ep ep', checks ep = Ret ep' → ∃ rb', ep' = ep <| ep_rbs ::= <[m_PeerID m := rb']> |> ∧ P rb' ∧
    match ep_rbs ep !! m_PeerID m with
    | None => rb' = makeRB m
    | Some rb => rb_checked m rb rb' ∧ (hashed rb → hashed rb')
    end.

Lemma ep_rbs_insert_id k rb ep : ep_rbs ep !! k = Some rb → ep = ep <| ep_rbs ::= <[k := rb]> |>.
Proof. intros Hk. destruct ep. unfold set, set_ep_rbs. cbn in *. by rewrite insert_id. Qed.

Lemma dispel_updateCommandHash_spec m ep ep' :
  updateCommandHash m ep = Ret ep' → ∃ rb', ep' = ep <| ep_rbs ::= <[m_PeerID m := rb']> |> ∧
    m_CommandHash m ≈ rbs_CommandHash (rbs rb') ∧
    match ep_rbs ep !! m_PeerID m with
    | None => rb' = makeRB m
    | Some rb => rb_checked m rb rb' ∧ rbs_Command (rbs rb') = rbs_Command (rbs rb)
    end.
Proof.
  intros Hu. unfold updateCommandHash in Hu.
  destruct (ep_rbs ep !! m_PeerID m) as [rb|] eqn:Hk.
  - destruct (rbs_CommandHash (rbs rb)) as [h|] eqn:Hh.
    + destruct (bytes_Equal _ _) eqn:Hb; [|done]. injection Hu as <-. apply bytes_Equal_spec in Hb.
      exists rb. split_and!; [by apply ep_rbs_insert_id|by rewrite Hh|split; [done|by left|by rewrite Hh]|done].
    + injection Hu as <-. eexists. split_and!; [reflexivity|done|split; [done|by right|done]|done].
  - injection Hu as <-. by exists (makeRB m).
Qed.

Lemma updateCommandHash_files m :
  files m (λ rb, m_CommandHash m ≈ rbs_CommandHash (rbs rb)) (updateCommandHash m).
Proof.
  intros ep ep' Hu. destruct (dispel_updateCommandHash_spec m ep ep' Hu) as (rb' & -> & Hm & Hchk).
  exists rb'. split_and!; [done..|]. destruct (ep_rbs ep !! m_PeerID m) as [rb|]; [|done].
  destruct Hchk as [Hck Hcmd]. split; [done|]. intros Hha. destruct (hashed_Some _ Hha) as [h0 Hh0].
  destruct Hha as (cmd & h & Hh & He & Hs). exists cmd, h. rewrite Hcmd.
  destruct Hck as [_ [->|?] _]; [done|congruence].
Qed.

(** A Send message that carries the hash of its command. *)
Definition sent (m : RBMessage) : Prop :=
  ∃ cmd h, m_Command m = Some cmd ∧ (Command_Hash cmd).1 = Some h ∧ m_CommandHash m = Some h.

Lemma send_checks_files m :
  sent m → files m (λ rb, m_CommandHash m ≈ rbs_CommandHash (rbs rb) ∧ hashed rb)
    (λ ep, ep ← updateCommand m ep; updateCommandHash m ep).
Proof.
  intros (cmd & h & Hc & Hh & Hmh) ep ep' Hu.
  assert (∀ rb', m_CommandHash m ≈ rbs_CommandHash (rbs rb') →
    (∀ cmd', rbs_Command (rbs rb') = Some cmd' → same_request cmd' cmd) → hashed rb') as Hhashed.
  { intros rb' He Hs. exists cmd, h. rewrite Hmh in He. split_and!; [done|by symmetry|done]. }
  destruct (updateCommand m ep) as [ep1| |] eqn:Hu1; try done. simpl in Hu.
  destruct (dispel_updateCommandHash_spec m ep1 ep' Hu) as (rb' & -> & Hm & Hchk). unfold updateCommand in Hu1.
  destruct (ep_rbs ep !! m_PeerID m) as [rb|] eqn:Hk.
  - destruct (rbs_Command (rbs rb)) as [c1|] eqn:Hc1.
    + rewrite Hc in Hu1. destruct (Command_Equal c1 (Some cmd)) as [[]| |] eqn:He; try done.
      injection Hu1 as <-. rewrite Hk in Hchk. destruct Hchk as [Hck Hcmd].
      apply Command_Equal_iff in He as [Hs _].
      assert (hashed rb') by (apply Hhashed; [done|intros cmd'; rewrite Hcmd, Hc1; by intros [= <-]]).
      by exists rb'.
    + injection Hu1 as <-. cbn in Hchk. rewrite lookup_insert_eq in Hchk. destruct Hchk as [Hck Hcmd].
      assert (hashed rb') by (apply Hhashed; [done|intros cmd'; rewrite Hcmd; cbn; rewrite Hc; by intros [= <-]]).
      exists rb'. split_and!; try done.
      * destruct ep. unfold set, set_ep_rbs. cbn. by rewrite insert_insert_eq.
      * destruct Hck as [Hck1 Hck2 Hck3]. split; [exact Hck1|exact Hck2|exact Hck3].
  - injection Hu1 as <-. cbn in Hchk. rewrite lookup_insert_eq in Hchk. destruct Hchk as [Hck Hcmd].
    assert (rb' = makeRB m) as ->.
    { destruct rb' as [[]], Hck as [(?&?&?&?&?) [?|?] _]; cbn in *; subst; [done|congruence]. }
    exists (makeRB m). split_and!; try done.
    + destruct ep. unfold set, set_ep_rbs. cbn. by rewrite insert_insert_eq.
    + apply Hhashed; [done|]. cbn. rewrite Hc. by intros cmd' [= <-].
Qed.

Lemma makeRB_ok m : rb_ok (m_EpochNum m) (m_PeerID m) (makeRB m).
Proof. split; try done; cbn; unfold RBState_None; lia. Qed.

Lemma find_rb_put e k rb ep d :
  find_rb e k (d <| d_epochs ::= <[e := ep <| ep_rbs ::= <[k := rb]> |>]> |>) = Some rb.
Proof. unfold find_rb. cbn. rewrite lookup_insert_eq. cbn. apply lookup_insert_eq. Qed.

Lemma fetch_rb_inv m (P : rbroadcast → Prop) checks d :
  inv [] [] d → files m P checks → P (makeRB m) →
  wp (fetch_rb checks m) (λ _ d', inv [] [] d' ∧
    ∃ rb, find_rb (m_EpochNum m) (m_PeerID m) d' = Some rb ∧ P rb) d.
Proof.
  intros Hi Hf Hnew. unfold fetch_rb. wp_step. wp_step. wp_step.
  set (e := m_EpochNum m). set (k := m_PeerID m).
  apply (wp_mono _ (λ ep' d', d' = d ∧ ∃ ep0 rb', ep' = ep0 <| ep_rbs ::= <[k := rb']> |> ∧ P rb' ∧
    epoch_ok e ep' ∧ ∀ ep, d_epochs d !! e = Some ep → epoch_le ep ep')).
  { destruct (d_epochs d !! e) as [ep|] eqn:He.
    - wp_step. match goal with Hx : checks _ = _ |- _ => destruct (Hf _ _ Hx) as (rb' & -> & HP & Hm) end.
      split; [done|]. exists ep, rb'. pose proof (iv_epochs _ _ _ Hi _ _ He) as Hep.
      destruct (put_rb_ok e k rb' ep Hep) as [Hok Hle].
      + unfold k. destruct (ep_rbs ep !! m_PeerID m) as [rb|] eqn:Hk; [|subst; apply makeRB_ok].
        destruct Hm as [Hck Hha]. by eapply rb_checked_ok; [eapply eo_rb, Hk|done|].
      + unfold k. destruct (ep_rbs ep !! m_PeerID m) as [rb|] eqn:Hk; [|by subst].
        destruct Hm as [Hck Hha]. by eapply rb_checked_ok; [eapply eo_rb, Hk|done|].
      + split_and!; try done. intros ep0 [= <-]. done.
    - wp_step. split; [done|]. exists makeEpoch, (makeRB m). split_and!; try done.
      destruct (put_rb_ok e k (makeRB m) makeEpoch (makeEpoch_ok e)) as [? _]; [apply makeRB_ok|done|done]. }
  intros ep' d' (-> & ep0 & rb' & -> & HP & Hok & Hle). wp_step. wp_step.
  cbn [ep_rbs set set_ep_rbs]. rewrite lookup_insert_eq. wp_step. split; [by apply inv_put|].
  exists rb'. split; [apply find_rb_put|done].
Qed.

(** A message that is for the broadcast [rb] of [k] in epoch [e], under its hash. *)
Definition matches (e k : Z) (m : RBMessage) rb : Prop :=
  m_EpochNum m = e ∧ m_PeerID m = k ∧ (k ≠ id → m_CommandHash m ≈ rbs_CommandHash (rbs rb)).

(** A broadcast gets readied, with its count. *)
Lemma ready_inv e k cm rb d :
  inv [] [] d → find_rb e k d = Some rb → matches e k cm rb →
  Majority f cm (cCert rb) = true → HasEchoed (rbs rb) = true →
  inv [] [] (d <| d_epochs ::= alter (λ ep, ep <| ep_rbs ::= alter (λ rb, rb <| rbs ::=
      set rbs_Status (λ _, RBState_Readied) |>) k |>) e |>
    <| d_epochs ::= alter (λ ep, ep <| rbDoneCount ::= Z.add 1 |>) e |>).
Proof.
  intros Hi Hrb (He & Hk & Hh) Hmaj Hst. set (g2 := λ ep, ep <| rbDoneCount ::= Z.add 1 |>).
  set (g := λ rb, rb <| rbs ::= set rbs_Status (λ _, RBState_Readied) |>).
  set (g1 := λ ep, ep <| ep_rbs ::= alter g k |>).
  apply (inv_core _ _ (d <| d_epochs ::= alter (g2 ∘ g1) e |>)).
  { unfold core. cbn. by rewrite alter_alter_eq. }
  unfold HasEchoed, RBState_Echoed in Hst. apply bool_decide_eq_true in Hst.
  pose proof (inv_find_rb _ _ _ _ _ _ Hi Hrb) as [Hp Hs Hown Hha Hec Hre].
  apply find_rb_Some in Hrb as (ep & Hep & Hkrb).
  assert (rb_ok e k (g rb)) as Hok.
  { split; cbn; unfold RBState_Readied; try done; try lia; intros; try (apply Hha; [done|lia]); auto with lia.
    exists cm. split_and!; auto using Majority_certified. }
  assert (HasReadied (rbs rb) = false) as Hnr.
  { unfold HasReadied, RBState_Readied. apply bool_decide_eq_false. lia. }
  apply alter_epoch_inv; [done|]. intros ep' Hep'. rewrite Hep in Hep'. injection Hep' as <-.
  destruct (iv_epochs _ _ _ Hi _ _ Hep) as [Hr Hc Hn Hd]. unfold compose, g1, g2. split.
  - split; cbn; try done.
    + intros k' rb'. rewrite (alter_Some _ _ _ _ Hkrb), lookup_insert.
      case_decide; [by intros [= <-]; subst|apply Hr].
    + rewrite (alter_Some _ _ _ _ Hkrb).
      pose proof (count_insert (λ rb, HasReadied (rbs rb)) (ep_rbs ep) k (g rb)) as Hcnt.
      assert (one_if (λ rb, HasReadied (rbs rb)) (Some (g rb)) = 1) as E by done.
      rewrite E, Hkrb in Hcnt. simpl in Hcnt. rewrite Hnr in Hcnt. cbn. lia.
  - eapply (epoch_le_rb _ _ ep rb); [done|]. unfold rb_le. by rewrite Hnr.
Qed.

Lemma onAfterReady_inv e k d : inv [] [] d → wp (onAfterReady e k) (λ _, inv [] []) d.
Proof.
  intros Hi. unfold onAfterReady, get_rb. wp_step. wp_step. wp_step. apply wp_deref. intros rb Hrb.
  wp_step; [|done]. destruct (find_cons _ _ d) as [c|]; [|by wp_step]. wp_step; [|done].
  match goal with Hx : bool_decide _ = true |- _ => apply bool_decide_eq_true in Hx end.
  pose proof (ro_peer _ _ _ (inv_find_rb _ _ _ _ _ _ Hi Hrb)) as Hp.
  assert (k = id) as -> by (rewrite <-Hp, <-(iv_id _ _ _ Hi); done).
  wp_step. eapply wp_mono; [by apply dispel_onRequest_inv|]. simpl. intros cmd d1 Hi1. eapply wp_mono.
  { apply (upd_rb_inv [] [] _ _ _ _ Hi1). intros rb0 Hrb0.
    pose proof (inv_find_rb _ _ _ _ _ _ Hi1 Hrb0) as []. by split_and!. }
  by simpl; intros _ d3 [Hi3 _].
Qed.

Lemma maybeReady_inv e k cm rb d :
  inv [] [] d → find_rb e k d = Some rb → matches e k cm rb →
  wp (maybeReady e k cm) (λ _, inv [] []) d.
Proof.
  intros Hi Hrb Hm. unfold maybeReady, get_rb. wp_step. wp_step. wp_step. apply wp_deref. intros rb' Hrb'.
  rewrite Hrb in Hrb'. injection Hrb' as <-. wp_step; [|done].
  match goal with Hx : _ && _ = true |- _ => apply andb_true_iff in Hx as [Hmaj Hst] end.
  rewrite (iv_f _ _ _ Hi) in Hmaj. wp_step. unfold set_status, upd_rb, upd_epoch. wp_step. wp_step. wp_step.
  pose proof (ready_inv e k cm rb d Hi Hrb Hm Hmaj Hst) as Hi1.
  wp_step. eapply wp_mono; [by apply tryStartConsensus_inv|]. simpl. intros _ d2 Hi2.
  wp_step. eapply wp_mono; [by apply onRBDone_inv|]. simpl. intros _ d3 Hi3.
  wp_step. eapply wp_mono; [by apply dispel_exec_inv|]. simpl. intros _ d4 Hi4.
  by apply onAfterReady_inv.
Qed.

Lemma maybeEcho_inv e k pm rb d :
  inv [] [] d → find_rb e k d = Some rb → matches e k pm rb →
  wp (maybeEcho e k pm) (λ _, inv [] []) d.
Proof.
  intros Hi Hrb (He & Hk & Hh). unfold maybeEcho, get_rb. wp_step. wp_step. wp_step. apply wp_deref. intros rb' Hrb'.
  rewrite Hrb in Hrb'. injection Hrb' as <-. wp_step; [|done].
  match goal with Hx : _ && _ = true |- _ => apply andb_true_iff in Hx as [Hmaj Hst] end.
  rewrite (iv_f _ _ _ Hi) in Hmaj. unfold HasReceived, RBState_Received in Hst. apply bool_decide_eq_true in Hst.
  wp_step. eapply wp_mono.
  { apply (upd_rb_inv [] [] _ _ _ _ Hi). intros rb0 Hrb0. rewrite Hrb in Hrb0. injection Hrb0 as <-.
    assert (HasReadied (rbs rb) = false) as Hnr.
    { unfold HasReadied, RBState_Readied. apply bool_decide_eq_false. lia. }
    split_and!; [|by unfold rb_le; rewrite Hnr|by rewrite Hnr].
    pose proof (inv_find_rb _ _ _ _ _ _ Hi Hrb) as [Hp Hs Hown Hha Hec Hre].
    split; cbn; unfold RBState_Echoed; try done; try lia; intros; try (apply Hha; [done|lia]); auto with lia.
    exists pm. split_and!; auto using Majority_certified. }
  simpl. intros _ d1 [Hi1 Hrb1]. rewrite Hrb in Hrb1. wp_step.
  eapply wp_mono; [apply dispel_broadcast_core|]. simpl. intros _ d2 Hc2.
  assert (inv [] [] d2) as Hi2 by by apply (inv_core _ _ d1).
  rewrite <-(find_rb_core _ _ _ _ Hc2) in Hrb1. wp_step.
  eapply wp_mono; [by apply (log_cCert_inv [] [])|]. simpl. intros _ d3 (Hi3 & rb3 & Hrb3 & Hrb4).
  rewrite Hrb1 in Hrb3. injection Hrb3 as <-. eapply maybeReady_inv; [done|done|].
  by split_and!.
Qed.

Lemma onRBEcho_inv m from d : inv [] [] d → wp (onRBEcho m from) (λ _, inv [] []) d.
Proof.
  intros Hi. unfold onRBEcho. wp_step. eapply wp_mono.
  { apply (fetch_rb_inv m); [done|apply updateCommandHash_files|done]. }
  simpl. intros _ d1 (Hi1 & rb & Hrb & Hh). wp_step.
  eapply wp_mono; [by apply (log_pCert_inv [] [])|]. simpl. intros _ d2 (Hi2 & rb2 & Hrb2 & _ & Hrb3).
  rewrite Hrb in Hrb2. injection Hrb2 as <-. by eapply maybeEcho_inv.
Qed.

Lemma onRBReady_inv m from d : inv [] [] d → wp (onRBReady m from) (λ _, inv [] []) d.
Proof.
  intros Hi. unfold onRBReady. wp_step. eapply wp_mono.
  { apply (fetch_rb_inv m); [done|apply updateCommandHash_files|done]. }
  simpl. intros _ d1 (Hi1 & rb & Hrb & Hh). wp_step.
  eapply wp_mono; [by apply (log_cCert_inv [] [])|]. simpl. intros _ d2 (Hi2 & rb2 & Hrb2 & Hrb3).
  rewrite Hrb in Hrb2. injection Hrb2 as <-. by eapply maybeReady_inv.
Qed.

Lemma Command_Hash_ptr_sent o h o' :
  Command_Hash_ptr o = Ret (h, o') →
  ∃ cmd hh, o' = Some cmd ∧ h = Some hh ∧ (Command_Hash cmd).1 = Some hh.
Proof.
  unfold Command_Hash_ptr. destruct o as [cmd|]; [|done].
  destruct (Command_Hash cmd) as [h0 cmd'] eqn:Hc. intros [= <- <-].
  destruct (marshal_ok (cmd <| c_TraceInfo := None |>)) as [b Hb].
  assert (∃ hh, h0 = Some hh) as [hh ->].
  { unfold Command_Hash in Hc. rewrite Hb in Hc. injection Hc as <- _. by eexists. }
  pose proof (Command_Hash_restores _ _ _ Hc) as ->. exists cmd, hh. by rewrite Hc.
Qed.

Lemma onRBSend_inv m from d : inv [] [] d → wp (onRBSend m from) (λ _, inv [] []) d.
Proof.
  intros Hi. unfold onRBSend. wp_step. wp_step. destruct a as [h cmd].
  match goal with Hx : Command_Hash_ptr _ = _ |- _ =>
    destruct (Command_Hash_ptr_sent _ _ _ Hx) as (cm & hh & -> & -> & Hh) end.
  set (m1 := m <| m_Command := Some cm |> <| m_CommandHash := Some hh |>).
  wp_step. eapply wp_mono.
  { apply (fetch_rb_inv m1); [done| |].
    - apply send_checks_files. by exists cm, hh.
    - split; [done|]. exists cm, hh. split_and!; try done. cbn. by intros ? [= <-]. }
  simpl. intros _ d1 (Hi1 & rb & Hrb & Hmh & Hha). wp_step.
  eapply wp_mono; [by apply (log_pCert_inv [] [])|]. simpl. intros _ d2 (Hi2 & rb2 & Hrb2 & _ & Hrb3).
  rewrite Hrb in Hrb2. injection Hrb2 as <-. wp_step.
  set (pm := mkRBM (m_EpochNum m) (m_PeerID m) RBMessage_Echo None (rbs_CommandHash (rbs rb))).
  eapply wp_mono.
  { apply wp_and; [apply (receive_inv [] [] _ _ pm _ _ Hi2 Hrb3); by intros _|].
    apply (wp_modify _ (λ _ d3, d_id d3 = id ∧ ∃ rb3, find_rb (m_EpochNum m) (m_PeerID m) d3 = Some rb3 ∧
      rbs_CommandHash (rbs rb3) = rbs_CommandHash (rbs rb))).
    split; [apply (iv_id _ _ _ Hi2)|]. rewrite find_rb_upd, Hrb3. eexists. by split. }
  simpl. intros _ d3 (Hown & Hid & rb3 & Hrb4 & Hh3). wp_step. wp_step. wp_step. apply wp_deref.
  intros rb3' Hrb5. rewrite Hrb4 in Hrb5. injection Hrb5 as <-. rewrite Hid, Hh3. fold pm. wp_step.
  eapply wp_mono; [exact Hown|]. simpl. intros _ d4 (Hi4 & Hrb6). wp_step.
  eapply wp_mono; [apply dispel_broadcast_core|]. simpl. intros _ d5 Hc5.
  eapply maybeEcho_inv; [by apply (inv_core _ _ d4)|by rewrite (find_rb_core _ _ _ _ Hc5)|].
  by split_and!.
Qed.

(** ** The methods *)
Lemma dispel_Step_inv m d : inv [] [] d → wp (Dispel.Step m) (λ _, inv [] []) d.
Proof.
  intros Hi. unfold Dispel.Step, stepBroadcast, stepConsensus.
  destruct (Unmarshal _) as [[m'|m'|]|]; [| | |done];
    (wp_step; [done|]); [| |done]; repeat case_decide; try done;
    auto using onRBSend_inv, onRBEcho_inv, onRBReady_inv, onBVBroadcast_inv, onCoordValue_inv,
      onAuxMessage_inv.
Qed.

Lemma run_action_inv a act d : inv [] [] d → wp (run_action a act) (λ _, inv [] []) d.
Proof.
  intros Hi. destruct act; simpl; [|by apply onCoordTimerExpired_inv].
  unfold unregisterTimer. wp_step. by apply (inv_core _ _ d).
Qed.

Lemma dispel_Tick_inv d : inv [] [] d → wp Dispel.Tick (λ _, inv [] []) d.
Proof.
  intros Hi. unfold Dispel.Tick. wp_step. wp_step. apply wp_for_each; [|done].
  intros [a t] d1 _ Hi1. unfold tick_one. cbn [fst]. wp_step. wp_step.
  destruct (d_timers d1 !! a) as [t1|]; [|by wp_step].
  destruct (Timer.Tick t1) as [t2 acts]. wp_step. wp_step.
  apply wp_for_each; [|by apply (inv_core _ _ d1)]. intros act d2 _ Hi2. by apply run_action_inv.
Qed.

Lemma dispel_AsyncCallback_core d : keeps core Dispel.AsyncCallback d.
Proof.
  unfold Dispel.AsyncCallback, AsyncCallback_body, send_signed, enqueueForSending.
  apply keeps_bind; [done|]. intros d1 s1 _. apply keeps_loop. intros s. keeps_steps.
Qed.

Lemma dispel_worker_step_core cap e d d' : worker_step cap e d = Some d' → core d' = core d.
Proof. unfold worker_step. by intros ([] & _ & [= <-])%bind_Some. Qed.
End invariant.
