(* ===== verification/DispelEnds.v ===== *)
(** * Termination of Dispel

    The handlers call each other in rounds: a proposal goes on to the next
    round when its own has enough Aux messages, and [exec] goes on to the next
    epoch when its own is complete.  Both stop, as a round sends its Aux
    message once and only epochs in which some instance has decided are
    complete. *)
From S2P Require Import Prelude Command Worker Certifier Peer Dispel DispelSafety.
Import Dispel.

Section ends.
Context `{GoEnv, MapRange, Codec Command, Codec DispelMessage, Certifier}.
Implicit Types (d : Dispel) (ep : epoch) (rb : rbroadcast) (c : dbft) (rnd : dbftRound).

(** Only the epochs of [X] have decisions. *)
Record live (X : gset Z) d : Prop := {
  lv_peers : d_peers d ≠ [];
  lv_f : (0 ≤ d_maxFailures d)%Z;
  lv_next : d_nextDeliverEpoch d = u64 (d_nextDeliverEpoch d);
  lv_fresh e ep : d_epochs d !! e = Some ep → e ∉ X → consDoneCount ep = 0%Z;
}.

(** [live] is kept, and so are the consensus instances. *)
Record frame (X : gset Z) d0 d : Prop := {
  fr_live : live X d;
  fr_cons e k : find_cons e k d = find_cons e k d0;
}.

Lemma frame_refl X d : live X d → frame X d d.
Proof. by split. Qed.
Lemma frame_trans X d0 d1 d2 : frame X d0 d1 → frame X d1 d2 → frame X d0 d2.
Proof. intros [? E] [? E']. split; [done|]. intros e k. by rewrite E', E. Qed.

Lemma live_core X d d' : core d' = core d → live X d → live X d'.
Proof. unfold core. intros [= E1 E2 E3 E4 E5 E6 E7] []. split; rewrite ?E2, ?E3, ?E5, ?E6; done. Qed.
Lemma frame_core X d0 d d' : core d' = core d → frame X d0 d → frame X d0 d'.
Proof.
  intros Hc [? E]. split; [by eapply live_core|]. intros e k. by rewrite (find_cons_core _ _ _ _ Hc).
Qed.

(** Updates of an epoch: in [X], or of something else than the count. *)
Lemma live_alter X e g d :
  live X d → (e ∈ X ∨ ∀ ep, consDoneCount (g ep) = consDoneCount ep) →
  live X (d <| d_epochs ::= alter g e |>).
Proof.
  intros [? ? ? Hl] Hg. split; try done. cbn. intros i ep.
  destruct (decide (e = i)) as [->|]; [rewrite lookup_alter_eq|rewrite lookup_alter_ne by done; apply Hl].
  intros (ep0 & He & ->)%fmap_Some Hi. destruct Hg as [|Hg]; [done|]. rewrite Hg. by eapply Hl.
Qed.

Lemma frame_alter X e g d0 d :
  frame X d0 d →
  (∀ ep, consDoneCount (g ep) = consDoneCount ep ∧ ep_cons (g ep) = ep_cons ep) →
  frame X d0 (d <| d_epochs ::= alter g e |>).
Proof.
  intros [Hl Hc] Hg. split; [apply live_alter; [done|right; apply Hg]|].
  intros i k. rewrite <-Hc. unfold find_cons. cbn. rewrite lookup_alter. case_decide; [|done]. subst.
  destruct (d_epochs d !! i) as [ep|]; simpl; [|done]. by destruct (Hg ep) as [_ ->].
Qed.

Lemma frame_upd_rb X e k g d0 d :
  frame X d0 d → twp (upd_rb e k g) (λ _, frame X d0) d.
Proof. intros Hf. unfold upd_rb, upd_epoch. twp_step. by apply frame_alter. Qed.

(** ** What has no loop *)
Lemma twp_keeps {T} (g : Dispel → T) (m : M Dispel unit) (Q : unit → Dispel → Prop) d :
  ends m d → keeps g m d → (∀ d', g d' = g d → Q tt d') → twp m Q d.
Proof.
  intros He Hk HQ. apply twp_intro; [done|]. eapply wp_mono; [exact Hk|]. intros [] d'. apply HQ.
Qed.

Lemma dispel_broadcast_ends m b d : ends (broadcast m b) d.
Proof. unfold broadcast. ends_steps. Qed.
Lemma broadcast_frame X d0 m b d : frame X d0 d → twp (broadcast m b) (λ _, frame X d0) d.
Proof.
  intros Hf. apply (twp_keeps core); [apply dispel_broadcast_ends|apply dispel_broadcast_core|].
  intros d' Hc. by eapply frame_core.
Qed.

Lemma twp_deref {A} (find : Dispel → option A) Q d :
  (∀ a, find d = Some a → Q a d) → twp (deref find) Q d.
Proof. intros HQ. unfold deref. twp_step. twp_step. destruct (find d) eqn:E; [by apply HQ|done]. Qed.

Lemma quorum_log_ends j m q : quorum_log j m q ≠ Diverge.
Proof. unfold quorum_log. by destruct (q !! j). Qed.

Lemma log_pCert_frame X d0 e k j m d : frame X d0 d → twp (log_pCert e k j m) (λ _, frame X d0) d.
Proof.
  intros Hf. unfold log_pCert, get_rb. twp_step. apply twp_deref. intros rb _. twp_step.
  twp_step; [apply quorum_log_ends|]. by apply frame_upd_rb.
Qed.
Lemma log_cCert_frame X d0 e k j m d : frame X d0 d → twp (log_cCert e k j m) (λ _, frame X d0) d.
Proof.
  intros Hf. unfold log_cCert, get_rb. twp_step. apply twp_deref. intros rb _. twp_step.
  twp_step; [apply quorum_log_ends|]. by apply frame_upd_rb.
Qed.

Lemma new_epoch_frame X d0 e d :
  frame X d0 d → d_epochs d !! e = None → frame X d0 (d <| d_epochs ::= <[e := makeEpoch]> |>).
Proof.
  intros [[? ? ? Hl] Hc] He. split; [split; try done; cbn|].
  - intros i ep. rewrite lookup_insert. case_decide; [by intros [= <-]|apply Hl].
  - intros i k. rewrite <-Hc. unfold find_cons. cbn. rewrite lookup_insert. case_decide; [|done].
    subst. by rewrite He.
Qed.

Lemma onRequest_frame X d0 cmd d : frame X d0 d → twp (onRequest cmd) (λ _, frame X d0) d.
Proof.
  intros Hf. unfold onRequest. twp_step. twp_step. twp_step. twp_step. twp_step.
  set (e := d_nextEpochNumber d).
  eapply twp_mono with (Q := λ _, frame X d0).
  { destruct (d_epochs d !! e) eqn:He; twp_step; [by apply (frame_core _ _ d)|].
    apply (new_epoch_frame X d0 e (d <| d_nextEpochNumber := u64 (e + 1) |>)); [by apply (frame_core _ _ d)|done]. }
  intros _ d1 Hf1. twp_step. eapply twp_mono with (Q := λ _, frame X d0).
  { destruct (find_rb e (d_id d) d); [by twp_step|]. twp_step. twp_step; [apply Command_Hash_ptr_ends|].
    destruct a as [h cmd']. unfold upd_epoch. twp_step. by apply frame_alter. }
  intros _ d2 Hf2. twp_step. twp_step; [apply Command_Hash_ptr_ends|]. destruct a as [h cmd'].
  twp_step. apply twp_deref. intros rb _. twp_step.
  eapply twp_mono; [by apply frame_upd_rb|]. simpl. intros _ d3 Hf3. twp_step.
  eapply twp_mono; [by apply log_pCert_frame|]. simpl. intros _ d4 Hf4. twp_step.
  eapply twp_mono; [by apply broadcast_frame|]. simpl. intros _ d5 Hf5. by twp_step.
Qed.

Lemma deliver_frame X d0 e k c d : frame X d0 d → twp (deliver e k c) (λ _, frame X d0) d.
Proof.
  intros Hf. unfold deliver, get_rb. twp_step. twp_step. twp_step.
  - twp_step. apply twp_deref. intros rb _. destruct (rbs_Command (rbs rb)); [|done].
    twp_step. unfold enqueueForExecution. twp_step. apply frame_upd_rb.
    destruct Hf as [[] ?]. by split.
  - destruct (find_rb e k d) as [rb|]; [|by twp_step]. twp_step; [|done].
    destruct (rbs_Command (rbs rb)); [|done]. twp_step.
    eapply twp_mono; [by apply frame_upd_rb|]. simpl. intros _ d1 Hf1. twp_step.
    eapply twp_mono; [by apply onRequest_frame|]. simpl. intros cmd' d2 Hf2. by apply frame_upd_rb.
Qed.

Lemma all_readied_ends l rbm : all_readied l rbm ≠ Diverge.
Proof.
  induction l as [|[k c] l IH]; simpl; [done|]. destruct (accepted c); [|done].
  destruct (rbm !! k); [|done]. by destruct (HasReadied _).
Qed.

(** ** Delivery *)

(** After [n] rounds of [exec] from [d0]. *)
Record exec_rounds (X : gset Z) d0 (n : nat) d : Prop := {
  er_frame : frame X d0 d;
  er_start : live (dom (d_epochs d0)) d;
  er_next : d_nextDeliverEpoch d = u64 (d_nextDeliverEpoch d0 + Z.of_nat n);
  er_slots s : s ∈ slots (d_nextDeliverEpoch d0) n → s ∈ X ∧ s ∈ dom (d_epochs d0);
}.

Lemma deliver_all_twp X d0 e l d :
  frame X d0 d → live (dom (d_epochs d0)) d →
  twp (for_each l (λ ic : Z * dbft, deliver e ic.1 ic.2))
    (λ _ d', (frame X d0 d' ∧ live (dom (d_epochs d0)) d') ∧ d_nextDeliverEpoch d' = d_nextDeliverEpoch d) d.
Proof.
  intros Hf Hl. apply twp_and.
  - apply (twp_for_each (λ d', frame X d0 d' ∧ live (dom (d_epochs d0)) d')); [|done].
    intros [k c] d1 _ [Hf1 Hl1]. apply twp_and; [by apply deliver_frame|]. apply twp_wp.
    eapply twp_mono; [by apply (deliver_frame (dom (d_epochs d0)) d1 e k c), frame_refl|].
    by intros _ d2 [].
  - apply (wp_for_each (λ d', d_nextDeliverEpoch d' = d_nextDeliverEpoch d)); [|done].
    intros [k c] d1 _ E. eapply wp_mono; [apply deliver_keeps|]. simpl. congruence.
Qed.

Lemma exec_body_rounds X d0 n d :
  exec_rounds X d0 n d →
  twp exec_body (λ b d', if b then exec_rounds X d0 (S n) d' else frame X d0 d') d.
Proof.
  intros [Hf Hl Hn Hs]. unfold exec_body. twp_step. twp_step. set (e := d_nextDeliverEpoch d).
  destruct (d_epochs d !! e) as [ep|] eqn:He; [|by twp_step]. twp_step; [by twp_step|].
  match goal with Hx : _ || _ = false |- _ => apply orb_false_iff in Hx as [_ Hx];
    apply bool_decide_eq_false in Hx; apply dec_stable in Hx; rename Hx into Hcount end.
  assert (consDoneCount ep ≠ 0%Z) as Hne.
  { rewrite Hcount. destruct (d_peers d) eqn:Hp; [by destruct (lv_peers _ _ Hl)|]. simpl. lia. }
  assert (e ∈ X ∧ e ∈ dom (d_epochs d0)) as [HeX Hed].
  { split; apply dec_stable; intros Hn'; apply Hne;
      [apply (lv_fresh _ _ (fr_live _ _ _ Hf) _ _ He Hn')|apply (lv_fresh _ _ Hl _ _ He Hn')]. }
  twp_step. twp_step; [apply all_readied_ends|]. twp_step; [by twp_step|]. twp_step.
  eapply twp_mono; [by apply (deliver_all_twp X d0)|]. simpl. intros _ d1 ((Hf1 & Hl1) & Hn1).
  twp_step. twp_step. twp_step. split.
  - destruct Hf1 as [[? ? Hnx ?] ?]. split; [|done]. split; try done. cbn. by rewrite u64_u64.
  - destruct Hl1 as [? ? Hnx ?]. split; try done. cbn. by rewrite u64_u64.
  - cbn. rewrite Hn1, Hn. unfold u64. rewrite Zplus_mod_idemp_l. f_equal. lia.
  - intros s. rewrite slots_S, elem_of_app, list_elem_of_singleton, <-Hn.
    intros [?| ->]; [by apply Hs|done].
Qed.

Lemma exec_loop_twp X d0 fuel n d :
  (Z.of_nat (size X) + 1 < two64)%Z → n ≤ size X → fuel + n = S (size (d_epochs d0)) →
  exec_rounds X d0 n d → twp (loop fuel exec_body) (λ _, frame X d0) d.
Proof.
  intros HX. revert n d. induction fuel as [|fuel IH]; intros n d Hle Hfu Hr.
  { pose proof (slots_size (d_nextDeliverEpoch d0) n (dom (d_epochs d0)) ltac:(lia)) as Hsz.
    rewrite size_dom in Hsz. assert (n ≤ size (d_epochs d0)); [|lia].
    apply Hsz. intros s. apply (er_slots _ _ _ _ Hr). }
  simpl. twp_step. eapply twp_mono; [by apply exec_body_rounds|]. simpl. intros [] d1 Hd1; [|done].
  apply (IH (S n)); [|lia|done].
  apply (slots_size (d_nextDeliverEpoch d0)); [lia|]. intros s. apply (er_slots _ _ _ _ Hd1).
Qed.

Lemma exec_frame X d0 d :
  (Z.of_nat (size X) + 1 < two64)%Z → frame X d0 d → twp exec (λ _, frame X d0) d.
Proof.
  intros HX Hf. unfold exec. twp_step. twp_step.
  eapply twp_mono; [apply (exec_loop_twp X d _ 0); [done|lia|lia|]|].
  - split.
    + apply frame_refl, (fr_live _ _ _ Hf).
    + destruct Hf as [[Hp Hfa Hnx _] _]. split; [done..|]. intros e ep He []. by apply elem_of_dom_2 in He.
    + rewrite Z.add_0_r. apply (lv_next _ _ (fr_live _ _ _ Hf)).
    + intros s Hin%elem_of_nil. done.
  - simpl. intros _ d1 Hf1. by eapply frame_trans.
Qed.

(** ** Rounds of consensus *)

(** The rounds of an instance that have not sent their Aux message. *)
Definition unsent (o : option dbft) : nat :=
  match o with Some c => count (λ rnd, negb (auxSent rnd)) (rs c) | None => 0 end.

Section rounds.
Context (X : gset Z) (HX : (Z.of_nat (size X) + 1 < two64)%Z) (e k : Z) (HeX : e ∈ X).

Lemma upd_cons_twp g d :
  live X d → twp (upd_cons e k g) (λ _ d', live X d' ∧ find_cons e k d' = g <$> find_cons e k d) d.
Proof.
  intros Hl. unfold upd_cons, upd_epoch. twp_step. split; [apply live_alter; auto|].
  apply find_cons_upd.
Qed.

(** An update that leaves the rounds alone, or their Aux messages. *)
Lemma upd_cons_unsent g d :
  live X d → (∀ c, rs (g c) = rs c) →
  twp (upd_cons e k g) (λ _ d', live X d' ∧ unsent (find_cons e k d') = unsent (find_cons e k d)) d.
Proof.
  intros Hl Hg. eapply twp_mono; [by apply upd_cons_twp|]. simpl. intros _ d' [? ->]. split; [done|].
  destruct (find_cons e k d); simpl; [|done]. by rewrite Hg.
Qed.

Lemma unsent_alter g r c :
  (∀ rnd, auxSent (g rnd) = auxSent rnd) →
  unsent (Some (c <| rs ::= alter g r |>)) = unsent (Some c).
Proof. intros Hg. simpl. apply count_alter. intros rnd _. by rewrite Hg. Qed.

Lemma upd_round_unsent g r d :
  live X d → (∀ rnd, auxSent (g rnd) = auxSent rnd) →
  twp (upd_round e k r g) (λ _ d', (live X d' ∧ unsent (find_cons e k d') = unsent (find_cons e k d)) ∧
    find_cons e k d' = set rs (alter g r) <$> find_cons e k d) d.
Proof.
  intros Hl Hg. eapply twp_mono; [by apply upd_cons_twp|]. simpl. intros _ d' [? E].
  split_and!; [done| |done]. rewrite E. destruct (find_cons e k d); [|done]. by apply unsent_alter.
Qed.

Lemma exec_unsent d :
  live X d → twp exec (λ _ d', live X d' ∧ ∀ k', find_cons e k' d' = find_cons e k' d) d.
Proof.
  intros Hl. eapply twp_mono; [by apply (exec_frame X d), frame_refl|]. by simpl; intros _ d' [].
Qed.

Lemma onAfterSendReceiveAux_twp bp r n d :
  live X d → unsent (find_cons e k d) ≤ n →
  (∀ rnd, find_round e k r d = Some rnd → auxEstimates rnd ≠ [] →
    ∀ r' est d', live X d' → unsent (find_cons e k d') ≤ n → twp (bp r' est) (λ _, live X) d') →
  twp (onAfterSendReceiveAux_ bp e k r) (λ _, live X) d.
Proof.
  intros Hl Hu Hbp. unfold onAfterSendReceiveAux_, get_round, get_cons. twp_step. twp_step. twp_step.
  apply twp_deref. intros rnd Hrnd. twp_step; [by twp_step|]. twp_step; [by twp_step|].
  match goal with Hx : bool_decide (_ ≤ _)%Z = false |- _ => apply bool_decide_eq_false in Hx; rename Hx into Hlen end.
  assert (auxEstimates rnd ≠ []) as Hne.
  { intros E. rewrite E in Hlen. simpl in Hlen. pose proof (lv_f _ _ Hl). lia. }
  specialize (Hbp rnd Hrnd Hne).
  twp_step; [by twp_step|]. twp_step. apply twp_deref. intros c Hc. twp_step.
  eapply twp_mono with (Q := λ _ d', live X d' ∧ unsent (find_cons e k d') ≤ n).
  { destruct (single _) as [v|].
    - twp_step. eapply twp_mono; [by apply upd_round_unsent|]. simpl. intros _ d1 [[Hl1 Hu1] _].
      twp_step; [|split; [done|lia]]. twp_step.
      eapply twp_mono; [by apply upd_cons_unsent|]. simpl. intros _ d2 [Hl2 Hu2].
      unfold upd_epoch. twp_step. split; [apply live_alter; auto|].
      assert (find_cons e k (d2 <| d_epochs ::= alter (λ ep, ep <| consDoneCount ::= Z.add 1 |>) e |>) =
        find_cons e k d2) as ->; [|lia].
      unfold find_cons. cbn. rewrite lookup_alter_eq. by destruct (d_epochs d2 !! e).
    - eapply twp_mono; [by apply upd_round_unsent|]. simpl. intros _ d1 [[Hl1 Hu1] _]. split; [done|lia]. }
  intros _ d1 [Hl1 Hu1]. twp_step. apply twp_deref. intros c1 Hc1. twp_step. apply twp_deref. intros rnd1 _.
  twp_step; [|twp_step].
  - twp_step. eapply twp_mono; [by apply exec_unsent|]. simpl. intros _ d2 [Hl2 Hc2].
    twp_step; [apply Hbp; [done|by rewrite Hc2]|].
    eapply twp_mono; [by apply upd_cons_twp|]. by simpl; intros _ d3 [].
  - eapply twp_mono; [by apply upd_cons_twp|]. by simpl; intros _ d3 [].
  - by apply Hbp.
Qed.

Lemma broadcast_unsent m b d :
  live X d → twp (broadcast m b) (λ _ d', live X d' ∧ find_cons e k d' = find_cons e k d) d.
Proof.
  intros Hl. apply (twp_keeps core); [apply dispel_broadcast_ends|apply dispel_broadcast_core|].
  intros d' Hc. split; [by eapply live_core|by apply find_cons_core].
Qed.

(** When a round sends its Aux message, one round less is unsent. *)
Lemma broadcastAux_twp bp r s n d :
  live X d → unsent (find_cons e k d) ≤ S n →
  (∀ rnd, find_round e k r d = Some rnd → auxEstimates rnd ≠ [] → auxSent rnd = false →
    ∀ r' est d', live X d' → unsent (find_cons e k d') ≤ n → twp (bp r' est) (λ _, live X) d') →
  twp (broadcastAux_ bp e k r s) (λ _, live X) d.
Proof.
  intros Hl Hu Hbp. unfold broadcastAux_, get_round. twp_step. apply twp_deref. intros rnd Hrnd.
  destruct (auxSent rnd) eqn:Haux; [by twp_step|]. twp_step.
  destruct (find_round_Some _ _ _ _ _ Hrnd) as (c & Hc & Hr).
  eapply twp_mono; [by apply (upd_cons_twp (set rs (alter (set auxSent (λ _, true)) r)))|].
  simpl. intros _ d1 [Hl1 Hc1]. rewrite Hc in Hc1. simpl in Hc1. twp_step.
  eapply twp_mono; [by apply broadcast_unsent|]. simpl. intros _ d2 (Hl2 & Hc2).
  apply (onAfterSendReceiveAux_twp _ _ n); [done| |].
  - rewrite Hc2, Hc1. rewrite Hc in Hu. simpl in *. rewrite (alter_Some _ _ _ _ Hr).
    pose proof (count_insert (λ rnd, negb (auxSent rnd)) (rs c) r (rnd <| auxSent := true |>)) as Hcnt.
    rewrite Hr in Hcnt. simpl in Hcnt. rewrite Haux in Hcnt. simpl in Hcnt. unfold set in *. lia.
  - intros rnd2 Hrnd2 Hlen. destruct (find_round_Some _ _ _ _ _ Hrnd2) as (c2 & Hc2' & Hr2).
    rewrite Hc2, Hc1 in Hc2'. injection Hc2' as <-. cbn in Hr2.
    rewrite (alter_Some _ _ _ _ Hr), lookup_insert_eq in Hr2. injection Hr2 as <-.
    by apply (Hbp rnd).
Qed.

Lemma binaryPropose_rec_twp fuel r est d :
  live X d → unsent (find_cons e k d) < fuel →
  twp (binaryPropose_rec fuel e k r est) (λ _, live X) d.
Proof.
  revert r est d. induction fuel as [|fuel IH]; intros r est d Hl Hu; [lia|].
  cbn [binaryPropose_rec]. unfold get_cons, get_round. twp_step. apply twp_deref. intros c Hc.
  twp_step; [by twp_step|]. twp_step.
  (* the round is there, and has Aux messages only if it was there before *)
  eapply twp_mono with (Q := λ _ d1, live X d1 ∧ ∃ c1 rnd1, find_cons e k d1 = Some c1 ∧
    rs c1 !! r = Some rnd1 ∧ (auxEstimates rnd1 ≠ [] → unsent (Some c1) = unsent (Some c)) ∧
    unsent (Some c1) ≤ S (unsent (Some c))).
  { destruct (rs c !! r) as [rnd|] eqn:Hr.
    - twp_step. split; [done|]. exists c, rnd. split_and!; [done..|lia].
    - eapply twp_mono; [by apply upd_cons_twp|]. simpl. intros _ d1 [Hl1 ->]. split; [done|].
      rewrite Hc. eexists _, makeRound. split_and!; [done|apply lookup_insert_eq|done|].
      simpl. rewrite count_insert_new by done. simpl. lia. }
  intros _ d1 (Hl1 & c1 & rnd1 & Hc1 & Hr1 & Haux & Hu1). rewrite Hc in Hu. twp_step.
  - twp_step. eapply twp_mono; [by apply upd_round_unsent|]. simpl. intros _ d2 [[Hl2 Hu2] Hc2].
    twp_step. apply twp_deref. intros rnd2 Hrnd2.
    destruct (find_round_Some _ _ _ _ _ Hrnd2) as (c2 & Hc2' & Hr2). rewrite Hc1 in Hc2, Hu2.
    rewrite Hc2 in Hc2'. injection Hc2' as <-. cbn in Hr2.
    rewrite (alter_Some _ _ _ _ Hr1), lookup_insert_eq in Hr2. injection Hr2 as <-.
    destruct (decide (auxEstimates rnd1 = [])) as [Hnil|Hne].
    + apply (broadcastAux_twp _ _ _ (unsent (Some c))); [done|lia|].
      intros rnd Hrnd []. rewrite Hrnd2 in Hrnd. by injection Hrnd as <-.
    + rewrite Haux in Hu2 by done.
      apply (broadcastAux_twp _ _ _ (pred (unsent (Some c)))); [done|lia|].
      intros rnd Hrnd _ Hns r' est' d' Hl' Hu'. apply IH; [done|].
      assert (1 ≤ unsent (Some c)); [|lia]. rewrite <-Hu2, Hc2.
      rewrite Hrnd2 in Hrnd. injection Hrnd as <-.
      eapply count_pos; [cbn; by rewrite (alter_Some _ _ _ _ Hr1), lookup_insert_eq|by rewrite Hns].
  - twp_step. eapply twp_mono; [by apply upd_round_unsent|]. simpl. intros _ d2 [[Hl2 Hu2] Hc2].
    twp_step. apply twp_deref. intros rnd2 _. twp_step; [|done]. twp_step.
    eapply twp_mono; [by apply upd_round_unsent|]. simpl. intros _ d3 [[Hl3 _] _].
    eapply twp_mono; [by apply broadcast_unsent|]. by simpl; intros _ d4 [].
Qed.

Lemma propose_fuel_enough d : unsent (find_cons e k d) < propose_fuel e k d.
Proof.
  unfold propose_fuel. destruct (find_cons e k d) as [c|]; simpl; [|lia].
  pose proof (count_le (λ rnd, negb (auxSent rnd)) (rs c)). lia.
Qed.

Lemma binaryPropose_twp r est d : live X d → twp (binaryPropose e k r est) (λ _, live X) d.
Proof.
  intros Hl. unfold binaryPropose. twp_step. twp_step.
  apply binaryPropose_rec_twp; [done|apply propose_fuel_enough].
Qed.
Lemma onAfterSendReceiveAux_top_twp r d : live X d → twp (onAfterSendReceiveAux e k r) (λ _, live X) d.
Proof.
  intros Hl. unfold onAfterSendReceiveAux. twp_step. twp_step.
  apply (onAfterSendReceiveAux_twp _ _ (unsent (find_cons e k d))); [done|done|].
  intros rnd _ _ r' est d' Hl' Hu. apply binaryPropose_rec_twp; [done|].
  pose proof (propose_fuel_enough d). lia.
Qed.
Lemma broadcastAux_top_twp r s d : live X d → twp (broadcastAux e k r s) (λ _, live X) d.
Proof.
  intros Hl. unfold broadcastAux. twp_step. twp_step.
  apply (broadcastAux_twp _ _ _ (unsent (find_cons e k d))); [done|lia|].
  intros rnd _ _ _ r' est d' Hl' Hu. apply binaryPropose_rec_twp; [done|].
  pose proof (propose_fuel_enough d). lia.
Qed.

(** ** The handlers *)
Lemma upd_cons_live g d : live X d → twp (upd_cons e k g) (λ _, live X) d.
Proof. intros Hl. eapply twp_mono; [by apply upd_cons_twp|]. by simpl; intros _ d' []. Qed.
Lemma upd_round_live g r d : live X d → twp (upd_round e k r g) (λ _, live X) d.
Proof. apply upd_cons_live. Qed.
Lemma broadcast_live m b d : live X d → twp (broadcast m b) (λ _, live X) d.
Proof. intros Hl. eapply twp_mono; [by apply broadcast_unsent|]. by simpl; intros _ d' []. Qed.

Lemma onAfterBinValues_twp r d :
  live X d → twp (onAfterBinValuesNotNullAndCoordTimerExpires e k r) (λ _, live X) d.
Proof.
  intros Hl. unfold onAfterBinValuesNotNullAndCoordTimerExpires, get_round. twp_step.
  apply twp_deref. intros rnd _. by apply broadcastAux_top_twp.
Qed.

Lemma onCoordTimerExpired_twp r d : live X d → twp (onCoordTimerExpired e k r) (λ _, live X) d.
Proof.
  intros Hl. unfold onCoordTimerExpired, get_round. twp_step.
  eapply twp_mono; [by apply upd_round_live|]. simpl. intros _ d1 Hl1. twp_step. apply twp_deref.
  intros rnd _. twp_step; [by twp_step|by apply onAfterBinValues_twp].
Qed.

Lemma go_rem_ends x y : go_rem x y ≠ Diverge.
Proof. unfold go_rem. by case_decide. Qed.

Lemma afterBVBroadcast_twp r d : live X d → twp (afterBVBroadcast e k r) (λ _, live X) d.
Proof.
  intros Hl. unfold afterBVBroadcast, get_round, get_cons. twp_step.
  eapply twp_mono; [by apply upd_cons_live|]. simpl. intros _ d1 Hl1. twp_step. apply twp_deref.
  intros rnd _. twp_step. eapply twp_mono with (Q := λ _, live X).
  - twp_step; [|done]. twp_step. eapply twp_mono; [by apply upd_round_live|]. simpl. intros _ d2 Hl2.
    twp_step. twp_step. twp_step. twp_step; [apply go_rem_ends|]. twp_step.
    eapply twp_mono with (Q := λ _, live X).
    { twp_step; [|done]. destruct (single _); [|done]. by apply broadcast_live. }
    intros _ d3 Hl3. twp_step. apply twp_deref. intros c _. twp_step.
    unfold registerOneTimeTimer. twp_step. unfold onAfterCoordSentAndBinValuesNotNull, get_round.
    twp_step. apply twp_deref. intros rnd4 _.
    assert (live X (d3 <| d_timers ::= <[d_nextTimer d3 := Timer.Reset (Timer.Instrument [Timer.Act Unregister]
      (Timer.MakeTickingTimer (coordTimeout * timeout c) [Timer.Act (CoordTimerExpired e k r)]))]> |>
      <| d_nextTimer ::= Z.add 1 |>)) as Hl4 by by apply (live_core _ d3).
    twp_step; [by twp_step|by apply onAfterBinValues_twp].
  - intros _ d2 Hl2. twp_step. apply twp_deref. intros c _. twp_step. apply twp_deref. intros rnd2 _.
    twp_step; [|done]. twp_step. eapply twp_mono; [by apply upd_cons_live|]. simpl. intros _ d3 Hl3.
    by apply binaryPropose_twp.
Qed.
End rounds.

Section handlers.
Context (X : gset Z) (HX : (Z.of_nat (size X) + 1 < two64)%Z).

Lemma fetch_round_twp m d :
  live X d → cm_EpochNum m ∈ X → twp (fetch_round m) (λ _, live X) d.
Proof.
  intros Hl He. unfold fetch_round, upd_epoch. twp_step. twp_step.
  destruct (d_epochs d !! cm_EpochNum m); [|done]. twp_step. apply live_alter; auto.
Qed.

Lemma stepConsensus_twp m from d :
  live X d → cm_EpochNum m ∈ X → twp (stepConsensus m from) (λ _, live X) d.
Proof.
  intros Hl He. unfold stepConsensus. repeat case_decide; [| | |done].
  - unfold onBVBroadcast, get_round. twp_step. twp_step. twp_step.
    eapply twp_mono; [by apply fetch_round_twp|]. simpl. intros _ d1 Hl1. twp_step.
    eapply twp_mono; [by apply upd_round_live|]. simpl. intros _ d2 Hl2. twp_step. apply twp_deref.
    intros rnd _. twp_step. eapply twp_mono with (Q := λ _, live X).
    { twp_step; [|done]. twp_step. eapply twp_mono; [by apply upd_round_live|]. simpl. intros _ d3 Hl3.
      by apply (broadcast_live X (cm_EpochNum m) (cm_PeerID m)). }
    intros _ d3 Hl3. twp_step; [|done]. twp_step. eapply twp_mono; [by apply upd_round_live|].
    simpl. intros _ d4 Hl4. by apply afterBVBroadcast_twp.
  - unfold onCoordValue. twp_step. eapply twp_mono; [by apply fetch_round_twp|]. simpl. intros _ d1 Hl1.
    by apply upd_round_live.
  - unfold onAuxMessage. twp_step. eapply twp_mono; [by apply fetch_round_twp|]. simpl. intros _ d1 Hl1.
    twp_step. eapply twp_mono; [by apply upd_round_live|]. simpl. intros _ d2 Hl2.
    by apply onAfterSendReceiveAux_top_twp.
Qed.

Lemma tryStartConsensus_twp e d : e ∈ X → live X d → twp (tryStartConsensus e) (λ _, live X) d.
Proof.
  intros He Hl. unfold tryStartConsensus, get_ep. twp_step. twp_step. twp_step. apply twp_deref. intros ep _.
  twp_step; [by twp_step|]. apply twp_for_each; [|done]. intros k d1 _ Hl1. twp_step.
  apply twp_deref. intros ep1 He1. twp_step. eapply twp_mono with (Q := λ _, live X).
  { destruct (ep_cons ep1 !! k) eqn:Hk; [by twp_step|]. unfold upd_epoch. twp_step. apply live_alter; auto. }
  intros _ d2 Hl2. destruct (ep_rbs ep1 !! k); [twp_step|]; by apply binaryPropose_twp.
Qed.

Lemma onRBDone_twp e k d : e ∈ X → live X d → twp (onRBDone e k) (λ _, live X) d.
Proof.
  intros He Hl. unfold onRBDone, get_ep. twp_step. twp_step. twp_step. apply twp_deref. intros ep _.
  twp_step; [by twp_step|]. destruct (ep_cons ep !! k); [by apply binaryPropose_twp|done].
Qed.

(** The steps of reliable broadcast, up to a predicate that frames keep. *)
Lemma frame_live (m : M Dispel unit) d :
  live X d → (∀ d0, frame X d0 d → twp m (λ _, frame X d0) d) → twp m (λ _, live X) d.
Proof.
  intros Hl Hm. eapply twp_mono; [by apply (Hm d), frame_refl|]. by simpl; intros _ d' [].
Qed.

Lemma onAfterReady_twp e k d : live X d → twp (onAfterReady e k) (λ _, live X) d.
Proof.
  intros Hl. apply frame_live; [done|]. intros d0 Hf. unfold onAfterReady, get_rb.
  twp_step. twp_step. twp_step. apply twp_deref. intros rb _. twp_step; [|by destruct Hf].
  destruct (find_cons _ _ d) as [c|]; [|by twp_step]. twp_step; [|by destruct Hf]. twp_step.
  eapply twp_mono; [by apply onRequest_frame|]. simpl. intros cmd d1 Hf1. by apply frame_upd_rb.
Qed.

Lemma maybeReady_twp e k cm d : e ∈ X → live X d → twp (maybeReady e k cm) (λ _, live X) d.
Proof.
  intros He Hl. unfold maybeReady, get_rb. twp_step. twp_step. twp_step. apply twp_deref. intros rb _.
  twp_step; [|done]. twp_step. eapply twp_mono.
  { apply frame_live; [done|]. intros. by apply frame_upd_rb. }
  simpl. intros _ d1 Hl1. twp_step. unfold upd_epoch. twp_step. twp_step.
  eapply twp_mono; [apply tryStartConsensus_twp; [done|apply live_alter; auto]|]. simpl. intros _ d2 Hl2.
  twp_step. eapply twp_mono; [by apply onRBDone_twp|]. simpl. intros _ d3 Hl3. twp_step.
  eapply twp_mono; [by apply frame_live; [|intros; by apply exec_frame]|]. simpl. intros _ d4 Hl4.
  by apply onAfterReady_twp.
Qed.

Lemma maybeEcho_twp e k pm d : e ∈ X → live X d → twp (maybeEcho e k pm) (λ _, live X) d.
Proof.
  intros He Hl. unfold maybeEcho, get_rb. twp_step. twp_step. twp_step. apply twp_deref. intros rb _.
  twp_step; [|done]. twp_step. eapply twp_mono.
  { apply frame_live; [done|]. intros. by apply frame_upd_rb. }
  simpl. intros _ d1 Hl1. twp_step. eapply twp_mono.
  { apply frame_live; [done|]. intros. by apply broadcast_frame. }
  simpl. intros _ d2 Hl2. twp_step. eapply twp_mono.
  { apply frame_live; [done|]. intros. by apply log_cCert_frame. }
  simpl. intros _ d3 Hl3. by apply maybeReady_twp.
Qed.

Lemma fetch_rb_twp checks m d :
  (∀ ep, checks ep ≠ Diverge) → live X d → m_EpochNum m ∈ X → twp (fetch_rb checks m) (λ _, live X) d.
Proof.
  intros Hc Hl He. unfold fetch_rb. twp_step. twp_step. twp_step.
  apply (twp_mono _ (λ _ d', d' = d)).
  { destruct (d_epochs d !! m_EpochNum m); twp_step; [apply Hc|done|done]. }
  intros ep ? ->. twp_step. twp_step. destruct (ep_rbs ep !! m_PeerID m); [|done]. twp_step.
  destruct Hl as [? ? ? Hf]. split; try done. cbn. intros i ep'. rewrite lookup_insert.
  case_decide; [by subst|apply Hf].
Qed.

Lemma dispel_updateCommandHash_ends m ep : updateCommandHash m ep ≠ Diverge.
Proof. unfold updateCommandHash. ends_steps. Qed.
Lemma dispel_updateCommand_ends m ep : updateCommand m ep ≠ Diverge.
Proof. unfold updateCommand. ends_steps. Qed.

Lemma stepBroadcast_twp m from d :
  live X d → m_EpochNum m ∈ X → twp (stepBroadcast m from) (λ _, live X) d.
Proof.
  intros Hl He. unfold stepBroadcast. repeat case_decide; [| | |done].
  - unfold onRBSend, get_rb. twp_step. twp_step; [apply Command_Hash_ptr_ends|]. destruct a as [h cmd].
    twp_step. eapply twp_mono.
    { apply fetch_rb_twp; [|done|done]. intros ep. apply bind_ends; [apply dispel_updateCommand_ends|].
      intros ? _. apply dispel_updateCommandHash_ends. }
    simpl. intros _ d1 Hl1. twp_step. eapply twp_mono.
    { apply frame_live; [done|]. intros. by apply log_pCert_frame. }
    simpl. intros _ d2 Hl2. twp_step. eapply twp_mono.
    { apply frame_live; [done|]. intros. by apply frame_upd_rb. }
    simpl. intros _ d3 Hl3. twp_step. twp_step. twp_step. apply twp_deref. intros rb _. twp_step.
    eapply twp_mono.
    { apply frame_live; [done|]. intros. by apply log_pCert_frame. }
    simpl. intros _ d4 Hl4. twp_step. eapply twp_mono.
    { apply frame_live; [done|]. intros. by apply broadcast_frame. }
    simpl. intros _ d5 Hl5. by apply maybeEcho_twp.
  - unfold onRBEcho. twp_step. eapply twp_mono.
    { apply fetch_rb_twp; [|done|done]. intros ep. apply dispel_updateCommandHash_ends. }
    simpl. intros _ d1 Hl1. twp_step. eapply twp_mono.
    { apply frame_live; [done|]. intros. by apply log_pCert_frame. }
    simpl. intros _ d2 Hl2. by apply maybeEcho_twp.
  - unfold onRBReady. twp_step. eapply twp_mono.
    { apply fetch_rb_twp; [|done|done]. intros ep. apply dispel_updateCommandHash_ends. }
    simpl. intros _ d1 Hl1. twp_step. eapply twp_mono.
    { apply frame_live; [done|]. intros. by apply log_cCert_frame. }
    simpl. intros _ d2 Hl2. by apply maybeReady_twp.
Qed.
End handlers.

(** ** A state that fits: there are replicas, and the epochs are fewer than words *)
Record fits d : Prop := {
  ft_peers : d_peers d ≠ [];
  ft_f : (0 ≤ d_maxFailures d)%Z;
  ft_next : d_nextDeliverEpoch d = u64 (d_nextDeliverEpoch d);
  ft_size : (Z.of_nat (size (d_epochs d)) + 2 < two64)%Z;
}.

Lemma fits_live d e : fits d → live ({[e]} ∪ dom (d_epochs d)) d.
Proof.
  intros []. split; try done. intros i ep Hi Hn. destruct Hn. apply elem_of_union. right.
  by apply elem_of_dom_2 in Hi.
Qed.

Lemma fits_size d e : fits d → (Z.of_nat (size ({[e]} ∪ dom (d_epochs d))) + 1 < two64)%Z.
Proof.
  intros [_ _ _ Hs]. assert (size ({[e]} ∪ dom (d_epochs d)) ≤ 1 + size (d_epochs d)) as Hle; [|lia].
  rewrite size_union_alt, size_singleton, <-size_dom.
  assert (size (dom (d_epochs d) ∖ {[e]}) ≤ size (dom (d_epochs d))) as Hd; [|lia].
  apply subseteq_size. set_solver.
Qed.

Lemma dispel_Step_ends m d : fits d → ends (Dispel.Step m) d.
Proof.
  intros Hf. unfold Dispel.Step. destruct (Unmarshal _) as [[m'|m'|]|]; [| |by destruct (negb _)|done];
    (destruct (negb _); [done|]); apply (twp_ends _ (λ _ _, True)).
  - eapply twp_mono; [apply (stepBroadcast_twp _ (fits_size _ (m_EpochNum m') Hf)); [by apply fits_live|set_solver]|done].
  - eapply twp_mono; [apply (stepConsensus_twp _ (fits_size _ (cm_EpochNum m') Hf)); [by apply fits_live|set_solver]|done].
Qed.

Lemma dispel_onRequest_ends cmd d : fits d → ends (Request cmd) d.
Proof.
  intros Hf. apply (twp_ends _ (λ _ _, True)). unfold Request. twp_step.
  eapply twp_mono; [by apply (onRequest_frame ({[0%Z]} ∪ dom (d_epochs d)) d), frame_refl, fits_live|done].
Qed.
(** ** Ticks

    The timers that fire are those that were there: a coordinator timer starts
    no other. *)
Lemma upd_epoch_timers e g d : keeps d_timers (upd_epoch e g) d.
Proof. done. Qed.
Lemma dispel_broadcast_timers m b d : keeps d_timers (broadcast m b) d.
Proof. unfold broadcast. keeps_steps. Qed.
Lemma deref_timers {A} (find : Dispel → option A) d : keeps d_timers (deref find) d.
Proof. unfold deref. keeps_steps. Qed.
Hint Resolve upd_epoch_timers dispel_broadcast_timers (@deref_timers) : go_keeps.

Lemma dispel_onRequest_timers cmd d : keeps d_timers (onRequest cmd) d.
Proof. unfold onRequest, set_status, log_pCert, get_rb, upd_rb. keeps_steps. Qed.
Hint Resolve dispel_onRequest_timers : go_keeps.
Lemma exec_timers d : keeps d_timers exec d.
Proof. unfold exec, exec_body, deliver, get_rb, upd_rb, enqueueForExecution. keeps_steps. Qed.
Hint Resolve exec_timers : go_keeps.

Lemma onAfterSendReceiveAux_timers bp e k r d :
  (∀ r est d, keeps d_timers (bp r est) d) → keeps d_timers (onAfterSendReceiveAux_ bp e k r) d.
Proof. intros Hbp. unfold onAfterSendReceiveAux_, get_round, get_cons, upd_round, upd_cons. keeps_steps; apply Hbp. Qed.
Lemma broadcastAux_timers bp e k r s d :
  (∀ r est d, keeps d_timers (bp r est) d) → keeps d_timers (broadcastAux_ bp e k r s) d.
Proof.
  intros Hbp. unfold broadcastAux_, get_round, upd_round, upd_cons. keeps_steps.
  by apply onAfterSendReceiveAux_timers.
Qed.
Lemma binaryPropose_rec_timers fuel e k r est d : keeps d_timers (binaryPropose_rec fuel e k r est) d.
Proof.
  revert r est d. induction fuel as [|fuel IH]; intros r est d; simpl; [done|].
  unfold get_round, get_cons, upd_round, upd_cons. keeps_steps. by apply broadcastAux_timers.
Qed.
Lemma onCoordTimerExpired_timers e k r d : keeps d_timers (onCoordTimerExpired e k r) d.
Proof.
  unfold onCoordTimerExpired, onAfterBinValuesNotNullAndCoordTimerExpires, broadcastAux, get_round,
    upd_round, upd_cons.
  keeps_steps. apply broadcastAux_timers. intros. apply binaryPropose_rec_timers.
Qed.

Definition action_epoch (a : Timer.action timerAct) : option Z :=
  match a with Timer.Act (CoordTimerExpired e _ _) => Some e | _ => None end.
Definition timer_epochs (d : Dispel) : gset Z :=
  list_to_set (map_to_list (d_timers d) ≫= λ t, omap action_epoch (Timer.onTimeout t.2)).

(** The timers act on epochs of [X]. *)
Definition timers_in (X : gset Z) (d : Dispel) : Prop :=
  ∀ a t act, d_timers d !! a = Some t → act ∈ Timer.onTimeout t →
    ∀ e, action_epoch act = Some e → e ∈ X.

Lemma timer_epochs_in X d : timer_epochs d ⊆ X → timers_in X d.
Proof.
  intros Hs a t act Ht Ha e He. apply Hs, elem_of_list_to_set, list_elem_of_bind. exists (a, t).
  split; [|by apply elem_of_map_to_list]. apply list_elem_of_omap. by exists act.
Qed.

Lemma fire_actions {A} (l : list (Timer.action A)) t :
  Timer.onTimeout (Timer.fire l t).1 = Timer.onTimeout t ∧
  ∀ a, a ∈ (Timer.fire l t).2 → Timer.Act a ∈ l.
Proof.
  revert t. induction l as [|[| |b] l IH]; intros t; simpl.
  - split; [done|]. by intros a ?%elem_of_nil.
  - destruct (IH (Timer.Reset t)) as [-> Hin]. split; [done|]. intros a ?%Hin. by right.
  - destruct (IH (Timer.Stop t)) as [-> Hin]. split; [done|]. intros a ?%Hin. by right.
  - destruct (IH t) as [E Hin]. destruct (Timer.fire l t) as [t' out]. simpl in *. split; [done|].
    intros a [->|?%Hin]%elem_of_cons; [by left|by right].
Qed.

Lemma Tick_actions {A} (t : Timer.tickingTimer A) :
  Timer.onTimeout (Timer.Tick t).1 = Timer.onTimeout t ∧
  ∀ a, a ∈ (Timer.Tick t).2 → Timer.Act a ∈ Timer.onTimeout t.
Proof.
  unfold Timer.Tick. destruct (Timer.paused t); [|case_decide]; simpl.
  - split; [done|]. by intros a ?%elem_of_nil.
  - apply (fire_actions _ (Timer.mkTimer _ _ _ _)).
  - split; [done|]. by intros a ?%elem_of_nil.
Qed.

Lemma tick_one_twp X a d :
  (Z.of_nat (size X) + 1 < two64)%Z → live X d → timers_in X d →
  twp (tick_one a) (λ _ d', live X d' ∧ timers_in X d') d.
Proof.
  intros HX Hl Ht. unfold tick_one. twp_step. twp_step.
  destruct (d_timers d !! a) as [t|] eqn:Ha; [|by twp_step].
  destruct (Tick_actions t) as [Ho Hacts]. destruct (Timer.Tick t) as [t' acts]. simpl in Ho, Hacts.
  twp_step. twp_step. apply (twp_for_each (λ d', live X d' ∧ timers_in X d')).
  - intros act d1 Hact [Hl1 Ht1]. destruct act as [|e k r]; simpl.
    + unfold unregisterTimer. twp_step. split; [by apply (live_core _ d1)|].
      intros b t1 act' Hb. cbn in Hb.
      apply lookup_delete_Some in Hb as [_ Hb]. by apply (Ht1 b).
    + assert (e ∈ X) as He by by eapply (Ht a t (Timer.Act (CoordTimerExpired e k r))); [| apply Hacts|].
      eapply twp_mono; [apply twp_and|].
      * by apply (onCoordTimerExpired_twp X HX e k He r).
      * apply onCoordTimerExpired_timers.
      * simpl. intros _ d2 [Hl2 E]. split; [done|]. unfold timers_in. by rewrite E.
  - split; [by apply (live_core _ d)|]. intros b t1 act Hb. cbn in Hb.
    destruct (decide (a = b)) as [<-|Hne].
    + rewrite lookup_insert_eq in Hb. injection Hb as <-. rewrite Ho. by apply (Ht a).
    + rewrite lookup_insert_ne in Hb by done. by apply (Ht b).
Qed.

Lemma dispel_Tick_ends d :
  d_peers d ≠ [] → (0 ≤ d_maxFailures d)%Z → d_nextDeliverEpoch d = u64 (d_nextDeliverEpoch d) →
  (Z.of_nat (size (dom (d_epochs d) ∪ timer_epochs d)) + 1 < two64)%Z → ends Dispel.Tick d.
Proof.
  intros Hp Hf Hn HX. set (X := dom (d_epochs d) ∪ timer_epochs d) in *.
  apply (twp_ends _ (λ _ d', live X d' ∧ timers_in X d')). unfold Dispel.Tick. twp_step. twp_step.
  apply (twp_for_each (λ d', live X d' ∧ timers_in X d')).
  - intros [a t] d1 _ [Hl1 Ht1]. by apply tick_one_twp.
  - split; [|apply timer_epochs_in; set_solver]. split; try done. intros e ep He Hne. destruct Hne.
    apply elem_of_union_l. by apply elem_of_dom_2 in He.
Qed.

Lemma dispel_AsyncCallback_ends d : ends Dispel.AsyncCallback d.
Proof.
  unfold Dispel.AsyncCallback. apply ends_bind; [done|]. intros b s [= <- <-].
  apply (loop_ends (λ _, True) (λ d, length (d_callbackC d))); [|done|lia].
  intros s _. unfold AsyncCallback_body, send_signed, enqueueForSending. split; [ends_steps|].
  wp_step. wp_step. destruct (d_callbackC s) as [|[j cert] rest] eqn:Hc; [by wp_step|].
  wp_steps. intros _. cbn. split; [done|lia].
Qed.
End ends.
