(* ===== verification/DispelProps.v ===== *)
(** * The properties of Dispel

    The theorems of Dispel.v, proved from the invariant of DispelSafety.v and
    the termination lemmas of DispelEnds.v, with a concrete environment to
    apply them in. *)
From S2P Require Import Prelude Command Worker Certifier Peer Runs Wire Dispel DispelSafety DispelEnds.
From Stdlib Require Import Strings.Byte.
Import Dispel.

Section runs.
Context `{GoEnv, MapRange, Codec Command, Codec DispelMessage, Certifier}.
Context `{!GoEnvLaws} (marshal_ok : ∀ c : Command, is_Some (Marshal c)).

(** Runs under any peer, with the steps of the signing pool. *)
Definition dispel_pool (cap : nat) (d d' : Dispel) : Prop := ∃ e, worker_step cap e d = Some d'.
Definition dispel_run (cap : nat) : list ExecPacket → Dispel → list ExecPacket → Dispel → Prop :=
  runs (dispel_pool cap).

Definition threshold (c : Config) : Z :=
  let n := Z.of_nat (length (cfg_Peers c)) in
  if cfg_DispelWaitForAllRb c then n else (n - cfg_MaxFailures c)%Z.

(** The invariant of DispelSafety.v, with the packets taken. *)
Definition dispel_inv (c : Config) (h : list ExecPacket) (d : Dispel) : Prop :=
  inv (cfg_ID c) (cfg_Peers c) (cfg_MaxFailures c) (threshold c) h [] [] d.

Lemma NewDispel_inv c d : NewDispel c = Ret d → dispel_inv c [] d.
Proof.
  unfold NewDispel. destruct (cfg_Workers c !! _); [|done]. destruct (cfg_WorkersQueueSizes c !! _); [|done].
  intros [= <-]. split; try done; cbn.
  - by intros k Hk%elem_of_nil.
  - exists [], []. split_and!; [by split|done|done|]. split; [constructor|constructor].
Qed.

Lemma dispel_run_invariant cap c : run_invariant (dispel_pool cap) (dispel_inv c).
Proof.
  split.
  - intros [] h d _ Hi; simpl.
    + by apply dispel_Step_inv.
    + unfold Request. wp_step. eapply wp_mono; [by apply dispel_onRequest_inv|]. simpl. intros _ d1 Hi1.
      by wp_step.
    + by apply dispel_Tick_inv.
    + done.
    + eapply wp_mono; [apply dispel_AsyncCallback_core|]. simpl. intros _ d1 Hc. by eapply inv_core.
    + by apply (inv_core _ _ _ _ _ _ _ d).
  - intros h d d' [e Hs] Hi. eapply inv_core; [by eapply dispel_worker_step_core|done].
  - intros h d Hi sent. simpl.
    assert (dispel_inv c (h ++ d_toDeliver d) (d <| d_toDeliver := [] |>)) as Hi'.
    { destruct Hi as [? ? ? ? ? ? Hd]. split; try done. cbn. by rewrite app_nil_r. }
    destruct sent; [by apply (inv_core _ _ _ _ _ _ _ (d <| d_toDeliver := [] |>))|done].
Qed.

Lemma dispel_run_inv cap c d0 h d :
  NewDispel c = Ret d0 → dispel_run cap [] d0 h d → dispel_inv c h d.
Proof.
  intros Hn Hr. by apply (runs_inv _ _ _ _ _ _ (dispel_run_invariant cap c) Hr), NewDispel_inv.
Qed.
End runs.

Section dispel_properties.
Context `{GoEnv, MapRange, Codec Command, Codec DispelMessage, Certifier}.


(** C25.  What a decision rests on: in every reachable state, a decided consensus
    instance has the parity of its round as its value, that round has the value
    among its own, and its first Aux messages, more than [2f] of them, had it
    as their only value; and the number of decided instances is the one that
    [exec] waits for. *)
Theorem dispel_decision_backed `{!GoEnvLaws} c cap d0 h d e ep :
  (∀ cmd : Command, is_Some (Marshal cmd)) →
  NewDispel c = Ret d0 → dispel_run cap [] d0 h d → d_epochs d !! e = Some ep →
  consDoneCount ep = Z.of_nat (count decided (ep_cons ep)) ∧
  ∀ k i, ep_cons ep !! k = Some i → decided i = true →
    (decidedValue i = decidedRound i `mod` 2)%Z ∧
    ∃ rnd, rs i !! decidedRound i = Some rnd ∧ decision (cfg_MaxFailures c) (decidedValue i) rnd.
Proof.
  intros Hm Hn Hr He. destruct (dispel_run_inv Hm _ _ _ _ _ Hn Hr) as [_ _ _ _ Hep _ _].
  destruct (Hep e ep He) as [_ Hc _ Hcount]. split; [done|]. intros k i Hk Hd.
  by apply (co_decided _ _ (Hc k i Hk)).
Qed.


(**  Termination: in every reachable state with replicas and with fewer epochs
    and timers than words, every message, request, tick and callback ends. *)
Theorem dispel_terminates `{!GoEnvLaws} c cap d0 h d m cmd :
  (∀ cmd : Command, is_Some (Marshal cmd)) → (0 ≤ cfg_MaxFailures c)%Z → cfg_Peers c ≠ [] →
  (Z.of_nat (size (d_epochs d)) + 2 < two64)%Z →
  (Z.of_nat (size (dom (d_epochs d) ∪ timer_epochs d)) + 1 < two64)%Z →
  NewDispel c = Ret d0 → dispel_run cap [] d0 h d →
  Dispel.Step m d ≠ Diverge ∧ Request cmd d ≠ Diverge ∧ Dispel.Tick d ≠ Diverge ∧
  Dispel.AsyncCallback d ≠ Diverge.
Proof.
  intros Hm Hf Hp Hs Ht Hn Hr. destruct (dispel_run_inv Hm _ _ _ _ _ Hn Hr) as [_ Hpe Hfe _ _ _ Hd].
  assert (d_nextDeliverEpoch d = u64 (d_nextDeliverEpoch d)) as Hu.
  { destruct Hd as (pkss & pkts & _ & _ & -> & _). by rewrite u64_u64. }
  assert (d_peers d ≠ []) as Hp' by by rewrite Hpe. assert (0 ≤ d_maxFailures d)%Z as Hf' by by rewrite Hfe.
  split_and!; [by apply dispel_Step_ends|by apply dispel_onRequest_ends|by apply dispel_Tick_ends|
    apply dispel_AsyncCallback_ends].
Qed.
End dispel_properties.

Module DispelDemo.
Import Toy.
#[export] Instance wire_RBMessage : Wire RBMessage :=
  wire_iso (λ m, (m_EpochNum m, m_PeerID m, m_Type m, m_Command m, m_CommandHash m))
    (λ '(e, k, t, c, h), mkRBM e k t c h) ltac:(by intros []).
#[export] Instance wire_ConsensusMessage : Wire ConsensusMessage :=
  wire_iso (λ m, (cm_EpochNum m, cm_PeerID m, cm_RoundNum m, cm_Type m, cm_Estimate m, cm_Aux m))
    (λ '(e, k, r, t, v, a), mkCM e k r t v a) ltac:(by intros []).
#[export] Instance DispelMessage_codec : Codec DispelMessage :=
  wire_codec (wire_iso (λ m, match m with
    | DispelMessage_Broadcast m => (Some m, None)
    | DispelMessage_Consensus m => (None, Some m)
    | DispelMessage_nil => (None, None)
    end) (λ '(a, b), match a, b with
    | Some m, _ => DispelMessage_Broadcast m
    | _, Some m => DispelMessage_Consensus m
    | _, _ => DispelMessage_nil
    end) ltac:(by intros [])).
#[export] Instance cert : Certifier := dummyCertifier.

Definition config (j : Z) : Config :=
  mkConfig j (seqZ 0 4) 1 false {["mac_sign"%string := 1]} {["mac_sign"%string := 9]}.
Definition start (j : Z) : Dispel :=
  mkDispel j (seqZ 0 4) 1 0 ∅ 0 [] [] ∅ 0 3 (Worker.NewDispatcher 1) [].

Definition msg (from : Z) (m : DispelMessage) : call :=
  Call_Step (mkMessage from 0 (default [] (Marshal m)) []).
Definition hash_of (c : Command) : slice := (Command_Hash c).1.

(** The messages of the broadcast of replica [k], in epoch 0, and of a round. *)
Definition send (k : Z) (c : Command) : call :=
  msg k (DispelMessage_Broadcast (mkRBM 0 k RBMessage_Send (Some c) None)).
Definition echo (from k : Z) (c : Command) : call :=
  msg from (DispelMessage_Broadcast (mkRBM 0 k RBMessage_Echo None (hash_of c))).
Definition ready (from k : Z) (c : Command) : call :=
  msg from (DispelMessage_Broadcast (mkRBM 0 k RBMessage_Ready None (hash_of c))).
Definition estimate (from k r v : Z) : call :=
  msg from (DispelMessage_Consensus (mkCM 0 k r ConsensusMessage_Estimate v [])).
Definition aux (from k r v : Z) : call :=
  msg from (DispelMessage_Consensus (mkCM 0 k r ConsensusMessage_Aux 0 [v])).

Definition run_calls (j : Z) (cs : list call) : Dispel := do_calls cs (start j).

(** The broadcasts of replicas 0, 1 and 2 complete at replica 0, and all four
    instances decide 1 in round 1; nothing of the broadcast of 3 has arrived. *)
Definition command (k : Z) : Command := cmd (k + 1) k.
Definition broadcasts : list call :=
  [Call_Request (command 0); echo 1 0 (command 0); echo 2 0 (command 0);
   ready 1 0 (command 0); ready 2 0 (command 0);
   send 1 (command 1); echo 2 1 (command 1); ready 1 1 (command 1); ready 2 1 (command 1);
   send 2 (command 2); echo 1 2 (command 2); ready 1 2 (command 2); ready 2 2 (command 2)].
(** Instance [k] of epoch 0 has decided [v]. *)
Definition decides (k v : Z) (d : Dispel) : bool :=
  match find_cons 0 k d with Some i => decided i && bool_decide (decidedValue i = v) | None => false end.
Lemma decides_spec k v d :
  decides k v d = true → ∃ i, find_cons 0 k d = Some i ∧ decided i = true ∧ decidedValue i = v.
Proof.
  unfold decides. destruct (find_cons 0 k d) as [i|]; [|done].
  intros [? ?%bool_decide_eq_true]%andb_true_iff. by exists i.
Qed.

(** What decides instances 0, 1 and 2, ... *)
Definition decisions : list call :=
  k ← [0; 1; 2]%Z; [aux 0 k 1 1; aux 1 k 1 1; aux 2 k 1 1].
(** ... and what replica 3 alone sends to decide value [v] of instance [k] in
    round [r], up to the last message. *)
Definition forged (k r v : Z) : list call :=
  replicate 3 (estimate 3 k r v) ++ replicate 5 Call_Tick ++ replicate 2 (aux 3 k r v).

(** The calls are ticks and messages of replica [j]. *)
Definition only_from (j : Z) (c : call) : Prop :=
  match c with Call_Step m => msg_From m = j | Call_Tick => True | _ => False end.
Definition flood (k r v : Z) : list call := echo 3 3 (command 3) :: forged k r v ++ [aux 3 k r v].

Lemma run_calls_run cap j cs h : dispel_run cap h (start j) h (run_calls j cs).
Proof. apply runs_calls. Qed.
Lemma new_start j : NewDispel (config j) = Ret (start j).
Proof. reflexivity. Qed.
End DispelDemo.

Section dispel_faults.
Import Toy DispelDemo.

(**  One faulty replica decides for everybody: [onBVBroadcast] and
    [onAuxMessage] count messages, and do not look at their sender.  With
    messages of replica 3 only, replica 0 decides 1 for the broadcast of
    replica 2 and replica 1 decides 0 for the same broadcast. *)
Theorem dispel_one_sender_decides cap :
  ∃ cs0 cs1 d0 d1 i0 i1, Forall (only_from 3) (cs0 ++ cs1) ∧
    dispel_run cap [] (start 0) [] d0 ∧ d0 = do_calls cs0 (start 0) ∧
    dispel_run cap [] (start 1) [] d1 ∧ d1 = do_calls cs1 (start 1) ∧
    find_cons 0 2 d0 = Some i0 ∧ decided i0 = true ∧ decidedValue i0 = 1%Z ∧
    find_cons 0 2 d1 = Some i1 ∧ decided i1 = true ∧ decidedValue i1 = 0%Z.
Proof.
  destruct (decides_spec 2 1 (run_calls 0 (flood 2 1 1))) as (i0 & ? & ? & ?); [vm_compute; reflexivity|].
  destruct (decides_spec 2 0 (run_calls 1 (flood 2 2 0))) as (i1 & ? & ? & ?); [vm_compute; reflexivity|].
  exists (flood 2 1 1), (flood 2 2 0), (run_calls 0 (flood 2 1 1)), (run_calls 1 (flood 2 2 0)), i0, i1.
  split; [by repeat constructor|].
  split; [apply run_calls_run|]. split; [reflexivity|].
  split; [apply run_calls_run|]. split; [reflexivity|].
  repeat (split; [assumption|]). assumption.
Qed.

(** A decision without its broadcast stops the process: the broadcasts of
    replicas 0, 1 and 2 are complete and decided, and replica 3, which has
    broadcast nothing, sends the messages that decide 1 for its own; [exec]
    then dereferences the broadcast that is not there. *)
Theorem dispel_missing_broadcast_panics cap :
  ∃ d m, dispel_run cap [] (start 0) [] d ∧ msg_From m = 3%Z ∧
    find_rb 0 3 d = None ∧ Dispel.Step m d = Panic "nil rbroadcast".
Proof.
  exists (run_calls 0 (broadcasts ++ decisions ++ forged 3 1 1)),
    (mkMessage 3 0 (default [] (Marshal (DispelMessage_Consensus
      (mkCM 0 3 1 ConsensusMessage_Aux 0 [1%Z])))) []).
  split; [apply run_calls_run|]. split; [done|]. split; vm_compute; reflexivity.
Qed.

(** The order inside an epoch is the order in which Go happens to range over
    a map: the same calls, under two of the orders that Go allows, make a
    replica deliver the same commands in two orders. *)
Theorem dispel_order_unspecified :
  ∃ (order1 order2 : MapRange) cs,
    let deliveries o := d_toDeliver (@do_calls Dispel
      (@Dispel_Protocol env o Command_codec DispelMessage_codec cert) cs (start 0)) in
    deliveries order1 ≡ₚ deliveries order2 ∧ deliveries order1 ≠ deliveries order2.
Proof.
  exists map_range, rev_range, (broadcasts ++ decisions ++ forged 3 2 0 ++ [aux 3 3 2 0]).
  assert (∀ l l' : list ExecPacket, bool_decide (l ≡ₚ l' ∧ l ≠ l') = true → l ≡ₚ l' ∧ l ≠ l') as Hb
    by (intros ??; apply bool_decide_eq_true).
  apply Hb. vm_compute. reflexivity.
Qed.
End dispel_faults.

Section dispel_witnesses.
Import Toy DispelDemo.

(** The epoch 0, delivered. *)
Definition done0 : Dispel :=
  run_calls 0 (broadcasts ++ decisions ++ forged 3 2 0 ++ [aux 3 3 2 0]).


Lemma dispel_decision_backed_witness :
  ∃ ep, d_epochs done0 !! 0%Z = Some ep ∧ consDoneCount ep = 4%Z ∧
    consDoneCount ep = Z.of_nat (count decided (ep_cons ep)).
Proof.
  destruct (d_epochs done0 !! 0%Z) as [ep|] eqn:He; [|vm_compute in He; discriminate].
  exists ep. split; [reflexivity|]. split.
  - vm_compute in He. injection He as <-. reflexivity.
  - apply (dispel_decision_backed (config 0) 9 (start 0) [] done0 0 ep).
    + apply command_marshals.
    + apply new_start.
    + apply run_calls_run.
    + exact He.
Defined.


Lemma dispel_terminates_witness : Dispel.Tick done0 ≠ Diverge.
Proof.
  apply (dispel_terminates (config 0) 9 (start 0) [] done0 (mkMessage 0 0 [] []) (cmd 9 0)).
  - apply command_marshals.
  - vm_compute. discriminate.
  - vm_compute. discriminate.
  - vm_compute. reflexivity.
  - vm_compute. reflexivity.
  - apply new_start.
  - apply run_calls_run.
Defined.
End dispel_witnesses.
