(* ===== verification/Rcc.v ===== *)
(** * RCC (src/protocols/rcc/rcc.go)

    A replica runs one instance of a consensus protocol per replica, its
    replicators, each with a leader of its own, and orders the commands in
    rounds: when every replicator has ordered a command, one of each is
    released.  RCC is a protocol over a protocol: the model takes any instance
    of the [Protocol] interface for the replicators, as the Go code takes any
    [peer.Protocol]. *)
From S2P Require Import Prelude Command Peer.

Module Rcc.

(** rccpb.RCCMessage *)
Record RCCMessage := mkRCCMessage {
  rm_Message : Message;
  rm_Kind : Z;
  rm_PeerID : Z;
}.
Definition RCCMessage_None : Z := 0.

Record RCC (P : Type) := mkRCC {
  r_id : Z;
  r_nodes : list Z;
  r_replicators : gmap Z P;
  r_execPkts : gmap Z (list ExecPacket);
  r_globalOrderedCommands : list ExecPacket;
}.
Arguments mkRCC {P}.
Arguments r_id {P}.
Arguments r_nodes {P}.
Arguments r_replicators {P}.
Arguments r_execPkts {P}.
Arguments r_globalOrderedCommands {P}.
#[export] Instance RCC_eta {P} : Eta (RCC P) := λ d,
  mkRCC (r_id d) (r_nodes d) (r_replicators d) (r_execPkts d) (r_globalOrderedCommands d).
#[export] Instance set_r_replicators {P} : Setter (R := RCC P) r_replicators := ltac:(solve_setter).
#[export] Instance set_r_execPkts {P} : Setter (R := RCC P) r_execPkts := ltac:(solve_setter).
#[export] Instance set_r_globalOrderedCommands {P} : Setter (R := RCC P) r_globalOrderedCommands :=
  ltac:(solve_setter).

Section rcc.
Context `{MapRange, Codec RCCMessage} {P : Type} `{Protocol P}.

(** [newReplicator id] is what the switch on [RccAlgorithm] makes for leader [id]. *)
Definition NewRCC (newReplicator : Z → outcome P) (id : Z) (peers : list Z) : outcome (RCC P) :=
  for_out peers (mkRCC id peers ∅ ∅ []) (λ k d,
    rp ← newReplicator k;
    Ret (d <| r_replicators ::= <[k := rp]> |> <| r_execPkts ::= <[k := []]> |>)).

(** A call of a method of [d.replicators[id]]. *)
Definition on_replicator {A} (id : Z) (m : M P A) : M (RCC P) A := λ d,
  match r_replicators d !! id with
  | None => Panic "nil Protocol"
  | Some r =>
      match m r with
      | Ret (a, r) => Ret (a, d <| r_replicators ::= <[id := r]> |>)
      | Panic w => Panic w
      | Diverge => Diverge
      end
  end.

(** [for _, r := range d.replicators { r.m() }] *)
Definition all_replicators (m : M P unit) : M (RCC P) unit :=
  d ← get; for_each (range (r_replicators d)) (λ ir, on_replicator ir.1 m).

Definition AsyncCallback : M (RCC P) unit := all_replicators Peer.AsyncCallback.
Definition Tick : M (RCC P) unit := all_replicators Peer.Tick.
Definition ClearMsgs : M (RCC P) unit := all_replicators Peer.ClearMsgs.
Definition ClearExecutedCommands : M (RCC P) unit :=
  modify (λ d, d <| r_globalOrderedCommands := [] |>).
Definition Callback (cb : ExecCallback) : M (RCC P) unit :=
  on_replicator (c_Target (xc_Cmd cb)) (Peer.Callback cb).
Definition Request (r : Command) : M (RCC P) unit := on_replicator (c_Target r) (Peer.Request r).

Definition Step (m : Message) : M (RCC P) unit :=
  match Unmarshal (msg_Content m) with
  | None => panic "Unable to unmarshall"
  | Some dm => on_replicator (rm_PeerID dm) (Peer.Step (rm_Message dm))
  end.

(** The messages of replicator [id], wrapped. *)
Definition wrap (id : Z) (msgs : list Message) (messages : list Message) : outcome (list Message) :=
  for_out msgs messages (λ msg messages,
    match Marshal (mkRCCMessage msg RCCMessage_None id) with
    | None => Panic "marshal"
    | Some mBytes => Ret (messages ++ [mkMessage (msg_From msg) (msg_To msg) mBytes []])
    end).

(** One packet that replicator [id] has ordered. *)
Definition accept (id : Z) (pkt : ExecPacket) : M (RCC P) unit :=
  if negb (x_NoExec pkt) then
    d ← get;
    match r_execPkts d !! id with
    | None => panic "nil List"
    | Some _ => modify (λ d, d <| r_execPkts ::= alter (λ q, q ++ [pkt]) id |>)
    end
  else modify (λ d, d <| r_globalOrderedCommands ::= λ l, l ++ [pkt] |>).

(** The body of the first loop of [MakeReady]; [messages] is its local variable. *)
Definition collect_one (id : Z) (messages : list Message) : M (RCC P) (list Message) :=
  rReady ← on_replicator id Peer.MakeReady;
  messages ← lift (wrap id (rd_Messages rReady) messages);
  for_each (rd_OrderedCommands rReady) (accept id);;
  on_replicator id Peer.ClearExecutedCommands;;
  mret messages.
Fixpoint collect (ids : list Z) (messages : list Message) : M (RCC P) (list Message) :=
  match ids with
  | [] => mret messages
  | id :: ids => messages ← collect_one id messages; collect ids messages
  end.

(** The body of the loop that releases a round. *)
Definition release_one (id : Z) : M (RCC P) unit :=
  d ← get;
  match r_execPkts d !! id with
  | Some (pkt :: q) =>
      modify (λ d, d <| r_execPkts ::= <[id := q]> |>
                     <| r_globalOrderedCommands ::= λ l, l ++ [pkt] |>)
  | _ => mret tt
  end.

Definition present (d : RCC P) : bool :=
  forallb (λ iq, match iq.2 with [] => false | _ => true end) (range (r_execPkts d)).

Definition MakeReady : M (RCC P) Ready :=
  d ← get;
  messages ← collect (range (r_replicators d)).*1 [];
  d ← get;
  when (present d) (for_each (range (r_execPkts d)) (λ iq, release_one iq.1));;
  d ← get;
  mret (mkReady messages (r_globalOrderedCommands d)).

Definition hasExecuted (cmd : Command) (d : RCC P) : outcome bool :=
  for_out (r_globalOrderedCommands d) false (λ pkt acc,
    if (acc : bool) then Ret true else Command_Equal (x_Cmd pkt) (Some cmd)).

#[export] Instance RCC_Protocol : Protocol (RCC P) := {|
  Peer.Step := Step;
  Peer.Tick := Tick;
  Peer.Request := Request;
  Peer.Callback := Callback;
  Peer.MakeReady := MakeReady;
  Peer.ClearMsgs := ClearMsgs;
  Peer.ClearExecutedCommands := ClearExecutedCommands;
  Peer.AsyncCallback := AsyncCallback;
|}.
End rcc.
End Rcc.
