(* ===== verification/RccProps.v ===== *)
(** * The properties of RCC

    What a replica over replicators promises, given what [runs] of each of them
    hand over: the theorems hold of every instance of the [Protocol] interface. *)
From S2P Require Import Prelude Command Tracker Peer Runs Wire RuntimeProps Rcc.
From Stdlib Require Import Strings.Byte.
Import Rcc.

Section rcc.
Context `{MapRange, Codec RCCMessage} {P : Type} `{Protocol P} (other : P → P → Prop).
Implicit Types (d : RCC P) (h : list ExecPacket) (tagged : list (Z * ExecPacket)).

(** The worker threads of the replicators. *)
Definition rcc_other d d' : Prop :=
  ∃ k r r', r_replicators d !! k = Some r ∧ other r r' ∧
    d' = d <| r_replicators ::= <[k := r']> |>.

Definition keys {A} (m : gmap Z A) : list Z := (map_to_list m).*1.

(** The packets of replicator [k], to be executed or not, among packets that
    are tagged with the replicator they come from. *)
Definition of_key (k : Z) (noexec : bool) tagged : list ExecPacket :=
  (filter (λ x, x.1 = k ∧ x_NoExec x.2 = noexec) tagged).*2.
Definition turns tagged : list Z := (filter (λ x, x_NoExec x.2 = false) tagged).*1.
Definition kind (noexec : bool) (l : list ExecPacket) : list ExecPacket :=
  filter (λ x, x_NoExec x = noexec) l.

(** What the RCC replica knows of replicator [k]: it has run from its state in
    [d0], what it handed over to be executed has been released, in order, or is
    in its queue, and what is not to be executed has been passed on. *)
Definition replicated (d0 d : RCC P) tagged (k : Z) (r : P) : Prop :=
  ∃ r0 hk q, r_replicators d0 !! k = Some r0 ∧ runs other [] r0 hk r ∧
    r_execPkts d !! k = Some q ∧
    kind false hk = of_key k false tagged ++ q ∧ kind true hk = of_key k true tagged.

(** The invariant while the round [cur] is being released. *)
Record rcc_inv (cur : list Z) (d0 : RCC P) h d : Prop := {
  rc_dom k : is_Some (r_execPkts d !! k) ↔ is_Some (r_replicators d !! k);
  rc_dom0 k : is_Some (r_replicators d !! k) ↔ is_Some (r_replicators d0 !! k);
  rc_rounds : ∃ tagged rounds, h ++ r_globalOrderedCommands d = tagged.*2 ∧
    turns tagged = concat rounds ++ cur ∧
    Forall (λ round, round ≡ₚ keys (r_replicators d0)) rounds ∧
    ∀ k r, r_replicators d !! k = Some r → replicated d0 d tagged k r;
}.

Lemma of_key_snoc k b tagged id pkt :
  of_key k b (tagged ++ [(id, pkt)]) =
    of_key k b tagged ++ (if decide (id = k ∧ x_NoExec pkt = b) then [pkt] else []).
Proof. unfold of_key. rewrite filter_app, fmap_app. f_equal. rewrite filter_cons. repeat case_decide; simpl in *; (done || tauto). Qed.
Lemma turns_snoc tagged id pkt :
  turns (tagged ++ [(id, pkt)]) = turns tagged ++ (if decide (x_NoExec pkt = false) then [id] else []).
Proof. unfold turns. rewrite filter_app, fmap_app. f_equal. rewrite filter_cons. repeat case_decide; simpl in *; (done || tauto). Qed.

(** ** A replicator moves *)
Lemma replicator_moves cur d0 h d k r r' :
  r_replicators d !! k = Some r → (∀ hk, runs other hk r hk r') →
  rcc_inv cur d0 h d → rcc_inv cur d0 h (d <| r_replicators ::= <[k := r']> |>).
Proof.
  intros Hk Hm [Hdom Hdom0 (tagged & rounds & Hh & Ht & Hr & Hrep)]. split; cbn.
  - intros k'. rewrite Hdom. destruct (decide (k = k')) as [<-|].
    + rewrite lookup_insert_eq, Hk. split; eauto.
    + by rewrite lookup_insert_ne.
  - intros k'. rewrite <-Hdom0. destruct (decide (k = k')) as [<-|].
    + rewrite lookup_insert_eq, Hk. split; eauto.
    + by rewrite lookup_insert_ne.
  - exists tagged, rounds. split_and!; [done..|]. intros k' r1.
    destruct (decide (k = k')) as [<-|].
    + rewrite lookup_insert_eq. intros [= <-].
      destruct (Hrep k r Hk) as (r0 & hk & q & ? & ? & Hq & ? & ?). exists r0, hk, q.
      split_and!; try done. by eapply runs_trans.
    + rewrite lookup_insert_ne by done. apply Hrep.
Qed.

Lemma on_replicator_inv cur d0 h d k c :
  rcc_inv cur d0 h d → wp (on_replicator k (do_call c)) (λ _, rcc_inv cur d0 h) d.
Proof.
  intros Hi. unfold wp, on_replicator. destruct (r_replicators d !! k) as [r|] eqn:Hk; [|done].
  destruct (do_call c r) as [[[] r']| |] eqn:Hc; [|done..]. eapply replicator_moves; [done| |done].
  intros hk. by eapply runs_call, runs_nil.
Qed.

Lemma all_replicators_inv cur d0 h d c :
  rcc_inv cur d0 h d → wp (all_replicators (do_call c)) (λ _, rcc_inv cur d0 h) d.
Proof.
  intros Hi. unfold all_replicators. wp_step. wp_step. apply wp_for_each; [|done].
  intros kr d1 _ Hi1. by apply on_replicator_inv.
Qed.

(** ** The packets of a replicator *)
Lemma accept_all id pkts d q :
  r_execPkts d !! id = Some q →
  wp (for_each pkts (accept id)) (λ _ d', r_replicators d' = r_replicators d ∧
    r_execPkts d' = <[id := q ++ kind false pkts]> (r_execPkts d) ∧
    r_globalOrderedCommands d' = r_globalOrderedCommands d ++ kind true pkts) d.
Proof.
  revert d q. induction pkts as [|pkt pkts IH]; intros d q Hq; simpl.
  { wp_step. rewrite !app_nil_r. by rewrite insert_id. }
  wp_step. unfold accept at 1, kind. rewrite !filter_cons. destruct (x_NoExec pkt) eqn:Hx; simpl.
  - wp_step. eapply wp_mono; [by apply IH|]. simpl. intros _ d' (-> & -> & ->). cbn.
    split_and!; [done..|]. by rewrite <-app_assoc.
  - wp_step. wp_step. rewrite Hq. wp_step. eapply wp_mono.
    { apply (IH _ (q ++ [pkt])). cbn. by rewrite lookup_alter_eq, Hq. }
    simpl. intros _ d' (-> & -> & ->). cbn. split_and!; [done| |done].
    by rewrite insert_alter, decide_True, <-app_assoc by done.
Qed.

(** The packets [pkts] of replicator [k], tagged. *)
Lemma of_key_tag k b id pkts :
  of_key k b (pair id <$> pkts) = if decide (id = k) then kind b pkts else [].
Proof.
  unfold of_key, kind. case_decide as Hid; (induction pkts as [|pkt pkts IH]; [done|]; simpl;
    rewrite !filter_cons; repeat case_decide; simpl in *;
    first [tauto|exact IH|f_equal; exact IH]).
Qed.
Lemma kind_kind b l : kind b (kind b l) = kind b l.
Proof.
  induction l as [|x l IH]; [done|]. unfold kind in *. rewrite filter_cons.
  case_decide; [|done]. rewrite filter_cons_True by done. by rewrite IH.
Qed.
Lemma kind_other l : kind false (kind true l) = [].
Proof.
  induction l as [|x l IH]; [done|]. unfold kind in *. rewrite filter_cons.
  case_decide; [|done]. by rewrite filter_cons_False by congruence.
Qed.
Lemma of_key_app k b t1 t2 : of_key k b (t1 ++ t2) = of_key k b t1 ++ of_key k b t2.
Proof. unfold of_key. by rewrite filter_app, fmap_app. Qed.
Lemma turns_tag id pkts : turns (pair id <$> kind true pkts) = [].
Proof.
  induction pkts as [|x l IH]; [done|]. unfold kind, turns in *. rewrite filter_cons.
  case_decide; [|done]. simpl. rewrite filter_cons_False by (simpl; congruence). done.
Qed.
Lemma kind_app b l l' : kind b (l ++ l') = kind b l ++ kind b l'.
Proof. apply filter_app. Qed.

Lemma collect_one_inv cur d0 h d id messages :
  rcc_inv cur d0 h d → wp (collect_one id messages) (λ _, rcc_inv cur d0 h) d.
Proof.
  intros [Hdom Hdom0 (tagged & rounds & Hh & Ht & Hr & Hrep)]. unfold collect_one. wp_step.
  unfold wp at 1, on_replicator at 1. destruct (r_replicators d !! id) as [r|] eqn:Hk; [|done].
  destruct (Peer.MakeReady r) as [[rd r1]| |] eqn:Hrd; [|done..].
  wp_step. wp_step. wp_step.
  destruct (Hrep id r Hk) as (r0 & hk & q & Hr0 & Hrun & Hq & Hf & Hn).
  eapply wp_mono; [by apply accept_all|]. simpl. intros _ d1 (E1 & E2 & E3). cbn in E1, E2, E3.
  wp_step. unfold wp at 1, on_replicator at 1. rewrite E1, lookup_insert_eq.
  destruct (Peer.ClearExecutedCommands r1) as [[[] r2]| |] eqn:Hx; [|done..]. wp_step.
  assert (is_Some (r_execPkts d !! id)) as Hexec by by rewrite Hdom, Hk.
  split; cbn; rewrite ?E1, ?E2, ?E3, ?insert_insert_eq.
  - intros k. destruct (decide (id = k)) as [<-|].
    + rewrite !lookup_insert_eq. split; eauto.
    + by rewrite !lookup_insert_ne.
  - intros k. rewrite <-Hdom0. destruct (decide (id = k)) as [<-|].
    + rewrite lookup_insert_eq, Hk. split; eauto.
    + by rewrite lookup_insert_ne.
  - exists (tagged ++ (pair id <$> kind true (rd_OrderedCommands rd))), rounds. split_and!; [|..|done|].
    + rewrite app_assoc, Hh, fmap_app. f_equal. rewrite <-list_fmap_compose.
      symmetry. apply list_fmap_id.
    + unfold turns in *. rewrite filter_app, fmap_app, Ht. fold (turns (pair id <$> kind true (rd_OrderedCommands rd))).
      by rewrite turns_tag, app_nil_r.
    + intros k r'. destruct (decide (id = k)) as [<-|Hne].
      * rewrite lookup_insert_eq. intros [= <-].
        exists r0, (hk ++ rd_OrderedCommands rd), (q ++ kind false (rd_OrderedCommands rd)).
        cbn. rewrite E2, lookup_insert_eq, !kind_app, !of_key_app, !of_key_tag, !decide_True by done.
        rewrite kind_kind, kind_other, app_nil_r, app_assoc, Hf, Hn. split_and!; try done.
        eapply runs_trans; [done|]. apply (runs_ready _ false _ _ rd r1 r1 r2); [done..|]. apply runs_nil.
      * rewrite lookup_insert_ne by done. intros Hk'.
        destruct (Hrep k r' Hk') as (r0' & hk' & q' & ? & ? & ? & ? & ?). exists r0', hk', q'. cbn.
        rewrite E2, lookup_insert_ne, !of_key_app, !of_key_tag, !decide_False, !app_nil_r by done. done.
Qed.

Lemma rcc_collect_inv cur d0 h ids messages d :
  rcc_inv cur d0 h d → wp (collect ids messages) (λ _, rcc_inv cur d0 h) d.
Proof.
  revert messages d. induction ids as [|id ids IH]; intros messages d Hi; simpl; wp_step; [done|].
  eapply wp_mono; [by apply collect_one_inv|]. simpl. intros messages' d1 Hi1. by apply IH.
Qed.

(** ** A round *)
Lemma release_one_inv cur d0 h d id pkt q :
  r_execPkts d !! id = Some (pkt :: q) → rcc_inv cur d0 h d →
  wp (release_one id) (λ _ d', rcc_inv (cur ++ [id]) d0 h d' ∧
    ∀ k, k ≠ id → r_execPkts d' !! k = r_execPkts d !! k) d.
Proof.
  intros Hq [Hdom Hdom0 (tagged & rounds & Hh & Ht & Hr & Hrep)]. unfold release_one.
  wp_step. wp_step. rewrite Hq. wp_step. split; [|by intros k Hk; cbn; rewrite lookup_insert_ne].
  destruct (proj1 (Hdom id) ltac:(eauto)) as [r Hk].
  assert (x_NoExec pkt = false) as Hx.
  { destruct (Hrep id r Hk) as (r0 & hk & q' & _ & _ & Hq' & Hf & _).
    rewrite Hq in Hq'. injection Hq' as <-.
    assert (pkt ∈ kind false hk) as Hin by (rewrite Hf; set_solver).
    by apply list_elem_of_filter in Hin as [? _]. }
  split; cbn.
  - intros k. rewrite <-Hdom. destruct (decide (id = k)) as [<-|].
    + rewrite lookup_insert_eq, Hq. split; eauto.
    + by rewrite lookup_insert_ne.
  - done.
  - exists (tagged ++ [(id, pkt)]), rounds. split_and!; [by rewrite app_assoc, Hh, fmap_app| |done|].
    + by rewrite turns_snoc, Ht, decide_True, <-app_assoc by done.
    + intros k r' Hk'. destruct (Hrep k r' Hk') as (r0 & hk & q' & ? & ? & Hq' & Hf & Hn).
      destruct (decide (id = k)) as [<-|Hne].
      * rewrite Hq in Hq'. injection Hq' as <-. exists r0, hk, q. cbn.
        rewrite lookup_insert_eq, !of_key_snoc. rewrite decide_True by done.
        rewrite decide_False by (intros [_ ?]; congruence). rewrite app_nil_r.
        split_and!; try done. by rewrite Hf, <-app_assoc.
      * exists r0, hk, q'. cbn. rewrite lookup_insert_ne, !of_key_snoc, !decide_False, !app_nil_r by (done || by intros []).
        done.
Qed.

Lemma same_keys {A B} (m : gmap Z A) (m' : gmap Z B) :
  (∀ k, is_Some (m !! k) ↔ is_Some (m' !! k)) → keys m ≡ₚ keys m'.
Proof.
  intros Hd. apply NoDup_Permutation; [apply NoDup_fst_map_to_list..|]. intros k. unfold keys.
  rewrite !list_elem_of_fmap. split.
  - intros ([k' a] & -> & Ha%elem_of_map_to_list). simpl. destruct (proj1 (Hd k')) as [b Hb]; [eauto|].
    exists (k', b). by rewrite elem_of_map_to_list.
  - intros ([k' a] & -> & Ha%elem_of_map_to_list). simpl. destruct (proj2 (Hd k')) as [b Hb]; [eauto|].
    exists (k', b). by rewrite elem_of_map_to_list.
Qed.

Lemma release_inv d0 h d :
  present d = true → rcc_inv [] d0 h d →
  wp (for_each (range (r_execPkts d)) (λ iq, release_one iq.1)) (λ _, rcc_inv [] d0 h) d.
Proof.
  intros Hp Hi. eapply wp_mono.
  - apply (wp_for_each_done (λ done d', rcc_inv done.*1 d0 h d' ∧
      ∀ k, k ∉ done.*1 → r_execPkts d' !! k = r_execPkts d !! k)); [|done].
    intros done [id q0] rest d1 Hl [Hi1 Hsame]. simpl.
    assert ((id, q0) ∈ range (r_execPkts d)) as Hin by (rewrite Hl; set_solver).
    assert (NoDup (range (r_execPkts d)).*1) as Hnd by (rewrite range_perm; apply NoDup_fst_map_to_list).
    rewrite Hl, fmap_app in Hnd. apply NoDup_app in Hnd as (_ & Hnd & _).
    assert (id ∉ done.*1) as Hid by (intros Hd; apply (Hnd id Hd); left).
    assert (∃ pkt q, q0 = pkt :: q) as (pkt & q & ->).
    { unfold present in Hp. apply (proj1 (forallb_forall _ _)) with (x := (id, q0)) in Hp; [|by apply list_elem_of_In].
      destruct q0; [done|eauto]. }
    rewrite range_perm in Hin. apply elem_of_map_to_list in Hin.
    eapply wp_mono; [apply (release_one_inv done.*1 d0 h d1 id pkt q); [by rewrite Hsame|done]|].
    simpl. intros _ d2 [Hi2 Hk2]. rewrite fmap_app. split; [done|]. intros k Hk. simpl in Hk.
    rewrite Hk2, Hsame by set_solver. done.
  - simpl. intros _ d' [[Hdom Hdom0 (tagged & rounds & Hh & Ht & Hr & Hrep)] _]. split; [done..|].
    exists tagged, (rounds ++ [(range (r_execPkts d)).*1]). split_and!; [done| |..|done].
    + by rewrite Ht, concat_app, app_nil_r; simpl; rewrite app_nil_r.
    + apply Forall_app. split; [done|]. repeat constructor. rewrite range_perm. apply same_keys.
      intros k. destruct Hi as [Hd1 Hd2 _]. by rewrite Hd1, Hd2.
Qed.

Lemma MakeReady_inv d0 h d :
  rcc_inv [] d0 h d →
  wp MakeReady (λ rd d', rcc_inv [] d0 h d' ∧ rd_OrderedCommands rd = r_globalOrderedCommands d') d.
Proof.
  intros Hi. unfold MakeReady. wp_step. wp_step. wp_step.
  eapply wp_mono; [by apply rcc_collect_inv|]. simpl. intros messages d1 Hi1. wp_step. wp_step. wp_step.
  eapply (wp_mono _ (λ _, rcc_inv [] d0 h)); [wp_step; [by apply release_inv|done]|].
  simpl. intros _ d2 Hi2. by wp_steps.
Qed.

Lemma rcc_run_invariant d0 : run_invariant rcc_other (rcc_inv [] d0).
Proof.
  split.
  - intros [] h d _ Hi; simpl.
    + unfold Rcc.Step. destruct (Unmarshal _) as [dm|]; [|done]. by apply (on_replicator_inv _ _ _ _ _ (Call_Step _)).
    + by apply (on_replicator_inv _ _ _ _ _ (Call_Request _)).
    + by apply (all_replicators_inv _ _ _ _ Call_Tick).
    + by apply (on_replicator_inv _ _ _ _ _ (Call_Callback _)).
    + by apply (all_replicators_inv _ _ _ _ Call_AsyncCallback).
    + by apply (all_replicators_inv _ _ _ _ Call_ClearMsgs).
  - intros h d d' (k & r & r' & Hk & Ho & ->) Hi. eapply replicator_moves; [done| |done].
    intros hk. by eapply runs_other, runs_nil.
  - intros h d Hi. eapply wp_mono; [by apply MakeReady_inv|]. simpl. intros rd d1 [Hi1 ->] sent.
    wp_step. eapply wp_mono with (Q := λ _ d2, rcc_inv [] d0 h d2 ∧
      r_globalOrderedCommands d2 = r_globalOrderedCommands d1).
    + wp_step; [|by split]. apply wp_and; [by apply (all_replicators_inv _ _ _ _ Call_ClearMsgs)|].
      unfold ClearMsgs, all_replicators. wp_step. wp_step.
      apply (wp_for_each (λ d2, r_globalOrderedCommands d2 = r_globalOrderedCommands d1)); [|done].
      intros kr d2 _ Hd2. unfold wp, on_replicator. destruct (r_replicators d2 !! kr.1); [|done].
      by destruct (Peer.ClearMsgs p) as [[[] ?]| |].
    + simpl. intros _ d2 [[Hdom Hdom0 (tagged & rounds & Hh & Ht & Hr & Hrep)] E]. unfold ClearExecutedCommands.
      wp_step. split; cbn; [done..|]. exists tagged, rounds. rewrite app_nil_r, <-E. done.
Qed.

(** ** The start *)
Lemma NewRCC_spec newReplicator id peers d :
  NewRCC newReplicator id peers = Ret d →
  rcc_inv [] d [] d ∧ r_globalOrderedCommands d = [] ∧
  ∀ k r, r_replicators d !! k = Some r → k ∈ peers ∧ newReplicator k = Ret r.
Proof.
  intros Hn. assert (r_globalOrderedCommands d = [] ∧
    (∀ k r, r_replicators d !! k = Some r → k ∈ peers ∧ newReplicator k = Ret r) ∧
    (∀ k, is_Some (r_execPkts d !! k) ↔ is_Some (r_replicators d !! k)) ∧
    (∀ k q, r_execPkts d !! k = Some q → q = [])) as (Hg & Hrep & Hdom & Hq).
  { unfold NewRCC in Hn. assert (∀ l acc, l ⊆ peers → 
      r_globalOrderedCommands acc = [] → (∀ k r, r_replicators acc !! k = Some r → k ∈ peers ∧ newReplicator k = Ret r) →
      (∀ k, is_Some (r_execPkts acc !! k) ↔ is_Some (r_replicators acc !! k)) →
      (∀ k q, r_execPkts acc !! k = Some q → q = []) →
      for_out l acc (λ k d, rp ← newReplicator k;
        Ret (d <| r_replicators ::= <[k := rp]> |> <| r_execPkts ::= <[k := []]> |>)) = Ret d →
      r_globalOrderedCommands d = [] ∧
      (∀ k r, r_replicators d !! k = Some r → k ∈ peers ∧ newReplicator k = Ret r) ∧
      (∀ k, is_Some (r_execPkts d !! k) ↔ is_Some (r_replicators d !! k)) ∧
      (∀ k q, r_execPkts d !! k = Some q → q = [])) as Hgen.
    { intros l. induction l as [|k l IH]; intros acc Hl Hg Hr Hd Hq E; simpl in E; [by injection E as <-|].
      destruct (newReplicator k) as [rp| |] eqn:Hk; [|done..]. simpl in E.
      apply IH in E; [done|set_solver|done|..]; cbn.
      - intros k' r. destruct (decide (k = k')) as [<-|].
        + rewrite lookup_insert_eq. intros [= <-]. split; [set_solver|done].
        + rewrite lookup_insert_ne by done. apply Hr.
      - intros k'. destruct (decide (k = k')) as [<-|].
        + rewrite !lookup_insert_eq. split; eauto.
        + by rewrite !lookup_insert_ne.
      - intros k' q. destruct (decide (k = k')) as [<-|].
        + rewrite lookup_insert_eq. by intros [= <-].
        + rewrite lookup_insert_ne by done. apply Hq. }
    eapply Hgen; [| | | | |exact Hn]; try done. intros k. cbn. by rewrite !lookup_empty. }
  split_and!; [|done|done]. split; [done..|]. exists [], []. rewrite Hg. split_and!; [done..|].
  intros k r Hk. destruct (proj2 (Hdom k)) as [q Hk']; [eauto|]. rewrite (Hq _ _ Hk') in Hk'.
  exists r, [], []. split_and!; try done. apply runs_nil.
Qed.
End rcc.

Section turns.
Implicit Types (tagged : list (Z * ExecPacket)).

Lemma of_key_turns k tagged :
  length (of_key k false tagged) = length (filter (λ j, j = k) (turns tagged)).
Proof.
  unfold of_key, turns. rewrite length_fmap. induction tagged as [|[j pkt] l IH]; [done|].
  rewrite !filter_cons. simpl. repeat case_decide; simpl; rewrite ?filter_cons; repeat case_decide;
    simpl; rewrite ?IH; tauto || done.
Qed.

Lemma filter_eq_NoDup k (l : list Z) : NoDup l → k ∈ l → filter (λ j, j = k) l = [k].
Proof.
  induction 1 as [|j l Hj Hnd IH]; [by intros ?%elem_of_nil|]. rewrite filter_cons.
  intros [<-|Hk]%elem_of_cons.
  - rewrite decide_True by done. f_equal. clear IH Hnd. induction l as [|i l IHl]; [done|].
    rewrite filter_cons, decide_False by set_solver. apply IHl. set_solver.
  - rewrite decide_False by (intros ->; done). by apply IH.
Qed.

Lemma length_rounds k (ks : list Z) rounds :
  NoDup ks → k ∈ ks → Forall (λ round, round ≡ₚ ks) rounds →
  length (filter (λ j, j = k) (concat rounds)) = length rounds.
Proof.
  intros Hnd Hk. induction 1 as [|round rounds Hr _ IH]; [done|]. simpl.
  rewrite filter_app, length_app, IH, filter_eq_NoDup; [done|by rewrite Hr|by rewrite Hr].
Qed.
End turns.

(** ** The messages *)
Section rcc_messages.
Context `{MapRange, Codec RCCMessage} {P : Type} `{Protocol P}.
Implicit Types (d : RCC P).

(** The message that wraps [inner] of replicator [id]. *)
Definition wrapped (id : Z) (inner : Message) : option Message :=
  match Marshal (mkRCCMessage inner RCCMessage_None id) with
  | Some b => Some (mkMessage (msg_From inner) (msg_To inner) b [])
  | None => None
  end.

Lemma wrap_spec id msgs messages messages' :
  wrap id msgs messages = Ret messages' →
  ∃ ms, messages' = messages ++ ms ∧ Forall2 (λ inner m, wrapped id inner = Some m) msgs ms.
Proof.
  unfold wrap. revert messages. induction msgs as [|inner msgs IH]; intros messages E; simpl in E.
  { injection E as <-. exists []. by rewrite app_nil_r. }
  destruct (Marshal _) as [b|] eqn:Hb; [|done]. simpl in E. apply IH in E as (ms & -> & Hms).
  exists (mkMessage (msg_From inner) (msg_To inner) b [] :: ms). rewrite <-app_assoc. split; [done|].
  constructor; [|done]. unfold wrapped. by rewrite Hb.
Qed.

(** Replicator [id] has the messages that [ms] wrap. *)
Definition part d (id : Z) (ms : list Message) : Prop :=
  ∃ r rd r', r_replicators d !! id = Some r ∧ Peer.MakeReady r = Ret (rd, r') ∧
    Forall2 (λ inner m, wrapped id inner = Some m) (rd_Messages rd) ms.

Lemma accept_replicators id pkts d :
  keeps r_replicators (for_each pkts (accept id)) d.
Proof.
  apply keeps_for_each. intros pkt d1. unfold accept. destruct (x_NoExec pkt); simpl; [done|].
  apply keeps_bind; [done|]. intros ? ? _. by destruct (r_execPkts _ !! id).
Qed.

Lemma collect_one_messages id messages d :
  wp (collect_one id messages) (λ messages' d',
    (∃ ms, messages' = messages ++ ms ∧ part d id ms) ∧
    ∀ k, k ≠ id → r_replicators d' !! k = r_replicators d !! k) d.
Proof.
  unfold collect_one. wp_step. unfold wp at 1, on_replicator at 1.
  destruct (r_replicators d !! id) as [r|] eqn:Hk; [|done].
  destruct (Peer.MakeReady r) as [[rd r1]| |] eqn:Hrd; [|done..]. wp_step. wp_step.
  match goal with Hw : wrap _ _ _ = Ret _ |- _ => apply wrap_spec in Hw as (ms & -> & Hms) end.
  wp_step. eapply wp_mono; [apply accept_replicators|]. simpl. intros _ d1 E1. wp_step.
  unfold wp at 1, on_replicator. rewrite E1. cbn. rewrite lookup_insert_eq.
  destruct (Peer.ClearExecutedCommands r1) as [[[] r2]| |]; [|done..]. split.
  - exists ms. split; [done|]. by exists r, rd, r1.
  - intros k Hne. cbn. rewrite E1. cbn. by rewrite !lookup_insert_ne.
Qed.

Lemma collect_messages d0 ids messages d :
  NoDup ids → (∀ id, id ∈ ids → r_replicators d !! id = r_replicators d0 !! id) →
  wp (collect ids messages) (λ messages' _, ∃ parts,
    messages' = messages ++ concat parts ∧ Forall2 (part d0) ids parts) d.
Proof.
  intros Hnd. revert messages d. induction Hnd as [|id ids Hid Hnd IH]; intros messages d Hs; simpl.
  { wp_step. exists []. by rewrite app_nil_r. }
  wp_step. eapply wp_mono; [apply collect_one_messages|]. simpl.
  intros messages' d1 [(ms & -> & r & rd & r' & Hr & Hrd & Hms) Hk].
  eapply wp_mono; [apply IH|].
  - intros j Hj. rewrite Hk by (intros ->; done). apply Hs. by right.
  - simpl. intros messages' _ (parts & -> & Hp). exists (ms :: parts). simpl. rewrite <-app_assoc.
    split; [done|]. constructor; [|done]. exists r, rd, r'. rewrite <-Hs by left. done.
Qed.

Lemma MakeReady_messages d d' rd :
  MakeReady d = Ret (rd, d') →
  ∃ parts, rd_Messages rd = concat parts ∧ Forall2 (part d) (range (r_replicators d)).*1 parts.
Proof.
  intros E. assert (wp MakeReady (λ rd _, ∃ parts, rd_Messages rd = concat parts ∧
    Forall2 (part d) (range (r_replicators d)).*1 parts) d) as Hw; [|by apply (wp_run _ _ _ _ _ Hw E)].
  unfold MakeReady. wp_step. wp_step. wp_step. eapply wp_mono.
  { apply (collect_messages d); [|done]. rewrite range_perm. apply NoDup_fst_map_to_list. }
  simpl. intros messages d1 (parts & -> & Hp). wp_step. wp_step. wp_step.
  eapply (wp_mono _ (λ _ _, True)); [by unfold wp; destruct (when _ _ _) as [[]| |]|].
  intros _ d2 _. wp_steps. by exists parts.
Qed.
End rcc_messages.

Section rcc_properties.
Context `{MapRange, Codec RCCMessage} {P : Type} `{Protocol P} (other : P → P → Prop).

(** C13.  RCC composes its replicators: after any calls and any steps of the worker
    threads, every replicator [k] has made a run of its own protocol from the
    state made for leader [k]; what RCC has handed over and is to hand over is
    made of the packets of these runs, in the order of each of them; those that
    are not to be executed are passed on, and the others are released in rounds
    of one packet of every replicator, the rest waiting in the queues. *)
Theorem rcc_composes newReplicator id peers d0 h (d : RCC P) :
  NewRCC newReplicator id peers = Ret d0 → runs (rcc_other other) [] d0 h d →
  ∃ tagged rounds, h ++ r_globalOrderedCommands d = tagged.*2 ∧
    turns tagged = concat rounds ∧
    Forall (λ round, round ≡ₚ keys (r_replicators d0)) rounds ∧
    ∀ k r, r_replicators d !! k = Some r →
      k ∈ peers ∧ ∃ r0 hk q, newReplicator k = Ret r0 ∧ runs other [] r0 hk r ∧
        r_execPkts d !! k = Some q ∧ kind false hk = of_key k false tagged ++ q ∧
        kind true hk = of_key k true tagged ∧ length (of_key k false tagged) = length rounds.
Proof.
  intros Hn Hr. destruct (NewRCC_spec other _ _ _ _ Hn) as (Hi & _ & Hnew).
  apply (runs_inv _ _ _ _ _ _ (rcc_run_invariant other d0) Hr) in Hi as [Hdom Hdom0 Hrounds].
  destruct Hrounds as (tagged & rounds & Hh & Ht & Hrs & Hrep). rewrite app_nil_r in Ht.
  exists tagged, rounds. split_and!; [done..|]. intros k r Hk.
  destruct (Hrep k r Hk) as (r0 & hk & q & Hr0 & Hrun & Hq & Hf & Hno).
  destruct (Hnew k r0 Hr0) as [Hp Hmk]. split; [done|]. exists r0, hk, q. split_and!; try done.
  rewrite of_key_turns, Ht. eapply (length_rounds k (keys (r_replicators d0))); [apply NoDup_fst_map_to_list| |done].
  unfold keys. apply list_elem_of_fmap. exists (k, r0). by rewrite elem_of_map_to_list.
Qed.

(**  RCC messages round trip: what [MakeReady] returns to be sent are the
    messages of the replicators, one replicator after the other, each wrapped
    with its sender and receiver kept; and [Step] of any RCC replica hands the
    message in the wrapping to its own replicator for the same leader. *)
Theorem rcc_message_roundtrip (d d' : RCC P) rd :
  (∀ (rm : RCCMessage) b, Marshal rm = Some b → Unmarshal b = Some rm) →
  MakeReady d = Ret (rd, d') →
  ∃ parts, rd_Messages rd = concat parts ∧
    Forall2 (λ id ms, ∃ r rd1 r', r_replicators d !! id = Some r ∧ Peer.MakeReady r = Ret (rd1, r') ∧
      Forall2 (λ inner m, msg_From m = msg_From inner ∧ msg_To m = msg_To inner ∧
        ∀ d2 : RCC P, Rcc.Step m d2 = on_replicator id (Peer.Step inner) d2) (rd_Messages rd1) ms)
      (range (r_replicators d)).*1 parts.
Proof.
  intros Hcodec Hm. apply MakeReady_messages in Hm as (parts & Hc & Hp). exists parts. split; [done|].
  eapply Forall2_impl; [exact Hp|]. intros id ms (r & rd1 & r' & ? & ? & Hms). exists r, rd1, r'.
  split_and!; [done..|]. eapply Forall2_impl; [exact Hms|]. intros inner m Hw. unfold wrapped in Hw.
  destruct (Marshal _) as [b|] eqn:Hb; [|done]. injection Hw as <-. split_and!; [done..|].
  intros d2. unfold Rcc.Step. simpl. by rewrite (Hcodec _ _ Hb).
Qed.
End rcc_properties.

Module RccDemo.
Import Toy RuntimeDemo.
#[export] Instance wire_Message : Wire Message :=
  wire_iso (λ m, (msg_From m, msg_To m, msg_Content m, msg_Certificate m))
    (λ '(f, t, c, x), mkMessage f t c x) ltac:(by intros []).
#[export] Instance wire_RCCMessage : Wire RCCMessage :=
  wire_iso (λ m, (rm_Message m, rm_Kind m, rm_PeerID m)) (λ '(m, k, i), mkRCCMessage m k i)
    ltac:(by intros []).
#[export] Instance RCCMessage_codec : Codec RCCMessage := wire_codec wire_RCCMessage.

(** Two replicators that order every request at once. *)
Definition start : RCC Echo :=
  mkRCC 0 [0; 1]%Z {[0%Z := []; 1%Z := []]} {[0%Z := []; 1%Z := []]} [].
(** Two requests for replicator 0 and one for replicator 1. *)
Definition requests : list call :=
  [Call_Request (cmd 1 0); Call_Request (cmd 2 0); Call_Request (cmd 3 1)].
(** One step of the peer loop. *)
Definition take_ready (d : RCC Echo) : list ExecPacket * RCC Echo :=
  match MakeReady d with
  | Ret (rd, d) => (rd_OrderedCommands rd, d <| r_globalOrderedCommands := [] |>)
  | _ => ([], d)
  end.
Definition served : RCC Echo := do_calls requests start.
Definition hist : list ExecPacket := (take_ready served).1.
Definition final : RCC Echo := (take_ready served).2.

(** A protocol that sends every request on to replica 1. *)
Record Gossip := mkGossip { g_msgs : list Message }.
#[export] Instance Gossip_Protocol : Protocol Gossip := {|
  Peer.Step _ := mret tt;
  Peer.Tick := mret tt;
  Peer.Request c := modify (λ g, mkGossip (g_msgs g ++
    [mkMessage 0 1 (default [] (Marshal c)) []]));
  Peer.Callback _ := mret tt;
  Peer.MakeReady := gets (λ g, mkReady (g_msgs g) []);
  Peer.ClearMsgs := modify (λ _, mkGossip []);
  Peer.ClearExecutedCommands := mret tt;
  Peer.AsyncCallback := mret tt;
|}.
Definition gossip : RCC Gossip :=
  do_calls requests
    (mkRCC 0 [0; 1]%Z {[0%Z := mkGossip []; 1%Z := mkGossip []]} {[0%Z := []; 1%Z := []]} []).

Lemma new_rcc : NewRCC (λ _, Ret ([] : Echo)) 0 [0; 1]%Z = Ret start.
Proof. vm_compute. reflexivity. Qed.
Lemma served_run : runs (rcc_other (λ _ _ : Echo, False)) [] start hist final.
Proof.
  eapply runs_trans; [apply (runs_calls _ requests)|]. fold served.
  destruct (MakeReady served) as [[rd d1]| |] eqn:E; [|vm_compute in E; discriminate..].
  eapply (runs_ready _ false); [exact E|reflexivity|reflexivity|]. unfold hist, final, take_ready.
  rewrite E. apply runs_nil.
Qed.
End RccDemo.

Section rcc_order.
Import Toy RuntimeDemo RccDemo.

(** The order inside a round is the order in which Go happens to range over a
    map: after the same calls, under two of the orders that Go allows, RCC hands
    over the same commands in two orders. *)
Theorem rcc_order_unspecified :
  ∃ (order1 order2 : MapRange) cs,
    let deliveries o := match @MakeReady o RCCMessage_codec Echo Echo_Protocol
      (@do_calls _ (@RCC_Protocol o RCCMessage_codec Echo Echo_Protocol) cs start) with
      | Ret (rd, _) => rd_OrderedCommands rd | _ => [] end in
    deliveries order1 ≡ₚ deliveries order2 ∧ deliveries order1 ≠ deliveries order2.
Proof.
  exists map_range, rev_range, requests.
  assert (∀ l l' : list ExecPacket, bool_decide (l ≡ₚ l' ∧ l ≠ l') = true → l ≡ₚ l' ∧ l ≠ l') as Hb
    by (intros ??; apply bool_decide_eq_true).
  apply Hb. vm_compute. reflexivity.
Qed.
End rcc_order.

Section rcc_witnesses.
Import Toy RuntimeDemo RccDemo.

Lemma rcc_composes_witness :
  length hist = 2 ∧ ∃ tagged rounds, hist ++ r_globalOrderedCommands final = tagged.*2 ∧
    turns tagged = concat rounds.
Proof.
  split; [vm_compute; reflexivity|].
  destruct (rcc_composes (λ _ _ : Echo, False) (λ _, Ret ([] : Echo)) 0 [0; 1]%Z start hist final)
    as (tagged & rounds & Hh & Ht & _).
  - apply new_rcc.
  - apply served_run.
  - exists tagged, rounds. split; [exact Hh|exact Ht].
Defined.

Lemma rcc_message_roundtrip_witness :
  ∃ rd d' parts, MakeReady gossip = Ret (rd, d') ∧ rd_Messages rd = concat parts ∧
    length (rd_Messages rd) = 3.
Proof.
  destruct (MakeReady gossip) as [[rd d']| |] eqn:E; [|vm_compute in E; discriminate E..].
  destruct (rcc_message_roundtrip gossip d' rd) as (parts & Hp & _).
  - intros rm b Hb. apply wire_codec_law. exact Hb.
  - exact E.
  - exists rd, d', parts. split; [reflexivity|]. split; [exact Hp|].
    vm_compute in E. injection E as <- _. reflexivity.
Defined.
End rcc_witnesses.
