(* ===== verification/Sbft.v ===== *)
(** * SBFT (src/protocols/sbft)

    A linear protocol: the replica that proposes a command collects threshold
    signature shares from all the others, and broadcasts the aggregated
    signature, which commits the instance; the replicas send the results of the
    execution to a collector, which passes on the result that enough of them
    agree on.  One Rocq definition per Go function, in the state-and-panic monad
    [M sbft].

    The callbacks of the worker pools hold pointers to instances, and
    [onRequest] puts a new instance in the place of one that may be there: the
    instances live in a heap, and the log holds their addresses. *)
From S2P Require Import Prelude Command Worker Certifier Peer.
Import Worker (Dispatcher, NewDispatcher).

Module Sbft.

(** ** Data (sbftpb) *)
Definition InstanceState_None : Z := 0.
Definition InstanceState_Prepared : Z := 1.
Definition InstanceState_SignShared : Z := 2.
Definition InstanceState_Committed : Z := 3.
Definition InstanceState_Executed : Z := 5.

Definition NormalMessage_Prepare : Z := 1.
Definition NormalMessage_SignShare : Z := 2.
Definition NormalMessage_Commit : Z := 3.

Record InstanceState := mkIS {
  is_View : Z;
  is_Index : Z;
  is_Status : Z;
  is_Command : option Command;
  is_CommandHash : slice;
}.

Record NormalMessage := mkNM {
  m_View : Z;
  m_Index : Z;
  m_Type : Z;
  m_Command : option Command;
  m_CommandHash : slice;
}.

Record ResultMessage := mkRM { rm_Result : slice; rm_Id : Z }.

Inductive SBFTMessage :=
| SBFTMessage_Normal (m : NormalMessage)
| SBFTMessage_Result (m : ResultMessage)
| SBFTMessage_nil.

#[export] Instance InstanceState_eta : Eta InstanceState := λ s,
  mkIS (is_View s) (is_Index s) (is_Status s) (is_Command s) (is_CommandHash s).
#[export] Instance set_is_Status : Setter is_Status := ltac:(solve_setter).
#[export] Instance set_is_Command : Setter is_Command := ltac:(solve_setter).
#[export] Instance set_is_CommandHash : Setter is_CommandHash := ltac:(solve_setter).
#[export] Instance NormalMessage_eta : Eta NormalMessage := λ m,
  mkNM (m_View m) (m_Index m) (m_Type m) (m_Command m) (m_CommandHash m).
#[export] Instance set_m_Type : Setter m_Type := ltac:(solve_setter).
#[export] Instance set_m_Command : Setter m_Command := ltac:(solve_setter).
#[export] Instance set_m_CommandHash : Setter m_CommandHash := ltac:(solve_setter).

Definition IsPrepared (s : InstanceState) : bool := bool_decide (is_Status s = InstanceState_Prepared).
Definition IsCommitted (s : InstanceState) : bool := bool_decide (is_Status s = InstanceState_Committed).

Definition NormalMessage_Equals (m other : NormalMessage) : bool :=
  if bool_decide (m_View m ≠ m_View other) then false
  else if bool_decide (m_Index m ≠ m_Index other) then false
  else bytes_Equal (m_CommandHash m) (m_CommandHash other).
Definition ResultMessage_Equals (m other : ResultMessage) : bool :=
  if bool_decide (length (default [] (rm_Result m)) ≠ length (default [] (rm_Result other))) then false
  else bytes_Equal (rm_Result m) (rm_Result other).

(** ** Quorums (quorum.go, rquorum.go) *)
Abbreviation quorum := (gmap Z (gmap Z (NormalMessage * bytes))).
Definition newQuorum : quorum := ∅.
Definition quorum_log (id : Z) (m : NormalMessage) (sign : bytes) (q : quorum) : outcome quorum :=
  let msgs := default ∅ (q !! m_View m) in
  match msgs !! id with
  | None => Ret (<[m_View m := <[id := (m, sign)]> msgs]> q)
  | Some _ => Panic "multiple messages vcSender same replica"
  end.

(** The shares of the messages equal to [m]. *)
Definition equal_sigs (m : NormalMessage) (msgPairs : gmap Z (NormalMessage * bytes)) : gmap Z bytes :=
  snd <$> filter (λ x : Z * (NormalMessage * bytes), NormalMessage_Equals m x.2.1 = true) msgPairs.
Definition Majority (f c : Z) (m : NormalMessage) (q : quorum) : option (gmap Z bytes) :=
  match q !! m_View m with
  | None => None
  | Some msgPairs =>
      if bool_decide (Z.of_nat (size msgPairs) ≤ 3 * f + c)%Z then None
      else let sigs := equal_sigs m msgPairs in
           if bool_decide (3 * f + c < Z.of_nat (size sigs))%Z then Some sigs else None
  end.

Abbreviation rquorum := (gmap Z (gmap Z ResultMessage)).
Definition newRQuorum : rquorum := ∅.
Definition rquorum_log (from : Z) (m : ResultMessage) (q : rquorum) : outcome rquorum :=
  let msgs := default ∅ (q !! rm_Id m) in
  match msgs !! from with
  | None => Ret (<[rm_Id m := <[from := m]> msgs]> q)
  | Some _ => Panic "multiple messages vcSender same replica"
  end.
Definition rMajority (f : Z) (m : ResultMessage) (q : rquorum) : bool :=
  match q !! rm_Id m with
  | None => false
  | Some msgPairs =>
      if bool_decide (Z.of_nat (size msgPairs) ≤ f)%Z then false
      else bool_decide (f < Z.of_nat (size
             (filter (λ x : Z * ResultMessage, ResultMessage_Equals m x.2 = true) msgPairs)))%Z
  end.

(** ** The replica *)
Record instance := mkInstance { i_is : InstanceState; cCert : quorum }.
#[export] Instance instance_eta : Eta instance := λ i, mkInstance (i_is i) (cCert i).
#[export] Instance set_i_is : Setter i_is := ltac:(solve_setter).
#[export] Instance set_cCert : Setter cCert := ltac:(solve_setter).

(** The closures handed to the three pools: what they hold.  [a] is the address
    of the instance. *)
Inductive job :=
| SignShareJob (from : Z) (mBytes : bytes)
| AggregateJob (a : nat) (content : bytes) (majSigs : gmap Z bytes) (mBytes : bytes)
| VerifyJob (a : nat) (mBytes sign : bytes).

Record sbft := mkSbft {
  s_id : Z;
  s_nodes : list Z;
  s_heap : list instance;
  s_log : gmap Z nat;
  s_view : Z;
  s_index : Z;
  s_execIdx : Z;
  s_msgs : list Message;
  s_f : Z;
  s_c : Z;
  s_executedCmds : list ExecPacket;
  s_rQuorum : rquorum;
  s_signDispatcher : Dispatcher job;
  s_aggDispatcher : Dispatcher job;
  s_verifyDispatcher : Dispatcher job;
  s_callbackC : list (job * option bytes);
}.
#[export] Instance sbft_eta : Eta sbft := λ s,
  mkSbft (s_id s) (s_nodes s) (s_heap s) (s_log s) (s_view s) (s_index s) (s_execIdx s) (s_msgs s)
    (s_f s) (s_c s) (s_executedCmds s) (s_rQuorum s) (s_signDispatcher s) (s_aggDispatcher s)
    (s_verifyDispatcher s) (s_callbackC s).
#[export] Instance set_s_heap : Setter s_heap := ltac:(solve_setter).
#[export] Instance set_s_log : Setter s_log := ltac:(solve_setter).
#[export] Instance set_s_index : Setter s_index := ltac:(solve_setter).
#[export] Instance set_s_execIdx : Setter s_execIdx := ltac:(solve_setter).
#[export] Instance set_s_msgs : Setter s_msgs := ltac:(solve_setter).
#[export] Instance set_s_executedCmds : Setter s_executedCmds := ltac:(solve_setter).
#[export] Instance set_s_rQuorum : Setter s_rQuorum := ltac:(solve_setter).
#[export] Instance set_s_signDispatcher : Setter s_signDispatcher := ltac:(solve_setter).
#[export] Instance set_s_aggDispatcher : Setter s_aggDispatcher := ltac:(solve_setter).
#[export] Instance set_s_verifyDispatcher : Setter s_verifyDispatcher := ltac:(solve_setter).
#[export] Instance set_s_callbackC : Setter s_callbackC := ltac:(solve_setter).

Record Config := mkConfig {
  cfg_ID : Z;
  cfg_Peers : list Z;
  cfg_LeaderID : Z;
  cfg_MaxFailures : Z;
  cfg_MaxFastFailures : Z;
  cfg_Workers : gmap string nat;
  cfg_WorkersQueueSizes : gmap string nat;
}.

Definition has_workers (c : Config) (k : string) : outcome nat :=
  match cfg_Workers c !! k, cfg_WorkersQueueSizes c !! k with
  | Some n, Some _ => Ret n
  | _, _ => Panic "Worker count for key missing"
  end.

Definition NewSBFT (c : Config) : outcome sbft :=
  let f := Z.quot (Z.of_nat (length (cfg_Peers c)) - 2 * cfg_MaxFastFailures c - 1) 3 in
  if bool_decide (f < 1)%Z then Panic "Invalid failure count" else
  if bool_decide (f ≠ cfg_MaxFailures c) then Panic "Failures dont match" else
  signs ← has_workers c "tss_sign";
  aggs ← has_workers c "tss_agg";
  verifies ← has_workers c "tss_verify";
  Ret (mkSbft (cfg_ID c) (cfg_Peers c) [] ∅ (cfg_LeaderID c) 0 0 [] f (cfg_MaxFastFailures c) []
         newRQuorum (NewDispatcher signs) (NewDispatcher aggs) (NewDispatcher verifies) []).

Section sbft.
Context `{GoEnv, Codec Command, Codec SBFTMessage, Threshsign}.

(** *** Messaging (messaging.go) *)
Definition enqueueForSending (to : Z) (mm certificate : bytes) : M sbft unit :=
  modify (λ s, s <| s_msgs ::= λ l, l ++ [mkMessage (s_id s) to mm certificate] |>).
Definition marshall (m : SBFTMessage) : M sbft bytes :=
  match Marshal m with None => panic "unable to marshall" | Some mBytes => mret mBytes end.
Definition sendTo (to : Z) (mBytes sign : bytes) : M sbft unit := enqueueForSending to mBytes sign.
Definition broadcast (mBytes : bytes) (sendToSelf : bool) (sign : bytes) : M sbft unit :=
  s ← get;
  for_each (s_nodes s) (λ node,
    when (sendToSelf || bool_decide (node ≠ s_id s)) (enqueueForSending node mBytes sign)).

(** *** Instances *)
Definition makeInstance (m : NormalMessage) : instance :=
  mkInstance (mkIS (m_View m) (m_Index m) InstanceState_None (m_Command m) (m_CommandHash m)) newQuorum.

(** Through a pointer. *)
Definition get_inst (a : nat) : M sbft instance :=
  s ← get; match s_heap s !! a with None => panic "nil instance" | Some i => mret i end.
Definition upd_inst (a : nat) (g : instance → instance) : M sbft unit :=
  modify (λ s, s <| s_heap ::= alter g a |>).
Definition set_status (a : nat) (st : Z) : M sbft unit :=
  upd_inst a (λ i, i <| i_is ::= set is_Status (λ _, st) |>).

(** A new instance, filed at [idx]. *)
Definition new_inst (idx : Z) (i : instance) : M sbft nat :=
  s ← get;
  modify (λ s, s <| s_heap ::= λ h, h ++ [i] |> <| s_log ::= <[idx := length (s_heap s)]> |>);;
  mret (length (s_heap s)).

Definition updateCommand (m : NormalMessage) (inst : instance) : outcome instance :=
  match is_Command (i_is inst) with
  | Some c =>
      e ← Command_Equal c (m_Command m);
      if negb e then Panic "Different commands for same instance" else Ret inst
  | None => Ret (inst <| i_is ::= set is_Command (λ _, m_Command m) |>)
  end.
Definition updateCommandHash (m : NormalMessage) (inst : instance) : outcome instance :=
  match is_CommandHash (i_is inst) with
  | Some _ =>
      if negb (bytes_Equal (is_CommandHash (i_is inst)) (m_CommandHash m))
      then Panic "Different command hashes for same instance" else Ret inst
  | None => Ret (inst <| i_is ::= set is_CommandHash (λ _, m_CommandHash m) |>)
  end.

(** Nothing calls it. *)
Definition checkCommandHash (cmd : option Command) (hash : slice)
    : outcome (bool * option Command) :=
  '(compHash, cmd) ← Command_Hash_ptr cmd;
  Ret (bytes_Equal hash compHash, cmd).

(** The instance of a message, made or checked; its address. *)
Definition fetch_instance (checks : instance → outcome instance) (m : NormalMessage) : M sbft nat :=
  s ← get;
  match s_log s !! m_Index m with
  | None => new_inst (m_Index m) (makeInstance m)
  | Some a =>
      inst ← get_inst a;
      inst' ← lift (checks inst);
      upd_inst a (λ _, inst');;
      mret a
  end.

(** *** Execution (exec.go) *)
Definition Execute (cmd : Command) : M sbft unit :=
  modify (λ s, s <| s_executedCmds ::= λ l, l ++ [mkExecPacket cmd false None true false] |>).

Definition exec_body : M sbft bool :=
  s ← get;
  match s_log s !! s_execIdx s with
  | None => mret false
  | Some a =>
      inst ← get_inst a;
      match is_Command (i_is inst) with
      | Some cmd =>
          if negb (IsCommitted (i_is inst)) then mret false else
          Execute cmd;;
          modify (λ s, s <| s_execIdx ::= λ x, u64 (x + 1) |>);;
          upd_inst a (λ i, i <| i_is ::= λ st, st <| is_Command := None |>
                                          <| is_Status := InstanceState_Executed |> |>);;
          mret true
      | None => mret false
      end
  end.
(** Every round takes the command of an instance of the log. *)
Definition exec : M sbft unit := s ← get; loop (S (size (s_log s))) exec_body.

(** *** Agreement (instance.go) *)
Definition onPrepare (m : NormalMessage) (from : Z) : M sbft unit :=
  '(h, cmd) ← lift (Command_Hash_ptr (m_Command m));
  let m := m <| m_Command := cmd |> <| m_CommandHash := h |> in
  a ← fetch_instance (λ i, i ← updateCommand m i; updateCommandHash m i) m;
  inst ← get_inst a;
  if bool_decide (is_Status (i_is inst) = InstanceState_Committed) then exec else
  set_status a InstanceState_Prepared;;
  let ssm := mkNM (is_View (i_is inst)) (is_Index (i_is inst)) NormalMessage_SignShare None
               (is_CommandHash (i_is inst)) in
  mBytes ← marshall (SBFTMessage_Normal ssm);
  modify (λ s, s <| s_signDispatcher ::= Worker.Exec (SignShareJob from mBytes) |>).

Definition onSignShare (m : NormalMessage) (from : Z) (sign content : bytes) : M sbft unit :=
  a ← fetch_instance (updateCommandHash m) m;
  inst ← get_inst a;
  q ← lift (quorum_log from m sign (cCert inst));
  upd_inst a (λ i, i <| cCert := q |>);;
  s ← get;
  when (bool_decide (is_Status (i_is inst) < InstanceState_SignShared)%Z)
    (match Majority (s_f s) (s_c s) m q with
     | None => mret tt
     | Some majSigs =>
         set_status a InstanceState_SignShared;;
         let cm := mkNM (m_View m) (m_Index m) NormalMessage_Commit None (m_CommandHash m) in
         mBytes ← marshall (SBFTMessage_Normal cm);
         modify (λ s, s <| s_aggDispatcher ::= Worker.Exec (AggregateJob a content majSigs mBytes) |>)
     end).

(** The message marshalled is [m] with the type of a share. *)
Definition onCommit (m : NormalMessage) (from : Z) (sign : bytes) : M sbft unit :=
  a ← fetch_instance (updateCommandHash m) m;
  inst ← get_inst a;
  if bool_decide (InstanceState_Committed ≤ is_Status (i_is inst))%Z then exec else
  mBytes ← marshall (SBFTMessage_Normal (m <| m_Type := NormalMessage_SignShare |>));
  modify (λ s, s <| s_verifyDispatcher ::= Worker.Exec (VerifyJob a mBytes sign) |>).

Definition isPrimaryAtView (id view : Z) (s : sbft) : outcome bool :=
  l ← leader_of view (length (s_nodes s)); Ret (bool_decide (id = l)).

(** *** The pools

    What a worker computes; [None] is a panic of the enclave's wrapper, which
    stops the process. *)
Definition run_job (id : Z) (j : job) : option bytes :=
  match j with
  | SignShareJob _ mBytes => Some (ts_Sign (id + 1) mBytes)
  | AggregateJob _ content majSigs _ => ts_Aggregate content majSigs
  | VerifyJob _ mBytes sign => if ts_Verify mBytes sign then Some [] else None
  end.

(** The callback of a job. *)
Definition finish_job (j : job) (r : bytes) : M sbft unit :=
  match j with
  | SignShareJob from mBytes => sendTo from mBytes r
  | AggregateJob a _ _ mBytes =>
      broadcast mBytes false r;; set_status a InstanceState_Committed;; exec
  | VerifyJob a _ _ => set_status a InstanceState_Committed;; exec
  end.

Inductive pool := SignPool | AggPool | VerifyPool.
(** A step of a pool in a process that goes on. *)
Definition worker_step (cap : nat) (p : pool) (e : Worker.event) (s : sbft) : option sbft :=
  let run d := Worker.step (run_job (s_id s)) cap e d (s_callbackC s) in
  '(s, cbs) ← match p with
    | SignPool => '(d, cbs) ← run (s_signDispatcher s); Some (s <| s_signDispatcher := d |>, cbs)
    | AggPool => '(d, cbs) ← run (s_aggDispatcher s); Some (s <| s_aggDispatcher := d |>, cbs)
    | VerifyPool => '(d, cbs) ← run (s_verifyDispatcher s); Some (s <| s_verifyDispatcher := d |>, cbs)
    end;
  if forallb (λ jr, bool_decide (is_Some jr.2)) cbs then Some (s <| s_callbackC := cbs |>) else None.

Definition AsyncCallback_body : M sbft bool :=
  s ← get;
  match s_callbackC s with
  | [] => mret false
  | (j, r) :: rest =>
      modify (λ s, s <| s_callbackC := rest |>);;
      match r with
      | None => panic "enclave"
      | Some r => finish_job j r
      end;;
      mret true
  end.
Definition AsyncCallback : M sbft unit :=
  s ← get; loop (S (length (s_callbackC s))) AsyncCallback_body.

(** *** Requests (request.go) *)
Definition onRequest (cmd : Command) : M sbft unit :=
  s ← get;
  let index := s_index s in
  modify (λ s, s <| s_index := u64 (index + 1) |>);;
  new_inst index (mkInstance (mkIS (s_view s) index InstanceState_Prepared (Some cmd) None) newQuorum);;
  mBytes ← marshall (SBFTMessage_Normal (mkNM (s_view s) index NormalMessage_Prepare (Some cmd) None));
  broadcast mBytes true [].

(** *** The [Protocol] methods (sbft.go) *)
Definition stepResult (m : ResultMessage) (from : Z) : M sbft unit :=
  s ← get;
  q ← lift (rquorum_log from m (s_rQuorum s));
  modify (λ s, s <| s_rQuorum := q |>);;
  when (rMajority (s_f s) m q)
    (modify (λ s, s <| s_executedCmds ::= λ l,
       l ++ [mkExecPacket zero_Command false (rm_Result m) false true] |>)).

Definition stepNormal (m : NormalMessage) (from : Z) (sign content : bytes) : M sbft unit :=
  if decide (m_Type m = NormalMessage_Prepare) then onPrepare m from
  else if decide (m_Type m = NormalMessage_SignShare) then onSignShare m from sign content
  else if decide (m_Type m = NormalMessage_Commit) then onCommit m from sign
  else mret tt.

Definition Step (message : Message) : M sbft unit :=
  match Unmarshal (msg_Content message) with
  | None => panic "unmarshal"
  | Some (SBFTMessage_Normal m) =>
      stepNormal m (msg_From message) (msg_Certificate message) (msg_Content message)
  | Some (SBFTMessage_Result m) => stepResult m (msg_From message)
  | Some SBFTMessage_nil => panic "Unknown message type"
  end.

Definition Callback (message : ExecCallback) : M sbft unit :=
  s ← get;
  let msg := mkRM (Some (xc_Result message)) (c_Timestamp (xc_Cmd message)) in
  rid ← lift (if decide (s_nodes s = []) then Panic "integer divide by zero"
              else Ret (s_view s `mod` Z.of_nat (length (s_nodes s)))%Z);
  if bool_decide (s_id s ≠ rid)
  then mBytes ← marshall (SBFTMessage_Result msg); sendTo rid mBytes []
  else stepResult msg rid.

(** No timer is ever registered. *)
Definition Tick : M sbft unit := mret tt.
(** [command.TraceInfo = nil] *)
Definition Request (command : Command) : M sbft unit := onRequest (command <| c_TraceInfo := None |>).
Definition MakeReady : M sbft Ready := gets (λ s, mkReady (s_msgs s) (s_executedCmds s)).
Definition ClearMsgs : M sbft unit := modify (λ s, s <| s_msgs := [] |>).
Definition ClearExecutedCommands : M sbft unit := modify (λ s, s <| s_executedCmds := [] |>).

Definition hasStatus (idx status : Z) (s : sbft) : bool :=
  match s_log s !! idx ≫= λ a, s_heap s !! a with
  | Some inst => bool_decide (is_Status (i_is inst) = status)
  | None => false
  end.
Definition hasPrepared (idx : Z) (s : sbft) : bool := hasStatus idx InstanceState_Prepared s.
Definition hasExecuted (idx : Z) (s : sbft) : bool := hasStatus idx InstanceState_Executed s.

#[export] Instance sbft_Protocol : Protocol sbft := {|
  Peer.Step := Step;
  Peer.Tick := Tick;
  Peer.Request := Request;
  Peer.Callback := Callback;
  Peer.MakeReady := MakeReady;
  Peer.ClearMsgs := ClearMsgs;
  Peer.ClearExecutedCommands := ClearExecutedCommands;
  Peer.AsyncCallback := AsyncCallback;
|}.
End sbft.
End Sbft.
