(* ===== verification/SbftSafety.v ===== *)
(** * Agreement of the SBFT replicas that follow

    The invariant of a replica that no client sends requests to: the hash of an
    instance never changes once it is known, the shares it signs are for the
    hashes of its log, what is committed has a verified threshold signature, and
    the commands executed are those of the committed instances in the order of
    their indices. *)
From S2P Require Import Prelude Command Worker Certifier Peer Runs Sbft.
Import Sbft.

Section invariant.
Context `{GoEnv, Codec Command, Codec SBFTMessage, Threshsign}.
Context `{!GoEnvLaws, !ThreshsignLaws} (marshal_ok : ∀ c : Command, is_Some (Marshal c)).
Context (unmarshal_ok : ∀ (m : SBFTMessage) b, Marshal m = Some b → Unmarshal b = Some m).
Context (id : Z).
(** Hashes that are known to be in the log, by index. *)
Context (floor : gmap Z (list Byte.byte)).
Implicit Types (s : sbft) (inst : instance) (m : NormalMessage).

Definition hash_of inst : slice := is_CommandHash (i_is inst).
Definition find_inst (i : Z) s : option instance := s_log s !! i ≫= λ a, s_heap s !! a.

(** The message [m] is about an instance of index [i] and hash [h]; its hash may
    be missing. *)
Definition about m (i : Z) (h : slice) : Prop :=
  m_Index m = i ∧ (m_CommandHash m = None ∨ is_Some h ∧ m_CommandHash m ≈ h).
Definition says (b : list Byte.byte) (i : Z) (h : slice) : Prop :=
  ∃ m, Unmarshal b = Some (SBFTMessage_Normal m) ∧ about m i h.
(** A threshold signature that has been verified. *)
Definition proof (i : Z) (h : slice) : Prop := ∃ b sig, ts_Verify b sig = true ∧ says b i h.

Record inst_ok inst : Prop := {
  io_cmd cmd : is_Command (i_is inst) = Some cmd →
    ∃ h, (Command_Hash cmd).1 = Some h ∧ hash_of inst ≈ Some h ∧ is_Some (hash_of inst);
  io_committed : (InstanceState_Committed ≤ is_Status (i_is inst))%Z →
    proof (is_Index (i_is inst)) (hash_of inst);
}.

(** The bytes of a share for the hash [h] of the instance [i]. *)
Definition share (v i : Z) (h : list Byte.byte) (b : list Byte.byte) : Prop :=
  Marshal (SBFTMessage_Normal (mkNM v i NormalMessage_SignShare None (Some h))) = Some b.

Definition job_ok s (j : job) : Prop :=
  match j with
  | SignShareJob _ b => ∃ v i h inst, share v i h b ∧ find_inst i s = Some inst ∧ hash_of inst = Some h
  | AggregateJob a b _ _ | VerifyJob a b _ =>
      ∃ inst, s_heap s !! a = Some inst ∧ says b (is_Index (i_is inst)) (hash_of inst)
  end.
Definition callback_ok s (jr : job * option (list Byte.byte)) : Prop :=
  job_ok s jr.1 ∧ jr.2 = run_job id jr.1.

(** The packets that execute a command. *)
Definition executions (l : list ExecPacket) : list ExecPacket := filter (λ x, x_NoExec x = false) l.
Definition executed_ok s (i : Z) (pkt : ExecPacket) : Prop :=
  ∃ inst h, find_inst i s = Some inst ∧ (Command_Hash (x_Cmd pkt)).1 = Some h ∧
    hash_of inst ≈ Some h ∧ is_Some (hash_of inst) ∧ proof i (hash_of inst).

Definition jobs s : list job :=
  Worker.pending (s_signDispatcher s) ++ Worker.pending (s_aggDispatcher s) ++
  Worker.pending (s_verifyDispatcher s).

Record inv (before : list ExecPacket) s : Prop := {
  iv_id : s_id s = id;
  iv_log i a : s_log s !! i = Some a → ∃ inst, s_heap s !! a = Some inst ∧ is_Index (i_is inst) = i;
  iv_insts a inst : s_heap s !! a = Some inst → inst_ok inst;
  iv_floor i x : floor !! i = Some x → ∃ inst, find_inst i s = Some inst ∧ hash_of inst = Some x;
  iv_jobs j : j ∈ jobs s → job_ok s j;
  iv_callbacks jr : jr ∈ s_callbackC s → callback_ok s jr;
  iv_execIdx : s_execIdx s = u64 (Z.of_nat (length (executions (before ++ s_executedCmds s))));
  iv_executed k pkt : executions (before ++ s_executedCmds s) !! k = Some pkt →
    executed_ok s (u64 (Z.of_nat k)) pkt;
}.

(** What the invariant looks at. *)
Definition core s :=
  (s_id s, s_heap s, s_log s, s_execIdx s, s_executedCmds s,
   (s_signDispatcher s, s_aggDispatcher s, s_verifyDispatcher s, s_callbackC s)).

Lemma sbft_inv_core h s s' : core s' = core s → inv h s → inv h s'.
Proof.
  unfold core. intros [= E1 E2 E3 E4 E5 E6 E7 E8 E9] [].
  assert (∀ j, job_ok s' j ↔ job_ok s j) as Hj.
  { intros []; unfold job_ok, find_inst; by rewrite E2, ?E3. }
  split; unfold jobs, find_inst, executed_ok, find_inst, callback_ok in *;
    rewrite ?E1, ?E2, ?E3, ?E4, ?E5, ?E6, ?E7, ?E8, ?E9; try done.
  - intros j Hin. apply Hj. auto.
  - intros jr Hin. rewrite Hj. auto.
Qed.

(** ** Instances change only forward *)
Definition inst_le inst inst' : Prop :=
  is_Index (i_is inst') = is_Index (i_is inst) ∧ ∀ x, hash_of inst = Some x → hash_of inst' = Some x.

Lemma about_le m i h h' : (∀ x, h = Some x → h' = Some x) → about m i h → about m i h'.
Proof.
  intros Hh [? [?|[[x ->] Hx]]]; split; auto. right. by rewrite (Hh x eq_refl).
Qed.
Lemma says_le b i h h' : (∀ x, h = Some x → h' = Some x) → says b i h → says b i h'.
Proof. intros Hh (m & ? & ?). exists m. split; [done|]. by eapply about_le. Qed.
Lemma proof_le i h h' : (∀ x, h = Some x → h' = Some x) → proof i h → proof i h'.
Proof. intros Hh (b & sig & ? & ?). exists b, sig. split; [done|]. by eapply says_le. Qed.

(** The heap and the log grow. *)
Definition state_le s s' : Prop :=
  (∀ a inst, s_heap s !! a = Some inst → ∃ inst', s_heap s' !! a = Some inst' ∧ inst_le inst inst') ∧
  (∀ i a, s_log s !! i = Some a → s_log s' !! i = Some a).

Lemma find_le i s s' inst :
  state_le s s' → find_inst i s = Some inst → ∃ inst', find_inst i s' = Some inst' ∧ inst_le inst inst'.
Proof.
  intros [Hh Hl] (a & Ha & Hi)%bind_Some. destruct (Hh _ _ Hi) as (inst' & ? & ?).
  exists inst'. split; [|done]. unfold find_inst. by rewrite (Hl _ _ Ha).
Qed.

Lemma job_ok_le s s' j : state_le s s' → job_ok s j → job_ok s' j.
Proof.
  intros Hle. destruct j as [from b|a b sigs mb|a b sig]; simpl.
  - intros (v & i & h & inst & ? & Hf & Hh). destruct (find_le _ _ _ _ Hle Hf) as (inst' & ? & _ & Hx).
    exists v, i, h, inst'. split_and!; auto.
  - intros (inst & Hi & Hs). destruct Hle as [Hle _]. destruct (Hle _ _ Hi) as (inst' & ? & E & Hx).
    exists inst'. split; [done|]. rewrite E. by eapply says_le.
  - intros (inst & Hi & Hs). destruct Hle as [Hle _]. destruct (Hle _ _ Hi) as (inst' & ? & E & Hx).
    exists inst'. split; [done|]. rewrite E. by eapply says_le.
Qed.

Lemma executed_ok_le s s' i pkt : state_le s s' → executed_ok s i pkt → executed_ok s' i pkt.
Proof.
  intros Hle (inst & h & Hf & ? & He & [x Hx] & Hp).
  destruct (find_le _ _ _ _ Hle Hf) as (inst' & ? & _ & Hh). exists inst', h.
  rewrite Hx in *. rewrite (Hh x eq_refl). split_and!; eauto.
Qed.

(** The heap and the log are all that changes. *)
Definition rest s :=
  (s_id s, s_execIdx s, s_executedCmds s,
   (s_signDispatcher s, s_aggDispatcher s, s_verifyDispatcher s, s_callbackC s)).
Lemma inv_grow h s s' :
  rest s' = rest s → state_le s s' →
  (∀ i a, s_log s' !! i = Some a → ∃ inst, s_heap s' !! a = Some inst ∧ is_Index (i_is inst) = i) →
  (∀ a inst, s_heap s' !! a = Some inst → inst_ok inst) →
  inv h s → inv h s'.
Proof.
  unfold rest. intros [= E1 E2 E3 E4 E5 E6 E7] Hle Hlog Hinst []. split; try done.
  - by rewrite E1.
  - intros i x Hx. destruct (iv_floor0 i x Hx) as (inst & Hf & ?).
    destruct (find_le _ _ _ _ Hle Hf) as (inst' & ? & _ & Hh). eauto.
  - unfold jobs. rewrite E4, E5, E6. intros j Hj. eapply job_ok_le; eauto.
  - rewrite E7. intros jr Hj. destruct (iv_callbacks0 jr Hj). split; [by eapply job_ok_le|done].
  - by rewrite E2, E3.
  - rewrite E3. intros k pkt Hk. eapply executed_ok_le; eauto.
Qed.

(** ** Through a pointer *)
Lemma upd_inst_inv h s a g inst :
  s_heap s !! a = Some inst → inst_le inst (g inst) → inst_ok (g inst) → inv h s →
  wp (upd_inst a g) (λ _ s', inv h s' ∧ s_heap s' !! a = Some (g inst) ∧ s_log s' = s_log s) s.
Proof.
  intros Ha Hle Hok Hi. unfold upd_inst. wp_step. cbn.
  assert (alter g a (s_heap s) !! a = Some (g inst)) as Hg by by rewrite list_lookup_alter_eq, Ha.
  split_and!; [|done|done]. pose proof Hi as [? Hlog Hinst _ _ _ _ _].
  apply (inv_grow h s); [done| | | |done]; cbn.
  - split; [|done]. intros b inst' Hb. cbn. destruct (decide (a = b)) as [<-|Hne].
    + rewrite Hg. rewrite Ha in Hb. injection Hb as <-. eauto.
    + rewrite list_lookup_alter_ne by done. exists inst'. by repeat split.
  - intros i b Hb. destruct (Hlog i b Hb) as (inst' & Hb' & <-). destruct (decide (a = b)) as [<-|Hne].
    + rewrite Hg. rewrite Ha in Hb'. injection Hb' as <-. eexists. split; [done|]. apply Hle.
    + rewrite list_lookup_alter_ne by done. eauto.
  - intros b inst' Hb. destruct (decide (a = b)) as [<-|Hne].
    + rewrite Hg in Hb. by injection Hb as <-.
    + rewrite list_lookup_alter_ne in Hb by done. by eapply Hinst.
Qed.

Lemma new_inst_inv h s i inst :
  s_log s !! i = None → is_Index (i_is inst) = i → inst_ok inst → inv h s →
  wp (new_inst i inst) (λ a s', inv h s' ∧ s_log s' !! i = Some a ∧ s_heap s' !! a = Some inst) s.
Proof.
  intros Hn Hidx Hok Hi. unfold new_inst. wp_step. wp_step. wp_step. wp_step. wp_step. cbn.
  assert ((s_heap s ++ [inst]) !! length (s_heap s) = Some inst) as Hnew.
  { rewrite lookup_app_r by done. by rewrite Nat.sub_diag. }
  split_and!; [|by rewrite lookup_insert_eq|done]. pose proof Hi as [? Hlog Hinst _ _ _ _ _].
  apply (inv_grow h s); [done| | | |done]; cbn.
  - split; cbn.
    + intros b inst' Hb. exists inst'. split; [by apply lookup_app_l_Some|by repeat split].
    + intros j b Hb. rewrite lookup_insert_ne; [done|]. intros ->. by rewrite Hn in Hb.
  - intros j b. destruct (decide (i = j)) as [<-|Hne].
    + rewrite lookup_insert_eq. intros [= <-]. eauto.
    + rewrite lookup_insert_ne by done. intros Hb. destruct (Hlog j b Hb) as (inst' & ? & ?).
      exists inst'. split; [by apply lookup_app_l_Some|done].
  - intros b inst' Hb. apply lookup_app_Some in Hb as [Hb|[_ Hb]]; [by eapply Hinst|].
    apply list_lookup_singleton_Some in Hb as [_ <-]. done.
Qed.

(** ** The checks of a message *)
Definition checks_ok m (checks : instance → outcome instance) : Prop :=
  ∀ inst inst', checks inst = Ret inst' → is_Index (i_is inst) = m_Index m → inst_ok inst →
    inst_le inst inst' ∧ inst_ok inst' ∧ about m (m_Index m) (hash_of inst').

Lemma sbft_updateCommandHash_spec m inst inst' :
  updateCommandHash m inst = Ret inst' →
  i_is inst' = set is_CommandHash (λ _, hash_of inst') (i_is inst) ∧
  (∀ x, hash_of inst = Some x → hash_of inst' = Some x) ∧
  (m_CommandHash m = None ∨ is_Some (hash_of inst') ∧ m_CommandHash m ≈ hash_of inst').
Proof.
  unfold updateCommandHash. change (is_CommandHash (i_is inst)) with (hash_of inst).
  destruct (hash_of inst) as [x|] eqn:Hx.
  - destruct (bytes_Equal (Some x) (m_CommandHash m)) eqn:He; simpl; [|done]. intros [= <-].
    apply bytes_Equal_spec in He. rewrite Hx. split_and!; [|done|].
    + unfold hash_of in Hx. by destruct inst as [[] ?]; simpl in *; subst.
    + right. by split.
  - intros [= <-]. split_and!; [done|done|]. unfold hash_of; simpl.
    destruct (m_CommandHash m) eqn:Hm; [right|by left]. split; [by eexists|done].
Qed.

(** Setting a hash that was missing keeps the facts about the instance. *)
Lemma set_hash_ok inst inst' :
  i_is inst' = set is_CommandHash (λ _, hash_of inst') (i_is inst) →
  (∀ x, hash_of inst = Some x → hash_of inst' = Some x) →
  inst_ok inst → inst_le inst inst' ∧ inst_ok inst'.
Proof.
  intros E Hh [Hcmd Hcom]. split.
  - split; [by rewrite E|done].
  - split.
    + rewrite E. cbn. intros cmd Hc. destruct (Hcmd cmd Hc) as (h & ? & He & [x Hx]).
      exists h. rewrite Hx in He. rewrite (Hh x Hx). eauto.
    + rewrite E. cbn. intros Hs. eapply proof_le; [done|by apply Hcom].
Qed.

Lemma hash_checks m : checks_ok m (updateCommandHash m).
Proof.
  intros inst inst' (E & Hh & Hm)%sbft_updateCommandHash_spec Hidx Hok.
  destruct (set_hash_ok inst inst') as [? ?]; [done..|]. split_and!; [done..|by split].
Qed.

(** A [Prepare] with its hash computed. *)
Definition hashed m : Prop := ∃ cmd h, m_Command m = Some cmd ∧ (Command_Hash cmd).1 = Some h ∧
  m_CommandHash m = Some h.

Lemma prepare_checks m :
  hashed m → checks_ok m (λ i, i ← updateCommand m i; updateCommandHash m i).
Proof.
  intros (cmd & h & Hc & Hh & Hmh) inst inst'. unfold updateCommand.
  destruct (is_Command (i_is inst)) as [c|] eqn:Hcmd.
  - intros Hu. outcome_inv. repeat case_match; simplify_eq/=. intros. by eapply hash_checks.
  - simpl. intros (E & Hle & Hm)%sbft_updateCommandHash_spec Hidx [Hco Hcom].
    cbn in E. rewrite Hmh in Hm. destruct Hm as [?|[[x Hx] Hxe]]; [done|].
    split_and!.
    + split; [by rewrite E|done].
    + split; rewrite E; cbn.
      * rewrite Hc. intros ? [= <-]. exists h. rewrite Hx in *. by repeat split.
      * intros Hs. eapply proof_le; [|by apply Hcom]. done.
    + split; [done|]. right. rewrite Hmh. by split.
Qed.

Lemma sbft_makeInstance_ok m :
  (m_Command m = None ∨ hashed m) → inst_ok (makeInstance m) ∧ about m (m_Index m) (hash_of (makeInstance m)).
Proof.
  intros Hm. split; [split|]; cbn.
  - intros cmd Hc. destruct Hm as [Hm|(cmd' & h & Hc' & Hh & Hmh)]; [congruence|].
    rewrite Hc in Hc'. injection Hc' as <-. exists h. rewrite Hmh. by repeat split.
  - unfold InstanceState_Committed, InstanceState_None. lia.
  - split; [done|]. destruct (m_CommandHash m) as [x|] eqn:Hx; [right|by left].
    unfold hash_of. cbn. rewrite ?Hx. split; [by eexists|done].
Qed.

Lemma sbft_wp_get_inst a Q s :
  (∀ inst, s_heap s !! a = Some inst → Q inst s) → wp (get_inst a) Q s.
Proof.
  intros HQ. unfold get_inst. wp_step. wp_step. destruct (s_heap s !! a); [|done]. wp_step. by apply HQ.
Qed.

Lemma sbft_fetch_inv h checks m s :
  (m_Command m = None ∨ hashed m) → checks_ok m checks → inv h s →
  wp (fetch_instance checks m) (λ a s', inv h s' ∧ ∃ inst, s_log s' !! m_Index m = Some a ∧
    s_heap s' !! a = Some inst ∧ is_Index (i_is inst) = m_Index m ∧
    about m (m_Index m) (hash_of inst)) s.
Proof.
  intros Hm Hc Hi. unfold fetch_instance. wp_step. wp_step.
  destruct (s_log s !! m_Index m) as [a|] eqn:Hl.
  - destruct (iv_log _ _ Hi _ _ Hl) as (inst & Ha & Hidx). wp_step. apply sbft_wp_get_inst.
    rewrite Ha. intros ? [= <-]. wp_step. wp_step.
    match goal with Hr : checks inst = Ret _ |- _ => destruct (Hc _ _ Hr Hidx) as (Hle & Hok & Hab) end.
    { by eapply (iv_insts h s). }
    wp_step. eapply wp_mono; [by apply (upd_inst_inv h s a (λ _, a0) inst)|].
    simpl. intros _ s' (Hi' & Ha' & Hl'). wp_step. split; [done|]. exists a0.
    rewrite Hl'. split_and!; try done. destruct Hle as [-> _]. done.
  - destruct (sbft_makeInstance_ok m Hm) as [Hok Hab]. eapply wp_mono; [by apply new_inst_inv|].
    simpl. intros a s' (Hi' & Hl' & Ha'). split; [done|]. exists (makeInstance m). by split_and!.
Qed.

(** ** The pools *)
Lemma inv_jobs h s s' :
  inv h s → (s_id s', s_heap s', s_log s', s_execIdx s', s_executedCmds s') =
    (s_id s, s_heap s, s_log s, s_execIdx s, s_executedCmds s) →
  (∀ j, j ∈ jobs s' → job_ok s j) → (∀ jr, jr ∈ s_callbackC s' → callback_ok s jr) →
  inv h s'.
Proof.
  intros [] [= E1 E2 E3 E4 E5] Hj Hc.
  assert (state_le s s') as Hle.
  { split; rewrite ?E2, ?E3; [|done]. intros a inst ?. exists inst. by repeat split. }
  split; unfold find_inst, executed_ok, find_inst in *; rewrite ?E1, ?E2, ?E3, ?E4, ?E5; try done.
  - intros j Hin. eapply job_ok_le; eauto.
  - intros jr Hin. destruct (Hc jr Hin). split; [by eapply job_ok_le|done].
Qed.

Lemma elem_of_Exec {A} (j j' : A) d : j' ∈ Worker.pending (Worker.Exec j d) ↔ j' = j ∨ j' ∈ Worker.pending d.
Proof. rewrite Worker.Exec_pending. apply elem_of_cons. Qed.

#[local] Arguments Worker.Exec : simpl never.
#[local] Arguments Worker.pending : simpl never.

(** A job is given to one of the pools. *)
Lemma exec_job_inv h s j s' :
  inv h s → job_ok s j →
  s' = s <| s_signDispatcher ::= Worker.Exec j |> ∨ s' = s <| s_aggDispatcher ::= Worker.Exec j |> ∨
  s' = s <| s_verifyDispatcher ::= Worker.Exec j |> → inv h s'.
Proof.
  intros Hi Hj Hs. apply (inv_jobs h s); [done|by destruct Hs as [->|[->| ->]]| |].
  - intros j' Hin. assert (j' = j ∨ j' ∈ jobs s) as [->|?]; [|done|by apply (iv_jobs h s)].
    revert Hin. destruct Hs as [->|[->| ->]]; unfold jobs; cbn; rewrite !elem_of_app, elem_of_Exec; tauto.
  - intros jr. destruct Hs as [->|[->| ->]]; cbn; apply (iv_callbacks h s); done.
Qed.

Lemma sbft_worker_step_inv cap p e h s s' :
  worker_step cap p e s = Some s' → inv h s → inv h s'.
Proof.
  unfold worker_step. rewrite bind_Some. intros ([s1 cbs] & Hs1 & Hs') Hi.
  destruct (forallb _ cbs); [|done]. injection Hs' as <-. rewrite (iv_id _ _ Hi) in Hs1.
  assert ((s_id s1, s_heap s1, s_log s1, s_execIdx s1, s_executedCmds s1) =
      (s_id s, s_heap s, s_log s, s_execIdx s, s_executedCmds s) ∧
    (∀ j, j ∈ jobs s1 → j ∈ jobs s) ∧
    ∀ jr, jr ∈ cbs → jr ∈ s_callbackC s ∨ jr.1 ∈ jobs s ∧ jr.2 = run_job id jr.1) as (E & Hj & Hc).
  { unfold jobs. destruct p; apply bind_Some in Hs1 as ([d cbs'] & Hw & [= <- <-]);
      apply Worker.step_jobs in Hw as [Hp Hc]; (split; [done|]); cbn; (split;
      [intros j; rewrite !elem_of_app; naive_solver
      |intros jr [?|[? ?]]%Hc; [by left|right; split; [rewrite !elem_of_app; tauto|done]]]). }
  apply (inv_jobs h s); [done|done| |].
  - intros j Hin. apply (iv_jobs h s Hi), Hj, Hin.
  - intros jr Hin. cbn in Hin. destruct (Hc jr Hin) as [?|[? ?]]; [by apply (iv_callbacks h s)|].
    split; [by apply (iv_jobs h s)|done].
Qed.

(** ** Execution *)
Lemma executions_snoc l pkt :
  executions (l ++ [pkt]) = executions l ++ (if decide (x_NoExec pkt = false) then [pkt] else []).
Proof. unfold executions. rewrite filter_app. rewrite filter_cons. by repeat case_decide. Qed.

Lemma execute_inv h s a inst cmd :
  s_log s !! s_execIdx s = Some a → s_heap s !! a = Some inst → is_Command (i_is inst) = Some cmd →
  IsCommitted (i_is inst) = true → inv h s →
  inv h (s <| s_executedCmds ::= λ l, l ++ [mkExecPacket cmd false None true false] |>
           <| s_execIdx ::= λ x, u64 (x + 1) |>).
Proof.
  intros Hl Ha Hc Hst Hi. pose proof Hi as [Hid Hlog Hinst Hfl Hj Hcb Hx He].
  destruct (Hlog _ _ Hl) as (inst' & Ha' & Hidx). rewrite Ha in Ha'. injection Ha' as <-.
  destruct (Hinst _ _ Ha) as [Hcmd Hcom].
  apply bool_decide_eq_true in Hst. rewrite Hidx in Hcom.
  assert (proof (s_execIdx s) (hash_of inst)) as Hp by (apply Hcom; rewrite Hst; done).
  destruct (Hcmd cmd Hc) as (x & Hxc & Hxe & Hxs).
  split; try done; cbn; rewrite app_assoc, executions_snoc, decide_True by done.
  - rewrite length_app, Hx. simpl. unfold u64. rewrite Zplus_mod_idemp_l. f_equal. lia.
  - intros k pkt [Hk|[Hk Hpk]]%lookup_app_Some.
    + by apply He.
    + apply list_lookup_singleton_Some in Hpk as [Hz <-].
      assert (u64 (Z.of_nat k) = s_execIdx s) as ->.
      { rewrite Hx. do 2 f_equal. lia. }
      exists inst, x. split_and!; try done. unfold find_inst. cbn. by rewrite Hl.
Qed.

Lemma sbft_exec_body_inv h s : inv h s → wp exec_body (λ _, inv h) s.
Proof.
  intros Hi. unfold exec_body. wp_step. wp_step. destruct (s_log s !! s_execIdx s) as [a|] eqn:Hl; [|done].
  wp_step. apply sbft_wp_get_inst. intros inst Ha. destruct (is_Command (i_is inst)) as [cmd|] eqn:Hc; [|done].
  wp_step; [done|]. unfold Execute. wp_step. wp_step. wp_step. wp_step. wp_step.
  match goal with Hb : negb (IsCommitted _) = false |- _ => apply negb_false_iff in Hb; rename Hb into Hst end.
  pose proof (execute_inv _ _ _ _ _ Hl Ha Hc Hst Hi) as Hi1. eapply wp_mono.
  { match goal with |- wp (upd_inst a ?g) _ ?s1 => apply (upd_inst_inv h s1 a g inst Ha); [|split|exact Hi1] end; cbn.
    - by repeat split.
    - done.
    - intros _. destruct (iv_insts _ _ Hi _ _ Ha) as [_ Hcom]. apply Hcom.
      apply bool_decide_eq_true in Hst. by rewrite Hst. }
  simpl. intros _ s' [? _]. by wp_step.
Qed.

Lemma sbft_exec_inv h s : inv h s → wp exec (λ _, inv h) s.
Proof.
  intros Hi. unfold exec. wp_step. wp_step. apply (wp_loop (inv h)); [|done]. intros s1 Hi1.
  eapply wp_mono; [by apply sbft_exec_body_inv|]. by intros [].
Qed.

(** ** The handlers *)
Lemma set_status_inv h s a inst st :
  s_heap s !! a = Some inst →
  ((InstanceState_Committed ≤ st)%Z → proof (is_Index (i_is inst)) (hash_of inst)) → inv h s →
  wp (set_status a st) (λ _ s', inv h s' ∧ s_log s' = s_log s ∧
    ∃ inst', s_heap s' !! a = Some inst' ∧ i_is inst' = i_is inst <| is_Status := st |>) s.
Proof.
  intros Ha Hst Hi. unfold set_status. eapply wp_mono.
  { match goal with |- wp (upd_inst a ?g) _ _ => apply (upd_inst_inv h s a g inst Ha); [by repeat split| |done] end.
    destruct (iv_insts _ _ Hi _ _ Ha) as [Hcmd _]. split; [exact Hcmd|exact Hst]. }
  simpl. intros _ s' (? & Ha' & ?). split_and!; try done. eexists. split; [exact Ha'|done].
Qed.

Lemma wp_marshall (x : SBFTMessage) (Q : list Byte.byte → sbft → Prop) s :
  (∀ b, Marshal x = Some b → Q b s) → wp (marshall x) Q s.
Proof. intros HQ. unfold marshall. destruct (Marshal x); [|done]. wp_step. by apply HQ. Qed.

Lemma sbft_onPrepare_inv h m from s : inv h s → wp (onPrepare m from) (λ _, inv h) s.
Proof.
  intros Hi. unfold onPrepare. wp_step. apply wp_lift. intros [x cmd] Hh. cbv beta.
  assert (hashed (m <| m_Command := cmd |> <| m_CommandHash := x |>)) as Hhashed.
  { unfold Command_Hash_ptr in Hh. destruct (m_Command m) as [c|]; [|done].
    destruct (Command_Hash c) as [h1 c1] eqn:Hc1. injection Hh as <- <-.
    destruct (marshal_ok (c <| c_TraceInfo := None |>)) as [b Hb].
    unfold Command_Hash in Hc1. rewrite Hb in Hc1. injection Hc1 as <- <-.
    exists c, (sha256 b). unfold Command_Hash. rewrite Hb. by destruct c. }
  set (m' := m <| m_Command := cmd |> <| m_CommandHash := x |>) in *.
  wp_step. eapply wp_mono; [apply (sbft_fetch_inv h _ m'); [by right|by apply prepare_checks|done]|].
  simpl. intros a s1 (Hi1 & inst & Hl & Ha & Hidx & Hab). wp_step. apply sbft_wp_get_inst.
  rewrite Ha. intros ? [= <-]. wp_step; [by apply sbft_exec_inv|]. wp_step. eapply wp_mono.
  { apply (set_status_inv h s1 a inst); [done| |done]. by intros ?. }
  simpl. intros _ s2 (Hi2 & Hl2 & inst2 & Ha2 & E2). wp_step. apply wp_marshall. intros b Hb.
  wp_step. eapply exec_job_inv; [exact Hi2| |by left].
  destruct Hhashed as (c & y & _ & _ & Hy). destruct Hab as [_ [Hn|[[z Hz] _]]]; [congruence|].
  exists (is_View (i_is inst)), (m_Index m), z, inst2. unfold share. unfold hash_of in Hz. split_and!.
  - by rewrite Hidx, Hz in Hb.
  - unfold find_inst. by rewrite Hl2, Hl.
  - unfold hash_of. by rewrite E2.
Qed.

(** Changing the shares collected for an instance. *)
Lemma upd_cCert_inv h s a inst q :
  s_heap s !! a = Some inst → inv h s →
  wp (upd_inst a (λ i, i <| cCert := q |>)) (λ _ s', inv h s' ∧ s_log s' = s_log s ∧
    ∃ inst', s_heap s' !! a = Some inst' ∧ i_is inst' = i_is inst) s.
Proof.
  intros Ha Hi. eapply wp_mono.
  { match goal with |- wp (upd_inst a ?g) _ _ => apply (upd_inst_inv h s a g inst Ha); [by repeat split| |done] end.
    destruct (iv_insts _ _ Hi _ _ Ha) as [Hcmd Hcom]. split; [exact Hcmd|exact Hcom]. }
  simpl. intros _ s' (? & Ha' & ?). split_and!; try done. eexists. split; [exact Ha'|done].
Qed.

Lemma sbft_onSignShare_inv h m from sign content s :
  m_Command m = None → Unmarshal content = Some (SBFTMessage_Normal m) → inv h s →
  wp (onSignShare m from sign content) (λ _, inv h) s.
Proof.
  intros Hn Hc Hi. unfold onSignShare. wp_step. eapply wp_mono.
  { apply (sbft_fetch_inv h _ m); [by left|apply hash_checks|done]. }
  simpl. intros a s1 (Hi1 & inst & Hl & Ha & Hidx & Hab). wp_step. apply sbft_wp_get_inst.
  rewrite Ha. intros ? [= <-]. wp_step. apply wp_lift. intros q _. wp_step.
  eapply wp_mono; [by apply (upd_cCert_inv h s1 a inst)|].
  simpl. intros _ s2 (Hi2 & _ & inst2 & Ha2 & E2). wp_step. wp_step. wp_step; [|done].
  destruct (Majority _ _ _ _) as [majSigs|]; [|done]. wp_step. eapply wp_mono.
  { apply (set_status_inv h s2 a inst2); [done| |done].
    by unfold InstanceState_Committed, InstanceState_SignShared. }
  simpl. intros _ s3 (Hi3 & _ & inst3 & Ha3 & E3). wp_step. apply wp_marshall. intros b Hb.
  wp_step. eapply exec_job_inv; [exact Hi3| |by right; left].
  exists inst3. split; [done|]. exists m. split; [done|].
  unfold hash_of. rewrite E3, E2. cbn. by rewrite Hidx.
Qed.

Lemma sbft_onCommit_inv h m from sign s :
  m_Command m = None → inv h s → wp (onCommit m from sign) (λ _, inv h) s.
Proof.
  intros Hn Hi. unfold onCommit. wp_step. eapply wp_mono.
  { apply (sbft_fetch_inv h _ m); [by left|apply hash_checks|done]. }
  simpl. intros a s1 (Hi1 & inst & Hl & Ha & Hidx & Hab). wp_step. apply sbft_wp_get_inst.
  rewrite Ha. intros ? [= <-]. wp_step; [by apply sbft_exec_inv|]. wp_step. apply wp_marshall.
  intros b Hb. wp_step. eapply exec_job_inv; [exact Hi1| |by right; right].
  exists inst. split; [done|]. eexists. split; [by apply unmarshal_ok|]. by rewrite Hidx.
Qed.

Lemma sbft_msgs_inv h s (g : list Message → list Message) : inv h s → inv h (s <| s_msgs ::= g |>).
Proof. by apply sbft_inv_core. Qed.

Lemma sbft_broadcast_core mBytes self sign s : keeps core (broadcast mBytes self sign) s.
Proof. unfold broadcast, enqueueForSending. keeps_steps. Qed.

(** A certificate has been verified for the instance. *)
Lemma commit_inv h s a inst b sig :
  s_heap s !! a = Some inst → says b (is_Index (i_is inst)) (hash_of inst) → ts_Verify b sig = true →
  inv h s → wp (set_status a InstanceState_Committed;; exec) (λ _, inv h) s.
Proof.
  intros Ha Hs Hv Hi. wp_step. eapply wp_mono.
  { apply (set_status_inv h s a inst); [done| |done]. intros _. by exists b, sig. }
  simpl. intros _ s1 [Hi1 _]. by apply sbft_exec_inv.
Qed.

Lemma finish_job_inv h j r s :
  job_ok s j → run_job id j = Some r → inv h s → wp (finish_job j r) (λ _, inv h) s.
Proof.
  intros Hj Hr Hi. destruct j as [from b|a b sigs mb|a b sig]; simpl in *.
  - unfold sendTo, enqueueForSending. wp_step. by apply sbft_msgs_inv.
  - destruct Hj as (inst & Ha & Hs). wp_step. eapply wp_mono; [apply sbft_broadcast_core|].
    simpl. intros _ s1 E. pose proof (sbft_inv_core h s s1 E Hi) as Hi1. injection E as _ E _ _ _ _ _ _ _.
    rewrite <-E in Ha. eapply commit_inv; [done..| |done]. by eapply ts_aggregate_verifies.
  - destruct Hj as (inst & Ha & Hs). destruct (ts_Verify b sig) eqn:Hv; [|done]. by eapply commit_inv.
Qed.

Lemma sbft_AsyncCallback_body_inv h s : inv h s → wp AsyncCallback_body (λ _, inv h) s.
Proof.
  intros Hi. unfold AsyncCallback_body. wp_step. wp_step.
  destruct (s_callbackC s) as [|[j r] cbs] eqn:Hcb; [done|]. wp_step. wp_step. wp_step.
  assert (∀ jr, jr ∈ (j, r) :: cbs → callback_ok s jr) as Hok by (rewrite <-Hcb; apply (iv_callbacks h s Hi)).
  eapply (wp_mono _ (λ _, inv h)); [|simpl; intros [] s1 Hi1; by wp_step].
  destruct (Hok (j, r) ltac:(by left)) as [Hj Hr]. simpl in Hj, Hr.
  destruct r as [r|]; [|done]. apply finish_job_inv; [done|done|].
  apply (inv_jobs h s); [done|done|apply (iv_jobs h s Hi)|]. cbn. intros jr ?. apply Hok. by right.
Qed.

Lemma sbft_AsyncCallback_inv h s : inv h s → wp AsyncCallback (λ _, inv h) s.
Proof.
  intros Hi. unfold AsyncCallback. wp_step. wp_step. apply (wp_loop (inv h)); [|done]. intros s1 Hi1.
  eapply wp_mono; [by apply sbft_AsyncCallback_body_inv|]. by intros [].
Qed.

Lemma stepResult_inv h (rm : ResultMessage) from s : inv h s → wp (stepResult rm from) (λ _, inv h) s.
Proof.
  intros Hi. unfold stepResult. wp_step. wp_step. wp_step. wp_step. wp_step. wp_step.
  assert (inv h (s <| s_rQuorum := a |>)) as Hi1 by by apply (sbft_inv_core h s).
  wp_step; [|done]. wp_step. destruct Hi1 as [? ? ? ? ? ? Hx He]. split; try done; cbn in *;
    rewrite app_assoc, executions_snoc; simpl; by rewrite app_nil_r.
Qed.

(** A share or a commit carries no command. *)
Definition plain (content : list Byte.byte) : Prop := ∀ m,
  Unmarshal content = Some (SBFTMessage_Normal m) → m_Type m ≠ NormalMessage_Prepare → m_Command m = None.
(** No request comes, and the messages are as the replicas build them. *)
Definition follows (c : call) : Prop :=
  match c with
  | Call_Request _ => False
  | Call_Step msg => plain (msg_Content msg)
  | _ => True
  end.
(** A step of one of the three pools. *)
Definition pools_step (cap : nat) s s' : Prop := ∃ p e, worker_step cap p e s = Some s'.

Lemma sbft_Step_inv h msg s : plain (msg_Content msg) → inv h s → wp (Step msg) (λ _, inv h) s.
Proof.
  intros Hp Hi. unfold Step. destruct (Unmarshal (msg_Content msg)) as [[m|m|]|] eqn:Hu; [| |done..].
  - specialize (Hp _ Hu). unfold stepNormal. repeat case_decide; [by apply sbft_onPrepare_inv|..|done].
    + apply sbft_onSignShare_inv; [by apply Hp|done..].
    + apply sbft_onCommit_inv; [by apply Hp|done].
  - by apply stepResult_inv.
Qed.

Lemma sbft_Callback_inv h cb s : inv h s → wp (Callback cb) (λ _, inv h) s.
Proof.
  intros Hi. unfold Callback. wp_step. wp_step. wp_step. wp_step. wp_step; [|by apply stepResult_inv].
  wp_step. apply wp_marshall. intros b _. unfold sendTo, enqueueForSending. wp_step. by apply sbft_msgs_inv.
Qed.

Lemma sbft_invariant cap : invariant_with (pools_step cap) follows inv.
Proof.
  split.
  - intros [msg|c| |cb| |] h s Hf Hi; simpl.
    + by apply sbft_Step_inv.
    + done.
    + by unfold Tick; wp_step.
    + by apply sbft_Callback_inv.
    + by apply sbft_AsyncCallback_inv.
    + unfold ClearMsgs. wp_step. by apply (sbft_inv_core h s).
  - intros h s s' (p & e & Hw) Hi. by eapply sbft_worker_step_inv.
  - intros h s Hi. simpl. unfold MakeReady. wp_step. intros sent.
    assert (inv (h ++ s_executedCmds s) (s <| s_executedCmds := [] |>)) as Hi1.
    { destruct Hi as [? ? ? ? ? ? Hx He]. split; cbn; try done; rewrite app_nil_r; done. }
    unfold ClearMsgs, ClearExecutedCommands. wp_step. wp_step; wp_step; [wp_step|done].
    by eapply sbft_inv_core, Hi1.
Qed.
End invariant.

(** ** From the first state *)
#[local] Arguments Worker.NewDispatcher : simpl never.
Section start.
Context `{GoEnv, Codec Command, Codec SBFTMessage, Threshsign}.
Context `{!GoEnvLaws, !ThreshsignLaws} (marshal_ok : ∀ c : Command, is_Some (Marshal c)).
Context (unmarshal_ok : ∀ (m : SBFTMessage) b, Marshal m = Some b → Unmarshal b = Some m).

Lemma NewSBFT_inv c s : NewSBFT c = Ret s → inv (cfg_ID c) ∅ [] s.
Proof.
  unfold NewSBFT, has_workers. intros Hn. repeat (case_match; try done); simpl in Hn. simplify_eq/=.
  split; try done; cbn.
  - intros j. unfold jobs. cbn. rewrite !Worker.NewDispatcher_pending. by intros ?%not_elem_of_nil.
  - by intros jr ?%not_elem_of_nil.
Qed.

(** A hash that is in the log stays there. *)
Lemma inv_floor id h s i inst x :
  inv id ∅ h s → find_inst i s = Some inst → hash_of inst = Some x → inv id {[i := x]} h s.
Proof.
  intros [] Hf Hx. split; try done. intros j y [<- <-]%lookup_singleton_Some. eauto.
Qed.
Lemma inv_no_floor id floor h s : inv id floor h s → inv id ∅ h s.
Proof. intros []. by split. Qed.

Lemma hash_stays cap c h1 s1 h2 s2 i inst x :
  inv (cfg_ID c) ∅ h1 s1 → runs_with (pools_step cap) follows h1 s1 h2 s2 →
  find_inst i s1 = Some inst → hash_of inst = Some x →
  ∃ inst', find_inst i s2 = Some inst' ∧ hash_of inst' = Some x.
Proof.
  intros Hi Hr Hf Hx. pose proof (inv_floor _ _ _ _ _ _ Hi Hf Hx) as Hi1.
  apply (runs_with_inv _ _ _ _ _ _ _ (sbft_invariant marshal_ok unmarshal_ok _ _ cap) Hr) in Hi1.
  apply (iv_floor _ _ _ _ Hi1). apply lookup_singleton_eq.
Qed.
End start.
