(* ===== verification/SbftProps.v ===== *)
(** * The properties of SBFT

    Agreement of the replicas that follow, from the invariant of SbftSafety.v;
    the termination of the calls; and what the handlers accept that they should
    not, at concrete runs. *)
From S2P Require Import Prelude Command Worker Certifier Peer Runs Quorum Wire Sbft SbftSafety.
From Stdlib Require Import Strings.Byte.
Import Sbft.

(** ** Termination *)
Section ends.
Context `{GoEnv, Codec Command, Codec SBFTMessage, Threshsign}.
Implicit Types (s : sbft).

(** The instances of the log that still have a command. *)
Definition has_command s (a : nat) : bool :=
  match s_heap s !! a with Some i => bool_decide (is_Some (is_Command (i_is i))) | None => false end.
Definition commands_of s : nat := size (filter (λ x : Z * nat, has_command s x.2 = true) (s_log s)).

Lemma commands_of_log s : commands_of s ≤ size (s_log s).
Proof. apply map_size_filter. Qed.

(** Taking the command of an instance of the log. *)
Lemma commands_of_take s i a inst g :
  s_log s !! i = Some a → s_heap s !! a = Some inst → is_Some (is_Command (i_is inst)) →
  is_Command (i_is (g inst)) = None →
  ∀ s', s_log s' = s_log s → s_heap s' = alter g a (s_heap s) → commands_of s' < commands_of s.
Proof.
  intros Hl Ha Hc Hg s' El Eh.
  assert (has_command s' a = false) as Hn.
  { unfold has_command. rewrite Eh, list_lookup_alter_eq, Ha. simpl. by rewrite Hg. }
  unfold commands_of. rewrite El. apply map_subset_size, (strict_spec_alt (R := (⊆))). split.
  - apply map_filter_strong_subseteq_ext. intros j b [Hb Hlb]. simpl in *. split; [|done].
    destruct (decide (b = a)) as [->|Hne]; [by rewrite Hb in Hn|].
    revert Hb. unfold has_command. by rewrite Eh, list_lookup_alter_ne.
  - intros E. assert (filter (λ x : Z * nat, has_command s x.2 = true) (s_log s) !! i = Some a) as Hf.
    { apply map_lookup_filter_Some. split; [done|]. simpl. unfold has_command. rewrite Ha.
      by apply bool_decide_eq_true. }
    rewrite <-E in Hf. apply map_lookup_filter_Some in Hf as [_ Hf]. simpl in Hf. congruence.
Qed.

Lemma sbft_get_inst_ends a s : ends (get_inst a) s.
Proof. unfold get_inst. ends_steps. Qed.
Lemma upd_inst_ends a g s : ends (upd_inst a g) s.
Proof. unfold upd_inst. ends_steps. Qed.
#[local] Hint Resolve sbft_get_inst_ends upd_inst_ends : go_ends.

Lemma sbft_exec_ends s : ends exec s.
Proof.
  change (ends (loop (S (size (s_log s))) exec_body) s). apply (loop_ends (λ _, True) commands_of); [|done|].
  - intros s1 _. split; unfold exec_body, Execute; [ends_steps|]. wp_step. wp_step.
    destruct (s_log s1 !! s_execIdx s1) as [a|] eqn:Hl; [|by wp_step]. wp_step. apply sbft_wp_get_inst.
    intros inst Ha. destruct (is_Command (i_is inst)) as [cmd|] eqn:Hc; [|by wp_step].
    wp_step; [by wp_step|]. unfold upd_inst. wp_steps. intros _. split; [done|].
    eapply (commands_of_take s1 _ a inst); [done..| | |reflexivity|reflexivity]; [by rewrite Hc|done].
  - apply Nat.lt_succ_r, commands_of_log.
Qed.
Lemma sbft_enqueue_ends to mm cert s : ends (enqueueForSending to mm cert) s.
Proof. unfold enqueueForSending. ends_steps. Qed.
Lemma sbft_marshall_ends m s : ends (marshall m) s.
Proof. unfold marshall. ends_steps. Qed.
#[local] Hint Resolve sbft_exec_ends sbft_enqueue_ends sbft_marshall_ends : go_ends.
Lemma sbft_broadcast_ends mBytes self sign s : ends (broadcast mBytes self sign) s.
Proof. unfold broadcast. ends_steps. Qed.
Lemma new_inst_ends i inst s : ends (new_inst i inst) s.
Proof. unfold new_inst. ends_steps. Qed.
Lemma sbft_set_status_ends a st s : ends (set_status a st) s.
Proof. apply upd_inst_ends. Qed.
#[local] Hint Resolve sbft_broadcast_ends new_inst_ends sbft_set_status_ends : go_ends.

Lemma sbft_updateCommand_ends m i : updateCommand m i ≠ Diverge.
Proof. unfold updateCommand. ends_steps. Qed.
Lemma sbft_updateCommandHash_ends m i : updateCommandHash m i ≠ Diverge.
Proof. unfold updateCommandHash. ends_steps. Qed.
Lemma sbft_quorum_log_ends id m sign q : quorum_log id m sign q ≠ Diverge.
Proof. unfold quorum_log. ends_steps. Qed.
Lemma rquorum_log_ends from m q : rquorum_log from m q ≠ Diverge.
Proof. unfold rquorum_log. ends_steps. Qed.
#[local] Hint Resolve sbft_updateCommand_ends sbft_updateCommandHash_ends sbft_quorum_log_ends
  rquorum_log_ends : go_ends.
Lemma sbft_fetch_ends checks m s : (∀ i, checks i ≠ Diverge) → ends (fetch_instance checks m) s.
Proof. intros Hc. unfold fetch_instance. ends_steps. Qed.
Lemma stepResult_ends m from s : ends (stepResult m from) s.
Proof. unfold stepResult. ends_steps. Qed.
#[local] Hint Resolve stepResult_ends : go_ends.

Lemma sbft_onPrepare_ends m from s : ends (onPrepare m from) s.
Proof.
  unfold onPrepare. apply ends_bind; [apply ends_lift; ends_steps|]. intros [x cmd] s1 _.
  apply ends_bind; [apply sbft_fetch_ends; intros i; ends_steps|]. intros a s2 _. ends_steps.
Qed.
Lemma sbft_onSignShare_ends m from sign content s : ends (onSignShare m from sign content) s.
Proof.
  unfold onSignShare. apply ends_bind; [apply sbft_fetch_ends; intros i; ends_steps|].
  intros a s2 _. ends_steps.
Qed.
Lemma sbft_onCommit_ends m from sign s : ends (onCommit m from sign) s.
Proof.
  unfold onCommit. apply ends_bind; [apply sbft_fetch_ends; intros i; ends_steps|].
  intros a s2 _. ends_steps.
Qed.
#[local] Hint Resolve sbft_onPrepare_ends sbft_onSignShare_ends sbft_onCommit_ends : go_ends.

Lemma sbft_Step_ends msg s : ends (Step msg) s.
Proof. unfold Step, stepNormal. ends_steps. Qed.
Lemma sbft_Callback_ends cb s : ends (Callback cb) s.
Proof. unfold Callback, sendTo. ends_steps. Qed.
Lemma sbft_onRequest_ends cmd s : ends (onRequest cmd) s.
Proof. unfold onRequest. ends_steps. Qed.

Lemma finish_job_ends j r s : ends (finish_job j r) s.
Proof. unfold finish_job, sendTo. ends_steps. Qed.
Lemma sbft_exec_callbacks s : keeps s_callbackC exec s.
Proof. unfold exec, exec_body, Execute, get_inst, upd_inst. keeps_steps. Qed.
Lemma finish_job_callbacks j r s : keeps s_callbackC (finish_job j r) s.
Proof.
  pose proof sbft_exec_callbacks. unfold finish_job, sendTo, broadcast, enqueueForSending, set_status, upd_inst.
  destruct j; keeps_steps; done.
Qed.
Lemma sbft_AsyncCallback_ends s : ends AsyncCallback s.
Proof.
  change (ends (loop (S (length (s_callbackC s))) AsyncCallback_body) s).
  apply (loop_ends (λ _, True) (λ s, length (s_callbackC s))); [|done|lia].
  pose proof finish_job_ends. intros s1 _. split; unfold AsyncCallback_body.
  - ends_steps; done.
  - wp_step. wp_step. destruct (s_callbackC s1) as [|[j r] cbs] eqn:Hc; [by wp_step|].
    wp_step. wp_step. wp_step. destruct r as [r|]; [|done].
    eapply wp_mono; [apply finish_job_callbacks|]. simpl. intros _ s2 E. wp_step. intros _.
    split; [done|]. rewrite E. lia.
Qed.
End ends.

(** ** Agreement *)
Section sbft_properties.
Context `{GoEnv, Codec Command, Codec SBFTMessage, Threshsign}.

(** Runs of a replica with the calls [allowed], under any peer and any schedule
    of its pools; those of a replica that follows. *)
Definition sbft_calls (allowed : call → Prop) (cap : nat) :
    list ExecPacket → sbft → list ExecPacket → sbft → Prop :=
  runs_with (pools_step cap) allowed.
Definition sbft_run : nat → list ExecPacket → sbft → list ExecPacket → sbft → Prop := sbft_calls follows.

(** What a replica has executed: the packets taken and those to be taken. *)
Definition executed (h : list ExecPacket) (s : sbft) : list ExecPacket :=
  executions (h ++ s_executedCmds s).

(** Somewhere in the run from [s0] to [s] the signing pool has the job to sign [b]. *)
Definition signed (allowed : call → Prop) (cap : nat) (s0 : sbft) (h : list ExecPacket) (s : sbft)
    (b : list Byte.byte) : Prop :=
  ∃ h1 s1 from, sbft_calls allowed cap [] s0 h1 s1 ∧ sbft_calls allowed cap h1 s1 h s ∧
    SignShareJob from b ∈ Worker.pending (s_signDispatcher s1).

(** The signed hash is in the log for good. *)
Lemma signed_hash `{!GoEnvLaws, !ThreshsignLaws} c cap s0 h s b i x :
  (∀ cmd : Command, is_Some (Marshal cmd)) →
  (∀ (m : SBFTMessage) b, Marshal m = Some b → Unmarshal b = Some m) →
  NewSBFT c = Ret s0 → signed follows cap s0 h s b → says b i (Some x) →
  ∃ inst, find_inst i s = Some inst ∧ hash_of inst = Some x.
Proof.
  intros Hm Hu Hn (h1 & s1 & from & Hr1 & Hr2 & Hj) (m & Hb & Hi & Hx).
  pose proof (runs_with_inv _ _ _ _ _ _ _ (sbft_invariant Hm Hu _ _ cap) Hr1 (NewSBFT_inv _ _ Hn)) as Hinv.
  destruct (iv_jobs _ _ _ _ Hinv (SignShareJob from b)) as (v & j & y & inst & Hs & Hf & Hh).
  { unfold jobs. apply elem_of_app. by left. }
  apply Hu in Hs. rewrite Hs in Hb. injection Hb as <-. simpl in Hi, Hx. subst j.
  destruct Hx as [?|[_ Hx]]; [done|]. unfold slice_eqv in Hx. simpl in Hx. subst y.
  by eapply hash_stays.
Qed.

(** C5. Agreement of the replicas that follow: of [3f + 2c + 1] replicas at most
    [f] are not followers (the leader is not one), a follower gets no requests
    and no shares or commits with a command in them, and a threshold signature
    that verifies has shares of more than [3f + c] replicas, those of followers
    from their signing pools.  Then the [k]-th commands that two followers have
    executed have the same hash, under any peers and schedules of the pools. *)
Theorem sbft_agreement `{!GoEnvLaws, !ThreshsignLaws} cap (peers faulty : gset Z) (f c : nat)
    (config : Z → Config) (start final : Z → sbft) (taken : Z → list ExecPacket) r1 r2 k p1 p2 :
  (∀ cmd : Command, is_Some (Marshal cmd)) →
  (∀ (m : SBFTMessage) b, Marshal m = Some b → Unmarshal b = Some m) →
  size peers = 3 * f + 2 * c + 1 → size faulty ≤ f →
  (∀ r, r ∈ peers → r ∉ faulty →
    NewSBFT (config r) = Ret (start r) ∧ sbft_run cap [] (start r) (taken r) (final r)) →
  (∀ b sig, ts_Verify b sig = true → ∃ Q : gset Z, Q ⊆ peers ∧ 3 * f + c < size Q ∧
    ∀ r, r ∈ Q → r ∉ faulty → signed follows cap (start r) (taken r) (final r) b) →
  r1 ∈ peers → r1 ∉ faulty → r2 ∈ peers → r2 ∉ faulty →
  executed (taken r1) (final r1) !! k = Some p1 → executed (taken r2) (final r2) !! k = Some p2 →
  (Command_Hash (x_Cmd p1)).1 = (Command_Hash (x_Cmd p2)).1.
Proof.
  intros Hm Hu Hn Hf Hruns Hforge Hr1 Hc1 Hr2 Hc2 Hp1 Hp2.
  assert (∀ r p, r ∈ peers → r ∉ faulty → executed (taken r) (final r) !! k = Some p →
    ∃ x, (Command_Hash (x_Cmd p)).1 = Some x ∧ ∃ b sig, ts_Verify b sig = true ∧
      says b (u64 (Z.of_nat k)) (Some x)) as Hcert.
  { intros r p Hr Hc Hp. destruct (Hruns r Hr Hc) as [Hs Hrun].
    pose proof (runs_with_inv _ _ _ _ _ _ _ (sbft_invariant Hm Hu _ _ cap) Hrun (NewSBFT_inv _ _ Hs)) as Hinv.
    destruct (iv_executed _ _ _ _ Hinv k p Hp) as (inst & x & _ & Hx & He & [y Hy] & Hpr).
    rewrite Hy in He, Hpr. unfold slice_eqv in He. simpl in He. subst y. by exists x. }
  destruct (Hcert r1 p1 Hr1 Hc1 Hp1) as (x1 & -> & b1 & sig1 & Hv1 & Hs1).
  destruct (Hcert r2 p2 Hr2 Hc2 Hp2) as (x2 & -> & b2 & sig2 & Hv2 & Hs2).
  destruct (Hforge b1 sig1 Hv1) as (Q1 & HQ1 & Hz1 & Hg1).
  destruct (Hforge b2 sig2 Hv2) as (Q2 & HQ2 & Hz2 & Hg2).
  destruct (sets_correct_overlap peers Q1 Q2 faulty f) as (r & Hrq1 & Hrq2 & Hrc); [done..|lia|].
  destruct (Hruns r ltac:(set_solver) Hrc) as [Hs _].
  destruct (signed_hash _ _ _ _ _ _ _ _ Hm Hu Hs (Hg1 r Hrq1 Hrc) Hs1) as (i1 & Hi1 & Hh1).
  destruct (signed_hash _ _ _ _ _ _ _ _ Hm Hu Hs (Hg2 r Hrq2 Hrc) Hs2) as (i2 & Hi2 & Hh2).
  congruence.
Qed.

(** Termination: from every state, every message, request, result and run of the
    callbacks ends. *)
Theorem sbft_terminates msg cmd cb s :
  Sbft.Step msg s ≠ Diverge ∧ Sbft.Request cmd s ≠ Diverge ∧ Sbft.Callback cb s ≠ Diverge ∧
  Sbft.AsyncCallback s ≠ Diverge.
Proof.
  split_and!; [apply sbft_Step_ends|apply sbft_onRequest_ends|apply sbft_Callback_ends|
    apply sbft_AsyncCallback_ends].
Qed.
End sbft_properties.

(** ** Concrete runs *)
Section acts.
Context `{GoEnv, Codec Command, Codec SBFTMessage, Threshsign}.

Definition pool_event : Type := pool * Worker.event.
Definition do_acts (cap : nat) : list (act pool_event) → sbft → sbft :=
  Runs.do_acts (λ '(p, e), worker_step cap p e).

Lemma acts_run allowed cap acts h s :
  Forall (act_allowed allowed) acts → sbft_calls allowed cap h s h (do_acts cap acts s).
Proof. apply acts_run_with. intros [p e] s1 s2 Hs. by exists p, e. Qed.

(** [b] is to be signed after [acts1]. *)
Lemma acts_signed allowed cap acts1 acts2 s b from :
  Forall (act_allowed allowed) (acts1 ++ acts2) →
  SignShareJob from b ∈ Worker.pending (s_signDispatcher (do_acts cap acts1 s)) →
  signed allowed cap s [] (do_acts cap (acts1 ++ acts2) s) b.
Proof.
  intros [Ha1 Ha2]%Forall_app Hj. exists [], (do_acts cap acts1 s), from. split; [by apply acts_run|].
  split; [|done]. unfold do_acts. rewrite do_acts_app. by apply acts_run.
Qed.
End acts.

Module SbftDemo.
Import Toy.
#[export] Instance wire_NormalMessage : Wire NormalMessage :=
  wire_iso (λ m, (m_View m, m_Index m, m_Type m, m_Command m, m_CommandHash m))
    (λ '(v, i, t, c, h), mkNM v i t c h) ltac:(by intros []).
#[export] Instance wire_ResultMessage : Wire ResultMessage :=
  wire_iso (λ m, (rm_Result m, rm_Id m)) (λ '(r, i), mkRM r i) ltac:(by intros []).
#[export] Instance wire_SBFTMessage : Wire SBFTMessage :=
  wire_iso (λ m, match m with
    | SBFTMessage_Normal m => (Some m, None)
    | SBFTMessage_Result m => (None, Some m)
    | SBFTMessage_nil => (None, None)
    end) (λ '(a, b), match a, b with
    | Some m, _ => SBFTMessage_Normal m
    | _, Some m => SBFTMessage_Result m
    | _, _ => SBFTMessage_nil
    end) ltac:(by intros []).
#[export] Instance SBFTMessage_codec : Codec SBFTMessage := wire_codec wire_SBFTMessage.

Definition bytes_of (m : NormalMessage) : list Byte.byte := default [] (Marshal (SBFTMessage_Normal m)).
Definition hash_of (c : Command) : slice := (Command_Hash c).1.
(** The command that is certified at index 0, and the share of it. *)
Definition chosen : Command := cmd 1 0.
Definition chosen_share : list Byte.byte :=
  bytes_of (mkNM 0 0 NormalMessage_SignShare None (hash_of chosen)).

(** The only signature is on that share. *)
#[export] Instance thresh : Threshsign := {|
  ts_Sign _ _ := [x01];
  ts_Aggregate b _ := if bool_decide (b = chosen_share) then Some [x01] else None;
  ts_Verify b sig := bool_decide (b = chosen_share ∧ sig = [x01]);
|}.
#[export] Instance thresh_laws : ThreshsignLaws.
Proof.
  split. simpl. intros m sigs s. case_bool_decide; [|done]. intros [= <-]. by apply bool_decide_eq_true.
Qed.

Definition pools : gmap string nat :=
  {["tss_sign"%string := 1; "tss_agg"%string := 1; "tss_verify"%string := 1]}.
Definition config (j : Z) : Config := mkConfig j (seqZ 0 4) 0 1 0 pools pools.
Definition start (j : Z) : sbft :=
  mkSbft j (seqZ 0 4) [] ∅ 0 0 0 [] 1 0 [] newRQuorum
    (Worker.NewDispatcher 1) (Worker.NewDispatcher 1) (Worker.NewDispatcher 1) [].

(** What a message of replica [from] does. *)
Definition msg (from : Z) (m : NormalMessage) (sign : list Byte.byte) : act pool_event :=
  Do (Call_Step (mkMessage from 0 (bytes_of m) sign)).
Definition prepare (from : Z) (c : Command) : act pool_event :=
  msg from (mkNM 0 0 NormalMessage_Prepare (Some c) None) [].
Definition commit (from : Z) : act pool_event :=
  msg from (mkNM 0 0 NormalMessage_Commit None (hash_of chosen)) [x01].
(** One job of a pool, from the queue to its callback. *)
Definition work (p : pool) : list (act pool_event) :=
  (λ e, Other (p, e)) <$> [Worker.Register 0; Worker.Take; Worker.Assign; Worker.Done 0].
Definition committed (from : Z) : list (act pool_event) := commit from :: work VerifyPool ++ [Do Call_AsyncCallback].

Definition executed_hash (s : sbft) : list slice := hash_of ∘ x_Cmd <$> executed [] s.

Lemma sbft_new_start j : NewSBFT (config j) = Ret (start j).
Proof. reflexivity. Qed.
Lemma plain_msg from m sign :
  (m_Type m = NormalMessage_Prepare ∨ m_Command m = None) → act_allowed follows (msg from m sign).
Proof.
  intros Hm m' Hu Ht. change (msg_Content _) with (bytes_of m) in Hu. unfold bytes_of in Hu.
  destruct (Marshal (SBFTMessage_Normal m)) as [b|] eqn:Hb; [|done]. simpl in Hu.
  apply (wire_codec_law wire_SBFTMessage) in Hb. assert (Some (SBFTMessage_Normal m') =
    Some (SBFTMessage_Normal m)) as [= ->] by (rewrite <-Hu; exact Hb). by destruct Hm.
Qed.
End SbftDemo.

Section sbft_faults.
Import Toy SbftDemo.

Definition other_command : Command := cmd 2 7.
Definition poison : act pool_event :=
  msg 3 (mkNM 0 0 NormalMessage_SignShare (Some other_command) (SbftDemo.hash_of chosen)) [].

Lemma any_acts cap acts j : sbft_calls any_call cap [] (start j) [] (do_acts cap acts (start j)).
Proof. apply acts_run, Forall_true. by intros []. Qed.

(** A share carries a command that nobody checks: [onSignShare] makes the
    instance of a message with all the message has, and compares hashes only.
    One message of replica 3 that comes before the [Prepare], with the hash
    that gets certified and another command, makes replica 2 execute that
    command, where replica 1 executes the certified one. *)
Theorem sbft_share_poisons cap :
  0 < cap → let s1 := do_acts cap (prepare 0 chosen :: committed 0) (start 1) in
  let s2 := do_acts cap (poison :: committed 0) (start 2) in
  sbft_calls any_call cap [] (start 1) [] s1 ∧ sbft_calls any_call cap [] (start 2) [] s2 ∧
  executed_hash s1 = [SbftDemo.hash_of chosen] ∧ executed_hash s2 = [SbftDemo.hash_of other_command] ∧
  SbftDemo.hash_of chosen ≠ SbftDemo.hash_of other_command.
Proof.
  intros Hc s1 s2. split; [apply any_acts|]. split; [apply any_acts|].
  destruct cap as [|cap]; [lia|]. split_and!; [vm_compute; reflexivity..|by vm_compute].
Qed.

(** The leader executes what was not certified: [onPrepare] does not ask who
    proposes, and [onRequest] puts its instance, without a hash, in the place of
    the one that is there.  Replica 3, which is not the leader, proposes the
    command of index 0, which all sign; the leader then gets a request, and
    executes that one under the certificate of the other. *)
Theorem sbft_leader_diverges cap :
  0 < cap → let s0 := do_acts cap ([prepare 3 chosen] ++ Do (Call_Request other_command) :: committed 3) (start 0) in
  let s1 := do_acts cap ([prepare 3 chosen] ++ committed 3) (start 1) in
  sbft_calls any_call cap [] (start 0) [] s0 ∧ sbft_calls any_call cap [] (start 1) [] s1 ∧
  signed any_call cap (start 0) [] s0 chosen_share ∧ signed any_call cap (start 1) [] s1 chosen_share ∧
  executed_hash s1 = [SbftDemo.hash_of chosen] ∧ executed_hash s0 = [SbftDemo.hash_of other_command] ∧
  SbftDemo.hash_of chosen ≠ SbftDemo.hash_of other_command.
Proof.
  intros Hc s0 s1. split; [apply any_acts|]. split; [apply any_acts|].
  assert (∀ j, j = 0%Z ∨ j = 1%Z → SignShareJob 3 chosen_share ∈
    Worker.pending (s_signDispatcher (do_acts cap [prepare 3 chosen] (start j)))) as Hj.
  { intros j [-> | ->]; vm_compute; left. }
  split; [eapply acts_signed; [apply Forall_true; by intros []|apply Hj; auto]|].
  split; [eapply acts_signed; [apply Forall_true; by intros []|apply Hj; auto]|].
  destruct cap as [|cap]; [lia|]. split_and!; [vm_compute; reflexivity..|by vm_compute].
Qed.
End sbft_faults.

Section sbft_witnesses.
Import Toy SbftDemo.

(** Replica 0 leads and is faulty; the others do as they should. *)
Definition follower (r : Z) : sbft := do_acts 9 ([prepare 0 chosen] ++ committed 0) (start r).

Lemma follower_acts : Forall (act_allowed follows) ([prepare 0 chosen] ++ committed 0).
Proof.
  repeat constructor; apply plain_msg; [by left|by right].
Qed.

Lemma sbft_agreement_witness : ∃ p1 p2,
  executed [] (follower 1) !! 0 = Some p1 ∧ executed [] (follower 2) !! 0 = Some p2 ∧
  (Command_Hash (x_Cmd p1)).1 = (Command_Hash (x_Cmd p2)).1.
Proof.
  assert (∃ p1, executed [] (follower 1) !! 0 = Some p1) as [p1 H1] by (eexists; vm_compute; reflexivity).
  assert (∃ p2, executed [] (follower 2) !! 0 = Some p2) as [p2 H2] by (eexists; vm_compute; reflexivity).
  exists p1, p2. split; [exact H1|]. split; [exact H2|].
  apply (sbft_agreement 9 {[0; 1; 2; 3]}%Z {[0]}%Z 1 0 config start follower (λ _, []) 1 2 0 p1 p2);
    [exact command_marshals|exact (wire_codec_law wire_SBFTMessage)|vm_compute; reflexivity|vm_compute; lia| | |
     clear; set_solver|clear; set_solver|clear; set_solver|clear; set_solver|exact H1|exact H2].
  - intros r _ _. split; [apply sbft_new_start|apply acts_run, follower_acts].
  - intros b sg Hv. apply bool_decide_eq_true in Hv as [-> _]. exists {[0; 1; 2; 3]}%Z.
    split; [done|]. split; [vm_compute; lia|]. intros r Hr Hf.
    apply (acts_signed _ _ [prepare 0 chosen] (committed 0) _ _ 0 follower_acts).
    assert (r = 1 ∨ r = 2 ∨ r = 3)%Z as [->|[->| ->]] by (clear -Hr Hf; set_solver); vm_compute; left.
Defined.

Lemma sbft_share_poisons_witness :
  let s2 := do_acts 9 (poison :: committed 0) (start 2) in executed_hash s2 = [SbftDemo.hash_of other_command].
Proof. intros s2. apply (sbft_share_poisons 9). lia. Defined.

Lemma sbft_leader_diverges_witness :
  let s0 := do_acts 9 ([prepare 3 chosen] ++ Do (Call_Request other_command) :: committed 3) (start 0) in
  executed_hash s0 = [SbftDemo.hash_of other_command].
Proof. intros s0. apply (sbft_leader_diverges 9). lia. Defined.
End sbft_witnesses.
