(* ===== verification/Dqpbft.v ===== *)
(** * DQPBFT (src/protocols/dqpbft)

    Every replica orders its own commands with PBFT-like instances ([log], by
    replica and index); the primary of [oview] orders the instances themselves,
    in batches, with the same three phases ([olog]), and [exec] delivers the
    commands of the batches in the order of the batches.  One Rocq definition
    per Go function, in the state-and-panic monad [M DQPBFT]. *)
From S2P Require Import Prelude Command Worker Certifier Peer.
From S2P Require Quorum.
Import Worker (Dispatcher, NewDispatcher).

Module Dqpbft.

(** ** Data (dqpbftpb) *)
Definition InstanceState_None : Z := 0.
Definition InstanceState_PrePrepared : Z := 1.
Definition InstanceState_Prepared : Z := 2.
Definition InstanceState_Committed : Z := 3.
Definition InstanceState_Executed : Z := 4.
Definition AgreementMessage_PrePrepare : Z := 0.
Definition AgreementMessage_Prepare : Z := 1.
Definition AgreementMessage_Commit : Z := 2.
Definition OInstanceState_None : Z := 0.
Definition OInstanceState_OPrePrepared : Z := 1.
Definition OInstanceState_OPrepared : Z := 2.
Definition OInstanceState_OCommitted : Z := 3.
Definition OInstanceState_OExecuted : Z := 4.
Definition OAgreementMessage_OPrePrepare : Z := 0.
Definition OAgreementMessage_OPrepare : Z := 1.
Definition OAgreementMessage_OCommit : Z := 2.

Record InstanceID := mkIID { iid_ReplicaID : Z; iid_Index : Z }.
#[export] Instance InstanceID_eq_dec : EqDecision InstanceID.
Proof. solve_decision. Defined.
#[export] Instance InstanceID_countable : Countable InstanceID.
Proof.
  refine (inj_countable' (λ i, (iid_ReplicaID i, iid_Index i)) (λ '(r, i), mkIID r i) _).
  by intros [].
Defined.

Record InstanceState := mkIS {
  is_View : Z;
  is_InstanceID : InstanceID;
  is_Status : Z;
  is_Command : option Command;
  is_CommandHash : slice;
}.
Record AgreementMessage := mkAM {
  m_View : Z;
  m_InstanceID : InstanceID;
  m_Type : Z;
  m_Command : option Command;
  m_CommandHash : slice;
}.
(** A repeated field: the nil slice and the empty one are the same on the wire,
    and differ in [updateOCommand]. *)
Record OInstanceState := mkOIS {
  ois_View : Z;
  ois_Index : Z;
  ois_Status : Z;
  ois_Instances : option (list InstanceID);
  ois_CommandHash : slice;
}.
Record OAgreementMessage := mkOAM {
  om_View : Z;
  om_Index : Z;
  om_Type : Z;
  om_Instances : option (list InstanceID);
  om_CommandHash : slice;
}.
Inductive DQPBFTMessage :=
| DQPBFTMessage_Agreement (m : AgreementMessage)
| DQPBFTMessage_OAgreement (m : OAgreementMessage)
| DQPBFTMessage_nil.

#[export] Instance InstanceState_eta : Eta InstanceState := λ s,
  mkIS (is_View s) (is_InstanceID s) (is_Status s) (is_Command s) (is_CommandHash s).
#[export] Instance set_is_Status : Setter is_Status := ltac:(solve_setter).
#[export] Instance set_is_Command : Setter is_Command := ltac:(solve_setter).
#[export] Instance set_is_CommandHash : Setter is_CommandHash := ltac:(solve_setter).
#[export] Instance AgreementMessage_eta : Eta AgreementMessage := λ m,
  mkAM (m_View m) (m_InstanceID m) (m_Type m) (m_Command m) (m_CommandHash m).
#[export] Instance set_m_Command : Setter m_Command := ltac:(solve_setter).
#[export] Instance set_m_CommandHash : Setter m_CommandHash := ltac:(solve_setter).
#[export] Instance OInstanceState_eta : Eta OInstanceState := λ s,
  mkOIS (ois_View s) (ois_Index s) (ois_Status s) (ois_Instances s) (ois_CommandHash s).
#[export] Instance set_ois_Status : Setter ois_Status := ltac:(solve_setter).
#[export] Instance set_ois_Instances : Setter ois_Instances := ltac:(solve_setter).
#[export] Instance set_ois_CommandHash : Setter ois_CommandHash := ltac:(solve_setter).
#[export] Instance OAgreementMessage_eta : Eta OAgreementMessage := λ m,
  mkOAM (om_View m) (om_Index m) (om_Type m) (om_Instances m) (om_CommandHash m).
#[export] Instance set_om_CommandHash : Setter om_CommandHash := ltac:(solve_setter).

Definition IsPrePrepared (s : InstanceState) : bool := bool_decide (is_Status s = InstanceState_PrePrepared).
Definition IsPrepared (s : InstanceState) : bool := bool_decide (is_Status s = InstanceState_Prepared).
Definition IsCommitted (s : InstanceState) : bool := bool_decide (is_Status s = InstanceState_Committed).
Definition IsOPrePrepared (s : OInstanceState) : bool := bool_decide (ois_Status s = OInstanceState_OPrePrepared).
Definition IsOPrepared (s : OInstanceState) : bool := bool_decide (ois_Status s = OInstanceState_OPrepared).
Definition IsOCommitted (s : OInstanceState) : bool := bool_decide (ois_Status s = OInstanceState_OCommitted).

Definition InstanceID_Equals (m other : InstanceID) : bool :=
  bool_decide (iid_ReplicaID m = iid_ReplicaID other) && bool_decide (iid_Index m = iid_Index other).
Definition AgreementMessage_Equals (m other : AgreementMessage) : bool :=
  if bool_decide (m_View m ≠ m_View other) then false
  else if negb (InstanceID_Equals (m_InstanceID m) (m_InstanceID other)) then false
  else bytes_Equal (m_CommandHash m) (m_CommandHash other).
Definition OAgreementMessage_Equals (m other : OAgreementMessage) : bool :=
  if bool_decide (om_View m ≠ om_View other) then false
  else if bool_decide (om_Index m ≠ om_Index other) then false
  else bytes_Equal (om_CommandHash m) (om_CommandHash other).
Fixpoint InstancesEquals (a b : list InstanceID) : bool :=
  match a, b with
  | [], [] => true
  | v :: a, w :: b => InstanceID_Equals v w && InstancesEquals a b
  | _, _ => false
  end.

(** *** The marshaller of [InstanceID]

    A varint: seven bits a byte, the lowest first; ten bytes hold 64 bits. *)
Fixpoint encodeVarint_ (fuel : nat) (v : Z) : bytes :=
  match fuel with
  | O => []
  | S fuel =>
      if decide (128 ≤ v)%Z
      then byte_of_Z (Z.lor (Z.land v 127) 128) :: encodeVarint_ fuel (Z.shiftr v 7)
      else [byte_of_Z v]
  end.
Definition encodeVarint (v : Z) : bytes := encodeVarint_ 10 v.
(** A field that is zero is left out. *)
Definition InstanceID_Marshal (i : InstanceID) : bytes :=
  (if bool_decide (iid_ReplicaID i ≠ 0%Z) then byte_of_Z 8 :: encodeVarint (iid_ReplicaID i) else []) ++
  (if bool_decide (iid_Index i ≠ 0%Z) then byte_of_Z 16 :: encodeVarint (iid_Index i) else []).

(** ** Quorums (quorum.go) *)
#[export] Instance AM_QMsg : Quorum.QMsg AgreementMessage := {|
  Quorum.q_view := m_View;
  Quorum.q_Equals := AgreementMessage_Equals;
|}.
#[export] Instance OAM_QMsg : Quorum.QMsg OAgreementMessage := {|
  Quorum.q_view := om_View;
  Quorum.q_Equals := OAgreementMessage_Equals;
|}.
Abbreviation Quorum := (Quorum.Quorum AgreementMessage).
Abbreviation OQuorum := (Quorum.Quorum OAgreementMessage).
Definition newQuorum : Quorum := Quorum.newQuorum.
Definition Quorum_log (id : Z) (m : AgreementMessage) (q : Quorum) : outcome Quorum := Quorum.log true id m q.
Definition Quorum_Majority (f : Z) (m : AgreementMessage) (q : Quorum) : bool := Quorum.Majority (2 * f) m q.
Definition newOQuorum : OQuorum := Quorum.newQuorum.
Definition OQuorum_log (id : Z) (m : OAgreementMessage) (q : OQuorum) : outcome OQuorum := Quorum.log true id m q.
Definition OQuorum_Majority (f : Z) (m : OAgreementMessage) (q : OQuorum) : bool := Quorum.Majority (2 * f) m q.

(** ** The replica *)
Record instance := mkInstance { i_is : InstanceState; pCert : Quorum; cCert : Quorum }.
#[export] Instance instance_eta : Eta instance := λ i, mkInstance (i_is i) (pCert i) (cCert i).
#[export] Instance set_i_is : Setter i_is := ltac:(solve_setter).
#[export] Instance set_pCert : Setter pCert := ltac:(solve_setter).
#[export] Instance set_cCert : Setter cCert := ltac:(solve_setter).
Record oinstance := mkOInstance { oi_is : OInstanceState; opCert : OQuorum; ocCert : OQuorum }.
#[export] Instance oinstance_eta : Eta oinstance := λ i, mkOInstance (oi_is i) (opCert i) (ocCert i).
#[export] Instance set_oi_is : Setter oi_is := ltac:(solve_setter).
#[export] Instance set_opCert : Setter opCert := ltac:(solve_setter).
#[export] Instance set_ocCert : Setter ocCert := ltac:(solve_setter).

(** A signing job: the marshalled message and whether it goes to self too. *)
Record signJob := mkSignJob { sj_mBytes : bytes; sj_sendToSelf : bool }.

(** What the function of a timer does. *)
Inductive timerAct := CReqTimeout.

Record DQPBFT := mkDQPBFT {
  d_id : Z;
  d_peers : list Z;
  d_f : Z;
  d_log : gmap InstanceID instance;
  d_view : Z;
  d_index : Z;
  d_nextDeliverIndex : gmap Z Z;
  d_olog : gmap Z oinstance;
  d_oindex : Z;
  d_oview : Z;
  d_nextODeliverIndex : Z;
  d_msgs : list Message;
  d_toDeliver : list ExecPacket;
  d_cReqBuffer : list InstanceID;
  d_oBatchSize : Z;
  d_oBatchTimeout : Z;
  d_timers : list (Timer.tickingTimer timerAct);
  d_signDispatcher : Dispatcher signJob;
  d_callbackC : list (signJob * bytes);
}.
#[export] Instance DQPBFT_eta : Eta DQPBFT := λ d,
  mkDQPBFT (d_id d) (d_peers d) (d_f d) (d_log d) (d_view d) (d_index d) (d_nextDeliverIndex d)
    (d_olog d) (d_oindex d) (d_oview d) (d_nextODeliverIndex d) (d_msgs d) (d_toDeliver d)
    (d_cReqBuffer d) (d_oBatchSize d) (d_oBatchTimeout d) (d_timers d) (d_signDispatcher d)
    (d_callbackC d).
#[export] Instance set_d_log : Setter d_log := ltac:(solve_setter).
#[export] Instance set_d_index : Setter d_index := ltac:(solve_setter).
#[export] Instance set_d_nextDeliverIndex : Setter d_nextDeliverIndex := ltac:(solve_setter).
#[export] Instance set_d_olog : Setter d_olog := ltac:(solve_setter).
#[export] Instance set_d_oindex : Setter d_oindex := ltac:(solve_setter).
#[export] Instance set_d_nextODeliverIndex : Setter d_nextODeliverIndex := ltac:(solve_setter).
#[export] Instance set_d_msgs : Setter d_msgs := ltac:(solve_setter).
#[export] Instance set_d_toDeliver : Setter d_toDeliver := ltac:(solve_setter).
#[export] Instance set_d_cReqBuffer : Setter d_cReqBuffer := ltac:(solve_setter).
#[export] Instance set_d_timers : Setter d_timers := ltac:(solve_setter).
#[export] Instance set_d_signDispatcher : Setter d_signDispatcher := ltac:(solve_setter).
#[export] Instance set_d_callbackC : Setter d_callbackC := ltac:(solve_setter).

Record Config := mkConfig {
  cfg_ID : Z;
  cfg_Peers : list Z;
  cfg_LeaderID : Z;
  cfg_MaxFailures : Z;
  cfg_DqOBatchSize : Z;
  cfg_DqOBatchTimeout : Z;
  cfg_Workers : gmap string nat;
  cfg_WorkersQueueSizes : gmap string nat;
}.

(** [initTimers]: one timer, registered. *)
Definition cReqTimer (timeout : Z) : Timer.tickingTimer timerAct :=
  Timer.registerInfiniteTimer (Timer.MakeTickingTimer timeout [Timer.Act CReqTimeout]).

Definition NewDQPBFT (c : Config) : outcome DQPBFT :=
  match cfg_Workers c !! "mac_sign"%string, cfg_WorkersQueueSizes c !! "mac_sign"%string with
  | None, _ => Panic "Worker count for mac_sign missing."
  | _, None => Panic "Worker queue size for mac_sign missing."
  | Some workers, Some _ =>
      Ret (mkDQPBFT (cfg_ID c) (cfg_Peers c) (cfg_MaxFailures c) ∅ (cfg_ID c) 0 ∅ ∅ 0 (cfg_LeaderID c) 0
             [] [] [] (cfg_DqOBatchSize c) (cfg_DqOBatchTimeout c)
             [cReqTimer (cfg_DqOBatchTimeout c)] (NewDispatcher workers) [])
  end.

Section dqpbft.
Context `{GoEnv, Codec Command, Codec DQPBFTMessage, Certifier}.

(** *** Messaging (messaging.go) *)
Definition enqueueForSending (to : Z) (mm certificate : bytes) : M DQPBFT unit :=
  modify (λ d, d <| d_msgs ::= λ l, l ++ [mkMessage (d_id d) to mm certificate] |>).
Definition sendTo (to : Z) (m : DQPBFTMessage) : M DQPBFT unit :=
  match Marshal m with
  | None => panic "unable to marshall"
  | Some mBytes => enqueueForSending to mBytes (CreateSignedCertificate mBytes)
  end.
Definition broadcast (m : DQPBFTMessage) (sendToSelf : bool) : M DQPBFT unit :=
  match Marshal m with
  | None => panic "unable to marshall"
  | Some mBytes =>
      modify (λ d, d <| d_signDispatcher ::= Worker.Exec (mkSignJob mBytes sendToSelf) |>)
  end.

(** The two closures [broadcast] hands to the dispatcher. *)
Definition sign_all (nPeers : nat) (j : signJob) : bytes :=
  mjoin (replicate nPeers (CreateSignedCertificate (sj_mBytes j))).
Definition send_signed (j : signJob) (cert : bytes) : M DQPBFT unit :=
  d ← get;
  for_each (d_peers d) (λ node,
    when (sj_sendToSelf j || bool_decide (node ≠ d_id d))
      (let idx := u64 (node * 32) in
       c ← lift (sub_slice cert idx (u64 (idx + 32)));
       enqueueForSending node (sj_mBytes j) c)).

(** A step of the signing pool. *)
Definition worker_step (cap : nat) (e : Worker.event) (d : DQPBFT) : option DQPBFT :=
  '(w, cbs) ← Worker.step (sign_all (length (d_peers d))) cap e (d_signDispatcher d) (d_callbackC d);
  Some (d <| d_signDispatcher := w |> <| d_callbackC := cbs |>).

Definition AsyncCallback_body : M DQPBFT bool :=
  d ← get;
  match d_callbackC d with
  | [] => mret false
  | (j, cert) :: rest =>
      modify (λ d, d <| d_callbackC := rest |>);;
      send_signed j cert;;
      mret true
  end.
Definition AsyncCallback : M DQPBFT unit :=
  d ← get; loop (S (length (d_callbackC d))) AsyncCallback_body.

Definition isPrimaryAtView (id view : Z) (d : DQPBFT) : outcome bool :=
  l ← leader_of view (length (d_peers d)); Ret (bool_decide (id = l)).

(** *** Instances, through their pointers: each is reachable only through the
    log, at the key it was filed under. *)
Definition get_inst (i : InstanceID) : M DQPBFT instance :=
  d ← get; match d_log d !! i with None => panic "nil instance" | Some inst => mret inst end.
Definition with_inst (i : InstanceID) (g : instance → outcome instance) : M DQPBFT unit :=
  inst ← get_inst i; inst' ← lift (g inst); modify (λ d, d <| d_log ::= <[i := inst']> |>).
Definition set_status (i : InstanceID) (st : Z) : M DQPBFT unit :=
  with_inst i (λ inst, Ret (inst <| i_is ::= set is_Status (λ _, st) |>)).
Definition log_pCert (i : InstanceID) (id : Z) (m : AgreementMessage) : M DQPBFT unit :=
  with_inst i (λ inst, q ← Quorum_log id m (pCert inst); Ret (inst <| pCert := q |>)).
Definition log_cCert (i : InstanceID) (id : Z) (m : AgreementMessage) : M DQPBFT unit :=
  with_inst i (λ inst, q ← Quorum_log id m (cCert inst); Ret (inst <| cCert := q |>)).

Definition get_oinst (i : Z) : M DQPBFT oinstance :=
  d ← get; match d_olog d !! i with None => panic "nil oinstance" | Some inst => mret inst end.
Definition with_oinst (i : Z) (g : oinstance → outcome oinstance) : M DQPBFT unit :=
  inst ← get_oinst i; inst' ← lift (g inst); modify (λ d, d <| d_olog ::= <[i := inst']> |>).
Definition set_ostatus (i : Z) (st : Z) : M DQPBFT unit :=
  with_oinst i (λ inst, Ret (inst <| oi_is ::= set ois_Status (λ _, st) |>)).
Definition log_opCert (i : Z) (id : Z) (m : OAgreementMessage) : M DQPBFT unit :=
  with_oinst i (λ inst, q ← OQuorum_log id m (opCert inst); Ret (inst <| opCert := q |>)).
Definition log_ocCert (i : Z) (id : Z) (m : OAgreementMessage) : M DQPBFT unit :=
  with_oinst i (λ inst, q ← OQuorum_log id m (ocCert inst); Ret (inst <| ocCert := q |>)).

(** *** Delivery (exec.go) *)
Definition enqueueForDelivery (cmd : Command) : M DQPBFT unit :=
  modify (λ d, d <| d_toDeliver ::= λ l, l ++ [exec_pkt cmd] |>).

(** All the instances of a batch are committed and have their commands. *)
Fixpoint all_committed (ids : list InstanceID) (d : DQPBFT) : bool :=
  match ids with
  | [] => true
  | i :: ids =>
      match d_log d !! i with
      | Some inst => IsCommitted (i_is inst) && bool_decide (is_Some (is_Command (i_is inst))) &&
                     all_committed ids d
      | None => false
      end
  end.
Definition deliver (i : InstanceID) : M DQPBFT unit :=
  inst ← get_inst i;
  match is_Command (i_is inst) with
  | None => panic "nil command"
  | Some cmd =>
      enqueueForDelivery cmd;;
      modify (λ d, d <| d_log ::= <[i := inst <| i_is ::= set is_Command (λ _, None) |>]> |>
                     <| d_nextDeliverIndex ::= λ n,
                          <[iid_ReplicaID i := u64 (default 0%Z (n !! iid_ReplicaID i) + 1)]> n |>);;
      set_status i InstanceState_Executed
  end.
Definition exec_body : M DQPBFT bool :=
  d ← get;
  match d_olog d !! d_nextODeliverIndex d with
  | None => mret false
  | Some oinst =>
      if negb (IsOCommitted (oi_is oinst)) then mret false else
      let ids := default [] (ois_Instances (oi_is oinst)) in
      if negb (all_committed ids d) then mret false else
      for_each ids deliver;;
      set_ostatus (d_nextODeliverIndex d) OInstanceState_OExecuted;;
      modify (λ d, d <| d_nextODeliverIndex ::= λ x, u64 (x + 1) |>);;
      mret true
  end.
(** Every round marks a committed batch as executed. *)
Definition exec : M DQPBFT unit := d ← get; loop (S (size (d_olog d))) exec_body.

(** *** The ordering of the batches (oinstance.go) *)
Definition makeOInstance (m : OAgreementMessage) : oinstance :=
  mkOInstance (mkOIS (om_View m) (om_Index m) OInstanceState_None (om_Instances m) (om_CommandHash m))
    newOQuorum newOQuorum.
Definition updateOCommand (m : OAgreementMessage) (inst : oinstance) : outcome oinstance :=
  match ois_Instances (oi_is inst) with
  | Some l =>
      if negb (InstancesEquals l (default [] (om_Instances m)))
      then Panic "Different ocommand for same instance" else Ret inst
  | None => Ret (inst <| oi_is ::= set ois_Instances (λ _, om_Instances m) |>)
  end.
Definition updateOCommandHash (m : OAgreementMessage) (inst : oinstance) : outcome oinstance :=
  match ois_CommandHash (oi_is inst) with
  | Some _ =>
      if negb (bytes_Equal (ois_CommandHash (oi_is inst)) (om_CommandHash m))
      then Panic "Different command hashes for same instance" else Ret inst
  | None => Ret (inst <| oi_is ::= set ois_CommandHash (λ _, om_CommandHash m) |>)
  end.

(** The hash of a batch: of the marshalled identifiers one after the other. *)
Definition batch_hash (ids : list InstanceID) : bytes := sha256 (ids ≫= InstanceID_Marshal).

Definition sendCRequest : M DQPBFT unit :=
  d ← get;
  prim ← lift (isPrimaryAtView (d_id d) (d_oview d) d);
  if negb prim then mret tt else
  let ids := d_cReqBuffer d in
  modify (λ d, d <| d_cReqBuffer := [] |>);;
  if bool_decide (length ids ≤ 0) then mret tt else
  let index := d_oindex d in
  modify (λ d, d <| d_oindex := u64 (index + 1) |>);;
  modify (λ d, d <| d_olog ::= <[index :=
    mkOInstance (mkOIS (d_view d) index OInstanceState_OPrePrepared (Some ids) None) newOQuorum newOQuorum]> |>);;
  let ppm := mkOAM (d_view d) index OAgreementMessage_OPrePrepare (Some ids) None in
  let logppm := mkOAM (d_view d) index OAgreementMessage_OPrePrepare None (Some (batch_hash ids)) in
  log_opCert index (d_id d) logppm;;
  broadcast (DQPBFTMessage_OAgreement ppm) false.

Definition onCRequest (id : InstanceID) : M DQPBFT unit :=
  d ← get;
  prim ← lift (isPrimaryAtView (d_id d) (d_oview d) d);
  if negb prim then mret tt else
  modify (λ d, d <| d_cReqBuffer ::= λ l, l ++ [id] |>);;
  d ← get;
  when (bool_decide (d_oBatchSize d ≤ Z.of_nat (length (d_cReqBuffer d)))%Z) sendCRequest.

Definition fetch_oinstance (checks : oinstance → outcome oinstance) (m : OAgreementMessage) : M DQPBFT unit :=
  d ← get;
  match d_olog d !! om_Index m with
  | None => modify (λ d, d <| d_olog ::= <[om_Index m := makeOInstance m]> |>)
  | Some _ => with_oinst (om_Index m) checks
  end.

(** What the three handlers do once [cm] is in the commit certificate. *)
Definition maybeOCommit (i : Z) (cm : OAgreementMessage) : M DQPBFT unit :=
  inst ← get_oinst i;
  d ← get;
  when (OQuorum_Majority (d_f d) cm (ocCert inst) && IsOPrepared (oi_is inst))
    (set_ostatus i OInstanceState_OCommitted;; exec).
(** The block under [inst.pCert.Majority(m) && inst.is.IsPrePrepared()]. *)
Definition maybeOPrepare (i : Z) (m : OAgreementMessage) : M DQPBFT unit :=
  inst ← get_oinst i;
  d ← get;
  when (OQuorum_Majority (d_f d) m (opCert inst) && IsOPrePrepared (oi_is inst))
    (set_ostatus i OInstanceState_OPrepared;;
     let cm := mkOAM (om_View m) (om_Index m) OAgreementMessage_OCommit None
                 (ois_CommandHash (oi_is inst)) in
     broadcast (DQPBFTMessage_OAgreement cm) false;;
     log_ocCert i (d_id d) cm;;
     maybeOCommit i cm).

Definition onOPrePrepare (m : OAgreementMessage) (from : Z) : M DQPBFT unit :=
  d ← get;
  prim ← lift (isPrimaryAtView from (d_oview d) d);
  if negb prim then panic "PrePrepare vcSender Non-Primary" else
  let i := om_Index m in
  let m := m <| om_CommandHash := Some (batch_hash (default [] (om_Instances m))) |> in
  fetch_oinstance (λ inst, inst ← updateOCommand m inst; updateOCommandHash m inst) m;;
  log_opCert i from m;;
  set_ostatus i OInstanceState_OPrePrepared;;
  inst ← get_oinst i;
  let pm := mkOAM (ois_View (oi_is inst)) (ois_Index (oi_is inst)) OAgreementMessage_OPrepare None
              (ois_CommandHash (oi_is inst)) in
  log_opCert i (d_id d) pm;;
  broadcast (DQPBFTMessage_OAgreement pm) false;;
  maybeOPrepare i pm.

Definition onOPrepare (m : OAgreementMessage) (from : Z) : M DQPBFT unit :=
  d ← get;
  prim ← lift (isPrimaryAtView from (d_oview d) d);
  if (prim : bool) then panic "Prepare received vcSender Primary" else
  fetch_oinstance (updateOCommandHash m) m;;
  log_opCert (om_Index m) from m;;
  maybeOPrepare (om_Index m) m.

Definition onOCommit (m : OAgreementMessage) (from : Z) : M DQPBFT unit :=
  fetch_oinstance (updateOCommandHash m) m;;
  log_ocCert (om_Index m) from m;;
  maybeOCommit (om_Index m) m.

(** *** The instances of the commands (cinstance.go) *)
Definition makeInstance (m : AgreementMessage) : instance :=
  mkInstance (mkIS (m_View m) (m_InstanceID m) InstanceState_None (m_Command m) (m_CommandHash m))
    newQuorum newQuorum.
Definition updateCommand (m : AgreementMessage) (inst : instance) : outcome instance :=
  match is_Command (i_is inst) with
  | Some c =>
      e ← Command_Equal c (m_Command m);
      if negb e then Panic "Different commands for same instance" else Ret inst
  | None => Ret (inst <| i_is ::= set is_Command (λ _, m_Command m) |>)
  end.
Definition updateCommandHash (m : AgreementMessage) (inst : instance) : outcome instance :=
  match is_CommandHash (i_is inst) with
  | Some _ =>
      if negb (bytes_Equal (is_CommandHash (i_is inst)) (m_CommandHash m))
      then Panic "Different command hashes for same instance" else Ret inst
  | None => Ret (inst <| i_is ::= set is_CommandHash (λ _, m_CommandHash m) |>)
  end.
Definition fetch_instance (checks : instance → outcome instance) (m : AgreementMessage) : M DQPBFT unit :=
  d ← get;
  match d_log d !! m_InstanceID m with
  | None => modify (λ d, d <| d_log ::= <[m_InstanceID m := makeInstance m]> |>)
  | Some _ => with_inst (m_InstanceID m) checks
  end.

Definition maybeCommit (i : InstanceID) (cm : AgreementMessage) : M DQPBFT unit :=
  inst ← get_inst i;
  d ← get;
  when (Quorum_Majority (d_f d) cm (cCert inst) && IsPrepared (i_is inst))
    (set_status i InstanceState_Committed;; exec).
Definition maybePrepare (i : InstanceID) (m : AgreementMessage) : M DQPBFT unit :=
  inst ← get_inst i;
  d ← get;
  when (Quorum_Majority (d_f d) m (pCert inst) && IsPrePrepared (i_is inst))
    (set_status i InstanceState_Prepared;;
     let cm := mkAM (m_View m) (m_InstanceID m) AgreementMessage_Commit None
                 (is_CommandHash (i_is inst)) in
     broadcast (DQPBFTMessage_Agreement cm) false;;
     log_cCert i (d_id d) cm;;
     maybeCommit i cm).

(** The command is dropped from the message once the instance has it. *)
Definition onPrePrepare (m : AgreementMessage) (from : Z) : M DQPBFT unit :=
  d ← get;
  prim ← lift (isPrimaryAtView (d_id d) (d_oview d) d);
  let i := m_InstanceID m in
  when prim (onCRequest i);;
  '(hash, cmd) ← lift (Command_Hash_ptr (m_Command m));
  let m := m <| m_Command := cmd |> <| m_CommandHash := hash |> in
  fetch_instance (λ inst, inst ← updateCommand m inst; updateCommandHash m inst) m;;
  log_pCert i from (m <| m_Command := None |>);;
  set_status i InstanceState_PrePrepared;;
  inst ← get_inst i;
  let pm := mkAM (is_View (i_is inst)) (is_InstanceID (i_is inst)) AgreementMessage_Prepare None
              (is_CommandHash (i_is inst)) in
  log_pCert i (d_id d) pm;;
  broadcast (DQPBFTMessage_Agreement pm) false;;
  maybePrepare i pm.
Definition onPrepare (m : AgreementMessage) (from : Z) : M DQPBFT unit :=
  fetch_instance (updateCommandHash m) m;;
  log_pCert (m_InstanceID m) from m;;
  maybePrepare (m_InstanceID m) m.
Definition onCommit (m : AgreementMessage) (from : Z) : M DQPBFT unit :=
  fetch_instance (updateCommandHash m) m;;
  log_cCert (m_InstanceID m) from m;;
  maybeCommit (m_InstanceID m) m.

(** *** Requests (request.go) *)
Definition onRequest (cmd : Command) : M DQPBFT unit :=
  d ← get;
  let index := d_index d in
  modify (λ d, d <| d_index := u64 (index + 1) |>);;
  let instID := mkIID (d_id d) index in
  modify (λ d, d <| d_log ::= <[instID :=
    mkInstance (mkIS (d_view d) instID InstanceState_PrePrepared (Some cmd) None) newQuorum newQuorum]> |>);;
  let ppm := mkAM (d_view d) instID AgreementMessage_PrePrepare (Some cmd) None in
  let logppm := mkAM (d_view d) instID AgreementMessage_PrePrepare None (Command_Hash cmd).1 in
  log_pCert instID (d_id d) logppm;;
  broadcast (DQPBFTMessage_Agreement ppm) false;;
  prim ← lift (isPrimaryAtView (d_id d) (d_oview d) d);
  when prim (onCRequest instID).

(** *** The [Protocol] methods (dqpbft.go) *)
Definition stepNormal (m : AgreementMessage) (from : Z) : M DQPBFT unit :=
  if decide (m_Type m = AgreementMessage_PrePrepare) then onPrePrepare m from
  else if decide (m_Type m = AgreementMessage_Prepare) then onPrepare m from
  else if decide (m_Type m = AgreementMessage_Commit) then onCommit m from
  else panic "unexpected Message type".
Definition stepONormal (m : OAgreementMessage) (from : Z) : M DQPBFT unit :=
  if decide (om_Type m = OAgreementMessage_OPrePrepare) then onOPrePrepare m from
  else if decide (om_Type m = OAgreementMessage_OPrepare) then onOPrepare m from
  else if decide (om_Type m = OAgreementMessage_OCommit) then onOCommit m from
  else panic "unexpected Message type".
Definition Step (mm : Message) : M DQPBFT unit :=
  match Unmarshal (msg_Content mm) with
  | None => panic "unmarshal"
  | Some m =>
      if negb (VerifyCertificate (msg_Content mm) (msg_Certificate mm)) then panic "Invalid certificate" else
      match m with
      | DQPBFTMessage_Agreement m => stepNormal m (msg_From mm)
      | DQPBFTMessage_OAgreement m => stepONormal m (msg_From mm)
      | DQPBFTMessage_nil => panic "unexpected Message type"
      end
  end.

(** The function of the timer. *)
Definition run_action (a : timerAct) : M DQPBFT unit :=
  d ← get;
  prim ← lift (isPrimaryAtView (d_id d) (d_oview d) d);
  when prim sendCRequest.
Definition tick_one (k : nat) : M DQPBFT unit :=
  d ← get;
  match d_timers d !! k with
  | None => mret tt
  | Some t =>
      let '(t, acts) := Timer.Tick t in
      modify (λ d, d <| d_timers ::= <[k := t]> |>);;
      for_each acts run_action
  end.
Definition Tick : M DQPBFT unit := d ← get; for_each (seq 0 (length (d_timers d))) tick_one.

Definition Callback (cb : ExecCallback) : M DQPBFT unit := mret tt.
Definition Request (cmd : Command) : M DQPBFT unit := onRequest cmd.
Definition MakeReady : M DQPBFT Ready := gets (λ d, mkReady (d_msgs d) (d_toDeliver d)).
Definition ClearMsgs : M DQPBFT unit := modify (λ d, d <| d_msgs := [] |>).
Definition ClearExecutedCommands : M DQPBFT unit := modify (λ d, d <| d_toDeliver := [] |>).

Definition hasStatus (i : InstanceID) (status : Z) (d : DQPBFT) : bool :=
  match d_log d !! i with
  | Some inst => bool_decide (is_Status (i_is inst) = status)
  | None => false
  end.
Definition hasExecuted (i : InstanceID) (d : DQPBFT) : bool := hasStatus i InstanceState_Executed d.

#[export] Instance DQPBFT_Protocol : Protocol DQPBFT := {|
  Peer.Step := Step;
  Peer.Tick := Tick;
  Peer.Request := Request;
  Peer.Callback := Callback;
  Peer.MakeReady := MakeReady;
  Peer.ClearMsgs := ClearMsgs;
  Peer.ClearExecutedCommands := ClearExecutedCommands;
  Peer.AsyncCallback := AsyncCallback;
|}.
End dqpbft.
End Dqpbft.
