(* ===== verification/DqpbftSafety.v ===== *)
(** * What the ordering of DQPBFT keeps

    The invariant of a replica that is not the primary of the ordering: the
    hash of a batch never changes once it is known, the commit votes it sends
    are for the hashes of its log, and a batch that is committed has the votes
    of a quorum for its hash. *)
From S2P Require Import Prelude Command Worker Certifier Peer Runs Dqpbft.
From S2P Require Quorum.
Import Dqpbft.

(** What the marshaller promises: messages come back, with the nil and the empty
    hash the same. *)
Class DQCodecLaws `{Codec DQPBFTMessage} := {
  Unmarshal_Agreement m b : Marshal (DQPBFTMessage_Agreement m) = Some b →
    ∃ m', Unmarshal b = Some (DQPBFTMessage_Agreement m');
  Unmarshal_OAgreement m b : Marshal (DQPBFTMessage_OAgreement m) = Some b →
    ∃ m', Unmarshal b = Some (DQPBFTMessage_OAgreement m') ∧
      om_Type m' = om_Type m ∧ om_Index m' = om_Index m ∧ om_CommandHash m' ≈ om_CommandHash m;
}.

Lemma OAM_Equals_spec m m' :
  OAgreementMessage_Equals m m' = true ↔
  om_View m = om_View m' ∧ om_Index m = om_Index m' ∧ om_CommandHash m ≈ om_CommandHash m'.
Proof.
  unfold OAgreementMessage_Equals. repeat case_bool_decide; rewrite ?bytes_Equal_spec; naive_solver.
Qed.

Section invariant.
Context `{GoEnv, Codec Command, Codec DQPBFTMessage, Certifier, !DQCodecLaws}.
Context (id : Z) (peers : list Z) (f oview : Z) (Hf : (0 ≤ f)%Z).
Context (follower : leader_of oview (length peers) ≠ Ret id).
(** The commit votes that the messages from a replica carried. *)
Context (heard : Z → Z → slice → Prop).
(** Hashes that are known to be in the log, by index. *)
Context (floor : gmap Z (list Byte.byte)).
Implicit Types (d : DQPBFT) (inst : oinstance).

Definition ohash inst : slice := ois_CommandHash (oi_is inst).
Definition ostatus inst : Z := ois_Status (oi_is inst).
(** The hash [h] of batch [i] is in the log. *)
Definition fixed d (i : Z) (h : slice) : Prop :=
  ∃ inst, d_olog d !! i = Some inst ∧ is_Some (ohash inst) ∧ h ≈ ohash inst.
(** A vote of replica [j] for the hash of batch [i]. *)
Definition vote (i : Z) (h : slice) (j : Z) : Prop := j = id ∨ ∃ h', heard j i h' ∧ h ≈ h'.
Definition certified (i : Z) (h : slice) : Prop :=
  ∃ A : gset Z, (2 * f < Z.of_nat (size A))%Z ∧ ∀ j, j ∈ A → vote i h j.

Record oinst_ok (i : Z) inst : Prop := {
  oo_index : ois_Index (oi_is inst) = i;
  oo_hash : (OInstanceState_OPrePrepared ≤ ostatus inst)%Z → is_Some (ohash inst);
  oo_votes : Quorum.votes (λ j m, vote i (om_CommandHash m) j) (ocCert inst);
  oo_committed : (OInstanceState_OCommitted ≤ ostatus inst)%Z → certified i (ohash inst);
}.

(** The message with bytes [b] votes only for hashes of the log. *)
Definition backed d (b : list Byte.byte) : Prop := ∀ m,
  Unmarshal b = Some (DQPBFTMessage_OAgreement m) → om_Type m = OAgreementMessage_OCommit →
  fixed d (om_Index m) (om_CommandHash m).

Record order_inv d : Prop := {
  ov_id : d_id d = id;
  ov_peers : d_peers d = peers;
  ov_f : d_f d = f;
  ov_oview : d_oview d = oview;
  ov_olog i inst : d_olog d !! i = Some inst → oinst_ok i inst;
  ov_jobs j : j ∈ Worker.pending (d_signDispatcher d) → backed d (sj_mBytes j);
  ov_callbacks jc : jc ∈ d_callbackC d → backed d (sj_mBytes jc.1);
  ov_msgs m : m ∈ d_msgs d → backed d (msg_Content m);
  ov_floor i x : floor !! i = Some x → ∃ inst, d_olog d !! i = Some inst ∧ ohash inst = Some x;
}.

(** What the invariant looks at. *)
Definition core d :=
  (d_id d, d_peers d, d_f d, d_oview d, d_olog d, (d_signDispatcher d, d_callbackC d, d_msgs d)).
Lemma dq_core_inv d d' : core d' = core d → order_inv d → order_inv d'.
Proof.
  unfold core. intros [= E1 E2 E3 E4 E5 E6 E7 E8] [].
  assert (∀ b, backed d b → backed d' b) as Hb by (intros b; unfold backed, fixed; by rewrite E5).
  split; rewrite ?E1, ?E2, ?E3, ?E4, ?E5, ?E6, ?E7, ?E8; auto.
Qed.
Lemma keeps_core_inv {A} (m : M DQPBFT A) d :
  keeps core m d → order_inv d → wp m (λ _, order_inv) d.
Proof. intros Hk Hd. eapply wp_mono; [exact Hk|]. simpl. intros _ d' E. by eapply dq_core_inv. Qed.

(** ** Changing a batch *)
Definition hash_le inst inst' : Prop := ∀ x, ohash inst = Some x → ohash inst' = Some x.
Definition oput (i : Z) inst d : DQPBFT := d <| d_olog ::= <[i := inst]> |>.

Lemma fixed_oput i inst d j h :
  (∀ inst0, d_olog d !! i = Some inst0 → hash_le inst0 inst) → fixed d j h → fixed (oput i inst d) j h.
Proof.
  intros Hle (inst0 & Hj & [x Hx] & He). unfold fixed. cbn. destruct (decide (i = j)) as [->|Hne].
  - exists inst. rewrite lookup_insert_eq, (Hle _ Hj x Hx), <-Hx. rewrite Hx in *. by repeat split.
  - exists inst0. rewrite lookup_insert_ne by done. by rewrite Hx in *.
Qed.

Lemma oput_inv i inst d :
  oinst_ok i inst → (∀ inst0, d_olog d !! i = Some inst0 → hash_le inst0 inst) →
  order_inv d → order_inv (oput i inst d).
Proof.
  intros Hok Hle Hd. destruct Hd.
  assert (∀ b, backed d b → backed (oput i inst d) b) as Hb.
  { intros b Hb m Hm Ht. by apply fixed_oput, Hb. }
  split; cbn; try done; auto.
  - intros j inst'. rewrite lookup_insert. case_decide; [subst|auto]. by intros [= <-].
  - intros j x Hx. destruct (ov_floor0 j x Hx) as (inst0 & Hj & Hx0). rewrite lookup_insert.
    case_decide; [subst|by eauto]. exists inst. split; [done|]. by eapply Hle.
Qed.

Lemma wp_get_oinst i Q d :
  (∀ inst, d_olog d !! i = Some inst → Q inst d) → wp (get_oinst i) Q d.
Proof.
  intros HQ. unfold get_oinst. wp_step. wp_step. destruct (d_olog d !! i); [|done]. wp_step. by apply HQ.
Qed.
Lemma wp_with_oinst i g (Q : unit → DQPBFT → Prop) d :
  (∀ inst inst', d_olog d !! i = Some inst → g inst = Ret inst' → Q tt (oput i inst' d)) →
  wp (with_oinst i g) Q d.
Proof.
  intros HQ. unfold with_oinst. wp_step. apply wp_get_oinst. intros inst Hi. wp_step. apply wp_lift.
  intros inst' Hg. wp_step. by eapply HQ.
Qed.

(** A change that keeps the facts about the batch at [i]. *)
Definition harmless (i : Z) (g : oinstance → outcome oinstance) : Prop :=
  ∀ inst inst', g inst = Ret inst' → oinst_ok i inst → oinst_ok i inst' ∧ hash_le inst inst'.
Lemma with_oinst_inv i g d :
  harmless i g → order_inv d →
  wp (with_oinst i g) (λ _ d', order_inv d' ∧ ∃ inst inst', d_olog d !! i = Some inst ∧
    g inst = Ret inst' ∧ d' = oput i inst' d) d.
Proof.
  intros Hg Hd. apply wp_with_oinst. intros inst inst' Hi Hgi.
  destruct (Hg _ _ Hgi (ov_olog _ Hd _ _ Hi)) as [Hok Hle]. split; [|by eauto].
  apply oput_inv; [done| |done]. intros inst0 Hi0. rewrite Hi in Hi0. by injection Hi0 as <-.
Qed.
Lemma with_oinst_inv' i g d :
  harmless i g → order_inv d → wp (with_oinst i g) (λ _, order_inv) d.
Proof. intros Hg Hd. eapply wp_mono; [by apply with_oinst_inv|]. by intros _ d' [? _]. Qed.

Lemma log_opCert_ok i j m : harmless i (λ inst, q ← OQuorum_log j m (opCert inst); Ret (inst <| opCert := q |>)).
Proof. intros inst inst' Hg [? ? ? ?]. outcome_inv. split; [by split|by intros ?]. Qed.
Lemma log_ocCert_ok i j m :
  vote i (om_CommandHash m) j →
  harmless i (λ inst, q ← OQuorum_log j m (ocCert inst); Ret (inst <| ocCert := q |>)).
Proof.
  intros Hv inst inst' Hg [? ? ? ?]. outcome_inv. split; [split; try done|by intros ?].
  by eapply Quorum.votes_log.
Qed.
(** A status that asks for nothing new. *)
Lemma set_ostatus_ok i st :
  (∀ inst, oinst_ok i inst → ((OInstanceState_OPrePrepared ≤ st)%Z → is_Some (ohash inst)) ∧
    ((OInstanceState_OCommitted ≤ st)%Z → certified i (ohash inst))) →
  harmless i (λ inst, Ret (inst <| oi_is ::= set ois_Status (λ _, st) |>)).
Proof.
  intros Hst inst inst' [= <-] Hok. destruct (Hst _ Hok). destruct Hok. split; [by split|by intros ?].
Qed.

Lemma update_hash_spec m inst inst' :
  updateOCommandHash m inst = Ret inst' →
  oi_is inst' = set ois_CommandHash (λ _, ohash inst') (oi_is inst) ∧ ocCert inst' = ocCert inst ∧
  hash_le inst inst' ∧ (is_Some (om_CommandHash m) → is_Some (ohash inst')) ∧
  om_CommandHash m ≈ ohash inst'.
Proof.
  unfold updateOCommandHash. change (ois_CommandHash (oi_is inst)) with (ohash inst).
  destruct (ohash inst) as [x|] eqn:Hx.
  - destruct (bytes_Equal (Some x) (om_CommandHash m)) eqn:He; simpl; [|done]. intros [= <-].
    apply bytes_Equal_spec in He. rewrite Hx. split_and!; try done; [|by intros ?].
    unfold ohash in Hx. by destruct inst as [[] ? ?]; simpl in *; subst.
  - intros [= <-]. unfold hash_le. rewrite Hx. by split_and!.
Qed.
Lemma update_hash_ok i m : harmless i (updateOCommandHash m).
Proof.
  intros inst inst' (E & Ec & Hle & _ & _)%update_hash_spec [? Hh Hv Hc]. split; [|done].
  split; unfold ostatus in *; rewrite ?Ec, ?E; cbn; try done.
  - intros Hs. destruct (Hh Hs) as [x Hx]. rewrite (Hle x Hx). by eexists.
  - intros Hs. assert ((OInstanceState_OPrePrepared ≤ ois_Status (oi_is inst))%Z) as Hs'.
    { unfold OInstanceState_OPrePrepared, OInstanceState_OCommitted in *. lia. }
    destruct (Hh Hs') as [x Hx]. rewrite (Hle x Hx), <-Hx. by apply Hc.
Qed.
Lemma update_batch_ok i m :
  harmless i (λ inst, inst ← updateOCommand m inst; updateOCommandHash m inst).
Proof.
  intros inst inst' Hg Hok. unfold updateOCommand in Hg.
  destruct (ois_Instances (oi_is inst)) as [l|].
  - destruct (InstancesEquals _ _); simpl in Hg; [|done]. by eapply update_hash_ok.
  - simpl in Hg. apply (update_hash_ok i m _ _ Hg). by destruct Hok.
Qed.

(** ** Sending *)
#[local] Arguments Worker.Exec : simpl never.
#[local] Arguments Worker.pending : simpl never.

Lemma dq_broadcast_inv m self d :
  order_inv d →
  match m with
  | DQPBFTMessage_Agreement _ => True
  | DQPBFTMessage_OAgreement om =>
      om_Type om = OAgreementMessage_OCommit → fixed d (om_Index om) (om_CommandHash om)
  | DQPBFTMessage_nil => False
  end →
  wp (broadcast m self) (λ _ d', order_inv d' ∧ d_olog d' = d_olog d) d.
Proof.
  intros Hd Hm. unfold broadcast. destruct (Marshal m) as [b|] eqn:Hb; [|done]. wp_step. split; [|done].
  assert (backed d b) as Hbk.
  { intros om' Hu Ht. destruct m as [am|om|]; [| |done].
    - apply Unmarshal_Agreement in Hb as [? Hb]. congruence.
    - apply Unmarshal_OAgreement in Hb as (om'' & Hb & Et & Ei & Eh). rewrite Hu in Hb. injection Hb as <-.
      destruct (Hm ltac:(congruence)) as (inst & ? & ? & ?). exists inst. rewrite Ei. split_and!; try done.
      by etrans. }
  destruct Hd. split; cbn; try done.
  intros j. rewrite Worker.Exec_pending. intros [->|?]%elem_of_cons; [done|by apply ov_jobs0].
Qed.

Lemma dq_enqueue_inv to b c d : backed d b → order_inv d → order_inv (d <| d_msgs ::= λ l, l ++ [mkMessage (d_id d) to b c] |>).
Proof.
  intros Hb []. split; cbn; try done. intros m [?|Hm]%elem_of_app; [by apply ov_msgs0|].
  by apply list_elem_of_singleton in Hm as ->.
Qed.

Lemma dq_send_signed_inv j cert d :
  backed d (sj_mBytes j) → order_inv d → wp (send_signed j cert) (λ _, order_inv) d.
Proof.
  intros Hb Hd. unfold send_signed. wp_step. wp_step.
  eapply (wp_mono _ (λ _ d', order_inv d' ∧ backed d' (sj_mBytes j))); [|by intros ?? [? _]].
  apply (wp_for_each (λ d', order_inv d' ∧ backed d' (sj_mBytes j))); [|done].
  intros node d1 _ [Hd1 Hb1]. wp_step; [|done]. wp_step. wp_step. unfold enqueueForSending. wp_step.
  split; [by apply dq_enqueue_inv|done].
Qed.

Lemma dq_AsyncCallback_inv d : order_inv d → wp AsyncCallback (λ _, order_inv) d.
Proof.
  intros Hd. unfold AsyncCallback. wp_step. wp_step. apply (wp_loop order_inv); [|done]. intros d1 Hd1.
  unfold AsyncCallback_body. wp_step. wp_step. destruct (d_callbackC d1) as [|[j cert] rest] eqn:Hc; [done|].
  wp_step. wp_step. wp_step.
  assert (∀ jc, jc ∈ (j, cert) :: rest → backed d1 (sj_mBytes jc.1)) as Hb by (rewrite <-Hc; apply Hd1).
  eapply wp_mono.
  - apply dq_send_signed_inv; [apply (Hb (j, cert)); by left|]. destruct Hd1. split; try done. cbn.
    intros jc ?. apply (Hb jc). by right.
  - simpl. intros _ d2 Hd2. by wp_step.
Qed.

Lemma dq_worker_step_inv cap e d d' : worker_step cap e d = Some d' → order_inv d → order_inv d'.
Proof.
  unfold worker_step. intros ([w cbs] & Hw & [= <-])%bind_Some Hd.
  apply Worker.step_jobs in Hw as [Hj Hc]. destruct Hd. split; cbn; try done.
  - intros j Hin. by apply ov_jobs0, Hj.
  - intros jc [?|[? _]]%Hc; [by apply ov_callbacks0|by apply ov_jobs0].
Qed.

(** ** Delivery *)
Lemma deliver_core i d : keeps core (deliver i) d.
Proof. unfold deliver, get_inst, set_status, with_inst, enqueueForDelivery, get_inst. keeps_steps. Qed.

Lemma dq_exec_inv d : order_inv d → wp exec (λ _, order_inv) d.
Proof.
  intros Hd. unfold exec. wp_step. wp_step. apply (wp_loop order_inv); [|done]. intros d1 Hd1.
  unfold exec_body. wp_step. wp_step. destruct (d_olog d1 !! d_nextODeliverIndex d1) as [inst|] eqn:Hi; [|done].
  wp_step; [done|]. wp_step; [done|]. wp_step. eapply wp_mono.
  { apply (keeps_for_each core). intros x s. apply deliver_core. }
  simpl. intros _ d2 E. pose proof (dq_core_inv _ _ E Hd1) as Hd2. injection E as _ _ _ _ E _ _ _. wp_step.
  match goal with Hb : negb (IsOCommitted _) = false |- _ =>
    apply negb_false_iff, bool_decide_eq_true in Hb; rename Hb into Hst end.
  apply wp_with_oinst. intros inst0 inst' Hi0 [= <-]. rewrite E, Hi in Hi0. injection Hi0 as <-.
  wp_step. wp_step. wp_step. simpl.
  apply (dq_core_inv (oput (d_nextODeliverIndex d1)
    (inst <| oi_is ::= set ois_Status (λ _, OInstanceState_OExecuted) |>) d2)); [done|].
  apply oput_inv; [| |done].
  - destruct (ov_olog _ Hd1 _ _ Hi) as [? Hh ? Hc]. unfold ostatus in *. rewrite Hst in *.
    split; try done; intros _; first [by apply Hh|by apply Hc].
  - intros inst0. rewrite E, Hi. intros [= <-]. by intros ?.
Qed.

(** ** The phases *)
Lemma vote_eqv i h h' j : h ≈ h' → vote i h j → vote i h' j.
Proof. intros He [?|(h1 & ? & ?)]; [by left|right]. exists h1. split; [done|]. by rewrite <-He. Qed.

Lemma set_ostatus_inv i st inst d :
  d_olog d !! i = Some inst → order_inv d →
  ((OInstanceState_OPrePrepared ≤ st)%Z → is_Some (ohash inst)) →
  ((OInstanceState_OCommitted ≤ st)%Z → certified i (ohash inst)) →
  wp (set_ostatus i st) (λ _ d', order_inv d' ∧
    d_olog d' !! i = Some (inst <| oi_is ::= set ois_Status (λ _, st) |>)) d.
Proof.
  intros Hi Hd Hh Hc. apply wp_with_oinst. intros inst0 inst' Hi0 [= <-]. rewrite Hi in Hi0. injection Hi0 as <-.
  split; [|cbn; by rewrite lookup_insert_eq]. destruct (ov_olog _ Hd _ _ Hi).
  apply oput_inv; [by split| |done]. intros inst0. rewrite Hi. intros [= <-]. by intros ?.
Qed.

Lemma maybeOCommit_inv i cm inst d :
  d_olog d !! i = Some inst → om_CommandHash cm ≈ ohash inst → order_inv d →
  wp (maybeOCommit i cm) (λ _, order_inv) d.
Proof.
  intros Hi He Hd. unfold maybeOCommit. wp_step. apply wp_get_oinst. rewrite Hi. intros ? [= <-].
  wp_step. wp_step. wp_step; [|done].
  match goal with Hb : _ && _ = true |- _ => apply andb_true_iff in Hb as [Hm Hst%bool_decide_eq_true] end.
  destruct (ov_olog _ Hd _ _ Hi) as [Hidx Hh Hv _]. unfold ostatus in Hh. rewrite Hst in Hh.
  wp_step. eapply wp_mono.
  - apply (set_ostatus_inv i _ inst); [done..|by intros _; apply Hh|]. intros _.
    unfold OQuorum_Majority in Hm. rewrite (ov_f _ Hd) in Hm.
    destruct (Quorum.Majority_voters _ (2 * f) cm _ ltac:(lia) Hv Hm) as (A & Hs & HA).
    exists A. split; [done|]. intros j (m' & Hvote & Heq)%HA. apply OAM_Equals_spec in Heq as (_ & _ & Heq).
    eapply vote_eqv; [|done]. by rewrite <-Heq.
  - simpl. intros _ d1 [Hd1 _]. by apply dq_exec_inv.
Qed.

Lemma maybeOPrepare_inv i m d : om_Index m = i → order_inv d → wp (maybeOPrepare i m) (λ _, order_inv) d.
Proof.
  intros <- Hd. unfold maybeOPrepare. wp_step. apply wp_get_oinst. intros inst Hi. wp_step. wp_step.
  wp_step; [|done].
  match goal with Hb : _ && _ = true |- _ => apply andb_true_iff in Hb as [_ Hst%bool_decide_eq_true] end.
  destruct (ov_olog _ Hd _ _ Hi) as [Hidx Hh Hv _]. unfold ostatus in Hh. rewrite Hst in Hh.
  destruct (Hh ltac:(done)) as [x Hx]. wp_step. eapply wp_mono.
  { apply (set_ostatus_inv _ _ inst); [done..|by intros _; eexists|].
    by unfold OInstanceState_OPrepared, OInstanceState_OCommitted. }
  simpl. intros _ d1 [Hd1 Hi1]. wp_step. eapply wp_mono.
  { apply dq_broadcast_inv; [done|]. cbn. intros _. eexists. split; [exact Hi1|]. split; [by eexists|done]. }
  simpl. intros _ d2 [Hd2 E2]. wp_step. eapply wp_mono.
  { apply with_oinst_inv; [|exact Hd2]. apply log_ocCert_ok. left. apply (ov_id _ Hd). }
  simpl. intros _ d3 (Hd3 & inst2 & inst3 & Hi2 & Hg & ->). rewrite E2, Hi1 in Hi2. injection Hi2 as <-.
  eapply maybeOCommit_inv; [cbn; by rewrite lookup_insert_eq| |done]. outcome_inv. done.
Qed.

(** The hash of a message that was compared with the batch. *)
Definition agrees (m : OAgreementMessage) (g : oinstance → outcome oinstance) : Prop :=
  ∀ inst inst', g inst = Ret inst' → om_CommandHash m ≈ ohash inst' ∧
    (is_Some (om_CommandHash m) → is_Some (ohash inst')).
Lemma update_hash_agrees m : agrees m (updateOCommandHash m).
Proof. by intros inst inst' (_ & _ & _ & ? & ?)%update_hash_spec. Qed.
Lemma update_batch_agrees m : agrees m (λ inst, inst ← updateOCommand m inst; updateOCommandHash m inst).
Proof. intros inst inst' Hg. outcome_inv. by eapply update_hash_agrees. Qed.

Lemma fetch_oinstance_inv checks m d :
  harmless (om_Index m) checks → agrees m checks → order_inv d →
  wp (fetch_oinstance checks m) (λ _ d', order_inv d' ∧ ∃ inst, d_olog d' !! om_Index m = Some inst ∧
    om_CommandHash m ≈ ohash inst ∧ (is_Some (om_CommandHash m) → is_Some (ohash inst))) d.
Proof.
  intros Hh Ha Hd. unfold fetch_oinstance. wp_step. wp_step.
  destruct (d_olog d !! om_Index m) as [inst0|] eqn:Hi.
  - eapply wp_mono; [by apply with_oinst_inv|]. simpl. intros _ d' (Hd' & inst & inst' & _ & Hg & ->).
    split; [done|]. exists inst'. split; [cbn; by rewrite lookup_insert_eq|]. by eapply Ha.
  - wp_step. split.
    + apply (oput_inv _ (makeOInstance m)); [| |done].
      * by split.
      * by rewrite Hi.
    + exists (makeOInstance m). cbn. by rewrite lookup_insert_eq.
Qed.

Lemma onOCommit_inv m from d :
  vote (om_Index m) (om_CommandHash m) from → order_inv d → wp (onOCommit m from) (λ _, order_inv) d.
Proof.
  intros Hv Hd. unfold onOCommit. wp_step. eapply wp_mono.
  { apply fetch_oinstance_inv; [apply update_hash_ok|apply update_hash_agrees|done]. }
  simpl. intros _ d1 (Hd1 & inst & Hi & He & _). wp_step. eapply wp_mono.
  { apply with_oinst_inv; [by apply log_ocCert_ok|done]. }
  simpl. intros _ d2 (Hd2 & inst1 & inst2 & Hi1 & Hg & ->). rewrite Hi in Hi1. injection Hi1 as <-.
  eapply maybeOCommit_inv; [cbn; by rewrite lookup_insert_eq| |done]. by outcome_inv.
Qed.

Lemma onOPrepare_inv m from : preserves order_inv (onOPrepare m from).
Proof.
  intros d Hd. unfold onOPrepare. wp_step. wp_step. wp_step. wp_step. wp_step; [done|]. wp_step.
  eapply wp_mono; [apply fetch_oinstance_inv; [apply update_hash_ok|apply update_hash_agrees|done]|].
  simpl. intros _ d1 [Hd1 _]. wp_step. eapply wp_mono; [by apply with_oinst_inv', Hd1; apply log_opCert_ok|].
  simpl. intros _ d2 Hd2. by apply maybeOPrepare_inv.
Qed.

Lemma onOPrePrepare_inv m from : preserves order_inv (onOPrePrepare m from).
Proof.
  intros d Hd. unfold onOPrePrepare. wp_step. wp_step. wp_step. wp_step. wp_step; [done|]. wp_step.
  set (m' := m <| om_CommandHash := _ |>). eapply wp_mono.
  { apply (fetch_oinstance_inv _ m'); [apply update_batch_ok|apply update_batch_agrees|done]. }
  simpl. intros _ d1 (Hd1 & inst & Hi & _ & Hs). destruct (Hs ltac:(by eexists)) as [x Hx].
  wp_step. eapply wp_mono; [by apply with_oinst_inv, Hd1; apply log_opCert_ok|].
  simpl. intros _ d2 (Hd2 & inst1 & inst2 & Hi1 & Hg & ->).
  rewrite Hi in Hi1. injection Hi1 as <-.
  assert (ohash inst2 = Some x ∧ ois_Index (oi_is inst2) = om_Index m) as [Hx2 Hidx].
  { split; [by outcome_inv|]. eapply (oo_index (om_Index m)), (ov_olog _ Hd2). cbn. by rewrite lookup_insert_eq. }
  wp_step. eapply wp_mono.
  { apply (set_ostatus_inv _ _ inst2); [cbn; by rewrite lookup_insert_eq|done|intros _; by eexists|].
    by unfold OInstanceState_OPrePrepared, OInstanceState_OCommitted. }
  simpl. intros _ d3 [Hd3 Hi3]. wp_step. apply wp_get_oinst. rewrite Hi3. intros ? [= <-]. wp_step.
  eapply wp_mono; [by apply with_oinst_inv', Hd3; apply log_opCert_ok|].
  simpl. intros _ d4 Hd4. wp_step. eapply wp_mono; [by apply dq_broadcast_inv|].
  simpl. intros _ d5 [Hd5 _]. by apply maybeOPrepare_inv.
Qed.

(** ** The rest of the replica *)
Lemma not_primary d b : order_inv d → isPrimaryAtView (d_id d) (d_oview d) d = Ret b → b = false.
Proof.
  intros Hd. unfold isPrimaryAtView. rewrite (ov_id _ Hd), (ov_oview _ Hd), (ov_peers _ Hd). intros Hb.
  outcome_inv. apply bool_decide_eq_false. by intros ->.
Qed.
Lemma sendCRequest_inv : preserves order_inv sendCRequest.
Proof.
  intros d Hd. unfold sendCRequest. wp_step. wp_step. wp_step. apply wp_lift. intros b ->%not_primary; [|done].
  by wp_step.
Qed.
Lemma onCRequest_inv i : preserves order_inv (onCRequest i).
Proof.
  intros d Hd. unfold onCRequest. wp_step. wp_step. wp_step. apply wp_lift. intros b ->%not_primary; [|done].
  by wp_step.
Qed.
Lemma dq_with_inst_inv i g : preserves order_inv (with_inst i g).
Proof.
  apply (preserves_keeps _ core); [apply dq_core_inv|]. intros d. unfold with_inst, get_inst. keeps_steps.
Qed.
Lemma get_inst_inv i : preserves order_inv (get_inst i).
Proof. unfold get_inst. preserves_steps. Qed.
Lemma broadcast_agreement_inv m self : preserves order_inv (broadcast (DQPBFTMessage_Agreement m) self).
Proof. intros d Hd. eapply wp_mono; [by apply dq_broadcast_inv|]. by intros _ d' [? _]. Qed.
Lemma put_log_inv i (inst : DQPBFT → instance) :
  preserves order_inv (modify (λ d, d <| d_log ::= <[i := inst d]> |>)).
Proof. apply preserves_modify. intros d. by apply dq_core_inv. Qed.
Lemma dq_index_inv x : preserves order_inv (modify (λ d, d <| d_index := x |>)).
Proof. apply preserves_modify. intros d. by apply dq_core_inv. Qed.
#[local] Hint Resolve sendCRequest_inv onCRequest_inv dq_with_inst_inv get_inst_inv broadcast_agreement_inv
  put_log_inv dq_index_inv dq_exec_inv : go_inv.
Lemma dq_exec_preserves : preserves order_inv exec.
Proof. intros d. apply dq_exec_inv. Qed.
#[local] Hint Resolve dq_exec_preserves : go_inv.

Lemma dq_fetch_instance_inv checks m : preserves order_inv (fetch_instance checks m).
Proof. unfold fetch_instance. preserves_steps. Qed.
Lemma dq_maybeCommit_inv i m : preserves order_inv (maybeCommit i m).
Proof. unfold maybeCommit, set_status. preserves_steps. Qed.
#[local] Hint Resolve dq_fetch_instance_inv dq_maybeCommit_inv : go_inv.
Lemma dq_maybePrepare_inv i m : preserves order_inv (maybePrepare i m).
Proof. unfold maybePrepare, set_status, log_cCert. preserves_steps. Qed.
#[local] Hint Resolve dq_maybePrepare_inv : go_inv.

Lemma dq_stepNormal_inv m from : preserves order_inv (stepNormal m from).
Proof.
  unfold stepNormal, onPrePrepare, onPrepare, onCommit, log_pCert, log_cCert, set_status. preserves_steps.
Qed.
Lemma dq_onRequest_inv cmd : preserves order_inv (onRequest cmd).
Proof. unfold onRequest, log_pCert. preserves_steps. Qed.
Lemma dq_Tick_inv : preserves order_inv Tick.
Proof.
  unfold Tick, tick_one, run_action. preserves_steps. apply preserves_modify. intros d. by apply dq_core_inv.
Qed.

(** The commit votes of a message are heard. *)
Definition hears (c : call) : Prop :=
  match c with
  | Call_Step msg => ∀ m, Unmarshal (msg_Content msg) = Some (DQPBFTMessage_OAgreement m) →
      om_Type m = OAgreementMessage_OCommit → heard (msg_From msg) (om_Index m) (om_CommandHash m)
  | _ => True
  end.
Lemma dq_Step_inv msg d : hears (Call_Step msg) → order_inv d → wp (Step msg) (λ _, order_inv) d.
Proof.
  intros Hh Hd. unfold Step. destruct (Unmarshal (msg_Content msg)) as [m|] eqn:Hu; [|done].
  wp_step; [done|]. destruct m as [m|m|]; [by apply dq_stepNormal_inv| |done]. specialize (Hh m Hu).
  unfold stepONormal. repeat case_decide; [by apply onOPrePrepare_inv|by apply onOPrepare_inv| |done].
  apply onOCommit_inv; [|done]. right. exists (om_CommandHash m). split; [by apply Hh|done].
Qed.

Definition sign_pool (cap : nat) d d' : Prop := ∃ e, worker_step cap e d = Some d'.
Lemma order_invariant cap : invariant_with (sign_pool cap) hears (λ _, order_inv).
Proof.
  split.
  - intros [msg|c| |cb| |] h d Hc Hd; simpl.
    + by apply dq_Step_inv.
    + by apply dq_onRequest_inv.
    + by apply dq_Tick_inv.
    + by unfold Callback; wp_step.
    + by apply dq_AsyncCallback_inv.
    + unfold ClearMsgs. wp_step. destruct Hd. split; try done. cbn. by intros m ?%not_elem_of_nil.
  - intros h d d' [e He]. by eapply dq_worker_step_inv.
  - intros h d Hd. simpl. unfold MakeReady, ClearMsgs, ClearExecutedCommands. wp_step. intros sent.
    wp_step. wp_step; wp_step; [wp_step|]; destruct Hd; split; try done; cbn.
    by intros m ?%not_elem_of_nil.
Qed.
End invariant.

(** ** From the first state *)
#[local] Arguments Worker.NewDispatcher : simpl never.
Section start.
Context `{GoEnv, Codec Command, Codec DQPBFTMessage, Certifier, !DQCodecLaws}.
Implicit Types (c : Config) (d : DQPBFT).

Lemma NewDQPBFT_inv heard c d :
  NewDQPBFT c = Ret d → order_inv (cfg_ID c) (cfg_Peers c) (cfg_MaxFailures c) (cfg_LeaderID c) heard ∅ d.
Proof.
  unfold NewDQPBFT. destruct (cfg_Workers c !! _) as [n|]; [|done].
  destruct (cfg_WorkersQueueSizes c !! _); [|done]. intros [= <-]. split; try done; cbn.
  - intros j. rewrite Worker.NewDispatcher_pending. by intros ?%not_elem_of_nil.
  - by intros jc ?%not_elem_of_nil.
  - by intros m ?%not_elem_of_nil.
Qed.

(** A vote sent at some point of the run from [d0] to [d]. *)
Definition sent (cap : nat) d0 (h : list ExecPacket) d (i : Z) (x : slice) : Prop :=
  ∃ h1 d1 msg m, runs (sign_pool cap) [] d0 h1 d1 ∧ runs (sign_pool cap) h1 d1 h d ∧ msg ∈ d_msgs d1 ∧
    Unmarshal (msg_Content msg) = Some (DQPBFTMessage_OAgreement m) ∧
    om_Type m = OAgreementMessage_OCommit ∧ om_Index m = i ∧ om_CommandHash m = x.

Lemma runs_hears cap h d h' d' :
  runs (sign_pool cap) h d h' d' → runs_with (sign_pool cap) (hears (λ _ _ _, True)) h d h' d'.
Proof. apply runs_with_mono. by intros []. Qed.

(** What was voted for is in the log for good. *)
Lemma sent_fixed cap c d0 h d i x :
  (0 ≤ cfg_MaxFailures c)%Z → leader_of (cfg_LeaderID c) (length (cfg_Peers c)) ≠ Ret (cfg_ID c) →
  NewDQPBFT c = Ret d0 → sent cap d0 h d i x → fixed d i x.
Proof.
  intros Hf Hl Hn (h1 & d1 & msg & m & Hr1%runs_hears & Hr2%runs_hears & Hmsg & Hu & Ht & <- & <-).
  pose proof (runs_with_inv _ _ _ _ _ _ _ (order_invariant _ _ _ _ Hf Hl _ _ cap) Hr1 (NewDQPBFT_inv _ _ _ Hn)) as Hd1.
  destruct (ov_msgs _ _ _ _ _ _ _ Hd1 _ Hmsg m Hu Ht) as (inst & Hi & [y Hy] & He).
  assert (order_inv (cfg_ID c) (cfg_Peers c) (cfg_MaxFailures c) (cfg_LeaderID c) (λ _ _ _, True)
    {[om_Index m := y]} d1) as Hd1'.
  { destruct Hd1. split; try done. intros j z [<- <-]%lookup_singleton_Some. eauto. }
  pose proof (runs_with_inv _ _ _ _ _ _ _ (order_invariant _ _ _ _ Hf Hl _ _ cap) Hr2 Hd1') as Hd.
  destruct (ov_floor _ _ _ _ _ _ _ Hd (om_Index m) y) as (inst' & Hi' & Hy'); [apply lookup_singleton_eq|].
  exists inst'. rewrite Hy in He. rewrite Hy'. by repeat split.
Qed.
End start.
