(* ===== verification/DqpbftDeliver.v ===== *)
(** * What DQPBFT delivers

    The invariant behind the order of delivery at a replica that is not the
    primary of the ordering: what it delivers are the commands of the batches
    0, 1, ..., each instance of another replica at most once, with the hash
    that a quorum has committed. *)
From S2P Require Import Prelude Command Worker Certifier Peer Runs Dqpbft DqpbftSafety.
From S2P Require Quorum.
Import Dqpbft.

Section deliver.
Context `{GoEnv, Codec Command, Codec DQPBFTMessage, Certifier}.
Context (id : Z) (peers : list Z) (f oview : Z) (Hf : (0 ≤ f)%Z).
Context (follower : leader_of oview (length peers) ≠ Ret id).
Context (marshals : ∀ cmd : Command, is_Some (Marshal cmd)).
Implicit Types (d : DQPBFT) (inst : instance) (oinst : oinstance) (i : InstanceID).

Definition hash inst : slice := is_CommandHash (i_is inst).
Definition status inst : Z := is_Status (i_is inst).
Definition cmd_of inst : option Command := is_Command (i_is inst).
(** An instance that another replica owns. *)
Definition foreign i : Prop := iid_ReplicaID i ≠ id.

(** The command [c] is one with hash [h], or equal to one. *)
Definition has_hash (c : Command) (h : slice) : Prop :=
  ∃ c' x, (Command_Hash c').1 = Some x ∧ h ≈ Some x ∧ (c' = c ∨ Command_Equal c (Some c') = Ret true).
(** More than [2f] commit votes for the hash of the instance. *)
Definition has_quorum inst : Prop :=
  ∃ cm, m_CommandHash cm ≈ hash inst ∧ (2 * f < Z.of_nat (size (Quorum.matching cm (cCert inst))))%Z.

(** The replica's own vote is logged, so that a second one panics. *)
Definition own_logged {Msg} `{Quorum.QMsg Msg} (v : Z) (q : Quorum.Quorum Msg) : Prop :=
  is_Some (Quorum.view_msgs v q !! id).

Record cinst_ok i inst : Prop := {
  ci_id : is_InstanceID (i_is inst) = i;
  ci_status : (InstanceState_None ≤ status inst ≤ InstanceState_Executed)%Z;
  ci_own : (InstanceState_PrePrepared ≤ status inst)%Z → own_logged (is_View (i_is inst)) (pCert inst);
  ci_hash : foreign i → (InstanceState_PrePrepared ≤ status inst)%Z → is_Some (hash inst);
  ci_cmd c : foreign i → (InstanceState_PrePrepared ≤ status inst)%Z → cmd_of inst = Some c → has_hash c (hash inst);
  ci_quorum : foreign i → (InstanceState_Committed ≤ status inst)%Z → has_quorum inst;
  ci_done : foreign i → (InstanceState_Executed ≤ status inst)%Z → cmd_of inst = None;
}.
Definition ids_of oinst : list InstanceID := default [] (ois_Instances (oi_is oinst)).
Record obatch_ok (k : Z) oinst : Prop := {
  ob_index : ois_Index (oi_is oinst) = k;
  ob_status : (OInstanceState_None ≤ ostatus oinst ≤ OInstanceState_OExecuted)%Z;
  ob_own : (OInstanceState_OPrePrepared ≤ ostatus oinst)%Z → own_logged (ois_View (oi_is oinst)) (opCert oinst);
  ob_hash : (OInstanceState_OPrePrepared ≤ ostatus oinst)%Z → ohash oinst = Some (batch_hash (ids_of oinst));
}.

(** A packet of instance [i]. *)
Definition packet_ok d i (pkt : ExecPacket) : Prop :=
  foreign i → ∃ inst, d_log d !! i = Some inst ∧ status inst = InstanceState_Executed ∧
    has_hash (x_Cmd pkt) (hash inst) ∧ has_quorum inst.
(** Batch [k] has been executed and holds [ids]. *)
Definition batch_ok d (k : Z) (ids : list InstanceID) : Prop :=
  ∃ oinst, d_olog d !! k = Some oinst ∧ ostatus oinst = OInstanceState_OExecuted ∧ ids_of oinst = ids.

#[export] Instance foreign_dec i : Decision (foreign i).
Proof. unfold foreign. apply _. Defined.

(** [done]: what has been delivered of the next batch. *)
Record delivered_to (h : list ExecPacket) d (idss : list (list InstanceID)) (done : list InstanceID) : Prop := {
  dl_next : d_nextODeliverIndex d = u64 (Z.of_nat (length idss));
  dl_batches k ids : idss !! k = Some ids → batch_ok d (u64 (Z.of_nat k)) ids;
  dl_packets : Forall2 (packet_ok d) (mjoin idss ++ done) (h ++ d_toDeliver d);
  dl_once : NoDup (filter foreign (mjoin idss ++ done));
}.

Record base_ok d : Prop := {
  bo_id : d_id d = id;
  bo_peers : d_peers d = peers;
  bo_f : d_f d = f;
  bo_oview : d_oview d = oview;
  bo_log i inst : d_log d !! i = Some inst → cinst_ok i inst;
  bo_olog k oinst : d_olog d !! k = Some oinst → obatch_ok k oinst;
}.
Definition deliver_inv (h : list ExecPacket) d : Prop :=
  base_ok d ∧ ∃ idss, delivered_to h d idss [].

(** What the invariant looks at. *)
Definition dcore d := (d_id d, d_peers d, d_f d, d_oview d, d_log d, (d_olog d, d_nextODeliverIndex d, d_toDeliver d)).
Lemma dcore_inv h d d' : dcore d' = dcore d → deliver_inv h d → deliver_inv h d'.
Proof.
  unfold dcore. intros [= E1 E2 E3 E4 E5 E6 E7 E8] [[] (idss & [])]. split.
  - split; rewrite ?E1, ?E2, ?E3, ?E4, ?E5, ?E6; done.
  - exists idss. split; unfold batch_ok, packet_ok in *; rewrite ?E5, ?E6, ?E7, ?E8; done.
Qed.

(** ** Replacing an instance *)
Definition cput i inst d : DQPBFT := d <| d_log ::= <[i := inst]> |>.
(** An executed instance of another replica stays as it is, as far as delivery goes. *)
Definition keeps_executed inst inst' : Prop :=
  status inst = InstanceState_Executed →
  status inst' = InstanceState_Executed ∧ (is_Some (hash inst) → hash inst' = hash inst) ∧
  ∀ v, Quorum.view_msgs v (cCert inst) ⊆ Quorum.view_msgs v (cCert inst').

Lemma has_quorum_grows inst inst' :
  hash inst' = hash inst → (∀ v, Quorum.view_msgs v (cCert inst) ⊆ Quorum.view_msgs v (cCert inst')) →
  has_quorum inst → has_quorum inst'.
Proof.
  intros E Hv (cm & He & Hs). exists cm. rewrite E. split; [done|].
  pose proof (Quorum.matching_mono cm (cCert inst) (cCert inst') (Hv _)). lia.
Qed.

Lemma cput_inv h i inst d :
  cinst_ok i inst →
  (∀ inst0, foreign i → d_log d !! i = Some inst0 → keeps_executed inst0 inst) →
  deliver_inv h d → deliver_inv h (cput i inst d).
Proof.
  intros Hok Hk [Hb (idss & Hd)]. pose proof Hb as [? ? ? ? Hlog Holog]. destruct Hd as [Hn Hbs Hp Ho]. split.
  - split; try done. intros j inst'. cbn. rewrite lookup_insert. case_decide; [subst; by intros [= <-]|apply Hlog].
  - exists idss. split; try done. eapply Forall2_impl; [exact Hp|].
    intros j pkt Hj Hfor. destruct (Hj Hfor) as (inst0 & Hj0 & Hst & Hh & Hq). cbn. rewrite lookup_insert.
    case_decide as E; [subst j|by eauto]. exists inst. split; [done|].
    destruct (Hk _ Hfor Hj0 Hst) as (? & Hhash & Hv).
    pose proof (ci_hash _ _ (Hlog _ _ Hj0) Hfor ltac:(rewrite Hst; done)) as Hs.
    split_and!; [done|by rewrite (Hhash Hs)|]. apply (has_quorum_grows inst0); auto.
Qed.

Lemma dq_wp_get_inst i Q d : (∀ inst, d_log d !! i = Some inst → Q inst d) → wp (get_inst i) Q d.
Proof.
  intros HQ. unfold get_inst. wp_step. wp_step. destruct (d_log d !! i); [|done]. wp_step. by apply HQ.
Qed.
Lemma dq_wp_with_inst i g (Q : unit → DQPBFT → Prop) d :
  (∀ inst inst', d_log d !! i = Some inst → g inst = Ret inst' → Q tt (cput i inst' d)) →
  wp (with_inst i g) Q d.
Proof.
  intros HQ. unfold with_inst. wp_step. apply dq_wp_get_inst. intros inst Hi. wp_step. apply wp_lift.
  intros inst' Hg. wp_step. by eapply HQ.
Qed.
(** The same when the instance has just been written. *)
Lemma wp_with_cput i g inst (Q : unit → DQPBFT → Prop) d :
  (∀ inst', g inst = Ret inst' → Q tt (cput i inst' d)) → wp (with_inst i g) Q (cput i inst d).
Proof.
  intros HQ. apply dq_wp_with_inst. intros inst0 inst'. cbn. rewrite lookup_insert_eq. intros [= <-] Hg.
  assert (cput i inst' (cput i inst d) = cput i inst' d) as ->.
  { unfold cput, set, set_d_log. cbn. by rewrite insert_insert_eq. }
  by apply HQ.
Qed.

(** A change that keeps the facts about the instance [i], whatever its status. *)
Definition charmless i (g : instance → outcome instance) : Prop :=
  ∀ inst inst', g inst = Ret inst' → cinst_ok i inst → cinst_ok i inst' ∧ keeps_executed inst inst'.
Lemma with_inst_deliver h i g d :
  charmless i g → deliver_inv h d →
  wp (with_inst i g) (λ _ d', deliver_inv h d' ∧ ∃ inst inst', d_log d !! i = Some inst ∧
    g inst = Ret inst' ∧ d' = cput i inst' d) d.
Proof.
  intros Hg Hd. apply dq_wp_with_inst. intros inst inst' Hi Hgi.
  destruct (Hg _ _ Hgi (bo_log _ (proj1 Hd) _ _ Hi)) as [Hok Hk]. split; [|by eauto].
  apply cput_inv; [done| |done]. intros inst0 _. rewrite Hi. by intros [= <-].
Qed.
Lemma with_inst_deliver' h i g d :
  charmless i g → deliver_inv h d → wp (with_inst i g) (λ _, deliver_inv h) d.
Proof. intros Hg Hd. eapply wp_mono; [by apply with_inst_deliver|]. by intros _ d' [? _]. Qed.

Lemma own_logged_mono {Msg} `{Quorum.QMsg Msg} strict v j m q q' :
  Quorum.log strict j m q = Ret q' → own_logged v q → own_logged v q'.
Proof.
  intros Hl [x Hx]. pose proof (Quorum.log_grows _ _ _ _ _ v Hl) as Hg.
  exists x. by eapply lookup_weaken.
Qed.
(** A second vote of the replica panics. *)
Lemma own_logged_log {Msg} `{Quorum.QMsg Msg} m q q' :
  own_logged (Quorum.q_view m) q → Quorum.log true id m q = Ret q' → False.
Proof. intros [x Hx] (_ & Hn & _)%Quorum.log_strict_inv. congruence. Qed.
Lemma log_own_logged {Msg} `{Quorum.QMsg Msg} m q q' :
  Quorum.log true id m q = Ret q' → own_logged (Quorum.q_view m) q'.
Proof.
  intros (_ & _ & _ & Hv)%Quorum.log_strict_inv. unfold own_logged. rewrite Hv, decide_True by done.
  rewrite lookup_insert_eq. by eexists.
Qed.

Lemma log_pCert_deliver i j m : charmless i (λ inst, q ← Quorum_log j m (pCert inst); Ret (inst <| pCert := q |>)).
Proof.
  intros inst inst' Hg []. outcome_inv. split.
  - split; try done. intros Hs. eapply own_logged_mono; [done|by apply ci_own0].
  - by intros Hs; split_and!.
Qed.
Lemma log_cCert_deliver i j m : charmless i (λ inst, q ← Quorum_log j m (cCert inst); Ret (inst <| cCert := q |>)).
Proof.
  intros inst inst' Hg []. outcome_inv.
  match goal with Hl : Quorum_log _ _ _ = Ret ?q |- _ =>
    pose proof (λ v, Quorum.log_grows _ _ _ _ _ v Hl) as Hv end. split.
  - split; try done. intros Hfor Hs. apply (has_quorum_grows inst); auto.
  - by intros Hs; split_and!.
Qed.
Lemma updateCommandHash_inv m inst inst' :
  updateCommandHash m inst = Ret inst' →
  inst' = inst <| i_is ::= set is_CommandHash (λ _, hash inst') |> ∧ m_CommandHash m ≈ hash inst' ∧
  (is_Some (hash inst) → hash inst' = hash inst) ∧ (is_Some (m_CommandHash m) → is_Some (hash inst')).
Proof.
  unfold updateCommandHash. change (is_CommandHash (i_is inst)) with (hash inst).
  destruct (hash inst) as [x|] eqn:Hx.
  - destruct (bytes_Equal (Some x) (m_CommandHash m)) eqn:He; simpl; [|done]. intros [= <-].
    apply bytes_Equal_spec in He. rewrite Hx. split_and!; try done. unfold hash in Hx.
    by destruct inst as [[] ? ?]; simpl in *; subst.
  - intros [= <-]. split_and!; try done.
Qed.
Lemma updateCommandHash_deliver i m : charmless i (updateCommandHash m).
Proof.
  intros inst inst' (E & He & Hk & _)%updateCommandHash_inv [].
  assert (status inst' = status inst ∧ cmd_of inst' = cmd_of inst ∧ pCert inst' = pCert inst ∧
    cCert inst' = cCert inst ∧ is_View (i_is inst') = is_View (i_is inst) ∧
    is_InstanceID (i_is inst') = is_InstanceID (i_is inst)) as (Es & Ec & Ep & Eq & Ev & Ei) by (by rewrite E).
  split; [split|]; rewrite ?Es, ?Ec, ?Ep, ?Ev, ?Ei; try done.
  - intros Hf1 Hs. destruct (ci_hash0 Hf1 Hs) as [x Hx]. rewrite Hk; [|by eexists]. by eexists.
  - intros c Hf1 Hs Hc. rewrite Hk by auto. auto.
  - intros Hf1 Hs. apply (has_quorum_grows inst); [apply Hk, ci_hash0; [done|]|by rewrite Eq|auto].
    unfold InstanceState_PrePrepared, InstanceState_Committed in *. lia.
  - intros Hs. split_and!; [by rewrite Es|done|by rewrite Eq].
Qed.

Lemma makeInstance_deliver m : cinst_ok (m_InstanceID m) (makeInstance m).
Proof. by split. Qed.
Lemma fetch_instance_deliver h m d :
  deliver_inv h d →
  wp (fetch_instance (updateCommandHash m) m) (λ _ d', deliver_inv h d' ∧
    ∃ inst, d_log d' !! m_InstanceID m = Some inst ∧ m_CommandHash m ≈ hash inst) d.
Proof.
  intros Hd. unfold fetch_instance. wp_step. wp_step. destruct (d_log d !! m_InstanceID m) as [inst0|] eqn:Hi.
  - eapply wp_mono; [by apply with_inst_deliver, Hd; apply updateCommandHash_deliver|]. simpl.
    intros _ d' (Hd' & inst & inst' & _ & (_ & He & _)%updateCommandHash_inv & ->). split; [done|].
    exists inst'. split; [|done]. cbn. by rewrite lookup_insert_eq.
  - wp_step. split; [|exists (makeInstance m); split; [|done]; cbn; by rewrite lookup_insert_eq].
    apply (cput_inv h _ (makeInstance m)); [apply makeInstance_deliver| |done]. intros inst0 _. by rewrite Hi.
Qed.
Lemma set_status_deliver h i st inst d :
  d_log d !! i = Some inst → status inst ≠ InstanceState_Executed → deliver_inv h d →
  cinst_ok i (inst <| i_is ::= set is_Status (λ _, st) |>) →
  wp (set_status i st) (λ _ d', deliver_inv h d' ∧
    d_log d' !! i = Some (inst <| i_is ::= set is_Status (λ _, st) |>)) d.
Proof.
  intros Hi Hne Hd Hok. apply dq_wp_with_inst. intros inst0 inst' Hi0 [= <-]. rewrite Hi in Hi0.
  injection Hi0 as <-. split; [|cbn; by rewrite lookup_insert_eq]. apply cput_inv; [done| |done].
  intros inst0 _. rewrite Hi. by intros [= <-] ?.
Qed.

(** ** Batches *)
(** A change of a batch that keeps its identifiers and status once it has been
    pre-prepared. *)
Lemma oput_deliver h k oinst d :
  obatch_ok k oinst →
  (∀ oinst0, d_olog d !! k = Some oinst0 → ostatus oinst0 = OInstanceState_OExecuted →
    ostatus oinst = OInstanceState_OExecuted ∧ ids_of oinst = ids_of oinst0) →
  deliver_inv h d → deliver_inv h (oput k oinst d).
Proof.
  intros Hok Hk [[] (idss & [])]. split.
  - split; try done. intros j oinst'. cbn. rewrite lookup_insert.
    case_decide; [subst; by intros [= <-]|by apply bo_olog0].
  - exists idss. split; try done. intros j ids Hj. destruct (dl_batches0 j ids Hj) as (oinst0 & Ho & Hs & E).
    unfold batch_ok. cbn. rewrite lookup_insert. case_decide as Ek; [|by eauto]. rewrite <-Ek in Ho.
    destruct (Hk _ Ho Hs) as [Hs' E']. exists oinst. split_and!; [done..|]. by rewrite E'.
Qed.
(** The lemma of the instances, for the batches. *)
Lemma wp_with_oput k g oinst (Q : unit → DQPBFT → Prop) d :
  (∀ oinst', g oinst = Ret oinst' → Q tt (oput k oinst' d)) → wp (with_oinst k g) Q (oput k oinst d).
Proof.
  intros HQ. apply wp_with_oinst. intros inst0 inst'. cbn. rewrite lookup_insert_eq. intros [= <-] Hg.
  assert (oput k inst' (oput k oinst d) = oput k inst' d) as ->.
  { unfold oput, set, set_d_olog. cbn. by rewrite insert_insert_eq. }
  by apply HQ.
Qed.
(** Changes of the votes and the hash of a batch. *)
Definition same_batch oinst oinst' : Prop :=
  ostatus oinst' = ostatus oinst ∧ ids_of oinst' = ids_of oinst ∧
  ois_View (oi_is oinst') = ois_View (oi_is oinst) ∧ ois_Index (oi_is oinst') = ois_Index (oi_is oinst) ∧
  hash_le oinst oinst' ∧
  ∀ v, own_logged v (opCert oinst) → own_logged v (opCert oinst').
Lemma with_oinst_deliver h k g d :
  (∀ oinst oinst', g oinst = Ret oinst' → same_batch oinst oinst') → deliver_inv h d →
  wp (with_oinst k g) (λ _ d', deliver_inv h d') d.
Proof.
  intros Hg Hd. apply wp_with_oinst. intros oinst oinst' Hk Hgk. destruct (Hg _ _ Hgk) as (Es & Ei & Ev & Ek & Hh & Ho).
  pose proof (bo_olog _ (proj1 Hd) _ _ Hk) as Hok. apply oput_deliver; [| |done].
  - destruct Hok. split; rewrite ?Es, ?Ev, ?Ei, ?Ek; auto.
  - intros oinst0. rewrite Hk. intros [= <-]. by rewrite Es, Ei.
Qed.
Lemma log_opCert_same j m oinst oinst' :
  (q ← OQuorum_log j m (opCert oinst); Ret (oinst <| opCert := q |>)) = Ret oinst' → same_batch oinst oinst'.
Proof. intros Hg. outcome_inv. split_and!; try done; [by intros ?|]. intros v. by eapply own_logged_mono. Qed.
Lemma log_ocCert_same j m oinst oinst' :
  (q ← OQuorum_log j m (ocCert oinst); Ret (oinst <| ocCert := q |>)) = Ret oinst' → same_batch oinst oinst'.
Proof. intros Hg. outcome_inv. split_and!; try done. by intros ?. Qed.
Lemma updateOCommandHash_same m oinst oinst' : updateOCommandHash m oinst = Ret oinst' → same_batch oinst oinst'.
Proof.
  intros Hs. pose proof (update_hash_spec _ _ _ Hs) as (E & _ & Hle & _). unfold same_batch, ostatus, ids_of. rewrite E.
  split_and!; try done. intros v. revert Hs. unfold updateOCommandHash. destruct (ois_CommandHash _); [destruct (bytes_Equal _ _)|];
    simpl; [|done|]; by intros [= <-].
Qed.
Lemma fetch_oinstance_deliver h m : preserves (deliver_inv h) (fetch_oinstance (updateOCommandHash m) m).
Proof.
  intros d Hd. unfold fetch_oinstance. wp_step. wp_step. destruct (d_olog d !! om_Index m) as [o|] eqn:Hk.
  - apply with_oinst_deliver; [|done]. apply updateOCommandHash_same.
  - wp_step. apply (oput_deliver h _ (makeOInstance m)); [by split| |done]. by rewrite Hk.
Qed.

(** ** Delivery *)
Lemma all_committed_spec ids d :
  all_committed ids d = true → ∀ i, i ∈ ids → ∃ inst, d_log d !! i = Some inst ∧ status inst = InstanceState_Committed.
Proof.
  induction ids as [|j ids IH]; simpl; [by intros _ i ?%not_elem_of_nil|].
  destruct (d_log d !! j) as [inst|] eqn:Hj; [|done].
  intros [[Hc%bool_decide_eq_true _]%andb_true_iff Hr]%andb_true_iff i [->|Hi]%elem_of_cons; [by eauto|by apply IH].
Qed.

(** While the batch [ids] is delivered, [done] of it so far. *)
Record delivering (h : list ExecPacket) (idss : list (list InstanceID)) (d0 : DQPBFT) (ids done : list InstanceID) d : Prop := {
  dv_base : base_ok d;
  dv_to : delivered_to h d idss done;
  dv_olog : d_olog d = d_olog d0;
  dv_next : d_nextODeliverIndex d = d_nextODeliverIndex d0;
  dv_ids i : i ∈ ids → ∃ inst, d_log d !! i = Some inst ∧ (InstanceState_Committed ≤ status inst)%Z;
}.

(** An instance of another replica with a command has no packet yet. *)
Lemma has_no_packet d i pkt inst c :
  base_ok d → d_log d !! i = Some inst → cmd_of inst = Some c → foreign i → packet_ok d i pkt → False.
Proof.
  intros Hb Hi Hc Hfor Hp. destruct (Hp Hfor) as (inst' & Hi' & Hs & _). rewrite Hi in Hi'. injection Hi' as <-.
  pose proof (ci_done _ _ (bo_log _ Hb _ _ Hi) Hfor). rewrite Hs in *. naive_solver.
Qed.
Lemma not_delivered_yet h d idss done i inst c :
  base_ok d → delivered_to h d idss done → d_log d !! i = Some inst → cmd_of inst = Some c → foreign i →
  i ∉ mjoin idss ++ done.
Proof.
  intros Hb Hd Hi Hc Hfor [k Hk]%list_elem_of_lookup.
  destruct (Forall2_lookup_l _ _ _ _ _ (dl_packets _ _ _ _ Hd) Hk) as (pkt & _ & Hp). by eapply has_no_packet.
Qed.

Lemma deliver_one h idss d0 ids done i d :
  i ∈ ids → delivering h idss d0 ids done d → wp (deliver i) (λ _, delivering h idss d0 ids (done ++ [i])) d.
Proof.
  intros Hin [Hb Hd Ho Hn Hids]. destruct (Hids i Hin) as (inst & Hi & Hst).
  pose proof (bo_log _ Hb _ _ Hi) as Hok. unfold deliver. wp_step. apply dq_wp_get_inst. rewrite Hi.
  intros ? [= <-]. destruct (is_Command (i_is inst)) as [cmd|] eqn:Hc; [|done].
  pose proof (λ Hfor, not_delivered_yet _ _ _ _ _ _ _ Hb Hd Hi Hc Hfor) as Hnew.
  unfold enqueueForDelivery. wp_step. wp_step. wp_step. wp_step. cbn. apply dq_wp_with_inst. cbn.
  intros inst0 inst'. rewrite lookup_insert_eq. intros [= <-] [= <-].
  set (inst1 := inst <| i_is ::= set is_Command (λ _, None) |> <| i_is ::= set is_Status (λ _, InstanceState_Executed) |>).
  assert ((InstanceState_PrePrepared ≤ status inst)%Z) as Hst1.
  { unfold InstanceState_PrePrepared, InstanceState_Committed in *. lia. }
  assert (cinst_ok i inst1) as Hok1.
  { destruct Hok. split; try done; intros; first [by apply ci_own0|by apply ci_hash0|by apply ci_quorum0]. }
  match goal with |- delivering _ _ _ _ _ ?d' => set (d1 := d') end.
  assert (d_log d1 = <[i := inst1]> (d_log d)) as E1 by (cbn; by rewrite insert_insert_eq).
  split; [| |done|done|].
  - destruct Hb. split; try done. intros j inst2. rewrite E1, lookup_insert.
    case_decide; [subst; by intros [= <-]|apply bo_log0].
  - destruct Hd as [Hnx Hbs Hp Honce]. split; [done|done| |].
    + change (d_toDeliver d1) with (d_toDeliver d ++ [exec_pkt cmd]). rewrite !app_assoc. apply Forall2_app.
      * eapply Forall2_impl; [exact Hp|]. intros j pkt Hj Hfor. destruct (decide (i = j)) as [->|Hne].
        { by destruct (has_no_packet _ _ _ _ _ Hb Hi Hc Hfor Hj). }
        destruct (Hj Hfor) as (inst2 & ? & ?). exists inst2. by rewrite E1, lookup_insert_ne.
      * constructor; [|constructor]. intros Hfor. exists inst1. rewrite E1, lookup_insert_eq.
        split_and!; [done|done| |by apply Hok].
        by apply (ci_cmd _ _ Hok cmd).
    + rewrite app_assoc, filter_app, filter_cons, filter_nil. case_decide as Hfor; [|by rewrite app_nil_r].
      apply NoDup_app. split_and!; [done| |apply NoDup_singleton].
      intros j [_ Hj]%list_elem_of_filter ->%list_elem_of_singleton. by apply Hnew.
  - intros j Hj. rewrite E1, lookup_insert. case_decide; [|by apply Hids]. by exists inst1.
Qed.

Lemma exec_deliver h : preserves (deliver_inv h) exec.
Proof.
  intros d Hd. unfold exec. wp_step. wp_step. apply (wp_loop (deliver_inv h)); [|done]. intros d1 Hd1.
  unfold exec_body. wp_step. wp_step. destruct (d_olog d1 !! d_nextODeliverIndex d1) as [oinst|] eqn:Hk; [|done].
  wp_step; [done|]. wp_step; [done|].
  match goal with Hb : negb (IsOCommitted _) = false |- _ =>
    apply negb_false_iff, bool_decide_eq_true in Hb; rename Hb into Hst end.
  match goal with Hb : negb (all_committed _ _) = false |- _ =>
    apply negb_false_iff in Hb; pose proof (all_committed_spec _ _ Hb) as Hc end.
  destruct Hd1 as [Hb (idss & Hto)]. set (ids := default [] (ois_Instances (oi_is oinst))) in *. wp_step.
  eapply wp_mono.
  { apply (wp_for_each_done (delivering h idss d1 ids)).
    - intros done x rest d2 E. apply deliver_one. rewrite E. set_solver.
    - split; try done. intros i (inst & Hi & Hs)%Hc. exists inst. by rewrite Hs. }
  simpl. intros _ d2 [Hb2 Hto2 Eo En _]. wp_step. apply wp_with_oinst. intros oinst0 oinst' Hk' [= <-].
  rewrite Eo, Hk in Hk'. injection Hk' as <-. wp_step. wp_step. wp_step.
  pose proof (bo_olog _ Hb _ _ Hk) as Hok. change (ois_Status (oi_is oinst)) with (ostatus oinst) in Hst.
  split.
  - destruct Hb2. split; try done. cbn. intros k oinst2. rewrite Eo, lookup_insert.
    case_decide; [|rewrite <-Eo; apply bo_olog0]. intros [= <-]. destruct Hok as [? _ Ho1 Ho2]. rewrite Hst in *.
    split; first [done|by subst|intros _; first [by apply Ho1|by apply Ho2]].
  - exists (idss ++ [ids]). destruct Hto2 as [Hnx Hbs Hp Honce].
    assert (∀ k' ids', batch_ok d2 k' ids' → batch_ok (oput (d_nextODeliverIndex d1)
      (oinst <| oi_is ::= set ois_Status (λ _, OInstanceState_OExecuted) |>) d2) k' ids') as Hkeep.
    { intros k' ids' (o & Ho & Hs & E). unfold batch_ok. cbn. rewrite lookup_insert. case_decide as Ek; [|by eauto].
      rewrite <-Ek, Eo, Hk in Ho. injection Ho as <-. by eexists. }
    assert (mjoin (idss ++ [ids]) ++ [] = mjoin idss ++ ids) as Ej by (rewrite join_app; cbn; by rewrite !app_nil_r).
    split; rewrite ?Ej; try done.
    + cbn. rewrite Hnx, u64_add_l, length_app. simpl. f_equal. lia.
    + intros k' ids' [Hlt|[Hle [Hz <-]%list_lookup_singleton_Some]]%lookup_app_Some.
      * by apply Hkeep, Hbs.
      * assert (k' = length idss) as -> by lia. rewrite <-Hnx, En.
        eexists. cbn. rewrite lookup_insert_eq. by split_and!.
Qed.

(** ** The phases of an instance *)
Lemma AM_Equals_hash m m' : AgreementMessage_Equals m m' = true → m_CommandHash m ≈ m_CommandHash m'.
Proof. unfold AgreementMessage_Equals. repeat case_match; try done. by intros ?%bytes_Equal_spec. Qed.

Lemma maybeCommit_deliver h i cm inst d :
  d_log d !! i = Some inst → m_CommandHash cm ≈ hash inst → deliver_inv h d →
  wp (maybeCommit i cm) (λ _, deliver_inv h) d.
Proof.
  intros Hi He Hd. unfold maybeCommit. wp_step. apply dq_wp_get_inst. rewrite Hi. intros ? [= <-].
  wp_step. wp_step. wp_step; [|done].
  match goal with Hb : _ && _ = true |- _ => apply andb_true_iff in Hb as [Hm Hst%bool_decide_eq_true] end.
  pose proof (bo_log _ (proj1 Hd) _ _ Hi) as []. change (is_Status (i_is inst)) with (status inst) in Hst.
  rewrite Hst in *. wp_step. eapply wp_mono.
  - apply (set_status_deliver h _ _ inst); [done|by rewrite Hst|done|]. split; try done.
    intros Hfor _. exists cm. split; [done|]. unfold Quorum_Majority in Hm. rewrite (bo_f _ (proj1 Hd)) in Hm.
      apply Quorum.Majority_spec in Hm; [done|lia].
  - simpl. intros _ d1 [Hd1 _]. by apply exec_deliver.
Qed.

Lemma broadcast_deliver h m self d :
  deliver_inv h d → wp (broadcast m self) (λ _ d', deliver_inv h d' ∧ d_log d' = d_log d ∧ d_olog d' = d_olog d) d.
Proof.
  intros Hd. unfold broadcast. destruct (Marshal m) as [b|]; [|done]. wp_step.
  split; [by apply (dcore_inv h d)|done].
Qed.

Lemma maybePrepare_deliver h i m : preserves (deliver_inv h) (maybePrepare i m).
Proof.
  intros d Hd. unfold maybePrepare. wp_step. apply dq_wp_get_inst. intros inst Hi. wp_step. wp_step.
  wp_step; [|done].
  match goal with Hb : _ && _ = true |- _ => apply andb_true_iff in Hb as [_ Hst%bool_decide_eq_true] end.
  pose proof (bo_log _ (proj1 Hd) _ _ Hi) as []. change (is_Status (i_is inst)) with (status inst) in Hst.
  rewrite Hst in *. wp_step. eapply wp_mono.
  { apply (set_status_deliver h _ _ inst); [done|by rewrite Hst|done|]. split; try done; intros; first [by apply ci_own0|by apply ci_hash0|by apply ci_cmd0]. }
  simpl. intros _ d1 [Hd1 Hi1]. wp_step. eapply wp_mono; [by apply broadcast_deliver|].
  simpl. intros _ d2 (Hd2 & E2 & _). wp_step. eapply wp_mono.
  { apply with_inst_deliver; [|exact Hd2]. apply log_cCert_deliver. }
  simpl. intros _ d3 (Hd3 & inst2 & inst3 & Hi2 & Hg & ->). rewrite E2, Hi1 in Hi2. injection Hi2 as <-.
  eapply maybeCommit_deliver; [cbn; by rewrite lookup_insert_eq| |done]. by outcome_inv.
Qed.

Lemma follower_not_primary h d b : deliver_inv h d → isPrimaryAtView (d_id d) (d_oview d) d = Ret b → b = false.
Proof.
  intros [Hb _]. unfold isPrimaryAtView. rewrite (bo_id _ Hb), (bo_oview _ Hb), (bo_peers _ Hb). intros Hp.
  outcome_inv. apply bool_decide_eq_false. by intros ->.
Qed.
Lemma onCRequest_deliver h i : preserves (deliver_inv h) (onCRequest i).
Proof.
  intros d Hd. unfold onCRequest. wp_step. wp_step. wp_step. apply wp_lift.
  intros b ->%(follower_not_primary h); [|done]. by wp_step.
Qed.

(** What a pre-prepare leaves in the instance before its votes are logged. *)
Record proposed i inst : Prop := {
  pp_id : is_InstanceID (i_is inst) = i;
  pp_hash : is_Some (hash inst);
  pp_cmd c : cmd_of inst = Some c → has_hash c (hash inst);
}.
(** The instance is logged as pre-prepared only if the replica has not voted yet. *)
Lemma log_own_deliver h i from m inst (k : AgreementMessage → M DQPBFT unit) d :
  (InstanceState_PrePrepared ≤ default InstanceState_None (status <$> d_log d !! i) →
    own_logged (is_View (i_is inst)) (pCert inst))%Z →
  proposed i inst → (∀ pm, preserves (deliver_inv h) (k pm)) → deliver_inv h d →
  wp (log_pCert i from m;; set_status i InstanceState_PrePrepared;;
      inst ← get_inst i;
      let pm := mkAM (is_View (i_is inst)) (is_InstanceID (i_is inst)) AgreementMessage_Prepare None
                  (is_CommandHash (i_is inst)) in
      log_pCert i (d_id d) pm;; k pm) (λ _, deliver_inv h) (cput i inst d).
Proof.
  intros Hfresh [] Hk Hd. wp_step. apply wp_with_cput. intros inst1 Hg1. wp_step. apply wp_with_cput.
  intros inst2 [= <-]. wp_step. apply dq_wp_get_inst. cbn. rewrite lookup_insert_eq. intros ? [= <-].
  wp_step. apply wp_with_cput. intros inst3 Hg3. rewrite (bo_id _ (proj1 Hd)) in Hg3. outcome_inv.
  match goal with Hl : Quorum_log id ?pm ?q = Ret ?q', Hl0 : Quorum_log from _ _ = Ret ?q |- _ =>
    pose proof (log_own_logged pm q q' Hl) as Hown; pose proof (own_logged_log pm q q') as Hno;
    pose proof (own_logged_mono _ (is_View (i_is inst)) _ _ _ _ Hl0) as Hmono; rename Hl into Hl3 end.
  cbn in Hown, Hno. apply Hk. apply cput_inv; [| |done].
  - split; try done. intros c _ _. apply pp_cmd0.
  - intros inst0 Hfor Hi0 Hst. rewrite Hi0 in Hfresh. simpl in Hfresh. rewrite Hst in Hfresh.
    destruct (Hno (Hmono (Hfresh ltac:(done))) Hl3).
Qed.

Lemma updateCommand_inv m c inst inst' :
  m_Command m = Some c → updateCommand m inst = Ret inst' →
  ∃ c', inst' = inst <| i_is ::= set is_Command (λ _, Some c') |> ∧
    (c = c' ∨ Command_Equal c' (Some c) = Ret true).
Proof.
  unfold updateCommand. intros -> Hu. destruct (is_Command (i_is inst)) as [c'|] eqn:Hc.
  - outcome_inv. destruct a; simpl in Hu; [|done]. injection Hu as <-. exists c'. split; [|by right].
    by destruct inst as [[] ? ?]; simpl in *; subst.
  - injection Hu as <-. exists c. by split; [|left].
Qed.

Lemma hash_ptr_inv cmd x cmd' :
  Command_Hash_ptr cmd = Ret (x, cmd') →
  ∃ c y, cmd = Some c ∧ cmd' = Some c ∧ x = Some y ∧ (Command_Hash c).1 = Some y.
Proof.
  unfold Command_Hash_ptr. destruct cmd as [c|]; [|done]. destruct (Command_Hash c) as [x' c'] eqn:Hc.
  intros [= <- <-]. destruct (marshals (c <| c_TraceInfo := None |>)) as [b Hb]. pose proof Hc as Hy.
  unfold Command_Hash in Hy. rewrite Hb in Hy. injection Hy as <- _. apply Command_Hash_restores in Hc as E.
  subst c'. exists c. eexists. split_and!; try done. by rewrite Hc.
Qed.
Lemma onPrePrepare_deliver h m from : preserves (deliver_inv h) (onPrePrepare m from).
Proof.
  intros d Hd. unfold onPrePrepare. wp_step. wp_step. wp_step. apply wp_lift.
  intros prim ->%(follower_not_primary h); [|done]. wp_step. wp_step; [done|]. wp_step. apply wp_lift.
  intros [x cmd] (c & y & Hc & -> & -> & Hy)%hash_ptr_inv.
  set (m1 := m <| m_Command := Some c |> <| m_CommandHash := Some y |>).
  assert (∀ c', c = c' ∨ Command_Equal c' (Some c) = Ret true → has_hash c' (Some y)) as Hhas.
  { intros c' Hc'. by exists c, y. }
  assert (∀ pm, preserves (deliver_inv h)
    (broadcast (DQPBFTMessage_Agreement pm) false;; maybePrepare (m_InstanceID m) pm)) as Hk.
  { intros pm d1 Hd1. wp_step. eapply wp_mono; [by apply broadcast_deliver|]. simpl. intros _ d2 [Hd2 _].
    by apply maybePrepare_deliver. }
  wp_step. unfold fetch_instance. wp_step. wp_step. destruct (d_log d !! m_InstanceID m1) as [inst0|] eqn:Hi.
  - apply dq_wp_with_inst. intros inst inst' Hi' Hg. rewrite Hi in Hi'. injection Hi' as <-.
    pose proof (bo_log _ (proj1 Hd) _ _ Hi) as [].
    destruct (updateCommand m1 inst0) as [inst1| |] eqn:Hu; [|done..]. simpl in Hg.
    apply (updateCommand_inv _ c) in Hu as (c' & -> & Hc'); [|done].
    apply updateCommandHash_inv in Hg as (E & He & _ & Hs).
    apply (log_own_deliver h (m_InstanceID m) from _ _ (λ pm,
      broadcast (DQPBFTMessage_Agreement pm) false;; maybePrepare (m_InstanceID m) pm)); [| |done..].
    + change (m_InstanceID m1) with (m_InstanceID m) in Hi. rewrite Hi, E. done.
    + split; [by rewrite E|by apply Hs; eexists|]. intros c1. rewrite E at 1. intros [= <-].
      destruct (Hhas c' Hc') as (c2 & z & ? & Hz & ?). exists c2, z. split_and!; [done| |done].
      by rewrite <-Hz.
  - wp_step. apply (log_own_deliver h (m_InstanceID m) from _ (makeInstance m1) (λ pm,
      broadcast (DQPBFTMessage_Agreement pm) false;; maybePrepare (m_InstanceID m) pm)); [| |done..].
    + change (m_InstanceID m1) with (m_InstanceID m) in Hi. by rewrite Hi.
    + split; [done|by eexists|]. intros c' [= <-]. by apply Hhas; left.
Qed.

(** ** The phases of a batch *)
Lemma set_ostatus_deliver h k st oinst d :
  d_olog d !! k = Some oinst → (OInstanceState_OPrePrepared ≤ ostatus oinst)%Z →
  ostatus oinst ≠ OInstanceState_OExecuted → (OInstanceState_None ≤ st ≤ OInstanceState_OExecuted)%Z →
  deliver_inv h d → wp (set_ostatus k st) (λ _, deliver_inv h) d.
Proof.
  intros Hk Hs Hne Hst Hd. apply wp_with_oinst. intros oinst0 oinst' Hk' [= <-]. rewrite Hk in Hk'. injection Hk' as <-.
  apply oput_deliver; [| |done].
  - destruct (bo_olog _ (proj1 Hd) _ _ Hk) as [? _ Ho1 Ho2].
    split; first [done|intros _; first [by apply Ho1|by apply Ho2]].
  - intros oinst0. rewrite Hk. by intros [= <-].
Qed.
Lemma maybeOCommit_deliver h k cm : preserves (deliver_inv h) (maybeOCommit k cm).
Proof.
  intros d Hd. unfold maybeOCommit. wp_step. apply wp_get_oinst. intros oinst Hk. wp_step. wp_step. wp_step; [|done].
  match goal with Hb : _ && _ = true |- _ => apply andb_true_iff in Hb as [_ Hst%bool_decide_eq_true] end.
  wp_step. eapply wp_mono; [apply (set_ostatus_deliver h _ _ oinst); [done| | |done..]|].
  - unfold ostatus. by rewrite Hst.
  - unfold ostatus. by rewrite Hst.
  - simpl. intros _ d1. apply exec_deliver.
Qed.
Lemma maybeOPrepare_deliver h k m : preserves (deliver_inv h) (maybeOPrepare k m).
Proof.
  intros d Hd. unfold maybeOPrepare. wp_step. apply wp_get_oinst. intros oinst Hk. wp_step. wp_step. wp_step; [|done].
  match goal with Hb : _ && _ = true |- _ => apply andb_true_iff in Hb as [_ Hst%bool_decide_eq_true] end.
  wp_step. eapply wp_mono; [apply (set_ostatus_deliver h _ _ oinst); [done| | |done..]|].
  1-2: unfold ostatus; by rewrite Hst.
  simpl. intros _ d1 Hd1. wp_step. eapply wp_mono; [by apply broadcast_deliver|]. simpl. intros _ d2 [Hd2 _].
  wp_step. eapply wp_mono; [apply with_oinst_deliver, Hd2; apply log_ocCert_same|]. simpl. intros _ d3.
  apply maybeOCommit_deliver.
Qed.
Lemma onOPrepare_deliver h m from : preserves (deliver_inv h) (onOPrepare m from).
Proof.
  intros d Hd. unfold onOPrepare. wp_step. wp_step. wp_step. wp_step. wp_step; [done|]. wp_step.
  eapply wp_mono; [by apply fetch_oinstance_deliver|]. simpl. intros _ d1 Hd1. wp_step.
  eapply wp_mono; [apply with_oinst_deliver, Hd1; apply log_opCert_same|]. simpl. intros _ d2.
  apply maybeOPrepare_deliver.
Qed.
Lemma onOCommit_deliver h m from : preserves (deliver_inv h) (onOCommit m from).
Proof.
  intros d Hd. unfold onOCommit. wp_step. eapply wp_mono; [by apply fetch_oinstance_deliver|].
  simpl. intros _ d1 Hd1. wp_step. eapply wp_mono; [apply with_oinst_deliver, Hd1; apply log_ocCert_same|].
  simpl. intros _ d2. apply maybeOCommit_deliver.
Qed.

Lemma log_own_odeliver h k from m oinst (next : OAgreementMessage → M DQPBFT unit) d :
  (OInstanceState_OPrePrepared ≤ default OInstanceState_None (ostatus <$> d_olog d !! k) →
    own_logged (ois_View (oi_is oinst)) (opCert oinst))%Z →
  ohash oinst = Some (batch_hash (ids_of oinst)) → ois_Index (oi_is oinst) = k →
  (∀ pm, preserves (deliver_inv h) (next pm)) → deliver_inv h d →
  wp (log_opCert k from m;; set_ostatus k OInstanceState_OPrePrepared;;
      inst ← get_oinst k;
      let pm := mkOAM (ois_View (oi_is inst)) (ois_Index (oi_is inst)) OAgreementMessage_OPrepare None
                  (ois_CommandHash (oi_is inst)) in
      log_opCert k (d_id d) pm;; next pm) (λ _, deliver_inv h) (oput k oinst d).
Proof.
  intros Hfresh Hh Hidx Hk Hd. wp_step. apply wp_with_oput. intros oinst1 Hg1. wp_step. apply wp_with_oput.
  intros oinst2 [= <-]. wp_step. apply wp_get_oinst. cbn. rewrite lookup_insert_eq. intros ? [= <-].
  wp_step. apply wp_with_oput. intros oinst3 Hg3. rewrite (bo_id _ (proj1 Hd)) in Hg3. outcome_inv.
  match goal with Hl : OQuorum_log id ?pm ?q = Ret ?q', Hl0 : OQuorum_log from _ _ = Ret ?q |- _ =>
    pose proof (log_own_logged pm q q' Hl) as Hown; pose proof (own_logged_log pm q q') as Hno;
    pose proof (own_logged_mono _ (ois_View (oi_is oinst)) _ _ _ _ Hl0) as Hmono; rename Hl into Hl3 end.
  cbn in Hown, Hno. apply Hk. apply oput_deliver; [| |done].
  - by split.
  - intros oinst0 Hk0 Hs. rewrite Hk0 in Hfresh. simpl in Hfresh. rewrite Hs in Hfresh.
    destruct (Hno (Hmono (Hfresh ltac:(done))) Hl3).
Qed.
Lemma InstancesEquals_spec l l' : InstancesEquals l l' = true ↔ l = l'.
Proof.
  revert l'. induction l as [|[r k] l IH]; intros [|[r' k'] l']; simpl; [done..|].
  unfold InstanceID_Equals. simpl. rewrite !andb_true_iff, !bool_decide_eq_true, IH. naive_solver.
Qed.
(** What the checks of a batch leave: its identifiers are those of the message. *)
Lemma update_batch_inv m x oinst oinst' :
  om_CommandHash m = Some x → (oinst ← updateOCommand m oinst; updateOCommandHash m oinst) = Ret oinst' →
  ohash oinst' = Some x ∧ ids_of oinst' = default [] (om_Instances m) ∧ ostatus oinst' = ostatus oinst ∧
  ois_View (oi_is oinst') = ois_View (oi_is oinst) ∧ ois_Index (oi_is oinst') = ois_Index (oi_is oinst) ∧
  ∀ v, own_logged v (opCert oinst) → own_logged v (opCert oinst').
Proof.
  intros Hx Hg. destruct (updateOCommand m oinst) as [oinst1| |] eqn:Hu; [|done..]. simpl in Hg.
  pose proof (update_hash_spec _ _ _ Hg) as (_ & _ & _ & Hs & He). rewrite Hx in Hs, He.
  destruct (Hs ltac:(by eexists)) as [y Hy]. rewrite Hy in He. unfold slice_eqv in He. simpl in He. subst y.
  apply updateOCommandHash_same in Hg as (Es & Ei & Ev & Ek & _ & Ho). rewrite Hy, Ei, Es, Ev, Ek.
  unfold updateOCommand in Hu. destruct (ois_Instances (oi_is oinst)) as [l|] eqn:Hl.
  - destruct (InstancesEquals _ _) eqn:E; simpl in Hu; [|done]. injection Hu as <-.
    apply InstancesEquals_spec in E. split_and!; try done. unfold ids_of. by rewrite Hl.
  - by injection Hu as <-.
Qed.

Lemma onOPrePrepare_deliver h m from : preserves (deliver_inv h) (onOPrePrepare m from).
Proof.
  intros d Hd. unfold onOPrePrepare. wp_step. wp_step. wp_step. wp_step. wp_step; [done|].
  set (m1 := m <| om_CommandHash := _ |>).
  assert (∀ pm, preserves (deliver_inv h)
    (broadcast (DQPBFTMessage_OAgreement pm) false;; maybeOPrepare (om_Index m) pm)) as Hk.
  { intros pm d1 Hd1. wp_step. eapply wp_mono; [by apply broadcast_deliver|]. simpl. intros _ d2 [Hd2 _].
    by apply maybeOPrepare_deliver. }
  wp_step. unfold fetch_oinstance. wp_step. wp_step. destruct (d_olog d !! om_Index m1) as [oinst0|] eqn:Hi;
    change (om_Index m1) with (om_Index m) in *.
  - apply wp_with_oinst. intros oinst oinst' Hi' Hg. rewrite Hi in Hi'. injection Hi' as <-.
    apply (update_batch_inv m1 _ _ _ eq_refl) in Hg as (Eh & Ei & Es & Ev & Ek & Ho).
    apply (log_own_odeliver h (om_Index m) from _ _ (λ pm,
      broadcast (DQPBFTMessage_OAgreement pm) false;; maybeOPrepare (om_Index m) pm)); [| | |done..].
    + rewrite Hi. simpl. rewrite Ev. intros Hs. by apply Ho, (ob_own _ _ (bo_olog _ (proj1 Hd) _ _ Hi)).
    + by rewrite Ei.
    + rewrite Ek. apply (bo_olog _ (proj1 Hd) _ _ Hi).
  - wp_step. apply (log_own_odeliver h (om_Index m) from _ (makeOInstance m1) (λ pm,
      broadcast (DQPBFTMessage_OAgreement pm) false;; maybeOPrepare (om_Index m) pm)); [by rewrite Hi|done..].
Qed.

(** ** The rest of the replica *)
Lemma onPrepare_deliver h m from : preserves (deliver_inv h) (onPrepare m from).
Proof.
  intros d Hd. unfold onPrepare. wp_step. eapply wp_mono; [by apply fetch_instance_deliver|].
  simpl. intros _ d1 [Hd1 _]. wp_step. eapply wp_mono; [apply with_inst_deliver', Hd1; apply log_pCert_deliver|].
  simpl. intros _ d2. apply maybePrepare_deliver.
Qed.
Lemma onCommit_deliver h m from : preserves (deliver_inv h) (onCommit m from).
Proof.
  intros d Hd. unfold onCommit. wp_step. eapply wp_mono; [by apply fetch_instance_deliver|].
  simpl. intros _ d1 (Hd1 & inst & Hi & He). wp_step.
  eapply wp_mono; [apply with_inst_deliver, Hd1; apply log_cCert_deliver|].
  simpl. intros _ d2 (Hd2 & inst1 & inst2 & Hi1 & Hg & ->). rewrite Hi in Hi1. injection Hi1 as <-.
  eapply maybeCommit_deliver; [cbn; by rewrite lookup_insert_eq| |done]. by outcome_inv.
Qed.
#[local] Hint Resolve onPrePrepare_deliver onPrepare_deliver onCommit_deliver onOPrePrepare_deliver
  onOPrepare_deliver onOCommit_deliver : go_inv.
Lemma Step_deliver h msg : preserves (deliver_inv h) (Step msg).
Proof. unfold Step, stepNormal, stepONormal. preserves_steps. Qed.

Lemma onRequest_deliver h cmd : preserves (deliver_inv h) (onRequest cmd).
Proof.
  intros d Hd. unfold onRequest. wp_step. wp_step. wp_step. wp_step. wp_step. wp_step. wp_step.
  pose proof (bo_id _ (proj1 Hd)) as Hid. set (i := mkIID (d_id d) (d_index d)).
  unfold log_pCert. apply (wp_with_cput _ _ _ _ (d <| d_index := u64 (d_index d + 1) |>)).
  intros inst1 Hg. rewrite Hid in Hg. outcome_inv.
  match goal with Hl : Quorum_log id _ _ = Ret _ |- _ => apply log_own_logged in Hl as Hown end. wp_step.
  assert (¬ foreign i) as Hi by (unfold foreign, i; simpl; by intros ?).
  eapply wp_mono.
  { apply (broadcast_deliver h).
    apply cput_inv; [split; try done; intros; contradiction|by intros ? ?|]. by apply (dcore_inv h d). }
  simpl. intros _ d3 [Hd3 _]. wp_step. wp_step. apply wp_when; intros ?; [by apply onCRequest_deliver|done].
Qed.

Lemma Tick_deliver h : preserves (deliver_inv h) Tick.
Proof.
  assert (preserves (deliver_inv h) sendCRequest) as Hs.
  { intros d Hd. unfold sendCRequest. wp_step. wp_step. wp_step. apply wp_lift.
    intros b ->%(follower_not_primary h); [|done]. by wp_step. }
  unfold Tick, tick_one, run_action. preserves_steps. apply preserves_modify. intros d. by apply dcore_inv.
Qed.
Lemma AsyncCallback_deliver h : preserves (deliver_inv h) AsyncCallback.
Proof.
  apply (preserves_keeps _ dcore); [apply dcore_inv|]. intros d.
  unfold AsyncCallback, AsyncCallback_body, send_signed, enqueueForSending. keeps_steps.
Qed.

Lemma deliver_invariant cap : run_invariant (sign_pool cap) deliver_inv.
Proof.
  split.
  - intros [msg|c| |cb| |] h d _ Hd; simpl.
    + by apply Step_deliver.
    + by apply onRequest_deliver.
    + by apply Tick_deliver.
    + by unfold Callback; wp_step.
    + by apply AsyncCallback_deliver.
    + unfold ClearMsgs. wp_step. by apply (dcore_inv h d).
  - intros h d d' [e He]. unfold worker_step in He. apply bind_Some in He as ([w cbs] & _ & [= <-]).
    by apply (dcore_inv h d).
  - intros h d Hd. simpl. unfold MakeReady, ClearMsgs, ClearExecutedCommands. wp_step. intros sent.
    assert (∀ d1, dcore d1 = dcore d → deliver_inv (h ++ d_toDeliver d) (d1 <| d_toDeliver := [] |>)) as Hc.
    { intros d1 E. apply (dcore_inv _ (d <| d_toDeliver := [] |>)).
      - unfold dcore in *. cbn. by injection E as -> -> -> -> -> -> -> _.
      - destruct Hd as [[] (idss & [])]. split; [by split|]. exists idss. split; try done. cbn.
        by rewrite (app_nil_r (h ++ _)). }
    wp_step. wp_step; wp_step; [wp_step|]; by apply Hc.
Qed.
End deliver.

Lemma NewDQPBFT_deliver `{GoEnv, Codec Command, Codec DQPBFTMessage, Certifier} c d :
  NewDQPBFT c = Ret d → deliver_inv (cfg_ID c) (cfg_Peers c) (cfg_MaxFailures c) (cfg_LeaderID c) [] d.
Proof.
  unfold NewDQPBFT. destruct (cfg_Workers c !! _) as [n|]; [|done].
  destruct (cfg_WorkersQueueSizes c !! _); [|done]. intros [= <-]. split.
  - by split.
  - exists []. split; try done; constructor.
Qed.
