(* ===== verification/DqpbftProps.v ===== *)
(** * The properties of DQPBFT

    Agreement on the batches between the replicas that follow the ordering, what
    a replica delivers, termination, and the runs that show what a batch's hash
    does not tell apart. *)
From S2P Require Import Prelude Command Worker Certifier Peer Runs Wire Dqpbft DqpbftSafety DqpbftDeliver.
From S2P Require Quorum.
From Stdlib Require Import Strings.Byte.
Import Dqpbft.

(** ** Termination *)
Section ends.
Context `{GoEnv, Codec Command, Codec DQPBFTMessage, Certifier}.
Implicit Types (d : DQPBFT).

(** The batches that have still to be executed. *)
Definition batches_left d : nat :=
  size (filter (λ x : Z * oinstance, ostatus x.2 = OInstanceState_OCommitted) (d_olog d)).
Lemma batches_left_olog d : batches_left d ≤ size (d_olog d).
Proof. apply map_size_filter. Qed.
Lemma batches_left_executed k oinst oinst' d :
  d_olog d !! k = Some oinst → ostatus oinst = OInstanceState_OCommitted →
  ostatus oinst' = OInstanceState_OExecuted → batches_left (oput k oinst' d) < batches_left d.
Proof.
  intros Hk Hs Hs'. eapply map_filter_insert_size_lt; [done..|]. simpl. by rewrite Hs'.
Qed.

Lemma dq_get_inst_ends i d : ends (get_inst i) d.
Proof. unfold get_inst. ends_steps. Qed.
Lemma dq_get_oinst_ends i d : ends (get_oinst i) d.
Proof. unfold get_oinst. ends_steps. Qed.
#[local] Hint Resolve dq_get_inst_ends dq_get_oinst_ends : go_ends.
Lemma dq_with_inst_ends i g d : (∀ inst, g inst ≠ Diverge) → ends (with_inst i g) d.
Proof. intros Hg. unfold with_inst. ends_steps. Qed.
Lemma dq_with_oinst_ends i g d : (∀ inst, g inst ≠ Diverge) → ends (with_oinst i g) d.
Proof. intros Hg. unfold with_oinst. ends_steps. Qed.

Lemma dq_exec_ends d : ends exec d.
Proof.
  change (ends (loop (S (size (d_olog d))) exec_body) d). apply (loop_ends (λ _, True) batches_left); [|done|].
  - intros d1 _. split.
    + unfold exec_body, deliver, set_status, set_ostatus, enqueueForDelivery.
      pose proof dq_with_inst_ends. pose proof dq_with_oinst_ends. ends_steps; auto.
    + unfold exec_body. wp_step. wp_step. destruct (d_olog d1 !! d_nextODeliverIndex d1) as [oinst|] eqn:Hk; [|done].
      destruct (IsOCommitted (oi_is oinst)) eqn:Hst; simpl; [|by wp_step]. apply bool_decide_eq_true in Hst.
      wp_step; [done|]. wp_step. eapply wp_mono; [apply (keeps_for_each core); intros i s; apply deliver_core|].
      simpl. intros _ d2 E. injection E as _ _ _ _ E _ _ _. wp_step. apply wp_with_oinst.
      intros oinst0 oinst' Hk' [= <-]. rewrite E, Hk in Hk'. injection Hk' as <-. wp_step. wp_step. wp_step.
      intros _. split; [done|]. change (batches_left (oput (d_nextODeliverIndex d1)
        (oinst <| oi_is ::= set ois_Status (λ _, OInstanceState_OExecuted) |>) d2) < batches_left d1).
      assert (batches_left d1 = batches_left d2) as -> by (unfold batches_left; by rewrite E).
      eapply batches_left_executed; [by rewrite E|done..].
  - apply Nat.lt_succ_r, batches_left_olog.
Qed.
#[local] Hint Resolve dq_exec_ends : go_ends.

Lemma dq_broadcast_ends m self d : ends (broadcast m self) d.
Proof. unfold broadcast. ends_steps. Qed.
Lemma dq_isPrimary_ends id view d : isPrimaryAtView id view d ≠ Diverge.
Proof. unfold isPrimaryAtView. ends_steps. Qed.
#[local] Hint Resolve dq_broadcast_ends dq_isPrimary_ends : go_ends.
Lemma dq_Quorum_log_ends id m q : Quorum_log id m q ≠ Diverge.
Proof. apply Quorum.log_ends. Qed.
Lemma dq_OQuorum_log_ends id m q : OQuorum_log id m q ≠ Diverge.
Proof. apply Quorum.log_ends. Qed.
#[local] Hint Resolve dq_Quorum_log_ends dq_OQuorum_log_ends : go_ends.
Lemma dq_log_pCert_ends i id m d : ends (log_pCert i id m) d.
Proof. apply dq_with_inst_ends. intros inst. ends_steps. Qed.
Lemma dq_log_cCert_ends i id m d : ends (log_cCert i id m) d.
Proof. apply dq_with_inst_ends. intros inst. ends_steps. Qed.
Lemma dq_log_opCert_ends i id m d : ends (log_opCert i id m) d.
Proof. apply dq_with_oinst_ends. intros inst. ends_steps. Qed.
Lemma dq_log_ocCert_ends i id m d : ends (log_ocCert i id m) d.
Proof. apply dq_with_oinst_ends. intros inst. ends_steps. Qed.
Lemma dq_set_status_ends i st d : ends (set_status i st) d.
Proof. by apply dq_with_inst_ends. Qed.
Lemma dq_set_ostatus_ends i st d : ends (set_ostatus i st) d.
Proof. by apply dq_with_oinst_ends. Qed.
#[local] Hint Resolve dq_log_pCert_ends dq_log_cCert_ends dq_log_opCert_ends dq_log_ocCert_ends
  dq_set_status_ends dq_set_ostatus_ends : go_ends.
Lemma dq_updateCommand_ends m inst : updateCommand m inst ≠ Diverge.
Proof. unfold updateCommand. ends_steps. Qed.
Lemma dq_updateCommandHash_ends m inst : updateCommandHash m inst ≠ Diverge.
Proof. unfold updateCommandHash. ends_steps. Qed.
Lemma dq_updateOCommand_ends m inst : updateOCommand m inst ≠ Diverge.
Proof. unfold updateOCommand. ends_steps. Qed.
Lemma dq_updateOCommandHash_ends m inst : updateOCommandHash m inst ≠ Diverge.
Proof. unfold updateOCommandHash. ends_steps. Qed.
#[local] Hint Resolve dq_updateCommand_ends dq_updateCommandHash_ends dq_updateOCommand_ends
  dq_updateOCommandHash_ends : go_ends.
Lemma dq_fetch_ends checks m d : (∀ inst, checks inst ≠ Diverge) → ends (fetch_instance checks m) d.
Proof. intros Hc. unfold fetch_instance. pose proof dq_with_inst_ends. ends_steps; auto. Qed.
Lemma dq_ofetch_ends checks m d : (∀ inst, checks inst ≠ Diverge) → ends (fetch_oinstance checks m) d.
Proof. intros Hc. unfold fetch_oinstance. pose proof dq_with_oinst_ends. ends_steps; auto. Qed.
Lemma dq_sendCRequest_ends d : ends sendCRequest d.
Proof. unfold sendCRequest. ends_steps. Qed.
#[local] Hint Resolve dq_sendCRequest_ends : go_ends.
Lemma dq_onCRequest_ends i d : ends (onCRequest i) d.
Proof. unfold onCRequest. ends_steps. Qed.
#[local] Hint Resolve dq_onCRequest_ends : go_ends.
Lemma dq_stepNormal_ends m from d : ends (stepNormal m from) d.
Proof.
  unfold stepNormal, onPrePrepare, onPrepare, onCommit, maybePrepare, maybeCommit.
  ends_steps; apply dq_fetch_ends; intros; ends_steps.
Qed.
Lemma dq_stepONormal_ends m from d : ends (stepONormal m from) d.
Proof.
  unfold stepONormal, onOPrePrepare, onOPrepare, onOCommit, maybeOPrepare, maybeOCommit.
  ends_steps; apply dq_ofetch_ends; intros; ends_steps.
Qed.
#[local] Hint Resolve dq_stepNormal_ends dq_stepONormal_ends dq_onCRequest_ends : go_ends.
Lemma dq_Step_ends msg d : ends (Step msg) d.
Proof. unfold Step. ends_steps. Qed.
Lemma dq_onRequest_ends cmd d : ends (onRequest cmd) d.
Proof. unfold onRequest. ends_steps. Qed.
Lemma dq_Tick_ends d : ends Tick d.
Proof. unfold Tick, tick_one, run_action. ends_steps. Qed.
Lemma dq_send_signed_callbacks j cert d : keeps d_callbackC (send_signed j cert) d.
Proof. unfold send_signed, enqueueForSending. keeps_steps. Qed.
Lemma dq_AsyncCallback_ends d : ends AsyncCallback d.
Proof.
  change (ends (loop (S (length (d_callbackC d))) AsyncCallback_body) d).
  apply (loop_ends (λ _, True) (λ d, length (d_callbackC d))); [|done|lia]. intros d1 _.
  unfold AsyncCallback_body, send_signed, enqueueForSending. split; [ends_steps|].
  wp_step. wp_step. destruct (d_callbackC d1) as [|[j cert] cbs] eqn:Hc; [by wp_step|].
  wp_step. wp_step. wp_step. eapply wp_mono.
  - apply dq_send_signed_callbacks.
  - simpl. intros _ d2 E. wp_step. intros _. split; [done|]. rewrite E. simpl. lia.
Qed.
End ends.

Section dq_properties.
Context `{GoEnv, Codec Command, Codec DQPBFTMessage, Certifier}.

(** Termination: from every state, every message, request, tick and run of the
    callbacks ends. *)
Theorem dq_terminates msg cmd d :
  Dqpbft.Step msg d ≠ Diverge ∧ Dqpbft.Request cmd d ≠ Diverge ∧ Dqpbft.Tick d ≠ Diverge ∧
  Dqpbft.AsyncCallback d ≠ Diverge.
Proof.
  split_and!; [apply dq_Step_ends|apply dq_onRequest_ends|apply dq_Tick_ends|apply dq_AsyncCallback_ends].
Qed.

(** The replica of [c] follows the ordering. *)
Definition dq_follower (c : Config) : Prop :=
  (0 ≤ cfg_MaxFailures c)%Z ∧ leader_of (cfg_LeaderID c) (length (cfg_Peers c)) ≠ Ret (cfg_ID c).
(** The ids of a committed batch. *)
Definition dq_committed (d : DQPBFT) (k : Z) (ids : list InstanceID) : Prop :=
  ∃ oinst, d_olog d !! k = Some oinst ∧ (OInstanceState_OCommitted ≤ ostatus oinst)%Z ∧ ids_of oinst = ids.

(** C6. Agreement on the batches: of [3f + 1] replicas at most [f], the primary of
    the ordering among them, are faulty; the others run [DQPBFT] under any peers
    and schedules of the signing pool, and the commit votes that a message from
    one of them carries it has sent.  Then the batches that two of them have
    committed at an index have the same hash. *)
Theorem dq_ordering_agreement `{!DQCodecLaws} cap (replicas faulty : gset Z) (f : nat)
    (config : Z → Config) (start final : Z → DQPBFT) (taken : Z → list ExecPacket) r1 r2 k ids1 ids2 :
  let heard j i x := j ∈ replicas ∧ (j ∉ faulty → sent cap (start j) (taken j) (final j) i x) in
  (∀ cmd : Command, is_Some (Marshal cmd)) →
  size replicas = 3 * f + 1 → size faulty ≤ f →
  (∀ r, r ∈ replicas → r ∉ faulty →
    cfg_ID (config r) = r ∧ cfg_MaxFailures (config r) = Z.of_nat f ∧ dq_follower (config r) ∧
    NewDQPBFT (config r) = Ret (start r) ∧
    runs_with (sign_pool cap) (hears heard) [] (start r) (taken r) (final r)) →
  r1 ∈ replicas → r1 ∉ faulty → r2 ∈ replicas → r2 ∉ faulty →
  dq_committed (final r1) k ids1 → dq_committed (final r2) k ids2 → batch_hash ids1 = batch_hash ids2.
Proof.
  intros heard Hmar Hn Hf Hruns Hr1 Hc1 Hr2 Hc2 Hk1 Hk2.
  assert (∀ r ids, r ∈ replicas → r ∉ faulty → dq_committed (final r) k ids →
    ∃ A : gset Z, A ⊆ replicas ∧ 2 * f < size A ∧
      ∀ j, j ∈ A → j ∉ faulty → fixed (final j) k (Some (batch_hash ids))) as Hcert.
  { intros r ids Hr Hc (oinst & Hk & Hst & <-). destruct (Hruns r Hr Hc) as (Eid & Ef & [Hf0 Hl] & Hs & Hrun).
    pose proof (runs_with_inv _ _ _ _ _ _ _ (order_invariant _ _ _ _ Hf0 Hl heard ∅ cap) Hrun
      (NewDQPBFT_inv heard _ _ Hs)) as Hinv.
    pose proof (runs_inv _ _ _ _ _ _ (deliver_invariant _ _ _ _ Hf0 Hl Hmar cap)
      (runs_with_runs _ _ _ _ _ _ Hrun) (NewDQPBFT_deliver _ _ Hs)) as [Hb _].
    pose proof (ob_hash _ _ _ (bo_olog _ _ _ _ _ Hb _ _ Hk)) as Hh. 
    assert ((OInstanceState_OPrePrepared ≤ ostatus oinst)%Z) as Hst1.
    { unfold OInstanceState_OPrePrepared, OInstanceState_OCommitted in *. lia. }
    specialize (Hh Hst1). destruct (oo_committed _ _ _ _ _ (ov_olog _ _ _ _ _ _ _ Hinv _ _ Hk) Hst) as (A & Hsz & HA).
    rewrite Hh, Eid in HA. exists A. split_and!; [| lia|].
    - intros j Hj. by destruct (HA j Hj) as [->|(h' & [? _] & _)].
    - intros j Hj Hcj. destruct (HA j Hj) as [->|(h' & [Hjr Hsent] & Heq)].
      + exists oinst. rewrite Hh. by split_and!.
      + destruct (Hruns j Hjr Hcj) as (_ & _ & [Hfj Hlj] & Hsj & _).
        destruct (sent_fixed _ _ _ _ _ _ _ Hfj Hlj Hsj (Hsent Hcj)) as (inst' & ? & ? & ?).
        exists inst'. split_and!; [done..|]. by rewrite Heq. }
  destruct (Hcert r1 ids1 Hr1 Hc1 Hk1) as (A1 & HA1 & Hs1 & Hv1).
  destruct (Hcert r2 ids2 Hr2 Hc2 Hk2) as (A2 & HA2 & Hs2 & Hv2).
  destruct (Quorum.sets_correct_overlap replicas A1 A2 faulty f) as (j & Hj1 & Hj2 & Hcj); [done..|lia|].
  destruct (Hv1 j Hj1 Hcj) as (i1 & Hi1 & _ & E1), (Hv2 j Hj2 Hcj) as (i2 & Hi2 & _ & E2).
  rewrite Hi1 in Hi2. injection Hi2 as <-. rewrite <-E2 in E1. unfold slice_eqv in E1. by simpl in E1.
Qed.


(** C35. The shape of the state, in every run of a replica that follows the ordering:
    an instance is filed under its own identifier and a batch under its own
    index, their states are those of the enumerations, one that is pre-prepared
    or later has the replica's own vote, a batch of these the hash of its
    identifiers, and the index of the next batch is a [uint64]. *)
Theorem dq_well_formed cap c d0 h d :
  (∀ cmd : Command, is_Some (Marshal cmd)) → dq_follower c → NewDQPBFT c = Ret d0 →
  runs (sign_pool cap) [] d0 h d →
  (∀ i inst, d_log d !! i = Some inst →
    is_InstanceID (i_is inst) = i ∧ (0 ≤ is_Status (i_is inst) ≤ 4)%Z ∧
    ((1 ≤ is_Status (i_is inst))%Z → is_Some (Quorum.view_msgs (is_View (i_is inst)) (pCert inst) !! cfg_ID c))) ∧
  (∀ k oinst, d_olog d !! k = Some oinst →
    ois_Index (oi_is oinst) = k ∧ (0 ≤ ois_Status (oi_is oinst) ≤ 4)%Z ∧
    ((1 ≤ ois_Status (oi_is oinst))%Z →
      is_Some (Quorum.view_msgs (ois_View (oi_is oinst)) (opCert oinst) !! cfg_ID c) ∧
      ois_CommandHash (oi_is oinst) = Some (batch_hash (default [] (ois_Instances (oi_is oinst)))))) ∧
  (0 ≤ d_nextODeliverIndex d < two64)%Z.
Proof.
  intros Hm [Hf Hl] Hs Hr.
  destruct (runs_inv _ _ _ _ _ _ (deliver_invariant _ _ _ _ Hf Hl Hm cap) Hr (NewDQPBFT_deliver _ _ Hs))
    as [[_ _ _ _ Hlog Holog] (idss & [Hn _ _ _])].
  split; [|split].
  - intros i inst Hi. destruct (Hlog i inst Hi). split; [done|]. by split.
  - intros k oinst Hk. destruct (Holog k oinst Hk) as [? ? Ho Hh]. split; [done|]. split; [done|]. intros Hst.
    split; [by apply Ho|by apply Hh].
  - rewrite Hn. apply u64_range.
Qed.
End dq_properties.

(** ** Concrete runs *)
Module DqpbftDemo.
Import Toy.
#[export] Instance wire_InstanceID : Wire InstanceID :=
  wire_iso (λ i, (iid_ReplicaID i, iid_Index i)) (λ '(r, i), mkIID r i) ltac:(by intros []).
#[export] Instance wire_AgreementMessage : Wire AgreementMessage :=
  wire_iso (λ m, (m_View m, m_InstanceID m, m_Type m, m_Command m, m_CommandHash m))
    (λ '(v, i, t, c, h), mkAM v i t c h) ltac:(by intros []).
#[export] Instance wire_OAgreementMessage : Wire OAgreementMessage :=
  wire_iso (λ m, (om_View m, om_Index m, om_Type m, om_Instances m, om_CommandHash m))
    (λ '(v, i, t, l, h), mkOAM v i t l h) ltac:(by intros []).
#[export] Instance wire_DQPBFTMessage : Wire DQPBFTMessage :=
  wire_iso (λ m, match m with
    | DQPBFTMessage_Agreement m => (Some m, None)
    | DQPBFTMessage_OAgreement m => (None, Some m)
    | DQPBFTMessage_nil => (None, None)
    end) (λ '(a, b), match a, b with
    | Some m, _ => DQPBFTMessage_Agreement m
    | _, Some m => DQPBFTMessage_OAgreement m
    | _, _ => DQPBFTMessage_nil
    end) ltac:(by intros []).
#[export] Instance DQPBFTMessage_codec : Codec DQPBFTMessage := wire_codec wire_DQPBFTMessage.
#[export] Instance DQPBFTMessage_laws : DQCodecLaws.
Proof.
  split; intros m b Hb%(wire_codec_law wire_DQPBFTMessage); exists m; [exact Hb|]. by split.
Qed.
#[export] Instance cert : Certifier := swCertifier.

Definition workers : gmap string nat := {["mac_sign"%string := 1]}.
Definition config (j : Z) : Config := mkConfig j (seqZ 0 4) 0 1 1 1 workers workers.
Definition start (j : Z) : DQPBFT :=
  mkDQPBFT j (seqZ 0 4) 1 ∅ j 0 ∅ ∅ 0 0 0 [] [] [] 1 1 [cReqTimer 1] (Worker.NewDispatcher 1) [].

(** What a message of replica [from] does; a job of the signing pool and its callback. *)
Definition msg (from : Z) (m : DQPBFTMessage) : act Worker.event :=
  let b := default [] (Marshal m) in Do (Call_Step (mkMessage from 0 b (CreateSignedCertificate b))).
Definition work : list (act Worker.event) :=
  (Other <$> [Worker.Register 0; Worker.Take; Worker.Assign; Worker.Done 0]) ++ [Do Call_AsyncCallback].
Definition others (r : Z) : list Z := filter (λ j, j ≠ r) [1; 2; 3]%Z.

(** The primary proposes batch 0 with [ids]: the two calls until replica [r] has
    voted to commit it, and the votes of the others. *)
Definition batch_msg (type : Z) (ids : option (list InstanceID)) (h : slice) : DQPBFTMessage :=
  DQPBFTMessage_OAgreement (mkOAM 0 0 type ids h).
Definition propose (ids : list InstanceID) (r : Z) : list (act Worker.event) :=
  msg 0 (batch_msg OAgreementMessage_OPrePrepare (Some ids) None) ::
  ((λ j, msg j (batch_msg OAgreementMessage_OPrepare None (Some (batch_hash ids)))) <$> take 1 (others r)) ++
  work ++ work.
Definition ovotes (h : bytes) (r : Z) : list (act Worker.event) :=
  (λ j, msg j (batch_msg OAgreementMessage_OCommit None (Some h))) <$> others r.
(** Instance [i] of replica 0 or 1 with command [c], at replica 2 or 3. *)
Definition instance_msg (i : InstanceID) (type : Z) (c : option Command) (h : slice) : DQPBFTMessage :=
  DQPBFTMessage_Agreement (mkAM 0 i type c h).
Definition commits (i : InstanceID) (c : Command) (r : Z) : list (act Worker.event) :=
  [msg (iid_ReplicaID i) (instance_msg i AgreementMessage_PrePrepare (Some c) None)] ++
  ((λ j, msg j (instance_msg i AgreementMessage_Prepare None (Command_Hash c).1)) <$>
    filter (λ j, j ≠ iid_ReplicaID i) (others r)) ++
  ((λ j, msg j (instance_msg i AgreementMessage_Commit None (Command_Hash c).1)) <$> others r).

Definition i00 : InstanceID := mkIID 0 0.
Definition i10 : InstanceID := mkIID 1 0.
(** Replicas 1 and 3 get one batch, replica 2 the other. *)
Definition batch_of (r : Z) : list InstanceID := if decide (r = 2%Z) then [i00; i10] else [i10].
Definition acts (r : Z) : list (act Worker.event) :=
  propose (batch_of r) r ++ ovotes (batch_hash [i10]) r ++
  (if decide (r = 1%Z) then [] else commits i00 (cmd 1 5) r ++ commits i10 (cmd 2 6) r).
Definition final (cap : nat) (r : Z) : DQPBFT := do_acts (worker_step cap) (acts r) (start r).

Definition replicas : gset Z := {[0; 1; 2; 3]}%Z.
Definition faulty : gset Z := {[0]}%Z.
Definition heard (cap : nat) (j i : Z) (x : slice) : Prop :=
  j ∈ replicas ∧ (j ∉ faulty → sent cap (start j) [] (final cap j) i x).
Definition acts_calls (cap : nat) (r : Z) : Prop :=
  NewDQPBFT (config r) = Ret (start r) ∧
  runs_with (sign_pool cap) (hears (heard cap)) [] (start r) [] (final cap r).

Lemma others_elem r j : j ∈ others r → j = 1%Z ∨ j = 2%Z ∨ j = 3%Z.
Proof. unfold others. intros [_ Hj]%list_elem_of_filter. set_solver. Qed.
Lemma dq_unmarshal_msg (m : DQPBFTMessage) : Unmarshal (default [] (Marshal m)) = Some m.
Proof.
  destruct (Marshal m) as [b|] eqn:Hb; [|by vm_compute in Hb].
  simpl. by apply (wire_codec_law wire_DQPBFTMessage).
Qed.
(** A message that is not a vote to commit a batch. *)
Definition no_ovote (m : DQPBFTMessage) : Prop :=
  match m with DQPBFTMessage_OAgreement om => om_Type om ≠ OAgreementMessage_OCommit | _ => True end.
Lemma no_ovote_allowed hd from m : no_ovote m → act_allowed (hears hd) (msg from m).
Proof.
  intros Hm om Hu Ht. change (msg_Content _) with (default [] (Marshal m)) in Hu.
  rewrite dq_unmarshal_msg in Hu. injection Hu as ->. done.
Qed.
Lemma steps_sign_pool cap e d d' : worker_step cap e d = Some d' → sign_pool cap d d'.
Proof. by exists e. Qed.

(** Each of the three has sent its vote after [propose]. *)
Lemma voted cap j : 0 < cap → j = 1%Z ∨ j = 2%Z ∨ j = 3%Z →
  sent cap (start j) [] (final cap j) 0 (Some (batch_hash [i10])).
Proof.
  intros Hc Hj. set (d1 := do_acts (worker_step cap) (propose (batch_of j) j) (start j)).
  set (b := default [] (Marshal (batch_msg OAgreementMessage_OCommit None (Some (batch_hash [i10]))))).
  assert (mkMessage j 0 b (CreateSignedCertificate b) ∈ d_msgs d1) as Hm.
  { destruct cap as [|cap]; [lia|]. apply (list_elem_of_lookup_2 _ 3).
    destruct Hj as [->|[->| ->]]; vm_compute; reflexivity. }
  exists [], d1, (mkMessage j 0 b (CreateSignedCertificate b)), (mkOAM 0 0 OAgreementMessage_OCommit None (Some (batch_hash [i10]))).
  split; [apply acts_runs, steps_sign_pool|]. split.
  - unfold final, acts. rewrite do_acts_app. apply acts_runs, steps_sign_pool.
  - split; [done|]. split; [apply dq_unmarshal_msg|done].
Qed.

Lemma acts_heard cap r : 0 < cap → Forall (act_allowed (hears (heard cap))) (acts r).
Proof.
  intros Hc. assert (∀ l m, no_ovote m →
    Forall (act_allowed (hears (heard cap))) ((λ j, msg j m) <$> l)) as Hl.
  { intros l m Hm. apply Forall_fmap, Forall_true. intros j. by apply no_ovote_allowed. }
  assert (Forall (act_allowed (hears (heard cap))) work) as Hw.
  { unfold work. apply Forall_app_2; [by apply Forall_fmap, Forall_true|by repeat constructor]. }
  assert (∀ i c, Forall (act_allowed (hears (heard cap))) (commits i c r)) as Hi.
  { intros i c. unfold commits. repeat apply Forall_app_2; [|by apply Hl..].
    constructor; [by apply no_ovote_allowed|constructor]. }
  unfold acts. apply Forall_app_2; [|apply Forall_app_2].
  - unfold propose. constructor; [by apply no_ovote_allowed|].
    apply Forall_app_2; [by apply Hl|]. by apply Forall_app_2.
  - unfold ovotes. apply Forall_fmap, Forall_forall. intros j Hj%others_elem om Hu _.
    change (msg_Content _) with (default [] (Marshal (batch_msg OAgreementMessage_OCommit None
      (Some (batch_hash [i10]))))) in Hu. rewrite dq_unmarshal_msg in Hu. injection Hu as <-. split.
    + unfold replicas. simpl. set_solver.
    + intros _. by apply voted.
  - case_decide; [constructor|]. by apply Forall_app_2.
Qed.
Lemma acts_make_run cap r : 0 < cap → acts_calls cap r.
Proof.
  intros Hc. split; [done|]. apply acts_run_with; [apply steps_sign_pool|by apply acts_heard].
Qed.
End DqpbftDemo.

Section dq_faults.
Import Toy DqpbftDemo.

(** A batch's hash is that of the marshalled identifiers one after the other,
    without their lengths, and a field that is zero is left out: the first
    instance of replica 0 is not seen in it.  A faulty primary makes two correct
    replicas of four commit, with the votes of correct replicas only, one the
    batch with it and the other the batch without, and deliver different
    commands. *)
Theorem dq_batches_diverge cap :
  0 < cap →
  (∀ (env : GoEnv) ids1 ids2, @batch_hash env (ids1 ++ i00 :: ids2) = @batch_hash env (ids1 ++ ids2)) ∧
  (∀ r, r ∈ replicas → r ∉ faulty → acts_calls cap r) ∧
  dq_committed (final cap 2) 0 [i00; i10] ∧ dq_committed (final cap 3) 0 [i10] ∧
  x_Cmd <$> d_toDeliver (final cap 2) = [cmd 1 5; cmd 2 6] ∧ x_Cmd <$> d_toDeliver (final cap 3) = [cmd 2 6].
Proof.
  intros Hc. split; [intros env ids1 ids2; unfold batch_hash; by rewrite !bind_app|].
  split; [intros r _ _; by apply acts_make_run|]. destruct cap as [|cap]; [lia|].
  split_and!; [eexists; split_and!; [vm_compute; reflexivity|done|reflexivity]..| |]; vm_compute; reflexivity.
Qed.

Lemma dq_batches_diverge_witness : x_Cmd <$> d_toDeliver (final 9 3) = [cmd 2 6].
Proof. apply (dq_batches_diverge 9). lia. Defined.

Lemma dq_ordering_agreement_witness : batch_hash [i00; i10] = batch_hash [i10].
Proof.
  apply (dq_ordering_agreement 9 replicas faulty 1 config start (final 9) (λ _, []) 2 3 0);
    [exact command_marshals|vm_compute; reflexivity|vm_compute; lia| |clear; set_solver..| |].
  - intros r Hr Hf. assert (cfg_ID (config r) = r ∧ cfg_MaxFailures (config r) = Z.of_nat 1) as [E1 E2] by done.
    assert (dq_follower (config r)) as Hfol.
    { split; [done|]. intros E. vm_compute in E. injection E as <-. apply Hf. clear. set_solver. }
    destruct (acts_make_run 9 r ltac:(lia)) as [Hn Hrun]. by split_and!.
  - eexists. split_and!; [vm_compute; reflexivity|done|reflexivity].
  - eexists. split_and!; [vm_compute; reflexivity|done|reflexivity].
Defined.


Lemma dq_well_formed_witness : (0 ≤ d_nextODeliverIndex (final 9 2) < two64)%Z.
Proof.
  assert (dq_follower (config 2)) as Hf by by split.
  apply (dq_well_formed 9 (config 2) (start 2) [] (final 9 2));
    [exact command_marshals|exact Hf|reflexivity|apply acts_runs, steps_sign_pool].
Defined.
End dq_faults.
