(* ===== verification/Signer.v ===== *)
(** * ECDSA signatures of messages (src/utils/signer/signer.go, src/enclaves/usig/usig.go)

    The [Signer] of the utilities, which DuoBFT signs its commit votes with, and
    the Go half of the USIG enclave's signed certificates.  crypto/ecdsa and
    encoding/asn1 of the Go library are the class [Ecdsa], for the one key pair
    that the sources hold. *)
From S2P Require Import Prelude Command.

(** [None]: an error of the library. *)
Class Ecdsa := {
  ecdsa_Sign : bytes → option (Z * Z);
  ecdsa_Verify : bytes → Z * Z → bool;
  asn1_Marshal : Z * Z → option bytes;
  asn1_Unmarshal : bytes → option (Z * Z);
  ecdsa_VerifyASN1 : bytes → bytes → bool;
}.
(** What the packages document: a signature verifies, a marshalled pair comes
    back, and a digest is cut to the size of the curve's order, 32 bytes. *)
Class EcdsaLaws `{Ecdsa} := {
  ecdsa_sign_verify d rs : ecdsa_Sign d = Some rs → ecdsa_Verify d rs = true;
  asn1_inverse rs b : asn1_Marshal rs = Some b → asn1_Unmarshal b = Some rs;
  ecdsa_truncates d rs : ecdsa_Verify (take 32 d) rs = ecdsa_Verify d rs;
}.

Module Signer.
Section signer.
Context `{GoEnv, Ecdsa}.

(** *** [EcdsaSigCipher] *)
Definition SigCipher_Sign (md : bytes) : option bytes := rs ← ecdsa_Sign md; asn1_Marshal rs.
Definition SigCipher_Verify (md sig : bytes) : outcome bool :=
  match asn1_Unmarshal sig with
  | None => Panic "ECDSA signature is not ASN.1-DER encoded"
  | Some rs => Ret (ecdsa_Verify md rs)
  end.

(** *** [Signer]

    [s.HashScheme.New().Sum(msg)]: the message, with the hash of nothing behind
    it. *)
Definition digest (msg : bytes) : bytes := msg ++ sha256 [].
Definition Sign (msg : bytes) : option bytes := SigCipher_Sign (digest msg).
(** [true]: no error. *)
Definition Verify (msg sig : bytes) : outcome bool := SigCipher_Verify (digest msg) sig.

(** *** [UsigEnclave.VerifyUISig] *)
Definition VerifyUISig (d sig : bytes) (ctr : Z) : bool :=
  ecdsa_VerifyASN1 (sha256 (d ++ LittleEndian_PutUint64 ctr)) sig.

(** The signature covers the first 32 bytes of the message and no more. *)
Lemma Verify_prefix `{!EcdsaLaws} msg msg' sig :
  take 32 msg = take 32 msg' → 32 ≤ length msg → 32 ≤ length msg' → Verify msg sig = Verify msg' sig.
Proof.
  intros He Hl Hl'. unfold Verify, SigCipher_Verify. destruct (asn1_Unmarshal sig) as [rs|]; [|done].
  f_equal. rewrite <-(ecdsa_truncates (digest msg)), <-(ecdsa_truncates (digest msg')).
  unfold digest. by rewrite !take_app_le, He by lia.
Qed.
Lemma Sign_verifies `{!EcdsaLaws} msg sig : Sign msg = Some sig → Verify msg sig = Ret true.
Proof.
  unfold Sign, SigCipher_Sign. intros (rs & Hs & Hm)%bind_Some. unfold Verify, SigCipher_Verify.
  rewrite (asn1_inverse _ _ Hm). f_equal. by apply ecdsa_sign_verify.
Qed.
End signer.
End Signer.

(** The USIG enclave's signed certificates: [CreateUISig] signs a digest with the
    next counter. *)
Class UsigSig (U : Type) := { CreateUISig : bytes → U → (Z * bytes) * U }.
(** The enclave holds the private key and counts. *)
Class UsigSigLaws (U : Type) `{GoEnv, Ecdsa, UsigSig U} := {
  uisig_counter : U → Z;
  uisig_next d u : (uisig_counter (CreateUISig d u).2 = uisig_counter u + 1)%Z;
  uisig_create d u : (CreateUISig d u).1.1 = uisig_counter (CreateUISig d u).2;
  uisig_verify d u : Signer.VerifyUISig d (CreateUISig d u).1.2 (CreateUISig d u).1.1 = true;
}.
