(* ===== verification/Duobft.v ===== *)
(** * DuoBFT (src/protocols/duobft)

    Two commit rules over one log: [f + 1] votes under the trusted counter commit
    an instance for the commands that carry metadata ([texec]), and [2f + 1]
    votes in each of two phases for the others ([exec]).  One Rocq definition per
    Go function, in the state-and-panic monad [M duobft].

    The callbacks of the two worker pools hold pointers to instances, and
    [onRequest] puts a new instance in the place of one that may be there: the
    instances live in a heap, and the log holds their addresses. *)
From S2P Require Import Prelude Command Worker Signer Peer.
From S2P Require Quorum.
Import Worker (Dispatcher, NewDispatcher).

Module Duobft.

(** ** Data (duobftpb) *)
Definition InstanceState_None : Z := 0.
Definition InstanceState_Prepared : Z := 1.
Definition InstanceState_PreCommitted : Z := 2.
Definition InstanceState_Committed : Z := 3.
Definition InstanceState_Executed : Z := 4.
Definition InstanceState_TNone : Z := 0.
Definition InstanceState_TPrepared : Z := 1.
Definition InstanceState_TCommitted : Z := 3.
Definition InstanceState_TExecuted : Z := 4.
Definition NormalMessage_Prepare : Z := 0.
Definition NormalMessage_PreCommit : Z := 1.
Definition NormalMessage_Commit : Z := 2.

Record InstanceState := mkIS {
  is_View : Z;
  is_Index : Z;
  is_Status : Z;
  is_TStatus : Z;
  is_Command : option Command;
  is_CommandHash : slice;
}.
Record NormalMessage := mkNM {
  m_Type : Z;
  m_View : Z;
  m_Index : Z;
  m_Command : option Command;
  m_CommandHash : slice;
}.
Inductive DuoBFTMessage := DuoBFTMessage_Normal (m : NormalMessage) | DuoBFTMessage_nil.

#[export] Instance InstanceState_eta : Eta InstanceState := λ s,
  mkIS (is_View s) (is_Index s) (is_Status s) (is_TStatus s) (is_Command s) (is_CommandHash s).
#[export] Instance set_is_Status : Setter is_Status := ltac:(solve_setter).
#[export] Instance set_is_TStatus : Setter is_TStatus := ltac:(solve_setter).
#[export] Instance set_is_Command : Setter is_Command := ltac:(solve_setter).
#[export] Instance set_is_CommandHash : Setter is_CommandHash := ltac:(solve_setter).

Definition IsPrepared (s : InstanceState) : bool := bool_decide (is_Status s = InstanceState_Prepared).
Definition IsPreCommitted (s : InstanceState) : bool := bool_decide (is_Status s = InstanceState_PreCommitted).
Definition IsCommitted (s : InstanceState) : bool := bool_decide (is_Status s = InstanceState_Committed).
Definition IsTPrepared (s : InstanceState) : bool := bool_decide (is_TStatus s = InstanceState_TPrepared).
Definition IsTCommitted (s : InstanceState) : bool := bool_decide (is_TStatus s = InstanceState_TCommitted).

Definition NormalMessage_Equals (m other : NormalMessage) : bool :=
  if bool_decide (m_View m ≠ m_View other) then false
  else if bool_decide (m_Index m ≠ m_Index other) then false
  else bytes_Equal (m_CommandHash m) (m_CommandHash other).

(** ** Quorums (quorum.go): votes, and the size of a quorum *)
#[export] Instance NM_QMsg : Quorum.QMsg NormalMessage :=
  {| Quorum.q_view := m_View; Quorum.q_Equals := NormalMessage_Equals |}.
Record Quorum := mkQuorum { q_votes : Quorum.Quorum NormalMessage; q_qSize : Z }.
Definition newQuorum (qSize : Z) : Quorum := mkQuorum Quorum.newQuorum qSize.
Definition Quorum_log (id : Z) (m : NormalMessage) (q : Quorum) : outcome Quorum :=
  v ← Quorum.log true id m (q_votes q); Ret (mkQuorum v (q_qSize q)).
(** [qSize] of the messages: more than [qSize - 1]. *)
Definition Quorum_Majority (m : NormalMessage) (q : Quorum) : bool :=
  Quorum.Majority (q_qSize q - 1) m (q_votes q).

(** ** The replica *)

(** The quorums are nil in the instance of index 0. *)
Record instance := mkInstance {
  i_is : InstanceState;
  tcCert : option Quorum;
  pcCert : option Quorum;
  cCert : option Quorum;
}.
#[export] Instance instance_eta : Eta instance := λ i, mkInstance (i_is i) (tcCert i) (pcCert i) (cCert i).
#[export] Instance set_i_is : Setter i_is := ltac:(solve_setter).
#[export] Instance set_tcCert : Setter tcCert := ltac:(solve_setter).
#[export] Instance set_pcCert : Setter pcCert := ltac:(solve_setter).
#[export] Instance set_cCert : Setter cCert := ltac:(solve_setter).
(** [&instance{}] *)
Definition zero_instance : instance := mkInstance (mkIS 0 0 0 0 None None) None None None.

(** The closures handed to the pools: what they hold.  [a] is the address of the
    instance. *)
Inductive job :=
| VerifyJob (m : NormalMessage) (hash cert : bytes) (from : Z)
| CommitJob (a : nat) (cm : NormalMessage) (mBytes : bytes)
| PreCommitJob (a : nat) (pcm : NormalMessage) (mBytes : bytes)
| PrepareJob (a : nat) (pm : NormalMessage) (mBytes : bytes).

Record Config := mkConfig {
  cfg_ID : Z;
  cfg_Peers : list Z;
  cfg_LeaderID : Z;
  cfg_MaxFailures : Z;
  cfg_Workers : gmap string nat;
  cfg_WorkersQueueSizes : gmap string nat;
}.

Section duobft.
Context {U : Type} `{GoEnv, Codec Command, Codec DuoBFTMessage, Ecdsa, UsigSig U}.

Record duobft := mkDuobft {
  p_id : Z;
  p_nodes : list Z;
  p_f : Z;
  p_heap : list instance;
  p_log : gmap Z nat;
  p_execute : Z;
  p_tExecute : Z;
  p_index : Z;
  p_msgs : list Message;
  p_executedCmds : list ExecPacket;
  p_certifier : U;
  p_stableView : Z;
  p_curView : Z;
  p_dispatcher : Dispatcher job;
  p_dispatcher2 : Dispatcher job;
  p_signed : gmap nat bytes;   (* what the workers of dispatcher2 have signed *)
  p_callbackC : list (job * option bytes);
}.
#[export] Instance duobft_eta : Eta duobft := λ p,
  mkDuobft (p_id p) (p_nodes p) (p_f p) (p_heap p) (p_log p) (p_execute p) (p_tExecute p) (p_index p)
    (p_msgs p) (p_executedCmds p) (p_certifier p) (p_stableView p) (p_curView p) (p_dispatcher p)
    (p_dispatcher2 p) (p_signed p) (p_callbackC p).
#[export] Instance set_p_heap : Setter p_heap := ltac:(solve_setter).
#[export] Instance set_p_log : Setter p_log := ltac:(solve_setter).
#[export] Instance set_p_execute : Setter p_execute := ltac:(solve_setter).
#[export] Instance set_p_tExecute : Setter p_tExecute := ltac:(solve_setter).
#[export] Instance set_p_index : Setter p_index := ltac:(solve_setter).
#[export] Instance set_p_msgs : Setter p_msgs := ltac:(solve_setter).
#[export] Instance set_p_executedCmds : Setter p_executedCmds := ltac:(solve_setter).
#[export] Instance set_p_certifier : Setter p_certifier := ltac:(solve_setter).
#[export] Instance set_p_dispatcher : Setter p_dispatcher := ltac:(solve_setter).
#[export] Instance set_p_dispatcher2 : Setter p_dispatcher2 := ltac:(solve_setter).
#[export] Instance set_p_signed : Setter p_signed := ltac:(solve_setter).
#[export] Instance set_p_callbackC : Setter p_callbackC := ltac:(solve_setter).

(** [NewDuoBFT], with the initialised enclave. *)
Definition NewDuoBFT (c : Config) (u : U) : outcome duobft :=
  match cfg_Workers c !! "mac_sign"%string, cfg_WorkersQueueSizes c !! "mac_sign"%string with
  | None, _ => Panic "Worker count for mac_sign missing."
  | _, None => Panic "Worker queue size for mac_sign missing."
  | Some workers, Some _ =>
      Ret (mkDuobft (cfg_ID c) (cfg_Peers c) (cfg_MaxFailures c) [zero_instance] {[0%Z := 0]} 1 1 0 [] []
             u (cfg_LeaderID c) (cfg_LeaderID c) (NewDispatcher workers) (NewDispatcher workers) ∅ [])
  end.

(** *** Certificates (ecdsa.go) *)
Definition usigSign (msg : bytes) (u : U) : bytes * U :=
  let '((ctr, sig), u) := CreateUISig (sha256 msg) u in (sig ++ LittleEndian_PutUint64 ctr, u).
Definition usigVerify (mHash sig : bytes) : outcome bool :=
  let n := Z.of_nat (length sig) in
  ctrBytes ← sub_slice sig (n - 8) n;
  ctr ← LittleEndian_Uint64 ctrBytes;
  sig ← sub_slice sig 0 (n - 8);
  Ret (Signer.VerifyUISig mHash sig ctr).
Definition normalSign (msg : bytes) : option bytes := Signer.Sign msg.
(** [p.signer.Verify(msg, sig) != nil]: that there is an error. *)
Definition normalVerify (msg sig : bytes) : outcome bool :=
  ok ← Signer.Verify msg sig; Ret (negb ok).

(** *** Messaging (messaging.go) *)
Definition enqueueForSending (to : Z) (mm certificate : bytes) : M duobft unit :=
  modify (λ p, p <| p_msgs ::= λ l, l ++ [mkMessage (p_id p) to mm certificate] |>).
Definition marshall (m : NormalMessage) : M duobft bytes :=
  match Marshal (DuoBFTMessage_Normal m) with
  | None => panic "unable to marshall"
  | Some mBytes => mret mBytes
  end.
(** Nothing calls it. *)
Definition sendTo (to : Z) (mBytes sign : bytes) : M duobft unit := enqueueForSending to mBytes sign.
Definition broadcast (mBytes : bytes) (sendToSelf : bool) (sign : bytes) : M duobft unit :=
  p ← get;
  for_each (p_nodes p) (λ node,
    when (sendToSelf || bool_decide (node ≠ p_id p)) (enqueueForSending node mBytes sign)).

(** *** Instances *)
Definition makeInstance (m : NormalMessage) (p : duobft) : instance :=
  mkInstance (mkIS (m_View m) (m_Index m) InstanceState_None InstanceState_TNone (m_Command m) (m_CommandHash m))
    (Some (newQuorum (p_f p + 1))) (Some (newQuorum (2 * p_f p + 1))) (Some (newQuorum (2 * p_f p + 1))).

(** Through a pointer. *)
Definition get_inst (a : nat) : M duobft instance :=
  p ← get; match p_heap p !! a with None => panic "nil instance" | Some i => mret i end.
Definition with_inst (a : nat) (g : instance → outcome instance) : M duobft unit :=
  inst ← get_inst a; inst' ← lift (g inst); modify (λ p, p <| p_heap ::= <[a := inst']> |>).
Definition set_status (a : nat) (st : Z) : M duobft unit :=
  with_inst a (λ i, Ret (i <| i_is ::= set is_Status (λ _, st) |>)).
Definition set_tstatus (a : nat) (st : Z) : M duobft unit :=
  with_inst a (λ i, Ret (i <| i_is ::= set is_TStatus (λ _, st) |>)).
Definition log_opt (id : Z) (m : NormalMessage) (q : option Quorum) : outcome (option Quorum) :=
  match q with None => Panic "nil Quorum" | Some q => q ← Quorum_log id m q; Ret (Some q) end.
Definition log_tcCert (a : nat) (id : Z) (m : NormalMessage) : M duobft unit :=
  with_inst a (λ i, q ← log_opt id m (tcCert i); Ret (i <| tcCert := q |>)).
Definition log_pcCert (a : nat) (id : Z) (m : NormalMessage) : M duobft unit :=
  with_inst a (λ i, q ← log_opt id m (pcCert i); Ret (i <| pcCert := q |>)).
Definition log_cCert (a : nat) (id : Z) (m : NormalMessage) : M duobft unit :=
  with_inst a (λ i, q ← log_opt id m (cCert i); Ret (i <| cCert := q |>)).
(** Go would dereference a nil quorum here, but [log] has done so before. *)
Definition Majority_opt (m : NormalMessage) (q : option Quorum) : bool :=
  match q with Some q => Quorum_Majority m q | None => false end.

(** A new instance, filed at [idx]. *)
Definition new_inst (idx : Z) (i : instance) : M duobft nat :=
  p ← get;
  modify (λ p, p <| p_heap ::= λ h, h ++ [i] |> <| p_log ::= <[idx := length (p_heap p)]> |>);;
  mret (length (p_heap p)).

Definition updateCommand (m : NormalMessage) (inst : instance) : outcome instance :=
  match is_Command (i_is inst) with
  | Some c =>
      e ← Command_Equal c (m_Command m);
      if negb e then Panic "Different commands for same instance" else Ret inst
  | None => Ret (inst <| i_is ::= set is_Command (λ _, m_Command m) |>)
  end.
Definition updateCommandHash (m : NormalMessage) (inst : instance) : outcome instance :=
  match is_CommandHash (i_is inst) with
  | Some _ =>
      if negb (bytes_Equal (is_CommandHash (i_is inst)) (m_CommandHash m))
      then Panic "Different command hashes for same instance" else Ret inst
  | None => Ret (inst <| i_is ::= set is_CommandHash (λ _, m_CommandHash m) |>)
  end.
(** The hash is of the whole command; [proto.Marshal] dereferences it. *)
Definition checkCommandHash (cmd : option Command) (hash : slice) : outcome bool :=
  match cmd with
  | None => Panic "nil Command"
  | Some cmd =>
      match Marshal cmd with
      | None => Panic "marshal"
      | Some cmdBytes => Ret (bytes_Equal hash (Some (sha256 cmdBytes)))
      end
  end.
(** The instance of a message, made or checked; its address. *)
Definition fetch_instance (checks : instance → outcome instance) (m : NormalMessage) : M duobft nat :=
  p ← get;
  match p_log p !! m_Index m with
  | None => new_inst (m_Index m) (makeInstance m p)
  | Some a => with_inst a checks;; mret a
  end.

(** *** Execution *)
Definition Execute (cmd : Command) : M duobft unit :=
  modify (λ p, p <| p_executedCmds ::= λ l, l ++ [exec_pkt cmd] |>).

Definition texec_body : M duobft bool :=
  p ← get;
  match p_log p !! p_tExecute p with
  | None => mret false
  | Some a =>
      inst ← get_inst a;
      if negb (IsTCommitted (i_is inst)) then mret false else
      match is_Command (i_is inst) with
      | None => mret false
      | Some cmd =>
          when (bool_decide (is_Some (c_Meta cmd))) (Execute cmd);;
          set_tstatus a InstanceState_TExecuted;;
          modify (λ p, p <| p_tExecute ::= λ x, u64 (x + 1) |>);;
          mret true
      end
  end.
Definition exec_body : M duobft bool :=
  p ← get;
  match p_log p !! p_execute p with
  | None => mret false
  | Some a =>
      inst ← get_inst a;
      if negb (IsCommitted (i_is inst)) then mret false else
      match is_Command (i_is inst) with
      | None => mret false
      | Some cmd =>
          when (negb (bool_decide (is_Some (c_Meta cmd)))) (Execute cmd);;
          set_status a InstanceState_Executed;;
          modify (λ p, p <| p_execute ::= λ x, u64 (x + 1) |>);;
          mret true
      end
  end.
(** Every round takes an instance out of the committed ones. *)
Definition texec : M duobft unit := p ← get; loop (S (length (p_heap p))) texec_body.
Definition exec : M duobft unit := p ← get; loop (S (length (p_heap p))) exec_body.

(** *** Agreement (instance.go) *)
Definition isPrimaryAtView (id view : Z) (p : duobft) : outcome bool :=
  l ← leader_of view (length (p_nodes p)); Ret (bool_decide (id = l)).
Definition isCurrentPrimary (id : Z) (p : duobft) : outcome bool := isPrimaryAtView id (p_curView p) p.

(** [if inst.is.IsTPrepared() && inst.tcCert.Majority(m)] *)
Definition maybeTCommit (a : nat) (m : NormalMessage) : M duobft unit :=
  inst ← get_inst a;
  when (IsTPrepared (i_is inst) && Majority_opt m (tcCert inst))
    (set_tstatus a InstanceState_TCommitted;; texec).
(** [if inst.is.IsPrepared() && inst.pcCert.Majority(m)] *)
Definition maybePreCommit (a : nat) (m : NormalMessage) : M duobft unit :=
  inst ← get_inst a;
  when (IsPrepared (i_is inst) && Majority_opt m (pcCert inst))
    (set_status a InstanceState_PreCommitted;;
     let cm := mkNM NormalMessage_Commit (m_View m) (m_Index m) None (is_CommandHash (i_is inst)) in
     mBytes ← marshall cm;
     modify (λ p, p <| p_dispatcher ::= Worker.Exec (CommitJob a cm mBytes) |>)).
(** [if inst.is.IsPreCommitted() && inst.cCert.Majority(m)] *)
Definition maybeCommit (a : nat) (m : NormalMessage) : M duobft unit :=
  inst ← get_inst a;
  when (IsPreCommitted (i_is inst) && Majority_opt m (cCert inst))
    (set_status a InstanceState_Committed;; exec).

Definition onPrepare (m : NormalMessage) (from : Z) : M duobft unit :=
  p ← get;
  prim ← lift (isCurrentPrimary from p);
  if negb prim then mret tt else
  ok ← lift (checkCommandHash (m_Command m) (m_CommandHash m));
  if negb ok then panic "The hash does not correspond to the command" else
  a ← fetch_instance (λ i, i ← updateCommand m i; updateCommandHash m i) m;
  log_tcCert a from m;;
  log_pcCert a from m;;
  set_status a InstanceState_Prepared;;
  set_tstatus a InstanceState_TPrepared;;
  inst ← get_inst a;
  let pcm := mkNM NormalMessage_PreCommit (is_View (i_is inst)) (is_Index (i_is inst)) None
               (is_CommandHash (i_is inst)) in
  mBytes ← marshall pcm;
  modify (λ p, p <| p_dispatcher2 ::= Worker.Exec (PreCommitJob a pcm mBytes) |>).

Definition onPreCommit (m : NormalMessage) (from : Z) : M duobft unit :=
  a ← fetch_instance (updateCommandHash m) m;
  log_tcCert a from m;;
  log_pcCert a from m;;
  maybeTCommit a m;;
  maybePreCommit a m.

Definition onCommit (m : NormalMessage) (from : Z) : M duobft unit :=
  a ← fetch_instance (updateCommandHash m) m;
  log_cCert a from m;;
  maybeCommit a m.

(** *** The pools

    What a worker of [dispatcher] computes; [None] is a panic, which stops the
    process. *)
Definition run_job (j : job) : option bytes :=
  match j with
  | VerifyJob m hash cert _ =>
      match (if bool_decide (m_Type m < NormalMessage_Commit)%Z
             then usigVerify hash cert else normalVerify hash cert) with
      | Ret true => Some []
      | _ => None
      end
  | CommitJob _ _ mBytes => normalSign mBytes
  | _ => None
  end.
(** What a worker of [dispatcher2] signs. *)
Definition to_sign (j : job) : option bytes :=
  match j with PreCommitJob _ _ mBytes | PrepareJob _ _ mBytes => Some mBytes | _ => None end.

(** The callback of a job. *)
Definition finish_job (j : job) (sign : bytes) : M duobft unit :=
  p ← get;
  match j with
  | VerifyJob m _ _ from =>
      if decide (m_Type m = NormalMessage_Prepare) then onPrepare m from
      else if decide (m_Type m = NormalMessage_PreCommit) then onPreCommit m from
      else if decide (m_Type m = NormalMessage_Commit) then onCommit m from
      else panic "unexpected Message type"
  | CommitJob a cm mBytes =>
      broadcast mBytes false sign;;
      log_cCert a (p_id p) cm;;
      maybeCommit a cm
  | PreCommitJob a pcm mBytes =>
      broadcast mBytes false sign;;
      log_tcCert a (p_id p) pcm;;
      log_pcCert a (p_id p) pcm;;
      maybeTCommit a pcm;;
      maybePreCommit a pcm
  | PrepareJob a pm mBytes =>
      log_tcCert a (p_id p) pm;;
      log_pcCert a (p_id p) pm;;
      broadcast mBytes false sign
  end.

(** The steps of the pools; a worker of [dispatcher2] calls the enclave before it
    sends the callback, and others can call it in between. *)
Inductive pool_event := Pool1 (e : Worker.event) | Pool2 (e : Worker.event) | SignStep (k : nat).
Definition worker_step (cap : nat) (e : pool_event) (p : duobft) : option duobft :=
  match e with
  | Pool1 e =>
      '(d, cbs) ← Worker.step run_job cap e (p_dispatcher p) (p_callbackC p);
      if forallb (λ jr, bool_decide (is_Some jr.2)) cbs
      then Some (p <| p_dispatcher := d |> <| p_callbackC := cbs |>) else None
  | SignStep k =>
      match (Worker.d_workers (p_dispatcher2 p) !! k ≫= Worker.running) ≫= to_sign, p_signed p !! k with
      | Some mBytes, None =>
          let '(sign, u) := usigSign mBytes (p_certifier p) in
          Some (p <| p_certifier := u |> <| p_signed ::= <[k := sign]> |>)
      | _, _ => None
      end
  | Pool2 (Worker.Done k) =>
      sign ← p_signed p !! k;
      '(d, cbs) ← Worker.step (λ _, Some sign) cap (Worker.Done k) (p_dispatcher2 p) (p_callbackC p);
      Some (p <| p_dispatcher2 := d |> <| p_callbackC := cbs |> <| p_signed ::= delete k |>)
  | Pool2 e =>
      '(d, cbs) ← Worker.step (λ _, None) cap e (p_dispatcher2 p) (p_callbackC p);
      Some (p <| p_dispatcher2 := d |> <| p_callbackC := cbs |>)
  end.

Definition AsyncCallback_body : M duobft bool :=
  p ← get;
  match p_callbackC p with
  | [] => mret false
  | (j, r) :: rest =>
      modify (λ p, p <| p_callbackC := rest |>);;
      match r with
      | None => panic "worker"
      | Some r => finish_job j r
      end;;
      mret true
  end.
Definition AsyncCallback : M duobft unit :=
  p ← get; loop (S (length (p_callbackC p))) AsyncCallback_body.

(** *** Requests (request.go) *)
Definition onRequest (cmd : Command) : M duobft unit :=
  p ← get;
  if decide (p_nodes p = []) then panic "integer divide by zero" else
  if bool_decide (p_curView p `mod` Z.of_nat (length (p_nodes p)) ≠ p_id p)%Z then mret tt else
  let index := u64 (p_index p + 1) in
  modify (λ p, p <| p_index := index |>);;
  match Marshal cmd with
  | None => panic "marshal"
  | Some cmdBytes =>
      let cmdHash := Some (sha256 cmdBytes) in
      a ← new_inst index (mkInstance
        (mkIS (p_curView p) index InstanceState_Prepared InstanceState_TPrepared (Some cmd) cmdHash)
        (Some (newQuorum (p_f p + 1))) (Some (newQuorum (2 * p_f p + 1))) (Some (newQuorum (2 * p_f p + 1))));
      let pm := mkNM NormalMessage_Prepare (p_curView p) index (Some cmd) cmdHash in
      mBytes ← marshall pm;
      modify (λ p, p <| p_dispatcher2 ::= Worker.Exec (PrepareJob a pm mBytes) |>)
  end.

(** *** The [Protocol] methods (duobft.go) *)
Definition stepNormal (m : NormalMessage) (hash cert : bytes) (from : Z) : M duobft unit :=
  p ← get;
  if bool_decide (p_curView p ≠ p_stableView p) then mret tt else
  if bool_decide (m_View m ≠ p_curView p) then panic "inconsistent views" else
  modify (λ p, p <| p_dispatcher ::= Worker.Exec (VerifyJob m hash cert from) |>).
Definition Step (mm : Message) : M duobft unit :=
  match Unmarshal (msg_Content mm) with
  | None => panic "unmarshal"
  | Some (DuoBFTMessage_Normal m) => stepNormal m (sha256 (msg_Content mm)) (msg_Certificate mm) (msg_From mm)
  | Some DuoBFTMessage_nil => panic "unexpected Message type"
  end.

Definition Callback (message : ExecCallback) : M duobft unit := mret tt.
(** No timer is ever registered. *)
Definition Tick : M duobft unit := mret tt.
Definition Request (command : Command) : M duobft unit := onRequest command.
Definition MakeReady : M duobft Ready := gets (λ p, mkReady (p_msgs p) (p_executedCmds p)).
Definition ClearMsgs : M duobft unit := modify (λ p, p <| p_msgs := [] |>).
Definition ClearExecutedCommands : M duobft unit := modify (λ p, p <| p_executedCmds := [] |>).

(** [leaderOfView]: a modulus of unsigned integers. *)
Definition leaderOfView (v : Z) (p : duobft) : outcome Z :=
  if decide (p_nodes p = []) then Panic "integer divide by zero"
  else Ret (v `mod` Z.of_nat (length (p_nodes p)))%Z.

Definition find_inst (index : Z) (p : duobft) : option instance := p_log p !! index ≫= λ a, p_heap p !! a.
Definition hasStatus (index status : Z) (p : duobft) : bool :=
  match find_inst index p with Some inst => bool_decide (is_Status (i_is inst) = status) | None => false end.
Definition hasTStatus (index status : Z) (p : duobft) : bool :=
  match find_inst index p with Some inst => bool_decide (is_TStatus (i_is inst) = status) | None => false end.
Definition hasPrepared (index : Z) (p : duobft) : bool := hasStatus index InstanceState_Prepared p.
Definition hasCommitted (index : Z) (p : duobft) : bool := hasStatus index InstanceState_Committed p.
Definition hasExecuted (index : Z) (p : duobft) : bool := hasStatus index InstanceState_Executed p.
Definition hasTExecuted (index : Z) (p : duobft) : bool := hasTStatus index InstanceState_TExecuted p.

#[export] Instance duobft_Protocol : Protocol duobft := {|
  Peer.Step := Step;
  Peer.Tick := Tick;
  Peer.Request := Request;
  Peer.Callback := Callback;
  Peer.MakeReady := MakeReady;
  Peer.ClearMsgs := ClearMsgs;
  Peer.ClearExecutedCommands := ClearExecutedCommands;
  Peer.AsyncCallback := AsyncCallback;
|}.
End duobft.
Arguments duobft : clear implicits.
End Duobft.
