(* ===== verification/DuobftSafety.v ===== *)
(** * What a DuoBFT replica keeps

    The invariant of a replica that is not the primary: the hash of an instance
    never changes once it is known, the commit votes it sends are for the hashes
    of its log, a committed instance has the votes of [2f + 1] replicas for its
    hash, and what is executed are the commands of the log in its order, those
    with metadata in one stream and the others in another. *)
From S2P Require Import Prelude Command Worker Signer Peer Runs Duobft.
From S2P Require Quorum.
Import Duobft.

(** What the marshaller promises: messages come back, with the nil and the empty
    hash the same. *)
Class DuoCodecLaws `{Codec DuoBFTMessage} := {
  Unmarshal_Normal m b : Marshal (DuoBFTMessage_Normal m) = Some b →
    ∃ m', Unmarshal b = Some (DuoBFTMessage_Normal m') ∧
      m_Type m' = m_Type m ∧ m_Index m' = m_Index m ∧ m_CommandHash m' ≈ m_CommandHash m;
}.

Lemma duo_NM_Equals_hash m m' : NormalMessage_Equals m m' = true → m_CommandHash m ≈ m_CommandHash m'.
Proof. unfold NormalMessage_Equals. repeat case_match; try done. by intros ?%bytes_Equal_spec. Qed.

Section invariant.
Context {U : Type} `{GoEnv, !GoEnvLaws, Codec Command, Codec DuoBFTMessage, Ecdsa, UsigSig U, !DuoCodecLaws}.
Context (id : Z) (nodes : list Z) (f view prim : Z) (Hf : (0 ≤ f)%Z).
Context (primary : leader_of view (length nodes) = Ret prim) (unsigned : prim = (view `mod` Z.of_nat (length nodes))%Z).
Context (follower : prim ≠ id).
(** The commit votes that the messages from a replica carried. *)
Context (heard : Z → Z → slice → Prop).
(** Hashes that are known to be in the log, by index. *)
Context (floor : gmap Z (list Byte.byte)).
Implicit Types (p : duobft U) (inst : instance).

Definition hash inst : slice := is_CommandHash (i_is inst).
Definition status inst : Z := is_Status (i_is inst).
Definition tstatus inst : Z := is_TStatus (i_is inst).
Definition cmd_of inst : option Command := is_Command (i_is inst).
Definition index inst : Z := is_Index (i_is inst).
Definition prepared inst : Prop :=
  (InstanceState_Prepared ≤ status inst)%Z ∨ (InstanceState_TPrepared ≤ tstatus inst)%Z.

(** The hash [h] of index [i] is in the log. *)
Definition fixed p (i : Z) (h : slice) : Prop :=
  ∃ inst, find_inst i p = Some inst ∧ is_Some (hash inst) ∧ h ≈ hash inst.
(** A vote of replica [j] to commit [h] at index [i]. *)
Definition vote (i : Z) (h : slice) (j : Z) : Prop := j = id ∨ ∃ h', heard j i h' ∧ h ≈ h'.
Definition certified (i : Z) (h : slice) : Prop :=
  ∃ A : gset Z, (2 * f < Z.of_nat (size A))%Z ∧ ∀ j, j ∈ A → vote i h j.
(** The command [c] is one with hash [h], or equal to one. *)
Definition has_hash (c : Command) (h : slice) : Prop :=
  ∃ c' b, Marshal c' = Some b ∧ h ≈ Some (sha256 b) ∧ (c' = c ∨ Command_Equal c (Some c') = Ret true).
(** The primary's vote is logged, so that a second one panics. *)
Definition prim_voted inst : Prop :=
  ∃ q, tcCert inst = Some q ∧ is_Some (Quorum.view_msgs view (q_votes q) !! prim).

Record inst_ok inst : Prop := {
  in_prim : prepared inst → prim_voted inst;
  in_hash : prepared inst → is_Some (hash inst);
  in_cmd c : prepared inst → cmd_of inst = Some c → has_hash c (hash inst);
  in_votes q : cCert inst = Some q → q_qSize q = (2 * f + 1)%Z ∧
    Quorum.votes (λ j m, vote (index inst) (m_CommandHash m) j) (q_votes q);
  in_committed : (InstanceState_Committed ≤ status inst)%Z → certified (index inst) (hash inst);
}.

(** What changes of an instance leave. *)
Record inst_le inst inst' : Prop := {
  le_index : index inst' = index inst;
  le_hash x : hash inst = Some x → hash inst' = Some x;
  le_cmd c : cmd_of inst = Some c → cmd_of inst' = Some c;
  le_done : status inst = InstanceState_Executed → status inst' = InstanceState_Executed;
  le_tdone : tstatus inst = InstanceState_TExecuted → tstatus inst' = InstanceState_TExecuted;
}.

(** The message with bytes [b] votes only for hashes of the log. *)
Definition backed p (b : list Byte.byte) : Prop := ∀ m,
  Unmarshal b = Some (DuoBFTMessage_Normal m) → m_Type m = NormalMessage_Commit →
  fixed p (m_Index m) (m_CommandHash m).
Definition job_ok p (j : job) : Prop :=
  match j with
  | VerifyJob m _ _ from =>
      m_View m = view ∧ (m_Type m = NormalMessage_Commit → heard from (m_Index m) (m_CommandHash m))
  | CommitJob a cm b =>
      backed p b ∧ ∃ inst, p_heap p !! a = Some inst ∧ m_Index cm = index inst ∧ is_Some (hash inst) ∧
        m_CommandHash cm ≈ hash inst
  | PreCommitJob a pcm b => backed p b ∧ ∃ inst, p_heap p !! a = Some inst ∧ m_Index pcm = index inst
  | PrepareJob _ _ _ => False
  end.
Definition jobs p : list job :=
  Worker.pending (p_dispatcher p) ++ Worker.pending (p_dispatcher2 p) ++ (p_callbackC p).*1.

(** The commands [cs] of the indices 1, 2, ... have been taken; those of the
    packets in [h] and of the state that pass [P] are those of [cs] that pass. *)
Definition stream (P : Command → Prop) `{∀ c, Decision (P c)} (taken : instance → Prop) (next : Z)
    (h : list ExecPacket) p (cs : list Command) : Prop :=
  next = u64 (1 + Z.of_nat (length cs)) ∧
  (∀ k c, cs !! k = Some c → ∃ inst, find_inst (u64 (1 + Z.of_nat k)) p = Some inst ∧ taken inst ∧ cmd_of inst = Some c) ∧
  filter P (x_Cmd <$> (h ++ p_executedCmds p)) = filter P cs.
Definition plain (c : Command) : Prop := c_Meta c = None.
Definition meta (c : Command) : Prop := is_Some (c_Meta c).

Record log_inv p : Prop := {
  iv_id : p_id p = id;
  iv_nodes : p_nodes p = nodes;
  iv_f : p_f p = f;
  iv_view : p_curView p = view;
  iv_log i a : p_log p !! i = Some a → ∃ inst, p_heap p !! a = Some inst ∧ index inst = i;
  iv_heap a inst : p_heap p !! a = Some inst → p_log p !! index inst = Some a ∧ inst_ok inst;
  iv_jobs j : j ∈ jobs p → job_ok p j;
  iv_msgs m : m ∈ p_msgs p → backed p (msg_Content m);
  iv_floor i x : floor !! i = Some x → ∃ inst, find_inst i p = Some inst ∧ hash inst = Some x;
}.
Record duo_inv (h : list ExecPacket) p : Prop := {
  iv_base : log_inv p;
  iv_exec : ∃ cs, stream plain (λ inst, status inst = InstanceState_Executed) (p_execute p) h p cs;
  iv_texec : ∃ cs, stream meta (λ inst, tstatus inst = InstanceState_TExecuted) (p_tExecute p) h p cs;
}.

(** ** Changing the state *)

(** What the invariant looks at, but for the executed commands. *)
Definition core p :=
  (p_id p, p_nodes p, p_f p, p_curView p, p_log p, p_heap p, (p_dispatcher p, p_dispatcher2 p, p_callbackC p), p_msgs p).
Lemma log_inv_core p p' : core p' = core p → log_inv p → log_inv p'.
Proof.
  unfold core. intros [= E1 E2 E3 E4 E5 E6 E7 E8 E9 E10] [].
  assert (∀ i, find_inst i p' = find_inst i p) as Ef by (intros i; unfold find_inst; by rewrite E5, E6).
  assert (∀ b, backed p b → backed p' b) as Hb by (intros b; unfold backed, fixed; by setoid_rewrite Ef).
  split; rewrite ?E1, ?E2, ?E3, ?E4, ?E5, ?E6, ?E10; auto.
  - intros j. unfold jobs. rewrite E7, E8, E9. intros Hj%iv_jobs0. destruct j; simpl in *; rewrite ?E6; naive_solver.
  - intros i x. rewrite Ef. auto.
Qed.

(** The log and the instances only get more. *)
Record grows p p' : Prop := {
  gr_log i a : p_log p !! i = Some a → p_log p' !! i = Some a;
  gr_heap a inst : p_heap p !! a = Some inst → ∃ inst', p_heap p' !! a = Some inst' ∧ inst_le inst inst';
}.
Lemma grows_find p p' i inst :
  grows p p' → find_inst i p = Some inst → ∃ inst', find_inst i p' = Some inst' ∧ inst_le inst inst'.
Proof.
  intros [Hl Hh] (a & Ha & Hi)%bind_Some. destruct (Hh _ _ Hi) as (inst' & Hi' & Hle). exists inst'.
  split; [|done]. unfold find_inst. by rewrite (Hl _ _ Ha).
Qed.
Lemma grows_fixed p p' i h : grows p p' → fixed p i h → fixed p' i h.
Proof.
  intros Hg (inst & Hi & [x Hx] & He). destruct (grows_find _ _ _ _ Hg Hi) as (inst' & Hi' & Hle).
  exists inst'. rewrite (le_hash _ _ Hle x Hx). rewrite Hx in He. by split_and!.
Qed.
Lemma grows_backed p p' b : grows p p' → backed p b → backed p' b.
Proof. intros Hg Hb m Hm Ht. eapply grows_fixed; [done|by apply Hb]. Qed.
Lemma grows_job p p' j : grows p p' → job_ok p j → job_ok p' j.
Proof.
  intros Hg. destruct j as [| a cm b | a pcm b |]; simpl; [done| | |done].
  - intros (Hb & inst & Ha & Hi & [x Hx] & He). split; [by eapply grows_backed|].
    destruct (gr_heap _ _ Hg _ _ Ha) as (inst' & Ha' & Hle). exists inst'.
    rewrite (le_index _ _ Hle), (le_hash _ _ Hle x Hx). rewrite Hx in He. by split_and!.
  - intros (Hb & inst & Ha & Hi). split; [by eapply grows_backed|].
    destruct (gr_heap _ _ Hg _ _ Ha) as (inst' & Ha' & Hle). exists inst'. by rewrite (le_index _ _ Hle).
Qed.
Lemma grows_stream P `{∀ c, Decision (P c)} taken next h p p' cs :
  (∀ inst inst', inst_le inst inst' → taken inst → taken inst') → grows p p' →
  p_executedCmds p' = p_executedCmds p → stream P taken next h p cs → stream P taken next h p' cs.
Proof.
  intros Ht Hg E (Hn & Hcs & Hf1). split; [done|]. rewrite E. split; [|done]. intros k c Hk.
  destruct (Hcs k c Hk) as (inst & Hi & Hti & Hc). destruct (grows_find _ _ _ _ Hg Hi) as (inst' & Hi' & Hle).
  exists inst'. split_and!; [done|by eapply Ht|by eapply le_cmd].
Qed.

(** From [p] to [p'], where the rest of the state stays. *)
Definition rest p :=
  (p_id p, p_nodes p, p_f p, p_curView p, (p_execute p, p_tExecute p, p_executedCmds p),
   (p_dispatcher p, p_dispatcher2 p, p_callbackC p), p_msgs p).
Lemma grows_log_inv p p' :
  grows p p' → rest p' = rest p →
  (∀ i a, p_log p' !! i = Some a → ∃ inst, p_heap p' !! a = Some inst ∧ index inst = i) →
  (∀ a inst, p_heap p' !! a = Some inst → p_log p' !! index inst = Some a ∧ inst_ok inst) →
  log_inv p → log_inv p'.
Proof.
  unfold rest. intros Hg [= E1 E2 E3 E4 E5 E6 E7 E8 E9 E10 E11] Hl Hh [].
  split; rewrite ?E1, ?E2, ?E3, ?E4; try done.
  - intros j. unfold jobs. rewrite E8, E9, E10. intros Hj. by eapply grows_job, iv_jobs0.
  - intros m. rewrite E11. intros Hm. by eapply grows_backed, iv_msgs0.
  - intros i x Hx. destruct (iv_floor0 i x Hx) as (inst & Hi & Hxi).
    destruct (grows_find _ _ _ _ Hg Hi) as (inst' & Hi' & Hle). exists inst'. by rewrite (le_hash _ _ Hle x).
Qed.
Lemma grows_duo_inv h p p' :
  grows p p' → rest p' = rest p → (log_inv p → log_inv p') → duo_inv h p → duo_inv h p'.
Proof.
  intros Hg E Hl [Hb (cs & Hcs) (ts & Hts)]. unfold rest in E. injection E as _ _ _ _ E5 E6 E7 _ _ _ _.
  split; [by apply Hl| |].
  - exists cs. rewrite E5. eapply grows_stream; [by intros ?? Hle; apply le_done|done..].
  - exists ts. rewrite E6. eapply grows_stream; [by intros ?? Hle; apply le_tdone|done..].
Qed.

Definition hput (a : nat) inst p : duobft U := p <| p_heap ::= <[a := inst]> |>.
Lemma duo_inst_le_refl inst : inst_le inst inst.
Proof. by split. Qed.
Lemma hput_grows a inst inst' p :
  p_heap p !! a = Some inst → inst_le inst inst' → grows p (hput a inst' p).
Proof.
  intros Ha Hle. split; [done|]. intros b inst0 Hb. cbn. destruct (decide (a = b)) as [<-|Hne].
  - exists inst'. rewrite list_lookup_insert_eq by (by eapply lookup_lt_Some). rewrite Ha in Hb. by injection Hb as <-.
  - exists inst0. rewrite list_lookup_insert_ne by done. split; [done|apply duo_inst_le_refl].
Qed.
Lemma hput_inv h a inst inst' p :
  p_heap p !! a = Some inst → inst_ok inst' → inst_le inst inst' → duo_inv h p → duo_inv h (hput a inst' p).
Proof.
  intros Ha Hok Hle. pose proof (hput_grows _ _ _ _ Ha Hle) as Hg.
  apply grows_duo_inv; [done..|]. intros Hb. apply (grows_log_inv p); [done..| | |done].
  - intros i b Hi. destruct (iv_log _ Hb i b Hi) as (inst0 & Hb0 & Hidx).
    destruct (gr_heap _ _ Hg _ _ Hb0) as (inst1 & Hb1 & Hle1). exists inst1. by rewrite (le_index _ _ Hle1).
  - intros b inst0. cbn. intros [(-> & <- & _)|[Hne Hb0]]%list_lookup_insert_Some; [|by apply (iv_heap _ Hb)].
    rewrite (le_index _ _ Hle). split; [|done]. by apply (iv_heap _ Hb).
Qed.

Lemma duo_wp_get_inst a (Q : instance → duobft U → Prop) p :
  (∀ inst, p_heap p !! a = Some inst → Q inst p) → wp (get_inst a) Q p.
Proof.
  intros HQ. unfold get_inst. wp_step. wp_step. destruct (p_heap p !! a); [|done]. wp_step. by apply HQ.
Qed.
(** A change of the instance at [a]. *)
Lemma with_inst_at h a g inst (Q : unit → duobft U → Prop) p :
  p_heap p !! a = Some inst → duo_inv h p →
  (∀ inst', g inst = Ret inst' → inst_ok inst' ∧ inst_le inst inst' ∧
    (∀ p', p_heap p' !! a = Some inst' → duo_inv h p' → Q tt p')) →
  wp (with_inst a g) Q p.
Proof.
  intros Ha Hp HQ. unfold with_inst. wp_step. apply duo_wp_get_inst. rewrite Ha. intros ? [= <-].
  wp_step. apply wp_lift. intros inst' Hg. wp_step. destruct (HQ inst' Hg) as (Hok & Hle & HQ').
  apply HQ'; [|by eapply hput_inv]. cbn. rewrite list_lookup_insert_eq; [done|by eapply lookup_lt_Some].
Qed.
Lemma inst_at h a inst p : duo_inv h p → p_heap p !! a = Some inst → inst_ok inst.
Proof. intros Hp Ha. by apply (iv_heap _ (iv_base _ _ Hp) a). Qed.

(** ** Changes of an instance *)

(** The votes and the command, which may get known. *)
Lemma log_opt_inv j m q q' :
  log_opt j m q = Ret q' →
  ∃ q0 q1, q = Some q0 ∧ q' = Some q1 ∧ q_qSize q1 = q_qSize q0 ∧ Quorum.log true j m (q_votes q0) = Ret (q_votes q1).
Proof. unfold log_opt. destruct q as [q0|]; [|done]. unfold Quorum_log. intros Hl. outcome_inv. by eexists _, _. Qed.
Lemma log_tcCert_ok j m inst inst' :
  (q ← log_opt j m (tcCert inst); Ret (inst <| tcCert := q |>)) = Ret inst' → inst_ok inst →
  inst_ok inst' ∧ inst_le inst inst' ∧ i_is inst' = i_is inst ∧
  (m_View m = view → j = prim → ¬ prepared inst ∧ prim_voted inst').
Proof.
  intros Hg [Hp]. outcome_inv. match goal with Hx : log_opt _ _ _ = Ret _ |- _ =>
    apply log_opt_inv in Hx as (q0 & q1 & Eq & -> & _ & Hl) end. split_and!.
  - split; try done. intros Hpr. destruct (Hp Hpr) as (q & Eq' & [x Hx]). rewrite Eq in Eq'. injection Eq' as <-.
    exists q1. split; [done|]. exists x. pose proof (Quorum.log_grows _ _ _ _ _ view Hl). by eapply lookup_weaken.
  - by split.
  - done.
  - intros Hv ->. apply Quorum.log_strict_inv in Hl as (_ & Hn & _ & Hview). change (Quorum.q_view m) with (m_View m) in *.
    rewrite Hv in *. split.
    + intros Hpr. destruct (Hp Hpr) as (q & Eq' & [x Hx]). rewrite Eq in Eq'. injection Eq' as <-. congruence.
    + exists q1. split; [done|]. rewrite Hview, decide_True, lookup_insert_eq by done. by eexists.
Qed.
Lemma log_pcCert_ok j m inst inst' :
  (q ← log_opt j m (pcCert inst); Ret (inst <| pcCert := q |>)) = Ret inst' → inst_ok inst →
  inst_ok inst' ∧ inst_le inst inst' ∧ i_is inst' = i_is inst ∧ tcCert inst' = tcCert inst.
Proof. intros Hg []. outcome_inv. by split_and!. Qed.
Lemma log_cCert_ok j m inst inst' :
  vote (index inst) (m_CommandHash m) j →
  (q ← log_opt j m (cCert inst); Ret (inst <| cCert := q |>)) = Ret inst' → inst_ok inst →
  inst_ok inst' ∧ inst_le inst inst' ∧ i_is inst' = i_is inst.
Proof.
  intros Hv Hg []. outcome_inv. match goal with Hx : log_opt _ _ _ = Ret _ |- _ =>
    apply log_opt_inv in Hx as (q0 & q1 & Eq & -> & Es & Hl) end. split_and!; [|by split|done].
  destruct (in_votes0 _ Eq) as [Hs Hvs]. split; try done. intros q [= <-]. rewrite Es. split; [done|].
  by eapply Quorum.votes_log.
Qed.
Lemma duo_updateCommandHash_inv m inst inst' :
  updateCommandHash m inst = Ret inst' →
  inst' = inst <| i_is ::= set is_CommandHash (λ _, hash inst') |> ∧ m_CommandHash m ≈ hash inst' ∧
  (∀ x, hash inst = Some x → hash inst' = Some x) ∧ (is_Some (m_CommandHash m) → is_Some (hash inst')).
Proof.
  unfold updateCommandHash. change (is_CommandHash (i_is inst)) with (hash inst).
  destruct (hash inst) as [x|] eqn:Hx.
  - destruct (bytes_Equal (Some x) (m_CommandHash m)) eqn:He; simpl; [|done]. intros [= <-].
    apply bytes_Equal_spec in He. rewrite Hx. split_and!; try done. unfold hash in Hx.
    by destruct inst as [[] ? ? ?]; simpl in *; subst.
  - intros [= <-]. by split_and!.
Qed.
Lemma duo_updateCommandHash_ok m inst inst' :
  updateCommandHash m inst = Ret inst' → inst_ok inst → inst_ok inst' ∧ inst_le inst inst'.
Proof.
  intros (E & He & Hk & Hs)%duo_updateCommandHash_inv [].
  assert (∀ st, hash inst = Some st → hash inst' = hash inst) as Hk'.
  { intros x Hx. by rewrite Hx, (Hk x Hx). }
  assert (prepared inst' ↔ prepared inst) as Hpr by (rewrite E; done).
  assert (status inst' = status inst ∧ tstatus inst' = tstatus inst ∧ cmd_of inst' = cmd_of inst ∧
    index inst' = index inst ∧ tcCert inst' = tcCert inst ∧ cCert inst' = cCert inst)
    as (Es & Et & Ec & Ei & Etc & Ecc) by (by rewrite E).
  split; [split|split]; rewrite ?Hpr, ?Es, ?Et, ?Ec, ?Ei, ?Ecc; try done; unfold prim_voted; rewrite ?Etc; try done.
  - intros [x Hx]%in_hash0. exists x. by apply Hk.
  - intros c Hp%Hpr Hc. destruct (in_hash0 Hp) as [x Hx]. rewrite (Hk' x Hx). by apply in_cmd0.
  - intros Hst. assert (prepared inst) as [x Hx]%in_hash0.
    { left. unfold InstanceState_Prepared, InstanceState_Committed in *. lia. }
    rewrite (Hk' x Hx). by apply in_committed0.
Qed.

(** A new instance at an index that is not in the log. *)
Lemma duo_new_inst_inv h i inst p :
  p_log p !! i = None → index inst = i → inst_ok inst → duo_inv h p →
  wp (new_inst i inst) (λ a p', duo_inv h p' ∧ p_heap p' !! a = Some inst) p.
Proof.
  intros Hi Hidx Hok Hp. unfold new_inst. wp_step. wp_step. wp_step. wp_step. wp_step.
  set (p' := p <| p_heap ::= _ |> <| p_log ::= _ |>).
  assert (grows p p') as Hg.
  { split.
    - intros j b Hj. cbn. rewrite lookup_insert_ne by (by intros ->; rewrite Hi in Hj). done.
    - intros b inst0 Hb. exists inst0. split; [|apply duo_inst_le_refl]. cbn. by apply lookup_app_l_Some. }
  split; [|cbn; by apply list_lookup_middle].
  apply (grows_duo_inv h p); [done..| |done]. intros Hb. apply (grows_log_inv p); [done..| | |done].
  - intros j b. cbn. rewrite lookup_insert. case_decide as E.
    + intros [= <-]. exists inst. split; [by apply list_lookup_middle|by rewrite Hidx].
    + intros Hj. destruct (iv_log _ Hb j b Hj) as (inst0 & Hb0 & ?). exists inst0. split; [|done].
      by apply lookup_app_l_Some.
  - intros b inst0. cbn. intros [Hb0|[Hle Hb0]]%lookup_app_Some.
    + destruct (iv_heap _ Hb b inst0 Hb0) as [Hl Hok0]. split; [|done].
      rewrite lookup_insert_ne; [done|]. intros E. rewrite <-E, Hi in Hl. done.
    + apply list_lookup_singleton_Some in Hb0 as [Hz <-]. split; [|done]. rewrite Hidx, lookup_insert_eq.
      f_equal. lia.
Qed.

Lemma duo_makeInstance_ok m p : p_f p = f → inst_ok (makeInstance m p).
Proof.
  intros Hpf. assert (¬ prepared (makeInstance m p)) as Hn by (intros [Hs|Hs]; by vm_compute in Hs).
  split; try done. intros q [= <-]. split; [by rewrite Hpf|apply Quorum.votes_new].
Qed.

(** The instance of a message. *)
Lemma fetch_inv h (checks : instance → outcome instance) (Q : instance → Prop) m p :
  (∀ inst inst', checks inst = Ret inst' → inst_ok inst → inst_ok inst' ∧ inst_le inst inst' ∧ Q inst') →
  Q (makeInstance m p) → duo_inv h p →
  wp (fetch_instance checks m) (λ a p', duo_inv h p' ∧
    ∃ inst, p_heap p' !! a = Some inst ∧ index inst = m_Index m ∧ Q inst) p.
Proof.
  intros Hc HQ Hp. pose proof (iv_base _ _ Hp) as Hb. unfold fetch_instance. wp_step. wp_step.
  destruct (p_log p !! m_Index m) as [a|] eqn:Hl.
  - destruct (iv_log _ Hb _ _ Hl) as (inst & Ha & Hidx). wp_step.
    apply (with_inst_at h a _ inst); [done..|]. intros inst' Hg.
    destruct (Hc _ _ Hg (inst_at _ _ _ _ Hp Ha)) as (Hok & Hle & HQ'). split_and!; [done..|].
    intros p' Ha' Hp'. wp_step. split; [done|]. exists inst'. by rewrite (le_index _ _ Hle).
  - eapply wp_mono; [apply (duo_new_inst_inv h); [done|done|by apply duo_makeInstance_ok, Hb|done]|].
    simpl. intros a p' [Hp' Ha]. split; [done|]. by exists (makeInstance m p).
Qed.

(** ** Execution *)
Lemma set_status_le st inst : status inst ≠ InstanceState_Executed →
  inst_le inst (inst <| i_is ::= set is_Status (λ _, st) |>).
Proof. intros Hne. by split. Qed.
Lemma set_tstatus_le st inst : tstatus inst ≠ InstanceState_TExecuted →
  inst_le inst (inst <| i_is ::= set is_TStatus (λ _, st) |>).
Proof. intros Hne. by split. Qed.
(** A status that asks for nothing that the instance does not have. *)
Lemma set_status_ok st inst :
  prepared inst → ((InstanceState_Committed ≤ st)%Z → certified (index inst) (hash inst)) → inst_ok inst →
  inst_ok (inst <| i_is ::= set is_Status (λ _, st) |>).
Proof.
  intros Hp Hc []. split; try done; intros.
  - by apply in_prim0.
  - by apply in_hash0.
  - by apply in_cmd0.
Qed.
Lemma set_tstatus_ok st inst :
  prepared inst → inst_ok inst → inst_ok (inst <| i_is ::= set is_TStatus (λ _, st) |>).
Proof.
  intros Hp []. split; try done; intros.
  - by apply in_prim0.
  - by apply in_hash0.
  - by apply in_cmd0.
Qed.

Lemma find_inst_at p i a inst : p_log p !! i = Some a → p_heap p !! a = Some inst → find_inst i p = Some inst.
Proof. intros Hl Ha. unfold find_inst. by rewrite Hl. Qed.

(** One more command of a stream. *)
Lemma stream_snoc P `{∀ c, Decision (P c)} taken h p p' cs i inst cmd :
  i = u64 (1 + Z.of_nat (length cs)) → stream P taken i h p cs → p_log p' = p_log p → p_heap p' = p_heap p →
  find_inst i p = Some inst → taken inst → cmd_of inst = Some cmd →
  x_Cmd <$> p_executedCmds p' = (x_Cmd <$> p_executedCmds p) ++ (if decide (P cmd) then [cmd] else []) →
  stream P taken (u64 (i + 1)) h p' (cs ++ [cmd]).
Proof.
  intros Hi (_ & Hcs & Hf1) El Eh Hfi Ht Hc Ex.
  assert (∀ j, find_inst j p' = find_inst j p) as Ef by (intros j; unfold find_inst; by rewrite El, Eh).
  split; [|split].
  - rewrite Hi, u64_add_l, length_app. simpl. f_equal. lia.
  - intros k c [Hk|[Hle [Hz <-]%list_lookup_singleton_Some]]%lookup_app_Some.
    + rewrite Ef. by apply Hcs.
    + assert (k = length cs) as -> by lia. rewrite <-Hi, Ef. by exists inst.
  - rewrite fmap_app, Ex, !filter_app, <-Hf1, fmap_app, filter_app, <-!app_assoc. do 2 f_equal.
    rewrite filter_cons, filter_nil. case_decide as Hd; [|by rewrite filter_nil].
    by rewrite filter_cons, decide_True, filter_nil.
Qed.
(** The packets that the other stream adds do not pass. *)
Lemma stream_other P `{∀ c, Decision (P c)} taken next h p p' cs xs :
  (∀ c, c ∈ xs → ¬ P c) → p_log p' = p_log p → p_heap p' = p_heap p →
  x_Cmd <$> p_executedCmds p' = (x_Cmd <$> p_executedCmds p) ++ xs →
  stream P taken next h p cs → stream P taken next h p' cs.
Proof.
  intros Hx El Eh Ex (Hn & Hcs & Hf1). split; [done|]. split.
  - intros k c Hk. destruct (Hcs k c Hk) as (inst & Hi & ?). exists inst. split; [|done].
    unfold find_inst. by rewrite El, Eh.
  - rewrite fmap_app, Ex, !filter_app, <-Hf1, fmap_app, filter_app.
    assert (filter P xs = []) as ->; [|by rewrite app_nil_r].
    destruct (filter P xs) as [|c l] eqn:E; [done|]. assert (c ∈ filter P xs) as Hc by (rewrite E; left).
    apply list_elem_of_filter in Hc as [Hp Hin]. by destruct (Hx c Hin).
Qed.

(** A round of [texec], of [exec]: from [p] to [p']. *)
Lemma texec_round h p p' a inst cmd :
  p_log p !! p_tExecute p = Some a → p_heap p !! a = Some inst → tstatus inst = InstanceState_TCommitted →
  cmd_of inst = Some cmd →
  core p' = core (hput a (inst <| i_is ::= set is_TStatus (λ _, InstanceState_TExecuted) |>) p) →
  p_execute p' = p_execute p → p_tExecute p' = u64 (p_tExecute p + 1) →
  x_Cmd <$> p_executedCmds p' = (x_Cmd <$> p_executedCmds p) ++ (if decide (meta cmd) then [cmd] else []) →
  duo_inv h p → duo_inv h p'.
Proof.
  intros Hl Ha Hst Hc Ec E1 E2 Ex Hp. set (inst' := inst <| i_is ::= _ |>) in Ec. set (p2 := hput a inst' p) in Ec.
  assert (prepared inst) as Hpr by (right; by rewrite Hst).
  assert (duo_inv h p2) as [Hb (cs & Hcs) (ts & Hts)].
  { eapply hput_inv; [done| | |done].
    - apply set_tstatus_ok; [done|by eapply inst_at].
    - apply set_tstatus_le. by rewrite Hst. }
  assert (p_log p' = p_log p2 ∧ p_heap p' = p_heap p2) as [El Eh] by (unfold core in Ec; by injection Ec).
  assert (find_inst (p_tExecute p) p2 = Some inst') as Hfi.
  { apply (find_inst_at _ _ a); [done|]. cbn. apply list_lookup_insert_eq. by eapply lookup_lt_Some. }
  split; [by eapply log_inv_core| |].
  - exists cs. rewrite E1. eapply stream_other; [|done..|exact Hcs].
    intros c Hin. case_decide as Hm; [|by apply not_elem_of_nil in Hin].
    apply list_elem_of_singleton in Hin as ->. destruct Hm as [x Hx]. unfold plain. by rewrite Hx.
  - exists (ts ++ [cmd]). rewrite E2. eapply stream_snoc; [apply Hts|exact Hts|done..].
Qed.
Lemma exec_round h p p' a inst cmd :
  p_log p !! p_execute p = Some a → p_heap p !! a = Some inst → status inst = InstanceState_Committed →
  cmd_of inst = Some cmd →
  core p' = core (hput a (inst <| i_is ::= set is_Status (λ _, InstanceState_Executed) |>) p) →
  p_tExecute p' = p_tExecute p → p_execute p' = u64 (p_execute p + 1) →
  x_Cmd <$> p_executedCmds p' = (x_Cmd <$> p_executedCmds p) ++ (if decide (plain cmd) then [cmd] else []) →
  duo_inv h p → duo_inv h p'.
Proof.
  intros Hl Ha Hst Hc Ec E1 E2 Ex Hp. set (inst' := inst <| i_is ::= _ |>) in Ec. set (p2 := hput a inst' p) in Ec.
  assert (prepared inst) as Hpr by (left; by rewrite Hst).
  assert (duo_inv h p2) as [Hb (cs & Hcs) (ts & Hts)].
  { pose proof (inst_at _ _ _ _ Hp Ha) as Hok. eapply hput_inv; [done| | |done].
    - apply set_status_ok; [done| |done]. intros _. apply (in_committed _ Hok). by rewrite Hst.
    - apply set_status_le. by rewrite Hst. }
  assert (p_log p' = p_log p2 ∧ p_heap p' = p_heap p2) as [El Eh] by (unfold core in Ec; by injection Ec).
  assert (find_inst (p_execute p) p2 = Some inst') as Hfi.
  { apply (find_inst_at _ _ a); [done|]. cbn. apply list_lookup_insert_eq. by eapply lookup_lt_Some. }
  split; [by eapply log_inv_core| |].
  - exists (cs ++ [cmd]). rewrite E2. eapply stream_snoc; [apply Hcs|exact Hcs|done..].
  - exists ts. rewrite E1. eapply stream_other; [|done..|exact Hts].
    intros c Hin. case_decide as Hm; [|by apply not_elem_of_nil in Hin].
    apply list_elem_of_singleton in Hin as ->. unfold meta. rewrite Hm. by intros [].
Qed.

Lemma texec_inv h : preserves (duo_inv h) texec.
Proof.
  unfold texec. apply preserves_bind; [apply preserves_get|]. intros p0. apply preserves_loop. intros p Hp.
  unfold texec_body. wp_step. wp_step. destruct (p_log p !! p_tExecute p) as [a|] eqn:Hl; [|by wp_step].
  wp_step. apply duo_wp_get_inst. intros inst Ha. wp_step; [by wp_step|].
  destruct (is_Command (i_is inst)) as [cmd|] eqn:Hc; [|by wp_step].
  match goal with Hb : negb _ = false |- _ => apply negb_false_iff, bool_decide_eq_true in Hb; rename Hb into Hst end.
  unfold Execute, set_tstatus, with_inst. wp_step. wp_step;
    match goal with Hm : bool_decide _ = _ |- _ => first [apply bool_decide_eq_true in Hm as Hm'|apply bool_decide_eq_false in Hm as Hm'] end;
    [wp_step|]; wp_step; wp_step; apply duo_wp_get_inst; cbn; rewrite Ha; intros ? [= <-];
    wp_step; apply wp_lift; intros inst' [= <-]; wp_step; wp_step; wp_step; wp_step;
    (eapply texec_round; [exact Hl|exact Ha|exact Hst|exact Hc|done|done|done| |exact Hp]); cbn.
  - rewrite fmap_app, decide_True by done. done.
  - by rewrite decide_False, app_nil_r by done.
Qed.
Lemma duo_exec_inv h : preserves (duo_inv h) exec.
Proof.
  unfold exec. apply preserves_bind; [apply preserves_get|]. intros p0. apply preserves_loop. intros p Hp.
  unfold exec_body. wp_step. wp_step. destruct (p_log p !! p_execute p) as [a|] eqn:Hl; [|by wp_step].
  wp_step. apply duo_wp_get_inst. intros inst Ha. wp_step; [by wp_step|].
  destruct (is_Command (i_is inst)) as [cmd|] eqn:Hc; [|by wp_step].
  match goal with Hb : negb _ = false |- _ => apply negb_false_iff, bool_decide_eq_true in Hb; rename Hb into Hst end.
  unfold Execute, set_status, with_inst. wp_step. wp_step;
    match goal with Hm : negb (bool_decide _) = _ |- _ =>
      first [apply negb_true_iff, bool_decide_eq_false in Hm as Hm'|apply negb_false_iff, bool_decide_eq_true in Hm as Hm'] end;
    [wp_step|]; wp_step; wp_step; apply duo_wp_get_inst; cbn; rewrite Ha; intros ? [= <-];
    wp_step; apply wp_lift; intros inst' [= <-]; wp_step; wp_step; wp_step; wp_step;
    (eapply exec_round; [exact Hl|exact Ha|exact Hst|exact Hc|done|done|done| |exact Hp]); cbn.
  - rewrite fmap_app, decide_True by by apply eq_None_not_Some. done.
  - rewrite decide_False, app_nil_r; [done|]. unfold plain. by intros E; rewrite E in Hm'; destruct Hm'.
Qed.

(** ** Sending *)
#[local] Arguments Worker.Exec : simpl never.
#[local] Arguments Worker.pending : simpl never.

(** A state with the same log, instances and executed commands, and jobs and
    messages that are as they should be. *)
Definition view_of p := (p_id p, p_nodes p, p_f p, p_curView p, (p_log p, p_heap p), (p_execute p, p_tExecute p, p_executedCmds p)).
Lemma view_inv h p p' :
  view_of p' = view_of p → (∀ j, j ∈ jobs p' → job_ok p j) → (∀ m, m ∈ p_msgs p' → backed p (msg_Content m)) →
  duo_inv h p → duo_inv h p'.
Proof.
  unfold view_of. intros [= E1 E2 E3 E4 E5 E6 E7 E8 E9] Hj Hm [[] (cs & Hcs) (ts & Hts)].
  assert (∀ i, find_inst i p' = find_inst i p) as Ef by (intros i; unfold find_inst; by rewrite E5, E6).
  assert (∀ b, backed p b → backed p' b) as Hb by (intros b; unfold backed, fixed; by setoid_rewrite Ef).
  split; [split|exists cs|exists ts]; rewrite ?E1, ?E2, ?E3, ?E4, ?E5, ?E6, ?E7, ?E8; auto.
  - intros j Hjj. specialize (Hj j Hjj). destruct j; simpl in *; rewrite ?E6; naive_solver.
  - intros i x. rewrite Ef. auto.
  - unfold stream in *. rewrite E9. by setoid_rewrite Ef.
  - unfold stream in *. rewrite E9. by setoid_rewrite Ef.
Qed.
Lemma duo_exec_job_inv h j p :
  job_ok p j → duo_inv h p → duo_inv h (p <| p_dispatcher ::= Worker.Exec j |>).
Proof.
  intros Hj Hp. apply (view_inv h p); [done| |apply (iv_msgs _ (iv_base _ _ Hp))|done].
  intros j'. unfold jobs. cbn. rewrite !elem_of_app, Worker.Exec_pending.
  intros [[->|?]%elem_of_cons|?]; [done|..]; apply (iv_jobs _ (iv_base _ _ Hp)); unfold jobs; rewrite !elem_of_app; auto.
Qed.
Lemma exec_job2_inv h j p :
  job_ok p j → duo_inv h p → duo_inv h (p <| p_dispatcher2 ::= Worker.Exec j |>).
Proof.
  intros Hj Hp. apply (view_inv h p); [done| |apply (iv_msgs _ (iv_base _ _ Hp))|done].
  intros j'. unfold jobs. cbn. rewrite !elem_of_app, Worker.Exec_pending.
  intros [?|[[->|?]%elem_of_cons|?]]; [|done|..]; apply (iv_jobs _ (iv_base _ _ Hp)); unfold jobs; rewrite !elem_of_app; auto.
Qed.
Lemma marshall_inv m p (Q : list Byte.byte → duobft U → Prop) :
  (∀ b, Marshal (DuoBFTMessage_Normal m) = Some b → Q b p) → wp (marshall m) Q p.
Proof. intros HQ. unfold marshall. destruct (Marshal _) as [b|]; [|done]. wp_step. by apply HQ. Qed.
Lemma marshalled_backed p m b :
  Marshal (DuoBFTMessage_Normal m) = Some b →
  (m_Type m = NormalMessage_Commit → fixed p (m_Index m) (m_CommandHash m)) → backed p b.
Proof.
  intros Hb Hm m' Hu Ht. apply Unmarshal_Normal in Hb as (m2 & Hb & Et & Ei & Eh). rewrite Hu in Hb. injection Hb as <-.
  destruct (Hm ltac:(congruence)) as (inst & ? & ? & ?). exists inst. rewrite Ei. split_and!; [done..|]. by etrans.
Qed.
Lemma duo_broadcast_inv h b self sign p :
  backed p b → duo_inv h p →
  wp (broadcast b self sign) (λ _ p', duo_inv h p' ∧ core p' = core (p <| p_msgs := p_msgs p' |>)) p.
Proof.
  intros Hb Hp. unfold broadcast. wp_step. wp_step.
  apply (wp_for_each (λ p', duo_inv h p' ∧ core p' = core (p <| p_msgs := p_msgs p' |>))); [|done].
  intros node p1 _ [Hp1 E1]. wp_step; [|done]. unfold enqueueForSending. wp_step. split.
  - apply (view_inv h p1); [done|apply (iv_jobs _ (iv_base _ _ Hp1))| |done]. cbn.
    intros m [?|Hm]%elem_of_app; [by apply (iv_msgs _ (iv_base _ _ Hp1))|].
    apply list_elem_of_singleton in Hm as ->. cbn. intros m Hm Ht. specialize (Hb m Hm Ht).
    unfold core in E1. cbn in E1. injection E1 as _ _ _ _ El Eh _ _ _. unfold fixed, find_inst in *. by rewrite El, Eh.
  - unfold core in *. cbn in *. injection E1 as -> -> -> -> -> -> -> -> ->. done.
Qed.

(** ** The phases *)
Lemma fixed_at h a inst p :
  duo_inv h p → p_heap p !! a = Some inst → is_Some (hash inst) → fixed p (index inst) (hash inst).
Proof.
  intros Hp Ha Hs. exists inst. split; [|done]. destruct (iv_heap _ (iv_base _ _ Hp) a inst Ha) as [Hl _].
  by eapply find_inst_at.
Qed.
Lemma maybeTCommit_inv h a m : preserves (duo_inv h) (maybeTCommit a m).
Proof.
  intros p Hp. unfold maybeTCommit. wp_step. apply duo_wp_get_inst. intros inst Ha. wp_step; [|done].
  match goal with Hb : _ && _ = true |- _ => apply andb_true_iff in Hb as [Hst%bool_decide_eq_true _] end.
  change (is_TStatus (i_is inst)) with (tstatus inst) in Hst. wp_step.
  apply (with_inst_at h a _ inst); [done..|]. intros inst' [= <-]. split_and!.
  - apply set_tstatus_ok; [right; by rewrite Hst|by eapply inst_at].
  - apply set_tstatus_le. by rewrite Hst.
  - intros p' _ Hp'. by apply texec_inv.
Qed.
Lemma maybePreCommit_inv h a m inst p :
  p_heap p !! a = Some inst → m_Index m = index inst → duo_inv h p → wp (maybePreCommit a m) (λ _, duo_inv h) p.
Proof.
  intros Ha Hi Hp. unfold maybePreCommit. wp_step. apply duo_wp_get_inst. rewrite Ha. intros ? [= <-]. wp_step; [|done].
  match goal with Hb : _ && _ = true |- _ => apply andb_true_iff in Hb as [Hst%bool_decide_eq_true _] end.
  change (is_Status (i_is inst)) with (status inst) in Hst. pose proof (inst_at _ _ _ _ Hp Ha) as Hok.
  assert (prepared inst) as Hpr by (left; by rewrite Hst). pose proof (in_hash _ Hok Hpr) as Hs.
  wp_step. apply (with_inst_at h a _ inst); [done..|]. intros inst' [= <-]. split_and!.
  - by apply set_status_ok.
  - apply set_status_le. by rewrite Hst.
  - intros p' Ha' Hp'. wp_step. apply marshall_inv. intros b Hb. wp_step. apply duo_exec_job_inv; [|done]. split.
    + eapply marshalled_backed; [exact Hb|]. intros _. cbn. rewrite Hi. apply (fixed_at h a _ _ Hp' Ha'). exact Hs.
    + eexists. split; [exact Ha'|]. by split_and!.
Qed.
Lemma duo_maybeCommit_inv h a m inst p :
  p_heap p !! a = Some inst → m_CommandHash m ≈ hash inst → duo_inv h p → wp (maybeCommit a m) (λ _, duo_inv h) p.
Proof.
  intros Ha He Hp. unfold maybeCommit. wp_step. apply duo_wp_get_inst. rewrite Ha. intros ? [= <-]. wp_step; [|done].
  match goal with Hb : _ && _ = true |- _ => apply andb_true_iff in Hb as [Hst%bool_decide_eq_true Hm] end.
  change (is_Status (i_is inst)) with (status inst) in Hst. pose proof (inst_at _ _ _ _ Hp Ha) as Hok.
  assert (prepared inst) as Hpr by (left; by rewrite Hst).
  wp_step. apply (with_inst_at h a _ inst); [done..|]. intros inst' [= <-]. split_and!.
  - apply set_status_ok; [done| |done]. intros _. unfold Majority_opt in Hm. destruct (cCert inst) as [q|] eqn:Hq; [|done].
    destruct (in_votes _ Hok q Hq) as [Es Hv]. unfold Quorum_Majority in Hm. rewrite Es in Hm.
    destruct (Quorum.Majority_voters _ (2 * f + 1 - 1) m _ ltac:(lia) Hv Hm) as (A & Hs & HA).
    exists A. split; [lia|]. intros j (m' & Hvote & Heq%duo_NM_Equals_hash)%HA.
    destruct Hvote as [?|(h' & ? & Hh')]; [by left|right]. exists h'. split; [done|].
    etrans; [symmetry; exact He|]. by etrans.
  - apply set_status_le. by rewrite Hst.
  - intros p' _ Hp'. by apply duo_exec_inv.
Qed.

(** ** The handlers *)
Lemma duo_updateCommand_inv m inst inst' :
  updateCommand m inst = Ret inst' →
  (inst' = inst ∧ ∃ c, cmd_of inst = Some c ∧ Command_Equal c (m_Command m) = Ret true) ∨
  (cmd_of inst = None ∧ inst' = inst <| i_is ::= set is_Command (λ _, m_Command m) |>).
Proof.
  unfold updateCommand, cmd_of. destruct (is_Command (i_is inst)) as [c|].
  - intros Hu. outcome_inv. destruct a; simpl in Hu; [|done]. injection Hu as <-. left. split; [done|]. by exists c.
  - intros [= <-]. by right.
Qed.

(** What a proposal that passes the check leaves in its instance. *)
Definition proposed (m : NormalMessage) inst : Prop :=
  is_Some (hash inst) ∧ ∀ c, cmd_of inst = Some c → has_hash c (hash inst).
Lemma checked_hash cmd x :
  checkCommandHash cmd x = Ret true →
  ∃ c b, cmd = Some c ∧ Marshal c = Some b ∧ x ≈ Some (sha256 b) ∧ is_Some x.
Proof.
  unfold checkCommandHash. destruct cmd as [c|]; [|done]. destruct (Marshal c) as [b|] eqn:Hb; [|done].
  intros [= He]. apply bytes_Equal_spec in He. exists c, b. split_and!; [done..|]. destruct x as [x|]; [by eexists|].
  unfold slice_eqv in He. simpl in He. pose proof (length_sha256 b) as Hl. by rewrite <-He in Hl.
Qed.
(** A change of the hash and the command only, to a proposed instance. *)
Lemma proposed_ok m inst inst' :
  (status inst' = status inst ∧ tstatus inst' = tstatus inst ∧ index inst' = index inst ∧
   tcCert inst' = tcCert inst ∧ cCert inst' = cCert inst) →
  (∀ x, hash inst = Some x → hash inst' = Some x) → (∀ c, cmd_of inst = Some c → cmd_of inst' = Some c) →
  proposed m inst' → inst_ok inst → inst_ok inst' ∧ inst_le inst inst'.
Proof.
  intros (Es & Et & Ei & Etc & Ecc) Hh Hc [Hp1 Hp2] [].
  assert (prepared inst' ↔ prepared inst) as Hpr by (unfold prepared; by rewrite Es, Et).
  split; [|split; try done; by rewrite ?Es, ?Et].
  split; unfold prim_voted in *; rewrite ?Hpr, ?Etc, ?Ecc, ?Ei, ?Es; auto.
  intros Hst. destruct in_hash0 as [x Hx].
  { left. unfold InstanceState_Prepared, InstanceState_Committed in *. lia. }
  rewrite (Hh x Hx), <-Hx. by apply in_committed0.
Qed.
Lemma proposal_checks m inst inst' :
  checkCommandHash (m_Command m) (m_CommandHash m) = Ret true →
  (i ← updateCommand m inst; updateCommandHash m i) = Ret inst' → inst_ok inst →
  inst_ok inst' ∧ inst_le inst inst' ∧ proposed m inst'.
Proof.
  intros (c & b & Hc & Hb & Hx & Hs)%checked_hash Hg Hok.
  destruct (updateCommand m inst) as [inst1| |] eqn:Hu; [|done..]. simpl in Hg.
  pose proof (duo_updateCommandHash_inv _ _ _ Hg) as (E & He & Hk & Hs').
  assert (cmd_of inst' = cmd_of inst1) as Ec by (by rewrite E).
  assert (proposed m inst') as Hp.
  { split; [by apply Hs'|]. intros c1. rewrite Ec. intros Hc1. exists c, b. split; [done|]. split; [by rewrite <-He|].
    apply duo_updateCommand_inv in Hu as [(-> & c2 & Hc2 & Heq)|[_ ->]].
    - rewrite Hc1 in Hc2. injection Hc2 as <-. right. by rewrite <-Hc.
    - left. cbn in Hc1. congruence. }
  assert (inst_ok inst' ∧ inst_le inst inst') as [??]; [|done].
  apply (proposed_ok m); [| | |done..].
  - apply duo_updateCommand_inv in Hu as [(-> & _)|[_ ->]]; by rewrite E.
  - intros x Hx0. apply Hk. by apply duo_updateCommand_inv in Hu as [(-> & _)|[_ ->]].
  - intros c1 Hc1. rewrite Ec. apply duo_updateCommand_inv in Hu as [(-> & _)|[Hn ->]]; [done|congruence].
Qed.

Lemma duo_onPrepare_inv h m from : m_View m = view → preserves (duo_inv h) (onPrepare m from).
Proof.
  intros Hv p Hp. pose proof (iv_base _ _ Hp) as Hb. unfold onPrepare. wp_step. wp_step. wp_step. apply wp_lift.
  intros b Hprim. unfold isCurrentPrimary, isPrimaryAtView in Hprim. rewrite (iv_view _ Hb), (iv_nodes _ Hb), primary in Hprim.
  simpl in Hprim. injection Hprim as <-. wp_step; [by wp_step|].
  match goal with Hb : negb _ = false |- _ => apply negb_false_iff, bool_decide_eq_true in Hb as -> end.
  wp_step. apply wp_lift. intros ok Hok. wp_step; [done|].
  match goal with Hn : negb ok = false |- _ => apply negb_false_iff in Hn as -> end.
  wp_step. eapply wp_mono.
  { apply (fetch_inv h _ (proposed m)); [intros inst inst' Hg; by apply proposal_checks| |done].
    destruct (checked_hash _ _ Hok) as (c & b & Hc & Hmb & Hx & Hs). split; [exact Hs|].
    intros c1 Hc1. cbn in Hc1. rewrite Hc in Hc1. injection Hc1 as <-. exists c, b. by split_and!; [..|left]. }
  simpl. intros a p1 (Hp1 & inst & Ha & Hi & Hpr). wp_step.
  apply (with_inst_at h a _ inst); [done..|]. intros inst1 Hg1.
  destruct (log_tcCert_ok _ _ _ _ Hg1 (inst_at _ _ _ _ Hp1 Ha)) as (Hok1 & Hle1 & E1 & Hpv).
  destruct (Hpv Hv eq_refl) as [Hnp Hvoted]. split_and!; [done..|]. intros p2 Ha2 Hp2. wp_step.
  apply (with_inst_at h a _ inst1); [done..|]. intros inst2 Hg2.
  destruct (log_pcCert_ok _ _ _ _ Hg2 Hok1) as (Hok2 & Hle2 & E2 & Et2). split_and!; [done..|]. intros p3 Ha3 Hp3.
  assert (i_is inst2 = i_is inst) as E12 by congruence.
  assert (¬ prepared inst2) as Hnp2 by (unfold prepared, status, tstatus; by rewrite E12).
  assert (is_Some (hash inst2) ∧ ∀ c, cmd_of inst2 = Some c → has_hash c (hash inst2)) as [Hs2 Hc2].
  { unfold hash, cmd_of. rewrite E12. exact Hpr. }
  assert (prim_voted inst2) as Hv2 by (unfold prim_voted; by rewrite Et2).
  assert (∀ g, tcCert (g inst2) = tcCert inst2 → cCert (g inst2) = cCert inst2 → hash (g inst2) = hash inst2 →
    cmd_of (g inst2) = cmd_of inst2 → index (g inst2) = index inst2 → (status (g inst2) < 3)%Z → inst_ok (g inst2)) as Hgo.
  { intros g Eg1 Eg2 Eg3 Eg4 Eg5 Hst. destruct Hok2. split; unfold prim_voted in *; rewrite ?Eg1, ?Eg2, ?Eg3, ?Eg4, ?Eg5; auto.
    unfold InstanceState_Committed. lia. }
  wp_step. apply (with_inst_at h a _ inst2); [done..|]. intros inst3 [= <-]. split_and!.
  - by apply (Hgo (λ i, i <| i_is ::= set is_Status (λ _, InstanceState_Prepared) |>)).
  - apply set_status_le. intros Hst. apply Hnp2. left. by rewrite Hst.
  - intros p4 Ha4 Hp4. wp_step. eapply with_inst_at; [exact Ha4|exact Hp4|]. intros inst4 [= <-]. split_and!.
    + by apply (Hgo (λ i, i <| i_is ::= set is_Status (λ _, InstanceState_Prepared) |>
        <| i_is ::= set is_TStatus (λ _, InstanceState_TPrepared) |>)).
    + apply set_tstatus_le. intros Hst. apply Hnp2. right. cbn in Hst. unfold tstatus. by rewrite Hst.
    + intros p5 Ha5 Hp5. wp_step. apply duo_wp_get_inst. rewrite Ha5. intros ? [= <-]. wp_step.
      apply marshall_inv. intros b Hmb. wp_step. apply exec_job2_inv; [|done]. split.
      * by eapply marshalled_backed.
      * eexists. by split.
Qed.

(** The instance at an address keeps its index. *)
Definition at_index (a : nat) (i : Z) p : Prop := ∃ inst, p_heap p !! a = Some inst ∧ index inst = i.
Lemma set_tstatus_at a i b st : preserves (at_index a i) (set_tstatus b st).
Proof.
  intros p (inst & Ha & Hi). unfold set_tstatus, with_inst. wp_step. apply duo_wp_get_inst. intros inst0 Hb.
  wp_step. apply wp_lift. intros inst' [= <-]. wp_step. unfold at_index. cbn. destruct (decide (b = a)) as [->|Hne].
  - rewrite list_lookup_insert_eq by (by eapply lookup_lt_Some). rewrite Ha in Hb. injection Hb as <-. by eexists.
  - rewrite list_lookup_insert_ne by done. by exists inst.
Qed.
Lemma maybeTCommit_at a i b m : preserves (at_index a i) (maybeTCommit b m).
Proof.
  pose proof (set_tstatus_at a i).
  unfold maybeTCommit, texec, texec_body, get_inst, Execute. preserves_steps; try done;
    apply preserves_modify; by intros p.
Qed.
(** The votes for a message, and what follows from them. *)
Lemma count_precommit h a j m inst p :
  p_heap p !! a = Some inst → m_Index m = index inst → duo_inv h p →
  wp (log_tcCert a j m;; log_pcCert a j m;; maybeTCommit a m;; maybePreCommit a m) (λ _, duo_inv h) p.
Proof.
  intros Ha Hi Hp. wp_step. apply (with_inst_at h a _ inst); [done..|]. intros inst1 Hg1.
  destruct (log_tcCert_ok _ _ _ _ Hg1 (inst_at _ _ _ _ Hp Ha)) as (Hok1 & Hle1 & E1 & _).
  split_and!; [done..|]. intros p2 Ha2 Hp2. wp_step.
  apply (with_inst_at h a _ inst1); [done..|]. intros inst2 Hg2.
  destruct (log_pcCert_ok _ _ _ _ Hg2 Hok1) as (Hok2 & Hle2 & E2 & _). split_and!; [done..|]. intros p3 Ha3 Hp3.
  wp_step. eapply wp_mono.
  { apply wp_and; [by apply (maybeTCommit_inv h)|apply (maybeTCommit_at a (m_Index m))].
    exists inst2. split; [done|]. by rewrite (le_index _ _ Hle2), (le_index _ _ Hle1). }
  simpl. intros _ p4 [Hp4 (inst4 & Ha4 & Hi4)]. by eapply maybePreCommit_inv.
Qed.
Lemma count_commit h a j m inst p :
  p_heap p !! a = Some inst → vote (index inst) (m_CommandHash m) j → m_CommandHash m ≈ hash inst → duo_inv h p →
  wp (log_cCert a j m;; maybeCommit a m) (λ _, duo_inv h) p.
Proof.
  intros Ha Hv He Hp. wp_step. apply (with_inst_at h a _ inst); [done..|]. intros inst1 Hg1.
  destruct (log_cCert_ok _ _ _ _ Hv Hg1 (inst_at _ _ _ _ Hp Ha)) as (Hok1 & Hle1 & E1).
  split_and!; [done..|]. intros p2 Ha2 Hp2. eapply duo_maybeCommit_inv; [exact Ha2| |done]. unfold hash. by rewrite E1.
Qed.

Lemma onPreCommit_inv h m from : preserves (duo_inv h) (onPreCommit m from).
Proof.
  intros p Hp. unfold onPreCommit. wp_step. eapply wp_mono.
  { apply (fetch_inv h _ (λ _, True)); [|done..]. intros inst inst' Hg Hok.
    by destruct (duo_updateCommandHash_ok _ _ _ Hg Hok). }
  simpl. intros a p1 (Hp1 & inst & Ha & Hi & _). by eapply count_precommit.
Qed.
Lemma duo_onCommit_inv h m from p :
  heard from (m_Index m) (m_CommandHash m) → duo_inv h p → wp (onCommit m from) (λ _, duo_inv h) p.
Proof.
  intros Hh Hp. unfold onCommit. wp_step. eapply wp_mono.
  { apply (fetch_inv h _ (λ inst, m_CommandHash m ≈ hash inst)); [|done..]. intros inst inst' Hg Hok.
    destruct (duo_updateCommandHash_ok _ _ _ Hg Hok). apply duo_updateCommandHash_inv in Hg as (_ & ? & _). by split_and!. }
  simpl. intros a p1 (Hp1 & inst & Ha & Hi & He). eapply count_commit; [exact Ha| |done..].
  right. exists (m_CommandHash m). by rewrite Hi.
Qed.

(** ** The callbacks *)
Lemma duo_finish_job_inv h j r p : job_ok p j → duo_inv h p → wp (finish_job j r) (λ _, duo_inv h) p.
Proof.
  intros Hj Hp. pose proof (iv_id _ (iv_base _ _ Hp)) as Hid. unfold finish_job. wp_step. wp_step. destruct j as [m hs cert from|a cm b|a pcm b|a pm b]; simpl in Hj.
  - destruct Hj as [Hv Hh]. repeat case_decide; [by apply duo_onPrepare_inv|by apply onPreCommit_inv| |done].
    apply duo_onCommit_inv; [by apply Hh|done].
  - destruct Hj as (Hb & inst & Ha & Hi & Hs & He). wp_step. eapply wp_mono; [by apply duo_broadcast_inv|].
    simpl. intros _ p1 [Hp1 E]. unfold core in E. cbn in E. injection E as _ _ _ _ _ Eh _ _ _.
    eapply count_commit; [by rewrite Eh| |done..]. left. done.
  - destruct Hj as (Hb & inst & Ha & Hi). wp_step. eapply wp_mono; [by apply duo_broadcast_inv|].
    simpl. intros _ p1 [Hp1 E]. unfold core in E. cbn in E. injection E as _ _ _ _ _ Eh _ _ _.
    eapply count_precommit; [by rewrite Eh|done..].
  - done.
Qed.
Lemma duo_AsyncCallback_inv h : preserves (duo_inv h) AsyncCallback.
Proof.
  unfold AsyncCallback. apply preserves_bind; [apply preserves_get|]. intros p0. apply preserves_loop. intros p Hp.
  unfold AsyncCallback_body. wp_step. wp_step. destruct (p_callbackC p) as [|[j r] rest] eqn:Hc; [by wp_step|].
  wp_step. wp_step. wp_step. pose proof (iv_base _ _ Hp) as Hb.
  assert (∀ j', j' ∈ Worker.pending (p_dispatcher p) ++ Worker.pending (p_dispatcher2 p) ++ (j :: rest.*1) → job_ok p j') as Hjobs.
  { intros j' Hj'. apply (iv_jobs _ Hb). unfold jobs. by rewrite Hc. }
  assert (duo_inv h (p <| p_callbackC := rest |>)) as Hp'.
  { apply (view_inv h p); [done| |apply (iv_msgs _ Hb)|done]. intros j' Hj'. apply Hjobs.
    unfold jobs in Hj'. cbn in Hj'. rewrite !elem_of_app, elem_of_cons in *. tauto. }
  destruct r as [r|]; [|done]. eapply wp_mono.
  - apply duo_finish_job_inv; [|exact Hp']. assert (job_ok p j) as Hj by (apply Hjobs; rewrite !elem_of_app, elem_of_cons; tauto).
    destruct j; exact Hj.
  - simpl. intros _ p2 Hp2. by wp_step.
Qed.

(** ** The pools and the other calls *)
Lemma duo_worker_step_inv cap h e p p' : worker_step cap e p = Some p' → duo_inv h p → duo_inv h p'.
Proof.
  intros Hw Hp. pose proof (iv_base _ _ Hp) as Hb.
  assert (∀ (run : job → option (list Byte.byte)) cap e d d2 cbs,
    Worker.step run cap e d (p_callbackC p) = Some (d2, cbs) →
    (∀ j, j ∈ Worker.pending d → job_ok p j) →
    (∀ j, j ∈ Worker.pending d2 → job_ok p j) ∧ ∀ j, j ∈ cbs.*1 → job_ok p j) as Hstep.
  { intros run cap0 e0 d d2 cbs [Hj Hc]%Worker.step_jobs Hd. split; [intros j Hin; by apply Hd, Hj|].
    intros j ([j' r] & -> & Hin)%list_elem_of_fmap. destruct (Hc _ Hin) as [Hin'|[Hin' _]]; [|by apply Hd].
    apply (iv_jobs _ Hb). unfold jobs. rewrite !elem_of_app. right. right. by apply (list_elem_of_fmap_2 fst _ (j', r)). }
  assert (∀ j, j ∈ Worker.pending (p_dispatcher p) → job_ok p j) as Hd1.
  { intros j Hj. apply (iv_jobs _ Hb). unfold jobs. rewrite elem_of_app. by left. }
  assert (∀ j, j ∈ Worker.pending (p_dispatcher2 p) → job_ok p j) as Hd2.
  { intros j Hj. apply (iv_jobs _ Hb). unfold jobs. rewrite !elem_of_app. by right; left. }
  assert (∀ j, j ∈ (p_callbackC p).*1 → job_ok p j) as Hcb.
  { intros j Hj. apply (iv_jobs _ Hb). unfold jobs. rewrite !elem_of_app. by right; right. }
  destruct e as [e|e|k]; simpl in Hw.
  - apply bind_Some in Hw as ([d cbs] & Hs & Hw). destruct (forallb _ _); [|done]. injection Hw as <-.
    destruct (Hstep _ _ _ _ _ _ Hs Hd1). apply (view_inv h p); [done| |apply (iv_msgs _ Hb)|done].
    intros j. unfold jobs. cbn. rewrite !elem_of_app. intros [?|[?|?]]; auto.
  - assert (∃ run d cbs, Worker.step run cap e (p_dispatcher2 p) (p_callbackC p) = Some (d, cbs) ∧
      jobs p' = Worker.pending (p_dispatcher p) ++ Worker.pending d ++ cbs.*1 ∧
      view_of p' = view_of p ∧ p_msgs p' = p_msgs p) as (run & d & cbs & Hs & Ej & Ev & Em).
    { destruct e as [k| | |k]; [| | |apply bind_Some in Hw as (sg & _ & Hw)];
        apply bind_Some in Hw as ([d cbs] & Hs & [= <-]); (eexists _, d, cbs; split; [exact Hs|done]). }
    destruct (Hstep _ _ _ _ _ _ Hs Hd2). apply (view_inv h p); [done| |rewrite Em; apply (iv_msgs _ Hb)|done].
    intros j. rewrite Ej, !elem_of_app. intros [?|[?|?]]; auto.
  - destruct (_ ≫= to_sign) as [b|]; [|done]. destruct (p_signed p !! k); [done|].
    destruct (usigSign _ _) as [sg u]. injection Hw as <-.
    apply (view_inv h p); [done|exact (iv_jobs _ Hb)|apply (iv_msgs _ Hb)|done].
Qed.

(** The commit votes of a message are heard. *)
Definition hears (c : call) : Prop :=
  match c with
  | Call_Step msg => ∀ m, Unmarshal (msg_Content msg) = Some (DuoBFTMessage_Normal m) →
      m_Type m = NormalMessage_Commit → heard (msg_From msg) (m_Index m) (m_CommandHash m)
  | _ => True
  end.
Lemma duo_Step_inv h msg p : hears (Call_Step msg) → duo_inv h p → wp (Step msg) (λ _, duo_inv h) p.
Proof.
  intros Hh Hp. unfold Step. destruct (Unmarshal (msg_Content msg)) as [[m|]|] eqn:Hu; [|done..].
  unfold stepNormal. wp_step. wp_step. wp_step; [by wp_step|]. wp_step; [done|]. wp_step.
  match goal with Hv : bool_decide (m_View m ≠ p_curView p) = false |- _ => apply bool_decide_eq_false, dec_stable in Hv as Hv' end.
  apply duo_exec_job_inv; [|done]. split; [|by apply Hh]. by rewrite Hv', (iv_view _ (iv_base _ _ Hp)).
Qed.
(** A follower drops the requests. *)
Lemma duo_onRequest_inv h cmd : preserves (duo_inv h) (onRequest cmd).
Proof.
  intros p Hp. pose proof (iv_base _ _ Hp) as Hb. unfold onRequest. wp_step. wp_step. case_decide as Hn; [done|].
  wp_step; [by wp_step|]. exfalso.
  match goal with Hx : bool_decide _ = false |- _ => apply bool_decide_eq_false, dec_stable in Hx; rename Hx into Heq end.
  rewrite (iv_view _ Hb), (iv_nodes _ Hb), (iv_id _ Hb) in Heq. apply follower. by rewrite unsigned.
Qed.

Definition pools_step (cap : nat) p p' : Prop := ∃ e, worker_step cap e p = Some p'.
Lemma duo_invariant cap : invariant_with (pools_step cap) hears duo_inv.
Proof.
  split.
  - intros [msg|c| |cb| |] h p Hc Hp; simpl.
    + by apply duo_Step_inv.
    + by apply duo_onRequest_inv.
    + by unfold Tick; wp_step.
    + by unfold Callback; wp_step.
    + by apply duo_AsyncCallback_inv.
    + unfold ClearMsgs. wp_step. apply (view_inv h p); [done|apply (iv_jobs _ (iv_base _ _ Hp))| |done].
      by intros m ?%not_elem_of_nil.
  - intros h p p' [e He]. by eapply duo_worker_step_inv.
  - intros h p Hp. simpl. unfold MakeReady, ClearMsgs, ClearExecutedCommands. wp_step. intros sent.
    assert (∀ p1, log_inv p1 → p_log p1 = p_log p → p_heap p1 = p_heap p → p_execute p1 = p_execute p →
      p_tExecute p1 = p_tExecute p → duo_inv (h ++ p_executedCmds p) (p1 <| p_executedCmds := [] |>)) as Hc.
    { intros p1 Hb El Eh E1 E2. destruct Hp as [_ (cs & Hcs) (ts & Hts)].
      split; [by eapply (log_inv_core p1)|exists cs|exists ts]; unfold stream, find_inst in *; cbn;
        rewrite El, Eh, ?E1, ?E2, app_nil_r; done. }
    pose proof (iv_base _ _ Hp) as Hb. wp_step. wp_step; wp_step; [wp_step|]; apply Hc; try done.
    eapply (iv_base h), (view_inv h p); [done|apply (iv_jobs _ Hb)| |done]. by intros m ?%not_elem_of_nil.
Qed.
End invariant.

(** ** From the first state *)
#[local] Arguments Worker.NewDispatcher : simpl never.
Section start.
Context {U : Type} `{GoEnv, !GoEnvLaws, Codec Command, Codec DuoBFTMessage, Ecdsa, UsigSig U, !DuoCodecLaws}.
Implicit Types (c : Config) (p : duobft U).

(** The replica of [c] is not the primary. *)
Record duo_follower c : Prop := {
  fl_f : (0 ≤ cfg_MaxFailures c)%Z;
  fl_view : (0 ≤ cfg_LeaderID c < two63)%Z;
  fl_peers : 0 < length (cfg_Peers c) ∧ (Z.of_nat (length (cfg_Peers c)) < two63)%Z;
  fl_id : (cfg_LeaderID c `mod` Z.of_nat (length (cfg_Peers c)))%Z ≠ cfg_ID c;
}.
Definition primary_of c : Z := (cfg_LeaderID c `mod` Z.of_nat (length (cfg_Peers c)))%Z.
Lemma follower_primary c : duo_follower c → leader_of (cfg_LeaderID c) (length (cfg_Peers c)) = Ret (primary_of c).
Proof. intros Hc. apply leader_of_small; apply Hc. Qed.

Definition config_inv c heard floor h p : Prop :=
  duo_inv (cfg_ID c) (cfg_Peers c) (cfg_MaxFailures c) (cfg_LeaderID c) (primary_of c) heard floor h p.

Lemma NewDuoBFT_inv heard c u p :
  (0 ≤ cfg_MaxFailures c)%Z → NewDuoBFT c u = Ret p → config_inv c heard ∅ [] p.
Proof.
  intros Hf. unfold NewDuoBFT. destruct (cfg_Workers c !! _) as [n|]; [|done].
  destruct (cfg_WorkersQueueSizes c !! _); [|done]. intros [= <-]. split.
  - split; try done; cbn.
    + intros i a [<- <-]%lookup_singleton_Some. by exists zero_instance.
    + intros a inst [-> <-]%list_lookup_singleton_Some. split; [by rewrite lookup_singleton_eq|].
      split; try done; intros; destruct_or?; try done;
        match goal with Hx : prepared zero_instance |- _ => by destruct Hx as [Hx|Hx]; vm_compute in Hx end.
    + intros j. unfold jobs. cbn. rewrite !Worker.NewDispatcher_pending. by intros ?%not_elem_of_nil.
    + by intros m ?%not_elem_of_nil.
  - by exists [].
  - by exists [].
Qed.
Lemma config_invariant c heard floor cap :
  duo_follower c → invariant_with (pools_step cap) (hears heard) (config_inv c heard floor).
Proof. intros Hc. apply duo_invariant; try apply Hc; [by apply follower_primary|done]. Qed.

(** A commit vote sent at some point of the run from [p0] to [p]. *)
Definition sent (cap : nat) p0 (h : list ExecPacket) p (i : Z) (x : slice) : Prop :=
  ∃ h1 p1 msg m, runs (pools_step cap) [] p0 h1 p1 ∧ runs (pools_step cap) h1 p1 h p ∧ msg ∈ p_msgs p1 ∧
    Unmarshal (msg_Content msg) = Some (DuoBFTMessage_Normal m) ∧
    m_Type m = NormalMessage_Commit ∧ m_Index m = i ∧ m_CommandHash m = x.

Lemma duo_runs_hears cap h p h' p' :
  runs (pools_step cap) h p h' p' → runs_with (pools_step cap) (hears (λ _ _ _, True)) h p h' p'.
Proof. apply runs_with_mono. by intros []. Qed.

(** What was voted for is in the log for good. *)
Lemma duo_sent_fixed cap c u p0 h p i x :
  duo_follower c → NewDuoBFT c u = Ret p0 → sent cap p0 h p i x → fixed p i x.
Proof.
  intros Hc Hn (h1 & p1 & msg & m & Hr1%duo_runs_hears & Hr2%duo_runs_hears & Hmsg & Hu & Ht & <- & <-).
  pose proof (runs_with_inv _ _ _ _ _ _ _ (config_invariant c _ ∅ cap Hc) Hr1 (NewDuoBFT_inv _ _ _ _ (fl_f _ Hc) Hn)) as Hp1.
  pose proof (iv_base _ _ _ _ _ _ _ _ _ Hp1) as Hb.
  destruct (iv_msgs _ _ _ _ _ _ _ _ Hb _ Hmsg m Hu Ht) as (inst & Hi & [y Hy] & He).
  assert (config_inv c (λ _ _ _, True) {[m_Index m := y]} h1 p1) as Hp1'.
  { destruct Hp1 as [[] ? ?]. split; [split|..]; try done. intros j z [<- <-]%lookup_singleton_Some. eauto. }
  pose proof (runs_with_inv _ _ _ _ _ _ _ (config_invariant c _ _ cap Hc) Hr2 Hp1') as Hp.
  destruct (iv_floor _ _ _ _ _ _ _ _ (iv_base _ _ _ _ _ _ _ _ _ Hp) (m_Index m) y) as (inst' & Hi' & Hy'); [apply lookup_singleton_eq|].
  exists inst'. rewrite Hy in He. rewrite Hy'. by repeat split.
Qed.
End start.
