(* ===== verification/DuobftProps.v ===== *)
(** * The properties of DuoBFT

    Agreement of the replicas that follow on the commands of the slow rule,
    termination, and the runs that show what the two rules do to one store and
    what the fast one does under a faulty primary. *)
From S2P Require Import Prelude Command Worker Signer Peer Runs Wire Duobft DuobftSafety.
From S2P Require Quorum.
From Stdlib Require Import Strings.Byte.
Import Duobft.

(** ** Termination *)
Section ends.
Context {U : Type} `{GoEnv, Codec Command, Codec DuoBFTMessage, Ecdsa, UsigSig U}.
Implicit Types (p : duobft U).

(** The instances that one of the rules has committed and not executed. *)
Definition left_of (P : instance → Prop) `{∀ i, Decision (P i)} p : nat := length (filter P (p_heap p)).
Lemma left_of_taken P `{∀ i, Decision (P i)} a inst inst' p :
  p_heap p !! a = Some inst → P inst → ¬ P inst' →
  length (filter P (<[a := inst']> (p_heap p))) < left_of P p.
Proof.
  intros Ha Hp Hp'. unfold left_of. rewrite insert_take_drop by (by eapply lookup_lt_Some).
  rewrite <-(take_drop_middle _ _ _ Ha) at 3.
  rewrite !filter_app, !filter_cons, decide_False, decide_True, !length_app by done. simpl. lia.
Qed.
Definition tcommitted (i : instance) : Prop := is_TStatus (i_is i) = InstanceState_TCommitted.
Definition committed (i : instance) : Prop := is_Status (i_is i) = InstanceState_Committed.

Lemma duo_get_inst_ends a p : ends (get_inst a) p.
Proof. unfold get_inst. ends_steps. Qed.
#[local] Hint Resolve duo_get_inst_ends : go_ends.
Lemma duo_with_inst_ends a g p : (∀ inst, g inst ≠ Diverge) → ends (with_inst a g) p.
Proof. intros Hg. unfold with_inst. ends_steps. Qed.
Lemma duo_set_status_ends a st p : ends (set_status a st) p.
Proof. by apply duo_with_inst_ends. Qed.
Lemma duo_set_tstatus_ends a st p : ends (set_tstatus a st) p.
Proof. by apply duo_with_inst_ends. Qed.
#[local] Hint Resolve duo_set_status_ends duo_set_tstatus_ends : go_ends.

(** What [set_status], [set_tstatus] do, after the command is executed. *)
Lemma duo_texec_ends p : ends texec p.
Proof.
  change (ends (loop (S (length (p_heap p))) texec_body) p). apply (loop_ends (λ _, True) (left_of tcommitted)); [|done|].
  - intros p1 _. unfold texec_body, Execute. split; [ends_steps|]. wp_step. wp_step.
    destruct (p_log p1 !! p_tExecute p1) as [a|]; [|by wp_step]. wp_step. apply duo_wp_get_inst. intros inst Ha.
    destruct (IsTCommitted (i_is inst)) eqn:Hst; simpl; [|by wp_step]. apply bool_decide_eq_true in Hst.
    destruct (is_Command (i_is inst)) as [cmd|]; [|by wp_step]. wp_step.
    eapply (wp_mono _ (λ _ p', p_heap p' = p_heap p1)); [by wp_step; [wp_step|]|]. simpl. intros _ p2 Eh.
    wp_step. unfold set_tstatus, with_inst. wp_step. apply duo_wp_get_inst. rewrite Eh, Ha. intros ? [= <-].
    wp_step. apply wp_lift. intros inst' [= <-]. wp_step. wp_step. wp_step. wp_step. intros _. split; [done|].
    unfold left_of at 1. cbn. rewrite Eh. eapply left_of_taken; [exact Ha|exact Hst|]. by intros Hx.
  - apply Nat.lt_succ_r, length_filter.
Qed.
Lemma duo_exec_ends p : ends exec p.
Proof.
  change (ends (loop (S (length (p_heap p))) exec_body) p). apply (loop_ends (λ _, True) (left_of committed)); [|done|].
  - intros p1 _. unfold exec_body, Execute. split; [ends_steps|]. wp_step. wp_step.
    destruct (p_log p1 !! p_execute p1) as [a|]; [|by wp_step]. wp_step. apply duo_wp_get_inst. intros inst Ha.
    destruct (IsCommitted (i_is inst)) eqn:Hst; simpl; [|by wp_step]. apply bool_decide_eq_true in Hst.
    destruct (is_Command (i_is inst)) as [cmd|]; [|by wp_step]. wp_step.
    eapply (wp_mono _ (λ _ p', p_heap p' = p_heap p1)); [by wp_step; [wp_step|]|]. simpl. intros _ p2 Eh.
    wp_step. unfold set_status, with_inst. wp_step. apply duo_wp_get_inst. rewrite Eh, Ha. intros ? [= <-].
    wp_step. apply wp_lift. intros inst' [= <-]. wp_step. wp_step. wp_step. wp_step. intros _. split; [done|].
    unfold left_of at 1. cbn. rewrite Eh. eapply left_of_taken; [exact Ha|exact Hst|]. by intros Hx.
  - apply Nat.lt_succ_r, length_filter.
Qed.
#[local] Hint Resolve duo_texec_ends duo_exec_ends : go_ends.

Lemma log_opt_ends j m q : log_opt j m q ≠ Diverge.
Proof. unfold log_opt, Quorum_log. destruct q; [|done]. pose proof (@Quorum.log_ends NormalMessage). ends_steps; done. Qed.
#[local] Hint Resolve log_opt_ends : go_ends.
Lemma duo_log_tcCert_ends a j m p : ends (log_tcCert a j m) p.
Proof. apply duo_with_inst_ends. intros i. ends_steps. Qed.
Lemma duo_log_pcCert_ends a j m p : ends (log_pcCert a j m) p.
Proof. apply duo_with_inst_ends. intros i. ends_steps. Qed.
Lemma duo_log_cCert_ends a j m p : ends (log_cCert a j m) p.
Proof. apply duo_with_inst_ends. intros i. ends_steps. Qed.
#[local] Hint Resolve duo_log_tcCert_ends duo_log_pcCert_ends duo_log_cCert_ends : go_ends.
Lemma duo_updateCommand_ends m inst : updateCommand m inst ≠ Diverge.
Proof. unfold updateCommand. ends_steps. Qed.
Lemma duo_updateCommandHash_ends m inst : updateCommandHash m inst ≠ Diverge.
Proof. unfold updateCommandHash. ends_steps. Qed.
Lemma duo_checkCommandHash_ends cmd x : checkCommandHash cmd x ≠ Diverge.
Proof. unfold checkCommandHash. ends_steps. Qed.
Lemma duo_marshall_ends m p : ends (marshall m) p.
Proof. unfold marshall. ends_steps. Qed.
Lemma duo_broadcast_ends b self sign p : ends (broadcast b self sign) p.
Proof. unfold broadcast, enqueueForSending. ends_steps. Qed.
Lemma duo_new_inst_ends i inst p : ends (new_inst i inst) p.
Proof. unfold new_inst. ends_steps. Qed.
Lemma duo_isPrimary_ends j p : isCurrentPrimary j p ≠ Diverge.
Proof. unfold isCurrentPrimary, isPrimaryAtView. ends_steps. Qed.
#[local] Hint Resolve duo_updateCommand_ends duo_updateCommandHash_ends duo_checkCommandHash_ends duo_marshall_ends
  duo_broadcast_ends duo_new_inst_ends duo_isPrimary_ends : go_ends.
Lemma duo_fetch_ends checks m p : (∀ i, checks i ≠ Diverge) → ends (fetch_instance checks m) p.
Proof. intros Hc. unfold fetch_instance. pose proof duo_with_inst_ends. ends_steps; auto. Qed.

Lemma finish_job_ends_duo j r p : ends (finish_job j r) p.
Proof.
  unfold finish_job, onPrepare, onPreCommit, onCommit, maybeTCommit, maybePreCommit, maybeCommit.
  ends_steps; apply duo_fetch_ends; intros; ends_steps.
Qed.
Lemma duo_Step_ends msg p : ends (Step msg) p.
Proof. unfold Step, stepNormal. ends_steps. Qed.
Lemma duo_onRequest_ends cmd p : ends (onRequest cmd) p.
Proof. unfold onRequest. ends_steps. Qed.
(** A callback sends no callback. *)
Lemma finish_job_callbacks_duo j r p : keeps p_callbackC (finish_job j r) p.
Proof.
  unfold finish_job, onPrepare, onPreCommit, onCommit, maybeTCommit, maybePreCommit, maybeCommit, texec, exec,
    texec_body, exec_body, fetch_instance, log_tcCert, log_pcCert, log_cCert, set_status, set_tstatus, with_inst,
    get_inst, new_inst, marshall, broadcast, enqueueForSending, Execute. keeps_steps.
Qed.
Lemma duo_AsyncCallback_ends p : ends AsyncCallback p.
Proof.
  change (ends (loop (S (length (p_callbackC p))) AsyncCallback_body) p).
  apply (loop_ends (λ _, True) (λ p, length (p_callbackC p))); [|done|lia].
  pose proof finish_job_ends_duo. intros p1 _. split; unfold AsyncCallback_body.
  - ends_steps; done.
  - wp_step. wp_step. destruct (p_callbackC p1) as [|[j r] cbs] eqn:Hc; [by wp_step|].
    wp_step. wp_step. wp_step. destruct r as [r|]; [|done].
    eapply wp_mono; [apply finish_job_callbacks_duo|]. simpl. intros _ p2 E. wp_step. intros _.
    split; [done|]. rewrite E. simpl. lia.
Qed.
End ends.

Section duo_properties.
Context {U : Type} `{GoEnv, Codec Command, Codec DuoBFTMessage, Ecdsa, UsigSig U}.

(** Termination: from every state, every message, request and run of the
    callbacks ends. *)
Theorem duo_terminates msg cmd (p : duobft U) :
  Duobft.Step msg p ≠ Diverge ∧ Duobft.Request cmd p ≠ Diverge ∧ Duobft.AsyncCallback p ≠ Diverge.
Proof. split_and!; [apply duo_Step_ends|apply duo_onRequest_ends|apply duo_AsyncCallback_ends]. Qed.



(** The test of a commit vote's certificate is the wrong way round:
    [normalVerify] asks for an error.  What the signer signs is rejected, what is
    encoded as it should be and does not verify is accepted, and the signature
    that is asked about covers the first 32 bytes of the message only. *)
Theorem duo_commit_check_inverted `{!EcdsaLaws} msg sig rs :
  (Signer.Sign msg = Some sig → normalVerify msg sig = Ret false) ∧
  (asn1_Unmarshal sig = Some rs → ecdsa_Verify (Signer.digest msg) rs = false → normalVerify msg sig = Ret true) ∧
  (∀ msg', take 32 msg = take 32 msg' → 32 ≤ length msg → 32 ≤ length msg' → normalVerify msg sig = normalVerify msg' sig).
Proof.
  unfold normalVerify. split_and!.
  - intros Hs. by rewrite (Signer.Sign_verifies _ _ Hs).
  - intros Hu Hv. unfold Signer.Verify, Signer.SigCipher_Verify. by rewrite Hu, Hv.
  - intros msg' He Hl Hl'. by rewrite (Signer.Verify_prefix msg msg').
Qed.
End duo_properties.

(** ** Concrete runs *)
Module DuoDemo.
Import Toy.
#[export] Instance wire_NormalMessage : Wire NormalMessage :=
  wire_iso (λ m, (m_Type m, m_View m, m_Index m, m_Command m, m_CommandHash m))
    (λ '(t, v, i, c, h), mkNM t v i c h) ltac:(by intros []).
#[export] Instance wire_DuoBFTMessage : Wire DuoBFTMessage :=
  wire_iso (λ m, match m with DuoBFTMessage_Normal m => Some m | DuoBFTMessage_nil => None end)
    (λ o, match o with Some m => DuoBFTMessage_Normal m | None => DuoBFTMessage_nil end) ltac:(by intros []).
#[export] Instance DuoBFTMessage_codec : Codec DuoBFTMessage := wire_codec wire_DuoBFTMessage.
#[export] Instance DuoBFTMessage_laws : DuoCodecLaws.
Proof.
  split. intros m b Hb%(wire_codec_law wire_DuoBFTMessage). exists m. split; [exact Hb|]. by split_and!.
Qed.
(** A hash that does not start as the message does. *)
#[export] Instance env : GoEnv := {|
  sha256 b := xff :: digest 31 b;
  hmac_sha256 k b := digest 32 b;
  sha512 b := le_encode 64 (checksum b);
  Sprintf_q := String.string_of_list_byte;
|}.
#[export] Instance env_laws : GoEnvLaws.
Proof.
  split; simpl; intros; try (f_equal; apply length_digest); try apply length_digest; try reflexivity.
  intros a b Hab. apply (f_equal String.list_byte_of_string) in Hab.
  by rewrite !String.list_byte_of_string_of_list_byte in Hab.
Qed.
(** A signature is a checksum of the digest. *)
#[export] Instance ecdsa : Ecdsa := {|
  ecdsa_Sign d := Some (checksum (take 32 d), 0%Z);
  ecdsa_Verify d rs := bool_decide (rs = (checksum (take 32 d), 0%Z));
  asn1_Marshal rs := Some (put rs);
  asn1_Unmarshal b := match get_wire b with Some (rs, []) => Some rs | _ => None end;
  ecdsa_VerifyASN1 d sig := bool_decide (sig = d);
|}.
#[export] Instance ecdsa_laws : EcdsaLaws.
Proof.
  split.
  - intros d rs [= <-]. by apply bool_decide_eq_true.
  - intros rs b [= <-]. pose proof (wire_law rs []) as Hl. rewrite app_nil_r in Hl.
    change (match get_wire (put rs) with Some (rs, []) => Some rs | _ => None end = Some rs). by rewrite Hl.
  - intros d rs. simpl. by rewrite take_take.
Qed.
#[export] Instance usig : UsigSig Z := {|
  CreateUISig d u := ((u + 1, sha256 (d ++ LittleEndian_PutUint64 (u + 1))), u + 1)%Z;
|}.
#[export] Instance usig_laws : UsigSigLaws Z.
Proof.
  refine {| uisig_counter u := u |}; [done..|]. intros d u. unfold Signer.VerifyUISig. simpl.
  by apply bool_decide_eq_true.
Defined.

Definition start (j : Z) : duobft Z :=
  mkDuobft j (seqZ 0 4) 1 [zero_instance] {[0%Z := 0]} 1 1 0 [] [] 0%Z 0 0 (Worker.NewDispatcher 1)
    (Worker.NewDispatcher 1) ∅ [].

(** A message with the certificate its sender makes, its verification and its callback. *)
Definition bytes_of (m : NormalMessage) : list Byte.byte := default [] (Marshal (DuoBFTMessage_Normal m)).
Definition cert_of (ctr : Z) (m : NormalMessage) : list Byte.byte :=
  if bool_decide (m_Type m < NormalMessage_Commit)%Z then (usigSign (bytes_of m) (ctr - 1)%Z).1
  else default [] (normalSign (bytes_of m)).
Definition work1 : list (act pool_event) :=
  ((λ e, Other (Pool1 e)) <$> [Worker.Register 0; Worker.Take; Worker.Assign; Worker.Done 0]) ++ [Do Call_AsyncCallback].
Definition recv (from ctr : Z) (m : NormalMessage) : list (act pool_event) :=
  Do (Call_Step (mkMessage from 0 (bytes_of m) (cert_of ctr m))) :: work1.
(** The other pool signs a vote, and its callback. *)
Definition work2 : list (act pool_event) :=
  (Other <$> [Pool2 (Worker.Register 0); Pool2 Worker.Take; Pool2 Worker.Assign; SignStep 0; Pool2 (Worker.Done 0)]) ++
  [Do Call_AsyncCallback].

Definition hash_of (c : Command) : slice := (λ b, sha256 b) <$> Marshal c.
(** The proposal of [c] at [i] by the primary, with the vote of the replica; the
    votes of others, in the two phases of the slow rule. *)
Definition propose (i ctr : Z) (c : Command) : list (act pool_event) :=
  recv 0 ctr (mkNM NormalMessage_Prepare 0 i (Some c) (hash_of c)) ++ work2.
Definition decide_slowly (i ctr : Z) (c : Command) : list (act pool_event) :=
  recv 3 ctr (mkNM NormalMessage_PreCommit 0 i None (hash_of c)) ++ work1 ++
  recv 0 0 (mkNM NormalMessage_Commit 0 i None (hash_of c)) ++
  recv 3 0 (mkNM NormalMessage_Commit 0 i None (hash_of c)).
Definition run_of (cap : nat) (acts : list (act pool_event)) (j : Z) : duobft Z :=
  do_acts (worker_step cap) acts (start j).
Lemma steps_pools cap e (p p' : duobft Z) : worker_step cap e p = Some p' → pools_step cap p p'.
Proof. by exists e. Qed.
Lemma run_of_run cap acts j : runs (pools_step cap) [] (start j) [] (run_of cap acts j).
Proof. apply acts_runs, steps_pools. Qed.

(** A write of [v] under one key. *)
Definition write (t : Z) (m : slice) (v : Byte.byte) : Command :=
  mkCommand t [mkOperation (Some (Operation_KVOp (Some (mkKVOp (Some [x61]) (Some [v]) false))))] 0 m (Some [x61]) None.
Definition slow : Command := write 1 None x01.
Definition fast : Command := write 2 (Some []) x02.
Definition executed (p : duobft Z) : list Command := x_Cmd <$> p_executedCmds p.
Definition stored (cs : list Command) : outcome (option slice) :=
  '(_, kv) ← Applier.executeAll cs ∅; Ret (kv !! Applier.Key_String (Some [x61])).
End DuoDemo.

Section duo_faults.
Import Toy DuoDemo.

(** The two rules share one store and no order: with no faulty replica and
    the votes arriving in different orders, one replica executes the fast command
    of index 2 before the slow one of index 1, another after it, and their stores
    differ. *)
Theorem duo_rules_reorder cap :
  0 < cap →
  let p1 := run_of cap (propose 1 1 slow ++ propose 2 2 fast ++ decide_slowly 1 1 slow) 1 in
  let p2 := run_of cap (propose 1 1 slow ++ decide_slowly 1 1 slow ++ propose 2 2 fast) 2 in
  runs (pools_step cap) [] (start 1) [] p1 ∧ runs (pools_step cap) [] (start 2) [] p2 ∧
  executed p1 = [fast; slow] ∧ executed p2 = [slow; fast] ∧
  stored (executed p1) = Ret (Some (Some [x01])) ∧ stored (executed p2) = Ret (Some (Some [x02])).
Proof.
  intros Hc p1 p2. split; [apply run_of_run|]. split; [apply run_of_run|].
  destruct cap as [|cap]; [lia|]. split_and!; vm_compute; reflexivity.
Qed.

(** C40. The fast rule does not agree under a faulty primary: nobody looks at the
    values of the trusted counter.  With its one enclave the primary signs two
    proposals for index 1, each of two correct replicas of four gets one of them,
    and with its own vote each has the [f + 1] that the rule asks for. *)
Theorem duo_fast_equivocation cap :
  0 < cap →
  let proposal c := mkNM NormalMessage_Prepare 0 1 (Some c) (hash_of c) in
  let other := write 3 (Some []) x02 in
  let p1 := run_of cap (propose 1 1 fast) 1 in
  let p2 := run_of cap (propose 1 2 other) 2 in
  (∃ u, usigSign (bytes_of (proposal fast)) 0%Z = (cert_of 1 (proposal fast), u) ∧
    (usigSign (bytes_of (proposal other)) u).1 = cert_of 2 (proposal other)) ∧
  runs (pools_step cap) [] (start 1) [] p1 ∧ runs (pools_step cap) [] (start 2) [] p2 ∧
  executed p1 = [fast] ∧ executed p2 = [other] ∧ fast ≠ other.
Proof.
  intros Hc proposal other p1 p2. split; [by exists 1%Z|]. split; [apply run_of_run|]. split; [apply run_of_run|].
  destruct cap as [|cap]; [lia|]. split_and!; [vm_compute; reflexivity..|done].
Qed.

Lemma duo_rules_reorder_witness :
  executed (run_of 9 (propose 1 1 slow ++ propose 2 2 fast ++ decide_slowly 1 1 slow) 1) = [fast; slow].
Proof. apply (duo_rules_reorder 9). lia. Defined.
Lemma duo_fast_equivocation_witness : executed (run_of 9 (propose 1 1 fast) 1) = [fast].
Proof. apply (duo_fast_equivocation 9). lia. Defined.

Definition voter : list (act pool_event) :=
  propose 1 1 slow ++ recv 2 1 (mkNM NormalMessage_PreCommit 0 1 None (hash_of slow)) ++ work1.
Definition acts (j : Z) : list (act pool_event) :=
  if decide (j = 3%Z) then voter else propose 1 1 slow ++ decide_slowly 1 1 slow.

Lemma duo_commit_check_inverted_witness : normalVerify [x01] (default [] (normalSign [x01])) = Ret false.
Proof. apply (duo_commit_check_inverted [x01] (default [] (normalSign [x01])) (0%Z, 0%Z)). reflexivity. Defined.
End duo_faults.
