(* ===== verification/GoSort.v ===== *)
(** * Go's package sort

    [sort.Search] is a binary search, written out.  [sort.Slice] is documented
    to sort and not to be stable: the order that it leaves equal elements in, and
    what it does under a comparison that is no strict weak order, are not
    specified, and so it is a parameter ([GoSort]). *)
From S2P Require Import Prelude.
From Stdlib Require Import Sorting.Sorted.

(** ** [sort.Search]: the bounds meet within as many rounds as they are apart *)
Fixpoint search_between (fuel i j : nat) (f : nat → bool) : nat :=
  match fuel with
  | O => i
  | S fuel =>
      if decide (i < j) then
        let h := (i + j) `div` 2 in
        if negb (f h) then search_between fuel (S h) j f else search_between fuel i h f
      else i
  end.
Definition sort_Search (n : nat) (f : nat → bool) : nat := search_between n 0 n f.
(** [sort.Search(len(l), func(i int) bool { return f(l[i]) })] *)
Definition search_list {A} (f : A → bool) (l : list A) : nat :=
  sort_Search (length l) (λ i, match l !! i with Some x => f x | None => false end).

Section search.
Context (f : nat → bool) (n : nat).

(** What is left of [i] and what [j] is at are known. *)
Lemma search_between_spec fuel i j :
  i ≤ j ≤ n → j - i ≤ fuel → (0 < i → f (i - 1) = false) → (j < n → f j = true) →
  let k := search_between fuel i j f in
  k ≤ n ∧ (0 < k → f (k - 1) = false) ∧ (k < n → f k = true).
Proof.
  revert i j. induction fuel as [|fuel IH]; intros i j Hij Hfuel Hi Hj; cbn [search_between].
  { assert (i = j) as -> by lia. split_and!; [lia|done..]. }
  case_decide as Hlt; [|assert (i = j) as -> by lia; split_and!; [lia|done..]].
  assert (i <= (i + j) `div` 2 < j) as Hh.
  { split; [apply Nat.div_le_lower_bound; lia|apply Nat.Div0.div_lt_upper_bound; lia]. }
  cbv zeta. set (h := (i + j) `div` 2) in *. clearbody h. destruct (f h) eqn:Hf; cbn [negb].
  - apply IH; [lia|lia|done|done].
  - apply IH; [lia|lia| |done]. intros _. by replace (S h - 1) with h by lia.
Qed.
Lemma sort_Search_spec :
  let k := sort_Search n f in k ≤ n ∧ (0 < k → f (k - 1) = false) ∧ (k < n → f k = true).
Proof. apply search_between_spec; lia. Qed.

(** The first index at which a monotone [f] holds. *)
Lemma sort_Search_first i :
  (∀ i j, i ≤ j → j < n → f i = true → f j = true) → i < n →
  f i = bool_decide (sort_Search n f ≤ i).
Proof.
  intros Hm Hi. destruct sort_Search_spec as (Hn & Hlo & Hhi). case_bool_decide as Hk.
  - apply (Hm (sort_Search n f)); [done|done|apply Hhi; lia].
  - destruct (f i) eqn:Hf; [|done]. exfalso.
    assert (f (sort_Search n f - 1) = true) as Ht; [|rewrite Hlo in Ht; [done|lia]].
    apply (Hm i); [lia|lia|done].
Qed.
End search.

Lemma search_list_le {A} (f : A → bool) l : search_list f l ≤ length l.
Proof. apply sort_Search_spec. Qed.
Lemma search_list_found {A} (f : A → bool) l :
  search_list f l < length l → ∃ x, l !! search_list f l = Some x ∧ f x = true.
Proof.
  intros Hlt. pose proof Hlt as [x Hx]%lookup_lt_is_Some_2. exists x. split; [done|].
  pose proof (proj2 (proj2 (sort_Search_spec (λ i, match l !! i with Some x => f x | None => false end) (length l))) Hlt) as Hf.
  unfold search_list in Hx. simpl in Hf. by rewrite Hx in Hf.
Qed.
(** In a list where [f] stays true, the search finds its first element with [f]. *)
Lemma search_list_first {A} (f : A → bool) l i x :
  (∀ i j x y, i ≤ j → l !! i = Some x → l !! j = Some y → f x = true → f y = true) →
  l !! i = Some x → f x = bool_decide (search_list f l ≤ i).
Proof.
  intros Hm Hi. pose proof (lookup_lt_Some _ _ _ Hi) as Hlt. unfold search_list.
  rewrite <-(sort_Search_first _ _ i), Hi; [done| |done]. intros j k Hjk Hk.
  apply lookup_lt_is_Some_2 in Hk as [y Hy]. rewrite Hy.
  destruct (l !! j) as [z|] eqn:Hz; [|done]. by eapply Hm.
Qed.

(** ** [sort.Slice] *)
Record strict_weak {A} (less : A → A → bool) : Prop := {
  sw_irrefl x : less x x = false;
  sw_trans x y z : less x y = true → less y z = true → less x z = true;
  sw_incomparable x y z : less x y = false → less y z = false → less x z = false;
}.
(** No element is less than one before it. *)
Definition sorted_by {A} (less : A → A → bool) (l : list A) : Prop :=
  StronglySorted (λ x y, less y x = false) l.

Class GoSort := {
  sort_Slice {A} : (A → A → bool) → list A → list A;
  sort_Slice_perm A (less : A → A → bool) l : sort_Slice less l ≡ₚ l;
  sort_Slice_sorted A (less : A → A → bool) l : strict_weak less → sorted_by less (sort_Slice less l);
}.

(** Comparing a number of the elements. *)
Lemma strict_weak_by {A} (key : A → Z) : strict_weak (λ x y, bool_decide (key x < key y)%Z).
Proof. split; intros *; rewrite ?bool_decide_eq_true, ?bool_decide_eq_false; lia. Qed.
Lemma sorted_by_key {A} (key : A → Z) l i j x y :
  sorted_by (λ x y, bool_decide (key x < key y)%Z) l → i ≤ j → l !! i = Some x → l !! j = Some y →
  (key x ≤ key y)%Z.
Proof.
  intros Hs. revert i j. induction Hs as [|z l Hs IH Hz]; intros i j Hij Hx Hy; [done|].
  destruct i as [|i], j as [|j]; simplify_eq/=; try lia; [|eapply IH; [|done..]; lia].
  apply list_elem_of_lookup_2 in Hy. rewrite List.Forall_forall in Hz.
  specialize (Hz y). rewrite <-list_elem_of_In, bool_decide_eq_false in Hz. specialize (Hz Hy). lia.
Qed.

(** ** A sort: insertion *)
Section insertion.
Context {A : Type} (less : A → A → bool).
Fixpoint insert_sorted (x : A) (l : list A) : list A :=
  match l with
  | [] => [x]
  | y :: l => if less y x then y :: insert_sorted x l else x :: y :: l
  end.
Definition insertion_sort (l : list A) : list A := foldr insert_sorted [] l.

Lemma insert_sorted_perm x l : insert_sorted x l ≡ₚ x :: l.
Proof.
  induction l as [|y l IH]; simpl; [done|]. destruct (less y x); [|done].
  rewrite IH. apply Permutation_swap.
Qed.
Lemma insertion_sort_perm l : insertion_sort l ≡ₚ l.
Proof. induction l as [|x l IH]; simpl; [done|]. by rewrite insert_sorted_perm, IH. Qed.
Lemma insert_sorted_sorted x l : strict_weak less → sorted_by less l → sorted_by less (insert_sorted x l).
Proof.
  intros Hw. induction 1 as [|y l Hs IH Hy]; simpl; [by repeat constructor|].
  destruct (less y x) eqn:Hyx.
  - constructor; [done|]. rewrite List.Forall_forall in Hy |- *. intros z Hz%list_elem_of_In.
    rewrite insert_sorted_perm in Hz. apply elem_of_cons in Hz as [->|Hz%list_elem_of_In]; [|by apply Hy].
    destruct (less x y) eqn:Hxy; [|done]. pose proof (sw_trans _ Hw _ _ _ Hxy Hyx). by rewrite (sw_irrefl _ Hw) in *.
  - constructor; [by constructor|]. constructor; [done|]. rewrite List.Forall_forall in Hy |- *.
    intros z Hz. apply (sw_incomparable _ Hw _ y); [by apply Hy|done].
Qed.
Lemma insertion_sort_sorted l : strict_weak less → sorted_by less (insertion_sort l).
Proof. intros Hw. induction l; simpl; [constructor|]. by apply insert_sorted_sorted. Qed.
End insertion.
Definition insertion_GoSort : GoSort := {|
  sort_Slice _ := insertion_sort;
  sort_Slice_perm _ := insertion_sort_perm;
  sort_Slice_sorted _ := insertion_sort_sorted;
|}.
