(* ===== verification/Trinx.v ===== *)
(** * The TrInX enclave (src/enclaves/trinx/trinx.go)

    The Go half of the enclave that Hybster counts with: the buffers it hands to
    the native code and the errors it turns into panics.  The native code
    (enclave_trinx, a submodule) is the class [Trinx]. *)
From S2P Require Import Prelude.

(** [None]: an error code.  The counters are the state; verification depends on
    the key only, which the replicas share. *)
Class Trinx (U : Type) := {
  trinx_create_independent_counter_certificate (ctrId tc : Z) (msg : bytes) : U → option (bytes * U);
  trinx_create_independent_counter_certificate_vector (ctrId tc : Z) (msg : bytes) (len : nat) : U → option (bytes * U);
  trinx_create_continuing_counter_certificate (ctrId tc : Z) (msg : bytes) : U → option (bytes * U);
  trinx_verify_independent_counter_certificate (ctrId tc : Z) (msg mac : bytes) : option bool;
  trinx_verify_continuing_counter_certificate (ctrId oldtc newtc : Z) (msg mac : bytes) : option bool;
}.

Module TrInx.
Record TrInxEnclave {U : Type} := mkEnclave { e_vecLen : nat; e_ctrs : U }.
Arguments TrInxEnclave : clear implicits.

Section trinx.
Context {U : Type} `{Trinx U}.

(** A buffer of [n] zero bytes that the native code has written [b] into. *)
Definition fill (n : nat) (b : bytes) : bytes := take n (b ++ replicate n Byte.x00).
Lemma length_fill n b : length (fill n b) = n.
Proof. unfold fill. rewrite length_take, length_app, length_replicate. lia. Qed.

(** What a creating function returns: the filled buffer. *)
Definition created (n : nat) (why : string) (msg : bytes) (r : option (bytes * U)) (e : TrInxEnclave U)
    : outcome (bytes * TrInxEnclave U) :=
  if decide (msg = [] ∨ n = 0) then Panic "index out of range" else
  match r with
  | None => Panic why
  | Some (mac, u) => Ret (fill n mac, mkEnclave _ (e_vecLen e) u)
  end.
Definition CreateIndependentCounterCertificate (msg : bytes) (tc ctrId : Z) (e : TrInxEnclave U)
    : outcome (bytes * TrInxEnclave U) :=
  created 32 "Unable to create independent counter certificate" msg
    (trinx_create_independent_counter_certificate ctrId tc msg (e_ctrs e)) e.
Definition CreateIndependentCounterCertificateVector (msg : bytes) (tc ctrId : Z) (e : TrInxEnclave U)
    : outcome (bytes * TrInxEnclave U) :=
  let n := 32 * e_vecLen e in
  created n "Unable to create independent counter certificate" msg
    (trinx_create_independent_counter_certificate_vector ctrId tc msg n (e_ctrs e)) e.
Definition CreateContinuingCounterCertificate (msg : bytes) (tc ctrId : Z) (e : TrInxEnclave U)
    : outcome (bytes * TrInxEnclave U) :=
  created 32 "Unable to create continuing counter certificate" msg
    (trinx_create_continuing_counter_certificate ctrId tc msg (e_ctrs e)) e.

Definition VerifyIndependentCounterCertificate (msg mac : bytes) (tc ctrId : Z) : outcome bool :=
  if decide (length mac ≠ 32) then Panic "invalid certificate length" else
  if decide (msg = []) then Panic "index out of range" else
  match trinx_verify_independent_counter_certificate ctrId tc msg mac with
  | None => Panic "Unable to verify independent counter certificate"
  | Some identical => Ret identical
  end.
Definition VerifyContinuingCounterCertificate (msg mac : bytes) (oldCtr newCtr ctrId : Z) : outcome bool :=
  if decide (msg = [] ∨ mac = []) then Panic "index out of range" else
  match trinx_verify_continuing_counter_certificate ctrId oldCtr newCtr msg mac with
  | None => Panic "Unable to verify continuing counter certificate"
  | Some identical => Ret identical
  end.

Lemma created_ends n why msg r e : created n why msg r e ≠ Diverge.
Proof. unfold created. case_decide; [done|]. by destruct r as [[]|]. Qed.
Lemma create_independent_ends msg tc i e : CreateIndependentCounterCertificate msg tc i e ≠ Diverge.
Proof. apply created_ends. Qed.
Lemma create_vector_ends msg tc i e : CreateIndependentCounterCertificateVector msg tc i e ≠ Diverge.
Proof. apply created_ends. Qed.
Lemma create_continuing_ends msg tc i e : CreateContinuingCounterCertificate msg tc i e ≠ Diverge.
Proof. apply created_ends. Qed.
Lemma verify_independent_ends msg mac tc i : VerifyIndependentCounterCertificate msg mac tc i ≠ Diverge.
Proof. unfold VerifyIndependentCounterCertificate. by repeat case_match. Qed.
Lemma verify_continuing_ends msg mac o n i : VerifyContinuingCounterCertificate msg mac o n i ≠ Diverge.
Proof. unfold VerifyContinuingCounterCertificate. by repeat case_match. Qed.
End trinx.
#[export] Hint Resolve created_ends create_independent_ends create_vector_ends create_continuing_ends
  verify_independent_ends verify_continuing_ends : go_ends.
End TrInx.
