(* ===== verification/Hybster.v ===== *)
(** * Hybster (src/protocols/hybster)

    The two-phase protocol over the counters of the TrInX enclave, with its view
    change.  One Rocq definition per Go function, in the state-and-panic monad
    [M hybster].

    The log holds pointers that no closure keeps, so that an instance is the key
    it is filed under.  [omsgs] holds pointers to messages that [onPrepare]
    clears the command of: [onPrepare] returns the message as it leaves it, and
    its callers put it back. *)
From S2P Require Import Prelude Command Worker Peer GoSort Trinx.
From S2P Require Quorum.
Import Worker (Dispatcher, NewDispatcher).

Module Hybster.
Import TrInx.

(** ** Data (hybsterpb) *)
Definition NormalMessage_Prepare : Z := 0.
Definition NormalMessage_Commit : Z := 1.

Record NormalMessage := mkNM {
  m_Type : Z;
  m_View : Z;
  m_Order : Z;
  m_Command : option Command;
  m_CommandHash : slice;
}.
Record Support := mkSupport {
  su_RawMsg : bytes;
  su_Cert : bytes;
  su_From : Z;
}.
Record ViewChangeMessage := mkVC {
  vc_FromView : Z;
  vc_ToView : Z;
  vc_Order : Z;
  vc_History : list Support;
  vc_LastCtr : Z;
}.
Record NewViewMessage := mkNV {
  nv_FromView : Z;
  nv_ToView : Z;
  nv_Order : Z;
  nv_History : list Support;
  nv_Proof : list Support;
}.
Record NewViewAckMessage := mkNVA {
  nva_View : Z;
  nva_Order : Z;
  nva_History : list Support;
}.
Inductive HybsterMessage :=
| HybsterMessage_Normal (m : NormalMessage)
| HybsterMessage_ViewChange (m : ViewChangeMessage)
| HybsterMessage_NewView (m : NewViewMessage)
| HybsterMessage_NewViewAck (m : NewViewAckMessage)
| HybsterMessage_nil.

#[export] Instance NM_eta : Eta NormalMessage := λ m,
  mkNM (m_Type m) (m_View m) (m_Order m) (m_Command m) (m_CommandHash m).
#[export] Instance set_m_View : Setter m_View := ltac:(solve_setter).
#[export] Instance set_m_Command : Setter m_Command := ltac:(solve_setter).

Definition NormalMessage_Equals (m other : NormalMessage) : bool :=
  if bool_decide (m_View m ≠ m_View other) then false
  else if bool_decide (m_Order m ≠ m_Order other) then false
  else bytes_Equal (m_CommandHash m) (m_CommandHash other).
Definition GetNormal (m : HybsterMessage) : option NormalMessage :=
  match m with HybsterMessage_Normal m => Some m | _ => None end.
Definition GetViewChange (m : HybsterMessage) : option ViewChangeMessage :=
  match m with HybsterMessage_ViewChange m => Some m | _ => None end.

(** ** Quorums (quorum.go) *)
#[export] Instance NM_QMsg : Quorum.QMsg NormalMessage :=
  {| Quorum.q_view := m_View; Quorum.q_Equals := NormalMessage_Equals |}.
Abbreviation Quorum := (Quorum.Quorum NormalMessage).
Definition newQuorum : Quorum := Quorum.newQuorum.
Definition Quorum_log (id : Z) (m : NormalMessage) (q : Quorum) : outcome Quorum :=
  Quorum.log true id m q.
Definition Quorum_Reset (q : Quorum) : Quorum := Quorum.mkQuorum (Quorum.maxView q) ∅.
Definition Quorum_Majority (f : Z) (m : NormalMessage) (q : Quorum) : bool :=
  Quorum.Majority f m q.

(** ** The replica *)
Record instance := mkInstance {
  i_slot : Z;
  i_view : Z;
  i_command : option Command;
  i_commandHash : slice;
  i_prepared : bool;
  i_commit : bool;
  i_executed : bool;
  i_quorum : option Quorum;   (* nil in the instance of slot 0 *)
}.
#[export] Instance instance_eta : Eta instance := λ i,
  mkInstance (i_slot i) (i_view i) (i_command i) (i_commandHash i) (i_prepared i) (i_commit i)
    (i_executed i) (i_quorum i).
#[export] Instance set_i_view : Setter i_view := ltac:(solve_setter).
#[export] Instance set_i_command : Setter i_command := ltac:(solve_setter).
#[export] Instance set_i_commandHash : Setter i_commandHash := ltac:(solve_setter).
#[export] Instance set_i_prepared : Setter i_prepared := ltac:(solve_setter).
#[export] Instance set_i_commit : Setter i_commit := ltac:(solve_setter).
#[export] Instance set_i_executed : Setter i_executed := ltac:(solve_setter).
#[export] Instance set_i_quorum : Setter i_quorum := ltac:(solve_setter).
(** [&instance{}] *)
Definition zero_instance : instance := mkInstance 0 0 None None false false false None.

Record prPkg := mkPr { pk_pr : NormalMessage; pk_content : bytes; pk_cert : bytes; pk_from : Z }.
#[export] Instance prPkg_eta : Eta prPkg := λ k, mkPr (pk_pr k) (pk_content k) (pk_cert k) (pk_from k).
#[export] Instance set_pk_pr : Setter pk_pr := ltac:(solve_setter).
(** [vc] is nil where the support of a new view is another message. *)
Record vcPkg := mkVcp { vk_vc : option ViewChangeMessage; vk_content : bytes; vk_cert : bytes; vk_from : Z }.
Record nvPkg := mkNvp { nk_nv : NewViewMessage; nk_content : bytes; nk_cert : bytes }.
Record nvaPkg := mkNvap { ak_nva : NewViewAckMessage; ak_content : bytes; ak_cert : bytes; ak_from : Z }.

(** The closure of [broadcastNormal]. *)
Record job := SignJob { j_m : NormalMessage; j_mBytes : bytes; j_counter : Z }.

Record Config := mkConfig {
  cfg_ID : Z;
  cfg_Peers : list Z;
  cfg_LeaderID : Z;
  cfg_MaxFailures : Z;
  cfg_SecretKeys : list bytes;
  cfg_WorkersQueueSizes : gmap string nat;
}.

(** [uint64(view<<48) | uint64(order)] *)
Definition counter_of (view order : Z) : Z := Z.lor (u64 (Z.shiftl view 48)) order.

Section hybster.
Context {U : Type} `{GoEnv, GoSort, Codec Command, Codec HybsterMessage, Trinx U}.

Record hybster := mkHybster {
  p_id : Z;
  p_nodes : list Z;
  p_f : Z;
  p_log : gmap Z instance;
  p_execute : Z;
  p_slot : Z;
  p_msgs : list Message;
  p_executedCmds : list ExecPacket;
  p_certifier : TrInxEnclave U;
  p_omsgs : list prPkg;
  p_vmsgs : list vcPkg;
  p_nvmsgs : list NewViewMessage;
  p_nvamsgs : list nvaPkg;
  p_stableView : Z;
  p_curView : Z;
  p_signDispatcher : Dispatcher job;
  p_signed : gmap nat bytes;   (* what the workers have signed *)
  p_callbackC : list (job * bytes);
}.
#[export] Instance hybster_eta : Eta hybster := λ p,
  mkHybster (p_id p) (p_nodes p) (p_f p) (p_log p) (p_execute p) (p_slot p) (p_msgs p) (p_executedCmds p)
    (p_certifier p) (p_omsgs p) (p_vmsgs p) (p_nvmsgs p) (p_nvamsgs p) (p_stableView p) (p_curView p)
    (p_signDispatcher p) (p_signed p) (p_callbackC p).
#[export] Instance set_p_log : Setter p_log := ltac:(solve_setter).
#[export] Instance set_p_execute : Setter p_execute := ltac:(solve_setter).
#[export] Instance set_p_slot : Setter p_slot := ltac:(solve_setter).
#[export] Instance set_p_msgs : Setter p_msgs := ltac:(solve_setter).
#[export] Instance set_p_executedCmds : Setter p_executedCmds := ltac:(solve_setter).
#[export] Instance set_p_certifier : Setter p_certifier := ltac:(solve_setter).
#[export] Instance set_p_omsgs : Setter p_omsgs := ltac:(solve_setter).
#[export] Instance set_p_vmsgs : Setter p_vmsgs := ltac:(solve_setter).
#[export] Instance set_p_nvmsgs : Setter p_nvmsgs := ltac:(solve_setter).
#[export] Instance set_p_nvamsgs : Setter p_nvamsgs := ltac:(solve_setter).
#[export] Instance set_p_stableView : Setter p_stableView := ltac:(solve_setter).
#[export] Instance set_p_curView : Setter p_curView := ltac:(solve_setter).
#[export] Instance set_p_signDispatcher : Setter p_signDispatcher := ltac:(solve_setter).
#[export] Instance set_p_signed : Setter p_signed := ltac:(solve_setter).
#[export] Instance set_p_callbackC : Setter p_callbackC := ltac:(solve_setter).

(** [NewHybster]; [u] is what the initialised enclave counts with. *)
Definition NewHybster (c : Config) (u : U) : outcome hybster :=
  match cfg_SecretKeys c with
  | [] | [] :: _ => Panic "index out of range"
  | _ =>
      Ret (mkHybster (cfg_ID c) (cfg_Peers c) (cfg_MaxFailures c) {[0%Z := zero_instance]} 1 0 [] []
        (mkEnclave U (length (cfg_Peers c)) u) [] [] [] [] (cfg_LeaderID c) (cfg_LeaderID c)
        (NewDispatcher 1) ∅ [])
  end.

(** *** Messaging (messaging.go) *)
Definition with_certifier {A} (op : TrInxEnclave U → outcome (A * TrInxEnclave U)) : M hybster A :=
  p ← get;
  '(a, e) ← lift (op (p_certifier p));
  modify (λ p, p <| p_certifier := e |>);;
  mret a.

Definition wrapAndMarshal (m : HybsterMessage) : M hybster bytes :=
  match Marshal m with
  | None => panic "unable to marshal"
  | Some mBytes => mret mBytes
  end.
Definition marshalAndSignNormal (m : NormalMessage) : M hybster (bytes * bytes) :=
  mBytes ← wrapAndMarshal (HybsterMessage_Normal m);
  cert ← with_certifier (CreateIndependentCounterCertificateVector mBytes (counter_of (m_View m) (m_Order m)) 0);
  cert ← lift (sub_slice cert 0 32);
  mret (mBytes, cert).
Definition sendTo (to : Z) (mm cert : bytes) : M hybster unit :=
  modify (λ p, p <| p_msgs ::= λ l, l ++ [mkMessage (p_id p) to mm cert] |>).
Definition broadcast (mBytes cert : bytes) : M hybster unit :=
  p ← get;
  for_each (p_nodes p) (λ node, when (bool_decide (node ≠ p_id p)) (sendTo node mBytes cert)).

Definition broadcastNormal (m : NormalMessage) : M hybster unit :=
  mBytes ← wrapAndMarshal (HybsterMessage_Normal m);
  modify (λ p, p <| p_signDispatcher ::= Worker.Exec (SignJob m mBytes (counter_of (m_View m) (m_Order m))) |>).
(** Its callback: every replica gets its own part of the vector. *)
Definition send_signed (j : job) (cert : bytes) : M hybster unit :=
  p ← get;
  when (bool_decide (m_Type (j_m j) = NormalMessage_Prepare))
    (own ← lift (sub_slice cert 0 32);
     modify (λ p, p <| p_omsgs ::= λ l, l ++ [mkPr (j_m j) (j_mBytes j) own (p_id p)] |>));;
  for_each (p_nodes p) (λ node,
    when (bool_decide (node ≠ p_id p))
      (let idx := u64 (node * 32) in
       part ← lift (sub_slice cert idx (u64 (idx + 32)));
       sendTo node (j_mBytes j) part)).

Definition broadcastVC (m : ViewChangeMessage) : M hybster unit :=
  mBytes ← wrapAndMarshal (HybsterMessage_ViewChange m);
  cert ← with_certifier (CreateContinuingCounterCertificate mBytes (u64 (Z.shiftl (vc_ToView m) 48)) 0);
  modify (λ p, p <| p_vmsgs ::= λ l, l ++ [mkVcp (Some m) mBytes cert (p_id p)] |>);;
  broadcast mBytes cert.
Definition broadcastNV (m : NewViewMessage) : M hybster unit :=
  mBytes ← wrapAndMarshal (HybsterMessage_NewView m);
  cert ← with_certifier (CreateIndependentCounterCertificate mBytes (u64 (Z.shiftl (nv_ToView m) 48)) 1);
  modify (λ p, p <| p_nvmsgs ::= λ l, l ++ [m] |>);;
  broadcast mBytes cert.
(** The certificate is for the hash of the message. *)
Definition broadcastNVA (m : NewViewAckMessage) : M hybster unit :=
  mBytes ← wrapAndMarshal (HybsterMessage_NewViewAck m);
  cert ← with_certifier (CreateContinuingCounterCertificate (sha256 mBytes) 0 2);
  modify (λ p, p <| p_nvamsgs ::= λ l, l ++ [mkNvap m mBytes cert (p_id p)] |>);;
  broadcast mBytes cert.

(** *** Agreement (instance.go) *)
Definition makeInstance (m : NormalMessage) : instance :=
  mkInstance (m_Order m) (m_View m) (m_Command m) (m_CommandHash m) false false false (Some newQuorum).

(** [inst.reset()] *)
Definition reset (inst : instance) : outcome instance :=
  match i_quorum inst with
  | None => Panic "nil Quorum"
  | Some q =>
      Ret (inst <| i_quorum := Some (Quorum_Reset q) |> <| i_prepared := false |> <| i_commit := false |>
        <| i_executed := false |>)
  end.

Definition with_inst (slot : Z) (g : instance → outcome instance) : M hybster unit :=
  p ← get;
  match p_log p !! slot with
  | None => panic "nil instance"
  | Some inst => inst' ← lift (g inst); modify (λ p, p <| p_log ::= <[slot := inst']> |>)
  end.
Definition get_inst (slot : Z) : M hybster instance :=
  p ← get; match p_log p !! slot with None => panic "nil instance" | Some i => mret i end.

Definition updateCommand (m : NormalMessage) (inst : instance) : outcome instance :=
  match i_command inst with
  | Some c =>
      e ← Command_Equal c (m_Command m);
      if negb e then Panic "Different commands for same instance" else Ret inst
  | None => Ret (inst <| i_command := m_Command m |>)
  end.
Definition updateCommandHash (m : NormalMessage) (inst : instance) : outcome instance :=
  match i_commandHash inst with
  | Some _ =>
      if negb (bytes_Equal (i_commandHash inst) (m_CommandHash m))
      then Panic "Different command hashes for same instance" else Ret inst
  | None => Ret (inst <| i_commandHash := m_CommandHash m |>)
  end.
Definition checkCommandHash (cmd : option Command) (hash : slice)
    : outcome (bool * option Command) :=
  '(compHash, cmd) ← Command_Hash_ptr cmd;
  Ret (bytes_Equal hash compHash, cmd).

(** [inst.quorum.log(id, m)] *)
Definition log_vote (id : Z) (m : NormalMessage) (inst : instance) : outcome instance :=
  match i_quorum inst with
  | None => Panic "nil Quorum"
  | Some q => q ← Quorum_log id m q; Ret (inst <| i_quorum := Some q |>)
  end.
(** Go would dereference a nil quorum here, but [log] has done so before. *)
Definition inst_Majority (f : Z) (m : NormalMessage) (inst : instance) : bool :=
  match i_quorum inst with Some q => Quorum_Majority f m q | None => false end.

Definition Execute (cmd : Command) : M hybster unit :=
  modify (λ p, p <| p_executedCmds ::= λ l, l ++ [exec_pkt cmd] |>).
Definition exec_body : M hybster bool :=
  p ← get;
  match p_log p !! p_execute p with
  | None => mret false
  | Some e =>
      if negb (i_commit e) then mret false else
      match i_command e with
      | None => mret false
      | Some cmd =>
          Execute cmd;;
          modify (λ p, p <| p_log ::= <[p_execute p := e <| i_command := None |> <| i_executed := true |>]> |>);;
          modify (λ p, p <| p_execute ::= λ x, u64 (x + 1) |>);;
          mret true
      end
  end.
(** Every round takes the command out of an instance. *)
Definition exec : M hybster unit := p ← get; loop (S (size (p_log p))) exec_body.

(** [if inst.prepared && !inst.commit && inst.quorum.Majority(m)] *)
Definition maybeCommit (slot : Z) (m : NormalMessage) : M hybster unit :=
  inst ← get_inst slot;
  p ← get;
  when (i_prepared inst && negb (i_commit inst) && inst_Majority (p_f p) m inst)
    (with_inst slot (λ i, Ret (i <| i_commit := true |>));; exec).

(** The instance of a message, made or checked. *)
Definition fetch_instance (checks : instance → outcome instance) (m : NormalMessage) : M hybster unit :=
  p ← get;
  match p_log p !! m_Order m with
  | None => modify (λ p, p <| p_log ::= <[m_Order m := makeInstance m]> |>)
  | Some inst =>
      inst' ← lift (checks inst);
      modify (λ p, p <| p_log ::= <[m_Order m := inst']> |>)
  end.
Definition update_slot (m : NormalMessage) : M hybster unit :=
  p ← get; when (bool_decide (p_slot p < m_Order m)%Z) (modify (λ p, p <| p_slot := m_Order m |>)).

(** The message as the call leaves it. *)
Definition onPrepare (m : NormalMessage) (from : Z) : M hybster NormalMessage :=
  p ← get;
  if bool_decide (m_View m < p_curView p)%Z then mret m else
  update_slot m;;
  '(ok, cmd) ← lift (checkCommandHash (m_Command m) (m_CommandHash m));
  let m := m <| m_Command := cmd |> in
  if negb ok then panic "The hash does not correspond to the command" else
  fetch_instance (λ i, i ← updateCommand m i; updateCommandHash m i) m;;
  let m := m <| m_Command := None |> in
  with_inst (m_Order m) (log_vote from m);;
  with_inst (m_Order m) (λ i, Ret (i <| i_prepared := true |>));;
  let cm := mkNM NormalMessage_Commit (m_View m) (m_Order m) None (m_CommandHash m) in
  broadcastNormal cm;;
  with_inst (m_Order m) (log_vote (p_id p) cm);;
  maybeCommit (m_Order m) m;;
  mret m.

Definition onCommit (m : NormalMessage) (from : Z) : M hybster unit :=
  update_slot m;;
  fetch_instance (updateCommandHash m) m;;
  with_inst (m_Order m) (log_vote from m);;
  maybeCommit (m_Order m) m.

(** *** Requests (request.go) *)
Definition onRequest (cmd : Command) : M hybster unit :=
  p ← get;
  if bool_decide (p_curView p ≠ p_stableView p) then panic "Fix this" else
  if decide (p_nodes p = []) then panic "integer divide by zero" else
  if bool_decide (p_stableView p `mod` Z.of_nat (length (p_nodes p)) ≠ p_id p)%Z
  then panic "not the leader" else
  modify (λ p, p <| p_slot ::= λ x, u64 (x + 1) |>);;
  let '(cmdHash, cmd) := Command_Hash cmd in
  p ← get;
  let slot := p_slot p in
  modify (λ p, p <| p_log ::= <[slot :=
    mkInstance slot (p_curView p) (Some cmd) cmdHash false false false (Some newQuorum)]> |>);;
  let pr := mkNM NormalMessage_Prepare (p_curView p) slot (Some cmd) cmdHash in
  with_inst slot (log_vote (p_id p) pr);;
  with_inst slot (λ i, Ret (i <| i_prepared := true |>));;
  broadcastNormal pr.

(** *** The view change (viewchange.go): histories *)

(** [p.omsgs[i].pr.Order < p.omsgs[j].pr.Order] *)
Definition order_less (a b : prPkg) : bool := bool_decide (m_Order (pk_pr a) < m_Order (pk_pr b))%Z.
Definition pr_less (a b : prPkg) : bool :=
  bool_decide (m_Order (pk_pr a) < m_Order (pk_pr b))%Z || bool_decide (m_View (pk_pr a) < m_View (pk_pr b))%Z.

Definition createAbortState : M hybster (list Support) :=
  modify (λ p, p <| p_omsgs ::= sort_Slice order_less |>);;
  p ← get;
  mret ((λ opr, mkSupport (pk_content opr) (pk_cert opr) (pk_from opr)) <$> p_omsgs p).

(** The message of a support; [pr.View] dereferences it. *)
Definition support_normal (h : Support) : outcome NormalMessage :=
  match Unmarshal (su_RawMsg h) with
  | None => Panic "unmarshal"
  | Some prm => match GetNormal prm with None => Panic "nil NormalMessage" | Some pr => Ret pr end
  end.
Definition support_pkg (pr : NormalMessage) (h : Support) : prPkg := mkPr pr (su_RawMsg h) (su_Cert h) (su_From h).

(** [None]: false. *)
Definition isCorrectAbortState (history : list Support) (fromView : Z) : outcome (option (list prPkg)) :=
  prs ← mapM (λ h,
    pr ← support_normal h;
    ok ← VerifyIndependentCounterCertificate (su_RawMsg h) (su_Cert h) (counter_of (m_View pr) (m_Order pr)) 0;
    if negb ok then Panic "Independent counter verification failed" else
    if bool_decide (m_View pr ≠ fromView) then Panic "view does not match" else
    Ret (support_pkg pr h)) history;
  Ret (Some prs).

Fixpoint isCorrectPrepareSet (history : list Support) (view : Z) : outcome (option (list prPkg)) :=
  match history with
  | [] => Ret (Some [])
  | h :: history =>
      pr ← support_normal h;
      if bool_decide (m_View pr ≠ view) then Ret None else
      ok ← VerifyIndependentCounterCertificate (su_RawMsg h) (su_Cert h) (counter_of (m_View pr) (m_Order pr)) 0;
      if negb ok then Panic "verification failed" else
      prs ← isCorrectPrepareSet history view;
      Ret (option_map (cons (support_pkg pr h)) prs)
  end.

(** [sort.Search] among the prepares of the abort states *)
Definition order_covered (abrtPrPkgs : list prPkg) (prp : prPkg) : bool :=
  negb (bool_decide (search_list (λ a, bool_decide (m_Order (pk_pr prp) ≤ m_Order (pk_pr a))%Z) abrtPrPkgs
    = length abrtPrPkgs)).
Definition isCorrectViewTransition (history : list Support) (view : Z) (abrtPrPkgs : list prPkg)
    : outcome (option (list prPkg)) :=
  o ← isCorrectPrepareSet history view;
  match o with
  | None => Ret None
  | Some prpkgs => Ret (if forallb (order_covered abrtPrPkgs) prpkgs then Some prpkgs else None)
  end.

(** The block that adds the prepares [prs] to [prpsQ] and sorts them. *)
Definition add_prs (prs prpsQ : list prPkg) : list prPkg :=
  let toAdd := filter (λ prp, search_list (λ q, pr_less prp q) prpsQ = length prpsQ) prs in
  sort_Slice pr_less (prpsQ ++ toAdd).

(** *** Installing states *)
Definition installOrderingState (prps : list prPkg) : M hybster unit :=
  modify (λ p, p <| p_omsgs := [] |>);;
  for_each prps (λ prp,
    let pr := pk_pr prp in
    p ← get;
    match p_log p !! m_Order pr with
    | None =>
        modify (λ p, p <| p_log ::= <[m_Order pr :=
          mkInstance (m_Order pr) (m_View pr) (m_Command pr) (m_CommandHash pr) false false false (Some newQuorum)]> |>)
    | Some inst =>
        inst ← lift (reset inst);
        modify (λ p, p <| p_log ::= <[m_Order pr := inst <| i_view := m_View pr |>]> |>)
    end;;
    modify (λ p, p <| p_omsgs ::= λ l, l ++ [prp] |>)).
Definition installAbortState (prs : list prPkg) : M hybster unit := installOrderingState prs.
Definition abortStateReceived (view : Z) (prs : list prPkg) : M hybster unit :=
  p ← get; when (bool_decide (p_stableView p = view)) (installAbortState prs).

Definition enterView (view : Z) (prps : list prPkg) : M hybster unit :=
  p ← get;
  if bool_decide (view ≤ p_stableView p)%Z then panic "New view is less than stable view?" else
  if bool_decide (p_curView p < view)%Z then panic "How come I did not sign up for view change?" else
  modify (λ p, p <| p_stableView := view |>);;
  installOrderingState prps.

(** *** View-change messages *)
Definition leaveViewFor (nextView : Z) : M hybster unit :=
  p ← get;
  if bool_decide (nextView ≤ p_curView p)%Z then mret tt else
  prs ← createAbortState;
  modify (λ p, p <| p_curView := nextView |>);;
  p ← get;
  broadcastVC (mkVC (p_stableView p) nextView (p_slot p) prs 0).

Definition isRelevantViewChange (m : ViewChangeMessage) (from : Z) (p : hybster) : bool :=
  if bool_decide (from = p_id p) then false else
  if bool_decide (vc_ToView m < p_curView p)%Z
     || negb (bool_decide (p_curView p ≠ p_stableView p) && bool_decide (vc_ToView m = p_curView p))
  then false else true.

Definition isCorrectViewChange (m : ViewChangeMessage) (content cert : bytes) : outcome (option (list prPkg)) :=
  if bool_decide (vc_ToView m ≤ vc_FromView m)%Z then Ret None else
  let fromCtr := counter_of (vc_FromView m) (vc_Order m) in
  let toCtr := u64 (Z.shiftl (vc_ToView m) 48) in
  ok ← VerifyContinuingCounterCertificate content cert fromCtr toCtr 0;
  if negb ok then Panic "Continuing counter verification failed" else
  isCorrectAbortState (vc_History m) (vc_FromView m).

Definition isCorrectViewChangeCertificate (f : Z) (vcPkgs : list vcPkg) (from to : Z)
    : outcome (option (list vcPkg * list prPkg)) :=
  if bool_decide (Z.of_nat (length vcPkgs) < f + 1)%Z then Ret None else
  '(vcpsQ, prpsQ) ← for_out vcPkgs ([], []) (λ vcp '(vcpsQ, prpsQ),
    match vk_vc vcp with
    | None => Panic "nil ViewChangeMessage"
    | Some vc =>
        if bool_decide (from < vc_FromView vc)%Z then Ret (vcpsQ, prpsQ) else
        if bool_decide (vc_ToView vc ≠ to) then Ret (vcpsQ, prpsQ) else
        o ← isCorrectViewChange vc (vk_content vcp) (vk_cert vcp);
        match o with
        | None => Ret (vcpsQ, prpsQ)
        | Some prpkgs => Ret (vcpsQ ++ [vcp], add_prs prpkgs prpsQ)
        end
    end);
  Ret (if bool_decide (f < Z.of_nat (length vcpsQ))%Z then Some (vcpsQ, prpsQ) else None).

Definition isCorrectNewViewAck (nvap : nvaPkg) (fromView : Z) : outcome (option (list prPkg)) :=
  ok ← VerifyContinuingCounterCertificate (ak_content nvap) (ak_cert nvap) 0 0 2;
  if negb ok then Ret None else isCorrectAbortState (nva_History (ak_nva nvap)) fromView.

(** The messages that count for the new view: its view changes, and acks. *)
Definition vc_counts (from to : Z) (vcp : vcPkg) : bool :=
  match vk_vc vcp with
  | None => false
  | Some vc => bool_decide (vc_FromView vc = from) && bool_decide (vc_ToView vc = to)
  end.
Definition nva_counts (from to : Z) (nvap : nvaPkg) : bool :=
  bool_decide (from ≤ nva_View (ak_nva nvap))%Z && bool_decide (nva_View (ak_nva nvap) ≤ to)%Z.

Definition isCorrectNewViewCertificate (f : Z) (vcPkgs : list vcPkg) (nvAcks : list nvaPkg) (from to : Z)
    : outcome (option (list vcPkg * list prPkg)) :=
  o ← isCorrectViewChangeCertificate f vcPkgs from to;
  match o with
  | None => Ret None
  | Some (vcpsQ, prpsQ) =>
      o ← for_out nvAcks (Some prpsQ) (λ nvap o,
        match o with
        | None => Ret None
        | Some prpsQ =>
            prs ← isCorrectNewViewAck nvap from;
            Ret (option_map (λ prs, add_prs prs prpsQ) prs)
        end);
      match o with
      | None => Ret None
      | Some prpsQ =>
          let vcCount := length (List.filter (vc_counts from to) vcPkgs) + length (List.filter (nva_counts from to) nvAcks) in
          Ret (if bool_decide (f < Z.of_nat vcCount)%Z then Some (vcpsQ, prpsQ) else None)
      end
  end.

(** [leaderOfView]: a modulus of unsigned integers. *)
Definition leaderOfView (v : Z) (p : hybster) : outcome Z :=
  if decide (p_nodes p = []) then Panic "integer divide by zero"
  else Ret (v `mod` Z.of_nat (length (p_nodes p)))%Z.

(** The loop of [createViewTransition]: the prepares so far, and their supports. *)
Fixpoint transition_loop (toView : Z) (prpkgs outprs : list prPkg) (prsBytes : list Support)
    : M hybster (list prPkg * list Support) :=
  match prpkgs with
  | [] => mret (outprs, prsBytes)
  | opr :: prpkgs =>
      let pr := pk_pr opr <| m_View := toView |> in
      let idx := search_list (λ o, bool_decide (m_Order pr ≤ m_Order (pk_pr o))%Z) outprs in
      if match outprs !! idx with Some o => bool_decide (m_Order (pk_pr o) = m_Order pr) | None => false end
      then transition_loop toView prpkgs outprs prsBytes
      else
        '(mBytes, cert) ← marshalAndSignNormal pr;
        p ← get;
        transition_loop toView prpkgs (outprs ++ [mkPr pr mBytes cert (p_id p)])
          (prsBytes ++ [mkSupport mBytes cert (p_id p)])
  end.
Definition createViewTransition (toView : Z) (prpkgs : list prPkg) : M hybster (list prPkg * list Support) :=
  transition_loop toView (sort_Slice order_less prpkgs) [] [].

Definition trySendNewView (fromView toView : Z) : M hybster unit :=
  p ← get;
  leader ← lift (leaderOfView toView p);
  when (bool_decide (leader = p_id p) && bool_decide (p_curView p ≤ toView)%Z)
    (o ← lift (isCorrectNewViewCertificate (p_f p) (p_vmsgs p) (p_nvamsgs p) fromView toView);
     match o with
     | None => mret tt
     | Some (vcpsQ, prpsQ) =>
         when (bool_decide (p_curView p < toView)%Z) (modify (λ p, p <| p_curView := toView |>));;
         if bool_decide (toView ≤ p_stableView p)%Z then panic "New view is less than stable view?" else
         '(prps, prsBytes) ← createViewTransition toView prpsQ;
         let vcMsgsQ := (λ vcp, mkSupport (vk_content vcp) (vk_cert vcp) (vk_from vcp)) <$> vcpsQ in
         broadcastNV (mkNV fromView toView 0 prsBytes vcMsgsQ);;
         enterView toView prps;;
         for_each prps (λ prp,
           with_inst (m_Order (pk_pr prp)) (λ i, log_vote (pk_from prp) (pk_pr prp) (i <| i_prepared := true |>)))
     end).

Definition installViewChange (vcp : vcPkg) (toView : Z) (prs : list prPkg) : M hybster unit :=
  modify (λ p, p <| p_vmsgs ::= λ l, l ++ [vcp] |>);;
  abortStateReceived toView prs.

Definition onViewChange (m : ViewChangeMessage) (content cert : bytes) (from : Z) : M hybster unit :=
  p ← get;
  if negb (isRelevantViewChange m from p) then mret tt else
  o ← lift (isCorrectViewChange m content cert);
  match o with
  | None => panic "isCorrectViewChange failed"
  | Some prs =>
      installViewChange (mkVcp (Some m) content cert from) (vc_ToView m) prs;;
      p ← get;
      when (bool_decide (p_curView p = p_stableView p) && bool_decide (p_curView p < vc_ToView m)%Z)
        (let count := length (List.filter (λ vcp, match vk_vc vcp with
            Some vc => bool_decide (vc_ToView vc = vc_ToView m) | None => false end) (p_vmsgs p)) in
         when (bool_decide (length (p_nodes p) `div` 2 < count)) (leaveViewFor (vc_ToView m)));;
      trySendNewView (vc_FromView m) (vc_ToView m)
  end.

(** *** New views *)
Definition latestKnownView (p : hybster) : Z := foldl (λ mx nv, Z.max mx (nv_ToView nv)) 0%Z (p_nvmsgs p).
Definition isRelevantNewView (m : NewViewMessage) (p : hybster) : bool :=
  bool_decide (latestKnownView p < nv_ToView m)%Z.

Definition isCorrectNewView (nvp : nvPkg) (from : Z) (p : hybster) : outcome (option (list vcPkg * list prPkg)) :=
  let m := nk_nv nvp in
  leader ← leaderOfView (nv_ToView m) p;
  if bool_decide (leader ≠ from) then Panic "Received NewView message from non-leader" else
  ok ← VerifyIndependentCounterCertificate (nk_content nvp) (nk_cert nvp) (u64 (Z.shiftl (nv_ToView m) 48)) 1;
  if negb ok then Panic "Invalid certificate" else
  vcPkgs ← mapM (λ s, match Unmarshal (su_RawMsg s) with
    | None => Panic "unmarshal"
    | Some vcm => Ret (mkVcp (GetViewChange vcm) (su_RawMsg s) (su_Cert s) (su_From s))
    end) (nv_Proof m);
  o ← isCorrectNewViewCertificate (p_f p) vcPkgs (p_nvamsgs p) (nv_FromView m) (nv_ToView m);
  match o with
  | None => Ret None
  | Some (_, abortPrs) =>
      o ← isCorrectViewTransition (nv_History m) (nv_ToView m) abortPrs;
      Ret (option_map (pair vcPkgs) o)
  end.

Definition onNewViewReady (m : NewViewMessage) : M hybster unit :=
  p ← get;
  when (bool_decide (nv_ToView m = latestKnownView p) && bool_decide (p_stableView p < nv_ToView m)%Z)
    (let belated := bool_decide (nv_ToView m < p_curView p)%Z in
     when (bool_decide (p_curView p < nv_ToView m)%Z) (modify (λ p, p <| p_curView := nv_ToView m |>));;
     o ← lift (isCorrectPrepareSet (nv_History m) (nv_ToView m));
     match o with
     | None => panic "isCorrectPrepareSet"
     | Some prs =>
         enterView (nv_ToView m) prs;;
         when belated (broadcastNVA (mkNVA (nv_ToView m) 0 (nv_History m)))
     end).

Definition onNewView (m : NewViewMessage) (content cert : bytes) (from : Z) : M hybster unit :=
  p ← get;
  if negb (isRelevantNewView m p) then panic "Invalid NewView" else
  o ← lift (isCorrectNewView (mkNvp m content cert) from p);
  match o with
  | None => panic "isCorrectNewView failed"
  | Some (vcps, prs) =>
      if bool_decide (p_curView p = p_stableView p) && bool_decide (p_curView p = nv_ToView m) then mret tt else
      modify (λ p, p <| p_nvmsgs ::= λ l, l ++ [m] |>);;
      onNewViewReady m;;
      for_each vcps (λ vcp,
        match vk_vc vcp with
        | None => panic "nil ViewChangeMessage"
        | Some vc =>
            p ← get;
            when (isRelevantViewChange vc (vk_from vcp) p) (installViewChange vcp (vc_ToView vc) prs)
        end);;
      p ← get;
      for_each (imap pair (p_omsgs p)) (λ '(k, prp),
        pr ← onPrepare (pk_pr prp) from;
        modify (λ p, p <| p_omsgs ::= alter (λ o, o <| pk_pr := pr |>) k |>))
  end.

Definition isRelevantNewViewAck (m : NewViewAckMessage) (p : hybster) : bool :=
  if bool_decide (nva_View m < p_stableView p)%Z then false
  else forallb (λ nvap, negb (bool_decide (nva_View m ≤ nva_View (ak_nva nvap))%Z)) (p_nvamsgs p).

Definition onNewViewAck (m : NewViewAckMessage) (content cert : bytes) (from : Z) : M hybster unit :=
  p ← get;
  if negb (isRelevantNewViewAck m p) then mret tt else
  let nvap := mkNvap m content cert from in
  o ← lift (isCorrectNewViewAck nvap (nva_View m));
  match o with
  | None => mret tt
  | Some _ =>
      modify (λ p, p <| p_nvamsgs ::= λ l, l ++ [nvap] |>);;
      o ← lift (isCorrectAbortState (nva_History m) (nva_View m));
      match o with
      | None => mret tt
      | Some prs =>
          abortStateReceived (nva_View m) prs;;
          p ← get;
          trySendNewView (nva_View m) (p_curView p)
      end
  end.

(** *** The signing pool: a worker calls the enclave before it sends the
    callback, and the replica can call it in between *)
Inductive pool_event := Pool (e : Worker.event) | SignStep (k : nat).
Definition worker_step (cap : nat) (e : pool_event) (p : hybster) : option hybster :=
  match e with
  | SignStep k =>
      match Worker.d_workers (p_signDispatcher p) !! k ≫= Worker.running, p_signed p !! k with
      | Some j, None =>
          match CreateIndependentCounterCertificateVector (j_mBytes j) (j_counter j) 0 (p_certifier p) with
          | Ret (cert, e) => Some (p <| p_certifier := e |> <| p_signed ::= <[k := cert]> |>)
          | _ => None
          end
      | _, _ => None
      end
  | Pool (Worker.Done k) =>
      cert ← p_signed p !! k;
      '(d, cbs) ← Worker.step (λ _, cert) cap (Worker.Done k) (p_signDispatcher p) (p_callbackC p);
      Some (p <| p_signDispatcher := d |> <| p_callbackC := cbs |> <| p_signed ::= delete k |>)
  | Pool e =>
      '(d, cbs) ← Worker.step (λ _, []) cap e (p_signDispatcher p) (p_callbackC p);
      Some (p <| p_signDispatcher := d |> <| p_callbackC := cbs |>)
  end.
Definition AsyncCallback_body : M hybster bool :=
  p ← get;
  match p_callbackC p with
  | [] => mret false
  | (j, cert) :: rest =>
      modify (λ p, p <| p_callbackC := rest |>);;
      send_signed j cert;;
      mret true
  end.
Definition AsyncCallback : M hybster unit :=
  p ← get; loop (S (length (p_callbackC p))) AsyncCallback_body.

(** *** The [Protocol] methods (hybster.go) *)
Definition stepNormal (m : NormalMessage) (content cert : bytes) (from : Z) : M hybster unit :=
  p ← get;
  if bool_decide (p_curView p ≠ p_stableView p) then mret tt else
  ok ← lift (VerifyIndependentCounterCertificate content cert (counter_of (m_View m) (m_Order m)) 0);
  if negb ok then mret tt else
  if bool_decide (m_View m ≠ p_curView p) then panic "inconsistent views" else
  if decide (m_Type m = NormalMessage_Prepare) then
    modify (λ p, p <| p_omsgs ::= λ l, l ++ [mkPr m content cert from] |>);;
    pr ← onPrepare m from;
    modify (λ q, q <| p_omsgs ::= alter (λ o, o <| pk_pr := pr |>) (length (p_omsgs p)) |>)
  else if decide (m_Type m = NormalMessage_Commit) then onCommit m from
  else panic "unexpected Message type".

Definition Step (mm : Message) : M hybster unit :=
  match Unmarshal (msg_Content mm) with
  | None => panic "unmarshal"
  | Some (HybsterMessage_Normal m) => stepNormal m (msg_Content mm) (msg_Certificate mm) (msg_From mm)
  | Some (HybsterMessage_ViewChange m) => onViewChange m (msg_Content mm) (msg_Certificate mm) (msg_From mm)
  | Some (HybsterMessage_NewView m) => onNewView m (msg_Content mm) (msg_Certificate mm) (msg_From mm)
  | Some (HybsterMessage_NewViewAck m) => onNewViewAck m (msg_Content mm) (msg_Certificate mm) (msg_From mm)
  | Some HybsterMessage_nil => panic "unexpected Message type"
  end.

Definition Callback (message : ExecCallback) : M hybster unit := mret tt.
(** No timer is ever registered. *)
Definition Tick : M hybster unit := mret tt.
Definition Request (command : Command) : M hybster unit := onRequest command.
Definition MakeReady : M hybster Ready := gets (λ p, mkReady (p_msgs p) (p_executedCmds p)).
Definition ClearMsgs : M hybster unit := modify (λ p, p <| p_msgs := [] |>).
Definition ClearExecutedCommands : M hybster unit := modify (λ p, p <| p_executedCmds := [] |>).

Definition hasPrepared (index : Z) (p : hybster) : bool :=
  match p_log p !! index with Some i => i_prepared i | None => false end.
Definition hasCommitted (index : Z) (p : hybster) : bool :=
  match p_log p !! index with Some i => i_prepared i && i_commit i | None => false end.
Definition hasExecuted (index : Z) (p : hybster) : bool :=
  match p_log p !! index with Some i => i_prepared i && i_commit i && i_executed i | None => false end.

#[export] Instance hybster_Protocol : Protocol hybster := {|
  Peer.Step := Step;
  Peer.Tick := Tick;
  Peer.Request := Request;
  Peer.Callback := Callback;
  Peer.MakeReady := MakeReady;
  Peer.ClearMsgs := ClearMsgs;
  Peer.ClearExecutedCommands := ClearExecutedCommands;
  Peer.AsyncCallback := AsyncCallback;
|}.
End hybster.
Arguments hybster : clear implicits.
End Hybster.
