(* ===== verification/HybsterSafety.v ===== *)
(** * What a Hybster replica keeps within a view

    The invariant of a replica that gets no requests and no view-change
    messages: the hash of an instance never changes once it is known, the votes
    it sends are for the hashes of its log, a committed instance has the votes of
    more than [f] replicas for its hash, and the k-th command executed is one with
    the hash of the committed instance of slot k+1. *)
From S2P Require Import Prelude Command Worker Peer Runs GoSort Trinx Hybster.
From S2P Require Quorum.
Import TrInx Hybster.

(** What the marshaller promises of the normal messages: they come back, with the
    nil and the empty hash the same. *)
Class HybCodecLaws `{Codec HybsterMessage} := {
  Unmarshal_Normal m b : Marshal (HybsterMessage_Normal m) = Some b →
    ∃ m', Unmarshal b = Some (HybsterMessage_Normal m') ∧ m_Order m' = m_Order m ∧
      m_CommandHash m' ≈ m_CommandHash m;
}.

Lemma hyb_NM_Equals_hash m m' : NormalMessage_Equals m m' = true → m_CommandHash m ≈ m_CommandHash m'.
Proof. unfold NormalMessage_Equals. repeat case_match; try done. by intros ?%bytes_Equal_spec. Qed.

Section invariant.
Context {U : Type} `{GoEnv, !GoEnvLaws, GoSort, Codec Command, Codec HybsterMessage, Trinx U, !HybCodecLaws}.
Context (marshal_ok : ∀ c : Command, is_Some (Marshal c)).
Context (id f view : Z) (Hf : (0 ≤ f)%Z).
(** The votes that the verified messages from a replica carried. *)
Context (heard : Z → Z → slice → Prop).
(** Hashes that are known to be in the log, by slot. *)
Context (floor : gmap Z (list Byte.byte)).
Implicit Types (p : hybster U) (i : instance).

(** The hash [h] is in slot [s] of the log. *)
Definition fixed p (s : Z) (h : slice) : Prop :=
  ∃ i, p_log p !! s = Some i ∧ is_Some (i_commandHash i) ∧ h ≈ i_commandHash i.
(** A vote of replica [j] for [h] in slot [s]. *)
Definition vote (s : Z) (h : slice) (j : Z) : Prop := j = id ∨ ∃ h', heard j s h' ∧ h ≈ h'.
Definition certified (s : Z) (h : slice) : Prop :=
  ∃ A : gset Z, (f < Z.of_nat (size A))%Z ∧ ∀ j, j ∈ A → vote s h j.
(** The command [c] is one with hash [h], or equal to one. *)
Definition has_hash (c : Command) (h : slice) : Prop :=
  ∃ c', h ≈ (Command_Hash c').1 ∧ (c' = c ∨ Command_Equal c (Some c') = Ret true).

Record inst_ok (s : Z) i : Prop := {
  io_hash : i_prepared i = true → is_Some (i_commandHash i);
  io_cmd c : i_prepared i = true → i_command i = Some c → has_hash c (i_commandHash i);
  io_votes q : i_quorum i = Some q → Quorum.votes (λ j m, vote s (m_CommandHash m) j) q;
  io_commit : i_commit i = true → i_prepared i = true ∧ certified s (i_commandHash i);
}.
(** What changes of an instance leave. *)
Record inst_le i i' : Prop := {
  le_hash x : i_commandHash i = Some x → i_commandHash i' = Some x;
  le_commit : i_commit i = true → i_commit i' = true;
}.

(** The message with bytes [b] votes only for hashes of the log. *)
Definition backed p (b : bytes) : Prop :=
  ∀ m, Unmarshal b = Some (HybsterMessage_Normal m) → fixed p (m_Order m) (m_CommandHash m).
Definition jobs p : list job := Worker.pending (p_signDispatcher p) ++ (p_callbackC p).*1.
(** The [k]-th command has the hash of the committed instance in slot [k+1]. *)
Definition executed_ok p (k : nat) (c : Command) : Prop :=
  ∃ i x, p_log p !! u64 (1 + Z.of_nat k) = Some i ∧ i_commit i = true ∧ i_commandHash i = Some x ∧
    has_hash c (Some x).

Record hyb_inv (h : list ExecPacket) p : Prop := {
  hv_id : p_id p = id;
  hv_f : p_f p = f;
  hv_view : p_curView p = view ∧ p_stableView p = view;
  hv_log s i : p_log p !! s = Some i → inst_ok s i;
  hv_jobs j : j ∈ jobs p → backed p (j_mBytes j);
  hv_msgs m : m ∈ p_msgs p → backed p (msg_Content m);
  hv_floor s x : floor !! s = Some x → ∃ i, p_log p !! s = Some i ∧ i_commandHash i = Some x;
  hv_execute : p_execute p = u64 (1 + Z.of_nat (length (h ++ p_executedCmds p)));
  hv_done k pkt : (h ++ p_executedCmds p) !! k = Some pkt → executed_ok p k (x_Cmd pkt);
}.

(** ** Changing the state *)

(** What the invariant looks at. *)
Definition core p :=
  (p_id p, p_f p, p_curView p, p_stableView p, p_log p, (p_signDispatcher p, p_callbackC p), p_msgs p,
   (p_execute p, p_executedCmds p)).
Lemma hyb_core_inv h p p' : core p' = core p → hyb_inv h p → hyb_inv h p'.
Proof.
  unfold core. intros [= E1 E2 E3 E4 E5 E6 E7 E8 E9 E10] [].
  split; unfold jobs, backed, fixed, executed_ok in *; rewrite ?E1, ?E2, ?E3, ?E4, ?E5, ?E6, ?E7, ?E8, ?E9, ?E10; auto.
Qed.
Lemma hyb_keeps_inv h {A} (m : M (hybster U) A) : (∀ p, keeps core m p) → preserves (hyb_inv h) m.
Proof. apply preserves_keeps. intros p p'. apply hyb_core_inv. Qed.

Definition lput (s : Z) i p : hybster U := p <| p_log ::= <[s := i]> |>.
Lemma lput_inv h s i p :
  inst_ok s i → (∀ old, p_log p !! s = Some old → inst_le old i) → hyb_inv h p → hyb_inv h (lput s i p).
Proof.
  intros Hok Hle [].
  assert (∀ s' old, p_log p !! s' = Some old → ∃ i', p_log (lput s i p) !! s' = Some i' ∧ inst_le old i') as Hg.
  { intros s' old Ho. cbn. rewrite lookup_insert. case_decide as E; [subst; eauto|]. exists old. by repeat split. }
  assert (∀ s' h, fixed p s' h → fixed (lput s i p) s' h) as Hfx.
  { intros s' h' (old & Ho & [x Hx] & He). destruct (Hg _ _ Ho) as (i' & Hi' & Hl). exists i'.
    rewrite (le_hash _ _ Hl x Hx). rewrite Hx in He. by split_and!. }
  assert (∀ b, backed p b → backed (lput s i p) b) as Hbk by (intros b Hb m Hm; by apply Hfx, Hb).
  split; try done.
  - intros s' i'. cbn. rewrite lookup_insert. case_decide as E; [intros [= <-]; by subst|auto].
  - intros j Hj. by apply Hbk, hv_jobs0.
  - intros m Hm. by apply Hbk, hv_msgs0.
  - intros s' x Hx. destruct (hv_floor0 s' x Hx) as (old & Ho & Hh). destruct (Hg _ _ Ho) as (i' & Hi' & Hl).
    exists i'. by rewrite (le_hash _ _ Hl x Hh).
  - intros k pkt Hk. destruct (hv_done0 k pkt Hk) as (old & x & Ho & Hc & Hx & Hh).
    destruct (Hg _ _ Ho) as (i' & Hi' & Hl). exists i', x. split_and!; [done|by apply (le_commit _ _ Hl)
      |by apply (le_hash _ _ Hl)|done].
Qed.

(** The instance of a slot satisfies [P]. *)
Definition at_slot (s : Z) (P : instance → Prop) p : Prop := ∃ i, p_log p !! s = Some i ∧ P i.
Lemma hyb_with_inst_inv h s g (P Q : instance → Prop) p :
  hyb_inv h p → at_slot s P p →
  (∀ i i', P i → inst_ok s i → g i = Ret i' → inst_ok s i' ∧ inst_le i i' ∧ Q i') →
  wp (with_inst s g) (λ _ p', hyb_inv h p' ∧ at_slot s Q p') p.
Proof.
  intros Hp (i & Hi & HP) Hg. unfold with_inst. wp_step. wp_step. rewrite Hi. wp_step. apply wp_lift. intros i' Hi'.
  destruct (Hg i i' HP (hv_log _ _ Hp _ _ Hi) Hi') as (Hok & Hle & HQ). wp_step. split.
  - apply lput_inv; [done| |done]. rewrite Hi. by intros ? [= <-].
  - exists i'. split; [apply lookup_insert_eq|done].
Qed.
(** The same, where the rest of the run is to be shown. *)
Lemma with_inst_then h s g (P Q : instance → Prop) (R : unit → hybster U → Prop) p :
  hyb_inv h p → at_slot s P p →
  (∀ i i', P i → inst_ok s i → g i = Ret i' → inst_ok s i' ∧ inst_le i i' ∧ Q i') →
  (∀ p', hyb_inv h p' → at_slot s Q p' → R tt p') →
  wp (with_inst s g) R p.
Proof.
  intros Hp Hs Hg HR. eapply wp_mono; [by apply (hyb_with_inst_inv h s g P Q)|]. intros [] p' [??]. by apply HR.
Qed.

(** ** Changes of an instance *)
Lemma hyb_log_vote_ok s k m i i' :
  vote s (m_CommandHash m) k → inst_ok s i → log_vote k m i = Ret i' →
  inst_ok s i' ∧ inst_le i i' ∧ ∃ q, i' = i <| i_quorum := q |>.
Proof.
  intros Hv [] Hl. unfold log_vote in Hl. destruct (i_quorum i) as [q|] eqn:Hq; [|done].
  outcome_inv. split_and!; [|by split|by eexists]. split; try done. intros q' [= <-].
  eapply Quorum.votes_log; [by apply io_votes0|exact Hv|done].
Qed.
Lemma hyb_updateCommandHash_inv m i i' :
  updateCommandHash m i = Ret i' →
  i' = i <| i_commandHash := i_commandHash i' |> ∧ m_CommandHash m ≈ i_commandHash i' ∧
  (∀ x, i_commandHash i = Some x → i_commandHash i' = Some x) ∧
  (is_Some (m_CommandHash m) → is_Some (i_commandHash i')).
Proof.
  unfold updateCommandHash. destruct (i_commandHash i) as [x|] eqn:Hx.
  - destruct (bytes_Equal (Some x) (m_CommandHash m)) eqn:He; simpl; [|done]. intros [= <-].
    apply bytes_Equal_spec in He. rewrite Hx. split_and!; try done. by destruct i; simpl in *; subst.
  - intros [= <-]. by split_and!.
Qed.
(** The hash gets known, or stays. *)
Lemma hyb_set_hash_ok s i i' :
  i' = i <| i_commandHash := i_commandHash i' |> → (∀ x, i_commandHash i = Some x → i_commandHash i' = Some x) →
  inst_ok s i → inst_ok s i' ∧ inst_le i i'.
Proof.
  intros E Hk [].
  assert (i_prepared i' = i_prepared i ∧ i_command i' = i_command i ∧ i_quorum i' = i_quorum i ∧ i_commit i' = i_commit i)
    as (Ep & Ec & Eq & Em) by (by rewrite E).
  assert (i_prepared i = true → i_commandHash i' = i_commandHash i) as Hsame.
  { intros [x Hx]%io_hash0. by rewrite Hx, (Hk x Hx). }
  split; split; rewrite ?Ep, ?Ec, ?Eq, ?Em; auto.
  - intros Hp. rewrite Hsame by done. auto.
  - intros c Hp. rewrite Hsame by done. auto.
  - intros Hc. destruct (io_commit0 Hc) as [Hp ?]. by rewrite Hsame.
Qed.
Lemma hyb_updateCommandHash_ok s m i i' :
  updateCommandHash m i = Ret i' → inst_ok s i → inst_ok s i' ∧ inst_le i i' ∧ m_CommandHash m ≈ i_commandHash i'.
Proof.
  intros (E & He & Hk & _)%hyb_updateCommandHash_inv Hok. destruct (hyb_set_hash_ok s i i') as [??]; [done..|]. by split_and!.
Qed.
Lemma hyb_makeInstance_ok s m : inst_ok s (makeInstance m).
Proof. split; try done. intros q [= <-]. apply Quorum.votes_new. Qed.

(** The instance of a message, made or checked. *)
Lemma hyb_fetch_inv h (checks : instance → outcome instance) (Q : instance → Prop) m p :
  (∀ i i', checks i = Ret i' → inst_ok (m_Order m) i → inst_ok (m_Order m) i' ∧ inst_le i i' ∧ Q i') →
  Q (makeInstance m) → hyb_inv h p →
  wp (fetch_instance checks m) (λ _ p', hyb_inv h p' ∧ at_slot (m_Order m) Q p') p.
Proof.
  intros Hc HQ Hp. unfold fetch_instance. wp_step. wp_step. destruct (p_log p !! m_Order m) as [i|] eqn:Hi.
  - wp_step. apply wp_lift. intros i' Hi'. destruct (Hc i i' Hi' (hv_log _ _ Hp _ _ Hi)) as (Hok & Hle & HQ').
    wp_step. split; [|exists i'; split; [apply lookup_insert_eq|done]].
    apply lput_inv; [done| |done]. rewrite Hi. by intros ? [= <-].
  - wp_step. split; [|eexists; split; [apply lookup_insert_eq|done]].
    apply lput_inv; [apply hyb_makeInstance_ok| |done]. by rewrite Hi.
Qed.

(** ** Execution *)
Lemma hyb_exec_inv h : preserves (hyb_inv h) exec.
Proof.
  unfold exec. apply preserves_bind; [apply preserves_get|]. intros p0. apply preserves_loop. intros p Hp.
  unfold exec_body. wp_step. wp_step. destruct (p_log p !! p_execute p) as [e|] eqn:Hl; [|by wp_step].
  wp_step; [by wp_step|]. destruct (i_command e) as [cmd|] eqn:Hc; [|by wp_step].
  match goal with Hb : negb _ = false |- _ => apply negb_false_iff in Hb; rename Hb into Hco end.
  unfold Execute. do 7 wp_step. pose proof (hv_log _ _ Hp _ _ Hl) as Hok.
  destruct (io_commit _ _ Hok Hco) as [Hpr _]. destruct (io_hash _ _ Hok Hpr) as [x Hx].
  set (e' := e <| i_command := None |> <| i_executed := true |>).
  assert (hyb_inv h (lput (p_execute p) e' p)) as [].
  { apply lput_inv; [|rewrite Hl; by intros ? [= <-]|done]. destruct Hok. by split. }
  pose proof (hv_execute _ _ Hp) as Hnext. split; try done; cbn.
  - rewrite (app_assoc h), length_app, Hnext, u64_add_l. cbn. f_equal. lia.
  - intros k pkt. rewrite (app_assoc h), lookup_app_Some. intros [Hk|[Hle [Hz <-]%list_lookup_singleton_Some]].
    + by apply hv_done0.
    + exists e', x. replace k with (length (h ++ p_executedCmds p)) by lia. split.
      * rewrite <-Hnext. apply lookup_insert_eq.
      * split_and!; [done|done|]. rewrite <-Hx. by apply (io_cmd _ _ Hok).
Qed.

Lemma hyb_maybeCommit_inv h s m p :
  hyb_inv h p → at_slot s (λ i, m_CommandHash m ≈ i_commandHash i) p → wp (maybeCommit s m) (λ _, hyb_inv h) p.
Proof.
  intros Hp (i & Hi & He). unfold maybeCommit, get_inst. wp_step. wp_step. wp_step. rewrite Hi. do 4 wp_step; [|done].
  match goal with Hb : _ && _ = true |- _ => apply andb_true_iff in Hb as [[Hpr _]%andb_true_iff Hm] end.
  wp_step. eapply (with_inst_then h s _ (λ i', i' = i) (λ _, True)); [done|by exists i| |].
  - intros i1 i' -> Hok [= <-]. split_and!; [|by split|done]. destruct Hok. split; try done. intros _. split; [done|].
    unfold inst_Majority in Hm. destruct (i_quorum i) as [q|] eqn:Hq; [|done]. rewrite (hv_f _ _ Hp) in Hm.
    destruct (Quorum.Majority_voters _ f m q Hf (io_votes0 q eq_refl) Hm) as (A & Hs & HA).
    exists A. split; [done|]. intros j (m' & Hvote & Heq%hyb_NM_Equals_hash)%HA. cbn.
    destruct Hvote as [?|(h' & ? & Hh')]; [by left|right]. exists h'. split; [done|].
    etrans; [symmetry; exact He|]. by etrans.
  - intros p' Hp' _. by apply hyb_exec_inv.
Qed.

(** ** Sending *)
#[local] Arguments Worker.Exec : simpl never.
#[local] Arguments Worker.pending : simpl never.

(** A state with the same log and executions, and jobs and messages that are as
    they should be. *)
Definition view_of p := (p_id p, p_f p, p_curView p, p_stableView p, p_log p, (p_execute p, p_executedCmds p)).
Lemma hyb_view_inv h p p' :
  view_of p' = view_of p → (∀ j, j ∈ jobs p' → backed p (j_mBytes j)) →
  (∀ m, m ∈ p_msgs p' → backed p (msg_Content m)) → hyb_inv h p → hyb_inv h p'.
Proof.
  unfold view_of. intros [= E1 E2 E3 E4 E5 E6 E7] Hj Hm [].
  split; unfold backed, fixed, executed_ok in *; rewrite ?E1, ?E2, ?E3, ?E4, ?E5, ?E6, ?E7; auto.
Qed.
Lemma hyb_marshal_inv m p (Q : bytes → hybster U → Prop) :
  (∀ b, Marshal m = Some b → Q b p) → wp (wrapAndMarshal m) Q p.
Proof. intros HQ. unfold wrapAndMarshal. destruct (Marshal m) as [b|]; [|done]. wp_step. by apply HQ. Qed.
Lemma hyb_broadcastNormal_inv h m p :
  fixed p (m_Order m) (m_CommandHash m) → hyb_inv h p →
  wp (broadcastNormal m) (λ _ p', hyb_inv h p' ∧ p_log p' = p_log p) p.
Proof.
  intros Hfx Hp. unfold broadcastNormal. wp_step. apply hyb_marshal_inv. intros b Hb. wp_step. split; [|done].
  apply (hyb_view_inv h p); [done| |apply (hv_msgs _ _ Hp)|done].
  intros j. unfold jobs. cbn. rewrite elem_of_app, Worker.Exec_pending, elem_of_cons.
  intros [[->|?]|?]; [|apply (hv_jobs _ _ Hp); unfold jobs; rewrite elem_of_app; tauto..].
  intros m' Hu. cbn in Hu. apply Unmarshal_Normal in Hb as (m2 & Hb & Eo & Eh). rewrite Hu in Hb. injection Hb as <-.
  destruct Hfx as (i & ? & ? & ?). exists i. rewrite Eo. split_and!; [done..|]. by etrans.
Qed.

(** ** The handlers *)
Lemma hyb_updateCommand_inv m i i' :
  updateCommand m i = Ret i' →
  (i' = i ∧ ∃ c, i_command i = Some c ∧ Command_Equal c (m_Command m) = Ret true) ∨
  (i_command i = None ∧ i' = i <| i_command := m_Command m |>).
Proof.
  unfold updateCommand. destruct (i_command i) as [c|].
  - intros Hu. outcome_inv. destruct a; simpl in Hu; [|done]. injection Hu as <-. left. split; [done|]. by exists c.
  - intros [= <-]. by right.
Qed.
(** What a Prepare that passes the check leaves in its instance. *)
Definition proposed (m : NormalMessage) i : Prop :=
  is_Some (i_commandHash i) ∧ m_CommandHash m ≈ i_commandHash i ∧
  ∀ c, i_command i = Some c → has_hash c (i_commandHash i).
Lemma checked_command cmd x cmd' :
  checkCommandHash cmd x = Ret (true, cmd') → ∃ c, cmd' = Some c ∧ x ≈ (Command_Hash c).1 ∧ is_Some x.
Proof.
  unfold checkCommandHash, Command_Hash_ptr. destruct cmd as [c|]; [|done].
  destruct (Command_Hash c) as [comp c'] eqn:Hc. simpl. intros [= He <-]. apply bytes_Equal_spec in He.
  destruct (marshal_ok (c <| c_TraceInfo := None |>)) as [b Hb].
  assert (comp = Some (sha256 b)) as -> by (unfold Command_Hash in Hc; rewrite Hb in Hc; by injection Hc).
  pose proof (Command_Hash_restores _ _ _ Hc) as ->. exists c. rewrite Hc. split_and!; [done..|].
  destruct x as [x|]; [by eexists|]. unfold slice_eqv in He. simpl in He. pose proof (length_sha256 b) as Hl.
  by rewrite <-He in Hl.
Qed.
Lemma hyb_prepare_checks s m c i i' :
  m_Command m = Some c → m_CommandHash m ≈ (Command_Hash c).1 → is_Some (m_CommandHash m) →
  (i ← updateCommand m i; updateCommandHash m i) = Ret i' → inst_ok s i →
  inst_ok s i' ∧ inst_le i i' ∧ proposed m i'.
Proof.
  intros Hmc Hmh Hms Hg Hok. destruct (updateCommand m i) as [i1| |] eqn:Hu; [|done..]. simpl in Hg.
  pose proof (hyb_updateCommandHash_inv _ _ _ Hg) as (E & He & Hk & Hs).
  assert (i_command i' = i_command i1) as Ec by (by rewrite E).
  assert (proposed m i') as Hp.
  { split; [by apply Hs|]. split; [done|]. intros c1. rewrite Ec. intros Hc1. exists c. split; [by rewrite <-He|].
    apply hyb_updateCommand_inv in Hu as [(-> & c2 & Hc2 & Heq)|[_ ->]].
    - rewrite Hc1 in Hc2. injection Hc2 as <-. right. by rewrite <-Hmc.
    - left. cbn in Hc1. congruence. }
  assert (i_commandHash i1 = i_commandHash i ∧ i_commit i1 = i_commit i ∧ i_prepared i1 = i_prepared i ∧
    i_quorum i1 = i_quorum i) as (Eh & Em & Epr & Eq).
  { by apply hyb_updateCommand_inv in Hu as [(-> & _)|[_ ->]]. }
  rewrite Eh in Hk.
  assert (i_commit i' = i_commit i ∧ i_prepared i' = i_prepared i ∧ i_quorum i' = i_quorum i) as (Em' & Epr' & Eq')
    by (rewrite E; cbn; by rewrite Em, Epr, Eq).
  destruct Hok, Hp as (Hp1 & Hp2 & Hp3). split; [|split; [split; rewrite ?Em'; auto|done]].
  split; rewrite ?Epr', ?Eq', ?Em'; auto. intros Hco. destruct (io_commit0 Hco) as [Hpr Hcert].
  destruct (io_hash0 Hpr) as [x Hx]. rewrite (Hk x Hx), <-Hx. by split.
Qed.

Lemma update_slot_core m p : keeps core (update_slot m) p.
Proof. unfold update_slot. keeps_steps. Qed.
Lemma hyb_onPrepare_inv h m from p :
  heard from (m_Order m) (m_CommandHash m) → hyb_inv h p → wp (onPrepare m from) (λ _, hyb_inv h) p.
Proof.
  intros Hh Hp. unfold onPrepare. wp_step. wp_step. wp_step; [by wp_step|]. wp_step.
  eapply wp_mono; [by apply (hyb_keeps_inv h); [apply update_slot_core|]|]. simpl. intros _ p1 Hp1.
  wp_step. apply wp_lift. intros [ok cmd] Hck. destruct ok; [|done]. cbn [negb].
  destruct (checked_command _ _ _ Hck) as (c & -> & Hx & Hxs). set (mc := m <| m_Command := Some c |>).
  wp_step. eapply wp_mono.
  { apply (hyb_fetch_inv h _ (proposed m)); [|split; [exact Hxs|]; split; [done|]|exact Hp1].
    - intros i i' Hg. by apply (hyb_prepare_checks _ mc c).
    - intros c1 [= <-]. exists c. by split; [|left]. }
  change (m_Order mc) with (m_Order m). simpl. intros _ p2 [Hp2 Hs2]. wp_step.
  apply (with_inst_then h _ _ (proposed m) (proposed m)); [done..| |].
  { intros i i' Hpr Hok Hl. eapply hyb_log_vote_ok in Hl as (? & ? & q & ->); [|right; by exists (m_CommandHash m)|done].
    by split_and!. }
  intros p3 Hp3 Hs3. wp_step. apply (with_inst_then h _ _ (proposed m) (proposed m)); [done..| |].
  { intros i i' (Hi1 & Hi2 & Hi3) Hok [= <-]. split_and!; [|by split|done]. destruct Hok. split; auto.
    intros Hco. destruct (io_commit0 Hco). by split. }
  intros p4 Hp4 Hs4. wp_step. eapply wp_mono.
  { apply (hyb_broadcastNormal_inv h); [|done]. destruct Hs4 as (i & Hi & Hi1 & Hi2 & _). by exists i. }
  simpl. intros _ p5 [Hp5 El]. wp_step. apply (with_inst_then h _ _ (proposed m) (proposed m)); [done| | |].
  { unfold at_slot. by rewrite El. }
  { intros i i' Hpr Hok Hl. eapply hyb_log_vote_ok in Hl as (? & ? & q & ->); [|by left; rewrite (hv_id _ _ Hp)|done].
    by split_and!. }
  intros p6 Hp6 (i & Hi & Hi1 & Hi2 & _). wp_step. eapply wp_mono.
  { apply hyb_maybeCommit_inv; [done|]. by exists i. }
  simpl. intros _ p7 Hp7. by wp_step.
Qed.

Lemma hyb_onCommit_inv h m from p :
  heard from (m_Order m) (m_CommandHash m) → hyb_inv h p → wp (onCommit m from) (λ _, hyb_inv h) p.
Proof.
  intros Hh Hp. unfold onCommit. wp_step.
  eapply wp_mono; [by apply (hyb_keeps_inv h); [apply update_slot_core|]|]. simpl. intros _ p1 Hp1.
  wp_step. set (Q := λ i, m_CommandHash m ≈ i_commandHash i). eapply wp_mono.
  { apply (hyb_fetch_inv h _ Q); [|done..]. intros i i' Hg Hok. by apply hyb_updateCommandHash_ok. }
  simpl. intros _ p2 [Hp2 Hs2]. wp_step. apply (with_inst_then h _ _ Q Q); [done..| |].
  { intros i i' Hi Hok Hl. eapply hyb_log_vote_ok in Hl as (? & ? & q & ->); [|right; by exists (m_CommandHash m)|done].
    by split_and!. }
  intros p3 Hp3 Hs3. by apply hyb_maybeCommit_inv.
Qed.

(** ** The calls *)

(** Normal messages only, which have been heard if they verify; no requests. *)
Definition hears (c : call) : Prop :=
  match c with
  | Call_Step msg =>
      match Unmarshal (msg_Content msg) with
      | Some (HybsterMessage_Normal m) =>
          VerifyIndependentCounterCertificate (msg_Content msg) (msg_Certificate msg)
            (counter_of (m_View m) (m_Order m)) 0 = Ret true →
          m_View m = view → heard (msg_From msg) (m_Order m) (m_CommandHash m)
      | Some HybsterMessage_nil | None => True
      | _ => False
      end
  | Call_Request _ => False
  | _ => True
  end.
Lemma hyb_Step_inv h msg p : hears (Call_Step msg) → hyb_inv h p → wp (Step msg) (λ _, hyb_inv h) p.
Proof.
  unfold hears, Step. destruct (Unmarshal (msg_Content msg)) as [[m| | | |]|]; try done. intros Hh Hp.
  unfold stepNormal. wp_step. wp_step. wp_step; [by wp_step|]. wp_step. apply wp_lift. intros ok Hok.
  wp_step; [by wp_step|]. match goal with Hn : negb ok = false |- _ => apply negb_false_iff in Hn as -> end.
  wp_step; [done|].
  match goal with Hv : bool_decide (m_View m ≠ p_curView p) = false |- _ =>
    apply bool_decide_eq_false, dec_stable in Hv; rename Hv into Hv' end.
  rewrite (proj1 (hv_view _ _ Hp)) in Hv'. specialize (Hh Hok Hv').
  destruct (decide (m_Type m = NormalMessage_Prepare)) as [_|_];
    [|destruct (decide (m_Type m = NormalMessage_Commit)); [by apply hyb_onCommit_inv|done]].
  wp_step. wp_step. wp_step. eapply wp_mono; [apply (hyb_onPrepare_inv h); [done|by apply (hyb_core_inv h p)]|].
  simpl. intros pr p1 Hp1. wp_step. by apply (hyb_core_inv h p1).
Qed.

Lemma hyb_send_signed_inv h j cert p : backed p (j_mBytes j) → hyb_inv h p → wp (send_signed j cert) (λ _, hyb_inv h) p.
Proof.
  intros Hb Hp. unfold send_signed. wp_step. wp_step. wp_step.
  apply (wp_mono _ (λ _ p', hyb_inv h p' ∧ p_log p' = p_log p)).
  { wp_step; [|done]. wp_step. wp_step. wp_step. split; [|done]. by apply (hyb_core_inv h p). }
  intros _ p1 [Hp1 E1]. apply (wp_mono _ (λ _ p', hyb_inv h p' ∧ p_log p' = p_log p)); [|by intros _ p2 []].
  apply wp_for_each; [|done]. intros node p2 _ [Hp2 E2]. wp_step; [|done]. wp_step. apply wp_lift. intros part _.
  unfold sendTo. wp_step. split; [|done]. apply (hyb_view_inv h p2); [done|apply (hv_jobs _ _ Hp2)| |done]. cbn.
  intros m [?|Hm]%elem_of_app; [by apply (hv_msgs _ _ Hp2)|]. apply list_elem_of_singleton in Hm as ->. cbn.
  unfold backed, fixed. by rewrite E2.
Qed.
Lemma hyb_AsyncCallback_inv h : preserves (hyb_inv h) AsyncCallback.
Proof.
  unfold AsyncCallback. apply preserves_bind; [apply preserves_get|]. intros p0. apply preserves_loop. intros p Hp.
  unfold AsyncCallback_body. wp_step. wp_step. destruct (p_callbackC p) as [|[j cert] rest] eqn:Hc; [by wp_step|].
  wp_step. wp_step. wp_step.
  assert (∀ j', j' ∈ Worker.pending (p_signDispatcher p) ++ (j :: rest.*1) → backed p (j_mBytes j')) as Hjobs.
  { intros j' Hj'. apply (hv_jobs _ _ Hp). unfold jobs. by rewrite Hc. }
  eapply wp_mono.
  - apply (hyb_send_signed_inv h); [apply Hjobs; rewrite elem_of_app, elem_of_cons; tauto|].
    apply (hyb_view_inv h p); [done| |apply (hv_msgs _ _ Hp)|done]. intros j' Hj'. apply Hjobs.
    unfold jobs in Hj'. cbn in Hj'. rewrite elem_of_app, elem_of_cons in *. tauto.
  - simpl. intros _ p2 Hp2. by wp_step.
Qed.
Lemma hyb_worker_step_inv cap h e p p' : worker_step cap e p = Some p' → hyb_inv h p → hyb_inv h p'.
Proof.
  intros Hw Hp.
  assert (∀ (run : job → bytes) e d cbs,
    Worker.step run cap e (p_signDispatcher p) (p_callbackC p) = Some (d, cbs) →
    ∀ j, j ∈ Worker.pending d ++ cbs.*1 → backed p (j_mBytes j)) as Hstep.
  { intros run e0 d cbs [Hj Hc]%Worker.step_jobs j. rewrite elem_of_app. intros [Hin%Hj|([j' r] & -> & Hin)%list_elem_of_fmap].
    - apply (hv_jobs _ _ Hp). unfold jobs. rewrite elem_of_app. by left.
    - apply (hv_jobs _ _ Hp). unfold jobs. rewrite elem_of_app.
      destruct (Hc _ Hin) as [Hin'|[Hin' _]]; [right; by apply (list_elem_of_fmap_2 fst _ (j', r))|by left]. }
  destruct e as [e|k]; simpl in Hw.
  - assert (∃ run d cbs, Worker.step run cap e (p_signDispatcher p) (p_callbackC p) = Some (d, cbs) ∧
      jobs p' = Worker.pending d ++ cbs.*1 ∧ view_of p' = view_of p ∧ p_msgs p' = p_msgs p)
      as (run & d & cbs & Hs & Ej & Ev & Em).
    { destruct e as [k| | |k]; [| | |apply bind_Some in Hw as (sg & _ & Hw)];
        apply bind_Some in Hw as ([d cbs] & Hs & [= <-]); (eexists _, d, cbs; split; [exact Hs|done]). }
    apply (hyb_view_inv h p); [done| |rewrite Em; apply (hv_msgs _ _ Hp)|done]. rewrite Ej. by eapply Hstep.
  - destruct (_ ≫= Worker.running) as [j|]; [|done]. destruct (p_signed p !! k); [done|].
    destruct (CreateIndependentCounterCertificateVector _ _ _ _) as [[cert e]| |]; [|done..]. injection Hw as <-.
    by apply (hyb_core_inv h p).
Qed.

Definition pools_step (cap : nat) p p' : Prop := ∃ e, worker_step cap e p = Some p'.
Lemma hyb_invariant cap : invariant_with (pools_step cap) hears hyb_inv.
Proof.
  split.
  - intros [msg|c| |cb| |] h p Hc Hp; simpl.
    + by apply hyb_Step_inv.
    + done.
    + by unfold Tick; wp_step.
    + by unfold Callback; wp_step.
    + by apply hyb_AsyncCallback_inv.
    + unfold ClearMsgs. wp_step. apply (hyb_view_inv h p); [done|apply (hv_jobs _ _ Hp)| |done].
      by intros m ?%not_elem_of_nil.
  - intros h p p' [e He]. by eapply hyb_worker_step_inv.
  - intros h p Hp. simpl. unfold MakeReady, ClearMsgs, ClearExecutedCommands. wp_step. intros sent.
    assert (∀ p1, hyb_inv h p1 → p_executedCmds p1 = p_executedCmds p →
      hyb_inv (h ++ p_executedCmds p) (p1 <| p_executedCmds := [] |>)) as Hc.
    { intros p1 [] E. split; try done; cbn; rewrite app_nil_r, <-E; done. }
    wp_step. wp_step; wp_step; [wp_step|]; apply Hc; try done.
    apply (hyb_view_inv h p); [done|apply (hv_jobs _ _ Hp)| |done]. by intros m ?%not_elem_of_nil.
Qed.
End invariant.

(** ** From the first state *)
#[local] Arguments Worker.NewDispatcher : simpl never.
Section start.
Context {U : Type} `{GoEnv, !GoEnvLaws, GoSort, Codec Command, Codec HybsterMessage, Trinx U, !HybCodecLaws}.
Context (marshal_ok : ∀ c : Command, is_Some (Marshal c)).
Implicit Types (c : Config) (p : hybster U).

Definition config_inv c heard floor h p : Prop :=
  hyb_inv (cfg_ID c) (cfg_MaxFailures c) (cfg_LeaderID c) heard floor h p.
Lemma NewHybster_inv heard c u p : NewHybster c u = Ret p → config_inv c heard ∅ [] p.
Proof.
  unfold NewHybster. destruct (cfg_SecretKeys c) as [|[] ?]; [done..|]. intros [= <-]. split; try done; cbn.
  - intros s i [<- <-]%lookup_singleton_Some. by split.
  - intros j. unfold jobs. cbn. rewrite Worker.NewDispatcher_pending. by intros ?%not_elem_of_nil.
  - by intros m ?%not_elem_of_nil.
Qed.
Lemma hyb_config_invariant c heard floor cap :
  (0 ≤ cfg_MaxFailures c)%Z →
  invariant_with (pools_step cap) (hears (cfg_LeaderID c) heard) (config_inv c heard floor).
Proof. intros Hf. by apply hyb_invariant. Qed.

(** A vote sent at some point of the run from [p0] to [p]. *)
Definition sent (cap : nat) (view : Z) p0 (h : list ExecPacket) p (s : Z) (x : slice) : Prop :=
  ∃ h1 p1 msg m,
    runs_with (pools_step cap) (hears view (λ _ _ _, True)) [] p0 h1 p1 ∧
    runs_with (pools_step cap) (hears view (λ _ _ _, True)) h1 p1 h p ∧ msg ∈ p_msgs p1 ∧
    Unmarshal (msg_Content msg) = Some (HybsterMessage_Normal m) ∧ m_Order m = s ∧ m_CommandHash m = x.

(** What was voted for is in the log for good. *)
Lemma hyb_sent_fixed cap c u p0 h p s x :
  (0 ≤ cfg_MaxFailures c)%Z → NewHybster c u = Ret p0 → sent cap (cfg_LeaderID c) p0 h p s x → fixed p s x.
Proof.
  intros Hf Hn (h1 & p1 & msg & m & Hr1 & Hr2 & Hmsg & Hu & <- & <-).
  pose proof (runs_with_inv _ _ _ _ _ _ _ (hyb_config_invariant c _ ∅ cap Hf) Hr1 (NewHybster_inv _ _ _ _ Hn)) as Hp1.
  destruct (hv_msgs _ _ _ _ _ _ _ Hp1 _ Hmsg m Hu) as (i & Hi & [y Hy] & He).
  assert (config_inv c (λ _ _ _, True) {[m_Order m := y]} h1 p1) as Hp1'.
  { destruct Hp1. split; try done. intros j z [<- <-]%lookup_singleton_Some. eauto. }
  pose proof (runs_with_inv _ _ _ _ _ _ _ (hyb_config_invariant c _ _ cap Hf) Hr2 Hp1') as Hp.
  destruct (hv_floor _ _ _ _ _ _ _ Hp (m_Order m) y) as (i' & Hi' & Hy'); [apply lookup_singleton_eq|].
  exists i'. rewrite Hy in He. rewrite Hy'. by repeat split.
Qed.
End start.
