(* ===== verification/HybsterProps.v ===== *)
(** * The properties of Hybster

    Agreement within a view, what a new view rests on, termination, and the runs
    and invariants that show what the view change does not do. *)
From S2P Require Import Prelude Command Worker Peer Runs Wire GoSort Trinx Hybster HybsterSafety.
From S2P Require Quorum.
From Stdlib Require Import Strings.Byte.
Import TrInx Hybster.

(** ** Termination *)
Section ends.
Context {U : Type} `{GoEnv, GoSort, Codec Command, Codec HybsterMessage, Trinx U}.
Implicit Types (p : hybster U).

(** The instances whose command is there. *)
Definition commands_left p : nat := size (filter (λ x : Z * instance, is_Some (i_command x.2)) (p_log p)).
Lemma hyb_exec_ends p : ends exec p.
Proof.
  change (ends (loop (S (size (p_log p))) exec_body) p). apply (loop_ends (λ _, True) commands_left); [|done|].
  - intros p1 _. unfold exec_body, Execute. split; [ends_steps|]. wp_step. wp_step.
    destruct (p_log p1 !! p_execute p1) as [e|] eqn:He; [|by wp_step]. wp_step; [by wp_step|].
    destruct (i_command e) as [cmd|] eqn:Hc; [|by wp_step]. do 7 wp_step. intros _. split; [done|].
    unfold commands_left. cbn. eapply map_filter_insert_size_lt; [exact He|cbn; by rewrite Hc|by intros []].
  - unfold commands_left. pose proof (map_subseteq_size _ _ (map_filter_subseteq
      (λ x : Z * instance, is_Some (i_command x.2)) (p_log p))). lia.
Qed.

Lemma hyb_with_inst_ends s g p : (∀ i, g i ≠ Diverge) → ends (with_inst s g) p.
Proof. intros Hg. unfold with_inst. ends_steps. Qed.
Lemma hyb_get_inst_ends s p : ends (get_inst s) p.
Proof. unfold get_inst. ends_steps. Qed.
Lemma hyb_log_vote_ends k m i : log_vote k m i ≠ Diverge.
Proof. unfold log_vote, Quorum_log. pose proof (@Quorum.log_ends NormalMessage). ends_steps; done. Qed.
Lemma reset_ends i : reset i ≠ Diverge.
Proof. unfold reset. ends_steps. Qed.
Lemma hyb_updateCommand_ends m i : updateCommand m i ≠ Diverge.
Proof. unfold updateCommand. ends_steps. Qed.
Lemma hyb_updateCommandHash_ends m i : updateCommandHash m i ≠ Diverge.
Proof. unfold updateCommandHash. ends_steps. Qed.
Lemma hyb_checkCommandHash_ends c x : checkCommandHash c x ≠ Diverge.
Proof. unfold checkCommandHash. ends_steps. Qed.
Lemma with_certifier_ends {A} (op : TrInxEnclave U → outcome (A * TrInxEnclave U)) p :
  (∀ e, op e ≠ Diverge) → ends (with_certifier op) p.
Proof. intros Ho. unfold with_certifier. ends_steps. Qed.
Lemma wrapAndMarshal_ends m p : ends (wrapAndMarshal m) p.
Proof. unfold wrapAndMarshal. ends_steps. Qed.
#[local] Hint Resolve hyb_exec_ends hyb_get_inst_ends hyb_log_vote_ends reset_ends hyb_updateCommand_ends
  hyb_updateCommandHash_ends hyb_checkCommandHash_ends wrapAndMarshal_ends : go_ends.
Lemma hyb_broadcast_ends b c p : ends (broadcast b c) p.
Proof. unfold broadcast, sendTo. ends_steps. Qed.
Lemma hyb_broadcastNormal_ends m p : ends (broadcastNormal m) p.
Proof. unfold broadcastNormal. ends_steps. Qed.
Lemma marshalAndSign_ends m p : ends (marshalAndSignNormal m) p.
Proof. unfold marshalAndSignNormal. ends_steps. apply with_certifier_ends. intros e. ends_steps. Qed.
#[local] Hint Resolve hyb_broadcast_ends hyb_broadcastNormal_ends marshalAndSign_ends : go_ends.
Lemma broadcastVC_ends m p : ends (broadcastVC m) p.
Proof. unfold broadcastVC. ends_steps. apply with_certifier_ends. intros e. ends_steps. Qed.
Lemma broadcastNV_ends m p : ends (broadcastNV m) p.
Proof. unfold broadcastNV. ends_steps. apply with_certifier_ends. intros e. ends_steps. Qed.
Lemma broadcastNVA_ends m p : ends (broadcastNVA m) p.
Proof. unfold broadcastNVA. ends_steps. apply with_certifier_ends. intros e. ends_steps. Qed.
Lemma hyb_maybeCommit_ends s m p : ends (maybeCommit s m) p.
Proof. unfold maybeCommit. pose proof hyb_with_inst_ends as Hw. ends_steps; done. Qed.
Lemma hyb_fetch_ends checks m p : (∀ i, checks i ≠ Diverge) → ends (fetch_instance checks m) p.
Proof. intros Hc. unfold fetch_instance. ends_steps. Qed.
Lemma hyb_update_slot_ends m p : ends (update_slot m) p.
Proof. unfold update_slot. ends_steps. Qed.
#[local] Hint Resolve broadcastVC_ends broadcastNV_ends broadcastNVA_ends hyb_maybeCommit_ends hyb_update_slot_ends : go_ends.
Lemma hyb_onPrepare_ends m from p : ends (onPrepare m from) p.
Proof.
  unfold onPrepare. pose proof hyb_with_inst_ends as Hw. pose proof hyb_fetch_ends as Hfe.
  repeat (ends_step || (apply Hw; intros ?) || (apply Hfe; intros ?)).
Qed.
Lemma hyb_onCommit_ends m from p : ends (onCommit m from) p.
Proof.
  unfold onCommit. pose proof hyb_with_inst_ends as Hw. pose proof hyb_fetch_ends as Hfe.
  repeat (ends_step || (apply Hw; intros ?) || (apply Hfe; intros ?)).
Qed.
Lemma hyb_onRequest_ends cmd p : ends (onRequest cmd) p.
Proof.
  unfold onRequest. pose proof hyb_with_inst_ends as Hw. repeat (ends_step || (apply Hw; intros ?)).
Qed.
#[local] Hint Resolve hyb_onPrepare_ends hyb_onCommit_ends hyb_onRequest_ends : go_ends.

Lemma support_normal_ends h : support_normal h ≠ Diverge.
Proof. unfold support_normal. ends_steps. Qed.
#[local] Hint Resolve support_normal_ends : go_ends.
Lemma isCorrectAbortState_ends l v : isCorrectAbortState l v ≠ Diverge.
Proof. unfold isCorrectAbortState. apply bind_ends; [|done]. apply mapM_ends. intros h _. ends_steps. Qed.
Lemma isCorrectPrepareSet_ends l v : isCorrectPrepareSet l v ≠ Diverge.
Proof. induction l as [|h l IH]; simpl; [done|]. ends_steps; done. Qed.
#[local] Hint Resolve isCorrectAbortState_ends isCorrectPrepareSet_ends : go_ends.
Lemma isCorrectViewTransition_ends l v a : isCorrectViewTransition l v a ≠ Diverge.
Proof. unfold isCorrectViewTransition. ends_steps. Qed.
Lemma isCorrectViewChange_ends m c cert : isCorrectViewChange m c cert ≠ Diverge.
Proof. unfold isCorrectViewChange. ends_steps. Qed.
Lemma isCorrectNewViewAck_ends n v : isCorrectNewViewAck n v ≠ Diverge.
Proof. unfold isCorrectNewViewAck. ends_steps. Qed.
#[local] Hint Resolve isCorrectViewTransition_ends isCorrectViewChange_ends isCorrectNewViewAck_ends : go_ends.
Lemma isCorrectViewChangeCertificate_ends g l from to : isCorrectViewChangeCertificate g l from to ≠ Diverge.
Proof.
  unfold isCorrectViewChangeCertificate. case_bool_decide; [done|]. apply bind_ends; [|by intros []].
  apply for_out_ends. intros vcp [] _. ends_steps.
Qed.
#[local] Hint Resolve isCorrectViewChangeCertificate_ends : go_ends.
Lemma isCorrectNewViewCertificate_ends g l acks from to : isCorrectNewViewCertificate g l acks from to ≠ Diverge.
Proof.
  unfold isCorrectNewViewCertificate. apply bind_ends; [auto with go_ends|]. intros [[]|] _; [|done].
  apply bind_ends; [|by intros []]. apply for_out_ends. intros n [] _; ends_steps.
Qed.
Lemma leaderOfView_ends v p : leaderOfView v p ≠ Diverge.
Proof. unfold leaderOfView. by case_decide. Qed.
#[local] Hint Resolve isCorrectNewViewCertificate_ends leaderOfView_ends : go_ends.
Lemma isCorrectNewView_ends n from p : isCorrectNewView n from p ≠ Diverge.
Proof.
  unfold isCorrectNewView. ends_steps. apply mapM_ends. intros s _. ends_steps.
Qed.
#[local] Hint Resolve isCorrectNewView_ends : go_ends.

Lemma installOrderingState_ends l p : ends (installOrderingState l) p.
Proof. unfold installOrderingState. ends_steps. Qed.
#[local] Hint Resolve installOrderingState_ends : go_ends.
Lemma abortStateReceived_ends v l p : ends (abortStateReceived v l) p.
Proof. unfold abortStateReceived, installAbortState. ends_steps. Qed.
Lemma enterView_ends v l p : ends (enterView v l) p.
Proof. unfold enterView. ends_steps. Qed.
Lemma transition_loop_ends v l outprs prs p : ends (transition_loop v l outprs prs) p.
Proof. revert outprs prs p. induction l as [|opr l IH]; intros outprs prs p; simpl; ends_steps; apply IH. Qed.
Lemma leaveViewFor_ends v p : ends (leaveViewFor v) p.
Proof. unfold leaveViewFor, createAbortState. ends_steps. Qed.
#[local] Hint Resolve abortStateReceived_ends enterView_ends transition_loop_ends leaveViewFor_ends : go_ends.
Lemma trySendNewView_ends from to p : ends (trySendNewView from to) p.
Proof.
  unfold trySendNewView, createViewTransition. pose proof hyb_with_inst_ends as Hw.
  repeat (ends_step || (apply Hw; intros ?)).
Qed.
Lemma onNewViewReady_ends m p : ends (onNewViewReady m) p.
Proof. unfold onNewViewReady. ends_steps. Qed.
#[local] Hint Resolve trySendNewView_ends onNewViewReady_ends : go_ends.

Lemma hyb_Step_ends msg p : ends (Step msg) p.
Proof.
  unfold Step, stepNormal, onViewChange, onNewView, onNewViewAck, installViewChange. cbv zeta. ends_steps.
Qed.
Lemma send_signed_ends j cert p : ends (send_signed j cert) p.
Proof. unfold send_signed, sendTo. cbv zeta. ends_steps. Qed.
Lemma send_signed_callbacks j cert p : keeps p_callbackC (send_signed j cert) p.
Proof. unfold send_signed, sendTo. cbv zeta. keeps_steps. Qed.
Lemma hyb_AsyncCallback_ends p : ends AsyncCallback p.
Proof.
  change (ends (loop (S (length (p_callbackC p))) AsyncCallback_body) p).
  apply (loop_ends (λ _, True) (λ p, length (p_callbackC p))); [|done|lia].
  pose proof send_signed_ends. intros p1 _. split; unfold AsyncCallback_body.
  - ends_steps; done.
  - wp_step. wp_step. destruct (p_callbackC p1) as [|[j r] cbs] eqn:Hc; [by wp_step|].
    wp_step. wp_step. wp_step. eapply wp_mono; [apply send_signed_callbacks|]. simpl. intros _ p2 E. wp_step.
    intros _. split; [done|]. rewrite E. simpl. lia.
Qed.
End ends.

(** ** What a new view rests on *)
Section new_views.
Context {U : Type} `{GoEnv, GoSort, Codec Command, Codec HybsterMessage, Trinx U}.
Implicit Types (p : hybster U).

(** A support is a normal message of view [v] under a counter certificate. *)
Definition supported (v : Z) (s : Support) (prp : prPkg) : Prop :=
  ∃ pr, support_normal s = Ret pr ∧ prp = support_pkg pr s ∧ m_View pr = v ∧
    VerifyIndependentCounterCertificate (su_RawMsg s) (su_Cert s) (counter_of (m_View pr) (m_Order pr)) 0 = Ret true.
(** A view-change message into [to], certified by the counter of its sender. *)
Definition justifies (from to : Z) (vcp : vcPkg) (vc : ViewChangeMessage) (prs : list prPkg) : Prop :=
  vk_vc vcp = Some vc ∧ (vc_FromView vc ≤ from)%Z ∧ vc_ToView vc = to ∧ (vc_FromView vc < to)%Z ∧
  VerifyContinuingCounterCertificate (vk_content vcp) (vk_cert vcp)
    (counter_of (vc_FromView vc) (vc_Order vc)) (u64 (Z.shiftl to 48)) 0 = Ret true ∧
  Forall2 (supported (vc_FromView vc)) (vc_History vc) prs.

Lemma isCorrectAbortState_spec l v o :
  isCorrectAbortState l v = Ret o → ∃ prs, o = Some prs ∧ Forall2 (supported v) l prs.
Proof.
  unfold isCorrectAbortState. intros Hr. destruct (mapM _ l) as [prs| |] eqn:Hm; [|done..].
  simpl in Hr. injection Hr as <-. exists prs. split; [done|]. apply mapM_Ret in Hm.
  eapply Forall2_impl; [exact Hm|]. intros s prp Hs. cbv beta in Hs.
  destruct (support_normal s) as [pr| |] eqn:Hp; [|done..]. simpl in Hs.
  destruct (VerifyIndependentCounterCertificate _ _ _ _) as [[]| |] eqn:Hv; [|done..]. simpl in Hs.
  case_bool_decide as Hview; [done|]. injection Hs as <-. exists pr. by split_and!.
Qed.
Lemma isCorrectPrepareSet_spec l v o :
  isCorrectPrepareSet l v = Ret o → ∀ prs, o = Some prs → Forall2 (supported v) l prs.
Proof.
  revert o. induction l as [|s l IH]; intros o; simpl; [intros [= <-] prs [= <-]; constructor|].
  destruct (support_normal s) as [pr| |] eqn:Hp; [|done..]. simpl. case_bool_decide as Hview; [by intros [= <-]|].
  destruct (VerifyIndependentCounterCertificate _ _ _ _) as [[]| |] eqn:Hv; [|done..]. simpl.
  destruct (isCorrectPrepareSet l v) as [o'| |] eqn:Hl; [|done..]. simpl. intros [= <-] prs.
  destruct o' as [prs'|]; [|done]. intros [= <-]. constructor; [|by apply (IH _ eq_refl)].
  exists pr. by split_and!.
Qed.
Lemma isCorrectViewChange_spec m content cert o vcp from to prs :
  isCorrectViewChange m content cert = Ret o → vcp = mkVcp (Some m) content cert (vk_from vcp) →
  (vc_FromView m ≤ from)%Z → vc_ToView m = to → o = Some prs → justifies from to vcp m prs.
Proof.
  intros Hr -> Hfr <- ->. unfold isCorrectViewChange in Hr. case_bool_decide; [done|].
  destruct (VerifyContinuingCounterCertificate _ _ _ _ _) as [[]| |] eqn:Hv; [|done..]. simpl in Hr.
  apply isCorrectAbortState_spec in Hr as (prs' & [= <-] & Hs). split_and!; try done. simpl. lia.
Qed.

(** Sorting adds nothing. *)
Lemma add_prs_elem prs l prp : prp ∈ add_prs prs l → prp ∈ l ∨ prp ∈ prs.
Proof.
  unfold add_prs. rewrite sort_Slice_perm, elem_of_app, list_elem_of_filter. tauto.
Qed.
(** The accumulated prepares are those of the view changes that were counted. *)
Definition counted (from to : Z) (l vcpsQ : list vcPkg) (prpsQ : list prPkg) : Prop :=
  sublist vcpsQ l ∧ (∀ vcp, vcp ∈ vcpsQ → ∃ vc prs, justifies from to vcp vc prs) ∧
  ∀ prp, prp ∈ prpsQ → ∃ vcp vc prs, vcp ∈ vcpsQ ∧ justifies from to vcp vc prs ∧ prp ∈ prs.
Lemma isCorrectViewChangeCertificate_spec g l from to vcpsQ prpsQ :
  isCorrectViewChangeCertificate g l from to = Ret (Some (vcpsQ, prpsQ)) →
  (g < Z.of_nat (length vcpsQ))%Z ∧ counted from to l vcpsQ prpsQ.
Proof.
  unfold isCorrectViewChangeCertificate. case_bool_decide; [done|].
  destruct (for_out _ _ _) as [[vs ps]| |] eqn:Hl; [|done..]. simpl. case_bool_decide; [|done]. intros [= <- <-].
  split; [done|]. refine (for_out_inv (λ done '(vs, ps), counted from to done vs ps) _ _ _ (vs, ps) _ _ Hl).
  - clear. intros done vcp [vs ps] [vs' ps'] (Hsub & Hj & Hp) Hb.
    assert (counted from to (done ++ [vcp]) vs ps) as Hskip.
    { split; [|done]. by apply sublist_inserts_r. }
    destruct (vk_vc vcp) as [vc|] eqn:Hvc; [|done]. case_bool_decide; [by injection Hb as <- <-|].
    case_bool_decide as Hto; [by injection Hb as <- <-|].
    destruct (isCorrectViewChange _ _ _) as [o| |] eqn:Hv; [|done..]. simpl in Hb.
    destruct o as [prs|]; injection Hb as <- <-; [|done].
    assert (justifies from to vcp vc prs) as Hjust.
    { eapply isCorrectViewChange_spec; [exact Hv| |lia|done..]. rewrite <-Hvc. by destruct vcp. }
    split; [by apply sublist_app|]. split.
    + intros v [?|Hv']%elem_of_app; [by apply Hj|]. apply list_elem_of_singleton in Hv' as ->. by exists vc, prs.
    + intros prp [Hin|Hin]%add_prs_elem.
      * destruct (Hp prp Hin) as (v & vc' & prs' & Hv' & ?). exists v, vc', prs'. rewrite elem_of_app. by split; [left|].
      * exists vcp, vc, prs. rewrite elem_of_app, list_elem_of_singleton. by split; [right|].
  - split; [done|]. by split; intros ? ?%not_elem_of_nil.
Qed.

(** What an ack that is taken brings. *)
Definition acked (from : Z) (nvap : nvaPkg) (prs : list prPkg) : Prop :=
  VerifyContinuingCounterCertificate (ak_content nvap) (ak_cert nvap) 0 0 2 = Ret true ∧
  Forall2 (supported from) (nva_History (ak_nva nvap)) prs.
Lemma isCorrectNewViewAck_spec nvap from prs : isCorrectNewViewAck nvap from = Ret (Some prs) → acked from nvap prs.
Proof.
  unfold isCorrectNewViewAck. destruct (VerifyContinuingCounterCertificate _ _ _ _ _) as [[]| |] eqn:Hv; [|done..].
  simpl. intros (prs' & [= <-] & Hs)%isCorrectAbortState_spec. by split.
Qed.
(** The prepare is one of a view change that was counted, or of an ack. *)
Definition covered (from to : Z) (vcpsQ : list vcPkg) (acks : list nvaPkg) (prp : prPkg) : Prop :=
  (∃ vcp vc prs, vcp ∈ vcpsQ ∧ justifies from to vcp vc prs ∧ prp ∈ prs) ∨
  (∃ nvap prs, nvap ∈ acks ∧ acked from nvap prs ∧ prp ∈ prs).
Lemma isCorrectNewViewCertificate_spec g l acks from to vcpsQ prpsQ :
  isCorrectNewViewCertificate g l acks from to = Ret (Some (vcpsQ, prpsQ)) →
  sublist vcpsQ l ∧ (g < Z.of_nat (length vcpsQ))%Z ∧
  (∀ vcp, vcp ∈ vcpsQ → ∃ vc prs, justifies from to vcp vc prs) ∧ ∀ prp, prp ∈ prpsQ → covered from to vcpsQ acks prp.
Proof.
  unfold isCorrectNewViewCertificate. destruct (isCorrectViewChangeCertificate _ _ _ _) as [[[vs ps]|]| |] eqn:Hc; try done.
  apply isCorrectViewChangeCertificate_spec in Hc as (Hn & Hsub & Hj & Hp). simpl.
  destruct (for_out _ _ _) as [o| |] eqn:Hl; [|done..]. simpl. destruct o as [ps'|]; [|done].
  case_bool_decide; [|done]. intros [= <- <-]. split_and!; [done..|].
  refine (for_out_inv (λ done o, ∀ ps', o = Some ps' → ∀ prp, prp ∈ ps' → covered from to vs done prp) _ _ _ _ _ _ Hl ps' eq_refl).
  - clear. intros done nvap o o' Hd Hb qs -> prp Hin. destruct o as [ps|]; [|done].
    destruct (isCorrectNewViewAck nvap from) as [prs| |] eqn:Ha; [|done..]. simpl in Hb.
    destruct prs as [prs|]; [|done]. injection Hb as <-. apply isCorrectNewViewAck_spec in Ha.
    apply add_prs_elem in Hin as [Hin|Hin].
    + destruct (Hd _ eq_refl _ Hin) as [?|(n & prs' & Hn & ?)]; [by left|right]. exists n, prs'.
      rewrite elem_of_app. by split; [left|].
    + right. exists nvap, prs. rewrite elem_of_app, list_elem_of_singleton. by split; [right|].
  - intros qs [= <-] prp Hin. left. by apply Hp.
Qed.

(** A prepare with a greater order is among the covering ones. *)
Lemma order_covered_spec l prp :
  order_covered l prp = true → ∃ a, a ∈ l ∧ (m_Order (pk_pr prp) ≤ m_Order (pk_pr a))%Z.
Proof.
  unfold order_covered. rewrite negb_true_iff, bool_decide_eq_false. intros Hne.
  set (g := λ a, bool_decide (m_Order (pk_pr prp) ≤ m_Order (pk_pr a))%Z) in *.
  destruct (search_list_found g l) as (a & Ha & Hg); [pose proof (search_list_le g l); lia|].
  exists a. split; [by eapply list_elem_of_lookup_2|]. by apply bool_decide_eq_true in Hg.
Qed.
End new_views.

(** ** View changes that nobody asks for *)

(** The marshaller keeps what a message is. *)
Class HybKindLaws `{Codec HybsterMessage} := {
  Unmarshal_kind m b m' : Marshal m = Some b → Unmarshal b = Some m' → GetViewChange m = None → GetViewChange m' = None;
}.
Section no_view_change.
Context {U : Type} `{GoEnv, GoSort, Codec Command, Codec HybsterMessage, Trinx U, !HybKindLaws}.
Implicit Types (p : hybster U).

(** The bytes of a message that is no view change. *)
Definition other_bytes (b : bytes) : Prop := ∀ m, Unmarshal b = Some m → GetViewChange m = None.
Definition asks_nothing (h : list ExecPacket) p : Prop :=
  (∀ m, m ∈ p_msgs p → other_bytes (msg_Content m)) ∧ (∀ j, j ∈ jobs p → other_bytes (j_mBytes j)).
#[local] Arguments Worker.Exec : simpl never.
#[local] Arguments Worker.pending : simpl never.

Definition out p := (p_msgs p, p_signDispatcher p, p_callbackC p).
Lemma keeps_out_inv h {A} (m : M (hybster U) A) : (∀ p, keeps out m p) → preserves (asks_nothing h) m.
Proof.
  apply preserves_keeps. unfold out, asks_nothing, jobs. intros p p' [= E1 E2 E3]. by rewrite E1, E2, E3.
Qed.
Lemma marshal_other m h p :
  GetViewChange m = None → asks_nothing h p → wp (wrapAndMarshal m) (λ b p', asks_nothing h p' ∧ other_bytes b) p.
Proof.
  intros Hm Hp. unfold wrapAndMarshal. destruct (Marshal m) as [b|] eqn:Hb; [|done]. wp_step. split; [done|].
  intros m' Hu. by eapply Unmarshal_kind.
Qed.
Lemma sendTo_asks h to b c p : other_bytes b → asks_nothing h p → wp (sendTo to b c) (λ _, asks_nothing h) p.
Proof.
  intros Hb [Hm Hj]. unfold sendTo. wp_step. split; [|done]. cbn.
  intros m [?|Hin]%elem_of_app; [by apply Hm|]. by apply list_elem_of_singleton in Hin as ->.
Qed.
Lemma hyb_broadcast_asks h b c p : other_bytes b → asks_nothing h p → wp (broadcast b c) (λ _, asks_nothing h) p.
Proof.
  intros Hb Hp. unfold broadcast. wp_step. wp_step. apply wp_for_each; [|done]. intros node p1 _ Hp1.
  wp_step; [|done]. by apply sendTo_asks.
Qed.
Lemma broadcastNormal_asks h m : preserves (asks_nothing h) (broadcastNormal m).
Proof.
  intros p Hp. unfold broadcastNormal. wp_step. eapply wp_mono; [by apply marshal_other|]. simpl.
  intros b p1 [[Hm Hj] Hb]. wp_step. split; [done|]. intros j. unfold jobs. cbn.
  rewrite elem_of_app, Worker.Exec_pending, elem_of_cons. intros [[->|?]|?]; [done|..]; apply Hj; unfold jobs;
    rewrite elem_of_app; tauto.
Qed.
Lemma with_certifier_out {A} (op : TrInxEnclave U → outcome (A * TrInxEnclave U)) p : keeps out (with_certifier op) p.
Proof. unfold with_certifier. keeps_steps. Qed.
(** The broadcasts of the view change: [g] is what the sender stores. *)
Lemma broadcast_asks h m (op : bytes → TrInxEnclave U → outcome (bytes * TrInxEnclave U))
    (g : bytes → bytes → hybster U → hybster U) :
  GetViewChange m = None → (∀ b c p, out (g b c p) = out p) →
  preserves (asks_nothing h)
    (mBytes ← wrapAndMarshal m; cert ← with_certifier (op mBytes); modify (g mBytes cert);; broadcast mBytes cert).
Proof.
  intros Hm Hg p Hp. wp_step. eapply wp_mono; [by apply marshal_other|]. simpl. intros b p1 [Hp1 Hb]. wp_step.
  eapply wp_mono; [by apply (keeps_out_inv h); [apply with_certifier_out|]|]. simpl. intros cert p2 Hp2.
  wp_step. wp_step. apply hyb_broadcast_asks; [done|].
  specialize (Hg b cert p2). unfold out in Hg. injection Hg as E1 E2 E3. unfold asks_nothing, jobs in *.
  by rewrite E1, E2, E3.
Qed.
Lemma broadcastNV_asks h m : preserves (asks_nothing h) (broadcastNV m).
Proof. by apply (broadcast_asks h (HybsterMessage_NewView m) (λ b, _) (λ _ _ p, _)). Qed.
Lemma broadcastNVA_asks h m : preserves (asks_nothing h) (broadcastNVA m).
Proof. by apply (broadcast_asks h (HybsterMessage_NewViewAck m) (λ b, _) (λ b cert p, p <| p_nvamsgs ::= λ l, l ++ [mkNvap m b cert (p_id p)] |>)). Qed.

Lemma hyb_exec_out p : keeps out exec p.
Proof. unfold exec, exec_body, Execute. keeps_steps. Qed.
Lemma hyb_with_inst_out s g p : keeps out (with_inst s g) p.
Proof. unfold with_inst. keeps_steps. Qed.
#[local] Hint Resolve hyb_exec_out hyb_with_inst_out with_certifier_out : go_keeps.
Lemma hyb_maybeCommit_out s m p : keeps out (maybeCommit s m) p.
Proof. unfold maybeCommit, get_inst. keeps_steps. Qed.
Lemma hyb_fetch_out checks m p : keeps out (fetch_instance checks m) p.
Proof. unfold fetch_instance. keeps_steps. Qed.
Lemma hyb_update_slot_out m p : keeps out (update_slot m) p.
Proof. unfold update_slot. keeps_steps. Qed.
Lemma installOrderingState_out l p : keeps out (installOrderingState l) p.
Proof. unfold installOrderingState. keeps_steps. Qed.
Lemma marshalAndSign_out m p : keeps out (marshalAndSignNormal m) p.
Proof. unfold marshalAndSignNormal, wrapAndMarshal. keeps_steps. Qed.
#[local] Hint Resolve hyb_maybeCommit_out hyb_fetch_out hyb_update_slot_out installOrderingState_out marshalAndSign_out : go_keeps.
Lemma abortStateReceived_out v l p : keeps out (abortStateReceived v l) p.
Proof. unfold abortStateReceived, installAbortState. keeps_steps. Qed.
Lemma enterView_out v l p : keeps out (enterView v l) p.
Proof. unfold enterView. keeps_steps. Qed.
Lemma transition_loop_out v l outprs prs p : keeps out (transition_loop v l outprs prs) p.
Proof. revert outprs prs p. induction l as [|opr l IH]; intros outprs prs p; simpl; keeps_steps; apply IH. Qed.
#[local] Hint Resolve abortStateReceived_out enterView_out transition_loop_out : go_keeps.

(** A leaf: a broadcast, or a part that sends nothing. *)
Ltac asks_step :=
  first [ preserves_step
        | apply broadcastNormal_asks | apply broadcastNV_asks | apply broadcastNVA_asks
        | apply (keeps_out_inv _); intros ?; solve [keeps_steps] ].
Lemma hyb_onPrepare_asks h m from : preserves (asks_nothing h) (onPrepare m from).
Proof. unfold onPrepare. repeat asks_step. Qed.
Lemma hyb_onCommit_asks h m from : preserves (asks_nothing h) (onCommit m from).
Proof. unfold onCommit. repeat asks_step. Qed.
Lemma hyb_onRequest_asks h cmd : preserves (asks_nothing h) (onRequest cmd).
Proof. unfold onRequest. repeat asks_step. Qed.
#[local] Hint Resolve hyb_onPrepare_asks hyb_onCommit_asks : go_inv.
Lemma trySendNewView_asks h from to : preserves (asks_nothing h) (trySendNewView from to).
Proof. unfold trySendNewView, createViewTransition. cbv zeta. repeat asks_step. Qed.
Lemma onNewViewReady_asks h m : preserves (asks_nothing h) (onNewViewReady m).
Proof. unfold onNewViewReady. cbv zeta. repeat asks_step. Qed.
#[local] Hint Resolve trySendNewView_asks onNewViewReady_asks : go_inv.

(** A relevant view change is one that the replica has left its view for. *)
Lemma relevant_left m from p :
  isRelevantViewChange m from p = true → p_curView p ≠ p_stableView p ∧ vc_ToView m = p_curView p.
Proof.
  unfold isRelevantViewChange. case_bool_decide; [done|]. destruct (_ || _) eqn:Hb; [done|]. intros _.
  apply orb_false_iff in Hb as [_ Hb%negb_false_iff]. by apply andb_true_iff in Hb as [?%bool_decide_eq_true ?%bool_decide_eq_true].
Qed.
Lemma onViewChange_asks h m content cert from : preserves (asks_nothing h) (onViewChange m content cert from).
Proof.
  intros p Hp. unfold onViewChange. wp_step. wp_step. wp_step; [by wp_step|].
  match goal with Hr : negb _ = false |- _ => apply negb_false_iff, relevant_left in Hr as [Hne Hto] end.
  wp_step. apply wp_lift. intros [prs|] _; [|done]. wp_step.
  eapply wp_mono.
  { apply (wp_and _ (λ _, asks_nothing h) (λ _ p', p_curView p' = p_curView p)).
    - revert Hp. apply (keeps_out_inv h). intros p1. unfold installViewChange. keeps_steps.
    - change (keeps p_curView (installViewChange (mkVcp (Some m) content cert from) (vc_ToView m) prs) p).
      unfold installViewChange, abortStateReceived, installAbortState, installOrderingState. keeps_steps. }
  simpl. intros _ p1 [Hp1 Ec]. wp_step. wp_step. rewrite Ec, <-Hto. rewrite (bool_decide_false (vc_ToView m < _)%Z) by lia.
  rewrite andb_false_r. simpl. by apply trySendNewView_asks.
Qed.
#[local] Hint Resolve onViewChange_asks : go_inv.
Lemma hyb_Step_asks h msg : preserves (asks_nothing h) (Step msg).
Proof. unfold Step, stepNormal, onNewView, onNewViewAck, installViewChange. cbv zeta. repeat asks_step. Qed.
Lemma hyb_AsyncCallback_asks h : preserves (asks_nothing h) AsyncCallback.
Proof.
  unfold AsyncCallback. apply preserves_bind; [apply preserves_get|]. intros p0. apply preserves_loop. intros p Hp.
  unfold AsyncCallback_body, send_signed. wp_step. wp_step. destruct (p_callbackC p) as [|[j cert] rest] eqn:Hc; [by wp_step|].
  assert (other_bytes (j_mBytes j)) as Hb.
  { apply (proj2 Hp). unfold jobs. rewrite Hc, elem_of_app. right. left. }
  wp_step. wp_step. wp_step. wp_step. wp_step. wp_step.
  assert (asks_nothing h (p <| p_callbackC := rest |>)) as Hp'.
  { destruct Hp as [Hm Hj]. split; [done|]. intros j' Hj'. apply Hj. unfold jobs in *. cbn in Hj'.
    rewrite Hc. rewrite !elem_of_app, fmap_cons, elem_of_cons in *. tauto. }
  eapply wp_mono; [revert Hp'; apply (keeps_out_inv h); intros ?; keeps_steps|]. simpl. intros _ p1 Hp1.
  apply (wp_mono _ (λ _, asks_nothing h)); [|intros _ p2 Hp2; by wp_step]. apply wp_for_each; [|done].
  intros node p2 _ Hp2. wp_step; [|done]. wp_step. apply wp_lift. intros part _. by apply sendTo_asks.
Qed.
Lemma asks_invariant cap : run_invariant (pools_step cap) asks_nothing.
Proof.
  split.
  - intros [msg|c| |cb| |] h p _ Hp; simpl.
    + by apply hyb_Step_asks.
    + by apply hyb_onRequest_asks.
    + by unfold Tick; wp_step.
    + by unfold Callback; wp_step.
    + by apply hyb_AsyncCallback_asks.
    + unfold ClearMsgs. wp_step. split; [by intros m ?%not_elem_of_nil|apply Hp].
  - intros h p p' [e Hw] [Hm Hj].
    assert (p_msgs p' = p_msgs p ∧ ∀ j, j ∈ jobs p' → j ∈ jobs p) as [E Hin]; [|split; [by rewrite E|auto]].
    destruct e as [e|k]; simpl in Hw.
    + assert (∃ (run : job → bytes) d cbs, Worker.step run cap e (p_signDispatcher p) (p_callbackC p) = Some (d, cbs) ∧
        jobs p' = Worker.pending d ++ cbs.*1 ∧ p_msgs p' = p_msgs p) as (run & d & cbs & Hs & Ej & Em).
      { destruct e as [k| | |k]; [| | |apply bind_Some in Hw as (sg & _ & Hw)];
          apply bind_Some in Hw as ([d cbs] & Hs & [= <-]); (eexists _, d, cbs; split; [exact Hs|done]). }
      split; [done|]. intros j. rewrite Ej. unfold jobs. rewrite !elem_of_app. apply Worker.step_jobs in Hs as [Hd Hcb].
      intros [?%Hd|([j' r] & -> & [Hx|[Hx _]]%Hcb)%list_elem_of_fmap]; [by left| |by left].
      right. by apply (list_elem_of_fmap_2 fst _ (j', r)).
    + destruct (_ ≫= Worker.running) as [j|]; [|done]. destruct (p_signed p !! k); [done|].
      destruct (CreateIndependentCounterCertificateVector _ _ _ _) as [[cert e]| |]; [|done..]. by injection Hw as <-.
  - intros h p Hp. simpl. unfold MakeReady, ClearMsgs, ClearExecutedCommands. wp_step. intros sent.
    wp_step. wp_step; wp_step; [wp_step; split; [by intros m ?%not_elem_of_nil|apply Hp]|exact Hp].
Qed.
Lemma NewHybster_asks c u p : NewHybster c u = Ret p → asks_nothing [] p.
Proof.
  unfold NewHybster. destruct (cfg_SecretKeys c) as [|[] ?]; [done..|]. intros [= <-].
  split; [by intros m ?%not_elem_of_nil|]. intros j. unfold jobs. cbn.
  rewrite Worker.NewDispatcher_pending. by intros ?%not_elem_of_nil.
Qed.
End no_view_change.

Section hyb_properties.
Context {U : Type} `{GoEnv, GoSort, Codec Command, Codec HybsterMessage, Trinx U}.
Implicit Types (p : hybster U).

(** C32. Termination: from every state, every message, request, run of the
    callbacks and change of view ends. *)
Theorem hyb_terminates msg cmd v p :
  Hybster.Step msg p ≠ Diverge ∧ Hybster.Request cmd p ≠ Diverge ∧ Hybster.AsyncCallback p ≠ Diverge ∧
  leaveViewFor v p ≠ Diverge.
Proof.
  split_and!; [apply hyb_Step_ends|apply hyb_onRequest_ends|apply hyb_AsyncCallback_ends|apply leaveViewFor_ends].
Qed.

(** The commands that a replica has executed. *)
Definition commands (h : list ExecPacket) p : list Command := x_Cmd <$> (h ++ p_executedCmds p).

(** C8. Agreement within a view, however many replicas are faulty: let the counters
    of the enclaves be what ties each of the [2f + 1] replicas to one vote per
    slot ([counted]).  Two replicas that get no requests and no view-change
    messages, under any peers and schedules of the signing pool, execute for every
    k k-th commands of one hash, up to [Equal]. *)
Theorem hyb_agreement `{!GoEnvLaws, !HybCodecLaws} cap (replicas : gset Z) (f : nat) (view : Z)
    (counted : Z → Z → slice → Prop) (config : Z → Config) (enclave : Z → U)
    (start final : Z → hybster U) (taken : Z → list ExecPacket) r1 r2 :
  let heard j s x := j ∈ replicas ∧ counted j s x ∧
    (j = r1 ∨ j = r2 → sent cap view (start j) (taken j) (final j) s x) in
  (∀ c : Command, is_Some (Marshal c)) → size replicas = 2 * f + 1 →
  (∀ j s x x', counted j s x → counted j s x' → x ≈ x') →
  (∀ r, r = r1 ∨ r = r2 → r ∈ replicas ∧ cfg_ID (config r) = r ∧ cfg_MaxFailures (config r) = Z.of_nat f ∧
    cfg_LeaderID (config r) = view ∧ NewHybster (config r) (enclave r) = Ret (start r) ∧
    runs_with (pools_step cap) (hears view heard) [] (start r) (taken r) (final r)) →
  ∀ k c1 c2, commands (taken r1) (final r1) !! k = Some c1 → commands (taken r2) (final r2) !! k = Some c2 →
    ∃ x, has_hash c1 (Some x) ∧ has_hash c2 (Some x).
Proof.
  intros heard Hmar Hn Huniq Hruns k c1 c2 Hk1 Hk2.
  assert (∀ j s x, j = r1 ∨ j = r2 → sent cap view (start j) (taken j) (final j) s x → fixed (final j) s x) as Hfix.
  { intros j s x Hj Hs. destruct (Hruns j Hj) as (_ & _ & Ef & <- & Hnew & _).
    eapply hyb_sent_fixed; [done|rewrite Ef; lia|done|done]. }
  assert (∀ r c, r = r1 ∨ r = r2 → commands (taken r) (final r) !! k = Some c →
    ∃ x (A : gset Z), has_hash c (Some x) ∧ A ⊆ replicas ∧ f < size A ∧ ∀ j, j ∈ A →
      (j = r1 ∨ j = r2 → fixed (final j) (u64 (1 + Z.of_nat k)) (Some x)) ∧
      (¬ (j = r1 ∨ j = r2) → ∃ x', counted j (u64 (1 + Z.of_nat k)) x' ∧ Some x ≈ x')) as Hex.
  { intros r c Hr Hc. destruct (Hruns r Hr) as (Hin & Eid & Ef & Ev & Hnew & Hrun). rewrite <-Ev in Hrun.
    assert (0 ≤ cfg_MaxFailures (config r))%Z as Hf by (rewrite Ef; lia).
    pose proof (runs_with_inv _ _ _ _ _ _ _ (hyb_config_invariant Hmar _ heard ∅ cap Hf) Hrun
      (NewHybster_inv heard _ _ _ Hnew)) as Hinv.
    apply list_lookup_fmap_Some in Hc as (pkt & -> & Hpkt).
    destruct (hv_done _ _ _ _ _ _ _ Hinv k pkt Hpkt) as (i & x & Hi & Hco & Hx & Hh).
    destruct (io_commit _ _ _ _ _ (hv_log _ _ _ _ _ _ _ Hinv _ _ Hi) Hco) as (_ & A & Hsz & HA).
    rewrite Hx, Eid, Ef in *. exists x, A. split; [done|]. split.
    { intros j Hj. by destruct (HA j Hj) as [->|(h' & [? _] & _)]. }
    split; [lia|]. intros j Hj. split.
    - intros Hjr. destruct (HA j Hj) as [->|(h' & (_ & _ & Hs) & He)].
      + exists i. rewrite Hx. by split_and!.
      + destruct (Hfix _ _ _ Hjr (Hs Hjr)) as (i' & ? & ? & ?). exists i'. split_and!; [done..|]. by etrans.
    - intros Hjr. destruct (HA j Hj) as [->|(h' & (_ & ? & _) & He)]; [by destruct Hjr|]. by exists h'. }
  destruct (Hex r1 c1 ltac:(by left) Hk1) as (x1 & A1 & Hh1 & HA1 & Hs1 & Hv1).
  destruct (Hex r2 c2 ltac:(by right) Hk2) as (x2 & A2 & Hh2 & HA2 & Hs2 & Hv2).
  destruct (Quorum.sets_correct_overlap replicas A1 A2 ∅ 0) as (j & Hj1 & Hj2 & _); [done..|lia|].
  destruct (Hv1 j Hj1) as [Ho1 Hc1], (Hv2 j Hj2) as [Ho2 Hc2]. exists x1. split; [done|].
  assert (Some x1 ≈ Some x2) as Heq; [|unfold slice_eqv in Heq; simpl in Heq; by subst].
  destruct (decide (j = r1 ∨ j = r2)) as [Hjr|Hjr].
  - destruct (Ho1 Hjr) as (i1 & Hi1 & _ & He1), (Ho2 Hjr) as (i2 & Hi2 & _ & He2).
    rewrite Hi1 in Hi2. injection Hi2 as <-. by etrans.
  - destruct (Hc1 Hjr) as (y1 & Hy1 & He1), (Hc2 Hjr) as (y2 & Hy2 & He2).
    etrans; [exact He1|]. etrans; [by eapply Huniq|done].
Qed.

(** C11. What a follower enters a view on: a new-view message comes from the leader
    of its view under the leader's counter; more than [f] of its proofs are
    view-change messages under the counters of their senders, with certified
    histories; its prepares are certified ones of the new view, and none is for a
    slot beyond all those that the view changes and the acks report. *)
Theorem hyb_new_view_justified m content cert from p vcps prs :
  isCorrectNewView (mkNvp m content cert) from p = Ret (Some (vcps, prs)) →
  leaderOfView (nv_ToView m) p = Ret from ∧
  VerifyIndependentCounterCertificate content cert (u64 (Z.shiftl (nv_ToView m) 48)) 1 = Ret true ∧
  Forall2 (supported (nv_ToView m)) (nv_History m) prs ∧
  ∃ vcpsQ, sublist vcpsQ vcps ∧ (p_f p < Z.of_nat (length vcpsQ))%Z ∧
    (∀ vcp, vcp ∈ vcpsQ → (∃ s, s ∈ nv_Proof m ∧ vk_content vcp = su_RawMsg s ∧ vk_cert vcp = su_Cert s) ∧
      ∃ vc hist, justifies (nv_FromView m) (nv_ToView m) vcp vc hist) ∧
    ∀ prp, prp ∈ prs → ∃ a, covered (nv_FromView m) (nv_ToView m) vcpsQ (p_nvamsgs p) a ∧
      (m_Order (pk_pr prp) ≤ m_Order (pk_pr a))%Z.
Proof.
  unfold isCorrectNewView. cbv zeta. cbn [nk_nv nk_content nk_cert].
  destruct (leaderOfView _ p) as [leader| |] eqn:Hl; [|done..]. cbn [mbind outcome_bind].
  case_bool_decide as Hlf; [done|]. subst leader.
  destruct (VerifyIndependentCounterCertificate _ _ _ _) as [[]| |] eqn:Hv; [|done..]. cbn [negb mbind outcome_bind].
  destruct (mapM _ (nv_Proof m)) as [vs| |] eqn:Hm; [|done..]. cbn [mbind outcome_bind].
  destruct (isCorrectNewViewCertificate _ _ _ _ _) as [[[vq pq]|]| |] eqn:Hc; [|done..]. cbn [mbind outcome_bind].
  destruct (isCorrectViewTransition _ _ _) as [[ps|]| |] eqn:Ht; [|done..]. cbn. intros [= -> ->].
  apply isCorrectNewViewCertificate_spec in Hc as (Hsub & Hn & Hj & Hcov).
  unfold isCorrectViewTransition in Ht. destruct (isCorrectPrepareSet _ _) as [[ps'|]| |] eqn:Hp; [|done..].
  cbn in Ht. destruct (forallb _ _) eqn:Hall; [|done]. injection Ht as ->.
  split_and!; [done..|by eapply isCorrectPrepareSet_spec|]. exists vq. split_and!; [done..| |].
  - intros vcp Hin. split; [|by apply Hj]. apply mapM_Ret in Hm.
    assert (vcp ∈ vcps) as (n & Hvn)%list_elem_of_lookup by by eapply elem_of_sublist.
    destruct (Forall2_lookup_r _ _ _ _ _ Hm Hvn) as (s & Hs & Hr). exists s. split; [by eapply list_elem_of_lookup_2|].
    destruct (Unmarshal (su_RawMsg s)); [|done]. by injection Hr as <-.
  - intros prp Hin. rewrite forallb_forall in Hall. apply list_elem_of_In, Hall, order_covered_spec in Hin as (a & Ha & ?).
    exists a. split; [by apply Hcov|done].
Qed.

(** Nobody ever asks for a new view: whatever a replica receives, none of the
    messages it sends is a view change.  [onViewChange] drops the view changes of
    others until the replica has left its view itself, and only tests make it. *)
Theorem hyb_never_leaves `{!HybKindLaws} cap c u p0 h p msg m :
  NewHybster c u = Ret p0 → runs (pools_step cap) [] p0 h p →
  msg ∈ p_msgs p → Unmarshal (msg_Content msg) = Some m → GetViewChange m = None.
Proof.
  intros Hn Hr Hmsg Hu.
  exact (proj1 (runs_inv _ _ _ _ _ _ (asks_invariant cap) Hr (NewHybster_asks c u p0 Hn)) _ Hmsg _ Hu).
Qed.
End hyb_properties.

(** ** Concrete runs *)
Module HybDemo.
Import Toy.
#[export] Instance wire_NormalMessage : Wire NormalMessage :=
  wire_iso (λ m, (m_Type m, m_View m, m_Order m, m_Command m, m_CommandHash m))
    (λ '(t, v, o, c, h), mkNM t v o c h) ltac:(by intros []).
#[export] Instance wire_Support : Wire Support :=
  wire_iso (λ s, (su_RawMsg s, su_Cert s, su_From s)) (λ '(r, c, f), mkSupport r c f) ltac:(by intros []).
#[export] Instance wire_ViewChange : Wire ViewChangeMessage :=
  wire_iso (λ m, (vc_FromView m, vc_ToView m, vc_Order m, vc_History m, vc_LastCtr m))
    (λ '(f, t, o, h, l), mkVC f t o h l) ltac:(by intros []).
#[export] Instance wire_NewView : Wire NewViewMessage :=
  wire_iso (λ m, (nv_FromView m, nv_ToView m, nv_Order m, nv_History m, nv_Proof m))
    (λ '(f, t, o, h, l), mkNV f t o h l) ltac:(by intros []).
#[export] Instance wire_NewViewAck : Wire NewViewAckMessage :=
  wire_iso (λ m, (nva_View m, nva_Order m, nva_History m)) (λ '(v, o, h), mkNVA v o h) ltac:(by intros []).
#[export] Instance wire_HybsterMessage : Wire HybsterMessage :=
  wire_iso (λ m, match m with
    | HybsterMessage_Normal m => (Some m, None, None, None)
    | HybsterMessage_ViewChange m => (None, Some m, None, None)
    | HybsterMessage_NewView m => (None, None, Some m, None)
    | HybsterMessage_NewViewAck m => (None, None, None, Some m)
    | HybsterMessage_nil => (None, None, None, None)
    end) (λ '(a, b, c, d), match a, b, c, d with
    | Some m, _, _, _ => HybsterMessage_Normal m
    | _, Some m, _, _ => HybsterMessage_ViewChange m
    | _, _, Some m, _ => HybsterMessage_NewView m
    | _, _, _, Some m => HybsterMessage_NewViewAck m
    | _, _, _, _ => HybsterMessage_nil
    end) ltac:(by intros []).
#[export] Instance HybsterMessage_codec : Codec HybsterMessage := wire_codec wire_HybsterMessage.
Lemma hyb_unmarshal m b : Marshal m = Some b → Unmarshal b = Some m.
Proof. apply wire_codec_law. Qed.
#[export] Instance HybsterMessage_laws : HybCodecLaws.
Proof. split. intros m b Hb%hyb_unmarshal. exists m. by split_and!. Qed.
#[export] Instance HybsterMessage_kinds : HybKindLaws.
Proof. split. intros m b m' Hb%hyb_unmarshal. rewrite Hb. by intros [= ->]. Qed.
#[export] Instance sort : GoSort := insertion_GoSort.

(** An enclave with three counters, which only go up; a MAC is a checksum. *)
Definition ctrs : Type := list Z.
Definition mac (continuing : bool) (ctrId oldtc tc : Z) (msg : bytes) : bytes :=
  le_encode 32 (checksum (put (continuing, ctrId, oldtc, tc, msg))).
Definition ctr (ctrId : Z) (u : ctrs) : Z := default 0%Z (u !! Z.to_nat ctrId).
#[export] Instance trinx : Trinx ctrs := {|
  trinx_create_independent_counter_certificate i tc msg u :=
    if bool_decide (tc ≤ ctr i u)%Z then None else Some (mac false i 0 tc msg, <[Z.to_nat i := tc]> u);
  trinx_create_independent_counter_certificate_vector i tc msg n u :=
    if bool_decide (tc ≤ ctr i u)%Z then None
    else Some (mjoin (replicate (n / 32) (mac false i 0 tc msg)), <[Z.to_nat i := tc]> u);
  trinx_create_continuing_counter_certificate i tc msg u :=
    if bool_decide (tc < ctr i u)%Z then None else Some (mac true i (ctr i u) tc msg, <[Z.to_nat i := tc]> u);
  trinx_verify_independent_counter_certificate i tc msg m := Some (bool_decide (m = mac false i 0 tc msg));
  trinx_verify_continuing_counter_certificate i o n msg m := Some (bool_decide (m = mac true i o n msg));
|}.

Definition enclave : ctrs := [0; 0; 0]%Z.
Definition config (j : Z) : Config := mkConfig j [0; 1; 2]%Z 0 1 [[x01]] {["mac_sign"%string := 1]}.
Definition start (j : Z) : hybster ctrs :=
  mkHybster j [0; 1; 2]%Z 1 {[0%Z := zero_instance]} 1 0 [] [] (mkEnclave ctrs 3 enclave) [] [] [] [] 0 0
    (Worker.NewDispatcher 1) ∅ [].
Lemma hyb_new_start j : NewHybster (config j) enclave = Ret (start j).
Proof. reflexivity. Qed.

Definition bytes_of (m : HybsterMessage) : bytes := default [] (Marshal m).
Lemma hyb_unmarshal_bytes m : Unmarshal (bytes_of m) = Some m.
Proof.
  unfold bytes_of. destruct (Marshal m) as [b|] eqn:Hb; [|by vm_compute in Hb].
  simpl. by apply hyb_unmarshal.
Qed.
Definition step (from : Z) (m : HybsterMessage) (cert : bytes) : act pool_event :=
  Do (Call_Step (mkMessage from 0 (bytes_of m) cert)).
(** The signing pool signs a message, and its callback sends it. *)
Definition work : list (act pool_event) :=
  (Other <$> [Pool (Worker.Register 0); Pool Worker.Take; Pool Worker.Assign; SignStep 0; Pool (Worker.Done 0)]) ++
  [Do Call_AsyncCallback].
Definition run_of (cap : nat) (acts : list (act pool_event)) (j : Z) : hybster ctrs :=
  do_acts (worker_step cap) acts (start j).
Lemma hyb_steps_pools cap e (p p' : hybster ctrs) : worker_step cap e p = Some p' → pools_step cap p p'.
Proof. by exists e. Qed.
Lemma hyb_run_of_run cap acts j : runs (pools_step cap) [] (start j) [] (run_of cap acts j).
Proof. apply acts_runs, hyb_steps_pools. Qed.

(** Replica 0 leads view 0, and replica 1, the faulty one, view 1. *)
Definition c1 : Command := cmd 1 5.
Definition c2 : Command := cmd 2 6.
Definition prepare (v : Z) (c : Command) : HybsterMessage :=
  HybsterMessage_Normal (mkNM NormalMessage_Prepare v 1 (Some c) (Command_Hash c).1).
Definition commit (v : Z) (c : Command) : HybsterMessage :=
  HybsterMessage_Normal (mkNM NormalMessage_Commit v 1 None (Command_Hash c).1).
(** Its view change reports the counter that it has used, and no history. *)
Definition view_change : HybsterMessage := HybsterMessage_ViewChange (mkVC 0 1 1 [] 0).
Definition new_view (cert : bytes) : HybsterMessage :=
  let s := mkSupport (bytes_of view_change) cert 1 in HybsterMessage_NewView (mkNV 0 1 0 [] [s; s]).
(** The four certificates, from one enclave: for its commit of [c1] in view 0, its
    view change, its new view and its proposal of [c2] in view 1. *)
Definition certificates : outcome (bytes * bytes * bytes * bytes) :=
  '(k1, e) ← CreateIndependentCounterCertificate (bytes_of (commit 0 c1)) (counter_of 0 1) 0 (mkEnclave ctrs 3 enclave);
  '(k2, e) ← CreateContinuingCounterCertificate (bytes_of view_change) (counter_of 1 0) 0 e;
  '(k3, e) ← CreateIndependentCounterCertificate (bytes_of (new_view k2)) (counter_of 1 0) 1 e;
  '(k4, e) ← CreateIndependentCounterCertificate (bytes_of (prepare 1 c2)) (counter_of 1 1) 0 e;
  Ret (k1, k2, k3, k4).
End HybDemo.

Section hyb_faults.
Import Toy HybDemo.

(** C36. A new view forgets what was committed: a history need not reach the counter
    that its view change reports, and one view change may be given [f + 1] times
    as proof.  With [f = 1] of three replicas faulty, and every certificate one
    that its enclave made, replica 0 executes [c1] in slot 1 in view 0, and replica
    2 another command in slot 1 in view 1. *)
Theorem hyb_view_change_forgets cap :
  0 < cap → ∃ k1 k2 k3 k4, certificates = Ret (k1, k2, k3, k4) ∧
  let p0 := run_of cap (Do (Call_Request c1) :: work ++ [step 1 (commit 0 c1) k1]) 0 in
  let p2 := run_of cap [step 1 (new_view k2) k3; step 1 (prepare 1 c2) k4] 2 in
  runs (pools_step cap) [] (start 0) [] p0 ∧ runs (pools_step cap) [] (start 2) [] p2 ∧
  commands [] p0 = [c1] ∧ commands [] p2 = [c2] ∧ (Command_Hash c1).1 ≠ (Command_Hash c2).1.
Proof.
  intros Hc. destruct certificates as [[[[k1 k2] k3] k4]| |] eqn:Hk; [|by vm_compute in Hk..].
  exists k1, k2, k3, k4. split; [done|]. intros p0 p2. split; [apply hyb_run_of_run|]. split; [apply hyb_run_of_run|].
  vm_compute in Hk. injection Hk as <- <- <- <-. destruct cap as [|cap]; [lia|].
  split; [vm_compute; reflexivity|]. split; [vm_compute; reflexivity|]. by vm_compute.
Qed.

Lemma hyb_view_change_forgets_witness : ∃ k1 k2 k3 k4, certificates = Ret (k1, k2, k3, k4) ∧
  commands [] (run_of 9 [step 1 (new_view k2) k3; step 1 (prepare 1 c2) k4] 2) = [c2].
Proof.
  destruct (hyb_view_change_forgets 9) as (k1 & k2 & k3 & k4 & Hk & _ & _ & _ & H2 & _); [lia|].
  exists k1, k2, k3, k4. split; [exact Hk|exact H2].
Defined.

(** The new view of the faulty leader, with its certificates. *)
Lemma hyb_new_view_justified_witness : ∃ m cert vcps prs,
  isCorrectNewView (mkNvp m (bytes_of (HybsterMessage_NewView m)) cert) 1 (start 2) = Ret (Some (vcps, prs)) ∧
  ∃ vcpsQ, sublist vcpsQ vcps ∧ (1 < Z.of_nat (length vcpsQ))%Z.
Proof.
  destruct certificates as [[[[k1 k2] k3] k4]| |] eqn:Hk; [|by vm_compute in Hk..]. vm_compute in Hk.
  destruct (isCorrectNewView (mkNvp (mkNV 0 1 0 [] (let s := mkSupport (bytes_of view_change) k2 1 in [s; s]))
    (bytes_of (new_view k2)) k3) 1 (start 2)) as [[[vcps prs]|]| |] eqn:Hn;
    [|injection Hk as <- <- <- <-; by vm_compute in Hn..].
  eexists _, k3, vcps, prs. split; [exact Hn|].
  destruct (hyb_new_view_justified _ _ _ _ _ _ _ Hn) as (_ & _ & _ & vcpsQ & Hsub & Hlen & _).
  exists vcpsQ. split; [exact Hsub|exact Hlen].
Defined.

(** Replica 0 has sent its proposal. *)
Definition proposing : hybster ctrs := run_of 9 (Do (Call_Request c1) :: work) 0.
Lemma hyb_never_leaves_witness : ∃ msg, msg ∈ p_msgs proposing ∧
  Unmarshal (msg_Content msg) = Some (prepare 0 c1) ∧ GetViewChange (prepare 0 c1) = None.
Proof.
  destruct (p_msgs proposing) as [|msg l] eqn:Hm; [by vm_compute in Hm|].
  assert (Unmarshal (msg_Content msg) = Some (prepare 0 c1)) as Hu.
  { vm_compute in Hm. injection Hm as <- _. vm_compute. reflexivity. }
  exists msg. split; [left|]. split; [exact Hu|].
  apply (hyb_never_leaves 9 (config 0) enclave (start 0) [] proposing msg).
  - apply hyb_new_start.
  - apply hyb_run_of_run.
  - rewrite Hm. left.
  - exact Hu.
Defined.

(** ** Agreement at concrete runs: replicas 1 and 2 follow replica 0. *)
Definition proposal_cert : bytes := mac false 0 0 (counter_of 0 1) (bytes_of (prepare 0 c1)).
Definition hyb_final (j : Z) : hybster ctrs := run_of 9 (step 0 (prepare 0 c1) proposal_cert :: work) j.
Definition hyb_replicas : gset Z := {[0; 1; 2]}%Z.
Definition hyb_counted (j s : Z) (x : slice) : Prop := x ≈ (Command_Hash c1).1.
Definition hyb_heard (j s : Z) (x : slice) : Prop := j ∈ hyb_replicas ∧ hyb_counted j s x ∧
  (j = 1%Z ∨ j = 2%Z → sent 9 0 (start j) [] (hyb_final j) s x).
Lemma hyb_acts_heard : Forall (act_allowed (hears 0 hyb_heard)) (step 0 (prepare 0 c1) proposal_cert :: work).
Proof.
  constructor; [|by repeat constructor]. unfold act_allowed, step, hears.
  change (msg_Content _) with (bytes_of (prepare 0 c1)). rewrite hyb_unmarshal_bytes. intros _ _. split; [|split].
  - unfold hyb_replicas. simpl. clear. set_solver.
  - done.
  - by intros [?|?].
Qed.
Lemma hyb_final_run j : runs_with (pools_step 9) (hears 0 hyb_heard) [] (start j) [] (hyb_final j).
Proof.
  unfold hyb_final, run_of. apply acts_run_with; [apply hyb_steps_pools|].
  apply hyb_acts_heard.
Qed.
Lemma hyb_agreement_witness : commands [] (hyb_final 1) = [c1] ∧ commands [] (hyb_final 2) = [c1] ∧
  ∃ x, has_hash c1 (Some x) ∧ has_hash c1 (Some x).
Proof.
  assert (commands [] (hyb_final 1) = [c1]) as E1 by (vm_compute; reflexivity).
  assert (commands [] (hyb_final 2) = [c1]) as E2 by (vm_compute; reflexivity).
  split; [exact E1|]. split; [exact E2|].
  apply (hyb_agreement 9 hyb_replicas 1 0 hyb_counted config (λ _, enclave) start hyb_final (λ _, []) 1 2) with (k := 0).
  - exact command_marshals.
  - vm_compute. reflexivity.
  - intros j s x x' Hx Hx'. unfold hyb_counted in *. by etrans.
  - intros r Hr. split; [destruct Hr as [->| ->]; unfold hyb_replicas; clear; set_solver|].
    split; [reflexivity|]. split; [reflexivity|]. split; [reflexivity|]. split; [apply hyb_new_start|].
    apply (hyb_final_run r).
  - rewrite E1. reflexivity.
  - rewrite E2. reflexivity.
Defined.
End hyb_faults.
