(* ===== verification/Network.v ===== *)
(** * A network of replicas

    Correct replicas that run one protocol, a network that carries their
    messages, and faulty replicas, which are not run and may send anything under
    their own identities.  The network delivers a message to its addressee at
    most once and late; what it does not deliver is lost.  A run is a list of
    events, and so it can be computed; what is shown of every run is that each
    correct replica makes a run of its own (Runs.v), in which every message is
    one that a faulty replica or a correct one has sent. *)
From S2P Require Import Prelude Command Peer Runs.

Lemma run_inv_bind {S A B} (m : M S A) (k : A → M S B) s b s' :
  (m ≫= k) s = Ret (b, s') → ∃ a s1, m s = Ret (a, s1) ∧ k a s1 = Ret (b, s').
Proof. unfold mbind, M_bind. destruct (m s) as [[a s1]| |]; [|done..]. eauto. Qed.

Section network.
Context {P : Type} `{Protocol P} {E : Type} (other : P → P → Prop) (step : E → P → option P).
Context (steps : ∀ e p p', step e p = Some p' → other p p').
Implicit Types (p : P) (h : list ExecPacket) (m : Message).

(** The correct replicas, with what they have handed over for execution, and the
    messages on their way. *)
Record network := mkNetwork {
  nw_replicas : gmap Z (list ExecPacket * P);
  nw_flight : list Message;
}.
Implicit Types n : network.

(** A client or the clock calls a replica, or its worker threads step; its peer
    takes what [MakeReady] returns; the first message of a link is delivered; a
    faulty replica sends. *)
Inductive net_event :=
| Local (r : Z) (a : act E)
| Hand_over (r : Z)
| Deliver (from to : Z)
| Forge (m : Message).

Definition act_at (r : Z) (a : act E) n : network :=
  mkNetwork (alter (λ hp, (hp.1, do_act step hp.2 a)) r (nw_replicas n)) (nw_flight n).
Definition hand_over (r : Z) n : network :=
  match nw_replicas n !! r with
  | None => n
  | Some (h, p) =>
      match (rd ← MakeReady; ClearMsgs;; ClearExecutedCommands;; mret rd) p with
      | Ret (rd, p') => mkNetwork (<[r := (h ++ rd_OrderedCommands rd, p')]> (nw_replicas n)) (nw_flight n ++ rd_Messages rd)
      | _ => n
      end
  end.
Definition deliver (from to : Z) n : network :=
  match list_find (λ m, msg_From m = from ∧ msg_To m = to) (nw_flight n) with
  | None => n
  | Some (k, m) => act_at to (Do (Call_Step m)) (mkNetwork (nw_replicas n) (delete k (nw_flight n)))
  end.
Definition net_do n (e : net_event) : network :=
  match e with
  | Local r a => act_at r a n
  | Hand_over r => hand_over r n
  | Deliver from to => deliver from to n
  | Forge m => mkNetwork (nw_replicas n) (nw_flight n ++ [m])
  end.
Definition net_run (es : list net_event) n : network := foldl net_do n es.

Definition local_act (a : act E) : Prop := match a with Do (Call_Step _) => False | _ => True end.
(** A faulty replica sends under its own identity. *)
Definition net_allowed (faulty : gset Z) (e : net_event) : Prop :=
  match e with
  | Local r a => local_act a
  | Forge m => msg_From m ∈ faulty
  | _ => True
  end.
#[export] Instance net_allowed_dec faulty e : Decision (net_allowed faulty e).
Proof. destruct e as [r [[]|]| | |]; simpl; apply _. Defined.
(** What replica [r] has executed, in order. *)
Definition executed_by (r : Z) n : list Command :=
  match nw_replicas n !! r with Some (h, _) => x_Cmd <$> h | None => [] end.
(** The same for all replicas at once. *)
Definition all_executed_by n : gmap Z (list Command) := (λ hp : list ExecPacket * P, x_Cmd <$> hp.1) <$> nw_replicas n.
Lemma executed_by_all r n : executed_by r n = default [] (all_executed_by n !! r).
Proof. unfold executed_by, all_executed_by. rewrite lookup_fmap. by destruct (nw_replicas n !! r) as [[]|]. Qed.

(** ** What holds in every run

    [good]: what the messages of the network promise, whoever sends them.  A
    correct replica that is fed such messages sends such messages. *)
Section invariant.
Context (faulty : gset Z) (n0 : network) (quiet : nw_flight n0 = []) (good : Message → Prop).

Definition fed (r : Z) (c : call) : Prop :=
  match c with Call_Step m => msg_To m = r ∧ good m | _ => True end.
Context (sends_good : ∀ r h0 p0 h p rd p1 m, nw_replicas n0 !! r = Some (h0, p0) →
  runs_with other (fed r) h0 p0 h p → MakeReady p = Ret (rd, p1) → m ∈ rd_Messages rd → good m).

(** Replica [j] had message [m] ready at some point of its run. *)
Definition has_sent n (j : Z) m : Prop :=
  ∃ h0 p0 h1 p1 rd p1' h p, nw_replicas n0 !! j = Some (h0, p0) ∧ nw_replicas n !! j = Some (h, p) ∧
    runs_with other (fed j) h0 p0 h1 p1 ∧ MakeReady p1 = Ret (rd, p1') ∧ m ∈ rd_Messages rd ∧
    runs_with other (fed j) h1 p1 h p.
Definition authentic n m : Prop := good m ∧ (msg_From m ∈ faulty ∨ ∃ j, has_sent n j m).
Definition delivered n (r : Z) (c : call) : Prop :=
  match c with Call_Step m => msg_To m = r ∧ authentic n m | _ => True end.
Lemma delivered_fed n r c : delivered n r c → fed r c.
Proof. destruct c; simpl; [|done..]. by intros (? & ? & _). Qed.

Record net_ok n : Prop := {
  no_replicas r h p : nw_replicas n !! r = Some (h, p) →
    ∃ h0 p0, nw_replicas n0 !! r = Some (h0, p0) ∧ runs_with other (delivered n r) h0 p0 h p;
  no_flight m : m ∈ nw_flight n → authentic n m;
}.

(** Every replica of [n] makes a run to [n']. *)
Definition advances n n' : Prop := ∀ r h p, nw_replicas n !! r = Some (h, p) →
  ∃ h' p', nw_replicas n' !! r = Some (h', p') ∧ runs_with other (fed r) h p h' p'.
Lemma authentic_advances n n' m : advances n n' → authentic n m → authentic n' m.
Proof.
  intros Ha [Hg [Hf|(j & h0 & p0 & h1 & p1 & rd & p1' & h & p & H0 & Hn & Hr0 & Hm & Hin & Hr1)]]; (split; [done|]);
    [by left|right]. destruct (Ha j h p Hn) as (h' & p' & Hn' & Hr).
  exists j, h0, p0, h1, p1, rd, p1', h', p'. split_and!; [done..|]. by eapply runs_with_trans.
Qed.
Lemma delivered_advances n n' r c : advances n n' → delivered n r c → delivered n' r c.
Proof. intros Ha. destruct c; simpl; try done. intros [? ?]. split; [done|]. by eapply authentic_advances. Qed.

(** One replica moves, and what is new on the way it has sent. *)
Lemma replica_moves n r h p h' p' flight :
  net_ok n → nw_replicas n !! r = Some (h, p) →
  let n' := mkNetwork (<[r := (h', p')]> (nw_replicas n)) flight in
  runs_with other (delivered n r) h p h' p' →
  (∀ m, m ∈ flight → m ∈ nw_flight n ∨ (good m ∧ has_sent n' r m)) → net_ok n'.
Proof.
  intros [Hok Hfl] Hr n' Hrun Hin. assert (advances n n') as Ha.
  { intros j hj pj Hj. simpl. destruct (decide (r = j)) as [->|Hne].
    - exists h', p'. rewrite lookup_insert_eq. split; [done|]. rewrite Hr in Hj. injection Hj as <- <-.
      eapply runs_with_mono; [|done]. apply delivered_fed.
    - exists hj, pj. rewrite lookup_insert_ne by done. split; [done|apply runs_with_nil]. }
  assert (∀ j hj pj, nw_replicas n !! j = Some (hj, pj) → ∃ h0 p0, nw_replicas n0 !! j = Some (h0, p0) ∧
    runs_with other (delivered n' j) h0 p0 hj pj) as Hok'.
  { intros j hj pj Hj. destruct (Hok j hj pj Hj) as (h0 & p0 & H0 & Hr0). exists h0, p0. split; [done|].
    eapply runs_with_mono; [intros c; by apply (delivered_advances n n')|done]. }
  split.
  - intros j hj pj Hj. simpl in Hj. destruct (decide (r = j)) as [->|Hne].
    + rewrite lookup_insert_eq in Hj. injection Hj as <- <-. destruct (Hok' j h p Hr) as (h0 & p0 & H0 & Hr0).
      exists h0, p0. split; [done|]. eapply runs_with_trans; [done|].
      eapply runs_with_mono; [intros c; by apply (delivered_advances n n')|done].
    + rewrite lookup_insert_ne in Hj by done. by apply Hok'.
  - intros m Hm. destruct (Hin m Hm) as [Hold|[Hg Hnew]]; [by eapply authentic_advances, Hfl|].
    split; [done|]. right. by exists r.
Qed.

Lemma act_at_ok n r a flight :
  net_ok n → (∀ m, m ∈ flight → m ∈ nw_flight n) →
  match a with Do c => delivered n r c | Other _ => True end →
  net_ok (act_at r a (mkNetwork (nw_replicas n) flight)).
Proof.
  intros Hn Hfl Ha. unfold act_at. simpl. destruct (nw_replicas n !! r) as [[h p]|] eqn:Hr.
  - assert (alter (λ hp, (hp.1, do_act step hp.2 a)) r (nw_replicas n) = <[r := (h, do_act step p a)]> (nw_replicas n)) as ->.
    { apply map_eq. intros j. destruct (decide (r = j)) as [->|Hne].
      - by rewrite lookup_alter_eq, lookup_insert_eq, Hr.
      - by rewrite lookup_alter_ne, lookup_insert_ne. }
    apply (replica_moves n r h p); [done..| |auto].
    apply (acts_run_with other step steps _ [a] h p). by repeat constructor.
  - rewrite alter_id by by intros [] Hr'; rewrite Hr in Hr'. destruct Hn as [Hok Hf].
    split; [intros j hj pj Hj; by apply (Hok j)|]. intros m Hm. by apply Hf, Hfl.
Qed.

Lemma hand_over_ok n r : net_ok n → net_ok (hand_over r n).
Proof.
  intros Hn. unfold hand_over. destruct (nw_replicas n !! r) as [[h p]|] eqn:Hr; [|done].
  destruct ((rd ← MakeReady; ClearMsgs;; ClearExecutedCommands;; mret rd) p) as [[rd p']| |] eqn:Hx; [|done..].
  apply run_inv_bind in Hx as (rd' & p1 & Hrd & Hx). apply run_inv_bind in Hx as ([] & p2 & Hm & Hx).
  apply run_inv_bind in Hx as ([] & p3 & Hc & [= -> ->]).
  assert (∀ allowed, runs_with other allowed h p (h ++ rd_OrderedCommands rd) p') as Hready.
  { intros allowed. eapply (runs_with_ready _ _ true); [done..|]. apply runs_with_nil. }
  apply (replica_moves n r h p); [done..|]. intros m [Hin|Hin]%elem_of_app; [by left|right].
  destruct (no_replicas n Hn r h p Hr) as (h0 & p0 & H0 & Hr0).
  eapply runs_with_mono in Hr0; [|intros c; apply delivered_fed]. split; [by eapply sends_good|].
  exists h0, p0, h, p, rd, p1, (h ++ rd_OrderedCommands rd), p'. simpl. rewrite lookup_insert_eq.
  by split_and!.
Qed.

Lemma net_do_ok n e :
  net_allowed faulty e → (∀ m, e = Forge m → good m) → net_ok n → net_ok (net_do n e).
Proof.
  intros Ha Hg Hn. destruct e as [r a|r|from to|m]; simpl in *.
  - destruct n as [reps fl]. apply (act_at_ok (mkNetwork reps fl)); [done..|]. by destruct a as [[]|].
  - by apply hand_over_ok.
  - unfold deliver. destruct (list_find _ _) as [[k m]|] eqn:Hf; [|done].
    apply list_find_Some in Hf as (Hk & [_ Ht] & _). apply act_at_ok; [done| |].
    + intros m' Hm'. by eapply list_elem_of_delete_inv.
    + split; [done|]. apply no_flight; [done|]. by eapply list_elem_of_lookup_2.
  - split; [intros j hj pj Hj; by apply (no_replicas n Hn j)|]. intros m' [Hm'|Hm']%elem_of_app.
    + by apply (no_flight n Hn).
    + apply list_elem_of_singleton in Hm' as ->. split; [by apply Hg|by left].
Qed.

Lemma net_run_ok es :
  Forall (net_allowed faulty) es → (∀ m, Forge m ∈ es → good m) → net_ok (net_run es n0).
Proof.
  unfold net_run. induction es as [|e es IH] using rev_ind; intros Hes Hg.
  - split; [|intros m; simpl; rewrite quiet; by intros ?%not_elem_of_nil].
    intros r h p Hr. exists h, p. split; [done|apply runs_with_nil].
  - apply Forall_app in Hes as [Hes [He _]%Forall_cons]. rewrite foldl_app. simpl. apply net_do_ok; [done| |].
    + intros m ->. apply Hg. set_solver.
    + apply IH; [done|]. intros m Hm. apply Hg. set_solver.
Qed.
(** The replicas of a run are those of its start. *)
Lemma net_run_replicas es r : is_Some (nw_replicas (net_run es n0) !! r) ↔ is_Some (nw_replicas n0 !! r).
Proof.
  unfold net_run. induction es as [|e es IH] using rev_ind; [done|]. rewrite foldl_app, <-IH. simpl.
  destruct (foldl net_do n0 es) as [reps fl]. unfold net_do, act_at, deliver, hand_over. simpl.
  assert (∀ a j, is_Some (alter (λ hp : list ExecPacket * P, (hp.1, do_act step hp.2 a)) j reps !! r) ↔ is_Some (reps !! r)) as Halt.
  { intros a j. rewrite lookup_alter. case_decide; [subst; apply fmap_is_Some|done]. }
  destruct e as [j a|j|from to|m]; simpl; [apply Halt| | |done].
  - destruct (reps !! j) as [[h p]|] eqn:Hj; [|done].
    destruct ((rd ← MakeReady; ClearMsgs;; ClearExecutedCommands;; mret rd) p) as [[rd p']| |]; [|done..].
    simpl. rewrite lookup_insert. case_decide; [|done]. subst. rewrite Hj. split; by eexists.
  - destruct (list_find _ fl) as [[k m]|]; [apply Halt|done].
Qed.
End invariant.
End network.
