(* ===== verification/Prime.v ===== *)
(** * Prime (src/protocols/prime)

    Every replica pre-orders its own commands by a broadcast ([log], by replica
    and index): a command with [2f + 1] acknowledgements counts in the summary
    of the replica, how far it has got with each of the others.  The replicas
    exchange summaries; the primary of [oview] orders the matrix of the
    summaries with the three phases of PBFT ([olog]), and [exec] executes, for
    each replica, what [f + 1] rows of the matrix cover.  One Rocq definition per
    Go function, in the state-and-panic monad [M prime].

    A summary is a slice of indexes.  The slice [p.poSummary] is written into by
    [summarize], and the matrices of a replica hold it too, not a copy of it
    ([sendSummary]): a row of a matrix in memory is either that slice or one that
    nobody writes to ([row]). *)
From S2P Require Import Prelude Command Worker Certifier Peer.
From stdpp Require Import sorting.
Import Worker (Dispatcher, NewDispatcher).

Module Prime.

(** ** Data (primepb) *)
Definition InstanceState_None : Z := 0.
Definition InstanceState_PreOrder : Z := 1.
Definition InstanceState_PreOrderAck : Z := 2.
Definition InstanceState_Summary : Z := 3.
Definition InstanceState_Committed : Z := 4.
Definition InstanceState_Executed : Z := 5.
Definition PreOrderMessage_PORequest : Z := 0.
Definition PreOrderMessage_POAck : Z := 1.
Definition PreOrderMessage_POSummary : Z := 2.
Definition OInstanceState_None : Z := 0.
Definition OInstanceState_PrePrepared : Z := 1.
Definition OInstanceState_Prepared : Z := 2.
Definition OInstanceState_Committed : Z := 3.
Definition OInstanceState_Executed : Z := 4.
Definition OrderMessage_PrePrepare : Z := 0.
Definition OrderMessage_Prepare : Z := 1.
Definition OrderMessage_Commit : Z := 2.

Record InstanceID := mkIID { iid_ReplicaID : Z; iid_Index : Z }.
#[export] Instance InstanceID_eq_dec : EqDecision InstanceID.
Proof. solve_decision. Defined.
#[export] Instance InstanceID_countable : Countable InstanceID.
Proof.
  refine (inj_countable' (λ i, (iid_ReplicaID i, iid_Index i)) (λ '(r, i), mkIID r i) _).
  by intros [].
Defined.

Record InstanceState := mkIS {
  is_View : Z;
  is_InstanceID : InstanceID;
  is_Status : Z;
  is_Command : option Command;
  is_CommandHash : slice;
}.
Record POSummary := mkPOSummary { po_POSummary : list Z }.
Record POSummaryMatrix := mkMatrix { pom_POSummaryMatrix : list POSummary }.
Record PreOrderMessage := mkPM {
  m_InstanceID : InstanceID;
  m_Type : Z;
  m_Command : option Command;
  m_CommandHash : slice;
  m_POSummary : POSummary;
}.
Record ResultMessage := mkResult { r_Result : list bytes; r_Id : list Z }.
Record OrderMessage := mkOM {
  om_View : Z;
  om_Index : Z;
  om_Type : Z;
  om_POSummaryMatrix : option POSummaryMatrix;
  om_POSummaryMatrixHash : slice;
}.
Inductive PrimeMessage :=
| PrimeMessage_Preorder (m : PreOrderMessage)
| PrimeMessage_Order (m : OrderMessage)
| PrimeMessage_Result (m : ResultMessage)
| PrimeMessage_nil.

(** A summary in the memory of a replica: the slice [p.poSummary] itself, or a
    slice that nobody writes to. *)
Inductive row := Row_poSummary | Row_of (l : list Z).
Record OInstanceState := mkOIS {
  ois_View : Z;
  ois_Index : Z;
  ois_Status : Z;
  ois_POSummaryMatrix : option (list row);
  ois_POSummaryMatrixHash : slice;
}.

#[export] Instance InstanceState_eta : Eta InstanceState := λ s,
  mkIS (is_View s) (is_InstanceID s) (is_Status s) (is_Command s) (is_CommandHash s).
#[export] Instance set_is_Status : Setter is_Status := ltac:(solve_setter).
#[export] Instance set_is_Command : Setter is_Command := ltac:(solve_setter).
#[export] Instance set_is_CommandHash : Setter is_CommandHash := ltac:(solve_setter).
#[export] Instance PreOrderMessage_eta : Eta PreOrderMessage := λ m,
  mkPM (m_InstanceID m) (m_Type m) (m_Command m) (m_CommandHash m) (m_POSummary m).
#[export] Instance set_m_Command : Setter m_Command := ltac:(solve_setter).
#[export] Instance OInstanceState_eta : Eta OInstanceState := λ s,
  mkOIS (ois_View s) (ois_Index s) (ois_Status s) (ois_POSummaryMatrix s) (ois_POSummaryMatrixHash s).
#[export] Instance set_ois_Status : Setter ois_Status := ltac:(solve_setter).
#[export] Instance set_ois_POSummaryMatrix : Setter ois_POSummaryMatrix := ltac:(solve_setter).
#[export] Instance set_ois_POSummaryMatrixHash : Setter ois_POSummaryMatrixHash := ltac:(solve_setter).

Definition IsPreOrdered (s : InstanceState) : bool := bool_decide (is_Status s = InstanceState_PreOrder).
Definition IsPOAcked (s : InstanceState) : bool := bool_decide (is_Status s = InstanceState_PreOrderAck).
Definition IsPrePrepared (s : OInstanceState) : bool := bool_decide (ois_Status s = OInstanceState_PrePrepared).
Definition IsPrepared (s : OInstanceState) : bool := bool_decide (ois_Status s = OInstanceState_Prepared).
Definition IsCommitted (s : OInstanceState) : bool := bool_decide (ois_Status s = OInstanceState_Committed).

Definition InstanceID_Equals (m other : InstanceID) : bool :=
  bool_decide (iid_ReplicaID m = iid_ReplicaID other) && bool_decide (iid_Index m = iid_Index other).
Definition POSummary_Equals (m other : list Z) : bool :=
  if bool_decide (length m ≠ length other) then false
  else forallb (λ '(x, y), bool_decide (x = y)) (zip m other).
Definition PreOrderMessage_Equals (m other : PreOrderMessage) : bool :=
  if negb (InstanceID_Equals (m_InstanceID m) (m_InstanceID other)) then false
  else bytes_Equal (m_CommandHash m) (m_CommandHash other).
Definition OrderMessage_Equals (m other : OrderMessage) : bool :=
  if bool_decide (om_View m ≠ om_View other) then false
  else if bool_decide (om_Index m ≠ om_Index other) then false
  else bytes_Equal (om_POSummaryMatrixHash m) (om_POSummaryMatrixHash other).

(** ** Quorums (quorum.go) *)
Abbreviation quorum := (gmap Z PreOrderMessage).
Abbreviation oquorum := (gmap Z (gmap Z OrderMessage)).
Definition newQuorum : quorum := ∅.
Definition quorum_log (id : Z) (m : PreOrderMessage) (q : quorum) : outcome quorum :=
  match q !! id with
  | None => Ret (<[id := m]> q)
  | Some _ => Panic "multiple messages vcSender same replica"
  end.
Definition quorum_Majority (f : Z) (m : PreOrderMessage) (q : quorum) : bool :=
  if bool_decide (Z.of_nat (size q) ≤ 2 * f)%Z then false
  else bool_decide (2 * f < Z.of_nat (size
         (filter (λ x : Z * PreOrderMessage, PreOrderMessage_Equals m x.2 = true) q)))%Z.
Definition newOQuorum : oquorum := ∅.
Definition oquorum_log (id : Z) (m : OrderMessage) (q : oquorum) : outcome oquorum :=
  let vm := default ∅ (q !! om_View m) in
  match vm !! id with
  | None => Ret (<[om_View m := <[id := m]> vm]> q)
  | Some _ => Panic "multiple messages vcSender same replica"
  end.
Definition oquorum_Majority (f : Z) (m : OrderMessage) (q : oquorum) : bool :=
  match q !! om_View m with
  | Some msgPairs =>
      if bool_decide (Z.of_nat (size msgPairs) ≤ 2 * f)%Z then false
      else bool_decide (2 * f < Z.of_nat (size
             (filter (λ x : Z * OrderMessage, OrderMessage_Equals m x.2 = true) msgPairs)))%Z
  | None => false
  end.

(** ** The replica *)
Record instance := mkInstance { i_is : InstanceState; pCert : quorum; cCert : quorum }.
#[export] Instance instance_eta : Eta instance := λ i, mkInstance (i_is i) (pCert i) (cCert i).
#[export] Instance set_i_is : Setter i_is := ltac:(solve_setter).
#[export] Instance set_pCert : Setter pCert := ltac:(solve_setter).
Record oinstance := mkOInstance { oi_is : OInstanceState; opCert : oquorum; ocCert : oquorum }.
#[export] Instance oinstance_eta : Eta oinstance := λ i, mkOInstance (oi_is i) (opCert i) (ocCert i).
#[export] Instance set_oi_is : Setter oi_is := ltac:(solve_setter).
#[export] Instance set_opCert : Setter opCert := ltac:(solve_setter).
#[export] Instance set_ocCert : Setter ocCert := ltac:(solve_setter).

(** The closures of [broadcast]: a message to be signed, for one replica. *)
Record signJob := mkSignJob { sj_mBytes : bytes; sj_node : Z }.
(** What the functions of the timers do. *)
Inductive timerAct := SummaryTimeout | PrePrepareTimeout.

Record prime := mkPrime {
  p_id : Z;
  p_nodes : list Z;
  p_log : gmap InstanceID instance;
  p_poSummary : list Z;
  p_lastPreorderSummaries : list row;
  p_lastPreorderSummariesHash : slice;
  p_lastPrepareHash : slice;
  p_index : Z;
  p_execIdx : gmap Z Z;
  p_oview : Z;
  p_oindex : Z;
  p_olog : gmap Z oinstance;
  p_oexecIdx : Z;
  p_msgs : list Message;
  p_executedCmds : list ExecPacket;
  p_timers : gmap Z (Timer.tickingTimer timerAct);
  p_f : Z;
  p_signDispatcher : Dispatcher signJob;
  p_callbackC : list (signJob * bytes);
}.
#[export] Instance prime_eta : Eta prime := λ p,
  mkPrime (p_id p) (p_nodes p) (p_log p) (p_poSummary p) (p_lastPreorderSummaries p)
    (p_lastPreorderSummariesHash p) (p_lastPrepareHash p) (p_index p) (p_execIdx p) (p_oview p)
    (p_oindex p) (p_olog p) (p_oexecIdx p) (p_msgs p) (p_executedCmds p) (p_timers p) (p_f p)
    (p_signDispatcher p) (p_callbackC p).
#[export] Instance set_p_log : Setter p_log := ltac:(solve_setter).
#[export] Instance set_p_poSummary : Setter p_poSummary := ltac:(solve_setter).
#[export] Instance set_p_lastPreorderSummaries : Setter p_lastPreorderSummaries := ltac:(solve_setter).
#[export] Instance set_p_lastPreorderSummariesHash : Setter p_lastPreorderSummariesHash := ltac:(solve_setter).
#[export] Instance set_p_lastPrepareHash : Setter p_lastPrepareHash := ltac:(solve_setter).
#[export] Instance set_p_index : Setter p_index := ltac:(solve_setter).
#[export] Instance set_p_execIdx : Setter p_execIdx := ltac:(solve_setter).
#[export] Instance set_p_oindex : Setter p_oindex := ltac:(solve_setter).
#[export] Instance set_p_olog : Setter p_olog := ltac:(solve_setter).
#[export] Instance set_p_oexecIdx : Setter p_oexecIdx := ltac:(solve_setter).
#[export] Instance set_p_msgs : Setter p_msgs := ltac:(solve_setter).
#[export] Instance set_p_executedCmds : Setter p_executedCmds := ltac:(solve_setter).
#[export] Instance set_p_timers : Setter p_timers := ltac:(solve_setter).
#[export] Instance set_p_signDispatcher : Setter p_signDispatcher := ltac:(solve_setter).
#[export] Instance set_p_callbackC : Setter p_callbackC := ltac:(solve_setter).

Record Config := mkConfig {
  cfg_ID : Z;
  cfg_Peers : list Z;
  cfg_LeaderID : Z;
  cfg_MaxFailures : Z;
  cfg_Workers : gmap string nat;
  cfg_WorkersQueueSizes : gmap string nat;
}.

(** [l[i]] and [l[i] = x] of a slice, with an unsigned index. *)
Definition slice_get {A} (l : list A) (i : Z) : outcome A :=
  if decide (0 ≤ i)%Z then
    match l !! Z.to_nat i with Some x => Ret x | None => Panic "index out of range" end
  else Panic "index out of range".
Definition slice_set {A} (l : list A) (i : Z) (x : A) : outcome (list A) :=
  if decide (0 ≤ i < Z.of_nat (length l))%Z then Ret (<[Z.to_nat i := x]> l) else Panic "index out of range".

(** The values of the rows of a matrix in memory. *)
Definition row_value (p : prime) (r : row) : list Z :=
  match r with Row_poSummary => p_poSummary p | Row_of l => l end.
Definition matrix_value (p : prime) (rows : list row) : POSummaryMatrix :=
  mkMatrix ((λ r, mkPOSummary (row_value p r)) <$> rows).
(** The rows of a matrix that was received. *)
Definition matrix_rows (m : POSummaryMatrix) : list row := (λ s, Row_of (po_POSummary s)) <$> pom_POSummaryMatrix m.

(** [initTimers], and the infinite timers it registers. *)
Definition primeTimer (timeout : Z) (a : timerAct) : Timer.tickingTimer timerAct :=
  Timer.registerInfiniteTimer (Timer.MakeTickingTimer timeout [Timer.Act a]).
Definition initTimers : gmap Z (Timer.tickingTimer timerAct) :=
  {[0%Z := primeTimer 5 SummaryTimeout; 1%Z := primeTimer 5 PrePrepareTimeout]}.

Section prime.
Context `{GoEnv, MapRange, Codec Command, Codec POSummaryMatrix, Codec PrimeMessage, Certifier}.

(** [sha256.Sum256] of the marshalled matrix. *)
Definition matrix_hash (m : POSummaryMatrix) : outcome slice :=
  match Marshal m with None => Panic "marshal" | Some b => Ret (Some (sha256 b)) end.

Definition NewPrime (c : Config) : outcome prime :=
  let n := length (cfg_Peers c) in
  let zeros := replicate n 0%Z in
  matHash ← matrix_hash (mkMatrix (replicate n (mkPOSummary zeros)));
  match cfg_Workers c !! "mac_sign"%string, cfg_WorkersQueueSizes c !! "mac_sign"%string with
  | None, _ => Panic "Worker count for mac_sign missing."
  | _, None => Panic "Worker queue size for mac_sign missing."
  | Some workers, Some _ =>
      Ret (mkPrime (cfg_ID c) (cfg_Peers c) ∅ zeros (replicate n (Row_of zeros)) matHash matHash 1
             (list_to_map ((λ i, (Z.of_nat i, 1%Z)) <$> seq 0 n)) (cfg_LeaderID c) 1 ∅ 1 [] [] initTimers
             (cfg_MaxFailures c) (NewDispatcher workers) [])
  end.

(** *** Messaging (messaging.go) *)
Definition enqueueForSending (to : Z) (mm certificate : bytes) : M prime unit :=
  modify (λ p, p <| p_msgs ::= λ l, l ++ [mkMessage (p_id p) to mm certificate] |>).
Definition sendTo (to : Z) (m : PrimeMessage) : M prime unit :=
  match Marshal m with
  | None => panic "unable to marshall"
  | Some mBytes => enqueueForSending to mBytes (CreateSignedCertificate mBytes)
  end.
Definition broadcast (m : PrimeMessage) (sendToSelf : bool) : M prime unit :=
  match Marshal m with
  | None => panic "unable to marshall"
  | Some mBytes =>
      p ← get;
      for_each (p_nodes p) (λ node,
        when (sendToSelf || bool_decide (node ≠ p_id p))
          (modify (λ p, p <| p_signDispatcher ::= Worker.Exec (mkSignJob mBytes node) |>)))
  end.
(** The two closures that [broadcast] hands to the dispatcher. *)
Definition sign (j : signJob) : bytes := CreateSignedCertificate (sj_mBytes j).
Definition send_signed (j : signJob) (cert : bytes) : M prime unit :=
  enqueueForSending (sj_node j) (sj_mBytes j) cert.
(** A step of the signing pool. *)
Definition worker_step (cap : nat) (e : Worker.event) (p : prime) : option prime :=
  '(w, cbs) ← Worker.step sign cap e (p_signDispatcher p) (p_callbackC p);
  Some (p <| p_signDispatcher := w |> <| p_callbackC := cbs |>).
Definition AsyncCallback_body : M prime bool :=
  p ← get;
  match p_callbackC p with
  | [] => mret false
  | (j, cert) :: rest =>
      modify (λ p, p <| p_callbackC := rest |>);;
      send_signed j cert;;
      mret true
  end.
Definition AsyncCallback : M prime unit :=
  p ← get; loop (S (length (p_callbackC p))) AsyncCallback_body.

Definition isPrimaryAtView (id view : Z) (p : prime) : outcome bool :=
  l ← leader_of view (length (p_nodes p)); Ret (bool_decide (id = l)).
Definition isCurrentPrimary (id : Z) (p : prime) : outcome bool := isPrimaryAtView id (p_oview p) p.

(** *** Instances, through their pointers: each is reachable only through the
    log, at the key it was filed under. *)
Definition get_inst (i : InstanceID) : M prime instance :=
  p ← get; match p_log p !! i with None => panic "nil instance" | Some inst => mret inst end.
Definition with_inst (i : InstanceID) (g : instance → outcome instance) : M prime unit :=
  inst ← get_inst i; inst' ← lift (g inst); modify (λ p, p <| p_log ::= <[i := inst']> |>).
Definition set_status (i : InstanceID) (st : Z) : M prime unit :=
  with_inst i (λ inst, Ret (inst <| i_is ::= set is_Status (λ _, st) |>)).
Definition log_pCert (i : InstanceID) (id : Z) (m : PreOrderMessage) : M prime unit :=
  with_inst i (λ inst, q ← quorum_log id m (pCert inst); Ret (inst <| pCert := q |>)).

Definition get_oinst (i : Z) : M prime oinstance :=
  p ← get; match p_olog p !! i with None => panic "nil oinstance" | Some inst => mret inst end.
Definition with_oinst (i : Z) (g : oinstance → outcome oinstance) : M prime unit :=
  inst ← get_oinst i; inst' ← lift (g inst); modify (λ p, p <| p_olog ::= <[i := inst']> |>).
Definition set_ostatus (i : Z) (st : Z) : M prime unit :=
  with_oinst i (λ inst, Ret (inst <| oi_is ::= set ois_Status (λ _, st) |>)).
Definition log_opCert (i : Z) (id : Z) (m : OrderMessage) : M prime unit :=
  with_oinst i (λ inst, q ← oquorum_log id m (opCert inst); Ret (inst <| opCert := q |>)).
Definition log_ocCert (i : Z) (id : Z) (m : OrderMessage) : M prime unit :=
  with_oinst i (λ inst, q ← oquorum_log id m (ocCert inst); Ret (inst <| ocCert := q |>)).

(** *** Execution (exec.go) *)
Definition Execute (cmd : Command) : M prime unit :=
  modify (λ p, p <| p_executedCmds ::= λ l, l ++ [exec_pkt cmd] |>).

(** [counts[p.f]]: column [i] of the matrix, sorted. *)
Definition column_max (rows : list (list Z)) (f : Z) (i : nat) : outcome InstanceID :=
  counts ← mapM (λ l, slice_get l (Z.of_nat i)) rows;
  c ← slice_get (merge_sort (≤)%Z counts) f;
  Ret (mkIID (Z.of_nat i) c).

(** The instances of replica [rid] from [i] to [max] are there, with
    [PreOrderAck] or more. *)
Fixpoint available_to (fuel : nat) (rid i max : Z) (p : prime) : outcome bool :=
  match fuel with
  | O => Diverge
  | S fuel =>
      if bool_decide (max < i)%Z then Ret true else
      match p_log p !! mkIID rid i with
      | None => Ret false
      | Some inst =>
          if bool_decide (is_Status (i_is inst) < InstanceState_PreOrderAck)%Z then Ret false
          else available_to fuel rid (u64 (i + 1)) max p
      end
  end.
(** [p.execIdx[rid]] *)
Definition exec_idx (rid : Z) (p : prime) : Z := default 0%Z (p_execIdx p !! rid).
Fixpoint all_available (ids : list InstanceID) (p : prime) : outcome bool :=
  match ids with
  | [] => Ret true
  | m :: ids =>
      ok ← available_to (S (size (p_log p))) (iid_ReplicaID m) (exec_idx (iid_ReplicaID m) p) (iid_Index m) p;
      if ok : bool then all_available ids p else Ret false
  end.

Definition execute_inst (i : InstanceID) : M prime unit :=
  inst ← get_inst i;
  when (bool_decide (is_Status (i_is inst) ≠ InstanceState_Executed))
    (match is_Command (i_is inst) with
     | None => panic "nil Command"
     | Some cmd =>
         Execute cmd;;
         modify (λ p, p <| p_log ::= <[i := inst <| i_is :=
           i_is inst <| is_Status := InstanceState_Executed |> <| is_Command := None |> |>]> |>)
     end).
Fixpoint execute_to (fuel : nat) (rid i max : Z) : M prime unit :=
  match fuel with
  | O => λ _, Diverge
  | S fuel =>
      if bool_decide (max < i)%Z then mret tt else
      execute_inst (mkIID rid i);;
      modify (λ p, p <| p_execIdx := <[rid := u64 (exec_idx rid p + 1)]> (p_execIdx p) |>);;
      execute_to fuel rid (u64 (i + 1)) max
  end.

Definition exec_body : M prime bool :=
  p ← get;
  match p_olog p !! p_oexecIdx p with
  | None => mret false
  | Some oinst =>
      if negb (IsCommitted (oi_is oinst)) then mret false else
      match ois_POSummaryMatrix (oi_is oinst) with
      | None => panic "nil POSummaryMatrix"
      | Some rows =>
          let mat := row_value p <$> rows in
          execInstIDs ← lift (mapM (column_max mat (p_f p)) (seq 0 (length mat)));
          ok ← lift (all_available execInstIDs p);
          if negb ok then mret false else
          for_each execInstIDs (λ m,
            p ← get;
            execute_to (S (size (p_log p))) (iid_ReplicaID m) (exec_idx (iid_ReplicaID m) p) (iid_Index m));;
          set_ostatus (p_oexecIdx p) OInstanceState_Executed;;
          modify (λ p, p <| p_oexecIdx ::= λ x, u64 (x + 1) |>);;
          mret true
      end
  end.
(** Every round marks a committed matrix as executed. *)
Definition exec : M prime unit := p ← get; loop (S (size (p_olog p))) exec_body.

(** *** The broadcast of the commands (brbinstance.go) *)
Definition makeInstance (m : PreOrderMessage) : instance :=
  mkInstance (mkIS 0 (m_InstanceID m) InstanceState_None (m_Command m) (m_CommandHash m)) newQuorum newQuorum.
(** False: the message is dropped.  The instance is as the check leaves it. *)
Definition updateCommand (m : PreOrderMessage) (inst : instance) : outcome (bool * instance) :=
  match is_Command (i_is inst) with
  | Some c => e ← Command_Equal c (m_Command m); Ret (e, inst)
  | None => Ret (true, inst <| i_is ::= set is_Command (λ _, m_Command m) |>)
  end.
Definition updateCommandHash (m : PreOrderMessage) (inst : instance) : outcome (bool * instance) :=
  match is_CommandHash (i_is inst) with
  | Some _ => Ret (bytes_Equal (is_CommandHash (i_is inst)) (m_CommandHash m), inst)
  | None => Ret (true, inst <| i_is ::= set is_CommandHash (λ _, m_CommandHash m) |>)
  end.
(** [a && b] of two checks *)
Definition check_both {I} (a b : I → outcome (bool * I)) (inst : I) : outcome (bool * I) :=
  '(ok, inst) ← a inst; if ok : bool then b inst else Ret (false, inst).
Definition command_hash (cmd : option Command) : outcome slice :=
  match cmd with
  | None => Panic "nil Command"
  | Some c => match Marshal c with None => Panic "marshal" | Some b => Ret (Some (sha256 b)) end
  end.
Definition checkCommandHash (cmd : option Command) (hash : slice) : outcome bool :=
  compHash ← command_hash cmd; Ret (bytes_Equal hash compHash).

(** The instance of a message, made or checked; false: the handler returns. *)
Definition fetch_instance (checks : instance → outcome (bool * instance)) (m : PreOrderMessage) : M prime bool :=
  p ← get;
  match p_log p !! m_InstanceID m with
  | None => modify (λ p, p <| p_log ::= <[m_InstanceID m := makeInstance m]> |>);; mret true
  | Some inst =>
      '(ok, inst') ← lift (checks inst);
      modify (λ p, p <| p_log ::= <[m_InstanceID m := inst']> |>);;
      mret ok
  end.

(** The loop of [summarize]: the first index from [i] on that is not acknowledged. *)
Fixpoint summarize_from (fuel : nat) (rid i : Z) (p : prime) : outcome Z :=
  match fuel with
  | O => Diverge
  | S fuel =>
      match p_log p !! mkIID rid i with
      | None => Ret i
      | Some inst =>
          if negb (IsPOAcked (i_is inst)) || bool_decide (is_Command (i_is inst) = None) then Ret i
          else summarize_from fuel rid (u64 (i + 1)) p
      end
  end.
Definition summarize (instID : InstanceID) : M prime unit :=
  p ← get;
  s ← lift (slice_get (p_poSummary p) (iid_ReplicaID instID));
  i ← lift (summarize_from (S (size (p_log p))) (iid_ReplicaID instID) (u64 (s + 1)) p);
  l ← lift (slice_set (p_poSummary p) (iid_ReplicaID instID) (u64 (i - 1)));
  modify (λ p, p <| p_poSummary := l |>).

(** [if inst.pCert.Majority(m) && inst.is.IsPreOrdered()] *)
Definition maybeAck (i : InstanceID) (m : PreOrderMessage) : M prime unit :=
  inst ← get_inst i;
  p ← get;
  when (quorum_Majority (p_f p) m (pCert inst) && IsPreOrdered (i_is inst))
    (set_status i InstanceState_PreOrderAck;; summarize i).

(** The command is dropped from the message once the instance has it. *)
Definition onPORequest (m : PreOrderMessage) (from : Z) : M prime unit :=
  let i := m_InstanceID m in
  ok ← lift (checkCommandHash (m_Command m) (m_CommandHash m));
  if negb ok then panic "The hash does not correspond to the command" else
  ok ← fetch_instance (check_both (updateCommand m) (updateCommandHash m)) m;
  if negb ok then mret tt else
  log_pCert i from (m <| m_Command := None |>);;
  set_status i InstanceState_PreOrder;;
  inst ← get_inst i;
  p ← get;
  let pm := mkPM (is_InstanceID (i_is inst)) PreOrderMessage_POAck None (is_CommandHash (i_is inst)) (mkPOSummary []) in
  log_pCert i (p_id p) pm;;
  broadcast (PrimeMessage_Preorder pm) false;;
  maybeAck i pm.
Definition onPOAck (m : PreOrderMessage) (from : Z) : M prime unit :=
  ok ← fetch_instance (updateCommandHash m) m;
  if negb ok then mret tt else
  log_pCert (m_InstanceID m) from m;;
  maybeAck (m_InstanceID m) m.

(** Row [r] of the matrix of the last summaries, and its hash. *)
Definition put_summary (r : Z) (s : row) : M prime unit :=
  p ← get;
  rows ← lift (slice_set (p_lastPreorderSummaries p) r s);
  modify (λ p, p <| p_lastPreorderSummaries := rows |>);;
  h ← lift (matrix_hash (matrix_value p rows));
  modify (λ p, p <| p_lastPreorderSummariesHash := h |>).
(** The matrix gets the slice [p.poSummary], not a copy of it. *)
Definition sendSummary : M prime unit :=
  p ← get;
  put_summary (p_id p) Row_poSummary;;
  broadcast (PrimeMessage_Preorder
    (mkPM (mkIID 0 0) PreOrderMessage_POSummary None None (mkPOSummary (p_poSummary p)))) false.
Definition onPOSummary (m : PreOrderMessage) (from : Z) : M prime unit :=
  put_summary from (Row_of (po_POSummary (m_POSummary m))).

(** *** Requests (request.go) *)
Definition onRequest (cmd : Command) : M prime unit :=
  p ← get;
  let instID := mkIID (p_id p) (p_index p) in
  modify (λ p, p <| p_index ::= λ x, u64 (x + 1) |>);;
  cmdHash ← lift (command_hash (Some cmd));
  modify (λ p, p <| p_log ::= <[instID :=
    mkInstance (mkIS 0 instID InstanceState_PreOrder (Some cmd) cmdHash) newQuorum newQuorum]> |>);;
  let poReq := mkPM instID PreOrderMessage_PORequest (Some cmd) cmdHash (mkPOSummary []) in
  log_pCert instID (p_id p) poReq;;
  broadcast (PrimeMessage_Preorder poReq) false.

(** *** The ordering of the matrices (oinstance.go) *)

(** The hash of the message is not filed. *)
Definition makeOInstance (m : OrderMessage) : oinstance :=
  mkOInstance (mkOIS (om_View m) (om_Index m) OInstanceState_None (matrix_rows <$> om_POSummaryMatrix m) None)
    newOQuorum newOQuorum.
(** Every row of the instance is compared with that of the message. *)
Fixpoint rows_agree (p : prime) (rows : list row) (ms : list POSummary) : outcome bool :=
  match rows, ms with
  | [], _ => Ret true
  | _ :: _, [] => Panic "index out of range"
  | r :: rows, m :: ms =>
      if POSummary_Equals (row_value p r) (po_POSummary m) then rows_agree p rows ms else Ret false
  end.
Definition updateOCommand (p : prime) (m : OrderMessage) (inst : oinstance) : outcome (bool * oinstance) :=
  match ois_POSummaryMatrix (oi_is inst) with
  | Some rows =>
      match om_POSummaryMatrix m with
      | None => match rows with [] => Ret (true, inst) | _ => Panic "nil POSummaryMatrix" end
      | Some mat => ok ← rows_agree p rows (pom_POSummaryMatrix mat); Ret (ok, inst)
      end
  | None => Ret (true, inst <| oi_is ::= set ois_POSummaryMatrix (λ _, matrix_rows <$> om_POSummaryMatrix m) |>)
  end.
Definition updateOCommandHash (m : OrderMessage) (inst : oinstance) : outcome (bool * oinstance) :=
  match ois_POSummaryMatrixHash (oi_is inst) with
  | Some _ => Ret (bytes_Equal (ois_POSummaryMatrixHash (oi_is inst)) (om_POSummaryMatrixHash m), inst)
  | None => Ret (true, inst <| oi_is ::= set ois_POSummaryMatrixHash (λ _, om_POSummaryMatrixHash m) |>)
  end.
Definition fetch_oinstance (checks : oinstance → outcome (bool * oinstance)) (m : OrderMessage) : M prime bool :=
  p ← get;
  match p_olog p !! om_Index m with
  | None => modify (λ p, p <| p_olog ::= <[om_Index m := makeOInstance m]> |>);; mret true
  | Some inst =>
      '(ok, inst') ← lift (checks inst);
      modify (λ p, p <| p_olog ::= <[om_Index m := inst']> |>);;
      mret ok
  end.
Definition checkOCommandHash (mat : option POSummaryMatrix) (hash : slice) : outcome bool :=
  match mat with
  | None => Panic "nil POSummaryMatrix"
  | Some mat => compHash ← matrix_hash mat; Ret (bytes_Equal hash compHash)
  end.

(** The new matrix shares its rows with that of the last summaries: the [copy] of
    each row is of the slice to itself.  Nobody reads the matrix of the logged
    message. *)
Definition sendPrePrepare : M prime unit :=
  p ← get;
  prim ← lift (isPrimaryAtView (p_id p) (p_oview p) p);
  if negb prim then mret tt else
  if match p_lastPrepareHash p with Some _ => bytes_Equal (p_lastPreorderSummariesHash p) (p_lastPrepareHash p) | None => false end
  then mret tt else
  let mat := p_lastPreorderSummaries p in
  summaryHash ← lift (matrix_hash (matrix_value p mat));
  modify (λ p, p <| p_lastPrepareHash := p_lastPreorderSummariesHash p |>);;
  let index := p_oindex p in
  modify (λ p, p <| p_oindex := u64 (index + 1) |>);;
  modify (λ p, p <| p_olog ::= <[index :=
    mkOInstance (mkOIS (p_oview p) index OInstanceState_PrePrepared (Some mat) summaryHash) newOQuorum newOQuorum]> |>);;
  let pm := mkOM (p_oview p) index OrderMessage_PrePrepare (Some (matrix_value p mat)) summaryHash in
  log_opCert index (p_id p) pm;;
  broadcast (PrimeMessage_Order pm) false.

(** What the handlers do once [cm] is in the commit certificate. *)
Definition maybeCommit (i : Z) (cm : OrderMessage) : M prime unit :=
  inst ← get_oinst i;
  p ← get;
  when (oquorum_Majority (p_f p) cm (ocCert inst) && IsPrepared (oi_is inst))
    (set_ostatus i OInstanceState_Committed;; exec).
(** The block under [inst.pCert.Majority(m) && inst.is.IsPrePrepared()]. *)
Definition maybePrepare (i : Z) (m : OrderMessage) : M prime unit :=
  inst ← get_oinst i;
  p ← get;
  when (oquorum_Majority (p_f p) m (opCert inst) && IsPrePrepared (oi_is inst))
    (set_ostatus i OInstanceState_Prepared;;
     let cm := mkOM (om_View m) (om_Index m) OrderMessage_Commit None (om_POSummaryMatrixHash m) in
     broadcast (PrimeMessage_Order cm) false;;
     log_ocCert i (p_id p) cm;;
     maybeCommit i cm).

Definition onPrePrepare (m : OrderMessage) (from : Z) : M prime unit :=
  p ← get;
  prim ← lift (isCurrentPrimary from p);
  if negb prim then mret tt else
  ok ← lift (checkOCommandHash (om_POSummaryMatrix m) (om_POSummaryMatrixHash m));
  if negb ok then panic "The hash does not correspond to the command" else
  let i := om_Index m in
  ok ← fetch_oinstance (check_both (updateOCommand p m) (updateOCommandHash m)) m;
  if negb ok then mret tt else
  log_opCert i from m;;
  set_ostatus i OInstanceState_PrePrepared;;
  let pm := mkOM (om_View m) (om_Index m) OrderMessage_Prepare None (om_POSummaryMatrixHash m) in
  log_opCert i (p_id p) pm;;
  broadcast (PrimeMessage_Order pm) false;;
  maybePrepare i pm.
Definition onPrepare (m : OrderMessage) (from : Z) : M prime unit :=
  p ← get;
  prim ← lift (isCurrentPrimary from p);
  if prim : bool then mret tt else
  ok ← fetch_oinstance (updateOCommandHash m) m;
  if negb ok then mret tt else
  log_opCert (om_Index m) from m;;
  maybePrepare (om_Index m) m.
Definition onCommit (m : OrderMessage) (from : Z) : M prime unit :=
  ok ← fetch_oinstance (updateOCommandHash m) m;
  if negb ok then mret tt else
  log_ocCert (om_Index m) from m;;
  inst ← get_oinst (om_Index m);
  p ← get;
  if oquorum_Majority (p_f p) m (ocCert inst) && IsPrepared (oi_is inst)
  then set_ostatus (om_Index m) OInstanceState_Committed;; exec
  else when (IsCommitted (oi_is inst)) exec.

(** *** The [Protocol] methods (prime.go) *)
Definition stepPreOrder (m : PreOrderMessage) (from : Z) : M prime unit :=
  if decide (m_Type m = PreOrderMessage_PORequest) then onPORequest m from
  else if decide (m_Type m = PreOrderMessage_POAck) then onPOAck m from
  else if decide (m_Type m = PreOrderMessage_POSummary) then onPOSummary m from
  else panic "unexpected Message type".
Definition stepOrder (m : OrderMessage) (from : Z) : M prime unit :=
  p ← get;
  if bool_decide (om_View m ≠ p_oview p) then mret tt
  else if decide (om_Type m = OrderMessage_PrePrepare) then onPrePrepare m from
  else if decide (om_Type m = OrderMessage_Prepare) then onPrepare m from
  else if decide (om_Type m = OrderMessage_Commit) then onCommit m from
  else panic "unexpected Message type".
Definition Step (message : Message) : M prime unit :=
  match Unmarshal (msg_Content message) with
  | None => panic "unmarshal"
  | Some m =>
      if negb (VerifyCertificate (msg_Content message) (msg_Certificate message)) then panic "Invalid certificate" else
      match m with
      | PrimeMessage_Preorder m => stepPreOrder m (msg_From message)
      | PrimeMessage_Order m => stepOrder m (msg_From message)
      | _ => mret tt
      end
  end.

(** The functions of the timers. *)
Definition run_action (a : timerAct) : M prime unit :=
  match a with
  | SummaryTimeout => sendSummary
  | PrePrepareTimeout =>
      p ← get;
      prim ← lift (isPrimaryAtView (p_id p) (p_oview p) p);
      when prim sendPrePrepare
  end.
Definition tick_one (k : Z) : M prime unit :=
  p ← get;
  match p_timers p !! k with
  | None => mret tt
  | Some t =>
      let '(t, acts) := Timer.Tick t in
      modify (λ p, p <| p_timers ::= <[k := t]> |>);;
      for_each acts run_action
  end.
Definition Tick : M prime unit := p ← get; for_each (range (p_timers p)) (λ kt, tick_one kt.1).

Definition Callback (message : ExecCallback) : M prime unit := panic "not implemented".
Definition Request (command : Command) : M prime unit := onRequest command.
Definition MakeReady : M prime Ready := gets (λ p, mkReady (p_msgs p) (p_executedCmds p)).
Definition ClearMsgs : M prime unit := modify (λ p, p <| p_msgs := [] |>).
Definition ClearExecutedCommands : M prime unit := modify (λ p, p <| p_executedCmds := [] |>).

Definition hasStatus (instID : InstanceID) (status : Z) (p : prime) : bool :=
  match p_log p !! instID with
  | Some inst => bool_decide (is_Status (i_is inst) = status)
  | None => false
  end.
Definition hasPreOrdered (instID : InstanceID) (p : prime) : bool := hasStatus instID InstanceState_PreOrder p.
Definition hasPOAcked (instID : InstanceID) (p : prime) : bool := hasStatus instID InstanceState_PreOrderAck p.
Definition hasExecuted (instID : InstanceID) (p : prime) : bool := hasStatus instID InstanceState_Executed p.

#[export] Instance prime_Protocol : Protocol prime := {|
  Peer.Step := Step;
  Peer.Tick := Tick;
  Peer.Request := Request;
  Peer.Callback := Callback;
  Peer.MakeReady := MakeReady;
  Peer.ClearMsgs := ClearMsgs;
  Peer.ClearExecutedCommands := ClearExecutedCommands;
  Peer.AsyncCallback := AsyncCallback;
|}.
End prime.
End Prime.
