(* ===== verification/PrimeSafety.v ===== *)
(** * What a replica of Prime keeps

    The invariant of a replica: an instance that is acknowledged has the votes
    of a quorum for its hash, which is that of its command; what the replica has
    voted for stays in its log; and what it has executed are acknowledged
    instances, those of each replica in the order of their indexes, without a
    gap.  It is stated about any run in which nobody sends the replica proposals
    for its own instances, and, for the parts that a wrap-around of the indexes
    would break, as long as the log holds fewer than [2^64 - 1] instances. *)
From S2P Require Import Prelude Command Worker Certifier Peer Runs Prime.
From stdpp Require Import sorting.
Import Prime.

(** A vote for the hash of an instance. *)
Definition is_vote (m : PreOrderMessage) : Prop :=
  m_Type m = PreOrderMessage_PORequest ∨ m_Type m = PreOrderMessage_POAck.

(** What the marshaller promises: messages come back, with the nil and the empty
    hash the same. *)
Class PrimeCodecLaws `{Codec PrimeMessage} := {
  Unmarshal_Preorder m b : Marshal (PrimeMessage_Preorder m) = Some b →
    ∃ m', Unmarshal b = Some (PrimeMessage_Preorder m') ∧ m_Type m' = m_Type m ∧
      m_InstanceID m' = m_InstanceID m ∧ m_CommandHash m' ≈ m_CommandHash m;
  Unmarshal_Order m b : Marshal (PrimeMessage_Order m) = Some b →
    ∃ m', Unmarshal b = Some (PrimeMessage_Order m');
}.

Definition hash inst : slice := is_CommandHash (i_is inst).
Definition status inst : Z := is_Status (i_is inst).
Definition cmd_of inst : option Command := is_Command (i_is inst).
(** An instance stays known by its hash. *)
Definition hash_le inst inst' : Prop := ∀ x, hash inst = Some x → hash inst' = Some x.

Lemma PM_Equals_hash m m' : PreOrderMessage_Equals m m' = true → m_CommandHash m ≈ m_CommandHash m'.
Proof. unfold PreOrderMessage_Equals. case_match; [done|]. apply bytes_Equal_spec. Qed.

(** The senders of more than [2f] votes. *)
Lemma Majority_senders f m (q : quorum) :
  quorum_Majority f m q = true →
  ∃ A : gset Z, (2 * f < Z.of_nat (size A))%Z ∧
    ∀ j, j ∈ A → ∃ m', q !! j = Some m' ∧ m_CommandHash m ≈ m_CommandHash m'.
Proof.
  unfold quorum_Majority. case_bool_decide; [done|]. intros Hs%bool_decide_eq_true.
  eexists (dom (filter _ q)). rewrite size_dom. split; [exact Hs|].
  intros j [m' [Hj Hm]%map_lookup_filter_Some]%elem_of_dom. exists m'. split; [done|]. by apply PM_Equals_hash.
Qed.

Lemma log_pCert_entries id0 m (q q' : quorum) :
  quorum_log id0 m q = Ret q' → q !! id0 = None ∧ q' = <[id0 := m]> q.
Proof. unfold quorum_log. destruct (q !! id0) eqn:Hq; [done|]. by intros [= <-]. Qed.

Section invariant.
Context `{GoEnv, !GoEnvLaws, MapRange, Codec Command, Codec POSummaryMatrix, Codec PrimeMessage, Certifier, !PrimeCodecLaws}.
Context (id f : Z) (first : Z → Z).
(** The votes that the messages from a replica carried. *)
Context (heard : Z → InstanceID → slice → Prop).
(** Votes that are known to be in the log. *)
Context (floor : gmap InstanceID (list Byte.byte)).
Implicit Types (p : prime) (inst : instance) (i : InstanceID).

(** The command [c] is one with hash [h], or equal to one. *)
Definition has_hash (c : Command) (h : slice) : Prop :=
  ∃ c' x, command_hash (Some c') = Ret (Some x) ∧ h ≈ Some x ∧ (c' = c ∨ Command_Equal c (Some c') = Ret true).
Definition vote i (h : slice) (j : Z) : Prop := j = id ∨ ∃ h', heard j i h' ∧ h ≈ h'.
Definition certified i (h : slice) : Prop :=
  ∃ A : gset Z, (2 * f < Z.of_nat (size A))%Z ∧ ∀ j, j ∈ A → vote i h j.

Definition foreign i : Prop := iid_ReplicaID i ≠ id.
(** The indexes of the own instances have not wrapped around. *)
Definition roomy p : Prop := (Z.of_nat (size (p_log p)) + 1 < two64)%Z.
(** An instance of another replica, or one that has been requested. *)
Definition settled p i : Prop := foreign i ∨ (iid_Index i < p_index p)%Z.
Definition firm p i (h : slice) : Prop :=
  settled p i ∧ ∃ inst, p_log p !! i = Some inst ∧ is_Some (hash inst) ∧ h ≈ hash inst.

Record inst_ok i inst : Prop := {
  io_id : is_InstanceID (i_is inst) = i;
  io_own : (InstanceState_PreOrder ≤ status inst)%Z → is_Some (pCert inst !! id);
  io_hash : (InstanceState_PreOrder ≤ status inst)%Z → is_Some (hash inst);
  io_cmd : (InstanceState_PreOrder ≤ status inst)%Z → status inst ≠ InstanceState_Executed →
    ∃ c, cmd_of inst = Some c ∧ has_hash c (hash inst);
  io_votes j m : pCert inst !! j = Some m → vote i (m_CommandHash m) j;
  io_cert : (InstanceState_PreOrderAck ≤ status inst)%Z → certified i (hash inst);
}.

(** The message with bytes [b] votes only for hashes of the log, and proposes
    only own instances. *)
Definition backed p (b : list Byte.byte) : Prop := ∀ m,
  Unmarshal b = Some (PrimeMessage_Preorder m) → is_vote m →
  (m_Type m = PreOrderMessage_PORequest → iid_ReplicaID (m_InstanceID m) = id) ∧
  (roomy p → firm p (m_InstanceID m) (m_CommandHash m)).

Record base p : Prop := {
  b_id : p_id p = id;
  b_f : p_f p = f;
  b_log i inst : p_log p !! i = Some inst → inst_ok i inst;
  b_settled i inst : p_log p !! i = Some inst → roomy p → (InstanceState_PreOrder ≤ status inst)%Z → settled p i;
  b_index : roomy p → (1 ≤ p_index p)%Z ∧
    ∀ s, (1 ≤ s < p_index p)%Z → is_Some (p_log p !! mkIID id s);
  b_jobs j : j ∈ Worker.pending (p_signDispatcher p) → sj_node j ≠ id ∧ backed p (sj_mBytes j);
  b_callbacks jc : jc ∈ p_callbackC p → sj_node jc.1 ≠ id ∧ backed p (sj_mBytes jc.1);
  b_msgs m : m ∈ p_msgs p → msg_From m = id ∧ msg_To m ≠ id ∧ backed p (msg_Content m);
  b_floor i x : floor !! i = Some x → roomy p → firm p i (Some x);
}.

(** A packet of instance [i]. *)
Definition packet_ok p i (pkt : ExecPacket) : Prop :=
  ∃ x, certified i (Some x) ∧ has_hash (x_Cmd pkt) (Some x) ∧ (roomy p → firm p i (Some x)).
(** The instances of replica [rid] among [ids] are those from [first rid] on. *)
Definition of_replica (rid : Z) (ids : list InstanceID) : list InstanceID :=
  filter (λ i, iid_ReplicaID i = rid) ids.
Definition in_order p (ids : list InstanceID) : Prop := ∀ rid, ∃ k,
  of_replica rid ids = mkIID rid <$> slots (first rid) k ∧ exec_idx rid p = u64 (first rid + Z.of_nat k).
Record exec_ok (h : list ExecPacket) p (ids : list InstanceID) : Prop := {
  eo_packets : Forall2 (packet_ok p) ids (h ++ p_executedCmds p);
  eo_done i inst : p_log p !! i = Some inst → status inst = InstanceState_Executed → i ∈ ids;
  eo_order : (Z.of_nat (length ids) + 1 < two64)%Z → in_order p ids;
}.
Definition prime_inv (h : list ExecPacket) p : Prop := base p ∧ ∃ ids, exec_ok h p ids.

(** What the invariant looks at. *)
Definition core p := (p_id p, p_f p, p_log p, p_index p, p_execIdx p,
  (p_executedCmds p, p_signDispatcher p, p_callbackC p, p_msgs p)).
Lemma prime_core_inv h p p' : core p' = core p → prime_inv h p → prime_inv h p'.
Proof.
  unfold core. intros [= E1 E2 E3 E4 E5 E6 E7 E8 E9] [[] (ids & [])]. split.
  - split; unfold backed, firm, settled, roomy in *; rewrite ?E1, ?E2, ?E3, ?E4, ?E5, ?E6, ?E7, ?E8, ?E9; auto.
  - exists ids. split; unfold packet_ok, in_order, exec_idx, firm, settled, roomy in *; rewrite ?E3, ?E4, ?E5, ?E6; auto.
Qed.
(** What has been executed does not depend on the messages. *)
Lemma exec_same h p p' :
  (p_log p', p_index p', p_execIdx p', p_executedCmds p') = (p_log p, p_index p, p_execIdx p, p_executedCmds p) →
  (∃ ids, exec_ok h p ids) → ∃ ids, exec_ok h p' ids.
Proof.
  intros [= E1 E2 E3 E4] (ids & []). exists ids.
  split; unfold packet_ok, in_order, exec_idx, firm, settled, roomy in *; by rewrite ?E1, ?E2, ?E3, ?E4.
Qed.
Lemma keeps_prime_inv {A} h (m : M prime A) p :
  keeps core m p → prime_inv h p → wp m (λ _, prime_inv h) p.
Proof. intros Hk Hp. eapply wp_mono; [exact Hk|]. simpl. intros _ p' E. by eapply prime_core_inv. Qed.

(** ** Votes stay *)
Definition grows p p' : Prop :=
  (roomy p' → roomy p) ∧ ∀ i h, roomy p' → firm p i h → firm p' i h.
Lemma backed_grows p p' b : grows p p' → backed p b → backed p' b.
Proof. intros [Hr Hf] Hb m Hu Hv. destruct (Hb m Hu Hv) as [? Hm]. split; [done|]. intros Hp. auto. Qed.
Lemma packet_grows p p' i pkt : grows p p' → packet_ok p i pkt → packet_ok p' i pkt.
Proof. intros [Hr Hf] (x & ? & ? & Hx). exists x. split_and!; [done..|]. auto. Qed.

(** ** Changing an instance *)
Definition put i inst p : prime := p <| p_log ::= <[i := inst]> |>.

Lemma size_put i inst p : size (p_log p) ≤ size (p_log (put i inst p)).
Proof.
  cbn. destruct (p_log p !! i) eqn:Hi; [by rewrite map_size_insert_Some by eauto|].
  rewrite map_size_insert_None by done. lia.
Qed.
Lemma roomy_put i inst p : roomy (put i inst p) → roomy p.
Proof. unfold roomy. pose proof (size_put i inst p). lia. Qed.

Lemma put_grows i inst p :
  (∀ inst0, p_log p !! i = Some inst0 → hash_le inst0 inst) → grows p (put i inst p).
Proof.
  intros Hle. split; [apply roomy_put|]. intros j h _ (Hs & inst0 & Hj & [x Hx] & He). split; [done|]. cbn.
  destruct (decide (i = j)) as [->|Hne].
  - exists inst. rewrite lookup_insert_eq, (Hle _ Hj x Hx), <-Hx. rewrite Hx in *. by repeat split.
  - exists inst0. rewrite lookup_insert_ne by done. by rewrite Hx in *.
Qed.

(** What the messages and the log depend on. *)
Lemma base_same p p' :
  (p_id p', p_f p', p_log p', p_index p', (p_signDispatcher p', p_callbackC p', p_msgs p')) =
  (p_id p, p_f p, p_log p, p_index p, (p_signDispatcher p, p_callbackC p, p_msgs p)) → base p → base p'.
Proof.
  intros [= E1 E2 E3 E4 E5 E6 E7] []. split; unfold backed, firm, settled, roomy in *;
    rewrite ?E1, ?E2, ?E3, ?E4, ?E5, ?E6, ?E7; auto.
Qed.
Lemma put_base i inst p :
  inst_ok i inst →
  (roomy p → (InstanceState_PreOrder ≤ status inst)%Z → settled p i) →
  (∀ inst0, p_log p !! i = Some inst0 → hash_le inst0 inst) → base p → base (put i inst p).
Proof.
  intros Hok Hset Hle []. pose proof (put_grows i inst p Hle) as Hg. split; try done.
  - intros j inst'. cbn. rewrite lookup_insert. case_decide; [subst; by intros [= <-]|apply b_log0].
  - intros j inst'. cbn. rewrite lookup_insert. intros Hj Hr%roomy_put Hst. case_decide; [subst|by eapply b_settled0].
    injection Hj as <-. by apply Hset.
  - intros Hr%roomy_put. destruct (b_index0 Hr) as [? Hs]. split; [done|]. intros s Hs'. cbn. rewrite lookup_insert.
    case_decide; [by eexists|by apply Hs].
  - intros j Hj. destruct (b_jobs0 j Hj). split; [done|]. by apply (backed_grows p).
  - intros j Hj. destruct (b_callbacks0 j Hj). split; [done|]. by apply (backed_grows p).
  - intros m Hm. destruct (b_msgs0 m Hm) as (? & ? & ?). split_and!; [done..|]. by apply (backed_grows p).
  - intros j x Hj Hr. apply Hg; [done|]. apply b_floor0; [done|]. by eapply roomy_put.
Qed.
Lemma prime_put_inv h i inst p :
  inst_ok i inst →
  (roomy p → (InstanceState_PreOrder ≤ status inst)%Z → settled p i) →
  (∀ inst0, p_log p !! i = Some inst0 → hash_le inst0 inst) →
  (status inst = InstanceState_Executed → ∃ inst0, p_log p !! i = Some inst0 ∧ status inst0 = InstanceState_Executed) →
  prime_inv h p → prime_inv h (put i inst p).
Proof.
  intros Hok Hset Hle Hdone [Hb (ids & [])]. split; [by apply put_base|]. exists ids. split; try done.
  - eapply Forall2_impl; [exact eo_packets0|]. intros j pkt. by apply packet_grows, put_grows.
  - intros j inst'. cbn. rewrite lookup_insert. case_decide as E; [subst|apply eo_done0].
    intros [= <-] Hst. destruct (Hdone Hst) as (inst0 & Hi & Hst0). by eapply eo_done0.
Qed.

Lemma prime_wp_get_inst i Q p : (∀ inst, p_log p !! i = Some inst → Q inst p) → wp (get_inst i) Q p.
Proof.
  intros HQ. unfold get_inst. wp_step. wp_step. destruct (p_log p !! i); [|done]. wp_step. by apply HQ.
Qed.
Lemma prime_wp_with_inst i g (Q : unit → prime → Prop) p :
  (∀ inst inst', p_log p !! i = Some inst → g inst = Ret inst' → Q tt (put i inst' p)) → wp (with_inst i g) Q p.
Proof.
  intros HQ. unfold with_inst. wp_step. apply prime_wp_get_inst. intros inst Hi. wp_step. apply wp_lift.
  intros inst' Hg. wp_step. by eapply HQ.
Qed.
Lemma prime_put_put i inst inst' p : put i inst' (put i inst p) = put i inst' p.
Proof. unfold put, set, set_p_log. cbn. by rewrite insert_insert_eq. Qed.
(** The same when the instance has just been written. *)
Lemma prime_wp_with_put i g inst (Q : unit → prime → Prop) p :
  (∀ inst', g inst = Ret inst' → Q tt (put i inst' p)) → wp (with_inst i g) Q (put i inst p).
Proof.
  intros HQ. apply prime_wp_with_inst. intros inst0 inst'. cbn. rewrite lookup_insert_eq. intros [= <-] Hg.
  rewrite prime_put_put. by apply HQ.
Qed.

(** ** Messaging *)
#[local] Arguments Worker.pending : simpl never.
Lemma backed_sent p m b :
  Marshal (PrimeMessage_Preorder m) = Some b →
  (is_vote m → (m_Type m = PreOrderMessage_PORequest → iid_ReplicaID (m_InstanceID m) = id) ∧
    (roomy p → firm p (m_InstanceID m) (m_CommandHash m))) → backed p b.
Proof.
  intros (m' & Hu & Et & Ei & Eh)%Unmarshal_Preorder Hm m'' Hu' Hv. rewrite Hu in Hu'. injection Hu' as <-.
  unfold is_vote in *. rewrite Et, Ei in *. destruct (Hm Hv) as [? Hf]. split; [done|]. intros Hr.
  destruct (Hf Hr) as (? & inst & ? & ? & ?). split; [done|]. exists inst. split_and!; [done..|]. by etrans.
Qed.
Lemma backed_order p m b : Marshal (PrimeMessage_Order m) = Some b → backed p b.
Proof. intros [m' Hu]%Unmarshal_Order m'' Hu' _. rewrite Hu in Hu'. done. Qed.

Definition frame p := (p_id p, p_f p, p_log p, p_index p, p_olog p, p_poSummary p).
Lemma prime_broadcast_inv h m p :
  prime_inv h p → (∀ b, Marshal m = Some b → backed p b) →
  wp (broadcast m false) (λ _ p', prime_inv h p' ∧ frame p' = frame p) p.
Proof.
  intros Hp Hm. unfold broadcast. destruct (Marshal m) as [b|] eqn:Hb; [|done].
  specialize (Hm b eq_refl). wp_step. wp_step.
  apply (wp_for_each (λ p', prime_inv h p' ∧ frame p' = frame p)); [|done].
  intros node p1 _ [[[] Hx] E1]. wp_step; [wp_step|done]. simpl in *. split; [|done].
  match goal with Hn : bool_decide (node ≠ p_id p) = true |- _ => apply bool_decide_eq_true in Hn end.
  assert (p_log p1 = p_log p ∧ p_index p1 = p_index p ∧ p_id p1 = p_id p) as (E2 & E3 & E4).
  { unfold frame in E1. by injection E1. }
  split; [|by apply (exec_same h p1)]. split; try done. cbn. intros j. rewrite Worker.Exec_pending.
  intros [->|?]%elem_of_cons; [|by apply b_jobs0]. simpl. split; [congruence|].
  unfold backed, firm, settled, roomy in *. cbn. by rewrite E2, E3.
Qed.
Lemma broadcast_order_inv h m : preserves (prime_inv h) (broadcast (PrimeMessage_Order m) false).
Proof.
  intros p Hp. eapply wp_mono; [apply prime_broadcast_inv; [done|apply backed_order]|]. by intros _ p' [? _].
Qed.
Lemma broadcast_summary_inv h m p :
  m_Type m = PreOrderMessage_POSummary → prime_inv h p →
  wp (broadcast (PrimeMessage_Preorder m) false) (λ _, prime_inv h) p.
Proof.
  intros Ht Hp. eapply wp_mono; [apply prime_broadcast_inv; [done|]|by intros _ p' [? _]].
  intros b Hb. eapply backed_sent; [done|]. unfold is_vote. rewrite Ht. by intros [|].
Qed.

Lemma prime_AsyncCallback_inv h : preserves (prime_inv h) AsyncCallback.
Proof.
  unfold AsyncCallback. preserves_steps. unfold AsyncCallback_body. intros p [Hb Hx]. wp_step. wp_step.
  destruct (p_callbackC p) as [|[j cert] rest] eqn:Hc; [done|]. wp_step. wp_step. wp_step.
  unfold send_signed, enqueueForSending. wp_step. wp_step. split; [|by apply (exec_same h p)].
  assert (∀ jc, jc ∈ (j, cert) :: rest → sj_node jc.1 ≠ id ∧ backed p (sj_mBytes jc.1)) as Hj by (rewrite <-Hc; apply Hb).
  destruct Hb. split; try done; cbn.
  - intros jc Hin. apply (Hj jc). by right.
  - intros m [Hm|Hm]%elem_of_app; [by apply b_msgs0|]. apply list_elem_of_singleton in Hm as ->. simpl.
    split; [done|]. apply (Hj (j, cert)). by left.
Qed.
Lemma prime_worker_step_inv h cap e p p' : worker_step cap e p = Some p' → prime_inv h p → prime_inv h p'.
Proof.
  unfold worker_step. intros ([w cbs] & Hw & [= <-])%bind_Some [[] Hx].
  apply Worker.step_jobs in Hw as [Hj Hc]. split; [|by apply (exec_same h p)]. split; cbn; try done.
  - intros j Hin. by apply b_jobs0, Hj.
  - intros jc [?|[? _]]%Hc; [by apply b_callbacks0|by apply b_jobs0].
Qed.

(** ** Execution *)
Lemma certified_eqv i h h' : h ≈ h' → certified i h → certified i h'.
Proof.
  intros He (A & Hs & Hv). exists A. split; [done|]. intros j Hj. destruct (Hv j Hj) as [?|(h1 & ? & ?)]; [by left|right].
  exists h1. split; [done|]. by rewrite <-He.
Qed.
Lemma of_replica_snoc rid ids i :
  of_replica rid (ids ++ [i]) = of_replica rid ids ++ (if decide (iid_ReplicaID i = rid) then [i] else []).
Proof. unfold of_replica. rewrite filter_app, filter_cons, filter_nil. by case_decide. Qed.
Lemma of_replica_length rid ids : length (of_replica rid ids) ≤ length ids.
Proof. apply length_filter. Qed.
(** The next instance of a replica has not been executed. *)
Lemma next_not_done p ids rid :
  (Z.of_nat (length ids) + 1 < two64)%Z → in_order p ids → mkIID rid (exec_idx rid p) ∉ ids.
Proof.
  intros Hl Ho Hin. destruct (Ho rid) as (k & Hk & He).
  assert (mkIID rid (exec_idx rid p) ∈ of_replica rid ids) as Hin' by by apply list_elem_of_filter.
  pose proof (of_replica_length rid ids) as Hlen. rewrite Hk, length_fmap in Hlen. unfold slots in Hlen.
  rewrite length_fmap, length_seq in Hlen. rewrite Hk, He in Hin'.
  apply list_elem_of_fmap in Hin' as (s & [= <-] & Hs).
  pose proof (slots_NoDup (first rid) (S k) ltac:(lia)) as Hnd. rewrite slots_S in Hnd.
  apply NoDup_app in Hnd as (_ & Hnd & _). apply (Hnd _ Hs). by left.
Qed.

(** The instances of the log with at least an acknowledgement stay so. *)
Definition acked p i : Prop := ∃ inst, p_log p !! i = Some inst ∧ (InstanceState_PreOrderAck ≤ status inst)%Z.
Definition keeps_acked p p' : Prop := ∀ i, acked p i → acked p' i.

Lemma in_order_next p p' ids rid :
  in_order p ids → exec_idx rid p' = u64 (exec_idx rid p + 1) →
  (∀ r, r ≠ rid → exec_idx r p' = exec_idx r p) → in_order p' (ids ++ [mkIID rid (exec_idx rid p)]).
Proof.
  intros Ho He Hne r. destruct (Ho r) as (k & Hk & Ek). rewrite of_replica_snoc. simpl.
  case_decide as E; [subst r|].
  - exists (S k). rewrite Hk, slots_S, fmap_app. simpl. rewrite Ek. split; [done|].
    rewrite He, Ek, u64_add_l. f_equal. lia.
  - exists k. rewrite app_nil_r. split; [done|]. by rewrite Hne.
Qed.

Lemma execute_next h rid p :
  prime_inv h p → acked p (mkIID rid (exec_idx rid p)) →
  wp (execute_inst (mkIID rid (exec_idx rid p)))
    (λ _ p1, let p' := p1 <| p_execIdx := <[rid := u64 (exec_idx rid p1 + 1)]> (p_execIdx p1) |> in
      prime_inv h p' ∧ keeps_acked p p' ∧
      exec_idx rid p' = u64 (exec_idx rid p + 1) ∧ ∀ r, r ≠ rid → exec_idx r p' = exec_idx r p) p.
Proof.
  intros [Hb (ids & Hx)] (inst & Hi & Hst). set (i := mkIID rid (exec_idx rid p)) in *.
  unfold execute_inst. wp_step. apply prime_wp_get_inst. rewrite Hi. intros ? [= <-].
  pose proof (b_log _ Hb _ _ Hi) as Hok. destruct Hx as [Hpk Hdone Hord].
  assert (InstanceState_PreOrder ≤ status inst)%Z as Hst1.
  { unfold InstanceState_PreOrder, InstanceState_PreOrderAck in *. lia. }
  assert (∀ p1, p_execIdx p1 = p_execIdx p → let p2 := p1 <| p_execIdx := <[rid := u64 (exec_idx rid p1 + 1)]> (p_execIdx p1) |> in
    exec_idx rid p2 = u64 (exec_idx rid p + 1) ∧ ∀ r, r ≠ rid → exec_idx r p2 = exec_idx r p) as Hidx.
  { intros p1 E. unfold exec_idx. simpl. cbn. rewrite E, lookup_insert_eq. split; [done|]. intros r Hr.
    by rewrite lookup_insert_ne. }
  wp_step.
  - match goal with Hn : bool_decide (_ ≠ InstanceState_Executed) = true |- _ => apply bool_decide_eq_true in Hn end.
    destruct (io_cmd _ _ Hok) as (cmd & Hc & Hh); [done..|]. destruct (io_hash _ _ Hok) as [x Hhx]; [done|].
    unfold cmd_of in Hc. rewrite Hc. unfold Execute. wp_step. wp_step. wp_step.
    set (inst1 := inst <| i_is := _ |>).
    assert (inst_ok i inst1) as Hok1.
    { destruct Hok. split; try done; intros; first [by apply io_own0|by apply io_hash0|by apply io_cert0
        |match goal with Hne : status inst1 ≠ _ |- _ => by destruct Hne end]. }
    assert (∀ inst0, p_log p !! i = Some inst0 → hash_le inst0 inst1) as Hle by (rewrite Hi; intros ? [= <-]; by intros y).
    cbv zeta. match goal with |- prime_inv _ ?p' ∧ _ => set (p2 := p') end.
    pose proof (put_grows i inst1 p Hle) as Hg. destruct (Hidx (p <| p_executedCmds ::= λ l, l ++ [exec_pkt cmd] |>
      <| p_log ::= <[i := inst1]> |>) eq_refl) as [He1 He2].
    split; [split|split; [|by split]].
    + apply (base_same (put i inst1 p)); [done|]. apply put_base; [done| |done..].
      intros Hr _. by eapply b_settled.
    + exists (ids ++ [i]). split.
      * change (p_executedCmds p2) with (p_executedCmds p ++ [exec_pkt cmd]). rewrite app_assoc. apply Forall2_app.
        { eapply Forall2_impl; [exact Hpk|]. intros j pkt. exact (packet_grows p (put i inst1 p) j pkt Hg). }
        constructor; [|constructor]. exists x. rewrite <-Hhx. split; [by apply (io_cert _ _ Hok)|]. split; [done|].
        intros Hr. split; [eapply (b_settled p Hb); [done|by eapply (roomy_put i inst1)|done]|].
        exists inst1. split; [cbn; by rewrite lookup_insert_eq|]. change (hash inst1) with (hash inst). rewrite Hhx. by split; [eexists|].
      * intros j inst'. cbn. rewrite lookup_insert. case_decide; [subst; intros _ _; set_solver|].
        intros Hj Hs. apply elem_of_app. left. by eapply Hdone.
      * rewrite length_app. simpl. intros Hl. eapply in_order_next; [apply Hord; lia|done..].
    + intros j (inst0 & Hj & Hst0). unfold acked. cbn. destruct (decide (i = j)) as [->|Hne].
      * exists inst1. rewrite lookup_insert_eq. done.
      * exists inst0. by rewrite lookup_insert_ne.
  - match goal with Hn : bool_decide (_ ≠ InstanceState_Executed) = false |- _ => apply bool_decide_eq_false in Hn end.
    destruct (Hidx p eq_refl) as [He1 He2]. split; [|split; [by intros j|by split]].
    split; [by apply (base_same p)|]. exists ids. split; [done|done|]. intros Hl.
    destruct (next_not_done p ids rid Hl (Hord Hl)). eapply Hdone; [exact Hi|]. by apply dec_stable.
Qed.

(** The instances of a replica up to [max] are there with an acknowledgement. *)
Lemma available_keeps n rid (s : Z) max p p' :
  keeps_acked p p' → available_to n rid s max p = Ret true → available_to n rid s max p' = Ret true.
Proof.
  intros Hk. revert s. induction n as [|n IH]; intros s; [done|]. simpl. case_bool_decide; [done|].
  destruct (p_log p !! mkIID rid s) as [inst|] eqn:Hi; [|done]. case_bool_decide as Hst; [done|]. intros Ha.
  destruct (Hk (mkIID rid s)) as (inst' & -> & Hst'); [exists inst; split; [done|unfold status; lia]|].
  unfold status in Hst'. rewrite bool_decide_false by lia. by apply IH.
Qed.
Lemma execute_to_inv h n k rid max p :
  available_to n rid (exec_idx rid p) max p = Ret true → prime_inv h p →
  wp (execute_to k rid (exec_idx rid p) max)
    (λ _ p', prime_inv h p' ∧ keeps_acked p p' ∧ ∀ r, r ≠ rid → exec_idx r p' = exec_idx r p) p.
Proof.
  revert n p. induction k as [|k IH]; intros n p Ha Hp; [done|]. destruct n as [|n]; [done|]. simpl in *.
  destruct (bool_decide (max < exec_idx rid p)%Z); [wp_step; split; [done|split; [by intros i|done]]|].
  destruct (p_log p !! mkIID rid (exec_idx rid p)) as [inst|] eqn:Hi; [|done].
  case_bool_decide as Hst; [done|]. wp_step. eapply wp_mono.
  { apply execute_next; [done|]. exists inst. split; [done|unfold status; lia]. }
  simpl. intros _ p1 (Hp1 & Hk1 & He & Hne). wp_step. wp_step. rewrite <-He in Ha |- *. eapply wp_mono.
  { eapply IH; [by eapply available_keeps|done]. }
  simpl. intros _ p3 (Hp3 & Hk3 & Hne3). split; [done|]. split; [intros i Hin; auto|].
  intros r Hr. by rewrite Hne3, Hne.
Qed.

Lemma all_available_avail ids p m :
  all_available ids p = Ret true → m ∈ ids →
  ∃ n, available_to n (iid_ReplicaID m) (exec_idx (iid_ReplicaID m) p) (iid_Index m) p = Ret true.
Proof.
  induction ids as [|m' ids IH]; intros Ha Hin; [by apply elem_of_nil in Hin|].
  change (all_available (m' :: ids) p) with
    (ok ← available_to (S (size (p_log p))) (iid_ReplicaID m') (exec_idx (iid_ReplicaID m') p) (iid_Index m') p;
     if ok : bool then all_available ids p else Ret false) in Ha.
  destruct (available_to _ _ _ _ p) as [[]| |] eqn:Hm; [|done..].
  apply elem_of_cons in Hin as [->|Hin]; [by eexists|by apply IH].
Qed.
(** Every replica has one column. *)
Lemma columns_NoDup rows fl k ids :
  mapM (column_max rows fl) (seq 0 k) = Ret ids → NoDup (iid_ReplicaID <$> ids).
Proof.
  intros Hm%mapM_Ret. replace (iid_ReplicaID <$> ids) with (Z.of_nat <$> seq 0 k).
  - apply NoDup_fmap; [intros ? ?; lia|apply NoDup_seq].
  - induction Hm as [|x y l l' Hx _ IH]; [done|]. rewrite !fmap_cons, IH. f_equal. unfold column_max in Hx.
    outcome_inv. done.
Qed.

Lemma prime_exec_body_inv h : preserves (prime_inv h) exec_body.
Proof.
  intros p Hp. unfold exec_body. wp_step. wp_step. destruct (p_olog p !! p_oexecIdx p) as [oinst|]; [|by wp_step].
  destruct (negb _); [by wp_step|]. destruct (ois_POSummaryMatrix _) as [rows|]; [|done].
  wp_step. apply wp_lift. intros ids Hids. wp_step. apply wp_lift. intros [] Hav; simpl; [|by wp_step]. wp_step. apply columns_NoDup in Hids. eapply wp_mono.
  - apply (wp_for_each_done (λ done p', prime_inv h p' ∧ keeps_acked p p' ∧
      ∀ r, r ∉ iid_ReplicaID <$> done → exec_idx r p' = exec_idx r p)); [|split; [done|split; [by intros i|done]]].
    intros done m rest p1 El (Hp1 & Hk1 & Hidx). wp_step. wp_step.
    assert (iid_ReplicaID m ∉ iid_ReplicaID <$> done) as Hm.
    { rewrite El, fmap_app, fmap_cons in Hids. apply NoDup_app in Hids as (_ & Hd & _). intros Hin. apply (Hd _ Hin). by left. }
    destruct (all_available_avail ids p m Hav) as [n Hn]; [rewrite El; set_solver|]. rewrite <-(Hidx _ Hm) in Hn.
    eapply wp_mono; [eapply (execute_to_inv h _ (S (size (p_log p1)))); [by eapply available_keeps|done]|].
    simpl. intros _ p2 (Hp2 & Hk2 & Hne). split; [done|]. split; [intros i Hi; auto|]. intros r Hr.
    rewrite Hne, Hidx; [done|..]; intros ?; apply Hr; rewrite fmap_app; set_solver.
  - simpl. intros _ p1 (Hp1 & _). wp_step. eapply wp_mono.
    { apply keeps_prime_inv; [|done]. unfold set_ostatus, with_oinst, get_oinst. keeps_steps. }
    simpl. intros _ p2 Hp2. wp_step. wp_step. wp_step. by apply (prime_core_inv h p2).
Qed.
Lemma prime_exec_inv h : preserves (prime_inv h) exec.
Proof. unfold exec. preserves_steps. apply prime_exec_body_inv. Qed.

(** ** Instances that a message changes *)
Record tweaks inst inst' : Prop := {
  tw_id : is_InstanceID (i_is inst') = is_InstanceID (i_is inst);
  tw_status : status inst' = status inst;
  tw_votes : pCert inst' = pCert inst;
  tw_hash : hash_le inst inst';
  tw_cmd c : cmd_of inst = Some c → cmd_of inst' = Some c;
}.
Lemma tweaks_ok i inst inst' : tweaks inst inst' → inst_ok i inst → inst_ok i inst'.
Proof.
  intros [Ei Es Ev Hh Hc] []. split; rewrite ?Ei, ?Es, ?Ev; [done..| | |done|].
  - intros Hs. destruct (io_hash0 Hs) as [x Hx]. exists x. by apply Hh.
  - intros Hs Hne. destruct (io_cmd0 Hs Hne) as (c & Hcc & Hhas), (io_hash0 Hs) as [x Hx]. exists c.
    rewrite Hx in Hhas. by rewrite (Hh x Hx), (Hc c Hcc).
  - intros Hs. destruct (io_hash0 ltac:(unfold InstanceState_PreOrder, InstanceState_PreOrderAck in *; lia)) as [x Hx].
    rewrite (Hh x Hx), <-Hx. by apply io_cert0.
Qed.
Lemma put_tweak h i inst inst' p :
  p_log p !! i = Some inst → tweaks inst inst' → prime_inv h p → prime_inv h (put i inst' p).
Proof.
  intros Hi Ht Hp. pose proof (b_log _ (proj1 Hp) _ _ Hi) as Hok. apply prime_put_inv; [by eapply tweaks_ok|..]; [| | |done].
  - rewrite (tw_status _ _ Ht). by eapply b_settled; [apply Hp|].
  - rewrite Hi. intros ? [= <-]. apply Ht.
  - rewrite (tw_status _ _ Ht). eauto.
Qed.
Lemma put_new h i inst p :
  p_log p !! i = None → is_InstanceID (i_is inst) = i → status inst = InstanceState_None → pCert inst = ∅ →
  prime_inv h p → prime_inv h (put i inst p).
Proof.
  unfold InstanceState_None. intros Hi He Hs Hv Hp. apply prime_put_inv; [|intros _; rewrite Hs; done|by rewrite Hi| |done].
  - split; rewrite ?Hs, ?Hv; done.
  - rewrite Hs. done.
Qed.

Lemma tweaks_refl inst : tweaks inst inst.
Proof. split; try done. by intros x. Qed.
Lemma updateCommand_tweaks m inst ok inst' :
  updateCommand m inst = Ret (ok, inst') → tweaks inst inst' ∧ hash inst' = hash inst ∧
    (ok = true → ∀ c, m_Command m = Some c →
      ∃ c', cmd_of inst' = Some c' ∧ (c = c' ∨ Command_Equal c' (Some c) = Ret true)).
Proof.
  unfold updateCommand. destruct (is_Command (i_is inst)) as [c|] eqn:Hc.
  - destruct (Command_Equal c (m_Command m)) as [e| |] eqn:He; [|done..]. intros [= <- <-]. split; [apply tweaks_refl|].
    split; [done|]. intros -> c' Hm. rewrite Hm in He. exists c. split; [done|by right].
  - intros [= <- <-]. split; [split; try done; cbn; [by intros x|unfold cmd_of; by rewrite Hc]|]. split; [done|].
    intros _ c' Hm. exists c'. split; [by rewrite <-Hm|by left].
Qed.
Lemma updateCommandHash_tweaks m inst ok inst' :
  updateCommandHash m inst = Ret (ok, inst') → tweaks inst inst' ∧ cmd_of inst' = cmd_of inst ∧
    (ok = true → hash inst' ≈ m_CommandHash m).
Proof.
  unfold updateCommandHash. destruct (is_CommandHash (i_is inst)) as [x|] eqn:Hx.
  - intros [= <- <-]. split; [apply tweaks_refl|]. split; [done|]. unfold hash. rewrite Hx. by intros ?%bytes_Equal_spec.
  - intros [= <- <-]. split; [split; try done; unfold hash_le, hash; by rewrite Hx|]. by split.
Qed.
Lemma tweaks_trans inst1 inst2 inst3 : tweaks inst1 inst2 → tweaks inst2 inst3 → tweaks inst1 inst3.
Proof.
  intros [E1 E2 E3 E4 E5] [F1 F2 F3 F4 F5]. split; [congruence..| |auto]. intros x Hx. auto.
Qed.
Lemma check_both_tweaks m inst ok inst' :
  check_both (updateCommand m) (updateCommandHash m) inst = Ret (ok, inst') → tweaks inst inst' ∧
    (ok = true → hash inst' ≈ m_CommandHash m ∧ ∀ c, m_Command m = Some c →
      ∃ c', cmd_of inst' = Some c' ∧ (c = c' ∨ Command_Equal c' (Some c) = Ret true)).
Proof.
  unfold check_both. destruct (updateCommand m inst) as [[ok1 inst1]| |] eqn:Hu; [|done..]. simpl.
  apply updateCommand_tweaks in Hu as (Ht1 & _ & Hc). destruct ok1; [|by intros [= <- <-]].
  intros (Ht2 & Ec & Hh)%updateCommandHash_tweaks. split; [by eapply tweaks_trans|]. intros Hok.
  split; [by apply Hh|]. rewrite Ec. by apply Hc.
Qed.

Lemma prime_fetch_inv h checks m p :
  (∀ inst ok inst', checks inst = Ret (ok, inst') → tweaks inst inst') → prime_inv h p →
  wp (fetch_instance checks m) (λ ok p', prime_inv h p' ∧ ∃ inst', p_log p' !! m_InstanceID m = Some inst' ∧
    (ok = true → inst' = makeInstance m ∨ ∃ inst, checks inst = Ret (true, inst'))) p.
Proof.
  intros Hc Hp. unfold fetch_instance. wp_step. wp_step. destruct (p_log p !! m_InstanceID m) as [inst|] eqn:Hi.
  - wp_step. apply wp_lift. intros [ok inst'] Hch. wp_step. wp_step. wp_step. split.
    + eapply (put_tweak h (m_InstanceID m) inst inst'); [done|by eapply Hc|done].
    + exists inst'. cbn. rewrite lookup_insert_eq. split; [done|]. intros ->. right. by exists inst.
  - wp_step. wp_step. wp_step. split; [by apply (put_new h (m_InstanceID m) (makeInstance m))|].
    exists (makeInstance m). cbn. rewrite lookup_insert_eq. split; [done|]. by left.
Qed.

(** ** The handlers of the broadcast *)
Lemma summarize_inv h i : preserves (prime_inv h) (summarize i).
Proof. intros p Hp. apply keeps_prime_inv; [|done]. unfold summarize. keeps_steps. Qed.
Lemma certified_majority i m inst p :
  inst_ok i inst → p_f p = f → quorum_Majority (p_f p) m (pCert inst) = true → certified i (m_CommandHash m).
Proof.
  intros Hok -> (A & Hs & Hv)%Majority_senders. exists A. split; [done|]. intros j Hj.
  destruct (Hv j Hj) as (m' & Hm' & He). apply (io_votes _ _ Hok) in Hm' as [->|(h' & Hh & He')]; [by left|].
  right. exists h'. split; [done|]. by rewrite He.
Qed.
Lemma maybeAck_inv h i m p :
  (∀ inst, p_log p !! i = Some inst → hash inst ≈ m_CommandHash m) → prime_inv h p →
  wp (maybeAck i m) (λ _, prime_inv h) p.
Proof.
  intros Hh Hp. unfold maybeAck. wp_step. apply prime_wp_get_inst. intros inst Hi. wp_step. wp_step.
  pose proof (b_log _ (proj1 Hp) _ _ Hi) as Hok. apply wp_when; [|done]. intros [Hq Hst%bool_decide_eq_true]%andb_true_iff.
  apply (certified_majority i) in Hq; [|done|apply Hp]. wp_step.
  apply prime_wp_with_inst. intros inst0 inst' Hi0 [= <-]. rewrite Hi in Hi0. injection Hi0 as <-.
  apply summarize_inv. apply prime_put_inv; [| | |done|done].
  - destruct Hok. unfold status in *. rewrite Hst in *. split; try done; cbn.
    + intros _. by apply io_own0.
    + intros _. by apply io_hash0.
    + intros _ _. by apply io_cmd0.
    + intros _. eapply certified_eqv; [|done]. by rewrite (Hh _ Hi).
  - intros Hr _. eapply b_settled; [apply Hp|done..|]. unfold status. by rewrite Hst.
  - rewrite Hi. intros ? [= <-]. by intros x.
Qed.

Lemma onPOAck_inv h m from p :
  heard from (m_InstanceID m) (m_CommandHash m) → prime_inv h p → wp (onPOAck m from) (λ _, prime_inv h) p.
Proof.
  intros Hheard Hp. unfold onPOAck. wp_step. eapply wp_mono.
  { apply prime_fetch_inv; [|done]. intros inst ok inst' Hu. by apply updateCommandHash_tweaks in Hu as [? _]. }
  simpl. intros ok p1 (Hp1 & inst' & Hi & Hok). wp_step; [done|]. destruct ok; [|done].
  assert (hash inst' ≈ m_CommandHash m) as Hh.
  { destruct (Hok eq_refl) as [->|(inst & Hu)]; [done|]. apply updateCommandHash_tweaks in Hu as (_ & _ & Hu). by apply Hu. }
  wp_step. apply prime_wp_with_inst. intros inst0 inst1 Hi0 Hq. rewrite Hi in Hi0. injection Hi0 as <-.
  outcome_inv. apply maybeAck_inv; [cbn; rewrite lookup_insert_eq; intros ? [= <-]; exact Hh|].
  pose proof (b_log _ (proj1 Hp1) _ _ Hi) as [Hid Hown Hhash Hcmd Hvotes Hcert].
  match goal with Hl : quorum_log _ _ _ = _ |- _ => apply log_pCert_entries in Hl as [Hno ->] end.
  apply prime_put_inv; [| | | |done].
  - split; try done; cbn.
    + intros Hs. destruct (Hown Hs) as [x Hx]. rewrite lookup_insert. case_decide; by eexists.
    + intros j m'. rewrite lookup_insert. case_decide; [subst; intros [= <-]|apply Hvotes]. right. by eexists.
  - exact (b_settled _ (proj1 Hp1) _ _ Hi).
  - rewrite Hi. intros ? [= <-]. by intros x.
  - intros Hs. by exists inst'.
Qed.

(** The hash of a command is not nil. *)
Lemma command_hash_Some cmd hh y : command_hash cmd = Ret y → hh ≈ y → is_Some hh ∧ is_Some y ∧ is_Some cmd.
Proof.
  unfold command_hash. destruct cmd as [c|]; [|done]. destruct (Marshal c) as [b|]; [|done]. intros [= <-] He.
  split; [|by split; eexists]. destruct hh as [x|]; [by eexists|]. pose proof (length_sha256 b) as Hl.
  unfold slice_eqv in He. simpl in He. by rewrite <-He in Hl.
Qed.
(** What the replica votes for it has in its log. *)
Lemma broadcast_vote_inv h m inst p :
  is_vote m → (m_Type m = PreOrderMessage_PORequest → iid_ReplicaID (m_InstanceID m) = id) →
  p_log p !! m_InstanceID m = Some inst → hash inst = m_CommandHash m → is_Some (hash inst) →
  (roomy p → settled p (m_InstanceID m)) → prime_inv h p →
  wp (broadcast (PrimeMessage_Preorder m) false) (λ _ p', prime_inv h p' ∧ p_log p' = p_log p) p.
Proof.
  intros Hv Ht Hi Hh Hs Hset Hp. eapply wp_mono; [apply prime_broadcast_inv; [done|]|].
  - intros b Hb. eapply backed_sent; [done|]. intros _. split; [done|]. intros Hr. split; [by apply Hset|].
    exists inst. by rewrite Hh in *.
  - intros _ p' [? E]. split; [done|]. unfold frame in E. by injection E.
Qed.

Lemma onPORequest_inv h m from p :
  m_Type m = PreOrderMessage_PORequest → foreign (m_InstanceID m) →
  heard from (m_InstanceID m) (m_CommandHash m) → prime_inv h p → wp (onPORequest m from) (λ _, prime_inv h) p.
Proof.
  intros Ht Hfor Hheard Hp. unfold onPORequest. wp_step. apply wp_lift. intros ok Hck. destruct ok; [|done]. simpl.
  unfold checkCommandHash in Hck. destruct (command_hash (m_Command m)) as [y| |] eqn:Hy; [|done..].
  injection Hck as Hck%bytes_Equal_spec.
  destruct (command_hash_Some _ _ _ Hy Hck) as (Hmh & [x ->] & [c Hc]). rewrite Hc in Hy.
  wp_step. eapply wp_mono.
  { apply prime_fetch_inv; [|done]. intros inst ok inst' Hu. by apply check_both_tweaks in Hu as [? _]. }
  simpl. intros ok p1 (Hp1 & inst & Hi & Hok). wp_step; [done|]. destruct ok; [|done].
  assert (hash inst ≈ m_CommandHash m ∧ ∃ c', cmd_of inst = Some c' ∧ (c = c' ∨ Command_Equal c' (Some c) = Ret true))
    as (Hh & c' & Hc' & Heq).
  { destruct (Hok eq_refl) as [->|(inst0 & Hu)]; [split; [done|]; exists c; split; [done|by left]|].
    apply check_both_tweaks in Hu as (_ & Hu). destruct (Hu eq_refl) as [? Hcc]. split; [done|by apply Hcc]. }
  destruct (command_hash_Some _ (hash inst) _ Hy ltac:(by rewrite Hh)) as ([z Hz] & _ & _).
  pose proof (b_log _ (proj1 Hp1) _ _ Hi) as [Hid _ _ _ Hvotes _]. set (i := m_InstanceID m) in *.
  wp_step. apply prime_wp_with_inst. intros inst0 inst1 Hi0 Hq. rewrite Hi in Hi0. injection Hi0 as <-. outcome_inv.
  wp_step. apply prime_wp_with_put. intros inst2 [= <-]. wp_step. apply prime_wp_get_inst. cbn. rewrite lookup_insert_eq.
  intros ? [= <-]. wp_step. wp_step. wp_step. apply prime_wp_with_put. intros inst3 Hq3. outcome_inv.
  repeat match goal with Hl : quorum_log _ _ _ = _ |- _ => apply log_pCert_entries in Hl as [? ->] end.
  match goal with |- wp _ _ (put i ?inst p1) => set (inst3 := inst) end.
  change (p_id (put i inst p1)) with (p_id p1) in *. change (is_CommandHash (i_is inst)) with (hash inst).
  assert (prime_inv h (put i inst3 p1)) as Hp3.
  { apply prime_put_inv; [|by left|rewrite Hi; intros ? [= <-]; by intros w|done|done]. split; try done; cbn.
    - intros _. rewrite (b_id _ (proj1 Hp1)), lookup_insert_eq. by eexists.
    - intros _ _. exists c'. split; [done|]. exists c, x. split; [done|]. split; [by rewrite <-Hck|].
      destruct Heq as [->|?]; [by left|by right].
    - intros j m'. rewrite !lookup_insert. case_decide; [subst|case_decide; [subst|apply Hvotes]].
      + intros [= <-]. left. apply Hp1.
      + intros [= <-]. right. by eexists. }
  wp_step. eapply wp_mono.
  - eapply (broadcast_vote_inv h _ inst3); [by right|done|cbn; by rewrite Hid, lookup_insert_eq|done|by exists z| |done].
    intros _. left. cbn. by rewrite Hid.
  - simpl. intros _ p4 [Hp4 E4]. apply maybeAck_inv; [|done]. rewrite E4. cbn. rewrite lookup_insert_eq.
    by intros ? [= <-].
Qed.

(** ** Requests *)

(** The next own instance, with the replica's vote. *)
Definition next_own p inst : prime := put (mkIID id (p_index p)) inst (p <| p_index := u64 (p_index p + 1) |>).
Lemma prime_next_index p inst : base p → roomy (next_own p inst) → (p_index (next_own p inst) = p_index p + 1)%Z.
Proof.
  intros Hb Hr. assert (roomy p) as Hr0 by by apply (roomy_put (mkIID id (p_index p)) inst).
  destruct (b_index _ Hb Hr0) as [Hi1 Hi]. cbn. apply u64_id.
  set (X := list_to_set (mkIID id <$> seqZ 1 (p_index p)) : gset InstanceID).
  assert (X ⊆ dom (p_log (next_own p inst))) as Hsub.
  { intros i (s & -> & [? Hs]%elem_of_seqZ)%elem_of_list_to_set%list_elem_of_fmap. apply elem_of_dom. cbn.
    rewrite lookup_insert. case_decide as E; [by eexists|]. apply Hi. split; [done|].
    destruct (decide (s = p_index p)) as [->|]; [done|lia]. }
  apply subseteq_size in Hsub. rewrite size_dom in Hsub. unfold X in Hsub.
  rewrite size_list_to_set, length_fmap, length_seqZ in Hsub; [|apply NoDup_fmap; [congruence|apply NoDup_seqZ]].
  unfold roomy in Hr. lia.
Qed.
Lemma next_grows p inst : base p → grows p (next_own p inst).
Proof.
  intros Hb. split; [apply (roomy_put (mkIID id (p_index p)) inst)|].
  intros j hh Hr (Hs & inst0 & Hj & Hh & He). pose proof (prime_next_index p inst Hb Hr) as Hi.
  split; [destruct Hs as [|Hs]; [by left|right; lia]|]. exists inst0. split; [|done]. cbn.
  rewrite lookup_insert_ne; [done|]. intros <-. destruct Hs as [Hs|Hs]; [by destruct Hs|simpl in Hs; lia].
Qed.
Lemma next_inv h p inst :
  inst_ok (mkIID id (p_index p)) inst → status inst ≠ InstanceState_Executed →
  prime_inv h p → prime_inv h (next_own p inst).
Proof.
  intros Hok Hne [Hb (ids & [])]. pose proof (next_grows p inst Hb) as Hg. pose proof (prime_next_index p inst Hb) as Hi.
  assert (∀ i, roomy (next_own p inst) → settled p i → settled (next_own p inst) i) as Hset.
  { intros i Hr [|Hs]; [by left|right]. rewrite Hi by done. lia. }
  split; [|exists ids; split; [|intros i inst0; cbn; rewrite lookup_insert; case_decide as E; [|apply eo_done0]|done]].
  - pose proof Hb as []. split; try done.
    + intros j inst0. cbn. rewrite lookup_insert. case_decide; [subst; by intros [= <-]|apply b_log0].
    + intros j inst0 Hj Hr Hst. destruct (decide (j = mkIID id (p_index p))) as [->|Hnj].
      * right. rewrite Hi by done. simpl. lia.
      * cbn in Hj. rewrite lookup_insert_ne in Hj by done. apply Hset; [done|]. eapply b_settled0; [done| |done].
        by apply Hg.
    + intros Hr. rewrite Hi by done. destruct (b_index0 (proj1 Hg Hr)) as [? Hs]. split; [lia|]. intros s Hs'. cbn.
      rewrite lookup_insert. case_decide as E; [by eexists|]. apply Hs. split; [lia|].
      destruct (decide (s = p_index p)) as [->|]; [done|lia].
    + intros j Hj. destruct (b_jobs0 j Hj). split; [done|]. by apply (backed_grows p).
    + intros j Hj. destruct (b_callbacks0 j Hj). split; [done|]. by apply (backed_grows p).
    + intros m Hm. destruct (b_msgs0 m Hm) as (? & ? & ?). split_and!; [done..|]. by apply (backed_grows p).
    + intros j x Hj Hr. apply Hg; [done|]. apply b_floor0; [done|]. by apply Hg.
  - eapply Forall2_impl; [exact eo_packets0|]. intros j pkt. by apply packet_grows.
  - subst i. by intros [= <-].
Qed.

Lemma prime_onRequest_inv h c : preserves (prime_inv h) (onRequest c).
Proof.
  intros p Hp. unfold onRequest. wp_step. wp_step. wp_step. wp_step. wp_step. apply wp_lift. intros y Hy.
  wp_step. wp_step. pose proof (b_id _ (proj1 Hp)) as Hid. rewrite Hid.
  destruct (command_hash_Some _ y _ Hy ltac:(done)) as (_ & [x ->] & _).
  set (i := mkIID id (p_index p)). wp_step.
  match goal with |- wp (log_pCert i id ?m) _ (set p_log (<[i := ?inst]>) ?p1) => set (pm := m); set (inst0 := inst);
    change (set p_log (<[i := inst0]>) p1) with (put i inst0 p1) end.
  apply prime_wp_with_put. intros inst1 Hq. outcome_inv.
  match goal with Hl : quorum_log _ _ _ = _ |- _ => apply log_pCert_entries in Hl as [_ ->] end.
  match goal with |- wp _ _ (put i ?inst ?p1) => set (inst1 := inst); change (put i inst1 p1) with (next_own p inst1) end.
  assert (prime_inv h (next_own p inst1)) as Hp1.
  { apply next_inv; [|done|done]. split; try done; cbn.
    - intros _. rewrite lookup_insert_eq. by eexists.
    - intros _ _. exists c. split; [done|]. exists c, x. split; [done|]. split; [done|by left].
    - intros j m. rewrite lookup_insert. case_decide; [subst|unfold newQuorum; by rewrite lookup_empty]. intros _. by left. }
  eapply wp_mono.
  - eapply (broadcast_vote_inv h pm inst1); [by left|done|cbn; by rewrite lookup_insert_eq|done|by eexists| |done].
    intros Hr. right. rewrite (prime_next_index p inst1); [simpl; lia|apply Hp|done].
  - by intros _ p' [? _].
Qed.

(** ** Summaries, and the ordering of the matrices *)
Lemma put_summary_inv h r s : preserves (prime_inv h) (put_summary r s).
Proof. intros p Hp. apply keeps_prime_inv; [|done]. unfold put_summary. keeps_steps. Qed.
Lemma sendSummary_inv h : preserves (prime_inv h) sendSummary.
Proof.
  intros p Hp. unfold sendSummary. wp_step. wp_step. wp_step. eapply wp_mono; [by apply put_summary_inv|].
  simpl. intros _ p1. by apply broadcast_summary_inv.
Qed.
Lemma onPOSummary_inv h m from : preserves (prime_inv h) (onPOSummary m from).
Proof. apply put_summary_inv. Qed.

Lemma prime_with_oinst_inv h (s : Z) g : preserves (prime_inv h) (with_oinst s g).
Proof. intros p Hp. apply keeps_prime_inv; [|done]. unfold with_oinst, get_oinst. keeps_steps. Qed.
Lemma get_oinst_inv h (s : Z) : preserves (prime_inv h) (get_oinst s).
Proof. intros p Hp. apply keeps_prime_inv; [|done]. unfold get_oinst. keeps_steps. Qed.
Lemma prime_fetch_oinstance_inv h checks m : preserves (prime_inv h) (fetch_oinstance checks m).
Proof. intros p Hp. apply keeps_prime_inv; [|done]. unfold fetch_oinstance. keeps_steps. Qed.
#[local] Hint Resolve prime_exec_inv broadcast_order_inv prime_with_oinst_inv get_oinst_inv prime_fetch_oinstance_inv : go_inv.
Lemma prime_set_ostatus_inv h (s st : Z) : preserves (prime_inv h) (set_ostatus s st).
Proof. apply prime_with_oinst_inv. Qed.
Lemma log_opCert_inv h (s j : Z) m : preserves (prime_inv h) (log_opCert s j m).
Proof. apply prime_with_oinst_inv. Qed.
Lemma log_ocCert_inv h (s j : Z) m : preserves (prime_inv h) (log_ocCert s j m).
Proof. apply prime_with_oinst_inv. Qed.
#[local] Hint Resolve prime_set_ostatus_inv log_opCert_inv log_ocCert_inv : go_inv.
Lemma prime_maybeCommit_inv h (s : Z) m : preserves (prime_inv h) (maybeCommit s m).
Proof. unfold maybeCommit. preserves_steps. Qed.
#[local] Hint Resolve prime_maybeCommit_inv : go_inv.
Lemma prime_maybePrepare_inv h (s : Z) m : preserves (prime_inv h) (maybePrepare s m).
Proof. unfold maybePrepare. preserves_steps. Qed.
#[local] Hint Resolve prime_maybePrepare_inv : go_inv.
Lemma stepOrder_inv h m from : preserves (prime_inv h) (stepOrder m from).
Proof. unfold stepOrder, onPrePrepare, onPrepare, onCommit. preserves_steps. Qed.
Lemma sendPrePrepare_inv h : preserves (prime_inv h) sendPrePrepare.
Proof.
  unfold sendPrePrepare. preserves_steps; apply preserves_modify; intros p; by apply prime_core_inv.
Qed.
Lemma prime_Tick_inv h : preserves (prime_inv h) Tick.
Proof.
  unfold Tick, tick_one, run_action. pose proof sendSummary_inv. pose proof sendPrePrepare_inv.
  preserves_steps; try done. apply preserves_modify. intros p. by apply prime_core_inv.
Qed.

(** ** Runs *)

(** The votes of a message are heard, and nobody else proposes for the own
    instances. *)
Definition hears (c : call) : Prop :=
  match c with
  | Call_Step msg => ∀ m, Unmarshal (msg_Content msg) = Some (PrimeMessage_Preorder m) → is_vote m →
      heard (msg_From msg) (m_InstanceID m) (m_CommandHash m) ∧
      (m_Type m = PreOrderMessage_PORequest → foreign (m_InstanceID m))
  | _ => True
  end.
Lemma prime_Step_inv h msg p : hears (Call_Step msg) → prime_inv h p → wp (Step msg) (λ _, prime_inv h) p.
Proof.
  intros Hh Hp. unfold Step. destruct (Unmarshal (msg_Content msg)) as [[m|m|m|]|] eqn:Hu; [| | | |done].
  - wp_step; [done|]. unfold stepPreOrder. repeat case_decide; [..|done].
    + destruct (Hh m Hu) as [? Hf]; [by left|]. apply onPORequest_inv; [done|by apply Hf|done..].
    + destruct (Hh m Hu) as [? _]; [by right|]. by apply onPOAck_inv.
    + by apply onPOSummary_inv.
  - wp_step; [done|]. by apply stepOrder_inv.
  - wp_step; [done|]. by wp_step.
  - wp_step; [done|]. by wp_step.
Qed.

Definition pool_step (cap : nat) p p' : Prop := ∃ e, worker_step cap e p = Some p'.
Lemma prime_invariant cap : invariant_with (pool_step cap) hears prime_inv.
Proof.
  split.
  - intros [msg|c| |cb| |] h p Hc Hp; simpl.
    + by apply prime_Step_inv.
    + by apply prime_onRequest_inv.
    + by apply prime_Tick_inv.
    + done.
    + by apply prime_AsyncCallback_inv.
    + unfold ClearMsgs. wp_step. destruct Hp as [Hb Hx]. split; [|by apply (exec_same h p)].
      destruct Hb. split; try done. by intros m ?%not_elem_of_nil.
  - intros h p p' [e He]. by eapply prime_worker_step_inv.
  - intros h p Hp. simpl. unfold MakeReady, ClearMsgs, ClearExecutedCommands. wp_step. intros sent.
    assert (∀ p1, base p1 → (p_log p1, p_index p1, p_execIdx p1) = (p_log p, p_index p, p_execIdx p) →
      prime_inv (h ++ p_executedCmds p) (p1 <| p_executedCmds := [] |>)) as Hc.
    { intros p1 Hb [= E1 E2 E3]. split; [by apply (base_same p1)|]. destruct Hp as [_ (ids & [])]. exists ids.
      split; unfold packet_ok, in_order, exec_idx, firm, settled, roomy in *; cbn; rewrite ?app_nil_r, ?E1, ?E2, ?E3; auto. }
    pose proof Hp as [Hb _]. wp_step. wp_step; wp_step; [wp_step|]; apply Hc; try done.
    destruct Hb. split; try done. by intros m ?%not_elem_of_nil.
Qed.
End invariant.

(** ** From the first state *)
Section start.
Context `{GoEnv, !GoEnvLaws, MapRange, Codec Command, Codec POSummaryMatrix, Codec PrimeMessage, Certifier, !PrimeCodecLaws}.
Implicit Types (c : Config) (p : prime).

(** The index of the first instance of a replica that is executed. *)
Definition first_index c (rid : Z) : Z := if decide (0 ≤ rid < Z.of_nat (length (cfg_Peers c)))%Z then 1 else 0.
Abbreviation config_inv c := (prime_inv (cfg_ID c) (cfg_MaxFailures c) (first_index c)).

Lemma first_exec_idx n rid :
  default 0%Z ((list_to_map ((λ i, (Z.of_nat i, 1%Z)) <$> seq 0 n) : gmap Z Z) !! rid) =
  if decide (0 ≤ rid < Z.of_nat n)%Z then 1%Z else 0%Z.
Proof.
  case_decide as Hr.
  - rewrite (elem_of_list_to_map_1 _ rid 1%Z); [done| |].
    + rewrite <-list_fmap_compose. apply NoDup_fmap; [intros ? ?; simpl; lia|apply NoDup_seq].
    + apply list_elem_of_fmap. exists (Z.to_nat rid). rewrite elem_of_seq. split; [f_equal; lia|lia].
  - rewrite not_elem_of_list_to_map_1; [done|]. rewrite <-list_fmap_compose.
    intros (i & -> & Hi%elem_of_seq)%list_elem_of_fmap. simpl in Hr. lia.
Qed.
#[local] Arguments Worker.NewDispatcher : simpl never.
#[local] Arguments two64 : simpl never.
Lemma NewPrime_inv heard c p : NewPrime c = Ret p → config_inv c heard ∅ [] p.
Proof.
  unfold NewPrime. destruct (matrix_hash _) as [x| |]; [|done..]. cbn.
  destruct (cfg_Workers c !! _) as [n|]; [|done]. destruct (cfg_WorkersQueueSizes c !! _); [|done]. intros [= <-].
  split; [split; try done; cbn|].
  - intros _. split; [done|]. lia.
  - intros j. rewrite Worker.NewDispatcher_pending. by intros ?%not_elem_of_nil.
  - by intros jc ?%not_elem_of_nil.
  - by intros m ?%not_elem_of_nil.
  - exists []. split; [done|done|]. intros _ rid. exists 0. split; [done|]. unfold exec_idx, first_index. cbn.
    rewrite first_exec_idx. by case_decide.
Qed.

(** What was voted for stays in the log. *)
Lemma sent_firm c heard cap h1 p1 h p msg m :
  config_inv c heard ∅ h1 p1 → runs_with (pool_step cap) (hears (cfg_ID c) heard) h1 p1 h p →
  msg ∈ p_msgs p1 → Unmarshal (msg_Content msg) = Some (PrimeMessage_Preorder m) → is_vote m → roomy p →
  firm (cfg_ID c) p (m_InstanceID m) (m_CommandHash m).
Proof.
  intros Hp1 Hrun Hmsg Hu Hv Hr. set (x := default [] (m_CommandHash m)).
  destruct (b_msgs _ _ _ _ _ (proj1 Hp1) _ Hmsg) as (_ & _ & Hb). destruct (Hb m Hu Hv) as [_ Hfirm].
  assert (∀ p i, firm (cfg_ID c) p i (m_CommandHash m) ↔ firm (cfg_ID c) p i (Some x)) as Heq.
  { assert (Some x ≈ m_CommandHash m) as Hx by done. intros p0 i. unfold firm. by setoid_rewrite Hx. }
  assert (config_inv c heard {[m_InstanceID m := x]} h1 p1) as Hp1'.
  { destruct Hp1 as [[] ?]. split; [split|]; try done. intros i y [<- <-]%lookup_singleton_Some Hr1. apply Heq. auto. }
  pose proof (runs_with_inv _ _ _ _ _ _ _ (prime_invariant _ _ _ heard _ cap) Hrun Hp1') as [Hb1 _].
  apply Heq. apply (b_floor _ _ _ _ _ Hb1); [apply lookup_singleton_eq|done].
Qed.
End start.
