(* ===== verification/PrimeEnds.v ===== *)
(** * The loops of Prime end

    [summarize], [exec] and the loops of [exec] over the instances of a replica
    stop at an index that is not in the log: a walk along the indexes that goes on
    for more steps than the log has instances comes to one, as long as the log
    holds fewer than [2^64] instances. *)
From S2P Require Import Prelude Command Worker Certifier Peer Prime PrimeSafety.
Import Prime.

(** The first [n] indexes of a walk from [s]. *)
Fixpoint walk (s : Z) (n : nat) : list Z :=
  match n with O => [] | S n => s :: walk (u64 (s + 1)) n end.
Lemma walk_slots s n : walk (u64 s) n = slots s n.
Proof.
  revert s. induction n as [|n IH]; intros s; [done|]. simpl. rewrite u64_add_l, IH. unfold slots. simpl.
  rewrite Z.add_0_r. f_equal. rewrite <-fmap_S_seq, <-list_fmap_compose. apply list_fmap_ext. intros _ k _. simpl.
  f_equal. lia.
Qed.
Lemma walk_NoDup s n : (Z.of_nat n ≤ two64)%Z → NoDup (walk s n).
Proof.
  destruct n as [|n]; [constructor|]. intros Hn. simpl. rewrite walk_slots. constructor; [|apply slots_NoDup; lia].
  destruct (decide (0 ≤ s < two64)%Z) as [Hs|Hs].
  - intros (k & E & Hk%elem_of_seq)%list_elem_of_fmap. pose proof (u64_id s Hs) as Es. simpl in E. unfold u64 in E, Es.
    assert ((1 + Z.of_nat k) `mod` two64 = 0)%Z as Hm.
    { replace (1 + Z.of_nat k)%Z with ((s + 1 + Z.of_nat k) - s)%Z by lia. rewrite Zminus_mod, <-E, Es, Z.sub_diag. done. }
    rewrite Z.mod_small in Hm; unfold two64 in *; lia.
  - intros (k & E & _)%list_elem_of_fmap. destruct Hs. rewrite E. apply u64_range.
Qed.
(** A walk through the log is no longer than the log is big. *)
Lemma walk_size {A} (log : gmap InstanceID A) rid s n :
  (Z.of_nat n ≤ two64)%Z → (∀ x, x ∈ walk s n → mkIID rid x ∈ dom log) → n ≤ size log.
Proof.
  intros Hn Hin. rewrite <-size_dom.
  assert (length (walk s n) = n) as Hl by (revert s Hin; induction n; intros; simpl; [done|f_equal; apply IHn; [lia|set_solver]]).
  assert (NoDup (mkIID rid <$> walk s n)) as Hnd by (apply NoDup_fmap; [congruence|by apply walk_NoDup]).
  rewrite <-Hl, <-(length_fmap (mkIID rid)), <-(size_list_to_set (C:=gset InstanceID) _ Hnd).
  apply subseteq_size. intros i (x & -> & Hx)%elem_of_list_to_set%list_elem_of_fmap. by apply Hin.
Qed.

Section ends.
Context `{GoEnv, MapRange, Codec Command, Codec POSummaryMatrix, Codec PrimeMessage, Certifier}.
Implicit Types (p : prime).

Definition room p : Prop := (Z.of_nat (size (p_log p)) < two64)%Z.
Definition keys p : gset InstanceID := dom (p_log p).
Lemma room_keys p p' : keys p' = keys p → room p → room p'.
Proof. unfold room, keys. rewrite <-!size_dom. by intros ->. Qed.
Lemma walk_leaves p rid s n :
  room p → size (p_log p) < n → ¬ (∀ x, x ∈ walk s n → mkIID rid x ∈ keys p).
Proof.
  intros Hr Hn Hin. destruct (decide (Z.of_nat n ≤ two64)%Z) as [Hle|Hgt].
  - pose proof (walk_size (p_log p) rid s n Hle Hin). lia.
  - assert (S (size (p_log p)) ≤ size (p_log p)); [|lia]. unfold room in Hr.
    apply (walk_size _ rid s); [lia|]. intros x Hx. apply Hin. revert Hx.
    assert (S (size (p_log p)) ≤ n) as Hs by lia. revert Hs. generalize (S (size (p_log p))). clear. intros m Hs.
    revert s n Hs. induction m as [|m IH]; intros s n Hs; simpl; [set_solver|]. destruct n as [|n]; [lia|]. simpl.
    intros [->|Hx]%elem_of_cons; [by left|right]. apply (IH _ n); [lia|done].
Qed.

Lemma summarize_from_ends n rid s p : room p → size (p_log p) < n → summarize_from n rid s p ≠ Diverge.
Proof.
  intros Hr Hn Hd. apply (walk_leaves p rid s n Hr Hn). clear Hr Hn. revert s Hd.
  induction n as [|n IH]; intros s; simpl; [set_solver|].
  destruct (p_log p !! mkIID rid s) as [inst|] eqn:Hi; [|done]. destruct (_ || _); [done|].
  intros Hd x [->|Hx]%elem_of_cons; [by apply elem_of_dom_2 in Hi|by eapply IH].
Qed.
Lemma available_to_ends n rid s max p : room p → size (p_log p) < n → available_to n rid s max p ≠ Diverge.
Proof.
  intros Hr Hn Hd. apply (walk_leaves p rid s n Hr Hn). clear Hr Hn. revert s Hd.
  induction n as [|n IH]; intros s; simpl; [set_solver|]. case_bool_decide; [done|].
  destruct (p_log p !! mkIID rid s) as [inst|] eqn:Hi; [|done]. case_bool_decide; [done|].
  intros Hd x [->|Hx]%elem_of_cons; [by apply elem_of_dom_2 in Hi|by eapply IH].
Qed.
Lemma all_available_ends ids p : room p → all_available ids p ≠ Diverge.
Proof.
  intros Hr. induction ids as [|m ids IH]; [done|]. apply bind_ends; [by apply available_to_ends; [|lia]|].
  intros [] _; done.
Qed.

(** The instances that are executed are in the log, and they stay. *)
Lemma execute_inst_keys i p : wp (execute_inst i) (λ _ p', keys p' = keys p ∧ p_olog p' = p_olog p ∧ i ∈ keys p) p.
Proof.
  unfold execute_inst. wp_step. apply prime_wp_get_inst. intros inst Hi.
  assert (i ∈ keys p) as Hin by by apply elem_of_dom_2 in Hi. wp_step; [|by split_and!].
  destruct (is_Command (i_is inst)); [|done]. unfold Execute. wp_step. wp_step. wp_step. split; [|done].
  unfold keys. cbn. rewrite dom_insert_L. set_solver.
Qed.
Lemma execute_inst_ends i p : ends (execute_inst i) p.
Proof. unfold execute_inst, get_inst, Execute. ends_steps. Qed.
Lemma execute_to_keys n rid s max p :
  wp (execute_to n rid s max) (λ _ p', keys p' = keys p ∧ p_olog p' = p_olog p) p.
Proof.
  revert s p. induction n as [|n IH]; intros s p; simpl; [done|]. wp_step; [by wp_step|]. wp_step.
  eapply wp_mono; [apply execute_inst_keys|]. simpl. intros _ p1 (E1 & E2 & _). wp_step. wp_step.
  eapply wp_mono; [apply IH|]. simpl. intros _ p2 [-> ->]. by split.
Qed.
Lemma execute_to_ends n rid s max p : room p → size (p_log p) < n → ends (execute_to n rid s max) p.
Proof.
  intros Hr Hn Hd. apply (walk_leaves p rid s n Hr Hn). clear Hr Hn. revert s p Hd.
  induction n as [|n IH]; intros s p; simpl; [set_solver|]. destruct (bool_decide _); [done|].
  pose proof (execute_inst_keys (mkIID rid s) p) as Hk. unfold mbind, M_bind, wp in *.
  destruct (execute_inst (mkIID rid s) p) as [[[] p1]| |] eqn:Hx; [|done|].
  - destruct Hk as (Ek & _ & Hin). simpl. intros Hd x [->|Hx']%elem_of_cons; [done|].
    pose proof (IH _ _ Hd x Hx') as Hin'. unfold keys in *. cbn in Hin'. by rewrite <-Ek.
  - by destruct (execute_inst_ends (mkIID rid s) p).
Qed.

(** ** Handlers *)
Lemma prime_with_inst_ends i g p : (∀ inst, g inst ≠ Diverge) → ends (with_inst i g) p.
Proof. intros Hg. unfold with_inst, get_inst. ends_steps; auto. Qed.
Lemma prime_with_oinst_ends (s : Z) g p : (∀ inst, g inst ≠ Diverge) → ends (with_oinst s g) p.
Proof. intros Hg. unfold with_oinst, get_oinst. ends_steps; auto. Qed.
Lemma prime_quorum_log_ends j m q : quorum_log j m q ≠ Diverge.
Proof. unfold quorum_log. ends_steps. Qed.
Lemma oquorum_log_ends j m q : oquorum_log j m q ≠ Diverge.
Proof. unfold oquorum_log. ends_steps. Qed.
#[local] Hint Resolve prime_quorum_log_ends oquorum_log_ends : go_ends.
Lemma prime_set_status_ends i st p : ends (set_status i st) p.
Proof. by apply prime_with_inst_ends. Qed.
Lemma prime_log_pCert_ends i j m p : ends (log_pCert i j m) p.
Proof. apply prime_with_inst_ends. intros inst. ends_steps. Qed.
Lemma prime_set_ostatus_ends (s st : Z) p : ends (set_ostatus s st) p.
Proof. by apply prime_with_oinst_ends. Qed.
Lemma prime_log_opCert_ends (s j : Z) m p : ends (log_opCert s j m) p.
Proof. apply prime_with_oinst_ends. intros inst. ends_steps. Qed.
Lemma prime_log_ocCert_ends (s j : Z) m p : ends (log_ocCert s j m) p.
Proof. apply prime_with_oinst_ends. intros inst. ends_steps. Qed.
Lemma prime_get_inst_ends i p : ends (get_inst i) p.
Proof. unfold get_inst. ends_steps. Qed.
Lemma prime_get_oinst_ends (s : Z) p : ends (get_oinst s) p.
Proof. unfold get_oinst. ends_steps. Qed.
Lemma prime_broadcast_ends m self p : ends (broadcast m self) p.
Proof. unfold broadcast. ends_steps. Qed.
#[local] Hint Resolve prime_set_status_ends prime_log_pCert_ends prime_set_ostatus_ends prime_log_opCert_ends
  prime_log_ocCert_ends prime_get_inst_ends prime_get_oinst_ends prime_broadcast_ends : go_ends.
Lemma slice_get_ends {A} (l : list A) (s : Z) : slice_get l s ≠ Diverge.
Proof. unfold slice_get. ends_steps. Qed.
Lemma slice_set_ends {A} (l : list A) (s : Z) x : slice_set l s x ≠ Diverge.
Proof. unfold slice_set. ends_steps. Qed.
Lemma matrix_hash_ends mat : matrix_hash mat ≠ Diverge.
Proof. unfold matrix_hash. ends_steps. Qed.
Lemma command_hash_ends cmd : command_hash cmd ≠ Diverge.
Proof. unfold command_hash. ends_steps. Qed.
#[local] Hint Resolve (@slice_get_ends) (@slice_set_ends) matrix_hash_ends command_hash_ends : go_ends.

(** The matrices that are committed and not executed. *)
Definition is_committed (x : Z * oinstance) : Prop := ois_Status (oi_is x.2) = OInstanceState_Committed.
#[export] Instance is_committed_dec x : Decision (is_committed x).
Proof. apply _. Defined.
Definition matrices_left p : nat := size (filter is_committed (p_olog p)).
Lemma column_max_ends rows fl k : column_max rows fl k ≠ Diverge.
Proof. unfold column_max. ends_steps. apply mapM_ends. intros l _. auto with go_ends. Qed.
Lemma exec_body_twp p :
  room p → twp exec_body (λ b p', keys p' = keys p ∧ (b = true → matrices_left p' < matrices_left p)) p.
Proof.
  intros Hr. unfold exec_body. twp_step. twp_step.
  destruct (p_olog p !! p_oexecIdx p) as [oinst|] eqn:Hk; [|by twp_step].
  destruct (IsCommitted (oi_is oinst)) eqn:Hst; simpl; [|by twp_step]. apply bool_decide_eq_true in Hst.
  destruct (ois_POSummaryMatrix (oi_is oinst)) as [rows|]; [|done]. twp_step. twp_step.
  { apply mapM_ends. intros k _. apply column_max_ends. }
  rename a into ids. twp_step. twp_step; [by apply all_available_ends|]. twp_step; [by twp_step|].
  twp_step. eapply twp_mono.
  - apply (twp_for_each (λ p', keys p' = keys p ∧ p_olog p' = p_olog p)); [|done].
    intros m p1 _ [E1 E2]. twp_step. twp_step. apply twp_intro.
    + apply (execute_to_ends (S (size (p_log p1)))); [by eapply room_keys|lia].
    + eapply wp_mono; [apply (execute_to_keys (S (size (p_log p1))))|]. simpl. intros _ p2 [-> ->]. done.
  - simpl. intros _ p1 [E1 E2]. unfold set_ostatus, with_oinst, get_oinst. repeat twp_step.
    rewrite E2, Hk. repeat twp_step; [done|]. split; [done|]. intros _.
    match goal with Hx : Ret _ = Ret _ |- _ => injection Hx as <- end.
    unfold matrices_left. cbn. rewrite E2. by apply (map_filter_insert_size_lt is_committed _ _ oinst).
Qed.
Lemma prime_exec_ends p : room p → ends exec p.
Proof.
  intros Hr. change (ends (loop (S (size (p_olog p))) exec_body) p). apply (loop_ends room matrices_left); [|done|].
  - intros p1 Hr1. pose proof (exec_body_twp p1 Hr1) as Hb. split; [by eapply twp_ends|].
    apply twp_wp in Hb. eapply wp_mono; [exact Hb|]. simpl. intros b p2 [Hk Hm] Hb2. split; [by eapply room_keys|auto].
  - apply Nat.lt_succ_r. unfold matrices_left. apply map_size_filter.
Qed.

(** *** Methods that end, and grow the log no further *)
Definition safe {A} (m : M prime A) : Prop := ∀ p, room p → twp m (λ _, room) p.
Lemma safe_ret {A} (a : A) : safe (mret a).
Proof. by intros p Hp. Qed.
Lemma safe_bind {A B} (m : M prime B) (k : B → M prime A) : safe m → (∀ b, safe (k b)) → safe (m ≫= k).
Proof. intros Hm Hk p Hp. twp_step. eapply twp_mono; [by apply Hm|]. intros b p'. apply Hk. Qed.
Lemma safe_get : safe get.
Proof. by intros p Hp. Qed.
Lemma safe_panic {A} w : safe (panic w : M prime A).
Proof. by intros p Hp. Qed.
Lemma safe_lift {A} (o : outcome A) : o ≠ Diverge → safe (lift o).
Proof. intros Ho p Hp. by apply twp_lift. Qed.
Lemma safe_when b (m : M prime unit) : safe m → safe (when b m).
Proof. intros Hm. destruct b; [done|apply safe_ret]. Qed.
(** A method that leaves the log, or at least its keys. *)
Lemma safe_keys {A} (m : M prime A) : (∀ p, ends m p) → (∀ p, keeps keys m p) → safe m.
Proof.
  intros He Hk p Hp. apply twp_intro; [done|]. eapply wp_mono; [apply Hk|]. simpl. intros _ p' E. by eapply room_keys.
Qed.

Lemma with_inst_keys i g p : keeps keys (with_inst i g) p.
Proof.
  apply prime_wp_with_inst. intros inst inst' Hi _. unfold keys. cbn. rewrite dom_insert_L.
  apply elem_of_dom_2 in Hi. set_solver.
Qed.
Lemma with_oinst_keys (s : Z) g p : keeps keys (with_oinst s g) p.
Proof. unfold with_oinst, get_oinst. keeps_steps. Qed.
Lemma summarize_safe i : safe (summarize i).
Proof.
  intros p Hr. unfold summarize. twp_step. twp_step.
  twp_step. twp_step; [auto with go_ends|]. twp_step. twp_step; [apply summarize_from_ends; [done|lia]|].
  twp_step. twp_step; [auto with go_ends|]. by twp_step.
Qed.
Lemma exec_safe : safe exec.
Proof.
  intros p Hp. apply twp_intro; [by apply prime_exec_ends|].
  change (wp (loop (S (size (p_olog p))) exec_body) (λ _, room) p). apply (wp_loop room); [|done].
  intros p1 Hp1. pose proof (exec_body_twp p1 Hp1) as Hb. apply twp_wp in Hb. eapply wp_mono; [exact Hb|].
  simpl. intros [] p2 [Hk _]; by eapply room_keys.
Qed.
Lemma set_status_safe i st : safe (set_status i st).
Proof. apply safe_keys; [intros; auto with go_ends|intros; apply with_inst_keys]. Qed.
Lemma log_pCert_safe i j m : safe (log_pCert i j m).
Proof. apply safe_keys; [intros; auto with go_ends|intros; apply with_inst_keys]. Qed.
Lemma set_ostatus_safe (s st : Z) : safe (set_ostatus s st).
Proof. apply safe_keys; [intros; auto with go_ends|intros; apply with_oinst_keys]. Qed.
Lemma log_opCert_safe (s j : Z) m : safe (log_opCert s j m).
Proof. apply safe_keys; [intros; auto with go_ends|intros; apply with_oinst_keys]. Qed.
Lemma log_ocCert_safe (s j : Z) m : safe (log_ocCert s j m).
Proof. apply safe_keys; [intros; auto with go_ends|intros; apply with_oinst_keys]. Qed.
Lemma get_inst_safe i : safe (get_inst i).
Proof. apply safe_keys; [intros; auto with go_ends|intros; unfold get_inst; keeps_steps]. Qed.
Lemma get_oinst_safe (s : Z) : safe (get_oinst s).
Proof. apply safe_keys; [intros; auto with go_ends|intros; unfold get_oinst; keeps_steps]. Qed.
Lemma broadcast_safe m self : safe (broadcast m self).
Proof. apply safe_keys; [intros; auto with go_ends|intros; unfold broadcast; keeps_steps]. Qed.
Lemma put_summary_safe r s : safe (put_summary r s).
Proof. apply safe_keys; [intros; unfold put_summary; ends_steps|intros; unfold put_summary; keeps_steps]. Qed.
Create HintDb prime_safe discriminated.
#[local] Hint Resolve safe_ret safe_get safe_panic summarize_safe exec_safe set_status_safe log_pCert_safe
  set_ostatus_safe log_opCert_safe log_ocCert_safe get_inst_safe get_oinst_safe broadcast_safe put_summary_safe : prime_safe.
Ltac safe_step :=
  lazymatch goal with
  | |- safe (mbind _ _) => apply safe_bind; [|intros ?]
  | |- safe (lift _) => apply safe_lift; ends_steps
  | |- safe (when _ _) => apply safe_when
  | |- safe (match ?x with _ => _ end) => destruct x
  | |- _ => solve [auto with prime_safe]
  end; cbv beta zeta.
Ltac safe_steps := repeat safe_step.

Lemma maybeAck_safe i m : safe (maybeAck i m).
Proof. unfold maybeAck. safe_steps. Qed.
Lemma maybeCommit_safe (s : Z) m : safe (maybeCommit s m).
Proof. unfold maybeCommit. safe_steps. Qed.
#[local] Hint Resolve maybeAck_safe maybeCommit_safe : prime_safe.
Lemma maybePrepare_safe (s : Z) m : safe (maybePrepare s m).
Proof. unfold maybePrepare. safe_steps. Qed.
#[local] Hint Resolve maybePrepare_safe : prime_safe.
Lemma prime_updateCommand_ends m inst : updateCommand m inst ≠ Diverge.
Proof. unfold updateCommand. ends_steps. Qed.
Lemma prime_updateCommandHash_ends m inst : updateCommandHash m inst ≠ Diverge.
Proof. unfold updateCommandHash. ends_steps. Qed.
Lemma rows_agree_ends p rows ms : rows_agree p rows ms ≠ Diverge.
Proof. revert ms. induction rows as [|r rows IH]; intros [|m ms]; simpl; try done. case_match; [apply IH|done]. Qed.
#[local] Hint Resolve prime_updateCommand_ends prime_updateCommandHash_ends rows_agree_ends : go_ends.
Lemma updateOCommand_ends p m inst : updateOCommand p m inst ≠ Diverge.
Proof. unfold updateOCommand. ends_steps. Qed.
Lemma updateOCommandHash_ends m inst : updateOCommandHash m inst ≠ Diverge.
Proof. unfold updateOCommandHash. ends_steps. Qed.
#[local] Hint Resolve updateOCommand_ends updateOCommandHash_ends : go_ends.
Lemma fetch_oinstance_safe checks m : (∀ inst, checks inst ≠ Diverge) → safe (fetch_oinstance checks m).
Proof.
  intros Hc. apply safe_keys; intros p; unfold fetch_oinstance; [|keeps_steps]. ends_steps; auto.
Qed.
Lemma check_both_ends {I} (a b : I → outcome (bool * I)) inst :
  (∀ x, a x ≠ Diverge) → (∀ x, b x ≠ Diverge) → check_both a b inst ≠ Diverge.
Proof. intros Ha Hb. unfold check_both. ends_steps; auto. Qed.
Lemma prime_isPrimary_ends id view p : isPrimaryAtView id view p ≠ Diverge.
Proof. unfold isPrimaryAtView. ends_steps. Qed.
#[local] Hint Resolve prime_isPrimary_ends : go_ends.
Lemma stepOrder_safe m from : safe (stepOrder m from).
Proof.
  unfold stepOrder, onPrePrepare, onPrepare, onCommit, isCurrentPrimary, checkOCommandHash.
  safe_steps; try apply fetch_oinstance_safe; intros; auto with go_ends.
  apply check_both_ends; intros; auto with go_ends.
Qed.

(** The instance of a message is new. *)
Lemma fetch_room checks m p :
  (∀ inst, checks inst ≠ Diverge) → roomy p → twp (fetch_instance checks m) (λ _, room) p.
Proof.
  intros Hc Hr. unfold fetch_instance. twp_step. twp_step. destruct (p_log p !! m_InstanceID m) as [inst|] eqn:Hi.
  - twp_step. twp_step; [done|]. destruct a as [ok inst']. twp_step. twp_step. twp_step. unfold room, roomy in *. cbn.
    rewrite map_size_insert_Some by eauto. lia.
  - twp_step. twp_step. twp_step. unfold room, roomy in *. cbn. rewrite map_size_insert_None by done. lia.
Qed.
Lemma stepPreOrder_ends m from p : roomy p → ends (stepPreOrder m from) p.
Proof.
  intros Hr. apply (twp_ends _ (λ _, room)). assert (room p) as Hr0 by (unfold room, roomy in *; lia).
  unfold stepPreOrder. repeat case_decide; [..|done].
  - unfold onPORequest, checkCommandHash. twp_step. twp_step; [ends_steps|]. twp_step; [done|]. twp_step.
    eapply twp_mono; [apply fetch_room; [|done]|].
    + intros inst. apply check_both_ends; intros; auto with go_ends.
    + simpl. intros ok p1 Hp1. revert p1 Hp1. change (safe (if negb ok then mret tt else
        (log_pCert (m_InstanceID m) from (m <| m_Command := None |>);;
         set_status (m_InstanceID m) InstanceState_PreOrder;;
         inst ← get_inst (m_InstanceID m); p ← get;
         let pm := mkPM (is_InstanceID (i_is inst)) PreOrderMessage_POAck None (is_CommandHash (i_is inst)) (mkPOSummary []) in
         log_pCert (m_InstanceID m) (p_id p) pm;; broadcast (PrimeMessage_Preorder pm) false;;
         maybeAck (m_InstanceID m) pm))). safe_steps.
  - unfold onPOAck. twp_step. eapply twp_mono; [apply fetch_room; [auto with go_ends|done]|]. simpl.
    intros ok p1 Hp1. twp_step; [done|]. revert p1 Hp1.
    change (safe (log_pCert (m_InstanceID m) from m;; maybeAck (m_InstanceID m) m)). safe_steps.
  - by apply put_summary_safe.
Qed.
Lemma prime_Step_ends msg p : roomy p → ends (Step msg) p.
Proof.
  intros Hr. unfold Step. destruct (Unmarshal _) as [[m|m|m|]|]; [| | | |done]; (destruct (negb _); [done|]); try done.
  - by apply stepPreOrder_ends.
  - apply (twp_ends _ (λ _, room)), stepOrder_safe. unfold room, roomy in *. lia.
Qed.
Lemma prime_Request_ends c p : ends (Request c) p.
Proof. unfold Request, onRequest. ends_steps. Qed.
Lemma prime_Tick_ends p : ends Tick p.
Proof.
  unfold Tick, tick_one, run_action, sendSummary, put_summary, sendPrePrepare, isPrimaryAtView. ends_steps.
Qed.
Lemma prime_AsyncCallback_ends p : ends AsyncCallback p.
Proof.
  change (ends (loop (S (length (p_callbackC p))) AsyncCallback_body) p).
  apply (loop_ends (λ _, True) (λ p, length (p_callbackC p))); [|done|lia].
  intros p1 _. unfold AsyncCallback_body, send_signed, enqueueForSending. split; [ends_steps|].
  wp_step. wp_step. destruct (p_callbackC p1) as [|[j r] cbs] eqn:Hc; [by wp_step|].
  wp_step. wp_step. wp_step. wp_step. wp_step. intros _. split; [done|]. cbn. lia.
Qed.
End ends.
