(* ===== verification/PrimeProps.v ===== *)
(** * The properties of Prime

    Agreement of the correct replicas of a network on the command of every
    instance, the order in which each executes the instances of a replica,
    termination, and the runs that show what the shared rows of the matrices and
    the hash that is not filed do. *)
From S2P Require Import Prelude Command Worker Certifier Peer Runs Network Wire Prime PrimeSafety PrimeEnds.
From S2P Require Quorum.
From Stdlib Require Import Strings.Byte.
Import Prime.


(** ** The network *)
Section net.
Context `{GoEnv, !GoEnvLaws, MapRange, Codec Command, Codec POSummaryMatrix, Codec PrimeMessage, Certifier, !PrimeCodecLaws}.
Implicit Types (p : prime) (n : network (P:=prime)) (i : InstanceID).
Abbreviation event := (net_event (E:=Worker.event)).

(** Replicas that start from their configurations, each under its identity; with
    the faulty ones they are [3f + 1]. *)
Record prime_net (faulty : gset Z) (f : nat) (config : Z → Config) n : Prop := {
  pn_quiet : nw_flight n = [];
  pn_replicas r h p : nw_replicas n !! r = Some (h, p) →
    h = [] ∧ cfg_ID (config r) = r ∧ cfg_MaxFailures (config r) = Z.of_nat f ∧ NewPrime (config r) = Ret p;
  pn_size : size (dom (nw_replicas n) ∪ faulty) ≤ 3 * f + 1;
  pn_faulty : size faulty ≤ f;
}.
(** Nobody sends a replica a proposal for one of its own instances. *)
Definition proposes_fairly (m : Message) : Prop := ∀ pm,
  Unmarshal (msg_Content m) = Some (PrimeMessage_Preorder pm) → m_Type pm = PreOrderMessage_PORequest →
  iid_ReplicaID (m_InstanceID pm) ≠ msg_To m.
#[export] Instance proposes_fairly_dec m : Decision (proposes_fairly m).
Proof.
  refine (match Unmarshal (msg_Content m) as o return Unmarshal (msg_Content m) = o → _ with
  | Some (PrimeMessage_Preorder pm) => λ Hu, cast_if (decide (m_Type pm = PreOrderMessage_PORequest →
      iid_ReplicaID (m_InstanceID pm) ≠ msg_To m))
  | _ => λ Hu, left _
  end eq_refl); unfold proposes_fairly; rewrite Hu.
  - by intros ? [= <-].
  - intros Hf. apply n. by apply Hf.
  - done.
  - done.
  - done.
  - done.
Defined.
(** The messages that faulty replicas send. *)
Definition forged (es : list event) : list Message := omap (λ e, match e with Forge m => Some m | _ => None end) es.
(** The events of a network with [faulty] replicas. *)
Definition fair_events (faulty : gset Z) (es : list event) : Prop :=
  Forall (net_allowed faulty) es ∧ Forall proposes_fairly (forged es).


Section run.
Context (cap : nat) (faulty : gset Z) (f : nat) (config : Z → Config) (n0 : network (P:=prime)).
Context (Hnet : prime_net faulty f config n0).
Abbreviation other := (pool_step cap).
Abbreviation inv r := (prime_inv r (Z.of_nat f) (first_index (config r))).



End run.


(** C33. Termination: as long as the log holds fewer than [2^64 - 1] instances,
    every message, request, tick and run of the callbacks ends, so the loops of
    [summarize] and [exec], which have no bound of their own, do. *)
Theorem prime_terminates msg cmd p :
  roomy p →
  Step msg p ≠ Diverge ∧ Request cmd p ≠ Diverge ∧ Tick p ≠ Diverge ∧ AsyncCallback p ≠ Diverge.
Proof.
  intros Hr. split; [by apply prime_Step_ends|]. split; [apply prime_Request_ends|].
  split; [apply prime_Tick_ends|apply prime_AsyncCallback_ends].
Qed.
End net.

(** ** Concrete runs *)
Module PrimeDemo.
Import Toy.
Abbreviation event := (net_event (E:=Worker.event)).
#[export] Instance wire_InstanceID : Wire InstanceID :=
  wire_iso (λ i, (iid_ReplicaID i, iid_Index i)) (λ '(r, i), mkIID r i) ltac:(by intros []).
#[export] Instance wire_POSummary : Wire POSummary :=
  wire_iso po_POSummary mkPOSummary ltac:(by intros []).
#[export] Instance wire_POSummaryMatrix : Wire POSummaryMatrix :=
  wire_iso pom_POSummaryMatrix mkMatrix ltac:(by intros []).
#[export] Instance wire_PreOrderMessage : Wire PreOrderMessage :=
  wire_iso (λ m, (m_InstanceID m, m_Type m, m_Command m, m_CommandHash m, m_POSummary m))
    (λ '(i, t, c, h, s), mkPM i t c h s) ltac:(by intros []).
#[export] Instance wire_OrderMessage : Wire OrderMessage :=
  wire_iso (λ m, (om_View m, om_Index m, om_Type m, om_POSummaryMatrix m, om_POSummaryMatrixHash m))
    (λ '(v, i, t, s, h), mkOM v i t s h) ltac:(by intros []).
#[export] Instance wire_ResultMessage : Wire ResultMessage :=
  wire_iso (λ m, (r_Result m, r_Id m)) (λ '(r, i), mkResult r i) ltac:(by intros []).
#[export] Instance wire_PrimeMessage : Wire PrimeMessage :=
  wire_iso (λ m, match m with
    | PrimeMessage_Preorder m => (Some m, None, None)
    | PrimeMessage_Order m => (None, Some m, None)
    | PrimeMessage_Result m => (None, None, Some m)
    | PrimeMessage_nil => (None, None, None)
    end) (λ '(a, b, c), match a, b, c with
    | Some m, _, _ => PrimeMessage_Preorder m
    | _, Some m, _ => PrimeMessage_Order m
    | _, _, Some m => PrimeMessage_Result m
    | _, _, _ => PrimeMessage_nil
    end) ltac:(by intros []).
#[export] Instance PrimeMessage_codec : Codec PrimeMessage := wire_codec wire_PrimeMessage.
#[export] Instance POSummaryMatrix_codec : Codec POSummaryMatrix := wire_codec wire_POSummaryMatrix.
#[export] Instance PrimeMessage_laws : PrimeCodecLaws.
Proof.
  split.
  - intros m b Hb%(wire_codec_law wire_PrimeMessage). exists m. split; [exact Hb|]. by split_and!.
  - intros m b Hb%(wire_codec_law wire_PrimeMessage). exists m. exact Hb.
Qed.
#[export] Instance cert : Certifier := swCertifier.
(** A checksum of all the bytes in place of SHA-256. *)
#[export] Instance env : GoEnv := {|
  sha256 b := le_encode 32 (checksum b);
  hmac_sha256 k b := digest 32 b;
  sha512 b := le_encode 64 (checksum b);
  Sprintf_q := String.string_of_list_byte;
|}.
#[export] Instance env_laws : GoEnvLaws.
Proof.
  split; simpl; intros; try apply length_digest; try apply length_le_encode; try reflexivity.
  intros a b Hab. apply (f_equal String.list_byte_of_string) in Hab.
  by rewrite !String.list_byte_of_string_of_list_byte in Hab.
Qed.

Definition workers : gmap string nat := {["mac_sign"%string := 1]}.
Definition config (n : nat) (f j : Z) : Config := mkConfig j (seqZ 0 (Z.of_nat n)) 0 f workers workers.
Definition zeros (n : nat) : POSummaryMatrix := mkMatrix (replicate n (mkPOSummary (replicate n 0%Z))).
Definition start (n : nat) (f j : Z) : prime :=
  match NewPrime (config n f j) with Ret p => p | _ =>
    mkPrime j [] ∅ [] [] None None 0 ∅ 0 0 ∅ 0 [] [] ∅ f (Worker.NewDispatcher 0) [] end.
(** The correct replicas [rs] of [n]. *)
Definition network_of (n : nat) (f : Z) (rs : list Z) : network (P:=prime) :=
  mkNetwork (list_to_map ((λ j, (j, ([], start n f j))) <$> rs)) [].

(** The signing pool signs a message, and its callback files it. *)
Definition work : list (act Worker.event) :=
  (Other <$> [Worker.Register 0; Worker.Take; Worker.Assign; Worker.Done 0]) ++ [Do Call_AsyncCallback].
(** Replica [r] of [n] sends what it has broadcast [k] times. *)
Definition send (n k : nat) (r : Z) : list event :=
  (Local r <$> mjoin (replicate (k * (n - 1)) work)) ++ [Hand_over r].
(** The first [k] messages of every link. *)
Definition links (froms tos : list Z) (k : nat) : list event :=
  j ← froms; t ← tos; replicate k (Deliver j t).
Definition tick (r : Z) : list event := replicate 5 (Local r (Do Call_Tick)).
(** The replicas [rs] send what they have broadcast, and it is delivered. *)
Definition flow (n : nat) (rs : list Z) (k : nat) : list event := (r ← rs; send n k r) ++ links rs rs k.

Definition c1 : Command := cmd 1 5.
Definition c2 : Command := cmd 2 6.
Definition four : list Z := [0; 1; 2; 3]%Z.
Definition net4 : network := network_of 4 1 four.
(** Replicas 1 and 3 propose [c1] and [c2].  Replica 0, the primary, misses the
    first at first; it orders what it knows, and then what it has learned. *)
Definition schedule : list event :=
  [Local 1 (Do (Call_Request c1)); Local 3 (Do (Call_Request c2))] ++ send 4 1 1 ++ send 4 1 3 ++
  links [1]%Z [2; 3]%Z 1 ++ links [3]%Z four 1 ++
  send 4 2 0 ++ send 4 2 2 ++ send 4 1 3 ++ links [2; 3]%Z four 2 ++ links [0]%Z [1; 2; 3]%Z 2 ++
  tick 0 ++ tick 2 ++ tick 3 ++ send 4 1 2 ++ send 4 1 3 ++ links [2; 3]%Z [0]%Z 1 ++
  tick 0 ++ send 4 2 0 ++
  flow 4 four 3 ++ flow 4 four 3 ++ flow 4 four 3 ++ flow 4 four 3 ++ flow 4 four 1 ++
  tick 0 ++ tick 0 ++ flow 4 four 3 ++ flow 4 four 3 ++ flow 4 four 3 ++ flow 4 four 3.

(** Replica 0 sends [m] to [to]. *)
Definition forge (to : Z) (m : PrimeMessage) : event :=
  let b := default [] (Marshal m) in Forge (mkMessage 0 to b (CreateSignedCertificate b)).
Definition one_row (n : nat) (l : list Z) : POSummaryMatrix := mkMatrix (replicate n (mkPOSummary l)).
Definition preprepare (mat : POSummaryMatrix) : PrimeMessage :=
  PrimeMessage_Order (mkOM 0 1 OrderMessage_PrePrepare (Some mat) ((λ b, sha256 b) <$> Marshal mat)).
Definition hash_of (c : Command) : slice := (λ b, sha256 b) <$> Marshal c.
Definition porequest (i : InstanceID) (c : Command) : PrimeMessage :=
  PrimeMessage_Preorder (mkPM i PreOrderMessage_PORequest (Some c) (hash_of c) (mkPOSummary [])).
Definition poack (i : InstanceID) (c : Command) : PrimeMessage :=
  PrimeMessage_Preorder (mkPM i PreOrderMessage_POAck None (hash_of c) (mkPOSummary [])).

(** Replica 0 of seven, the primary, orders one matrix at replica 1 and another at
    the rest, and the votes of replica 1 are late. *)
Definition six : list Z := [2; 3; 4; 5; 6; 1]%Z.
Definition net7 : network := network_of 7 2 six.
Definition schedule7 : list event :=
  [Local 1 (Do (Call_Request c1)); Local 2 (Do (Call_Request c2))] ++
  flow 7 six 2 ++ flow 7 six 2 ++
  [forge 1 (preprepare (one_row 7 [0; 1; 0; 0; 0; 0; 0]%Z))] ++
  ((λ j, forge j (preprepare (one_row 7 [0; 0; 1; 0; 0; 0; 0]%Z))) <$> seqZ 2 5) ++ links [0]%Z six 1 ++
  flow 7 six 1 ++ flow 7 six 1 ++ flow 7 six 1.

(** Replica 0 of four, the primary, proposes [c1] to replicas 1 and 2 as the first
    instance of replica 1, before a client gives replica 1 [c2]. *)
Definition three : list Z := [1; 2; 3]%Z.
Definition net3 : network := network_of 4 1 three.
Definition schedule3 : list event :=
  [forge 3 (poack (mkIID 1 1) c2); forge 1 (porequest (mkIID 1 1) c1); forge 2 (porequest (mkIID 1 1) c1)] ++
  links [0]%Z three 1 ++ send 4 1 1 ++ links [1]%Z [2]%Z 1 ++
  [Local 1 (Do (Call_Request c2))] ++ send 4 1 1 ++ links [1]%Z [3]%Z 2 ++
  ((λ j, forge j (preprepare (one_row 4 [0; 1; 0; 0]%Z))) <$> three) ++ links [0]%Z three 1 ++
  flow 4 three 3 ++ flow 4 three 3 ++ flow 4 three 3.

Lemma prime_new_start n f j : NewPrime (config n f j) = Ret (start n f j).
Proof. reflexivity. Qed.
Lemma network_of_net n (f : nat) rs faulty :
  size faulty ≤ f → size (list_to_set rs ∪ faulty : gset Z) ≤ 3 * f + 1 →
  prime_net faulty f (config n (Z.of_nat f)) (network_of n (Z.of_nat f) rs).
Proof.
  intros Hf Hs. assert (((λ j, (j, ([] : list ExecPacket, start n (Z.of_nat f) j))) <$> rs).*1 = rs) as E.
  { rewrite <-list_fmap_compose. apply list_fmap_id. }
  split; [done| |unfold network_of; cbn [nw_replicas]; by rewrite dom_list_to_map_L, E|done].
  intros r h p Hr. apply elem_of_list_to_map_2, list_elem_of_fmap in Hr as (j & [= -> -> ->] & _).
  split_and!; [done..|]. apply prime_new_start.
Qed.
End PrimeDemo.

Section prime_runs.
Import Toy PrimeDemo.


Lemma prime_terminates_witness :
  roomy (start 4 1 2) ∧ Step (mkMessage 0 2 [] []) (start 4 1 2) ≠ Diverge.
Proof. assert (roomy (start 4 1 2)) by (vm_compute; reflexivity). split; [done|]. by apply (prime_terminates (mkMessage 0 2 [] []) c1). Defined.

(** C37. The primary leaves the order that all have voted for: its instance of a
    matrix has the slice [p.poSummary] itself in its row, and [summarize] writes
    into it after the proposal is out.  Four replicas, none of them faulty; all
    execute both commands, the primary [c1] before [c2] and the others [c2] before
    [c1]. *)
Theorem prime_leader_diverges cap :
  0 < cap →
  let n := net_run (worker_step cap) schedule net4 in
  prime_net ∅ 1 (config 4 1) net4 ∧ fair_events ∅ schedule ∧
  executed_by 0 n = [c1; c2] ∧ Forall (λ r, executed_by r n = [c2; c1]) [1; 2; 3]%Z.
Proof.
  intros Hc n. split.
  { apply network_of_net; vm_compute; lia. }
  split; [split; apply (bool_decide_unpack _); vm_compute; exact I|].
  destruct cap as [|cap]; [lia|].
  assert (all_executed_by n = {[0 := [c1; c2]; 1 := [c2; c1]; 2 := [c2; c1]; 3 := [c2; c1]]}%Z) as E
    by (vm_compute; reflexivity).
  split; [by rewrite executed_by_all, E|]. repeat (apply Forall_cons_2; [by rewrite executed_by_all, E|]). apply Forall_nil_2.
Qed.
Lemma prime_leader_diverges_witness :
  0 < 9 ∧ executed_by 0 (net_run (worker_step 9) schedule net4) = [c1; c2].
Proof. split; [lia|]. apply (prime_leader_diverges 9). lia. Defined.

(** C38. A replica commits a matrix that nobody else has voted for: the hash of the
    proposal that makes an instance is not filed, so votes for another hash count.
    Seven replicas with [f = 2], of which the primary is faulty and sends replica
    1 another matrix than the rest: replica 1 executes [c1] where the others
    execute [c2]. *)
Theorem prime_commits_uncertified cap :
  0 < cap →
  let n := net_run (worker_step cap) schedule7 net7 in
  prime_net {[0%Z]} 2 (config 7 2) net7 ∧ fair_events {[0%Z]} schedule7 ∧
  executed_by 1 n = [c1] ∧ Forall (λ r, executed_by r n = [c2]) [2; 3; 4; 5; 6]%Z.
Proof.
  intros Hc n. split.
  { apply network_of_net; vm_compute; lia. }
  split; [split; apply (bool_decide_unpack _); vm_compute; exact I|].
  destruct cap as [|cap]; [lia|].
  assert (all_executed_by n = {[1 := [c1]; 2 := [c2]; 3 := [c2]; 4 := [c2]; 5 := [c2]; 6 := [c2]]}%Z) as E
    by (vm_compute; reflexivity).
  split; [by rewrite executed_by_all, E|]. repeat (apply Forall_cons_2; [by rewrite executed_by_all, E|]). apply Forall_nil_2.
Qed.
Lemma prime_commits_uncertified_witness :
  0 < 9 ∧ executed_by 1 (net_run (worker_step 9) schedule7 net7) = [c1].
Proof. split; [lia|]. apply (prime_commits_uncertified 9). lia. Defined.

(** Nothing ties an instance to the replica that numbers it: [onPORequest] does
    not look at who proposes, and [onRequest] overwrites what is there.  Four
    replicas with [f = 1], of which the primary is faulty and proposes [c1] as the
    first instance of replica 1, which votes for it and then for the [c2] of its
    client: replica 2 executes [c1] as that instance, replica 3 executes [c2]. *)
Theorem prime_foreign_proposal cap :
  0 < cap →
  let n := net_run (worker_step cap) schedule3 net3 in
  prime_net {[0%Z]} 1 (config 4 1) net3 ∧ Forall (net_allowed {[0%Z]}) schedule3 ∧
  executed_by 2 n = [c1] ∧ executed_by 3 n = [c2] ∧ ¬ Command_Equal c1 (Some c2) = Ret true.
Proof.
  intros Hc n. split.
  { apply network_of_net; vm_compute; lia. }
  split; [apply (bool_decide_unpack _); vm_compute; exact I|].
  destruct cap as [|cap]; [lia|]. split_and!; vm_compute; [reflexivity..|done].
Qed.
Lemma prime_foreign_proposal_witness :
  0 < 9 ∧ executed_by 2 (net_run (worker_step 9) schedule3 net3) = [c1].
Proof. split; [lia|]. apply (prime_foreign_proposal 9). lia. Defined.
End prime_runs.
