(* ===== verification/ChainDuo.v ===== *)
(** * A chain of DuoBFT (src/protocols/multichainduobft/chainduobft)

    A block has a fast half, a slow half or both: the fast halves form one chain
    and the slow halves another, whose blocks name the fast blocks they order
    (block.go, blockchain.go).  The leader of the view proposes (consensus.go)
    when the pacemaker has a new certificate for one of the chains
    (pacemaker.go); the others check the certificates in a pool, store the block,
    vote for it to the leader, and execute the commands of the certified ancestors
    (fastpath.go, slowpath.go): those with a [Meta] by the fast rule, the others
    by the slow one.  One Rocq definition per Go function, in the state-and-panic
    monad [M ChainDuoBFT].

    Blocks are Go pointers: a block caches its hash, and executing a block sets
    the [Command] of its fast half to nil, a half that the proposal message and
    other blocks made from it share.  Blocks and fast halves therefore live in two
    heaps, [d_blocks] and [d_fasts]; nothing else of a block is ever written.

    The pools and the enclave can be those of one chain or shared by the chains of
    a replica: they are a record of their own ([pools]), whose jobs name their
    chain by its counter. *)
From S2P Require Import Prelude Command Worker Peer ChainHotstuff.
From Stdlib Require Import Strings.Byte.
Import Worker (Dispatcher, NewDispatcher).

(** The USIG enclave with an ed25519 key: [CreateUISigEd25519 ctrID digest] takes
    the next value of counter [ctrID] and signs the counter's number and value
    with the digest. *)
Class UsigEd (U : Type) := { CreateUISigEd25519 : Z → bytes → U → (Z * bytes) * U }.

Module ChainDuo.

(** ** Data (chainduobftpb) *)
Record Signature := mkSig { s_Sig : slice; s_Signer : Z; s_Counter : Z }.
Record QuorumCert := mkQC { qc_Sigs : gmap Z (option Signature); qc_BlockHash : slice; qc_Height : Z }.
Record SlowChainState := mkSlow {
  sl_ProposeBlockHash : slice;
  sl_ProposeBlockHeight : Z;
  sl_Height : Z;
  sl_Parent : slice;
  sl_QC : option QuorumCert;
  sl_SelfPropose : bool;
}.
Record FastChainState := mkFast {
  f_Command : option Command;
  f_Height : Z;
  f_Parent : slice;
  f_QC : option QuorumCert;
}.
(** A block on the wire; a [ProposeMessage] embeds one and holds nothing else. *)
Record BlockState := mkBS {
  b_View : Z;
  b_FastState : option FastChainState;
  b_SlowState : option SlowChainState;
}.
Record VoteMessage := mkVote { v_BlockHash : slice; v_Signature : option Signature }.
Inductive ChainDuoBFTMessage :=
| ChainDuoBFTMessage_Propose (m : BlockState)
| ChainDuoBFTMessage_Vote (m : VoteMessage)
| ChainDuoBFTMessage_nil.
#[export] Instance Signature_eq_dec : EqDecision Signature.
Proof. solve_decision. Defined.
#[export] Instance QuorumCert_eq_dec : EqDecision QuorumCert.
Proof. solve_decision. Defined.
#[export] Instance SlowChainState_eq_dec : EqDecision SlowChainState.
Proof. solve_decision. Defined.
#[export] Instance FastChainState_eq_dec : EqDecision FastChainState.
Proof. solve_decision. Defined.
#[export] Instance BlockState_eq_dec : EqDecision BlockState.
Proof. solve_decision. Defined.

#[export] Instance FastChainState_eta : Eta FastChainState := λ s,
  mkFast (f_Command s) (f_Height s) (f_Parent s) (f_QC s).
#[export] Instance set_f_Command : Setter f_Command := ltac:(solve_setter).

(** *** In memory

    A [BlockState] holds a pointer to its fast half, which is written to; the slow
    half is never written to and stands for its pointer. *)
Record MBlockState := mkMBS { mb_View : Z; mb_FastState : option nat; mb_SlowState : option SlowChainState }.
Abbreviation ProposeMessage := MBlockState.
Record block := mkBlock { blk_State : MBlockState; blk_512Hash : option bytes }.
#[export] Instance block_eta : Eta block := λ b, mkBlock (blk_State b) (blk_512Hash b).
#[export] Instance set_blk_512Hash : Setter blk_512Hash := ltac:(solve_setter).

(** The closures: the jobs of the pools with their callbacks, and the steps that
    [scheduleBack] puts on the callback channel.  Blocks are addresses. *)
Inductive job :=
| FastProposeJob (m : ProposeMessage) (blk : nat)
| SlowProposeJob (m : ProposeMessage) (blk : nat)
| SignJob (blk : nat) (signWithUsig : bool)
| VoteJob (vote : VoteMessage) (blk : nat)
| BeatStep
| NextStep (m : ProposeMessage) (blk : nat).
(** With the counter of their chain. *)
Abbreviation task := (Z * job)%type.
(** A callback with the result of its worker; a panic in a worker stops the
    process, here when the result is read. *)
Abbreviation callbacks := (list (task * outcome bytes)).

(** The four pools with the enclave; a worker of the first calls the enclave
    before it sends the callback, and the others can call it in between. *)
Record pools (U : Type) := mkPools {
  pl_signUsig : Dispatcher task;
  pl_sign : Dispatcher task;
  pl_fastVerify : Dispatcher task;
  pl_slowVerify : Dispatcher task;
  pl_enclave : U;
  pl_signed : gmap nat bytes;
}.
Arguments mkPools {U}.
Arguments pl_signUsig {U}.
Arguments pl_sign {U}.
Arguments pl_fastVerify {U}.
Arguments pl_slowVerify {U}.
Arguments pl_enclave {U}.
Arguments pl_signed {U}.
#[export] Instance pools_eta {U} : Eta (pools U) := λ p,
  mkPools (pl_signUsig p) (pl_sign p) (pl_fastVerify p) (pl_slowVerify p) (pl_enclave p) (pl_signed p).
#[export] Instance set_pl_signUsig {U} : Setter (R := pools U) pl_signUsig := ltac:(solve_setter).
#[export] Instance set_pl_sign {U} : Setter (R := pools U) pl_sign := ltac:(solve_setter).
#[export] Instance set_pl_fastVerify {U} : Setter (R := pools U) pl_fastVerify := ltac:(solve_setter).
#[export] Instance set_pl_slowVerify {U} : Setter (R := pools U) pl_slowVerify := ltac:(solve_setter).
#[export] Instance set_pl_enclave {U} : Setter (R := pools U) pl_enclave := ltac:(solve_setter).
#[export] Instance set_pl_signed {U} : Setter (R := pools U) pl_signed := ltac:(solve_setter).

(** ** The state *)
Record blockchain := mkBlockchain {
  fastBlocks : gmap (list Byte.byte) nat;
  slowBlocks : gmap (list Byte.byte) nat;
  blockAtFastHeight : gmap Z nat;
  blockAtSlowHeight : gmap Z nat;
}.
#[export] Instance blockchain_eta : Eta blockchain := λ d,
  mkBlockchain (fastBlocks d) (slowBlocks d) (blockAtFastHeight d) (blockAtSlowHeight d).
#[export] Instance set_fastBlocks : Setter fastBlocks := ltac:(solve_setter).
#[export] Instance set_slowBlocks : Setter slowBlocks := ltac:(solve_setter).
#[export] Instance set_blockAtFastHeight : Setter blockAtFastHeight := ltac:(solve_setter).
#[export] Instance set_blockAtSlowHeight : Setter blockAtSlowHeight := ltac:(solve_setter).

Record pacemaker := mkPacemaker {
  pm_bLeafFast : nat;
  pm_fastHighQC : QuorumCert;
  pm_fastHighQCChanged : bool;
  pm_currentSlowHeight : Z;
  pm_bLeafSlow : nat;
  pm_slowHighQC : QuorumCert;
  pm_slowHighQCChanged : bool;
  pm_currentFastHeight : Z;
  pm_currentView : Z;
  pm_lastBeatFastHeight : Z;
  pm_lastBeatSlowHeight : Z;
}.
#[export] Instance pacemaker_eta : Eta pacemaker := λ d,
  mkPacemaker (pm_bLeafFast d) (pm_fastHighQC d) (pm_fastHighQCChanged d) (pm_currentSlowHeight d)
    (pm_bLeafSlow d) (pm_slowHighQC d) (pm_slowHighQCChanged d) (pm_currentFastHeight d)
    (pm_currentView d) (pm_lastBeatFastHeight d) (pm_lastBeatSlowHeight d).
#[export] Instance set_pm_bLeafFast : Setter pm_bLeafFast := ltac:(solve_setter).
#[export] Instance set_pm_fastHighQC : Setter pm_fastHighQC := ltac:(solve_setter).
#[export] Instance set_pm_fastHighQCChanged : Setter pm_fastHighQCChanged := ltac:(solve_setter).
#[export] Instance set_pm_currentSlowHeight : Setter pm_currentSlowHeight := ltac:(solve_setter).
#[export] Instance set_pm_bLeafSlow : Setter pm_bLeafSlow := ltac:(solve_setter).
#[export] Instance set_pm_slowHighQC : Setter pm_slowHighQC := ltac:(solve_setter).
#[export] Instance set_pm_slowHighQCChanged : Setter pm_slowHighQCChanged := ltac:(solve_setter).
#[export] Instance set_pm_currentFastHeight : Setter pm_currentFastHeight := ltac:(solve_setter).
#[export] Instance set_pm_lastBeatFastHeight : Setter pm_lastBeatFastHeight := ltac:(solve_setter).
#[export] Instance set_pm_lastBeatSlowHeight : Setter pm_lastBeatSlowHeight := ltac:(solve_setter).

(** With the heaps, the [signer] (its counter and the enclave of the pools) and the
    capacity of the callback channel.  No timer is ever registered. *)
Record ChainDuoBFT (U : Type) := mkChain {
  d_id : Z;
  d_peers : list Z;
  d_cmdQueue : list Command;
  d_msgs : list Message;
  d_committedCmds : list ExecPacket;
  d_fasts : list FastChainState;
  d_blocks : list block;
  d_blockchain : blockchain;
  d_pacemaker : pacemaker;
  d_lastVoteFastHeight : Z;
  d_lastVoteSlowHeight : Z;
  d_lastFastHeightWithCommand : Z;
  d_lastFastHeight : Z;
  d_lastSlowHeightWithCommand : Z;
  d_lastSlowHeight : Z;
  d_bLockFast : nat;
  d_bExecFast : nat;
  d_bLockSlow : nat;
  d_bExecSlow : nat;
  d_verifiedVotes : gmap (list Byte.byte) (list VoteMessage);
  d_pendingFastProposals : gmap (list Byte.byte) ProposeMessage;
  d_pendingSlowProposals : gmap (list Byte.byte) ProposeMessage;
  d_waitQueueForHeight : gmap Z nat;
  d_fastQuorumSize : Z;
  d_slowQuorumSize : Z;
  d_skipSlowPath : bool;
  d_ctrID : Z;
  d_pools : pools U;
  d_callbackC : callbacks;
  d_cap : nat;
}.
Arguments mkChain {U}.
Arguments d_id {U}.
Arguments d_peers {U}.
Arguments d_cmdQueue {U}.
Arguments d_msgs {U}.
Arguments d_committedCmds {U}.
Arguments d_fasts {U}.
Arguments d_blocks {U}.
Arguments d_blockchain {U}.
Arguments d_pacemaker {U}.
Arguments d_lastVoteFastHeight {U}.
Arguments d_lastVoteSlowHeight {U}.
Arguments d_lastFastHeightWithCommand {U}.
Arguments d_lastFastHeight {U}.
Arguments d_lastSlowHeightWithCommand {U}.
Arguments d_lastSlowHeight {U}.
Arguments d_bLockFast {U}.
Arguments d_bExecFast {U}.
Arguments d_bLockSlow {U}.
Arguments d_bExecSlow {U}.
Arguments d_verifiedVotes {U}.
Arguments d_pendingFastProposals {U}.
Arguments d_pendingSlowProposals {U}.
Arguments d_waitQueueForHeight {U}.
Arguments d_fastQuorumSize {U}.
Arguments d_slowQuorumSize {U}.
Arguments d_skipSlowPath {U}.
Arguments d_ctrID {U}.
Arguments d_pools {U}.
Arguments d_callbackC {U}.
Arguments d_cap {U}.
#[export] Instance ChainDuoBFT_eta {U} : Eta (ChainDuoBFT U) := λ d,
  mkChain (d_id d) (d_peers d) (d_cmdQueue d) (d_msgs d) (d_committedCmds d) (d_fasts d) (d_blocks d)
    (d_blockchain d) (d_pacemaker d) (d_lastVoteFastHeight d) (d_lastVoteSlowHeight d)
    (d_lastFastHeightWithCommand d) (d_lastFastHeight d) (d_lastSlowHeightWithCommand d)
    (d_lastSlowHeight d) (d_bLockFast d) (d_bExecFast d) (d_bLockSlow d) (d_bExecSlow d)
    (d_verifiedVotes d) (d_pendingFastProposals d) (d_pendingSlowProposals d)
    (d_waitQueueForHeight d) (d_fastQuorumSize d) (d_slowQuorumSize d) (d_skipSlowPath d)
    (d_ctrID d) (d_pools d) (d_callbackC d) (d_cap d).
#[export] Instance set_d_cmdQueue {U} : Setter (R := ChainDuoBFT U) d_cmdQueue := ltac:(solve_setter).
#[export] Instance set_d_msgs {U} : Setter (R := ChainDuoBFT U) d_msgs := ltac:(solve_setter).
#[export] Instance set_d_committedCmds {U} : Setter (R := ChainDuoBFT U) d_committedCmds := ltac:(solve_setter).
#[export] Instance set_d_fasts {U} : Setter (R := ChainDuoBFT U) d_fasts := ltac:(solve_setter).
#[export] Instance set_d_blocks {U} : Setter (R := ChainDuoBFT U) d_blocks := ltac:(solve_setter).
#[export] Instance set_d_blockchain {U} : Setter (R := ChainDuoBFT U) d_blockchain := ltac:(solve_setter).
#[export] Instance set_d_pacemaker {U} : Setter (R := ChainDuoBFT U) d_pacemaker := ltac:(solve_setter).
#[export] Instance set_d_lastVoteFastHeight {U} : Setter (R := ChainDuoBFT U) d_lastVoteFastHeight := ltac:(solve_setter).
#[export] Instance set_d_lastVoteSlowHeight {U} : Setter (R := ChainDuoBFT U) d_lastVoteSlowHeight := ltac:(solve_setter).
#[export] Instance set_d_lastFastHeightWithCommand {U} : Setter (R := ChainDuoBFT U) d_lastFastHeightWithCommand := ltac:(solve_setter).
#[export] Instance set_d_lastFastHeight {U} : Setter (R := ChainDuoBFT U) d_lastFastHeight := ltac:(solve_setter).
#[export] Instance set_d_lastSlowHeightWithCommand {U} : Setter (R := ChainDuoBFT U) d_lastSlowHeightWithCommand := ltac:(solve_setter).
#[export] Instance set_d_lastSlowHeight {U} : Setter (R := ChainDuoBFT U) d_lastSlowHeight := ltac:(solve_setter).
#[export] Instance set_d_bLockFast {U} : Setter (R := ChainDuoBFT U) d_bLockFast := ltac:(solve_setter).
#[export] Instance set_d_bExecFast {U} : Setter (R := ChainDuoBFT U) d_bExecFast := ltac:(solve_setter).
#[export] Instance set_d_bLockSlow {U} : Setter (R := ChainDuoBFT U) d_bLockSlow := ltac:(solve_setter).
#[export] Instance set_d_bExecSlow {U} : Setter (R := ChainDuoBFT U) d_bExecSlow := ltac:(solve_setter).
#[export] Instance set_d_verifiedVotes {U} : Setter (R := ChainDuoBFT U) d_verifiedVotes := ltac:(solve_setter).
#[export] Instance set_d_pendingFastProposals {U} : Setter (R := ChainDuoBFT U) d_pendingFastProposals := ltac:(solve_setter).
#[export] Instance set_d_pendingSlowProposals {U} : Setter (R := ChainDuoBFT U) d_pendingSlowProposals := ltac:(solve_setter).
#[export] Instance set_d_waitQueueForHeight {U} : Setter (R := ChainDuoBFT U) d_waitQueueForHeight := ltac:(solve_setter).
#[export] Instance set_d_pools {U} : Setter (R := ChainDuoBFT U) d_pools := ltac:(solve_setter).
#[export] Instance set_d_callbackC {U} : Setter (R := ChainDuoBFT U) d_callbackC := ltac:(solve_setter).

Inductive signerErr := ErrHashMismatch | ErrPartialDuplicate.

(** [BlockHashSlice.Array]: the conversion of a slice to a pointer to an array
    panics when the slice is too short. *)
Definition Array (bhs : slice) : outcome bytes :=
  if decide (64 ≤ length (default [] bhs)) then Ret (take 64 (default [] bhs))
  else Panic "cannot convert slice to array".

Section chain.
Context {U : Type} `{GoEnv, Codec BlockState, Codec ChainDuoBFTMessage, MapRange, Ed25519, UsigEd U}.
Implicit Types (d : ChainDuoBFT U).

(** *** Pointers *)
Definition get_block (b : nat) : M (ChainDuoBFT U) block :=
  d ← get; match d_blocks d !! b with Some blk => mret blk | None => panic "nil block" end.
(** [blk.FastState], to read a field of it. *)
Definition FastState (b : nat) : M (ChainDuoBFT U) FastChainState :=
  blk ← get_block b;
  d ← get;
  match mb_FastState (blk_State blk) ≫= λ f, d_fasts d !! f with
  | Some fs => mret fs
  | None => panic "nil FastState"
  end.
Definition SlowState (b : nat) : M (ChainDuoBFT U) SlowChainState :=
  blk ← get_block b;
  match mb_SlowState (blk_State blk) with Some ss => mret ss | None => panic "nil SlowState" end.
Definition has_fast (b : nat) : M (ChainDuoBFT U) bool :=
  blk ← get_block b; mret (bool_decide (is_Some (mb_FastState (blk_State blk)))).
Definition has_slow (b : nat) : M (ChainDuoBFT U) bool :=
  blk ← get_block b; mret (bool_decide (is_Some (mb_SlowState (blk_State blk)))).
(** [blk.FastState.Command = nil] *)
Definition clear_Command (b : nat) : M (ChainDuoBFT U) unit :=
  blk ← get_block b;
  match mb_FastState (blk_State blk) with
  | Some f => modify (λ d, d <| d_fasts ::= alter (set f_Command (λ _, None)) f |>)
  | None => panic "nil FastState"
  end.
(** What the pointers of a block state lead to. *)
Definition value d (s : MBlockState) : BlockState :=
  mkBS (mb_View s) (mb_FastState s ≫= λ f, d_fasts d !! f) (mb_SlowState s).
(** [&block{BlockState: s}] *)
Definition new_block (s : MBlockState) : M (ChainDuoBFT U) nat :=
  d ← get;
  modify (λ d, d <| d_blocks ::= λ l, l ++ [mkBlock s None] |>);;
  mret (length (d_blocks d)).
Definition new_fast (f : FastChainState) : M (ChainDuoBFT U) nat :=
  d ← get;
  modify (λ d, d <| d_fasts ::= λ l, l ++ [f] |>);;
  mret (length (d_fasts d)).
(** The message that [proto.Unmarshal] has made. *)
Definition load (m : BlockState) : M (ChainDuoBFT U) ProposeMessage :=
  f ← match b_FastState m with Some f => a ← new_fast f; mret (Some a) | None => mret None end;
  mret (mkMBS (b_View m) f (b_SlowState m)).

(** *** Blocks (block.go) *)
Definition hash_value (s : BlockState) : outcome bytes :=
  match Marshal s with None => Panic "proto.Marshal" | Some bBytes => Ret (sha512 bBytes) end.
(** What [hash] returns, which workers compute too. *)
Definition hash_of (b : nat) d : outcome bytes :=
  match d_blocks d !! b with
  | None => Panic "nil block"
  | Some blk =>
      match blk_512Hash blk with Some h => Ret h | None => hash_value (value d (blk_State blk)) end
  end.
Definition hash (b : nat) : M (ChainDuoBFT U) bytes :=
  d ← get;
  h ← lift (hash_of b d);
  modify (λ d, d <| d_blocks ::= alter (set blk_512Hash (λ _, Some h)) b |>);;
  mret h.

(** The address of [genesis], and its value. *)
Definition genesis : nat := 0.
Definition genesisState : BlockState :=
  mkBS 0 (Some (mkFast None 0 None None)) (Some (mkSlow None 0 0 None None false)).

Definition newFastChainState (cmd : option Command) (height : Z) (parent : bytes) (qc : QuorumCert)
    : FastChainState := mkFast cmd height (Some parent) (Some qc).
Definition newSlowChainState (selfPropose : bool) (proposeBlockHeight : Z) (proposeBlockHash : bytes)
    (height : Z) (parent : bytes) (qc : QuorumCert) : SlowChainState :=
  mkSlow (Some proposeBlockHash) proposeBlockHeight height (Some parent) (Some qc) selfPropose.
Definition newBlock (view : Z) (fastState : option nat) (slowState : option SlowChainState)
    : M (ChainDuoBFT U) nat := new_block (mkMBS view fastState slowState).

(** *** The stored blocks (blockchain.go) *)
Definition newBlockchain : blockchain := mkBlockchain ∅ ∅ ∅ ∅.
Definition on_chain (g : blockchain → blockchain) : M (ChainDuoBFT U) unit :=
  modify (λ d, d <| d_blockchain ::= g |>).
Definition storeFastBlock (b : nat) : M (ChainDuoBFT U) unit :=
  h ← hash b;
  on_chain (λ c, c <| fastBlocks ::= <[h := b]> |>);;
  f ← FastState b;
  on_chain (λ c, c <| blockAtFastHeight ::= <[f_Height f := b]> |>).
Definition storeSlowBlock (b : nat) : M (ChainDuoBFT U) unit :=
  h ← hash b;
  on_chain (λ c, c <| slowBlocks ::= <[h := b]> |>);;
  s ← SlowState b;
  on_chain (λ c, c <| blockAtSlowHeight ::= <[sl_Height s := b]> |>).
Definition storeBlock (b : nat) : M (ChainDuoBFT U) unit :=
  f ← has_fast b; when f (storeFastBlock b);;
  s ← has_slow b; when s (storeSlowBlock b).

Definition getFastBlockFor (h : bytes) : M (ChainDuoBFT U) (option nat) :=
  gets (λ d, fastBlocks (d_blockchain d) !! h).
Definition getSlowBlockFor (h : bytes) : M (ChainDuoBFT U) (option nat) :=
  gets (λ d, slowBlocks (d_blockchain d) !! h).
Definition find_block (h : bytes) (c : blockchain) : option nat :=
  match fastBlocks c !! h with Some b => Some b | None => slowBlocks c !! h end.
Definition getBlockFor (h : bytes) : M (ChainDuoBFT U) (option nat) :=
  gets (λ d, find_block h (d_blockchain d)).
Definition getAtFastHeight (height : Z) : M (ChainDuoBFT U) (option nat) :=
  gets (λ d, blockAtFastHeight (d_blockchain d) !! height).
(** Nothing calls it. *)
Definition getAtSlowHeight (height : Z) : M (ChainDuoBFT U) (option nat) :=
  gets (λ d, blockAtSlowHeight (d_blockchain d) !! height).

(** The loops of [extendsFast] and [extendsSlow]: [current], when [ok] still
    holds at the end.  A round goes to a stored block. *)
Fixpoint walk_fast (fuel : nat) (height : Z) (current : nat) : M (ChainDuoBFT U) (option nat) :=
  match fuel with
  | O => λ _, Diverge
  | S fuel =>
      f ← FastState current;
      if bool_decide (height < f_Height f)%Z then
        h ← lift (Array (f_Parent f));
        next ← getFastBlockFor h;
        match next with Some next => walk_fast fuel height next | None => mret None end
      else mret (Some current)
  end.
Fixpoint walk_slow (fuel : nat) (height : Z) (current : nat) : M (ChainDuoBFT U) (option nat) :=
  match fuel with
  | O => λ _, Diverge
  | S fuel =>
      s ← SlowState current;
      if bool_decide (height < sl_Height s)%Z then
        h ← lift (Array (sl_Parent s));
        next ← getSlowBlockFor h;
        match next with Some next => walk_slow fuel height next | None => mret None end
      else mret (Some current)
  end.
Definition same_hash (current : option nat) (target : nat) : M (ChainDuoBFT U) bool :=
  match current with
  | Some current => h ← hash current; h' ← hash target; mret (bool_decide (h = h'))
  | None => mret false
  end.
Definition extendsFast (blk target : nat) : M (ChainDuoBFT U) bool :=
  d ← get;
  t ← FastState target;
  current ← walk_fast (S (S (size (fastBlocks (d_blockchain d))))) (f_Height t) blk;
  same_hash current target.
Definition extendsSlow (blk target : nat) : M (ChainDuoBFT U) bool :=
  d ← get;
  t ← SlowState target;
  current ← walk_slow (S (S (size (slowBlocks (d_blockchain d))))) (sl_Height t) blk;
  same_hash current target.

(** *** Signatures and certificates (signer.go) *)

(** The counter's number and value in front of half of the hash. *)
Definition ctr_msg (ctrID ctr : Z) (h : bytes) : bytes := le_encode 4 ctrID ++ le_encode 8 ctr ++ take 32 h.
(** [sign]; [None] is the nil slice that [signStep] returns after an error. *)
Definition sign (ctrID : Z) (h : bytes) : slice :=
  match ed_Sign (ctr_msg ctrID 0 h) with
  | Some sig => Some (le_encode 8 0 ++ sig)
  | None => None
  end.
Definition signUsig (ctrID : Z) (h : bytes) (u : U) : bytes * U :=
  let '(ctr, sig, u) := CreateUISigEd25519 ctrID (take 32 h) u in (le_encode 8 ctr ++ sig, u).
Definition signer_verify (ctrID : Z) (msg : bytes) (sig : Signature) : bool :=
  ed_Verify (ctr_msg ctrID (s_Counter sig) msg) (s_Sig sig).

Fixpoint add_votes (h : slice) (votes : list VoteMessage) (sigs : gmap Z (option Signature))
    : outcome (gmap Z (option Signature) + signerErr) :=
  match votes with
  | [] => Ret (inl sigs)
  | v :: votes =>
      if negb (bytes_Equal h (v_BlockHash v)) then Ret (inr ErrHashMismatch) else
      match v_Signature v with
      | None => Panic "nil Signature"
      | Some sig =>
          match sigs !! s_Signer sig with
          | Some _ => Ret (inr ErrPartialDuplicate)
          | None => add_votes h votes (<[s_Signer sig := Some sig]> sigs)
          end
      end
  end.
Definition createQuorumCert (h : slice) (height : Z) (signatures : list VoteMessage)
    : outcome (QuorumCert + signerErr) :=
  r ← add_votes h signatures ∅;
  Ret (match r with inl sigs => inl (mkQC sigs h height) | inr e => inr e end).

(** The messages and signatures of the batch: every message has the counter of
    the signature that the map is ranged over first. *)
Fixpoint batch (ctrID : Z) (h : bytes) (ctrMsg : option bytes) (l : list (Z * option Signature))
    : outcome (list (slice * slice)) :=
  match l with
  | [] => Ret []
  | (_, None) :: _ => Panic "nil Signature"
  | (_, Some sig) :: l =>
      let m := match ctrMsg with Some m => m | None => ctr_msg ctrID (s_Counter sig) h end in
      b ← batch ctrID h (Some m) l;
      Ret ((Some m, s_Sig sig) :: b)
  end.
Definition verifyQuorumCert (ctrID : Z) (qc : option QuorumCert) (quorumSize : Z) : outcome bool :=
  match qc with
  | None => Panic "nil QuorumCert"
  | Some qc =>
      h ← Array (qc_BlockHash qc);
      g ← hash_value genesisState;
      if decide (h = g) then Ret true else
      if bool_decide (Z.of_nat (size (qc_Sigs qc)) < quorumSize)%Z then Ret false else
      b ← batch ctrID (default [] (qc_BlockHash qc)) None (range (qc_Sigs qc));
      match ed_VerifyBatch b with
      | None => Panic "VerifyBatch"
      | Some (allOk, ok) =>
          if (allOk : bool) then Ret true
          else Ret (bool_decide (quorumSize ≤ Z.of_nat (length (filter (λ o, o = true) ok)))%Z)
      end
  end.

(** *** Messaging (messaging.go), the channel and the pools *)
Definition enqueueForSending (to : Z) (mm certificate : bytes) : M (ChainDuoBFT U) unit :=
  modify (λ d, d <| d_msgs ::= λ l, l ++ [mkMessage (d_id d) to mm certificate] |>).
Definition marshall (m : ChainDuoBFTMessage) : M (ChainDuoBFT U) bytes :=
  match Marshal m with None => panic "unable to marshall" | Some b => mret b end.
Definition sendTo (to : Z) (mBytes sign : bytes) : M (ChainDuoBFT U) unit := enqueueForSending to mBytes sign.
Definition broadcast (mBytes : bytes) (sendToSelf : bool) (sign : bytes) : M (ChainDuoBFT U) unit :=
  d ← get;
  for_each (d_peers d) (λ peer,
    when (sendToSelf || bool_decide (peer ≠ d_id d)) (enqueueForSending peer mBytes sign)).

Definition scheduleBack (step : job) : M (ChainDuoBFT U) unit :=
  d ← get;
  if decide (length (d_callbackC d) < d_cap d)
  then modify (λ d, d <| d_callbackC ::= λ l, l ++ [((d_ctrID d, step), Ret [])] |>)
  else panic "could not schedule callback".
(** The [Exec] of the dispatchers. *)
Definition on_pools (g : pools U → pools U) : M (ChainDuoBFT U) unit := modify (λ d, d <| d_pools ::= g |>).
Definition signUsig_Exec (j : job) : M (ChainDuoBFT U) unit :=
  d ← get; on_pools (λ p, p <| pl_signUsig ::= Worker.Exec (d_ctrID d, j) |>).
Definition sign_Exec (j : job) : M (ChainDuoBFT U) unit :=
  d ← get; on_pools (λ p, p <| pl_sign ::= Worker.Exec (d_ctrID d, j) |>).
Definition fastVerify_Exec (j : job) : M (ChainDuoBFT U) unit :=
  d ← get; on_pools (λ p, p <| pl_fastVerify ::= Worker.Exec (d_ctrID d, j) |>).
Definition slowVerify_Exec (j : job) : M (ChainDuoBFT U) unit :=
  d ← get; on_pools (λ p, p <| pl_slowVerify ::= Worker.Exec (d_ctrID d, j) |>).

(** *** The pacemaker (pacemaker.go) *)
Definition on_pm (g : pacemaker → pacemaker) : M (ChainDuoBFT U) unit := modify (λ d, d <| d_pacemaker ::= g |>).
Definition get_pm : M (ChainDuoBFT U) pacemaker := gets d_pacemaker.

(** A modulus of unsigned integers. *)
Definition getLeader (view : Z) : M (ChainDuoBFT U) Z :=
  d ← get;
  if decide (d_peers d = []) then panic "integer divide by zero"
  else mret (view `mod` Z.of_nat (length (d_peers d)))%Z.

Definition onFastQC (qc : QuorumCert) : M (ChainDuoBFT U) unit :=
  pm ← get_pm;
  if bool_decide (qc_Height qc < pm_currentFastHeight pm)%Z then mret tt else
  on_pm (set pm_currentFastHeight (λ _, u64 (qc_Height qc + 1)));;
  scheduleBack BeatStep.
Definition onSlowQC (qc : QuorumCert) : M (ChainDuoBFT U) unit :=
  pm ← get_pm;
  if bool_decide (qc_Height qc < pm_currentSlowHeight pm)%Z then mret tt else
  on_pm (set pm_currentSlowHeight (λ _, u64 (qc_Height qc + 1)));;
  scheduleBack BeatStep.

Definition updateFastHighQC (qc : option QuorumCert) : M (ChainDuoBFT U) unit :=
  match qc with
  | None => panic "nil QuorumCert"
  | Some qc =>
      h ← lift (Array (qc_BlockHash qc));
      newBlock ← getFastBlockFor h;
      match newBlock with
      | None => mret tt
      | Some newBlock =>
          pm ← get_pm;
          h0 ← lift (Array (qc_BlockHash (pm_fastHighQC pm)));
          oldBlock ← getFastBlockFor h0;
          match oldBlock with
          | None => panic "Block from the old fastHighQC missing from chain"
          | Some oldBlock =>
              n ← FastState newBlock;
              o ← FastState oldBlock;
              when (bool_decide (f_Height o < f_Height n)%Z)
                (on_pm (λ p, p <| pm_fastHighQC := qc |> <| pm_bLeafFast := newBlock |>
                               <| pm_fastHighQCChanged := true |>))
          end
      end
  end.
Definition updateSlowHighQC (qc : option QuorumCert) : M (ChainDuoBFT U) unit :=
  match qc with
  | None => panic "nil QuorumCert"
  | Some qc =>
      h ← lift (Array (qc_BlockHash qc));
      newBlock ← getSlowBlockFor h;
      match newBlock with
      | None => mret tt
      | Some newBlock =>
          pm ← get_pm;
          h0 ← lift (Array (qc_BlockHash (pm_slowHighQC pm)));
          oldBlock ← getSlowBlockFor h0;
          match oldBlock with
          | None => panic "Block from the old slowHighQC missing from chain"
          | Some oldBlock =>
              n ← SlowState newBlock;
              o ← SlowState oldBlock;
              when (bool_decide (sl_Height o < sl_Height n)%Z)
                (on_pm (λ p, p <| pm_slowHighQC := qc |> <| pm_bLeafSlow := newBlock |>
                               <| pm_slowHighQCChanged := true |>))
          end
      end
  end.

(** *** Proposals (consensus.go)

    The two blocks of [propose] that make the halves; the pointer to the fast
    half, and the slow half. *)
Definition propose_fast : M (ChainDuoBFT U) (option nat) :=
  pm ← get_pm;
  if negb (pm_fastHighQCChanged pm) then mret None else
  d ← get;
  let cmd := head (d_cmdQueue d) in
  when (bool_decide (is_Some cmd))
    (modify (λ d, d <| d_cmdQueue ::= tail |> <| d_lastFastHeightWithCommand := pm_currentFastHeight pm |>));;
  d ← get;
  if bool_decide (u64 (d_lastFastHeightWithCommand d + 1) < d_lastFastHeight d)%Z then mret None else
  modify (λ d, d <| d_lastFastHeight := pm_currentFastHeight pm |>);;
  h ← hash (pm_bLeafFast pm);
  f ← new_fast (newFastChainState cmd (pm_currentFastHeight pm) h (pm_fastHighQC pm));
  on_pm (set pm_fastHighQCChanged (λ _, false));;
  mret (Some f).
Definition propose_slow (fastState : option nat) : M (ChainDuoBFT U) (option SlowChainState) :=
  pm ← get_pm;
  if negb (pm_slowHighQCChanged pm) then mret None else
  next ←
    (if bool_decide (is_Some fastState) && bool_decide (pm_currentFastHeight pm = pm_currentSlowHeight pm)
     then mret (Some (true, 0%Z, replicate 64 x00))
     else
       nextBlk ← getAtFastHeight (pm_currentSlowHeight pm);
       match nextBlk with
       | None => mret None
       | Some nextBlk =>
           h ← hash nextBlk;
           f ← FastState nextBlk;
           mret (Some (false, f_Height f, h))
       end);
  match next with
  | None => mret None
  | Some (selfPropose, nextBlkHeight, nextBlkHash) =>
      modify (λ d, d <| d_lastSlowHeightWithCommand := pm_currentSlowHeight pm |>);;
      d ← get;
      if bool_decide (u64 (d_lastSlowHeightWithCommand d + 1) < d_lastSlowHeight d)%Z then mret None else
      modify (λ d, d <| d_lastSlowHeight := pm_currentSlowHeight pm |>);;
      h ← hash (pm_bLeafSlow pm);
      on_pm (set pm_slowHighQCChanged (λ _, false));;
      mret (Some (newSlowChainState selfPropose nextBlkHeight nextBlkHash (pm_currentSlowHeight pm) h
                    (pm_slowHighQC pm)))
  end.
Definition propose : M (ChainDuoBFT U) bool :=
  fastState ← propose_fast;
  slowState ← propose_slow fastState;
  if bool_decide (fastState = None) && bool_decide (slowState = None) then mret false else
  pm ← get_pm;
  blk ← newBlock (pm_currentView pm) fastState slowState;
  b ← get_block blk;
  let m := blk_State b in
  storeBlock blk;;
  d ← get;
  mBytes ← marshall (ChainDuoBFTMessage_Propose (value d m));
  broadcast mBytes false [];;
  scheduleBack (NextStep m blk);;
  mret true.

Definition beat : M (ChainDuoBFT U) unit :=
  d ← get;
  pm ← get_pm;
  leader ← getLeader (pm_currentView pm);
  if bool_decide (d_id d ≠ leader) then mret tt else
  if bool_decide (pm_currentFastHeight pm ≤ pm_lastBeatFastHeight pm)%Z
     && bool_decide (pm_currentSlowHeight pm ≤ pm_lastBeatSlowHeight pm)%Z then mret tt else
  sent ← propose;
  when sent
    (pm ← get_pm;
     when (bool_decide (pm_currentFastHeight pm ≤ pm_lastBeatFastHeight pm)%Z)
       (on_pm (set pm_lastBeatSlowHeight (λ _, pm_currentSlowHeight pm)));;
     pm ← get_pm;
     when (bool_decide (pm_currentSlowHeight pm ≤ pm_lastBeatSlowHeight pm)%Z)
       (on_pm (set pm_lastBeatFastHeight (λ _, pm_currentFastHeight pm)))).
Definition pm_onRequest : M (ChainDuoBFT U) unit := beat.

Definition onPropose (m : ProposeMessage) (from : Z) : M (ChainDuoBFT U) unit :=
  blk ← new_block m;
  leader ← getLeader (mb_View m);
  pm ← get_pm;
  if bool_decide (from ≠ leader) && bool_decide (mb_View m = pm_currentView pm) then mret tt else
  when (bool_decide (is_Some (mb_FastState m))) (fastVerify_Exec (FastProposeJob m blk));;
  when (bool_decide (is_Some (mb_SlowState m))) (slowVerify_Exec (SlowProposeJob m blk)).

(** *** Votes (consensus.go) *)
Definition scheduleBackAfter (blk : nat) (height : Z) : M (ChainDuoBFT U) unit :=
  modify (λ d, d <| d_waitQueueForHeight ::= <[height := blk]> |>).

Definition sendVote (blk : nat) : M (ChainDuoBFT U) unit :=
  d ← get;
  fast ← has_fast blk;
  f ← (if fast : bool then f ← FastState blk; mret (f_Height f) else mret 0%Z);
  if fast && bool_decide (f ≠ u64 (d_lastVoteFastHeight d + 1))
  then scheduleBackAfter blk (u64 (f - 1))
  else if fast : bool then signUsig_Exec (SignJob blk true) else sign_Exec (SignJob blk false).

(** The steps in the queue are calls of [sendVote]. *)
Definition runVoteForNextHeight (height : Z) : M (ChainDuoBFT U) unit :=
  d ← get;
  match d_waitQueueForHeight d !! height with
  | Some blk =>
      modify (λ d, d <| d_waitQueueForHeight ::= delete height |>);;
      sendVote blk
  | None => mret tt
  end.

Definition onVote (vote : VoteMessage) : M (ChainDuoBFT U) unit :=
  match v_Signature vote with
  | None => panic "nil Signature"
  | Some _ =>
      h ← lift (Array (v_BlockHash vote));
      blk ← getBlockFor h;
      match blk with
      | None => mret tt
      | Some blk =>
          b ← get_block blk;
          pm ← get_pm;
          old ← (if bool_decide (is_Some (mb_FastState (blk_State b)))
                 then f ← FastState blk; leaf ← FastState (pm_bLeafFast pm);
                      mret (bool_decide (f_Height f ≤ f_Height leaf)%Z
                            && bool_decide (mb_SlowState (blk_State b) = None))
                 else mret false);
          if old : bool then mret tt else
          old ← (if bool_decide (is_Some (mb_SlowState (blk_State b)))
                 then s ← SlowState blk; leaf ← SlowState (pm_bLeafSlow pm);
                      mret (bool_decide (sl_Height s ≤ sl_Height leaf)%Z)
                 else mret false);
          if old : bool then mret tt else
          fastVerify_Exec (VoteJob vote blk)
      end
  end.

(** [postSignStep] *)
Definition vote_signed (blk : nat) (ctrsig : bytes) : M (ChainDuoBFT U) unit :=
  fast ← has_fast blk;
  when fast
    (f ← FastState blk;
     modify (λ d, d <| d_lastVoteFastHeight := f_Height f |>);;
     runVoteForNextHeight (f_Height f));;
  slow ← has_slow blk;
  when slow (s ← SlowState blk; modify (λ d, d <| d_lastVoteSlowHeight := sl_Height s |>));;
  ctr ← lift (LittleEndian_Uint64 ctrsig);
  h ← hash blk;
  d ← get;
  let m := mkVote (Some h) (Some (mkSig (Some (drop 8 ctrsig)) (d_id d) ctr)) in
  leaderID ← getLeader (pm_currentView (d_pacemaker d));
  if bool_decide (leaderID = d_id d) then onVote m else
  mBytes ← marshall (ChainDuoBFTMessage_Vote m);
  sendTo leaderID mBytes [].

(** The votes that the deferred function of [onVoteContinue] keeps. *)
Definition leaf_heights d : outcome (Z * Z) :=
  '(f, _) ← FastState (pm_bLeafFast (d_pacemaker d)) d;
  '(s, _) ← SlowState (pm_bLeafSlow (d_pacemaker d)) d;
  Ret (f_Height f, sl_Height s).
Definition live_vote d (fast slow : Z) (k : bytes) : bool :=
  match find_block k (d_blockchain d) ≫= λ b, d_blocks d !! b with
  | None => false
  | Some b =>
      match mb_SlowState (blk_State b), mb_FastState (blk_State b) ≫= λ f, d_fasts d !! f with
      | Some s, _ => bool_decide (slow < sl_Height s)%Z
      | None, Some f => bool_decide (fast < f_Height f)%Z
      | None, None => true
      end
  end.
Definition clean_votes : M (ChainDuoBFT U) unit :=
  d ← get;
  '(fast, slow) ← lift (leaf_heights d);
  modify (λ d, d <| d_verifiedVotes ::=
    filter (λ kv : list Byte.byte * list VoteMessage, live_vote d fast slow kv.1 = true) |>).

(** A certificate for [blk] out of [votes]; [None] when there was an error. *)
Definition certificate (blk : nat) (height : Z) (votes : list VoteMessage) : M (ChainDuoBFT U) (option QuorumCert) :=
  h ← hash blk;
  qc ← lift (createQuorumCert (Some h) height votes);
  mret (match qc with inl qc => Some qc | inr _ => None end).
Definition count_vote (vote : VoteMessage) (blk : nat) : M (ChainDuoBFT U) unit :=
  h ← lift (Array (v_BlockHash vote));
  d ← get;
  let votes := default [] (d_verifiedVotes d !! h) ++ [vote] in
  modify (λ d, d <| d_verifiedVotes ::= <[h := votes]> |>);;
  let n := Z.of_nat (length votes) in
  b ← get_block blk;
  go ←
    (if bool_decide (is_Some (mb_FastState (blk_State b))) then
       if bool_decide (n < d_fastQuorumSize d)%Z then mret false else
       if bool_decide (n = d_fastQuorumSize d) then
         f ← FastState blk;
         qc ← certificate blk (f_Height f) votes;
         match qc with
         | None => mret false
         | Some qc => updateFastHighQC (Some qc);; onFastQC qc;; mret true
         end
       else mret true
     else mret true);
  if negb go || bool_decide (mb_SlowState (blk_State b) = None) || d_skipSlowPath d then mret tt else
  if bool_decide (n < d_slowQuorumSize d)%Z then mret tt else
  s ← SlowState blk;
  qc ← certificate blk (sl_Height s) votes;
  match qc with
  | None => mret tt
  | Some qc =>
      modify (λ d, d <| d_verifiedVotes ::= delete h |>);;
      updateSlowHighQC (Some qc);;
      onSlowQC qc
  end.
Definition onVoteContinue (vote : VoteMessage) (blk : nat) : M (ChainDuoBFT U) unit :=
  match v_Signature vote with
  | None => panic "nil Signature"
  | Some _ => count_vote vote blk;; clean_votes
  end.

(** *** The fast chain (fastpath.go) *)
Definition qcRefFast (qc : option QuorumCert) : M (ChainDuoBFT U) (option nat) :=
  match qc with None => mret None | Some qc => h ← lift (Array (qc_BlockHash qc)); getFastBlockFor h end.

Definition fastCommitRule (blk : nat) : M (ChainDuoBFT U) (option nat) :=
  d ← get;
  f ← FastState blk;
  lock ← FastState (d_bLockFast d);
  when (bool_decide (f_Height lock < f_Height f)%Z) (modify (λ d, d <| d_bLockFast := blk |>));;
  block1 ← qcRefFast (f_QC f);
  match block1 with
  | None => mret None
  | Some block1 =>
      p ← lift (Array (f_Parent f));
      h1 ← hash block1;
      if decide (p = h1) then mret (Some block1) else mret None
  end.

Definition enqueueForExecution (cmd : Command) : M (ChainDuoBFT U) unit :=
  modify (λ d, d <| d_committedCmds ::= λ l, l ++ [exec_pkt cmd] |>).

(** The recursion goes to the parent of a block. *)
Fixpoint fastCommit_rec (fuel : nat) (blk : nat) : M (ChainDuoBFT U) unit :=
  match fuel with
  | O => λ _, Diverge
  | S fuel =>
      d ← get;
      e ← FastState (d_bExecFast d);
      f ← FastState blk;
      when (bool_decide (f_Height e < f_Height f)%Z)
        (p ← lift (Array (f_Parent f));
         parent ← getFastBlockFor p;
         match parent with
         | None => panic "Refusing to fast commit because parent block could not be retrieved."
         | Some parent =>
             fastCommit_rec fuel parent;;
             modify (λ d, d <| d_bExecFast := blk |>);;
             f ← FastState blk;
             match f_Command f with
             | Some cmd =>
                 if bool_decide (c_Meta cmd = None) then mret tt else
                 enqueueForExecution cmd;; clear_Command blk
             | None => mret tt
             end
         end)
  end.
Definition fastCommit (blk : nat) : M (ChainDuoBFT U) unit :=
  d ← get; fastCommit_rec (S (S (size (fastBlocks (d_blockchain d))))) blk.

Definition queueBlockFastPropose (m : ProposeMessage) : M (ChainDuoBFT U) unit :=
  blk ← new_block m;
  _ ← hash blk;
  f ← FastState blk;
  match f_QC f with
  | None => panic "nil QuorumCert"
  | Some qc =>
      h ← lift (Array (qc_BlockHash qc));
      modify (λ d, d <| d_pendingFastProposals ::= <[h := m]> |>)
  end.

(** The test of [onFastProposeContinue] that sets [safe]. *)
Definition fast_safe (blk : nat) (qc : option QuorumCert) : M (ChainDuoBFT U) bool :=
  match qc with
  | None => panic "nil QuorumCert"
  | Some qc =>
      h ← lift (Array (qc_BlockHash qc));
      qcBlock ← getFastBlockFor h;
      d ← get;
      above ← match qcBlock with
              | Some qcBlock =>
                  q ← FastState qcBlock; lock ← FastState (d_bLockFast d);
                  mret (bool_decide (f_Height lock < f_Height q)%Z)
              | None => mret false
              end;
      if above : bool then mret true else extendsFast blk (d_bLockFast d)
  end.

(** [dequeueFastBlocks] calls it again for the proposal that waits for the block,
    which it takes out of the queue. *)
Definition fastPropose_body (again : ProposeMessage → nat → M (ChainDuoBFT U) unit) (m : ProposeMessage) (blk : nat)
    : M (ChainDuoBFT U) unit :=
  f ← FastState blk;
  updateFastHighQC (f_QC f);;
  safe ← fast_safe blk (f_QC f);
  if negb safe then queueBlockFastPropose m else
  storeFastBlock blk;;
  d ← get;
  when (bool_decide (d_lastVoteFastHeight d < f_Height f)%Z) (sendVote blk);;
  b ← fastCommitRule blk;
  match b with Some b => fastCommit b | None => mret tt end;;
  h ← hash blk;
  d ← get;
  match d_pendingFastProposals d !! h with
  | Some nextProposal =>
      modify (λ d, d <| d_pendingFastProposals ::= delete h |>);;
      next ← new_block nextProposal;
      again nextProposal next
  | None => mret tt
  end;;
  match f_QC f with None => panic "nil QuorumCert" | Some qc => onFastQC qc end.
Fixpoint fastPropose_rec (fuel : nat) (m : ProposeMessage) (blk : nat) : M (ChainDuoBFT U) unit :=
  match fuel with
  | O => λ _, Diverge
  | S fuel => fastPropose_body (fastPropose_rec fuel) m blk
  end.
Definition onFastProposeContinue (m : ProposeMessage) (blk : nat) : M (ChainDuoBFT U) unit :=
  d ← get; fastPropose_rec (S (S (size (d_pendingFastProposals d)))) m blk.

(** *** The slow chain (slowpath.go) *)
Definition qcRefSlow (qc : option QuorumCert) : M (ChainDuoBFT U) (option nat) :=
  match qc with None => mret None | Some qc => h ← lift (Array (qc_BlockHash qc)); getSlowBlockFor h end.

Definition slowCommitRule (blk : nat) : M (ChainDuoBFT U) (option nat) :=
  s ← SlowState blk;
  block1 ← qcRefSlow (sl_QC s);
  match block1 with
  | None => mret None
  | Some block1 =>
      s1 ← SlowState block1;
      d ← get;
      lock ← SlowState (d_bLockSlow d);
      when (bool_decide (sl_Height lock < sl_Height s1)%Z) (modify (λ d, d <| d_bLockSlow := block1 |>));;
      block2 ← qcRefSlow (sl_QC s1);
      match block2 with
      | None => mret None
      | Some block2 =>
          p ← lift (Array (sl_Parent s1));
          h2 ← hash block2;
          if decide (p = h2) then mret (Some block2) else mret None
      end
  end.

(** The fast block that a slow block orders; [None] when it is not there. *)
Definition exec_block (blk : nat) : M (ChainDuoBFT U) (option nat) :=
  s ← SlowState blk;
  if sl_SelfPropose s then mret (Some blk) else
  h ← lift (Array (sl_ProposeBlockHash s));
  getFastBlockFor h.
Fixpoint slowCommit_rec (fuel : nat) (blk : nat) : M (ChainDuoBFT U) unit :=
  match fuel with
  | O => λ _, Diverge
  | S fuel =>
      d ← get;
      e ← SlowState (d_bExecSlow d);
      s ← SlowState blk;
      when (bool_decide (sl_Height e < sl_Height s)%Z)
        (p ← lift (Array (sl_Parent s));
         parent ← getSlowBlockFor p;
         match parent with
         | None => panic "Refusing to commit because parent block could not be retrieved."
         | Some parent =>
             slowCommit_rec fuel parent;;
             execBlk ← exec_block blk;
             match execBlk with
             | None => mret tt
             | Some execBlk =>
                 fast ← has_fast execBlk;
                 if negb fast then panic "fast state is missing in slow exec block" else
                 modify (λ d, d <| d_bExecSlow := blk |>);;
                 f ← FastState execBlk;
                 match f_Command f with
                 | Some cmd =>
                     if bool_decide (is_Some (c_Meta cmd)) then mret tt else
                     enqueueForExecution cmd;; clear_Command execBlk
                 | None => mret tt
                 end
             end
         end)
  end.
Definition slowCommit (blk : nat) : M (ChainDuoBFT U) unit :=
  d ← get; slowCommit_rec (S (S (size (slowBlocks (d_blockchain d))))) blk.

Definition queueBlockSlowPropose (m : ProposeMessage) : M (ChainDuoBFT U) unit :=
  blk ← new_block m;
  s ← SlowState blk;
  match sl_QC s with
  | None => panic "nil QuorumCert"
  | Some qc =>
      h ← lift (Array (qc_BlockHash qc));
      _ ← hash blk;
      d ← get;
      match d_pendingSlowProposals d !! h with
      | Some _ => panic "slow proposal is already pending"
      | None => modify (λ d, d <| d_pendingSlowProposals ::= <[h := m]> |>)
      end
  end.

Definition slow_safe (blk : nat) (qc : option QuorumCert) : M (ChainDuoBFT U) bool :=
  match qc with
  | None => panic "nil QuorumCert"
  | Some qc =>
      h ← lift (Array (qc_BlockHash qc));
      qcBlock ← getSlowBlockFor h;
      d ← get;
      above ← match qcBlock with
              | Some qcBlock =>
                  q ← SlowState qcBlock; lock ← SlowState (d_bLockSlow d);
                  mret (bool_decide (sl_Height lock < sl_Height q)%Z)
              | None => mret false
              end;
      if above : bool then mret true else extendsSlow blk (d_bLockSlow d)
  end.

Definition slowPropose_body (again : ProposeMessage → nat → M (ChainDuoBFT U) unit) (m : ProposeMessage) (blk : nat)
    : M (ChainDuoBFT U) unit :=
  s ← SlowState blk;
  updateSlowHighQC (sl_QC s);;
  safe ← slow_safe blk (sl_QC s);
  if negb safe then queueBlockSlowPropose m else
  storeSlowBlock blk;;
  d ← get;
  fast ← has_fast blk;
  when (bool_decide (d_lastVoteSlowHeight d < sl_Height s)%Z && negb fast) (sendVote blk);;
  b ← slowCommitRule blk;
  match b with Some b => slowCommit b | None => mret tt end;;
  h ← hash blk;
  d ← get;
  match d_pendingSlowProposals d !! h with
  | Some nextProposal =>
      modify (λ d, d <| d_pendingSlowProposals ::= delete h |>);;
      next ← new_block nextProposal;
      again nextProposal next
  | None => mret tt
  end;;
  match sl_QC s with None => panic "nil QuorumCert" | Some qc => onSlowQC qc end.
Fixpoint slowPropose_rec (fuel : nat) (m : ProposeMessage) (blk : nat) : M (ChainDuoBFT U) unit :=
  match fuel with
  | O => λ _, Diverge
  | S fuel => slowPropose_body (slowPropose_rec fuel) m blk
  end.
Definition onSlowProposeContinue (m : ProposeMessage) (blk : nat) : M (ChainDuoBFT U) unit :=
  d ← get; slowPropose_rec (S (S (size (d_pendingSlowProposals d)))) m blk.

(** *** The pools

    What a worker computes for a job of this chain. *)
Definition verdict (ok : bool) : bytes := if ok then [x01] else [x00].
Definition run_job d (j : job) : outcome bytes :=
  match j with
  | FastProposeJob m _ =>
      match mb_FastState m ≫= λ f, d_fasts d !! f with
      | None => Panic "nil FastState"
      | Some f => ok ← verifyQuorumCert (d_ctrID d) (f_QC f) (d_fastQuorumSize d); Ret (verdict ok)
      end
  | SlowProposeJob m _ =>
      match mb_SlowState m with
      | None => Panic "nil SlowState"
      | Some s => ok ← verifyQuorumCert (d_ctrID d) (sl_QC s) (d_slowQuorumSize d); Ret (verdict ok)
      end
  | VoteJob vote blk =>
      h ← hash_of blk d;
      match v_Signature vote with
      | None => Panic "nil Signature"
      | Some sig => Ret (verdict (signer_verify (d_ctrID d) h sig))
      end
  | SignJob blk false => h ← hash_of blk d; Ret (default [] (sign (d_ctrID d) h))
  | _ => Panic "not a job of a worker"
  end.
(** The hash that a worker of the first pool has signed by the enclave. *)
Definition to_sign d (j : job) : option bytes :=
  match j with
  | SignJob blk true => match hash_of blk d with Ret h => Some h | _ => None end
  | _ => None
  end.

Definition callback (j : job) (res : outcome bytes) : M (ChainDuoBFT U) unit :=
  res ← lift res;
  match j with
  | FastProposeJob m blk =>
      if decide (head res = Some x00) then panic "onPropose: FastQC could not be verified!"
      else onFastProposeContinue m blk
  | SlowProposeJob m blk =>
      if decide (head res = Some x00) then panic "onPropose: SlowQC could not be verified!"
      else onSlowProposeContinue m blk
  | SignJob blk _ => vote_signed blk res
  | VoteJob vote blk =>
      if decide (head res = Some x00) then panic "onVote: Vote could not be verified!"
      else onVoteContinue vote blk
  | BeatStep => beat
  | NextStep m blk =>
      fast ← has_fast blk; when fast (onFastProposeContinue m blk);;
      slow ← has_slow blk; when slow (onSlowProposeContinue m blk)
  end.

(** The steps of the pools: [exec] is what a worker computes for a task, [digest]
    the hash that one of the first pool has signed. *)
Inductive pool_event :=
| UsigPool (e : Worker.event)
| SignStep (k : nat)
| SignPool (e : Worker.event)
| FastPool (e : Worker.event)
| SlowPool (e : Worker.event).
Definition pools_step (exec : task → outcome bytes) (digest : task → option bytes) (cap : nat)
    (e : pool_event) (pl : pools U) (cbs : callbacks) : option (pools U * callbacks) :=
  match e with
  | SignStep k =>
      t ← Worker.d_workers (pl_signUsig pl) !! k ≫= Worker.running;
      match digest t, pl_signed pl !! k with
      | Some h, None =>
          let '(sig, u) := signUsig t.1 h (pl_enclave pl) in
          Some (pl <| pl_enclave := u |> <| pl_signed ::= <[k := sig]> |>, cbs)
      | _, _ => None
      end
  | UsigPool (Worker.Done k) =>
      sig ← pl_signed pl !! k;
      '(w, cbs) ← Worker.step (λ _, Ret sig) cap (Worker.Done k) (pl_signUsig pl) cbs;
      Some (pl <| pl_signUsig := w |> <| pl_signed ::= delete k |>, cbs)
  | UsigPool e =>
      '(w, cbs) ← Worker.step exec cap e (pl_signUsig pl) cbs; Some (pl <| pl_signUsig := w |>, cbs)
  | SignPool e =>
      '(w, cbs) ← Worker.step exec cap e (pl_sign pl) cbs; Some (pl <| pl_sign := w |>, cbs)
  | FastPool e =>
      '(w, cbs) ← Worker.step exec cap e (pl_fastVerify pl) cbs; Some (pl <| pl_fastVerify := w |>, cbs)
  | SlowPool e =>
      '(w, cbs) ← Worker.step exec cap e (pl_slowVerify pl) cbs; Some (pl <| pl_slowVerify := w |>, cbs)
  end.

(** A chain with pools of its own, whose callbacks go to the channel of the chain. *)
Definition worker_step (e : pool_event) d : option (ChainDuoBFT U) :=
  '(pl, cbs) ← pools_step (λ t, run_job d t.2) (λ t, to_sign d t.2) (d_cap d) e (d_pools d) (d_callbackC d);
  Some (d <| d_pools := pl |> <| d_callbackC := cbs |>).

(** *** The [Protocol] methods (chainduobft.go, request.go) *)
Definition AsyncCallback_body : M (ChainDuoBFT U) bool :=
  d ← get;
  match d_callbackC d with
  | [] => mret false
  | ((_, j), res) :: rest =>
      modify (λ d, d <| d_callbackC := rest |>);;
      callback j res;;
      mret true
  end.
(** A callback can put others on the channel: a beat for each certificate that
    moves a height, and the leader's own step for a proposal. *)
Definition AsyncCallback_fuel d : nat :=
  S (20 * (length (d_callbackC d) + size (d_pendingFastProposals d) + size (d_pendingSlowProposals d) + 2)).
Definition AsyncCallback : M (ChainDuoBFT U) unit :=
  d ← get; loop (AsyncCallback_fuel d) AsyncCallback_body.

Definition onRequest (cmd : Command) : M (ChainDuoBFT U) unit :=
  modify (λ d, d <| d_cmdQueue ::= λ q, q ++ [cmd] |>);;
  pm_onRequest.
Definition Request (cmd : Command) : M (ChainDuoBFT U) unit := onRequest cmd.

Definition Step (message : Message) : M (ChainDuoBFT U) unit :=
  match Unmarshal (msg_Content message) with
  | None => panic "unmarshal"
  | Some (ChainDuoBFTMessage_Propose m) => m ← load m; onPropose m (msg_From message)
  | Some (ChainDuoBFTMessage_Vote m) => onVote m
  | Some ChainDuoBFTMessage_nil => panic "Unknown message type"
  end.

Definition Tick : M (ChainDuoBFT U) unit := mret tt.
Definition Callback (cb : ExecCallback) : M (ChainDuoBFT U) unit := mret tt.
Definition MakeReady : M (ChainDuoBFT U) Ready := gets (λ d, mkReady (d_msgs d) (d_committedCmds d)).
Definition ClearMsgs : M (ChainDuoBFT U) unit := modify (λ d, d <| d_msgs := [] |>).
Definition ClearExecutedCommands : M (ChainDuoBFT U) unit := modify (λ d, d <| d_committedCmds := [] |>).
Definition hasExecuted (cmd : Command) d : outcome bool :=
  for_out (d_committedCmds d) false (λ x acc,
    if (acc : bool) then Ret true else Command_Equal (x_Cmd x) (Some cmd)).

#[export] Instance ChainDuoBFT_Protocol : Protocol (ChainDuoBFT U) := {|
  Peer.Step := Step;
  Peer.Tick := Tick;
  Peer.Request := Request;
  Peer.Callback := Callback;
  Peer.MakeReady := MakeReady;
  Peer.ClearMsgs := ClearMsgs;
  Peer.ClearExecutedCommands := ClearExecutedCommands;
  Peer.AsyncCallback := AsyncCallback;
|}.

(** *** Construction *)
Record Config := mkConfig {
  cfg_ID : Z;
  cfg_Peers : list Z;
  cfg_LeaderID : Z;
  cfg_MaxFailures : Z;
  cfg_SkipSlowPath : bool;
  cfg_Workers : gmap string nat;
  cfg_WorkersQueueSizes : gmap string nat;
}.
(** The pacemaker and the stored blocks that [newPacemaker] makes, with the hash
    of the genesis block [g] and its certificate. *)
Definition newPacemaker (qc : QuorumCert) (initialView : Z) : pacemaker :=
  mkPacemaker genesis qc true 1 genesis qc true 1 initialView 0 0.
Definition genesisChain (g : bytes) : blockchain :=
  mkBlockchain {[g := genesis]} {[g := genesis]} {[0%Z := genesis]} {[0%Z := genesis]}.
(** The struct literal of [NewChainDuoBFTWithEnclave]. *)
Definition initial (c : Config) (ctrID : Z) (g : bytes) (pm : pacemaker) (pl : pools U) (cap : nat) : ChainDuoBFT U :=
  mkChain (cfg_ID c) (cfg_Peers c) [] [] [] [mkFast None 0 None None]
    [mkBlock (mkMBS 0 (Some 0) (b_SlowState genesisState)) (Some g)] (genesisChain g) pm
    0 0 0 0 0 0 genesis genesis genesis genesis ∅ ∅ ∅ ∅
    (cfg_MaxFailures c + 1) (2 * cfg_MaxFailures c + 1) (cfg_SkipSlowPath c) ctrID pl [] cap.

Definition NewChainDuoBFTWithEnclave (c : Config) (initialView : Z) (ctrID : Z) (pl : pools U) (cap : nat)
    : outcome (ChainDuoBFT U) :=
  g ← hash_value genesisState;
  qc ← createQuorumCert (Some g) 0 [];
  match qc with
  | inr _ => Panic "Failed to create QC for genesis block!"
  | inl qc => Ret (initial c ctrID g (newPacemaker qc initialView) pl cap)
  end.
(** [NewChainDuoBFT]: pools of its own. *)
Definition NewChainDuoBFT (c : Config) (enclave : U) : outcome (ChainDuoBFT U) :=
  match cfg_Workers c !! "edd_sign"%string, cfg_WorkersQueueSizes c !! "edd_sign"%string,
        cfg_Workers c !! "edd_verify"%string, cfg_WorkersQueueSizes c !! "edd_verify"%string with
  | Some sign, Some signSize, Some verify, Some verifySize =>
      NewChainDuoBFTWithEnclave c (cfg_LeaderID c) 0
        (mkPools (NewDispatcher 1) (NewDispatcher sign) (NewDispatcher verify) (NewDispatcher verify) enclave ∅)
        (64 + signSize + verifySize)
  | _, _, _, _ => Panic "Worker count for key missing"
  end.
End chain.
Arguments ChainDuoBFT : clear implicits.
End ChainDuo.
