(* ===== verification/ChainDuoSafety.v ===== *)
(** * The fast chain of DuoBFT: invariants

    What holds at every replica of a network in which only the leader of the view
    proposes.  The ledger is the list of the fast halves that the leader has
    proposed, with the hashes of their blocks, by height.  The fast halves in the
    memory of a replica are copies of entries of the ledger, some of them with
    their command taken out, and what the fast rule has executed are the
    commands of a prefix of the ledger. *)
From S2P Require Import Prelude Command Worker Peer Runs ChainHotstuff ChainDuo.
From Stdlib Require Import Strings.Byte.
Import ChainDuo.

(** The fast halves that the leader has proposed, by height, with the hashes of
    their blocks. *)
Abbreviation ledger := (list (list Byte.byte * FastChainState)).

Section chain_safety.
Context {U : Type} `{GoEnv, !GoEnvLaws, Codec BlockState, Codec ChainDuoBFTMessage, MapRange, Ed25519, UsigEd U}.
Implicit Types (d : ChainDuoBFT U).

(** ** Frames

    What a predicate on the state has to tolerate for the parts of a replica that
    do not touch the fast chain to keep it. *)
Definition fast_part (p : pacemaker) :=
  (pm_bLeafFast p, pm_fastHighQC p, pm_fastHighQCChanged p, pm_currentFastHeight p, pm_currentView p).
Definition vote_job (j : job) : Prop := match j with SignJob _ _ | VoteJob _ _ => True | _ => False end.
(** The content of a message that is no proposal. *)
Definition vote_content (b : bytes) : Prop := ∃ v, Marshal (ChainDuoBFTMessage_Vote v) = Some b.

Record calm (I : ChainDuoBFT U → Prop) : Prop := {
  fr_hash b : preserves I (hash b);
  fr_new_block s : preserves I (new_block s);
  fr_wait g d : I d → I (d <| d_waitQueueForHeight ::= g |>);
  fr_votes g d : I d → I (d <| d_verifiedVotes ::= g |>);
  fr_lastVoteFast g d : I d → I (d <| d_lastVoteFastHeight ::= g |>);
  fr_lastVoteSlow g d : I d → I (d <| d_lastVoteSlowHeight ::= g |>);
  fr_usig j d : vote_job j → I d → I (d <| d_pools ::= λ p, p <| pl_signUsig ::= Worker.Exec (d_ctrID d, j) |> |>);
  fr_sign j d : vote_job j → I d → I (d <| d_pools ::= λ p, p <| pl_sign ::= Worker.Exec (d_ctrID d, j) |> |>);
  fr_fast j d : vote_job j → I d → I (d <| d_pools ::= λ p, p <| pl_fastVerify ::= Worker.Exec (d_ctrID d, j) |> |>);
  fr_pm g d : (∀ p, fast_part (g p) = fast_part p) → I d → I (d <| d_pacemaker ::= g |>);
  fr_slow_chain g d : (∀ c, fastBlocks (g c) = fastBlocks c) → I d → I (d <| d_blockchain ::= g |>);
  fr_lastSlow g d : I d → I (d <| d_lastSlowHeight ::= g |>);
  fr_lastSlowCommand g d : I d → I (d <| d_lastSlowHeightWithCommand ::= g |>);
  fr_lockSlow g d : I d → I (d <| d_bLockSlow ::= g |>);
  fr_execSlow g d : I d → I (d <| d_bExecSlow ::= g |>);
  fr_vote_msg to b d : vote_content b → I d →
    I (d <| d_msgs ::= λ l, l ++ [mkMessage (d_id d) to b []] |>);
}.
(** With what makes a replica go on: the beats that wait, and the slow proposals. *)
Record frame (I : ChainDuoBFT U → Prop) : Prop := {
  fr_calm : calm I;
  fr_beat d : I d → I (d <| d_callbackC ::= λ l, l ++ [((d_ctrID d, BeatStep), Ret [])] |>);
  fr_pendingSlow g d : I d → I (d <| d_pendingSlowProposals ::= g |>);
}.

(** Frames of several predicates. *)
Lemma preserves_and {A} (I J : ChainDuoBFT U → Prop) (m : M (ChainDuoBFT U) A) :
  preserves I m → preserves J m → preserves (λ d, I d ∧ J d) m.
Proof. intros HI HJ d [Hi Hj]. apply wp_and; [by apply HI|by apply HJ]. Qed.
Lemma preserves_or {A} (I J : ChainDuoBFT U → Prop) (m : M (ChainDuoBFT U) A) :
  preserves I m → preserves J m → preserves (λ d, I d ∨ J d) m.
Proof.
  intros HI HJ d [Hi|Hj]; [eapply wp_mono; [by apply HI|auto]|eapply wp_mono; [by apply HJ|auto]].
Qed.
Lemma preserves_ex {A X} (I : X → ChainDuoBFT U → Prop) (m : M (ChainDuoBFT U) A) :
  (∀ x, preserves (I x) m) → preserves (λ d, ∃ x, I x d) m.
Proof. intros HI d [x Hx]. eapply wp_mono; [by apply (HI x)|]. simpl. eauto. Qed.
Lemma preserves_const {A} (φ : Prop) (m : M (ChainDuoBFT U) A) : preserves (λ _, φ) m.
Proof. intros d Hφ. unfold wp. by destruct (m d) as [[]| |]. Qed.
Lemma frame_const φ : frame (λ _, φ).
Proof. split; [split|..]; try done; intros; apply preserves_const. Qed.
Lemma frame_and I J : frame I → frame J → frame (λ d, I d ∧ J d).
Proof.
  intros [HI ? ?] [HJ ? ?]. split; [split|..]; try (intros; apply preserves_and; [by apply HI|by apply HJ]);
    (intros; match goal with Hd : _ ∧ _ |- _ => destruct Hd end; split; [by first [apply HI|auto]|by first [apply HJ|auto]]).
Qed.
Lemma frame_or I J : frame I → frame J → frame (λ d, I d ∨ J d).
Proof.
  intros [HI ? ?] [HJ ? ?]. split; [split|..]; try (intros; apply preserves_or; [by apply HI|by apply HJ]);
    (intros; match goal with Hd : _ ∨ _ |- _ => destruct Hd end; [left; by first [apply HI|auto]|right; by first [apply HJ|auto]]).
Qed.
Lemma frame_ex {X} (I : X → ChainDuoBFT U → Prop) : (∀ x, frame (I x)) → frame (λ d, ∃ x, I x d).
Proof.
  intros HI. pose proof (λ x, fr_calm _ (HI x)) as Hc.
  split; [split|..]; try (intros; apply preserves_ex; intros x; by apply (Hc x));
    (intros; match goal with Hd : ∃ _, _ |- _ => destruct Hd as [x ?] end; exists x; by first [apply (Hc x)|apply (HI x)]).
Qed.

Lemma preserves_get_block (I : ChainDuoBFT U → Prop) b : preserves I (get_block b).
Proof. unfold get_block. preserves_steps. Qed.
Lemma preserves_FastState (I : ChainDuoBFT U → Prop) b : preserves I (FastState b).
Proof. pose proof preserves_get_block. unfold FastState. preserves_steps. Qed.
Lemma preserves_SlowState (I : ChainDuoBFT U → Prop) b : preserves I (SlowState b).
Proof. pose proof preserves_get_block. unfold SlowState. preserves_steps. Qed.
Lemma preserves_has_fast (I : ChainDuoBFT U → Prop) b : preserves I (has_fast b).
Proof. pose proof preserves_get_block. unfold has_fast. preserves_steps. Qed.
Lemma preserves_has_slow (I : ChainDuoBFT U → Prop) b : preserves I (has_slow b).
Proof. pose proof preserves_get_block. unfold has_slow. preserves_steps. Qed.
Lemma preserves_getLeader (I : ChainDuoBFT U → Prop) v : preserves I (getLeader v).
Proof. unfold getLeader. preserves_steps. Qed.
Lemma preserves_marshall (I : ChainDuoBFT U → Prop) m : preserves I (marshall m).
Proof. unfold marshall. preserves_steps. Qed.
#[local] Hint Resolve preserves_get_block preserves_FastState preserves_SlowState preserves_has_fast
  preserves_has_slow preserves_getLeader preserves_marshall : go_inv.

Section calm.
Context (I : ChainDuoBFT U → Prop) (Hf : calm I).
Lemma calm_hash b : preserves I (hash b).
Proof. by apply fr_hash. Qed.
Lemma calm_new_block s : preserves I (new_block s).
Proof. by apply fr_new_block. Qed.
#[local] Hint Resolve calm_hash calm_new_block : go_inv.

Lemma fr_walk_fast fuel height b : preserves I (walk_fast fuel height b).
Proof.
  revert b. induction fuel as [|fuel IH]; intros b; simpl; [by intros d|].
  unfold getFastBlockFor. preserves_steps.
Qed.
Lemma fr_walk_slow fuel height b : preserves I (walk_slow fuel height b).
Proof.
  revert b. induction fuel as [|fuel IH]; intros b; simpl; [by intros d|].
  unfold getSlowBlockFor. preserves_steps.
Qed.
Lemma fr_same_hash c t : preserves I (same_hash c t).
Proof. unfold same_hash. preserves_steps. Qed.
#[local] Hint Resolve fr_walk_fast fr_walk_slow fr_same_hash : go_inv.
Lemma fr_extendsFast b t : preserves I (extendsFast b t).
Proof. unfold extendsFast. preserves_steps. Qed.
Lemma fr_extendsSlow b t : preserves I (extendsSlow b t).
Proof. unfold extendsSlow. preserves_steps. Qed.
Lemma fr_storeSlowBlock b : preserves I (storeSlowBlock b).
Proof.
  unfold storeSlowBlock, on_chain. preserves_steps; apply preserves_modify; intros d; by apply (fr_slow_chain I Hf).
Qed.
Lemma fr_usig_Exec b : preserves I (signUsig_Exec (SignJob b true)).
Proof. intros d Hd. unfold signUsig_Exec, on_pools. wp_step. wp_step. wp_step. by apply (fr_usig I Hf). Qed.
Lemma fr_sign_Exec b : preserves I (sign_Exec (SignJob b false)).
Proof. intros d Hd. unfold sign_Exec, on_pools. wp_step. wp_step. wp_step. by apply (fr_sign I Hf). Qed.
Lemma fr_vote_Exec v b : preserves I (fastVerify_Exec (VoteJob v b)).
Proof. intros d Hd. unfold fastVerify_Exec, on_pools. wp_step. wp_step. wp_step. by apply (fr_fast I Hf). Qed.
#[local] Hint Resolve fr_usig_Exec fr_sign_Exec fr_vote_Exec : go_inv.
Lemma fr_sendVote b : preserves I (sendVote b).
Proof.
  unfold sendVote, scheduleBackAfter. preserves_steps; apply preserves_modify; intros d; apply (fr_wait I Hf).
Qed.
#[local] Hint Resolve fr_extendsFast fr_extendsSlow fr_storeSlowBlock fr_sendVote : go_inv.
Lemma fr_onVote v : preserves I (onVote v).
Proof. unfold onVote, getBlockFor, get_pm. preserves_steps. Qed.
Lemma fr_runVote height : preserves I (runVoteForNextHeight height).
Proof.
  unfold runVoteForNextHeight. preserves_steps. apply preserves_modify. intros d. apply (fr_wait I Hf).
Qed.
#[local] Hint Resolve fr_onVote fr_runVote : go_inv.
Lemma fr_send_vote v to :
  preserves I (mBytes ← marshall (ChainDuoBFTMessage_Vote v); sendTo to mBytes []).
Proof.
  intros d Hd. unfold marshall. wp_step. destruct (Marshal _) as [bs|] eqn:Hm; [|by wp_step]. wp_step.
  unfold sendTo, enqueueForSending. wp_step. apply (fr_vote_msg I Hf); [by eexists|done].
Qed.
Lemma fr_vote_signed b c : preserves I (vote_signed b c).
Proof.
  unfold vote_signed. repeat (first [apply fr_send_vote|preserves_step]);
    apply preserves_modify; intros d; first [apply (fr_lastVoteFast I Hf)|apply (fr_lastVoteSlow I Hf)].
Qed.
Lemma fr_clean_votes : preserves I clean_votes.
Proof.
  unfold clean_votes. preserves_steps. apply preserves_modify. intros d. apply (fr_votes I Hf).
Qed.
Lemma fr_certificate b h v : preserves I (certificate b h v).
Proof. unfold certificate. preserves_steps. Qed.
Lemma fr_updateSlowHighQC qc : preserves I (updateSlowHighQC qc).
Proof.
  unfold updateSlowHighQC, getSlowBlockFor, get_pm, on_pm. preserves_steps.
  apply preserves_modify. intros d. by apply (fr_pm I Hf).
Qed.
Lemma fr_propose_slow f : preserves I (propose_slow f).
Proof.
  unfold propose_slow, get_pm, on_pm, getAtFastHeight. preserves_steps; apply preserves_modify; intros d;
    first [by apply (fr_lastSlow I Hf)|by apply (fr_lastSlowCommand I Hf)|by apply (fr_pm I Hf)].
Qed.
Lemma fr_qcRefSlow qc : preserves I (qcRefSlow qc).
Proof. unfold qcRefSlow, getSlowBlockFor. preserves_steps. Qed.
Lemma fr_qcRefFast qc : preserves I (qcRefFast qc).
Proof. unfold qcRefFast, getFastBlockFor. preserves_steps. Qed.
#[local] Hint Resolve fr_updateSlowHighQC fr_qcRefSlow fr_qcRefFast : go_inv.
Lemma fr_slowCommitRule b : preserves I (slowCommitRule b).
Proof.
  unfold slowCommitRule. preserves_steps; try (case_decide; preserves_steps).
  apply preserves_modify. intros d. apply (fr_lockSlow I Hf).
Qed.
Lemma fr_fast_safe b qc : preserves I (fast_safe b qc).
Proof. unfold fast_safe, getFastBlockFor. preserves_steps. Qed.
Lemma fr_slow_safe b qc : preserves I (slow_safe b qc).
Proof. unfold slow_safe, getSlowBlockFor. preserves_steps. Qed.
End calm.

Section frames.
Context (I : ChainDuoBFT U → Prop) (Hf : frame I).
Lemma fr_scheduleBack : preserves I (scheduleBack BeatStep).
Proof. intros d Hd. unfold scheduleBack. wp_step. wp_step. case_decide; wp_step. by apply (fr_beat I Hf). Qed.
#[local] Hint Resolve fr_scheduleBack : go_inv.
Lemma fr_onSlowQC qc : preserves I (onSlowQC qc).
Proof.
  unfold onSlowQC, get_pm, on_pm. preserves_steps. apply preserves_modify. intros d. by apply (fr_pm I (fr_calm I Hf)).
Qed.
Lemma frame_hash b : preserves I (hash b).
Proof. apply fr_hash, fr_calm, Hf. Qed.
Lemma frame_new_block s : preserves I (new_block s).
Proof. apply fr_new_block, fr_calm, Hf. Qed.
Lemma frame_storeSlow b : preserves I (storeSlowBlock b).
Proof. apply fr_storeSlowBlock, fr_calm, Hf. Qed.
Lemma frame_sendVote b : preserves I (sendVote b).
Proof. apply fr_sendVote, fr_calm, Hf. Qed.
Lemma frame_updateSlow qc : preserves I (updateSlowHighQC qc).
Proof. apply fr_updateSlowHighQC, fr_calm, Hf. Qed.
Lemma frame_slowRule b : preserves I (slowCommitRule b).
Proof. apply fr_slowCommitRule, fr_calm, Hf. Qed.
Lemma frame_slow_safe b qc : preserves I (slow_safe b qc).
Proof. apply fr_slow_safe, fr_calm, Hf. Qed.
#[local] Hint Resolve fr_onSlowQC frame_hash frame_new_block frame_storeSlow frame_sendVote frame_updateSlow
  frame_slowRule frame_slow_safe : go_inv.
Lemma fr_queueSlow m : preserves I (queueBlockSlowPropose m).
Proof.
  unfold queueBlockSlowPropose. preserves_steps. apply preserves_modify. intros d. apply (fr_pendingSlow I Hf).
Qed.
#[local] Hint Resolve fr_queueSlow : go_inv.
Lemma fr_slowPropose : (∀ b, preserves I (slowCommit b)) → ∀ fuel m b, preserves I (slowPropose_rec fuel m b).
Proof.
  intros Hc fuel. induction fuel as [|fuel IH]; intros m b; simpl; [by intros d|]. unfold slowPropose_body.
  preserves_steps; try apply Hc; try apply IH. apply preserves_modify. intros d. apply (fr_pendingSlow I Hf).
Qed.
End frames.

(** ** What a replica never loses

    Blocks and fast halves stay; a hash that is cached stays; of a fast half only
    the command changes. *)
Definition same_half (f f' : FastChainState) : Prop :=
  f_Height f' = f_Height f ∧ f_Parent f' = f_Parent f ∧ f_QC f' = f_QC f.
Definition same_block (b b' : block) : Prop :=
  blk_State b' = blk_State b ∧ ∀ k, blk_512Hash b = Some k → blk_512Hash b' = Some k.
Definition constants d := (d_id d, d_peers d, pm_currentView (d_pacemaker d), d_ctrID d).
Record grows d d' : Prop := {
  gr_blocks b blk : d_blocks d !! b = Some blk → ∃ blk', d_blocks d' !! b = Some blk' ∧ same_block blk blk';
  gr_fasts a f : d_fasts d !! a = Some f → ∃ f', d_fasts d' !! a = Some f' ∧ same_half f f';
  gr_constants : constants d' = constants d;
}.
#[export] Instance grows_preorder : PreOrder grows.
Proof.
  split.
  - intros d. split; [|by intros a f; exists f|done]. intros b blk. exists blk. by repeat split.
  - intros d1 d2 d3 [B1 F1 C1] [B2 F2 C2]. split; [| |congruence].
    + intros b blk (blk2 & Hb & E & K)%B1. destruct (B2 b blk2 Hb) as (blk3 & ? & E' & K').
      exists blk3. split; [done|]. split; [congruence|auto].
    + intros a f (f2 & Hf & E & K & L)%F1. destruct (F2 a f2 Hf) as (f3 & ? & E' & K' & L').
      exists f3. split; [done|]. split_and!; congruence.
Qed.

Lemma grows_neutral d d' :
  (d_blocks d', d_fasts d', constants d') = (d_blocks d, d_fasts d, constants d) → grows d d'.
Proof.
  intros E. split; [|intros a f; replace (d_fasts d') with (d_fasts d) by congruence; by exists f|congruence].
  intros b blk. replace (d_blocks d') with (d_blocks d) by congruence. exists blk. by repeat split.
Qed.
Lemma grows_blocks d g :
  (∀ b blk, d_blocks d !! b = Some blk → ∃ blk', g (d_blocks d) !! b = Some blk' ∧ same_block blk blk') →
  grows d (d <| d_blocks ::= g |>).
Proof. intros Hg. split; [exact Hg|by intros a f; exists f|done]. Qed.
Lemma grows_fasts d g :
  (∀ a f, d_fasts d !! a = Some f → ∃ f', g (d_fasts d) !! a = Some f' ∧ same_half f f') →
  grows d (d <| d_fasts ::= g |>).
Proof. intros Hg. split; [|exact Hg|done]. intros b blk. exists blk. by repeat split. Qed.

(** Caching a hash. *)
Lemma hash_wp b (Q : bytes → ChainDuoBFT U → Prop) d :
  (∀ blk h, d_blocks d !! b = Some blk →
    (∀ k, blk_512Hash blk = Some k → h = k) →
    (blk_512Hash blk = None → hash_value (value d (blk_State blk)) = Ret h) →
    Q h (d <| d_blocks ::= alter (set blk_512Hash (λ _, Some h)) b |>)) →
  wp (hash b) Q d.
Proof.
  intros HQ. unfold hash. wp_step. wp_step. wp_step. wp_step.
  match goal with Hh : hash_of b d = Ret ?x |- _ => rename Hh into Hof; rename x into h end.
  wp_step. wp_step. wp_step. unfold hash_of in Hof. destruct (d_blocks d !! b) as [blk|] eqn:Hb; [|done].
  apply (HQ blk); [done|..].
  - intros k Hk. rewrite Hk in Hof. by injection Hof.
  - intros Hn. by rewrite Hn in Hof.
Qed.
Lemma cache_grows d b blk h :
  d_blocks d !! b = Some blk → (∀ k, blk_512Hash blk = Some k → h = k) →
  grows d (d <| d_blocks ::= alter (set blk_512Hash (λ _, Some h)) b |>).
Proof.
  intros Hb Hk. apply grows_blocks. intros b' blk' Hb'. destruct (decide (b = b')) as [->|Hne].
  - rewrite list_lookup_alter_eq, Hb'. rewrite Hb in Hb'. injection Hb' as <-.
    eexists. split; [done|]. split; [done|]. simpl. intros k Hk'. by rewrite (Hk _ Hk').
  - rewrite list_lookup_alter_ne by done. exists blk'. by repeat split.
Qed.
Lemma append_grows d blk : grows d (d <| d_blocks ::= λ l, l ++ [blk] |>).
Proof.
  apply grows_blocks. intros b blk' Hb. exists blk'. split; [by apply lookup_app_l_Some|by split].
Qed.
Lemma append_fast_grows d f : grows d (d <| d_fasts ::= λ l, l ++ [f] |>).
Proof.
  apply grows_fasts. intros a f' Ha. exists f'. split; [by apply lookup_app_l_Some|done].
Qed.

(** A predicate that growing states keep. *)
Definition upward (I : ChainDuoBFT U → Prop) : Prop := ∀ d d', grows d d' → I d → I d'.
Section upward.
Context (I : ChainDuoBFT U → Prop) (Hup : upward I).
Lemma up_hash b : preserves I (hash b).
Proof. intros d Hd. apply hash_wp. intros blk h Hb Hk _. eapply Hup; [|exact Hd]. by eapply cache_grows. Qed.
Lemma up_new_block s : preserves I (new_block s).
Proof. intros d Hd. unfold new_block. do 5 wp_step. eapply Hup; [apply append_grows|done]. Qed.
Lemma up_new_fast f : preserves I (new_fast f).
Proof. intros d Hd. unfold new_fast. do 5 wp_step. eapply Hup; [apply append_fast_grows|done]. Qed.
Lemma up_clear_Command b : preserves I (clear_Command b).
Proof.
  unfold clear_Command. apply preserves_bind; [apply preserves_get_block|]. intros blk.
  destruct (mb_FastState _) as [a|]; [|apply preserves_panic]. apply preserves_modify. intros d.
  apply Hup, grows_fasts. intros a' f Ha. destruct (decide (a = a')) as [->|Hne].
  - rewrite list_lookup_alter_eq, Ha. eexists. by repeat split.
  - rewrite list_lookup_alter_ne by done. by exists f.
Qed.
Lemma up_frame : frame I.
Proof.
  assert (∀ g d, I d → d_blocks (g d) = d_blocks d → d_fasts (g d) = d_fasts d → constants (g d) = constants d →
    I (g d)) as Hsame.
  { intros g d Hd Eb Ef Ec. eapply Hup; [|exact Hd]. apply grows_neutral. congruence. }
  split; [split|..]; try (intros; by apply Hsame).
  - apply up_hash.
  - apply up_new_block.
  - intros g d Hg Hd. apply (Hsame (λ d, d <| d_pacemaker ::= g |>)); [done..|]. unfold constants. simpl.
    specialize (Hg (d_pacemaker d)). unfold fast_part in Hg. congruence.
Qed.
End upward.

(** A predicate that all the handlers keep, but for the messages they send. *)
Record tolerant (I : ChainDuoBFT U → Prop) : Prop := {
  to_frame : frame I;
  to_new_fast f : preserves I (new_fast f);
  to_clear b : preserves I (clear_Command b);
  to_modify (g : ChainDuoBFT U → ChainDuoBFT U) :
    (∀ d, (d_blocks (g d), d_fasts (g d), constants (g d), d_msgs (g d)) =
      (d_blocks d, d_fasts d, constants d, d_msgs d)) → preserves I (modify g);
}.
Lemma upward_tolerant I : upward I → tolerant I.
Proof.
  intros Hup. split; [by apply up_frame|by apply up_new_fast|by apply up_clear_Command|].
  intros g Hg. apply preserves_modify. intros d Hd. eapply Hup; [|exact Hd]. apply grows_neutral. specialize (Hg d). congruence.
Qed.

Section tolerant.
Context (I : ChainDuoBFT U → Prop) (Ht : tolerant I).
Lemma to_hash b : preserves I (hash b).
Proof. apply fr_hash, fr_calm, to_frame, Ht. Qed.
Lemma to_new_block s : preserves I (new_block s).
Proof. apply fr_new_block, fr_calm, to_frame, Ht. Qed.
Lemma to_new_half f : preserves I (new_fast f).
Proof. by apply to_new_fast. Qed.
Lemma to_clear_Command b : preserves I (clear_Command b).
Proof. by apply to_clear. Qed.
Lemma to_storeSlow b : preserves I (storeSlowBlock b).
Proof. apply fr_storeSlowBlock, fr_calm, to_frame, Ht. Qed.
Lemma to_sendVote b : preserves I (sendVote b).
Proof. apply fr_sendVote, fr_calm, to_frame, Ht. Qed.
Lemma to_onVote v : preserves I (onVote v).
Proof. apply fr_onVote, fr_calm, to_frame, Ht. Qed.
Lemma to_vote_signed b c : preserves I (vote_signed b c).
Proof. apply fr_vote_signed, fr_calm, to_frame, Ht. Qed.
Lemma to_clean : preserves I clean_votes.
Proof. apply fr_clean_votes, fr_calm, to_frame, Ht. Qed.
Lemma to_certificate b h v : preserves I (certificate b h v).
Proof. apply fr_certificate, fr_calm, to_frame, Ht. Qed.
Lemma to_updateSlow qc : preserves I (updateSlowHighQC qc).
Proof. apply fr_updateSlowHighQC, fr_calm, to_frame, Ht. Qed.
Lemma to_onSlowQC qc : preserves I (onSlowQC qc).
Proof. apply fr_onSlowQC, to_frame, Ht. Qed.
Lemma to_qcRefFast qc : preserves I (qcRefFast qc).
Proof. apply fr_qcRefFast. Qed.
Lemma to_fast_safe b qc : preserves I (fast_safe b qc).
Proof. apply fr_fast_safe, fr_calm, to_frame, Ht. Qed.
#[local] Hint Resolve to_hash to_new_block to_new_half to_clear_Command to_storeSlow to_sendVote to_onVote
  to_vote_signed to_clean to_certificate to_updateSlow to_onSlowQC to_qcRefFast to_fast_safe : go_inv.
Ltac up := preserves_steps; try (apply (to_modify I Ht); intros []; reflexivity).

Lemma to_schedule j : preserves I (scheduleBack j).
Proof. unfold scheduleBack. preserves_step; [up|]. case_decide; up. Qed.
Lemma to_storeFast b : preserves I (storeFastBlock b).
Proof. unfold storeFastBlock, on_chain. up. Qed.
#[local] Hint Resolve to_schedule to_storeFast : go_inv.
Lemma to_storeBlock b : preserves I (storeBlock b).
Proof. unfold storeBlock. up. Qed.
Lemma to_updateFast qc : preserves I (updateFastHighQC qc).
Proof. unfold updateFastHighQC, getFastBlockFor, get_pm, on_pm. up. Qed.
Lemma to_onFastQC qc : preserves I (onFastQC qc).
Proof. unfold onFastQC, get_pm, on_pm. up. Qed.
Lemma to_queueFast m : preserves I (queueBlockFastPropose m).
Proof. unfold queueBlockFastPropose. up. Qed.
Lemma to_fastRule b : preserves I (fastCommitRule b).
Proof. unfold fastCommitRule. up; case_decide; up. Qed.
Lemma to_fastCommit b : preserves I (fastCommit b).
Proof.
  unfold fastCommit. preserves_step; [up|]. match goal with |- preserves _ (_ ?n _) => generalize n as fuel end.
  intros fuel. revert b. induction fuel as [|fuel IH]; intros b; simpl; [by intros d|].
  unfold getFastBlockFor, enqueueForExecution. up.
Qed.
Lemma to_slowCommit b : preserves I (slowCommit b).
Proof.
  unfold slowCommit. preserves_step; [up|]. match goal with |- preserves _ (_ ?n _) => generalize n as fuel end.
  intros fuel. revert b. induction fuel as [|fuel IH]; intros b; simpl; [by intros d|].
  unfold exec_block, getFastBlockFor, getSlowBlockFor, enqueueForExecution. up.
Qed.
#[local] Hint Resolve to_storeBlock to_updateFast to_onFastQC to_queueFast to_fastRule
  to_fastCommit to_slowCommit : go_inv.
Lemma to_fastPropose_rec fuel m b : preserves I (fastPropose_rec fuel m b).
Proof. revert m b. induction fuel as [|fuel IH]; intros m b; simpl; [by intros d|]. unfold fastPropose_body. up. Qed.
#[local] Hint Resolve to_fastPropose_rec : go_inv.
Lemma to_fastPropose m b : preserves I (onFastProposeContinue m b).
Proof. unfold onFastProposeContinue. up. Qed.
Lemma to_slowPropose m b : preserves I (onSlowProposeContinue m b).
Proof. unfold onSlowProposeContinue. preserves_step; [up|]. apply fr_slowPropose; [apply (to_frame I Ht)|apply to_slowCommit]. Qed.
#[local] Hint Resolve to_fastPropose to_slowPropose : go_inv.
Lemma to_propose_fast : preserves I propose_fast.
Proof. unfold propose_fast, get_pm, on_pm. up. Qed.
Lemma to_propose_slow f : preserves I (propose_slow f).
Proof. unfold propose_slow, get_pm, on_pm, getAtFastHeight. up. Qed.
Lemma to_count_vote v b : preserves I (count_vote v b).
Proof. unfold count_vote. up. Qed.
Lemma to_load m : preserves I (load m).
Proof. unfold load. up. Qed.
Lemma to_onPropose m from : preserves I (onPropose m from).
Proof. unfold onPropose, get_pm, fastVerify_Exec, slowVerify_Exec, on_pools. up. Qed.
#[local] Hint Resolve to_propose_fast to_propose_slow to_count_vote to_load to_onPropose : go_inv.

(** With the messages. *)
Context (Hb : ∀ b s c, preserves I (broadcast b s c)) (Hc : preserves I ClearMsgs).
Lemma to_propose : preserves I propose.
Proof. unfold propose, get_pm, newBlock. up. Qed.
#[local] Hint Resolve to_propose : go_inv.
Lemma to_beat : preserves I beat.
Proof. unfold beat, get_pm, on_pm. up. Qed.
#[local] Hint Resolve to_beat : go_inv.
Lemma to_callback j r : preserves I (callback j r).
Proof. unfold callback, onVoteContinue. up; case_decide; up. Qed.
#[local] Hint Resolve to_callback : go_inv.
Lemma to_call c : preserves I (do_call c).
Proof.
  destruct c as [m|c| |cb| |]; simpl; unfold Step, Request, onRequest, pm_onRequest, Tick, Callback, AsyncCallback, AsyncCallback_body; up.
Qed.
End tolerant.

Section upward_all.
Context (I : ChainDuoBFT U → Prop) (Hup : upward I).
Lemma up_msgs g : preserves I (modify (λ d, d <| d_msgs ::= g |>)).
Proof. apply preserves_modify. intros d Hd. eapply Hup; [|exact Hd]. by apply grows_neutral. Qed.
Lemma upward_call c : preserves I (do_call c).
Proof.
  apply to_call; [by apply upward_tolerant| |apply up_msgs]. intros b s x. unfold broadcast, enqueueForSending.
  preserves_step; [apply preserves_get|]. preserves_step. preserves_step. apply preserves_modify. intros d Hd.
  eapply Hup; [|exact Hd]. by apply grows_neutral.
Qed.
Lemma upward_step e d d' : worker_step e d = Some d' → I d → I d'.
Proof.
  unfold worker_step. intros ([pl cbs] & _ & [= <-])%bind_Some Hd. eapply Hup; [|exact Hd]. by apply grows_neutral.
Qed.
End upward_all.

(** ** The ledger

    Entry [n] is the fast half at height [n] as the leader made it, with the hash
    of its block; entry 0 is the genesis block. *)
Definition op_canonical (o : Operation) : Prop :=
  match op_Type o with
  | None => True
  | Some (Operation_KVOp None) => False
  | Some (Operation_KVOp (Some k)) => kv_Key k ≠ Some [] ∧ kv_Value k ≠ Some []
  end.
#[export] Instance op_canonical_dec o : Decision (op_canonical o).
Proof. unfold op_canonical. destruct (op_Type o) as [[[k|]]|]; apply _. Defined.
(** A command as it comes off the wire, where an empty field and an absent one are
    the same. *)
Definition canonical (c : Command) : Prop :=
  c_Meta c ≠ Some [] ∧ c_ConflictKey c ≠ Some [] ∧ c_TraceInfo c ≠ Some ∅ ∧ Forall op_canonical (c_Ops c).
#[export] Instance canonical_dec c : Decision (canonical c).
Proof. unfold canonical. apply _. Defined.

Record wf_ledger (L : ledger) : Prop := {
  wf_0 : ∃ g, L !! 0 = Some (g, mkFast None 0 None None);
  wf_height n k f : L !! n = Some (k, f) → f_Height f = Z.of_nat n;
  wf_hash n k f : L !! n = Some (k, f) → length k = 64;
  wf_link n k f k' f' : L !! n = Some (k, f) → L !! S n = Some (k', f') →
    f_Parent f' = Some k ∧ ∃ qc, f_QC f' = Some qc ∧ qc_BlockHash qc = Some k ∧ qc_Height qc = Z.of_nat n;
  wf_canonical n k f c : L !! n = Some (k, f) → f_Command f = Some c → canonical c;
}.
(** What executing the first [n] entries by the fast rule executes. *)
Definition is_fast (c : Command) : Prop := c_Meta c ≠ None.
#[export] Instance is_fast_dec c : Decision (is_fast c).
Proof. unfold is_fast. apply _. Defined.
Definition fast_cmds (l : list Command) : list Command := filter is_fast l.
Definition ledger_cmds (L : ledger) : list Command := omap (λ x, f_Command x.2) L.

(** Fast halves that differ in the command and in how absent bytes are written. *)
Definition half_like (f0 f : FastChainState) : Prop :=
  f_Height f = f_Height f0 ∧ f_Parent f ≈ f_Parent f0 ∧
  match f_QC f0 with
  | None => f_QC f = None
  | Some qc => ∃ qc', f_QC f = Some qc' ∧ qc_BlockHash qc' ≈ qc_BlockHash qc
  end.
(** A copy in a replica that has executed up to height [e]. *)
Definition copy_of (e : Z) (f0 f : FastChainState) : Prop :=
  half_like f0 f ∧
  (f_Command f = f_Command f0 ∨
   f_Command f = None ∧ ∀ c, f_Command f0 = Some c → is_fast c → (f_Height f0 ≤ e)%Z).

(** The fast half of a block. *)
Definition half d (b : nat) : option FastChainState :=
  blk ← d_blocks d !! b; a ← mb_FastState (blk_State blk); d_fasts d !! a.
Definition cached d (b : nat) (k : bytes) : Prop := ∃ blk, d_blocks d !! b = Some blk ∧ blk_512Hash blk = Some k.

(** A block at another height than the one whose hash it has. *)
Definition clash (L : ledger) d : Prop := ∃ b f n k f0,
  cached d b k ∧ half d b = Some f ∧ L !! n = Some (k, f0) ∧ f_Height f ≠ Z.of_nat n.

Record replica_ok (L : ledger) (e : nat) (h : list ExecPacket) d : Prop := {
  ro_fasts a f : d_fasts d !! a = Some f → ∃ n k f0, L !! n = Some (k, f0) ∧ copy_of (Z.of_nat e) f0 f;
  ro_stored k b : fastBlocks (d_blockchain d) !! k = Some b → cached d b k;
  ro_exec : ∃ k f0, L !! e = Some (k, f0) ∧ cached d (d_bExecFast d) k;
  ro_cmds : fast_cmds (x_Cmd <$> h ++ d_committedCmds d) = fast_cmds (ledger_cmds (take (S e) L));
}.

Lemma half_Some d b f :
  half d b = Some f → ∃ blk a, d_blocks d !! b = Some blk ∧ mb_FastState (blk_State blk) = Some a ∧ d_fasts d !! a = Some f.
Proof.
  unfold half. destruct (d_blocks d !! b) as [blk|]; simpl; [|done].
  destruct (mb_FastState (blk_State blk)) as [a|] eqn:Ha; simpl; [|done]. intros Hf. by exists blk, a.
Qed.
Lemma cached_grows d d' b k : grows d d' → cached d b k → cached d' b k.
Proof. intros Hg (blk & Hb & Hk). destruct (gr_blocks _ _ Hg _ _ Hb) as (blk' & ? & _ & ?). exists blk'. auto. Qed.
Lemma half_grows d d' b f : grows d d' → half d b = Some f → ∃ f', half d' b = Some f' ∧ same_half f f'.
Proof.
  intros Hg (blk & a & Hb & Ha & Hf)%half_Some.
  destruct (gr_blocks _ _ Hg _ _ Hb) as (blk' & Hb' & E & _), (gr_fasts _ _ Hg _ _ Hf) as (f' & Hf' & ?).
  exists f'. split; [|done]. unfold half. rewrite Hb'. simpl. rewrite E, Ha. done.
Qed.
Lemma clash_upward L : upward (clash L).
Proof.
  intros d d' Hg (b & f & n & k & f0 & Hc & Hf & Hl & Hn).
  destruct (half_grows _ _ _ _ Hg Hf) as (f' & ? & E & _). exists b, f', n, k, f0.
  split_and!; [by eapply cached_grows|done..|]. by rewrite E.
Qed.
Lemma wf_unique L n k f n' k' f' :
  wf_ledger L → L !! n = Some (k, f) → L !! n' = Some (k', f') → f_Height f = f_Height f' → n = n'.
Proof. intros Hw Hn Hn' Hh. apply wf_height in Hn, Hn'; [|done..]. lia. Qed.

Lemma FastState_wp b (Q : FastChainState → ChainDuoBFT U → Prop) d :
  (∀ f, half d b = Some f → Q f d) → wp (FastState b) Q d.
Proof.
  intros HQ. unfold wp, FastState, get_block, half, get, mbind, M_bind in *.
  destruct (d_blocks d !! b) as [blk|]; [|done]. simpl in *.
  destruct (mb_FastState (blk_State blk)) as [a|]; [|done]. simpl in *.
  destruct (d_fasts d !! a) as [f|]; [|done]. by apply HQ.
Qed.

(** The height of a block that has the hash of an entry, and the entry it copies. *)
Lemma entry_of L e h d b k n f0 f :
  wf_ledger L → replica_ok L e h d → cached d b k → L !! n = Some (k, f0) → half d b = Some f →
  copy_of (Z.of_nat e) f0 f ∨ clash L d.
Proof.
  intros Hw [Hfs _ _ _] Hc Hn Hf. destruct (decide (f_Height f = Z.of_nat n)) as [Eh|Hne].
  - left. destruct (half_Some _ _ _ Hf) as (blk & a & Hb & Ha & Hfa).
    destruct (Hfs a f Hfa) as (n' & k' & f0' & Hn' & Hcp). pose proof Hcp as [(E & _ & _) _].
    assert (n' = n) as -> by (apply wf_height in Hn'; [lia|done]). rewrite Hn in Hn'. by injection Hn' as _ <-.
  - right. by exists b, f, n, k, f0.
Qed.

(** ** What a replica does to the ledger's copies *)
Lemma ro_same L e h d d' :
  grows d d' → d_fasts d' = d_fasts d → fastBlocks (d_blockchain d') = fastBlocks (d_blockchain d) →
  d_bExecFast d' = d_bExecFast d → d_committedCmds d' = d_committedCmds d →
  replica_ok L e h d → replica_ok L e h d'.
Proof.
  intros Hg Ef Ec Ee Ex [Hfs Hst (k & f0 & Hl & Hc) Hx]. split.
  - rewrite Ef. exact Hfs.
  - rewrite Ec. intros k' b Hb. eapply cached_grows; [done|by apply Hst].
  - exists k, f0. split; [done|]. rewrite Ee. by eapply cached_grows.
  - by rewrite Ex.
Qed.
Lemma ro_frame L e h : frame (replica_ok L e h).
Proof.
  assert (∀ g d, replica_ok L e h d → d_blocks (g d) = d_blocks d → d_fasts (g d) = d_fasts d →
    constants (g d) = constants d → fastBlocks (d_blockchain (g d)) = fastBlocks (d_blockchain d) →
    d_bExecFast (g d) = d_bExecFast d → d_committedCmds (g d) = d_committedCmds d → replica_ok L e h (g d)) as Hsame.
  { intros g d Hd Eb Ef Ec Ek Ee Ex. apply (ro_same L e h d); [apply grows_neutral; congruence|done..]. }
  split; [split|..]; try (intros; by apply Hsame).
  - intros b d Hd. apply hash_wp. intros blk x Hb Hk _. eapply ro_same; [by eapply cache_grows|done..].
  - intros s d Hd. unfold new_block. do 5 wp_step. eapply ro_same; [apply append_grows|done..].
  - intros g d Hg Hd. apply (Hsame (λ d, d <| d_pacemaker ::= g |>)); [done..| |done|done|done]. unfold constants. simpl.
    specialize (Hg (d_pacemaker d)). unfold fast_part in Hg. congruence.
  - intros g d Hg Hd. apply (Hsame (λ d, d <| d_blockchain ::= g |>)); [done..|apply Hg|done|done].
Qed.

(** A packet of a slow command leaves the fast ones as they are, and the command
    that is taken out is none of them. *)
Lemma ro_slow_exec L e h b f cmd d :
  replica_ok L e h d → half d b = Some f → f_Command f = Some cmd → c_Meta cmd = None →
  wp (enqueueForExecution cmd;; clear_Command b) (λ _, replica_ok L e h) d.
Proof.
  intros [Hfs Hst Hx Hc] Hf Hcmd Hm. destruct (half_Some _ _ _ Hf) as (blk & a & Hb & Ha & Hfa).
  unfold enqueueForExecution, clear_Command, get_block. do 5 wp_step. cbn. rewrite Hb. wp_step. rewrite Ha. wp_step.
  split; cbn.
  - intros a' f'. rewrite list_lookup_alter. case_decide as E; [|by apply Hfs]. subst a'. rewrite Hfa. simpl. intros [= <-].
    destruct (Hfs _ _ Hfa) as (n & k & f0 & Hn & Hl & Hcp). exists n, k, f0. split; [done|]. split; [exact Hl|]. right.
    split; [done|]. intros c Hc0 Hfast. destruct Hcp as [E|[E _]]; [|congruence]. exfalso. apply Hfast. congruence.
  - intros k b' Hb'. destruct (Hst k b' Hb') as (blk' & ? & ?). by exists blk'.
  - exact Hx.
  - rewrite app_assoc, fmap_app. unfold fast_cmds in *. rewrite filter_app, Hc. simpl.
    rewrite filter_cons_False by (unfold is_fast; tauto). by rewrite app_nil_r.
Qed.
Lemma ro_slow_tail L e h b : preserves (replica_ok L e h)
  (f ← FastState b;
   match f_Command f with
   | Some cmd => if bool_decide (is_Some (c_Meta cmd)) then mret tt else enqueueForExecution cmd;; clear_Command b
   | None => mret tt
   end).
Proof.
  intros d Hd. wp_step. apply FastState_wp. intros f Hf. destruct (f_Command f) as [cmd|] eqn:Hc; [|by wp_step].
  case_bool_decide as Hm; [by wp_step|]. eapply ro_slow_exec; [done..|]. destruct (c_Meta cmd); [|done]. by destruct Hm.
Qed.
Lemma ro_slowCommit L e h b : preserves (replica_ok L e h) (slowCommit b).
Proof.
  unfold slowCommit. preserves_step; [apply preserves_get|]. match goal with |- preserves _ (_ ?n _) => generalize n as fuel end.
  intros fuel. revert b. induction fuel as [|fuel IH]; intros b; simpl; [by intros d|].
  unfold exec_block, getSlowBlockFor, getFastBlockFor. repeat (first [apply ro_slow_tail|preserves_step]).
  apply preserves_modify. intros d. apply (fr_execSlow _ (fr_calm _ (ro_frame L e h))).
Qed.

(** Executing the next entry. *)
Lemma copy_mono e e' f0 f : (e ≤ e')%Z → copy_of e f0 f → copy_of e' f0 f.
Proof. intros Hle [Hl [E|[E Hc]]]; (split; [done|]); [by left|right]. split; [done|]. intros c ? ?. specialize (Hc c). lia || (etrans; [by apply Hc|done]). Qed.
Lemma ledger_cmds_S L n k f : L !! n = Some (k, f) →
  fast_cmds (ledger_cmds (take (S n) L)) = fast_cmds (ledger_cmds (take n L)) ++ fast_cmds (option_list (f_Command f)).
Proof.
  intros Hn. unfold ledger_cmds, fast_cmds. rewrite (take_S_r _ _ _ Hn), omap_app, filter_app. simpl.
  by destruct (f_Command f).
Qed.
Lemma ro_fast_exec L e h b k f0 d :
  wf_ledger L → replica_ok L e h d → L !! S e = Some (k, f0) → cached d b k →
  (∀ f, half d b = Some f → copy_of (Z.of_nat e) f0 f) →
  wp (modify (λ d, d <| d_bExecFast := b |>);;
      f ← FastState b;
      match f_Command f with
      | Some cmd => if bool_decide (c_Meta cmd = None) then mret tt else enqueueForExecution cmd;; clear_Command b
      | None => mret tt
      end) (λ _, replica_ok L (S e) h) d.
Proof.
  intros Hw [Hfs Hst Hx Hc] Hl Hk Hcp. wp_step. wp_step. wp_step. apply FastState_wp.
  change (half (d <| d_bExecFast := b |>) b) with (half d b). intros f Hf. specialize (Hcp f Hf).
  destruct (half_Some _ _ _ Hf) as (blk & a & Hb & Ha & Hfa).
  assert (fast_cmds (option_list (f_Command f0)) = fast_cmds (option_list (f_Command f))) as Ec.
  { destruct Hcp as [_ [->|[-> Hle]]]; [done|]. destruct (f_Command f0) as [c|] eqn:Hc0; [|done].
    unfold fast_cmds. simpl. rewrite filter_cons_False; [done|]. intros Hfast.
    specialize (Hle c eq_refl Hfast). rewrite (wf_height _ Hw _ _ _ Hl) in Hle. lia. }
  assert (∀ cs, fast_cmds (x_Cmd <$> h ++ d_committedCmds d) ++ cs = fast_cmds (ledger_cmds (take (S (S e)) L)) ↔
    cs = fast_cmds (option_list (f_Command f))) as Hnext.
  { intros cs. rewrite (ledger_cmds_S _ _ _ _ Hl), Ec, Hc. split; [apply app_inv_head|by intros ->]. }
  assert (∀ a' f', d_fasts d !! a' = Some f' → ∃ n k f0, L !! n = Some (k, f0) ∧ copy_of (Z.of_nat (S e)) f0 f') as Hfs'.
  { intros a' f' Hf'. destruct (Hfs _ _ Hf') as (n & k' & f0' & ? & Hcp'). exists n, k', f0'. split; [done|].
    eapply copy_mono; [|done]. lia. }
  assert (fast_cmds (option_list (f_Command f)) = [] → replica_ok L (S e) h (d <| d_bExecFast := b |>)) as Hdone.
  { intros E. split; [exact Hfs'|exact Hst|by exists k, f0|]. cbn. rewrite <-(app_nil_r (fast_cmds _)). apply Hnext. by rewrite E. }
  destruct (f_Command f) as [cmd|] eqn:Hcmd; [|wp_step; by apply Hdone].
  case_bool_decide as Hm.
  { wp_step. apply Hdone. simpl. unfold fast_cmds. by rewrite filter_cons_False by (unfold is_fast; tauto). }
  unfold enqueueForExecution, clear_Command, get_block. do 5 wp_step. cbn. rewrite Hb. wp_step. rewrite Ha. wp_step.
  split; cbn.
  - intros a' f'. rewrite list_lookup_alter. case_decide as E; [|by apply Hfs']. subst a'. rewrite Hfa. simpl. intros [= <-].
    exists (S e), k, f0. split; [done|]. split; [apply Hcp|]. right. split; [done|].
    intros c _ _. rewrite (wf_height _ Hw _ _ _ Hl). done.
  - intros k' b' Hb'. destruct (Hst k' b' Hb') as (blk' & ? & ?). by exists blk'.
  - by exists k, f0.
  - rewrite app_assoc, fmap_app. unfold fast_cmds at 1. rewrite filter_app. apply Hnext. simpl.
    unfold fast_cmds. simpl. by rewrite !filter_cons_True by done.
Qed.

(** *** The commit of a block whose hash is in the ledger *)
Lemma Array_like s k : s ≈ Some k → length k = 64 → Array s = Ret k.
Proof.
  unfold Array, slice_eqv. simpl. intros -> Hk. rewrite decide_True by lia. by rewrite take_ge by lia.
Qed.
Lemma copies_or_clash L e h d b k n f0 :
  wf_ledger L → replica_ok L e h d → cached d b k → L !! n = Some (k, f0) →
  (∀ f, half d b = Some f → copy_of (Z.of_nat e) f0 f) ∨ clash L d.
Proof.
  intros Hw Hr Hc Hn. destruct (half d b) as [f|] eqn:Hf; [|by left].
  destruct (entry_of _ _ _ _ _ _ _ _ _ Hw Hr Hc Hn Hf); [left; by intros f' [= <-]|by right].
Qed.
Lemma copy_height L e n k f0 f :
  wf_ledger L → L !! n = Some (k, f0) → copy_of e f0 f → f_Height f = Z.of_nat n.
Proof. intros Hw Hn [(E & _ & _) _]. rewrite E. by eapply wf_height. Qed.
Lemma upward_rec (I : ChainDuoBFT U → Prop) fuel b : upward I → preserves I (fastCommit_rec fuel b).
Proof.
  intros Hup. pose proof (to_clear_Command I (upward_tolerant I Hup)) as Hcl. revert b. induction fuel as [|fuel IH]; intros b; simpl; [by intros d|].
  unfold getFastBlockFor, enqueueForExecution. preserves_steps; apply (to_modify _ (upward_tolerant _ Hup)); by intros [].
Qed.
Lemma grows_upward d : upward (grows d).
Proof. intros d1 d2 Hg Hd. by etrans. Qed.
(** From a clash on, there is nothing to show. *)
Lemma wp_clash {A} L (m : M (ChainDuoBFT U) A) (Q : A → ChainDuoBFT U → Prop) d :
  preserves (clash L) m → clash L d → wp m (λ a d', Q a d' ∨ clash L d') d.
Proof. intros Hm Hd. eapply wp_mono; [by apply Hm|]. simpl. auto. Qed.

Lemma ro_fastCommit_rec L h fuel : wf_ledger L → ∀ e d b k n f0,
  replica_ok L e h d → cached d b k → L !! n = Some (k, f0) →
  wp (fastCommit_rec fuel b) (λ _ d', replica_ok L (max e n) h d' ∨ clash L d') d.
Proof.
  intros Hw. induction fuel as [|fuel IH]; intros e d b k n f0 Hr Hc Hn; [done|].
  destruct (copies_or_clash _ _ _ _ _ _ _ _ Hw Hr Hc Hn) as [Hb|Hcl];
    [|apply wp_clash; [apply upward_rec, clash_upward|done]].
  destruct (ro_exec _ _ _ _ Hr) as (ke & fe & Hle & Hce).
  destruct (copies_or_clash _ _ _ _ _ _ _ _ Hw Hr Hce Hle) as [He|Hcl];
    [|apply wp_clash; [apply upward_rec, clash_upward|done]].
  simpl. wp_step. wp_step. wp_step. apply FastState_wp. intros fx Hx. specialize (He fx Hx).
  wp_step. apply FastState_wp. intros f Hf. specialize (Hb f Hf).
  pose proof (copy_height _ _ _ _ _ _ Hw Hle He) as Eh. pose proof (copy_height _ _ _ _ _ _ Hw Hn Hb) as Eb.
  wp_step; case_bool_decide as Hlt; try done; [|left; by rewrite max_l by lia].
  destruct n as [|n]; [lia|]. destruct (lookup_lt_is_Some_2 L n) as [[k' f'] Hn'].
  { apply lookup_lt_Some in Hn. lia. }
  destruct (wf_link _ Hw _ _ _ _ _ Hn' Hn) as [Ep _]. pose proof Hb as [(_ & Hp & _) _]. rewrite Ep in Hp.
  wp_step. apply wp_lift. rewrite (Array_like _ _ Hp (wf_hash _ Hw _ _ _ Hn')). intros ? [= <-].
  wp_step. unfold getFastBlockFor. wp_step. destruct (fastBlocks (d_blockchain d) !! k') as [parent|] eqn:Hs; [|by wp_step].
  wp_step. eapply wp_mono; [apply wp_and|].
  - apply (IH e d parent k' n f'); [done| |done]. by apply (ro_stored _ _ _ _ Hr).
  - apply (upward_rec (grows d)); [apply grows_upward|done].
  - simpl. intros _ d' [Hd' Hg]. pose proof (clash_upward L) as Hup.
    assert (preserves (clash L) (modify (λ d, d <| d_bExecFast := b |>);; f ← FastState b;
      match f_Command f with
      | Some cmd => if bool_decide (c_Meta cmd = None) then mret tt else enqueueForExecution cmd;; clear_Command b
      | None => mret tt end)) as Hrest.
    { pose proof (to_clear_Command (clash L) (upward_tolerant _ Hup)). unfold enqueueForExecution. preserves_steps; apply (to_modify _ (upward_tolerant _ Hup)); by intros []. }
    destruct Hd' as [Hd'|Hcl]; [|by apply wp_clash]. rewrite max_r in Hd' by lia. rewrite max_r by lia.
    pose proof (cached_grows _ _ _ _ Hg Hc) as Hc'.
    destruct (copies_or_clash _ _ _ _ _ _ _ _ Hw Hd' Hc' Hn) as [Hb'|Hcl]; [|by apply wp_clash].
    eapply wp_mono; [by eapply ro_fast_exec|]. auto.
Qed.

(** ** The handlers of a replica that does not lead *)
Definition good (L : ledger) (h : list ExecPacket) d : Prop := (∃ e, replica_ok L e h d) ∨ clash L d.
Lemma good_frame L h : frame (good L h).
Proof. apply frame_or; [apply frame_ex; intros e; apply ro_frame|apply up_frame, clash_upward]. Qed.
Lemma good_modify L h (g : ChainDuoBFT U → ChainDuoBFT U) :
  (∀ d, (d_blocks (g d), d_fasts (g d), constants (g d), fastBlocks (d_blockchain (g d)), d_bExecFast (g d),
    d_committedCmds (g d)) = (d_blocks d, d_fasts d, constants d, fastBlocks (d_blockchain d), d_bExecFast d,
    d_committedCmds d)) → preserves (good L h) (modify g).
Proof.
  intros Hg. apply preserves_modify. intros d Hd. specialize (Hg d).
  assert (grows d (g d)) as Hgr by (apply grows_neutral; congruence).
  destruct Hd as [[e Hd]|Hd]; [left; exists e|right; by eapply clash_upward].
  eapply ro_same; [done|congruence..|done].
Qed.
(** Storing a block; the hash has been cached just before. *)
Lemma good_storeFast L h b : preserves (good L h) (storeFastBlock b).
Proof.
  intros d Hd. unfold storeFastBlock, on_chain. wp_step. apply hash_wp. intros blk k Hb Hk _.
  set (d1 := d <| d_blocks ::= _ |>). assert (grows d d1) as Hg by by eapply cache_grows.
  assert (cached d1 b k) as Hc.
  { exists (set blk_512Hash (λ _, Some k) blk). split; [|done]. unfold d1. cbn. by rewrite list_lookup_alter_eq, Hb. }
  assert (good L h (d1 <| d_blockchain ::= λ c, c <| fastBlocks ::= <[k := b]> |> |>)) as Hd1.
  { destruct Hd as [[e Hd]|Hd]; [left; exists e|right; eapply clash_upward, Hd].
    2:{ etrans; [exact Hg|by apply grows_neutral]. }
    eapply ro_same in Hd; [|exact Hg|done..]. destruct Hd as [Hfs Hst Hx Hcm]. split; [done| |done..]. cbn.
    intros k' b'. rewrite lookup_insert. case_decide as E; [subst; by intros [= <-]|by apply Hst]. }
  wp_step. wp_step. wp_step. eapply wp_mono; [by apply preserves_FastState|]. simpl. intros f d2 Hd2.
  eapply wp_mono; [apply (good_modify L h); [by intros []|done]|]. done.
Qed.
Lemma good_new_fast L h f0 f n k : L !! n = Some (k, f0) → half_like f0 f → f_Command f = f_Command f0 →
  preserves (good L h) (new_fast f).
Proof.
  intros Hn Hl Hc d Hd. unfold new_fast. do 5 wp_step.
  destruct Hd as [[e Hd]|Hd]; [left; exists e|right; eapply clash_upward, Hd; apply append_fast_grows].
  pose proof (append_fast_grows d f) as Hg. destruct Hd as [Hfs Hst (kx & fx & Hx & Hcx) Hcm]. split; cbn.
  - intros a f'. intros [Ha|[_ Ha]]%lookup_app_Some; [by eapply Hfs|].
    apply list_lookup_singleton_Some in Ha as [_ <-]. exists n, k, f0. split; [done|]. split; [done|by left].
  - intros k' b Hb. eapply cached_grows; [done|by apply Hst].
  - exists kx, fx. split; [done|]. by eapply cached_grows.
  - done.
Qed.

(** The block that the commit rule finds has the hash of an entry. *)
Definition in_ledger (L : ledger) d (b : nat) : Prop := ∃ k n f0, cached d b k ∧ L !! n = Some (k, f0).
Lemma commit_rule_wp L e h b d :
  wf_ledger L → replica_ok L e h d →
  wp (fastCommitRule b) (λ r d', (replica_ok L e h d' ∧ ∀ b1, r = Some b1 → in_ledger L d' b1) ∨ clash L d') d.
Proof.
  intros Hw Hr. unfold fastCommitRule. wp_step. wp_step. wp_step. apply FastState_wp. intros f Hf.
  wp_step. apply FastState_wp. intros lock _. wp_step.
  eapply (wp_mono _ (λ _ d', replica_ok L e h d' ∧ fastBlocks (d_blockchain d') = fastBlocks (d_blockchain d))).
  { wp_step; [|done]. wp_step. split; [|done]. apply (ro_same L e h d); [by apply grows_neutral|done..]. }
  simpl. intros _ d1 [Hr1 Ec]. destruct (half_Some _ _ _ Hf) as (blk & a & _ & _ & Hfa).
  destruct (ro_fasts _ _ _ _ Hr _ _ Hfa) as (n & k & f0 & Hn & (_ & _ & Hqc) & _).
  unfold qcRefFast. destruct (f_QC f) as [qc|] eqn:Hq; [|wp_step; wp_step; left; by split].
  destruct n as [|n].
  { destruct (wf_0 _ Hw) as [g Hg]. rewrite Hg in Hn. injection Hn as <- <-. by simpl in Hqc. }
  destruct (lookup_lt_is_Some_2 L n) as [[k' f'] Hn']; [apply lookup_lt_Some in Hn; lia|].
  destruct (wf_link _ Hw _ _ _ _ _ Hn' Hn) as (_ & qc0 & Eq & Ek & _). rewrite Eq in Hqc.
  destruct Hqc as (qc' & [= <-] & Hk). rewrite Ek in Hk.
  wp_step. wp_step. apply wp_lift. rewrite (Array_like _ _ Hk (wf_hash _ Hw _ _ _ Hn')). intros ? [= <-].
  unfold getFastBlockFor. wp_step. destruct (fastBlocks (d_blockchain d1) !! k') as [b1|] eqn:Hs; [|wp_step; left; by split].
  pose proof (ro_stored _ _ _ _ Hr1 _ _ Hs) as Hc1.
  wp_step. wp_step. wp_step. eapply wp_mono; [apply wp_and|].
  - apply (fr_hash _ (fr_calm _ (ro_frame L e h))). exact Hr1.
  - apply (up_hash (grows d1)); [apply grows_upward|done].
  - simpl. intros hb d2 [Hr2 Hg]. case_decide; wp_step; (left; split; [done|]); [|done]. intros ? [= <-].
    exists k', n, f'. split; [by eapply cached_grows|done].
Qed.
Lemma good_commit L h b (rest : M (ChainDuoBFT U) unit) : wf_ledger L → preserves (good L h) rest → preserves (clash L) rest →
  preserves (good L h) (r ← fastCommitRule b; match r with Some b => fastCommit b | None => mret tt end;; rest).
Proof.
  intros Hw Hrest Hrest' d Hd. pose proof (clash_upward L) as Hup.
  pose proof (to_fastRule _ (upward_tolerant _ Hup) b) as Hc1. pose proof (to_fastCommit _ (upward_tolerant _ Hup)) as Hc2.
  wp_step. eapply (wp_mono _ (λ r d', (∃ e, replica_ok L e h d' ∧ ∀ b1, r = Some b1 → in_ledger L d' b1) ∨ clash L d')).
  { destruct Hd as [[e Hd]|Hd].
    - eapply wp_mono; [by apply (commit_rule_wp L e h)|]. simpl. intros r d' [?|?]; [left; by exists e|by right].
    - eapply wp_mono; [by apply Hc1|]. simpl. auto. }
  simpl. intros r d1 Hd1. wp_step. eapply (wp_mono _ (λ _, good L h)); [|simpl; auto].
  destruct Hd1 as [(e & Hd1 & Hb)|Hcl].
  - destruct r as [b1|]; [|wp_step; left; by exists e]. destruct (Hb b1 eq_refl) as (k & n & f0 & Hc & Hn).
    unfold fastCommit. wp_step. wp_step. eapply wp_mono; [by eapply ro_fastCommit_rec|]. simpl.
    intros _ d' [?|?]; [left; by eexists|by right].
  - destruct r as [b1|]; [|wp_step; by right]. eapply wp_mono; [by apply Hc2|]. simpl. by right.
Qed.

Section replica.
Context (L : ledger) (h : list ExecPacket) (Hw : wf_ledger L).
Lemma gd_hash b : preserves (good L h) (hash b).
Proof. apply fr_hash, fr_calm, good_frame. Qed.
Lemma gd_new_block s : preserves (good L h) (new_block s).
Proof. apply fr_new_block, fr_calm, good_frame. Qed.
Lemma gd_sendVote b : preserves (good L h) (sendVote b).
Proof. apply fr_sendVote, fr_calm, good_frame. Qed.
Lemma gd_fast_safe b qc : preserves (good L h) (fast_safe b qc).
Proof. apply fr_fast_safe, fr_calm, good_frame. Qed.
Lemma gd_storeFast b : preserves (good L h) (storeFastBlock b).
Proof. apply good_storeFast. Qed.
Lemma gd_certificate b x v : preserves (good L h) (certificate b x v).
Proof. apply fr_certificate, fr_calm, good_frame. Qed.
Lemma gd_updateSlow qc : preserves (good L h) (updateSlowHighQC qc).
Proof. apply fr_updateSlowHighQC, fr_calm, good_frame. Qed.
Lemma gd_onSlowQC qc : preserves (good L h) (onSlowQC qc).
Proof. apply fr_onSlowQC, good_frame. Qed.
Lemma gd_clean : preserves (good L h) clean_votes.
Proof. apply fr_clean_votes, fr_calm, good_frame. Qed.
Lemma gd_vote_signed b c : preserves (good L h) (vote_signed b c).
Proof. apply fr_vote_signed, fr_calm, good_frame. Qed.
Lemma gd_onVote v : preserves (good L h) (onVote v).
Proof. apply fr_onVote, fr_calm, good_frame. Qed.
Lemma gd_schedule : preserves (good L h) (scheduleBack BeatStep).
Proof. apply fr_scheduleBack, good_frame. Qed.
#[local] Hint Resolve gd_hash gd_new_block gd_sendVote gd_fast_safe gd_storeFast gd_certificate gd_updateSlow
  gd_onSlowQC gd_clean gd_vote_signed gd_onVote gd_schedule : go_inv.
Ltac gd := preserves_steps; try (apply good_modify; by intros []).
Lemma gd_updateFast qc : preserves (good L h) (updateFastHighQC qc).
Proof. unfold updateFastHighQC, getFastBlockFor, get_pm, on_pm. gd. Qed.
Lemma gd_onFastQC qc : preserves (good L h) (onFastQC qc).
Proof. unfold onFastQC, get_pm, on_pm. gd. Qed.
Lemma gd_queueFast m : preserves (good L h) (queueBlockFastPropose m).
Proof. unfold queueBlockFastPropose. gd. Qed.
Lemma gd_slowCommit b : preserves (good L h) (slowCommit b).
Proof.
  apply preserves_or; [apply preserves_ex; intros e; apply ro_slowCommit|].
  by apply to_slowCommit, upward_tolerant, clash_upward.
Qed.
#[local] Hint Resolve gd_updateFast gd_onFastQC gd_queueFast : go_inv.
Lemma gd_fastPropose_rec fuel m b : preserves (good L h) (fastPropose_rec fuel m b).
Proof.
  pose proof (to_hash _ (upward_tolerant _ (clash_upward L))). pose proof (to_new_block _ (upward_tolerant _ (clash_upward L))).
  pose proof (to_onFastQC _ (upward_tolerant _ (clash_upward L))). pose proof (to_fastPropose_rec _ (upward_tolerant _ (clash_upward L))).
  revert m b. induction fuel as [|fuel IH]; intros m b; simpl; [by intros d|]. unfold fastPropose_body.
  repeat (first [apply good_commit; [done| |]|preserves_step]);
    first [apply good_modify; by intros []|apply (to_modify _ (upward_tolerant _ (clash_upward L))); by intros []].
Qed.
Lemma gd_fastPropose m b : preserves (good L h) (onFastProposeContinue m b).
Proof. pose proof gd_fastPropose_rec. unfold onFastProposeContinue. gd. Qed.
Lemma gd_slowPropose m b : preserves (good L h) (onSlowProposeContinue m b).
Proof. unfold onSlowProposeContinue. preserves_step; [gd|]. apply fr_slowPropose; [apply good_frame|apply gd_slowCommit]. Qed.
Lemma gd_count_vote v b : preserves (good L h) (count_vote v b).
Proof. unfold count_vote. gd. Qed.
Lemma gd_load m :
  (∀ f, b_FastState m = Some f → ∃ n k f0, L !! n = Some (k, f0) ∧ half_like f0 f ∧ f_Command f = f_Command f0) →
  preserves (good L h) (load m).
Proof.
  intros Hm. unfold load. destruct (b_FastState m) as [f|]; [|gd]. destruct (Hm f eq_refl) as (n & k & f0 & ? & ? & ?).
  preserves_step; [|intros; gd]. preserves_step; [|gd]. by eapply good_new_fast.
Qed.
Lemma gd_onPropose m from : preserves (good L h) (onPropose m from).
Proof. unfold onPropose, get_pm, fastVerify_Exec, slowVerify_Exec, on_pools. gd. Qed.

(** A replica that does not lead its view sends votes only. *)
Definition follower d : Prop :=
  d_peers d ≠ [] → (pm_currentView (d_pacemaker d) `mod` Z.of_nat (length (d_peers d)))%Z ≠ d_id d.
Definition quiet d : Prop := ∀ m, m ∈ d_msgs d → msg_From m = d_id d ∧ vote_content (msg_Content m).
Definition follows d : Prop := (follower d ∧ quiet d) ∧ good L h d.
Lemma follows_tolerant : tolerant (λ d, follower d ∧ quiet d).
Proof.
  assert (∀ d d', (constants d', d_msgs d') = (constants d, d_msgs d) → follower d ∧ quiet d → follower d' ∧ quiet d') as Hsame.
  { intros d d' E [Hf Hq]. unfold constants in E. unfold follower, quiet.
    replace (d_msgs d') with (d_msgs d) by congruence. replace (d_id d') with (d_id d) by congruence.
    replace (d_peers d') with (d_peers d) by congruence.
    replace (pm_currentView (d_pacemaker d')) with (pm_currentView (d_pacemaker d)) by congruence. by split. }
  assert (∀ g : ChainDuoBFT U → ChainDuoBFT U, (∀ d, (constants (g d), d_msgs (g d)) = (constants d, d_msgs d)) →
    preserves (λ d, follower d ∧ quiet d) (modify g)) as Hmod.
  { intros g Hg. apply preserves_modify. intros d. by apply Hsame. }
  split.
  - split; [split|..]; try (intros; eapply Hsame; [|done]; reflexivity).
    + intros b d Hd. apply hash_wp. intros blk h' _ _ _. by eapply Hsame.
    + intros s'. unfold new_block. preserves_steps.
    + intros g d Hg Hd. eapply Hsame; [|done]. unfold constants. simpl. specialize (Hg (d_pacemaker d)). unfold fast_part in Hg. congruence.
    + intros to b d Hv [Hf Hq]. split; [done|]. intros m. cbn. intros [Hm|Hm]%elem_of_app; [by apply Hq|].
      apply list_elem_of_singleton in Hm as ->. by split.
  - intros f. unfold new_fast. preserves_steps.
  - intros b. unfold clear_Command. preserves_steps.
  - intros g Hg. apply Hmod. intros d. specialize (Hg d). congruence.
Qed.
Lemma follows_keeps {A} (m : M (ChainDuoBFT U) A) :
  preserves (good L h) m → (∀ I, tolerant I → preserves I m) → preserves follows m.
Proof.
  intros Hg Ht. apply preserves_and; [by apply Ht, follows_tolerant|done].
Qed.
Lemma follows_beat : preserves follows beat.
Proof.
  intros d Hd. unfold beat, getLeader, get_pm. do 7 wp_step.
  case_decide as Hp; [by wp_step|]. wp_step. pose proof (proj1 (proj1 Hd) Hp) as Hf.
  rewrite bool_decide_true; [simpl; by wp_step|]. intros E. by apply Hf.
Qed.
Lemma follows_callback j res : preserves follows (callback j res).
Proof.
  unfold callback. preserves_step; [preserves_step|]. match goal with r : bytes |- _ => rename r into bs end. destruct j as [m b|m b|b u|v b| |m b]; try case_decide;
    try apply preserves_panic; try apply follows_beat.
  - apply follows_keeps; [apply gd_fastPropose|intros; by apply to_fastPropose].
  - apply follows_keeps; [apply gd_slowPropose|intros; by apply to_slowPropose].
  - apply follows_keeps; [apply gd_vote_signed|intros; by apply to_vote_signed].
  - apply follows_keeps; unfold onVoteContinue.
    + pose proof gd_count_vote. preserves_steps.
    + intros I Ht. pose proof (to_count_vote I Ht). pose proof (to_clean I Ht). preserves_steps.
  - pose proof (follows_keeps _ (gd_fastPropose m b) (λ I Ht, to_fastPropose I Ht m b)).
    pose proof (follows_keeps _ (gd_slowPropose m b) (λ I Ht, to_slowPropose I Ht m b)). preserves_steps.
Qed.
Lemma follows_modify (g : ChainDuoBFT U → ChainDuoBFT U) :
  (∀ d, (d_blocks (g d), d_fasts (g d), constants (g d), fastBlocks (d_blockchain (g d)), d_bExecFast (g d),
    d_committedCmds (g d), d_msgs (g d)) = (d_blocks d, d_fasts d, constants d, fastBlocks (d_blockchain d), d_bExecFast d,
    d_committedCmds d, d_msgs d)) → preserves follows (modify g).
Proof.
  intros Hg. apply follows_keeps; [apply good_modify|intros I Ht; apply (to_modify I Ht)];
    intros d; specialize (Hg d); congruence.
Qed.
(** What a replica may be sent: votes, and proposals out of the ledger. *)
Definition from_ledger (b : bytes) : Prop := ∀ m f,
  Unmarshal b = Some (ChainDuoBFTMessage_Propose m) → b_FastState m = Some f →
  ∃ n k f0, L !! n = Some (k, f0) ∧ half_like f0 f ∧ f_Command f = f_Command f0.
Lemma follows_call c :
  match c with Call_Step m => from_ledger (msg_Content m) | _ => True end → preserves follows (do_call c).
Proof.
  intros Hc. destruct c as [m|cmd| |cb| |]; simpl; unfold Tick, Callback; try apply preserves_ret.
  - unfold Step. destruct (Unmarshal (msg_Content m)) as [[p|v|]|] eqn:Hu; try apply preserves_panic.
    + apply follows_keeps.
      * preserves_step; [apply gd_load; intros f; by apply Hc|apply gd_onPropose].
      * intros I Ht. preserves_step; [by apply to_load|by apply to_onPropose].
    + apply follows_keeps; [apply gd_onVote|intros; by apply to_onVote].
  - unfold Request, onRequest, pm_onRequest. preserves_step; [|apply follows_beat]. apply follows_modify. by intros [].
  - unfold AsyncCallback, AsyncCallback_body. pose proof follows_callback.
    preserves_steps. apply follows_modify. by intros [].
  - apply preserves_modify. intros d [[Hf Hq] Hg]. split; [split; [done|by intros m ?%not_elem_of_nil]|].
    apply (good_modify L h (λ d, d <| d_msgs := [] |>)); [by intros []|done].
Qed.
End replica.

Lemma follows_step L h e d d' : worker_step e d = Some d' → follows L h d → follows L h d'.
Proof.
  unfold worker_step. intros ([pl cbs] & _ & [= <-])%bind_Some Hd.
  by apply (follows_modify L h (λ d, d <| d_pools := pl |> <| d_callbackC := cbs |>) ltac:(by intros [])).
Qed.
(** The peer takes what is executed. *)
Lemma ro_taken L e h d :
  replica_ok L e h d → replica_ok L e (h ++ d_committedCmds d) (d <| d_committedCmds := [] |>).
Proof. intros [Hf Hs Hx Hc]. split; [done..|]. cbn. by rewrite app_nil_r. Qed.
Lemma follows_taken L h d : follows L h d → follows L (h ++ d_committedCmds d) (d <| d_committedCmds := [] |>).
Proof.
  intros [Hq [[e Hd]|Hcl]]; (split; [done|]); [left; exists e; by apply ro_taken|right].
  eapply clash_upward, Hcl. by apply grows_neutral.
Qed.

(** A longer ledger. *)
Lemma ro_prefix L L' e h d : L `prefix_of` L' → replica_ok L e h d → replica_ok L' e h d.
Proof.
  intros Hp [Hf Hs (k & f0 & Hl & Hx) Hc]. pose proof (λ n x, prefix_lookup_Some L L' n x) as Hlk. split; [|done|..].
  - intros a f Ha. destruct (Hf a f Ha) as (n & k' & f' & ? & ?). exists n, k', f'. split; [by apply Hlk|done].
  - exists k, f0. split; [by apply Hlk|done].
  - rewrite Hc. destruct Hp as [l ->]. by rewrite take_app_le by (apply lookup_lt_Some in Hl; lia).
Qed.
Lemma clash_prefix L L' d : L `prefix_of` L' → clash L d → clash L' d.
Proof.
  intros Hp (b & f & n & k & f0 & Hc & Hf & Hl & Hn). exists b, f, n, k, f0.
  split_and!; [done..| |done]. by eapply prefix_lookup_Some.
Qed.
Lemma follows_prefix L L' h d : L `prefix_of` L' → follows L h d → follows L' h d.
Proof.
  intros Hp [Hq [[e Hd]|Hcl]]; (split; [done|]); [left; exists e; by eapply ro_prefix|right; by eapply clash_prefix].
Qed.
End chain_safety.
