(* ===== verification/ChainDuoLeader.v ===== *)
(** * The leader of a DuoBFT chain

    The invariant of the replica that proposes, over the ledger of
    ChainDuoSafety.v: what it has stored are the entries of the ledger; the leaf
    is the last entry when a proposal is due, and the one before otherwise; its own
    proposals wait in the callback channel in the order of their heights, above
    the lock; and the commands of the ledger, with those that wait, are the requests
    in their order. *)
From S2P Require Import Prelude Command Worker Peer Runs ChainHotstuff ChainDuo ChainDuoSafety.
From Stdlib Require Import Strings.Byte.
Import ChainDuo.

Lemma wp_bind_inv {S A B} (m : M S B) (k : B → M S A) Q s : wp (m ≫= k) Q s → wp m (λ b, wp (k b) Q) s.
Proof. unfold wp, mbind, M_bind. by destruct (m s) as [[? ?]| |]. Qed.

Section chain_leader.
Context {U : Type} `{GoEnv, !GoEnvLaws, Codec BlockState, Codec ChainDuoBFTMessage, MapRange, Ed25519, UsigEd U}.
Implicit Types (d : ChainDuoBFT U).
Implicit Types (L P : ledger) (R : list Command).
#[local] Hint Resolve preserves_get_block preserves_FastState preserves_SlowState preserves_has_fast
  preserves_has_slow preserves_getLeader preserves_marshall : go_inv.

(** ** The invariant *)

(** The leader's own proposals on the callback channel have increasing heights,
    above [n]; nothing else there makes a fast block. *)
Fixpoint next_ok L d (n : nat) (cbs : callbacks) : Prop :=
  match cbs with
  | [] => True
  | ((_, j), _) :: cbs =>
      match j with
      | FastProposeJob _ _ => False
      | NextStep m blk =>
          (∃ b, d_blocks d !! blk = Some b ∧ blk_State b = m) ∧
          match mb_FastState m with
          | Some _ => ∃ n' k f0, L !! n' = Some (k, f0) ∧ cached d blk k ∧ n < n' ∧ next_ok L d n' cbs
          | None => next_ok L d n cbs
          end
      | _ => next_ok L d n cbs
      end
  end.
Definition pool_job (j : job) : Prop := match j with FastProposeJob _ _ | NextStep _ _ => False | _ => True end.
Definition pool_tasks (p : pools U) : list task :=
  Worker.pending (pl_signUsig p) ++ Worker.pending (pl_sign p) ++
  Worker.pending (pl_fastVerify p) ++ Worker.pending (pl_slowVerify p).
(** A proposal of the ledger to another replica. *)
Definition proposal_of L (id : Z) (m : Message) : Prop :=
  msg_To m ≠ id ∧ ∃ p, Marshal (ChainDuoBFTMessage_Propose p) = Some (msg_Content m) ∧
    ∀ f, b_FastState p = Some f → ∃ n k, L !! n = Some (k, f).

(** [L]: the entries whose blocks are stored; [P]: with the one that [propose] is
    about to store; [R]: the requests; the lock is entry [l]. *)
Record leads L P R (l n : nat) d : Prop := {
  ld_stored k b : fastBlocks (d_blockchain d) !! k = Some b → ∃ n f0, L !! n = Some (k, f0);
  ld_present n k f0 : L !! n = Some (k, f0) → ∃ b, fastBlocks (d_blockchain d) !! k = Some b;
  ld_made n k f0 : L !! n = Some (k, f0) → ∃ b f, cached d b k ∧ half d b = Some f ∧ f_Height f = Z.of_nat n;
  ld_exact a f : d_fasts d !! a = Some f → ∃ n k f0, P !! n = Some (k, f0) ∧ same_half f0 f;
  ld_leaf : ∃ m k f0, L !! m = Some (k, f0) ∧ cached d (pm_bLeafFast (d_pacemaker d)) k ∧
    qc_BlockHash (pm_fastHighQC (d_pacemaker d)) = Some k ∧ qc_Height (pm_fastHighQC (d_pacemaker d)) = Z.of_nat m ∧
    if pm_fastHighQCChanged (d_pacemaker d)
    then length P = S m ∧ pm_currentFastHeight (d_pacemaker d) = Z.of_nat (S m)
    else length P = S (S m) ∧ (pm_currentFastHeight (d_pacemaker d) = Z.of_nat (S m) ∨
                               pm_currentFastHeight (d_pacemaker d) = Z.of_nat (S (S m)));
  ld_lock : ∃ k f0, L !! l = Some (k, f0) ∧ cached d (d_bLockFast d) k;
  ld_lock_le : l ≤ n;
  ld_next : next_ok L d n (d_callbackC d);
  ld_pending : d_pendingFastProposals d = ∅;
  ld_queue : Forall canonical (d_cmdQueue d);
  ld_requests : ledger_cmds P ++ d_cmdQueue d = R;
  ld_last : (d_lastFastHeight d ≤ Z.of_nat (length P))%Z;
  ld_length : length L ≤ length (d_blocks d);
  ld_pools t : t ∈ pool_tasks (d_pools d) → pool_job t.2;
  ld_msgs m : m ∈ d_msgs d → msg_From m = d_id d ∧ (vote_content (msg_Content m) ∨ proposal_of L (d_id d) m);
}.

Lemma grows_length d d' : grows d d' → length (d_blocks d) ≤ length (d_blocks d').
Proof.
  intros Hg. destruct (length (d_blocks d)) as [|x] eqn:Hl; [lia|].
  destruct (lookup_lt_is_Some_2 (d_blocks d) x) as [blk Hb]; [lia|].
  destruct (gr_blocks _ _ Hg _ _ Hb) as (blk' & Hb' & _). apply lookup_lt_Some in Hb'. lia.
Qed.
Lemma next_ok_grows L d d' n cbs : grows d d' → next_ok L d n cbs → next_ok L d' n cbs.
Proof.
  intros Hg. revert n. induction cbs as [|[[t j] r] cbs IH]; intros n; simpl; [done|].
  destruct j as [| | | | |m blk]; auto. intros [(b & Hb & Hm) Hrest]. split.
  - destruct (gr_blocks _ _ Hg _ _ Hb) as (b' & Hb' & E & _). exists b'. split; [done|congruence].
  - destruct (mb_FastState m); [|by apply IH]. destruct Hrest as (n' & k & f0 & ? & ? & ? & ?).
    exists n', k, f0. split_and!; [done|by eapply cached_grows|done|by apply IH].
Qed.
Lemma next_ok_snoc L d n cbs t j r :
  pool_job j → next_ok L d n cbs → next_ok L d n (cbs ++ [((t, j), r)]).
Proof.
  intros Hj. revert n. induction cbs as [|[[t' j'] r'] cbs IH]; intros n; simpl; [by destruct j|].
  destruct j' as [| | | | |m blk]; auto. intros [Hb Hrest]. split; [done|].
  destruct (mb_FastState m); [|by apply IH]. destruct Hrest as (n' & k & f0 & ? & ? & ? & ?).
  exists n', k, f0. split_and!; [done..|by apply IH].
Qed.
(** The part of a state that the invariant looks at, but for the heaps. *)
Definition lead_view d :=
  (fastBlocks (d_blockchain d), fast_part (d_pacemaker d), d_bLockFast d, d_callbackC d, d_pendingFastProposals d,
   d_cmdQueue d, d_lastFastHeight d, d_pools d, d_msgs d).
Definition no_new_half d d' : Prop :=
  ∀ a f', d_fasts d' !! a = Some f' → ∃ f, d_fasts d !! a = Some f ∧ same_half f f'.
Lemma leads_same L P R l n d d' :
  grows d d' → no_new_half d d' → lead_view d' = lead_view d → leads L P R l n d → leads L P R l n d'.
Proof.
  intros Hg Hf E. unfold lead_view, fast_part in E. injection E as E1 E2 E3 E4 E5 E6 E7 E8 E9 E10 E11 E12 E13.
  pose proof (gr_constants _ _ Hg) as Ec. unfold constants in Ec. injection Ec as Eid _ _ _.
  intros [A1 A2 A3 A4 A5 A6 A7 A8 A9 A10 A11 A12 A13 A14 A15]. split.
  - rewrite E1. exact A1.
  - rewrite E1. exact A2.
  - intros i k f0 (b & f & Hc & Hh & Ht)%A3. destruct (half_grows _ _ _ _ Hg Hh) as (f' & Hf' & Eh & _).
    exists b, f'. split_and!; [by eapply cached_grows|done|congruence].
  - intros a f' (f & Ha & Hs)%Hf. destruct (A4 a f Ha) as (i & k & f0 & ? & Hs'). exists i, k, f0. split; [done|].
    unfold same_half in *. intuition congruence.
  - rewrite E2, E3, E4, E5. destruct A5 as (m & k & f0 & ? & ? & ?). exists m, k, f0. split; [done|]. split; [|done].
    by eapply cached_grows.
  - rewrite E7. destruct A6 as (k & f0 & ? & ?). exists k, f0. split; [done|by eapply cached_grows].
  - done.
  - rewrite E8. by eapply next_ok_grows.
  - congruence.
  - congruence.
  - congruence.
  - congruence.
  - apply grows_length in Hg. lia.
  - rewrite E12. exact A14.
  - rewrite E13, Eid. exact A15.
Qed.

Lemma no_new_refl d d' : d_fasts d' = d_fasts d → no_new_half d d'.
Proof. intros E a f Ha. exists f. rewrite <-E. by repeat split. Qed.
Lemma leads_modify L P R l n (g : ChainDuoBFT U → ChainDuoBFT U) d :
  (d_blocks (g d), d_fasts (g d), constants (g d), lead_view (g d)) =
    (d_blocks d, d_fasts d, constants d, lead_view d) → leads L P R l n d → leads L P R l n (g d).
Proof.
  intros E. apply (leads_same _ _ _ _ _ d); [apply grows_neutral; congruence|apply no_new_refl; congruence|congruence].
Qed.
(** A field that a write leaves. *)
Ltac same_field :=
  match goal with
  | A : _ |- _ => exact A
  | A : next_ok _ ?d _ _ |- _ => apply (next_ok_grows _ d); [by apply grows_neutral|exact A]
  end.
Lemma pool_tasks_Exec p t (g : pools U → pools U) :
  g = (λ p, p <| pl_signUsig ::= Worker.Exec t |>) ∨ g = (λ p, p <| pl_sign ::= Worker.Exec t |>) ∨
  g = (λ p, p <| pl_fastVerify ::= Worker.Exec t |>) ∨ g = (λ p, p <| pl_slowVerify ::= Worker.Exec t |>) →
  ∀ t', t' ∈ pool_tasks (g p) → t' = t ∨ t' ∈ pool_tasks p.
Proof.
  intros Hg t'. unfold pool_tasks. rewrite !elem_of_app.
  assert (∀ w, t' ∈ Worker.pending (Worker.Exec t w) → t' = t ∨ t' ∈ Worker.pending w) as He.
  { intros w. rewrite Exec_pending, elem_of_cons. done. }
  destruct Hg as [-> | [-> | [-> | ->]]]; simpl; intros [Hi|[Hi|[Hi|Hi]]]; try apply He in Hi; tauto.
Qed.
Lemma leads_exec L P R l n d j g :
  vote_job j → let t := (d_ctrID d, j) in
  g = (λ p, p <| pl_signUsig ::= Worker.Exec t |>) ∨ g = (λ p, p <| pl_sign ::= Worker.Exec t |>) ∨
  g = (λ p, p <| pl_fastVerify ::= Worker.Exec t |>) ∨ g = (λ p, p <| pl_slowVerify ::= Worker.Exec t |>) →
  leads L P R l n d → leads L P R l n (d <| d_pools ::= g |>).
Proof.
  intros Hj t Hg Hd. assert (∀ t', t' ∈ pool_tasks (g (d_pools d)) → pool_job t'.2) as Hp.
  { intros t' Ht'. destruct (pool_tasks_Exec _ t g Hg _ Ht') as [->|Hin]; [by destruct j|by apply Hd]. }
  destruct Hd as [A1 A2 A3 A4 A5 A6 A7 A8 A9 A10 A11 A12 A13 A14 A15]. split; try exact Hp; same_field.
Qed.
Lemma leads_append L P R l n d blk : leads L P R l n d → leads L P R l n (d <| d_blocks ::= λ l, l ++ [blk] |>).
Proof. apply leads_same; [apply append_grows|by apply no_new_refl|done]. Qed.
Lemma leads_cache L P R l n d b blk k :
  d_blocks d !! b = Some blk → (∀ k', blk_512Hash blk = Some k' → k = k') → leads L P R l n d →
  leads L P R l n (d <| d_blocks ::= alter (set blk_512Hash (λ _, Some k)) b |>).
Proof. intros Hb Hk. apply leads_same; [by eapply cache_grows|by apply no_new_refl|done]. Qed.
Lemma leads_frame L P R l n : frame (leads L P R l n).
Proof.
  split; [split|..].
  - intros b d Hd. apply hash_wp. intros blk k Hb Hk _. by eapply leads_cache.
  - intros s d Hd. unfold new_block. do 5 wp_step. by apply leads_append.
  - intros g d. by apply leads_modify.
  - intros g d. by apply leads_modify.
  - intros g d. by apply leads_modify.
  - intros g d. by apply leads_modify.
  - intros j d Hj. apply leads_exec with j; [done|]. by left.
  - intros j d Hj. apply leads_exec with j; [done|]. right. by left.
  - intros j d Hj. apply leads_exec with j; [done|]. right. right. by left.
  - intros g d Hg. apply (leads_modify _ _ _ _ _ (λ d, d <| d_pacemaker ::= g |>)). specialize (Hg (d_pacemaker d)).
    unfold lead_view, constants. simpl. unfold fast_part in *. congruence.
  - intros g d Hg. apply (leads_modify _ _ _ _ _ (λ d, d <| d_blockchain ::= g |>)). unfold lead_view. simpl. by rewrite Hg.
  - intros g d. by apply leads_modify.
  - intros g d. by apply leads_modify.
  - intros g d. by apply leads_modify.
  - intros g d. by apply leads_modify.
  - intros to b d Hb [A1 A2 A3 A4 A5 A6 A7 A8 A9 A10 A11 A12 A13 A14 A15]. split; try same_field. cbn.
    intros m [Hm|Hm]%elem_of_app; [by apply A15|]. apply list_elem_of_singleton in Hm as ->. split; [done|by left].
  - intros d [A1 A2 A3 A4 A5 A6 A7 A8 A9 A10 A11 A12 A13 A14 A15]. split; try same_field. apply next_ok_snoc; [done|]. same_field.
  - intros g d. by apply leads_modify.
Qed.
(** The writes that leave what the invariant looks at. *)
Lemma leads_keeps L P R l n (g : ChainDuoBFT U → ChainDuoBFT U) :
  (∀ d, (d_blocks (g d), d_fasts (g d), constants (g d), lead_view (g d)) =
    (d_blocks d, d_fasts d, constants d, lead_view d)) → preserves (leads L P R l n) (modify g).
Proof. intros Hg. apply preserves_modify. intros d. by apply leads_modify. Qed.
Lemma leads_clear L P R l n b : preserves (leads L P R l n) (clear_Command b).
Proof.
  unfold clear_Command. preserves_step; [preserves_step|]. destruct (mb_FastState _) as [a|]; [|apply preserves_panic].
  apply preserves_modify. intros d. apply leads_same; [| |done].
  - apply grows_fasts. intros a' f Ha. destruct (decide (a = a')) as [->|Hne].
    + rewrite list_lookup_alter_eq, Ha. eexists. by repeat split.
    + rewrite list_lookup_alter_ne by done. by exists f.
  - intros a' f'. cbn. rewrite list_lookup_alter. case_decide; [|intros ?; by exists f'].
    intros (f & Ha & ->)%fmap_Some. exists f. subst. by repeat split.
Qed.

(** *** The commits and the slow chain *)
Lemma leads_fastCommit L P R l n b : preserves (leads L P R l n) (fastCommit b).
Proof.
  pose proof (leads_clear L P R l n). unfold fastCommit. preserves_step; [preserves_step|].
  match goal with |- preserves _ (_ ?x _) => generalize x as fuel end. intros fuel. revert b.
  induction fuel as [|fuel IH]; intros b; simpl; [by intros d|]. unfold getFastBlockFor, enqueueForExecution.
  preserves_steps; apply leads_keeps; by intros [].
Qed.
Lemma leads_slowCommit L P R l n b : preserves (leads L P R l n) (slowCommit b).
Proof.
  pose proof (leads_clear L P R l n). unfold slowCommit. preserves_step; [preserves_step|].
  match goal with |- preserves _ (_ ?x _) => generalize x as fuel end. intros fuel. revert b.
  induction fuel as [|fuel IH]; intros b; simpl; [by intros d|].
  unfold exec_block, getFastBlockFor, getSlowBlockFor, enqueueForExecution.
  preserves_steps; apply leads_keeps; by intros [].
Qed.
Lemma leads_slowPropose L P R l n m b : preserves (leads L P R l n) (onSlowProposeContinue m b).
Proof.
  unfold onSlowProposeContinue. preserves_step; [preserves_step|].
  apply fr_slowPropose; [apply leads_frame|apply leads_slowCommit].
Qed.

(** ** What can go wrong: two blocks of different heights with one hash, or as many
    blocks as there are heights *)
Definition collides d : Prop := ∃ b1 b2 k f1 f2,
  cached d b1 k ∧ cached d b2 k ∧ half d b1 = Some f1 ∧ half d b2 = Some f2 ∧ f_Height f1 ≠ f_Height f2.
Definition crowded d : Prop := (two64 - 1 ≤ Z.of_nat (length (d_blocks d)))%Z.
#[export] Instance crowded_dec d : Decision (crowded d).
Proof. unfold crowded. apply _. Defined.
Definition bad d : Prop := collides d ∨ crowded d.
Lemma bad_upward : upward bad.
Proof.
  intros d d' Hg [(b1 & b2 & k & f1 & f2 & H1' & H2' & Hf1 & Hf2 & Hne)|Hc]; [left|right].
  - destruct (half_grows _ _ _ _ Hg Hf1) as (f1' & ? & E1 & _), (half_grows _ _ _ _ Hg Hf2) as (f2' & ? & E2 & _).
    exists b1, b2, k, f1', f2'. split_and!; [by eapply cached_grows|by eapply cached_grows|done..|congruence].
  - unfold crowded in *. apply grows_length in Hg. lia.
Qed.
Lemma clash_bad L P R l n d : leads L P R l n d → clash L d → bad d.
Proof.
  intros Hd (b & f & i & k & f0 & Hc & Hf & Hl & Hne). left.
  destruct (ld_made _ _ _ _ _ _ Hd _ _ _ Hl) as (b' & f' & Hc' & Hf' & E). exists b, b', k, f, f'.
  split_and!; [done..|congruence].
Qed.
Lemma wp_bad {A} (m : M (ChainDuoBFT U) A) (Q : A → ChainDuoBFT U → Prop) d :
  preserves bad m → bad d → wp m (λ a d', Q a d' ∨ bad d') d.
Proof. intros Hm Hd. eapply wp_mono; [by apply Hm|]. simpl. auto. Qed.

(** A hash that is cached has 64 bytes. *)
Definition hashed64 d : Prop := ∀ b k, cached d b k → length k = 64.
Lemma hashed64_same d d' : d_blocks d' = d_blocks d → hashed64 d → hashed64 d'.
Proof. intros E Hd b k (blk & Hb & Hk). apply (Hd b). exists blk. by rewrite <-E. Qed.
Lemma length_hash_value v h : hash_value v = Ret h → length h = 64.
Proof. unfold hash_value. destruct (Marshal v); [|done]. intros [= <-]. apply length_sha512. Qed.
Lemma hashed64_cache d b blk h :
  d_blocks d !! b = Some blk → (∀ k, blk_512Hash blk = Some k → h = k) →
  (blk_512Hash blk = None → hash_value (value d (blk_State blk)) = Ret h) → hashed64 d →
  hashed64 (d <| d_blocks ::= alter (set blk_512Hash (λ _, Some h)) b |>) ∧ length h = 64.
Proof.
  intros Hb Hk Hn Hd. assert (length h = 64) as Hl.
  { destruct (blk_512Hash blk) as [k|] eqn:E; [|by eapply length_hash_value, Hn].
    rewrite (Hk k eq_refl). apply (Hd b). by exists blk. }
  split; [|done]. intros b' k' (blk' & Hb' & Hk'). cbn in Hb'. rewrite list_lookup_alter in Hb'. case_decide.
  - subst. apply fmap_Some in Hb' as (x & _ & ->). injection Hk' as <-. done.
  - apply (Hd b'). by exists blk'.
Qed.
Lemma hashed64_tolerant : tolerant hashed64.
Proof.
  assert (∀ g d, d_blocks (g d) = d_blocks d → hashed64 d → hashed64 (g d)) as Hs.
  { intros g d. apply hashed64_same. }
  split; [split; [split|..]; try (intros; by (eapply hashed64_same; [|done]))| | |].
  - intros b d Hd. apply hash_wp. intros blk h Hb Hk Hn. by eapply hashed64_cache.
  - intros s d Hd. unfold new_block. do 5 wp_step. intros b k (blk & Hb & Hk). cbn in Hb.
    apply lookup_app_Some in Hb as [Hb|[_ Hb]]; [apply (Hd b); by exists blk|].
    apply list_lookup_singleton_Some in Hb as [_ <-]. done.
  - intros f. unfold new_fast. preserves_steps. apply preserves_modify. intros d. by apply Hs.
  - intros b. unfold clear_Command. preserves_steps. apply preserves_modify. intros d. by apply Hs.
  - intros g Hg. apply preserves_modify. intros d. apply Hs. specialize (Hg d). congruence.
Qed.

(** The leader between two calls. *)
Definition at_rest L R (l n : nat) (h : list ExecPacket) d : Prop :=
  wf_ledger L ∧ hashed64 d ∧ (∃ e, replica_ok L e h d) ∧ leads L L R l n d.
Lemma rest_frame L R l n h : frame (at_rest L R l n h).
Proof.
  apply frame_and; [apply frame_const|apply frame_and; [apply hashed64_tolerant|apply frame_and; [|apply leads_frame]]].
  apply frame_ex. intros e. apply ro_frame.
Qed.
(** The height of a block with the hash of an entry. *)
Lemma entry_height L R l n h d b k i f0 :
  at_rest L R l n h d → cached d b k → L !! i = Some (k, f0) →
  (∀ f, half d b = Some f → f_Height f = Z.of_nat i) ∨ bad d.
Proof.
  intros (Hw & _ & (e & Hr) & Hd) Hc Hl.
  destruct (copies_or_clash _ _ _ _ _ _ _ _ Hw Hr Hc Hl) as [Hcp|Hcl]; [left|right; by eapply clash_bad].
  intros f Hf. eapply copy_height; [done..|by apply Hcp].
Qed.

(** ** Certificates *)

(** [updateFastHighQC] for a certificate of the block with hash [k], when the leaf
    is entry [m]. *)
Lemma updateFast_wp L R l n h d qc k m km fm :
  at_rest L R l n h d → qc_BlockHash qc ≈ Some k → length k = 64 →
  L !! m = Some (km, fm) → cached d (pm_bLeafFast (d_pacemaker d)) km →
  qc_BlockHash (pm_fastHighQC (d_pacemaker d)) = Some km →
  wp (updateFastHighQC (Some qc)) (λ _ d',
    d' = d ∨
    (∃ b i f0, L !! i = Some (k, f0) ∧ m < i ∧ cached d b k ∧
       d' = d <| d_pacemaker ::= λ p, p <| pm_fastHighQC := qc |> <| pm_bLeafFast := b |> <| pm_fastHighQCChanged := true |> |>) ∨
    bad d') d.
Proof.
  intros Hrest Hk Hl64 Hm Hleaf Hqc. pose proof Hrest as (Hw & _ & (e & Hr) & Hd).
  simpl. wp_step. apply wp_lift. rewrite (Array_like _ _ Hk Hl64). intros ? [= <-].
  unfold getFastBlockFor, get_pm, on_pm. do 2 wp_step.
  destruct (fastBlocks (d_blockchain d) !! k) as [b|] eqn:Hb.
  2: { wp_step. by left. }
  do 3 wp_step. apply wp_lift. rewrite (Array_like _ km); [|by rewrite Hqc|by eapply wf_hash].
  intros ? [= <-]. do 2 wp_step. destruct (fastBlocks (d_blockchain d) !! km) as [b0|] eqn:Hb0; [|by wp_step].
  destruct (ld_stored _ _ _ _ _ _ Hd _ _ Hb) as (i & f0 & Hi).
  pose proof (ro_stored _ _ _ _ Hr _ _ Hb) as Hc. pose proof (ro_stored _ _ _ _ Hr _ _ Hb0) as Hc0.
  wp_step. apply FastState_wp. intros f Hf. wp_step. apply FastState_wp. intros o Ho.
  destruct (entry_height _ _ _ _ _ _ _ _ _ _ Hrest Hc Hi) as [Hh|Hbad].
  2: { wp_step; [wp_step|]; right; right; [|done]. eapply bad_upward, Hbad. by apply grows_neutral. }
  destruct (entry_height _ _ _ _ _ _ _ _ _ _ Hrest Hc0 Hm) as [Hh0|Hbad].
  2: { wp_step; [wp_step|]; right; right; [|done]. eapply bad_upward, Hbad. by apply grows_neutral. }
  rewrite (Hh f Hf), (Hh0 o Ho). wp_step; case_bool_decide; try done.
  - wp_step. right. left. exists b, i, f0. split_and!; [done|lia|done|done].
  - by left.
Qed.
(** Two entries with one hash. *)
Lemma key_unique L P R l n d i i' k f f' :
  leads L P R l n d → L !! i = Some (k, f) → L !! i' = Some (k, f') → i = i' ∨ bad d.
Proof.
  intros Hd Hi Hi'. destruct (decide (i = i')) as [|Hne]; [by left|right; left].
  destruct (ld_made _ _ _ _ _ _ Hd _ _ _ Hi) as (b & x & ? & ? & ?), (ld_made _ _ _ _ _ _ Hd _ _ _ Hi') as (b' & x' & ? & ? & ?).
  exists b, b', k, x, x'. split_and!; [done..|lia].
Qed.

Definition rest_or_bad L R l n h d : Prop := at_rest L R l n h d ∨ bad d.
Lemma rest_or_bad_frame L R l n h : frame (rest_or_bad L R l n h).
Proof. apply frame_or; [apply rest_frame|apply up_frame, bad_upward]. Qed.

(** The leaf moves to the last entry. *)
Lemma leads_leaf L R l n d g i k f0 b qc :
  leads L L R l n d → L !! i = Some (k, f0) → cached d b k → qc_BlockHash qc = Some k → qc_Height qc = Z.of_nat i →
  length L = S i →
  fast_part (g (d_pacemaker d)) = (b, qc, true, Z.of_nat (S i), pm_currentView (d_pacemaker d)) →
  leads L L R l n (d <| d_pacemaker ::= g |>).
Proof.
  intros Hd Hi Hb Hk Hh Hl Hg. unfold fast_part in Hg. injection Hg as E1 E2 E3 E4 E5.
  assert (grows d (d <| d_pacemaker ::= g |>)) as Hgr.
  { apply grows_neutral. unfold constants. simpl. congruence. }
  destruct Hd as [A1 A2 A3 A4 A5 A6 A7 A8 A9 A10 A11 A12 A13 A14 A15].
  split; try (match goal with A : _ |- _ => exact A end); [|by apply (next_ok_grows _ d)].
  exists i, k, f0. cbn. rewrite E1, E2, E3, E4. by split_and!.
Qed.
Lemma rest_pm L R l n h d g :
  at_rest L R l n h d → pm_currentView (g (d_pacemaker d)) = pm_currentView (d_pacemaker d) →
  leads L L R l n (d <| d_pacemaker ::= g |>) → at_rest L R l n h (d <| d_pacemaker ::= g |>).
Proof.
  intros (Hw & H64 & (e & Hr) & _) Hv Hd. split; [done|]. split; [by apply (hashed64_same d)|]. split; [|done].
  exists e. apply (ro_same L e h d); [|done..]. apply grows_neutral. unfold constants. simpl. congruence.
Qed.

(** A new certificate for the block [blk] moves the leaf and the height together. *)
Lemma rest_fastQC L R l n h d blk k f qc :
  at_rest L R l n h d → cached d blk k → half d blk = Some f →
  qc_BlockHash qc = Some k → qc_Height qc = f_Height f →
  wp (updateFastHighQC (Some qc);; onFastQC qc) (λ _, rest_or_bad L R l n h) d.
Proof.
  intros Hrest Hc Hf Hk Hh. pose proof Hrest as (Hw & H64 & (e & Hr) & Hd).
  destruct (ld_leaf _ _ _ _ _ _ Hd) as (m & km & fm & Hm & Hleaf & Hq & Hqh & Hcur).
  destruct (half_Some _ _ _ Hf) as (? & a & _ & _ & Ha).
  destruct (ld_exact _ _ _ _ _ _ Hd _ _ Ha) as (j & kj & fj & Hj & Ej & _).
  pose proof Ej as Ehj. rewrite (wf_height _ Hw _ _ _ Hj) in Ehj. rewrite Ehj in Hh. apply lookup_lt_Some in Hj as Hjl.
  assert (tolerant bad) as Ht by apply upward_tolerant, bad_upward.
  assert (preserves bad (updateFastHighQC (Some qc);; onFastQC qc)) as Hbadp.
  { apply preserves_bind; [by apply to_updateFast|intros; by apply to_onFastQC]. }
  destruct (decide (two64 - 1 ≤ Z.of_nat (length (d_blocks d)))%Z) as [Hcr|Hroom].
  { eapply wp_mono; [by apply Hbadp; right|]. by right. }
  pose proof (ld_length _ _ _ _ _ _ Hd) as Hlen.
  wp_step. eapply wp_mono; [by apply (updateFast_wp L R l n h d qc k m km fm); [| rewrite Hk|by eapply H64|..]|].
  simpl. intros _ d1 [->|[(b & i & f0 & Hi & Hmi & Hcb & ->)|Hbad]];
    [| |eapply wp_mono; [by apply (to_onFastQC _ Ht)|]; by right].
  - (* nothing new *)
    unfold onFastQC, get_pm, on_pm. do 2 wp_step. wp_step; case_bool_decide as Hlt; try done; [by left|].
    do 2 wp_step. rewrite Hh in *.
    destruct (pm_fastHighQCChanged (d_pacemaker d)) eqn:Hch; destruct Hcur as [Hl Hcur]; [lia|].
    assert (j = S m) as -> by lia. rewrite u64_id by (unfold two64 in *; lia).
    apply fr_scheduleBack; [apply rest_or_bad_frame|]. left. apply rest_pm; [done..|].
    destruct Hd as [A1 A2 A3 A4 A5 A6 A7 A8 A9 A10 A11 A12 A13 A14 A15]. split; try same_field.
    exists m, km, fm. split_and!; try done. cbn. rewrite Hch. split; [done|]. right. lia.
  - (* the leaf moves *)
    destruct (entry_height _ _ _ _ _ _ _ _ _ _ Hrest Hc Hi) as [Hhi|Hbad].
    2:{ eapply wp_mono; [apply (to_onFastQC _ Ht)|by right]. eapply bad_upward, Hbad. by apply grows_neutral. }
    specialize (Hhi f Hf). assert (i = j) as -> by lia. apply lookup_lt_Some in Hi as Hil.
    destruct (pm_fastHighQCChanged (d_pacemaker d)) eqn:Hch; destruct Hcur as [Hl Hcur]; [lia|].
    assert (j = S m) as -> by lia.
    unfold onFastQC, get_pm, on_pm. do 2 wp_step. rewrite Hh. wp_step; case_bool_decide as Hlt; try done; cbn in Hlt.
    + left. apply rest_pm; [done..|]. apply (leads_leaf _ _ _ _ _ _ (S m) k f0 b qc); try done. cbn. unfold fast_part. cbn.
      do 2 f_equal. lia.
    + do 2 wp_step. rewrite u64_id by (unfold two64 in *; lia). apply fr_scheduleBack; [apply rest_or_bad_frame|]. left.
      apply (rest_pm _ _ _ _ _ d (λ p, p <| pm_fastHighQC := qc |> <| pm_bLeafFast := b |> <| pm_fastHighQCChanged := true |>
        <| pm_currentFastHeight := (Z.of_nat (S m) + 1)%Z |>)); [done..|].
      apply (leads_leaf _ _ _ _ _ _ (S m) k f0 b qc); try done. cbn. unfold fast_part. cbn. do 2 f_equal. lia.
Qed.

(** ** The leader's own proposals *)

(** A fast half that the leader has made, by its height. *)
Lemma made_half L R l n h d b k i f0 f :
  at_rest L R l n h d → cached d b k → L !! i = Some (k, f0) → half d b = Some f → same_half f0 f ∨ bad d.
Proof.
  intros Hrest Hc Hi Hf. destruct (entry_height _ _ _ _ _ _ _ _ _ _ Hrest Hc Hi) as [Hh|Hbad]; [left|by right].
  pose proof Hrest as (Hw & _ & _ & Hd). destruct (half_Some _ _ _ Hf) as (? & a & _ & _ & Ha).
  destruct (ld_exact _ _ _ _ _ _ Hd _ _ Ha) as (j & kj & fj & Hj & Hs). specialize (Hh f Hf).
  pose proof (proj1 Hs) as E. rewrite (wf_height _ Hw _ _ _ Hj), Hh in E. assert (i = j) as -> by lia.
  rewrite Hj in Hi. by injection Hi as _ ->.
Qed.
Lemma hash_cached b k (Q : bytes → ChainDuoBFT U → Prop) d :
  cached d b k → (∀ d', grows d d' → Q k d') → wp (hash b) Q d.
Proof.
  intros (blk & Hb & Hk) HQ. apply hash_wp. intros blk' h Hb' He _. rewrite Hb in Hb'. injection Hb' as <-.
  rewrite (He k Hk). apply HQ. eapply cache_grows; [done|]. intros k' Hk'. congruence.
Qed.
(** The proposal extends the lock. *)
Lemma own_safe L R l n h d blk i k f0 k' f' f qc :
  at_rest L R l n h d → cached d blk k → half d blk = Some f →
  L !! i = Some (k', f') → L !! S i = Some (k, f0) → l ≤ i →
  f_Parent f = Some k' → qc_BlockHash qc = Some k' →
  wp (fast_safe blk (Some qc)) (λ safe d', safe = true ∨ bad d') d.
Proof.
  intros Hrest Hc Hf Hi Hsi Hl Hp Hq. pose proof Hrest as (Hw & H64 & (e & Hr) & Hd).
  destruct (entry_height _ _ _ _ _ _ _ _ _ _ Hrest Hc Hsi) as [Hh|Hbad].
  2:{ eapply wp_mono; [by apply (fr_fast_safe bad), Hbad; apply fr_calm, up_frame, bad_upward|auto]. }
  specialize (Hh f Hf).
  assert (Array (Some k') = Ret k') as Ha by (apply Array_like; [done|by eapply wf_hash]).
  destruct (ld_present _ _ _ _ _ _ Hd _ _ _ Hi) as [b' Hb']. pose proof (ro_stored _ _ _ _ Hr _ _ Hb') as Hc'.
  destruct (ld_lock _ _ _ _ _ _ Hd) as (kl & fl & Hll & Hcl).
  assert (∀ (m : M (ChainDuoBFT U) bool), (bad d → preserves bad m) → bad d → wp m (λ safe d', safe = true ∨ bad d') d) as Hbads.
  { intros m Hm Hb. eapply wp_mono; [by apply Hm|auto]. }
  assert (preserves bad (extendsFast blk (d_bLockFast d))) as Hext by apply fr_extendsFast, fr_calm, up_frame, bad_upward.
  unfold fast_safe, getFastBlockFor. rewrite Hq. wp_step. apply wp_lift. rewrite Ha. intros ? [= <-].
  do 4 wp_step. rewrite Hb'. do 2 wp_step. apply FastState_wp. intros q Hfq. wp_step. apply FastState_wp. intros fk Hfk. wp_step.
  destruct (entry_height _ _ _ _ _ _ _ _ _ _ Hrest Hc' Hi) as [Hhq|Hbad].
  2:{ destruct (bool_decide _); [wp_step; by left|by apply Hbads]. }
  destruct (entry_height _ _ _ _ _ _ _ _ _ _ Hrest Hcl Hll) as [Hhl|Hbad].
  2:{ destruct (bool_decide _); [wp_step; by left|by apply Hbads]. }
  specialize (Hhq q Hfq). specialize (Hhl fk Hfk). case_bool_decide; [wp_step; by left|].
  assert (l = i) as -> by lia. rewrite Hi in Hll. injection Hll as <- <-.
  unfold extendsFast. do 2 wp_step. wp_step. apply FastState_wp. intros ft Hft. rewrite Hfk in Hft. injection Hft as <-.
  wp_step. simpl. wp_step. apply FastState_wp. intros f1 Hf1. rewrite Hf in Hf1. injection Hf1 as <-.
  rewrite bool_decide_true by lia. wp_step. apply wp_lift. rewrite Hp, Ha. intros ? [= <-].
  unfold getFastBlockFor. do 2 wp_step. rewrite Hb'. wp_step. apply FastState_wp. intros q1 Hq1. rewrite Hfq in Hq1. injection Hq1 as <-.
  rewrite bool_decide_false by lia. wp_step. unfold same_hash. wp_step. apply (hash_cached _ k'); [done|]. intros d1 Hg.
  wp_step. apply (hash_cached _ k'); [by eapply cached_grows|]. intros d2 _. wp_step. left. by apply bool_decide_eq_true.
Qed.
(** Storing a block of the ledger. *)
Lemma leads_store L P R l n d b k i f0 :
  leads L P R l n d → L !! i = Some (k, f0) →
  leads L P R l n (d <| d_blockchain ::= λ c, c <| fastBlocks ::= <[k := b]> |> |>).
Proof.
  intros [A1 A2 A3 A4 A5 A6 A7 A8 A9 A10 A11 A12 A13 A14 A15] Hi. split; try same_field; cbn.
  - intros k' b' [[-> ->]|[_ Hk]]%lookup_insert_Some; [by exists i, f0|by eapply A1].
  - intros i' k' f' Hi'. destruct (decide (k = k')) as [->|Hne]; [exists b; apply lookup_insert_eq|].
    rewrite lookup_insert_ne by done. by eapply A2.
Qed.
Lemma rest_store L R l n h d b k i f0 :
  at_rest L R l n h d → cached d b k → L !! i = Some (k, f0) →
  at_rest L R l n h (d <| d_blockchain ::= λ c, c <| fastBlocks ::= <[k := b]> |> |>).
Proof.
  intros (Hw & H64 & (e & Hr) & Hd) Hc Hi. split; [done|]. split; [by apply (hashed64_same d)|].
  split; [|by eapply leads_store]. exists e. destruct Hr as [Hfs Hst Hx Hcm]. split; [done| |done..].
  cbn. intros k' b' [[-> ->]|[_ Hk]]%lookup_insert_Some; [exact Hc|by apply Hst].
Qed.
Lemma own_store L R l n h d b k i f0 :
  at_rest L R l n h d → cached d b k → L !! i = Some (k, f0) →
  wp (storeFastBlock b) (λ _, at_rest L R l n h) d.
Proof.
  intros Hrest Hc Hi. unfold storeFastBlock, on_chain. wp_step. eapply wp_mono.
  { apply wp_and; [by apply (fr_hash _ (fr_calm _ (rest_frame L R l n h)))|].
    apply (hash_cached b k (λ x d', x = k ∧ grows d d')); auto. }
  simpl. intros ? d1 (Hd1 & -> & Hg). do 3 wp_step. apply FastState_wp. intros f _. wp_step.
  apply (fr_slow_chain _ (fr_calm _ (rest_frame L R l n h))); [done|].
  eapply rest_store; [done|by eapply cached_grows|done].
Qed.
(** What is left after the lock has moved keeps the rest of the invariant. *)
Lemma leads_lock L P R l n d i b k f0 :
  leads L P R l n d → L !! i = Some (k, f0) → cached d b k → i ≤ n → leads L P R i n (d <| d_bLockFast := b |>).
Proof.
  intros [A1 A2 A3 A4 A5 A6 A7 A8 A9 A10 A11 A12 A13 A14 A15] Hi Hc Hn. split; try same_field. by exists k, f0.
Qed.
Lemma own_rule L R l n h d b k i f0 f :
  at_rest L R l n h d → cached d b k → half d b = Some f → L !! i = Some (k, f0) → l < i → i ≤ n →
  wp (fastCommitRule b) (λ _ d', leads L L R i n d' ∨ bad d') d.
Proof.
  intros Hrest Hc Hf Hi Hl Hn. pose proof Hrest as (Hw & H64 & (e & Hr) & Hd).
  destruct (ld_lock _ _ _ _ _ _ Hd) as (kl & fl & Hll & Hcl).
  unfold fastCommitRule. do 3 wp_step. apply FastState_wp. intros f1 Hf1. rewrite Hf in Hf1. injection Hf1 as <-.
  wp_step. apply FastState_wp. intros fk Hfk.
  wp_step. eapply (wp_mono _ (λ _ d', leads L L R i n d' ∨ bad d')).
  - destruct (entry_height _ _ _ _ _ _ _ _ _ _ Hrest Hc Hi) as [Hh|Hbad];
      [destruct (entry_height _ _ _ _ _ _ _ _ _ _ Hrest Hcl Hll) as [Hhl|Hbad]|].
    + specialize (Hh f Hf). specialize (Hhl fk Hfk). rewrite bool_decide_true by lia. simpl. wp_step. left. by eapply leads_lock.
    + wp_step; [wp_step|]; right; [eapply bad_upward, Hbad; by apply grows_neutral|done].
    + wp_step; [wp_step|]; right; [eapply bad_upward, Hbad; by apply grows_neutral|done].
  - simpl. intros _ d1 Hd1. pose proof (frame_or _ _ (leads_frame L L R i n) (up_frame bad bad_upward)) as Hfr.
    pose proof (frame_hash _ Hfr). pose proof (fr_qcRefFast (λ d', leads L L R i n d' ∨ bad d')).
    revert d1 Hd1. change (preserves (λ d', leads L L R i n d' ∨ bad d')
      (block1 ← qcRefFast (f_QC f);
       match block1 with
       | None => mret None
       | Some block1 =>
           p ← lift (Array (f_Parent f)); h1 ← hash block1; if decide (p = h1) then mret (Some block1) else mret None
       end)). preserves_steps.
Qed.

(** Once something has gone wrong it stays so. *)
Section spoiled.
Lemma bad_tolerant : tolerant bad.
Proof. apply upward_tolerant, bad_upward. Qed.
Lemma bad_hash b : preserves bad (hash b).
Proof. apply to_hash, bad_tolerant. Qed.
Lemma bad_new_block s : preserves bad (new_block s).
Proof. apply to_new_block, bad_tolerant. Qed.
Lemma bad_storeFast b : preserves bad (storeFastBlock b).
Proof. apply to_storeFast, bad_tolerant. Qed.
Lemma bad_sendVote b : preserves bad (sendVote b).
Proof. apply to_sendVote, bad_tolerant. Qed.
Lemma bad_fastRule b : preserves bad (fastCommitRule b).
Proof. apply to_fastRule, bad_tolerant. Qed.
Lemma bad_fastCommit b : preserves bad (fastCommit b).
Proof. apply to_fastCommit, bad_tolerant. Qed.
Lemma bad_fast_safe b qc : preserves bad (fast_safe b qc).
Proof. apply to_fast_safe, bad_tolerant. Qed.
Lemma bad_queueFast m : preserves bad (queueBlockFastPropose m).
Proof. apply to_queueFast, bad_tolerant. Qed.
Lemma bad_onFastQC qc : preserves bad (onFastQC qc).
Proof. apply to_onFastQC, bad_tolerant. Qed.
Lemma bad_updateFast qc : preserves bad (updateFastHighQC qc).
Proof. apply to_updateFast, bad_tolerant. Qed.
Lemma bad_propose fuel m b : preserves bad (fastPropose_rec fuel m b).
Proof. apply to_fastPropose_rec, bad_tolerant. Qed.
Lemma bad_modify (g : ChainDuoBFT U → ChainDuoBFT U) :
  (∀ d, (d_blocks (g d), d_fasts (g d), constants (g d)) = (d_blocks d, d_fasts d, constants d)) → preserves bad (modify g).
Proof. intros Hg. apply preserves_modify. intros d Hd. eapply bad_upward, Hd. by apply grows_neutral. Qed.
End spoiled.
#[local] Hint Resolve bad_hash bad_new_block bad_storeFast bad_sendVote bad_fastRule bad_fastCommit bad_fast_safe
  bad_queueFast bad_onFastQC bad_updateFast bad_propose : go_inv.
Ltac spoiled := cbv beta;
  match goal with
  | |- wp ?m _ ?d => eapply wp_mono;
      [assert (preserves bad m) as Hsp by (preserves_steps; try (apply bad_modify; by intros [])); by apply Hsp|intros; by right]
  end.
(** The whole step: the lock moves to the proposal. *)
Lemma own_propose L R l n h d m b k i f0 :
  at_rest L R l n h d → cached d b k → L !! i = Some (k, f0) → l < i → i ≤ n →
  wp (onFastProposeContinue m b) (λ _ d', leads L L R i n d' ∨ bad d') d.
Proof.
  intros Hrest Hc Hi Hl Hn. pose proof Hrest as (Hw & H64 & (e & Hr) & Hd).
  pose proof (to_frame _ bad_tolerant) as Hbf.
  unfold onFastProposeContinue. do 2 wp_step. rewrite (ld_pending _ _ _ _ _ _ Hd), map_size_empty.
  change (wp (fastPropose_body (fastPropose_rec 1) m b) (λ _ d', leads L L R i n d' ∨ bad d') d). unfold fastPropose_body.
  wp_step. apply FastState_wp. intros f Hf.
  destruct (made_half _ _ _ _ _ _ _ _ _ _ _ Hrest Hc Hi Hf) as [(Eh & Ep & Eq)|Hbad]; [|spoiled].
  destruct i as [|i]; [lia|]. destruct (lookup_lt_is_Some_2 L i) as [[k' f'] Hi']; [apply lookup_lt_Some in Hi; lia|].
  destruct (wf_link _ Hw _ _ _ _ _ Hi' Hi) as (Ep' & qc & Eq' & Hqk & Hqh). rewrite Ep' in Ep. rewrite Eq' in Eq. rewrite Eq.
  destruct (ld_leaf _ _ _ _ _ _ Hd) as (lm & km & fm & Hm & Hleaf & Hq & Hmh & Hcur).
  assert (i ≤ lm) as Him.
  { apply lookup_lt_Some in Hi. destruct (pm_fastHighQCChanged _); destruct Hcur; lia. }
  wp_step. eapply wp_mono; [by apply (updateFast_wp L R l n h d qc k' lm km fm); [|rewrite Hqk|by eapply wf_hash|..]|].
  intros _ d1 [->|[(b' & i' & f1 & Hi1 & Hlt & _ & ->)|Hbad]]; [| |spoiled].
  2:{ destruct (key_unique _ _ _ _ _ _ _ _ _ _ _ Hd Hi' Hi1) as [->|Hbad]; [lia|].
      assert (bad (d <| d_pacemaker ::= λ p, p <| pm_fastHighQC := qc |> <| pm_bLeafFast := b' |>
        <| pm_fastHighQCChanged := true |> |>)) as Hbad' by (eapply bad_upward, Hbad; by apply grows_neutral).
      spoiled. }
  wp_step. eapply wp_mono; [apply wp_and; [|apply wp_and]|].
  - apply (own_safe L R l n h d b i k f0 k' f' f qc); try done. lia.
  - by apply (fr_fast_safe _ (fr_calm _ (rest_frame L R l n h))).
  - apply (to_fast_safe _ (upward_tolerant _ (grows_upward d))). done.
  - intros safe d1 ([->|Hbad] & Hd1 & Hg1); [|spoiled]. cbn [negb].
    pose proof (cached_grows _ _ _ _ Hg1 Hc) as Hc1.
    wp_step. eapply wp_mono; [apply wp_and; [by eapply own_store|]|].
    { apply (to_storeFast _ (upward_tolerant _ (grows_upward d1))). done. }
    intros _ d2 [Hd2 Hg2]. do 3 wp_step. eapply wp_mono; [apply wp_and|].
    { assert (preserves (at_rest L R l n h) (when (bool_decide (d_lastVoteFastHeight d2 < f_Height f)%Z) (sendVote b))) as Hsv.
      { apply preserves_when, fr_sendVote, fr_calm, rest_frame. }
      by apply Hsv. }
    { assert (preserves (grows d2) (when (bool_decide (d_lastVoteFastHeight d2 < f_Height f)%Z) (sendVote b))) as Hsv.
      { apply preserves_when, to_sendVote, upward_tolerant, grows_upward. }
      by apply Hsv. }
    intros _ d3 [Hd3 Hg3]. assert (grows d d3) as Hg by (etrans; [exact Hg1|]; etrans; [exact Hg2|exact Hg3]).
    destruct (half_grows _ _ _ _ Hg Hf) as (f3 & Hf3 & _).
    wp_step. eapply wp_mono; [apply (own_rule L R l n h d3 b k (S i) f0 f3); [done|by eapply cached_grows|done..]|].
    intros r d4 Hd4. set (J := λ d', leads L L R (S i) n d' ∨ bad d') in *.
    assert (frame J) as HJ by (apply frame_or; [apply leads_frame|apply to_frame, bad_tolerant]).
    wp_step. eapply (wp_mono _ (λ _, J)).
    { revert d4 Hd4. destruct r; [|apply preserves_ret]. apply preserves_or; [apply leads_fastCommit|apply bad_fastCommit]. }
    intros _ d5 Hd5. wp_step. eapply wp_mono; [by apply (frame_hash J HJ)|]. intros hb d6 [Hd6|Hbad]; [|spoiled].
    do 3 wp_step. rewrite (ld_pending _ _ _ _ _ _ Hd6), lookup_empty. wp_step.
    unfold onFastQC, get_pm. do 2 wp_step. rewrite bool_decide_true; [wp_step; by left|].
    destruct (ld_leaf _ _ _ _ _ _ Hd6) as (m6 & _ & _ & _ & _ & _ & _ & Hc6). apply lookup_lt_Some in Hi.
    destruct (pm_fastHighQCChanged (d_pacemaker d6)); destruct Hc6; lia.
Qed.
(** What the other replicas keep, with the leader's part. *)
Lemma rest_join {A} L R l n h (m : M (ChainDuoBFT U) A) d l' n' :
  at_rest L R l n h d → preserves (good L h) m → preserves hashed64 m →
  wp m (λ _ d', leads L L R l' n' d' ∨ bad d') d → wp m (λ _, rest_or_bad L R l' n' h) d.
Proof.
  intros (Hw & H64 & (e & Hr) & Hd) Hg Hh Hm. eapply wp_mono.
  { apply wp_and; [exact Hm|]. apply wp_and; [apply Hg; left; by exists e|by apply Hh]. }
  intros a d' ([Hd'|Hbad] & Hgood & H64'); [|by right]. destruct Hgood as [He|Hcl]; [by left|right; by eapply clash_bad].
Qed.
Lemma rest_own L R l n h d m b k i f0 :
  at_rest L R l n h d → cached d b k → L !! i = Some (k, f0) → l < i → i ≤ n →
  wp (onFastProposeContinue m b) (λ _, rest_or_bad L R i n h) d.
Proof.
  intros Hrest Hc Hi Hl Hn. eapply rest_join; [done| | |by eapply own_propose].
  - apply gd_fastPropose, Hrest.
  - apply to_fastPropose, hashed64_tolerant.
Qed.
Lemma rest_slow L R l n h m b : preserves (rest_or_bad L R l n h) (onSlowProposeContinue m b).
Proof.
  intros d [Hrest|Hbad]; [|eapply wp_mono; [by apply (to_slowPropose _ bad_tolerant)|by right]].
  pose proof Hrest as (Hw & _ & _ & Hd). eapply rest_join; [done|..].
  - by apply gd_slowPropose.
  - apply to_slowPropose, hashed64_tolerant.
  - eapply wp_mono; [by apply leads_slowPropose|by left].
Qed.

(** ** Proposing

    The next entry, but for the hash of its block. *)
Definition next_entry L (f : FastChainState) : Prop := ∃ m k f0 qc,
  length L = S m ∧ L !! m = Some (k, f0) ∧ f_Height f = Z.of_nat (S m) ∧ f_Parent f = Some k ∧
  f_QC f = Some qc ∧ qc_BlockHash qc = Some k ∧ qc_Height qc = Z.of_nat m ∧ ∀ c, f_Command f = Some c → canonical c.
Lemma next_entry_lookup L k f i k1 f1 :
  (L ++ [(k, f)]) !! i = Some (k1, f1) → L !! i = Some (k1, f1) ∨ i = length L ∧ k1 = k ∧ f1 = f.
Proof.
  intros [Hi|[Hle Hi]]%lookup_app_Some; [by left|right]. apply list_lookup_singleton_Some in Hi as [Hi [= <- <-]].
  split; [lia|done].
Qed.
Lemma wf_snoc L k f : wf_ledger L → next_entry L f → length k = 64 → wf_ledger (L ++ [(k, f)]).
Proof.
  intros [[g W0] W1 W2 W3 W4] (m & km & fm & qc & Hl & Hm & Eh & Ep & Eq & Ek & Em & Hc) Hk. split.
  - exists g. by apply lookup_app_l_Some.
  - intros n k1 f1 [Hn|(-> & -> & ->)]%next_entry_lookup; [by eapply W1|by rewrite Hl].
  - intros n k1 f1 [Hn|(-> & -> & ->)]%next_entry_lookup; [by eapply W2|done].
  - intros n k1 f1 k2 f2 Hn [Hn'|(E & -> & ->)]%next_entry_lookup.
    + apply next_entry_lookup in Hn as [Hn|(-> & _ & _)]; [by eapply W3|]. apply lookup_lt_Some in Hn'. lia.
    + apply next_entry_lookup in Hn as [Hn|(-> & _ & _)]; [|lia]. assert (n = m) as -> by lia.
      rewrite Hm in Hn. injection Hn as -> ->. split; [done|]. by exists qc.
  - intros n k1 f1 c [Hn|(-> & -> & ->)]%next_entry_lookup; [by eapply W4|by apply Hc].
Qed.
(** The half is there, and its block is not. *)
Definition unhashed L f : ledger := L ++ [([], f)].
Definition mid L R (l : nat) (h : list ExecPacket) f d : Prop :=
  hashed64 d ∧ (∃ e, e < length L ∧ replica_ok (unhashed L f) e h d) ∧ leads L (unhashed L f) R l l d.
Lemma mid_frame L R l h f : frame (mid L R l h f).
Proof.
  apply frame_and; [apply hashed64_tolerant|apply frame_and; [|apply leads_frame]].
  apply frame_ex. intros e. apply frame_and; [apply frame_const|apply ro_frame].
Qed.
Lemma leads_half L R R' l d cur g f m k f0 c :
  leads L L R' l l d → next_entry L f →
  length L = S m → L !! m = Some (k, f0) → cached d (pm_bLeafFast (d_pacemaker d)) k →
  qc_BlockHash (pm_fastHighQC (d_pacemaker d)) = Some k → qc_Height (pm_fastHighQC (d_pacemaker d)) = Z.of_nat m →
  fast_part (g (d_pacemaker d)) = (pm_bLeafFast (d_pacemaker d), pm_fastHighQC (d_pacemaker d), false, cur,
    pm_currentView (d_pacemaker d)) → cur = Z.of_nat (S m) →
  f_Command f = c → R = ledger_cmds L ++ option_list c ++ d_cmdQueue d →
  leads L (unhashed L f) R l l (d <| d_fasts ::= λ x, x ++ [f] |> <| d_pacemaker ::= g |>).
Proof.
  intros Hd Hn Hl Hm Hleaf Hq Hqh Hg -> Hc ->. unfold fast_part in Hg. injection Hg as E1 E2 E3 E4 E5.
  assert (grows d (d <| d_fasts ::= λ x, x ++ [f] |> <| d_pacemaker ::= g |>)) as Hgr.
  { etrans; [apply append_fast_grows|]. apply grows_neutral. unfold constants. cbn. by rewrite E5. }
  destruct Hd as [A1 A2 A3 A4 A5 A6 A7 A8 A9 A10 A11 A12 A13 A14 A15].
  split; try (match goal with A : _ |- _ => exact A end).
  - intros n k1 f1 (b & x & Hcb & Hx & Hh)%A3. destruct (half_grows _ _ _ _ Hgr Hx) as (x' & ? & E & _).
    exists b, x'. split_and!; [by eapply cached_grows|done|congruence].
  - cbn. intros a x [(n & k1 & f1 & Hn1 & Hs)%A4|[_ Hx]]%lookup_app_Some.
    + exists n, k1, f1. split; [by apply lookup_app_l_Some|done].
    + apply list_lookup_singleton_Some in Hx as [_ <-]. exists (length L), [], f. split; [|done].
      unfold unhashed. rewrite lookup_app_r, Nat.sub_diag by done. done.
  - exists m, k, f0. cbn. rewrite E1, E2, E3, E4. split_and!; [done..| |by left]. unfold unhashed. rewrite length_app. simpl. lia.
  - cbn. by apply (next_ok_grows _ d).
  - cbn. unfold unhashed, ledger_cmds. rewrite omap_app. simpl. rewrite Hc. rewrite <-app_assoc. by destruct c.
  - cbn. unfold unhashed. rewrite length_app. simpl. lia.
Qed.

(** The queue and the counters of the requests. *)
Lemma rest_modify L R R' l n h (g : ChainDuoBFT U → ChainDuoBFT U) d :
  at_rest L R l n h d → (d_blocks (g d), d_fasts (g d), constants (g d)) = (d_blocks d, d_fasts d, constants d) →
  (fastBlocks (d_blockchain (g d)), d_bExecFast (g d), d_committedCmds (g d)) =
    (fastBlocks (d_blockchain d), d_bExecFast d, d_committedCmds d) →
  leads L L R' l n (g d) → at_rest L R' l n h (g d).
Proof.
  intros (Hw & H64 & (e & Hr) & _) E1 E2 Hd. split; [done|]. split; [apply (hashed64_same d); [congruence|done]|].
  split; [|done]. exists e. apply (ro_same L e h d); [by apply grows_neutral|congruence..|done].
Qed.
Lemma rest_queue L R l n h d g w :
  at_rest L R l n h d → Forall canonical (g (d_cmdQueue d)) →
  at_rest L (ledger_cmds L ++ g (d_cmdQueue d)) l n h (d <| d_cmdQueue ::= g |> <| d_lastFastHeightWithCommand := w |>).
Proof.
  intros Hrest Hq. apply (rest_modify L R _ l n h (λ d, d <| d_cmdQueue ::= g |> <| d_lastFastHeightWithCommand := w |>));
    [done..|]. destruct Hrest as (_ & _ & _ & [A1 A2 A3 A4 A5 A6 A7 A8 A9 A10 A11 A12 A13 A14 A15]).
  split; try same_field; try done.
Qed.
Lemma rest_last L R l n h d x :
  at_rest L R l n h d → (x ≤ Z.of_nat (length L))%Z → at_rest L R l n h (d <| d_lastFastHeight := x |>).
Proof.
  intros Hrest Hx. apply (rest_modify L R _ l n h (λ d, d <| d_lastFastHeight := x |>)); [done..|].
  destruct Hrest as (_ & _ & _ & [A1 A2 A3 A4 A5 A6 A7 A8 A9 A10 A11 A12 A13 A14 A15]).
  split; try same_field; try done.
Qed.
Lemma mid_half L R R' l h d f g m k f0 c :
  at_rest L R' l l h d → next_entry L f → length L = S m → L !! m = Some (k, f0) →
  cached d (pm_bLeafFast (d_pacemaker d)) k → qc_BlockHash (pm_fastHighQC (d_pacemaker d)) = Some k →
  qc_Height (pm_fastHighQC (d_pacemaker d)) = Z.of_nat m →
  fast_part (g (d_pacemaker d)) = (pm_bLeafFast (d_pacemaker d), pm_fastHighQC (d_pacemaker d), false, Z.of_nat (S m),
    pm_currentView (d_pacemaker d)) →
  f_Command f = c → R = ledger_cmds L ++ option_list c ++ d_cmdQueue d →
  mid L R l h f (d <| d_fasts ::= λ x, x ++ [f] |> <| d_pacemaker ::= g |>).
Proof.
  intros (Hw & H64 & (e & Hr) & Hd) Hn Hl Hm Hleaf Hq Hqh Hg Hc HR. split; [by apply (hashed64_same d)|]. split.
  2:{ by eapply (leads_half L R R' l d (Z.of_nat (S m)) g f m k f0 c). }
  assert (e < length L) as He. { destruct (ro_exec _ _ _ _ Hr) as (? & ? & He & _). by apply lookup_lt_Some in He. }
  exists e. split; [done|]. apply (ro_prefix L (unhashed L f)) in Hr; [|by apply prefix_app_r].
  assert (grows d (d <| d_fasts ::= λ x, x ++ [f] |> <| d_pacemaker ::= g |>)) as Hgr.
  { etrans; [apply append_fast_grows|]. apply grows_neutral. unfold constants. cbn. unfold fast_part in Hg. by injection Hg as _ _ _ _ ->. }
  destruct Hr as [Hfs Hst (kx & fx & Hx & Hcx) Hcm]. split.
  - cbn. intros a x [Hx'|[_ Hx']]%lookup_app_Some; [by eapply Hfs|]. apply list_lookup_singleton_Some in Hx' as [_ <-].
    exists (length L), [], f. split; [unfold unhashed; by rewrite lookup_app_r, Nat.sub_diag by done|].
    split; [|by left]. split_and!; [done..|]. destruct (f_QC f) as [qc|]; [by exists qc|done].
  - cbn. intros k' b' Hb'. eapply cached_grows; [done|by apply Hst].
  - exists kx, fx. split; [done|]. cbn. by eapply cached_grows.
  - done.
Qed.
Lemma hash_keeps b d :
  wp (hash b) (λ _ d', d_pacemaker d' = d_pacemaker d ∧ d_cmdQueue d' = d_cmdQueue d ∧ d_fasts d' = d_fasts d) d.
Proof. by apply hash_wp. Qed.
Lemma rest_propose_fast L R l h d :
  at_rest L R l l h d →
  wp propose_fast (λ r d', match r with
    | None => at_rest L R l l h d'
    | Some a => ∃ f, next_entry L f ∧ mid L R l h f d' ∧ d_fasts d' !! a = Some f
    end ∨ bad d') d.
Proof.
  intros Hrest. pose proof Hrest as (Hw & _ & _ & Hd). unfold propose_fast, get_pm, on_pm. do 2 wp_step.
  destruct (pm_fastHighQCChanged (d_pacemaker d)) eqn:Hch; simpl; [|wp_step; by left].
  destruct (ld_leaf _ _ _ _ _ _ Hd) as (m & km & fm & Hm & Hleaf & Hq & Hqh & Hcur). rewrite Hch in Hcur.
  destruct Hcur as [Hl Hcur]. do 3 wp_step.
  pose proof (ld_requests _ _ _ _ _ _ Hd) as HR. pose proof (ld_queue _ _ _ _ _ _ Hd) as Hcan.
  pose proof (ld_last _ _ _ _ _ _ Hd) as Hlast. pose proof (ld_length _ _ _ _ _ _ Hd) as Hlen.
  set (P := λ (_ : unit) d1, ∃ R', at_rest L R' l l h d1 ∧ d_pacemaker d1 = d_pacemaker d ∧
    d_lastFastHeight d1 = d_lastFastHeight d ∧ d_blocks d1 = d_blocks d ∧ grows d d1 ∧
    R = ledger_cmds L ++ option_list (head (d_cmdQueue d)) ++ d_cmdQueue d1 ∧
    match head (d_cmdQueue d) with
    | Some c => canonical c ∧ d_lastFastHeightWithCommand d1 = pm_currentFastHeight (d_pacemaker d)
    | None => d1 = d
    end).
  eapply (wp_mono _ P).
  { destruct (d_cmdQueue d) as [|c q] eqn:Hcq; simpl.
    - wp_step. exists R. split_and!; try done. simpl. by rewrite Hcq.
    - wp_step. apply Forall_cons in Hcan as [Hc Hcan].
      pose proof (rest_queue L R l l h d tail (pm_currentFastHeight (d_pacemaker d)) Hrest) as Hr'. rewrite Hcq in Hr'. simpl in Hr'.
      eexists. split; [by apply Hr'|]. split_and!; try done; [by apply grows_neutral|]. simpl. by rewrite Hcq. }
  intros [] d1 (R' & Hrest1 & Epm & Elast & Eb & Ec & ER & Hcmd). do 2 wp_step.
  destruct (bool_decide (u64 _ < _)%Z) eqn:Hskip.
  { apply bool_decide_eq_true in Hskip. wp_step. destruct (head (d_cmdQueue d)) as [c|]; [|subst; by left].
    right. right. unfold crowded. rewrite Eb. destruct Hcmd as [_ Hw1]. rewrite Hw1, Elast, Hcur in Hskip.
    destruct (decide (two64 - 1 ≤ Z.of_nat (length (d_blocks d)))%Z) as [|Hroom]; [done|].
    rewrite u64_id in Hskip by (unfold two64 in *; lia). lia. }
  do 2 wp_step. assert (at_rest L R' l l h (d1 <| d_lastFastHeight := pm_currentFastHeight (d_pacemaker d) |>)) as Hrest2.
  { apply rest_last; [done|]. lia. }
  set (d2 := d1 <| d_lastFastHeight := _ |>) in *.
  assert (cached d2 (pm_bLeafFast (d_pacemaker d)) km) as Hleaf2.
  { eapply cached_grows; [|exact Hleaf]. etrans; [exact Ec|by apply grows_neutral]. }
  wp_step. eapply wp_mono; [apply wp_and; [|apply wp_and]|].
  - by apply (fr_hash _ (fr_calm _ (rest_frame L R' l l h))).
  - apply (hash_cached _ km (λ x d', x = km ∧ grows d2 d')); auto.
  - apply hash_keeps.
  - intros x d3 (Hrest3 & (-> & Hg) & Epm3 & Eq3 & _). unfold new_fast. do 9 wp_step. left.
    change (d_pacemaker d2) with (d_pacemaker d1) in Epm3. change (d_cmdQueue d2) with (d_cmdQueue d1) in Eq3. rewrite Epm in Epm3.
    set (f := newFastChainState _ _ _ _).
    assert (next_entry L f) as Hn.
    { exists m, km, fm, (pm_fastHighQC (d_pacemaker d)). split_and!; try done. intros c Hc. simpl in Hc. rewrite Hc in Hcmd. by destruct Hcmd. }
    exists f. split; [exact Hn|]. split.
    + apply (mid_half L R R' l h d3 f (set pm_fastHighQCChanged (λ _, false)) m km fm (head (d_cmdQueue d))); rewrite ?Epm3, ?Eq3; try done.
      * by eapply cached_grows.
      * unfold fast_part. cbn. by rewrite Hcur.
    + cbn. by rewrite lookup_app_r, Nat.sub_diag by done.
Qed.

(** *** The block of the new half *)
Lemma next_ok_prefix L L' d n cbs : L `prefix_of` L' → next_ok L d n cbs → next_ok L' d n cbs.
Proof.
  intros Hp. revert n. induction cbs as [|[[t j] r] cbs IH]; intros n; simpl; [done|].
  destruct j as [| | | | |m blk]; auto. intros [Hb Hrest]. split; [done|]. destruct (mb_FastState m); [|by apply IH].
  destruct Hrest as (n' & k & f0 & Hn & ? & ? & ?). exists n', k, f0.
  split_and!; [by eapply prefix_lookup_Some|done..|by apply IH].
Qed.
Lemma proposal_prefix L L' id m : L `prefix_of` L' → proposal_of L id m → proposal_of L' id m.
Proof.
  intros Hp [Hne (p & Hm & Hf)]. split; [done|]. exists p. split; [done|]. intros f Hfs.
  destruct (Hf f Hfs) as (n & k & Hn). exists n, k. by eapply prefix_lookup_Some.
Qed.
(** The key of the last entry does not matter for what is executed. *)
Lemma unhashed_lookup L f k i k0 f0 : unhashed L f !! i = Some (k0, f0) → ∃ k1, (L ++ [(k, f)]) !! i = Some (k1, f0).
Proof.
  intros [Hi|(-> & -> & ->)]%next_entry_lookup; [exists k0; by apply lookup_app_l_Some|exists k].
  by rewrite lookup_app_r, Nat.sub_diag by done.
Qed.
Lemma ledger_cmds_key L f k : ledger_cmds (L ++ [(k, f)]) = ledger_cmds (unhashed L f).
Proof. unfold ledger_cmds, unhashed. by rewrite !omap_app. Qed.
Lemma rest_entry L R l h f d k blk :
  wf_ledger L → next_entry L f → mid L R l h f d → cached d blk k → half d blk = Some f → length k = 64 →
  S (length L) ≤ length (d_blocks d) →
  at_rest (L ++ [(k, f)]) R l l h (d <| d_blockchain ::= λ c, c <| fastBlocks ::= <[k := blk]> |> |>).
Proof.
  intros Hw Hn (H64 & (e & He & Hr) & Hd) Hc Hf Hk Hlen. pose proof (prefix_app_r L L [(k, f)] (reflexivity L)) as Hp.
  pose proof (wf_snoc L k f Hw Hn Hk) as Hw'. assert ((L ++ [(k, f)]) !! length L = Some (k, f)) as Hlast.
  { by rewrite lookup_app_r, Nat.sub_diag by done. }
  assert (length (L ++ [(k, f)]) = S (length L)) as Hl' by (rewrite length_app; simpl; lia).
  assert (length (unhashed L f) = S (length L)) as Hu by (unfold unhashed; rewrite length_app; simpl; lia).
  split; [exact Hw'|]. split; [by apply (hashed64_same d)|]. split.
  - exists e. destruct Hr as [Hfs Hst (kx & fx & Hx & Hcx) Hcm]. split.
    + intros a x Ha. destruct (Hfs a x Ha) as (i & k0 & f0 & Hi & Hcp). destruct (unhashed_lookup L f k _ _ _ Hi) as [k1 Hk1].
      by exists i, k1, f0.
    + cbn. intros k' b' [[-> ->]|[_ Hk']]%lookup_insert_Some; [exact Hc|by apply Hst].
    + exists kx, fx. split; [|exact Hcx]. unfold unhashed in Hx. rewrite lookup_app_l in Hx |- * by done. done.
    + cbn. rewrite Hcm. unfold unhashed. by rewrite !take_app_le by lia.
  - destruct Hd as [A1 A2 A3 A4 A5 A6 A7 A8 A9 A10 A11 A12 A13 A14 A15]. split; try same_field; cbn.
    + intros k' b' [[-> ->]|[_ Hk']]%lookup_insert_Some; [by exists (length L), f|].
      destruct (A1 _ _ Hk') as (i & f0 & Hi). exists i, f0. by eapply prefix_lookup_Some.
    + intros i k' f' Hi. destruct (decide (k = k')) as [->|Hne]; [exists blk; apply lookup_insert_eq|].
      rewrite lookup_insert_ne by done. apply next_entry_lookup in Hi as [Hi|(_ & -> & _)]; [by eapply A2|done].
    + intros i k' f' [Hi|(-> & -> & ->)]%next_entry_lookup; [by apply (A3 _ _ _ Hi)|]. exists blk, f. split; [exact Hc|].
      split; [exact Hf|]. eapply wf_height; [exact Hw'|exact Hlast].
    + intros a x Ha. destruct (A4 a x Ha) as (i & k0 & f0 & Hi & Hs). destruct (unhashed_lookup L f k _ _ _ Hi) as [k1 Hk1].
      by exists i, k1, f0.
    + destruct A5 as (m & k0 & f0 & Hm & Hrest). exists m, k0, f0. split; [by eapply prefix_lookup_Some|]. rewrite Hl'. by rewrite Hu in Hrest.
    + destruct A6 as (k0 & f0 & Hl & Hcl). exists k0, f0. split; [by eapply prefix_lookup_Some|exact Hcl].
    + eapply next_ok_prefix; [exact Hp|]. by apply (next_ok_grows _ d); [apply grows_neutral|].
    + by rewrite ledger_cmds_key.
    + rewrite Hl'. by rewrite Hu in A12.
    + by rewrite Hl'.
    + intros m Hm. destruct (A15 m Hm) as [? [?|?]]; (split; [done|]); [by left|right; by eapply proposal_prefix].
Qed.

(** *** Announcing a block *)
Lemma next_ok_next L L' d l cbs t r blk m k f :
  (∃ b, d_blocks d !! blk = Some b ∧ blk_State b = m) → is_Some (mb_FastState m) →
  L' = L ++ [(k, f)] → cached d blk k → l < length L →
  next_ok L d l cbs → next_ok L' d l (cbs ++ [((t, NextStep m blk), r)]).
Proof.
  intros Hb [a Ha] -> Hc. revert l. induction cbs as [|[[t' j'] r'] cbs IH]; intros l Hl Hn.
  - simpl. split; [done|]. rewrite Ha. exists (length L), k, f. split_and!; [by rewrite lookup_app_r, Nat.sub_diag by done|done..].
  - simpl in *. destruct j' as [| | | | |m' blk']; try (by apply IH); [done|]. destruct Hn as [Hb' Hrest]. split; [done|].
    destruct (mb_FastState m'); [|by apply IH]. destruct Hrest as (n' & k0 & f0 & Hn & ? & ? & ?). exists n', k0, f0.
    apply lookup_lt_Some in Hn as Hlt. split_and!; [by apply lookup_app_l_Some|done..|by apply IH].
Qed.
Lemma next_ok_none L d l cbs t r blk m :
  (∃ b, d_blocks d !! blk = Some b ∧ blk_State b = m) → mb_FastState m = None →
  next_ok L d l cbs → next_ok L d l (cbs ++ [((t, NextStep m blk), r)]).
Proof.
  intros Hb Hm. revert l. induction cbs as [|[[t' j'] r'] cbs IH]; intros l Hn; simpl in *; [by rewrite Hm|].
  destruct j' as [| | | | |m' blk']; try (by apply IH); [done|]. destruct Hn as [Hb' Hrest]. split; [done|].
  destruct (mb_FastState m'); [|by apply IH]. destruct Hrest as (n' & k0 & f0 & ? & ? & ? & ?). exists n', k0, f0.
  split_and!; [done..|by apply IH].
Qed.
(** What a block needs to be announced, when its half is entry [length L] of [L']. *)
Definition posted L L' R l h m blk d : Prop :=
  at_rest L' R l l h d ∧ next_ok L d l (d_callbackC d) ∧ (∃ b, d_blocks d !! blk = Some b ∧ blk_State b = m) ∧
  match mb_FastState m with
  | Some a => ∃ k f, L' = L ++ [(k, f)] ∧ l < length L ∧ cached d blk k ∧ d_fasts d !! a = Some f
  | None => L' = L
  end.
Lemma same_next_frame L l : frame (λ d, next_ok L d l (d_callbackC d)).
Proof.
  assert (∀ d d', grows d d' → d_callbackC d' = d_callbackC d → next_ok L d l (d_callbackC d) → next_ok L d' l (d_callbackC d')) as Hs.
  { intros d d' Hg E Hn. rewrite E. by eapply next_ok_grows. }
  split; [split|..]; try (intros; eapply Hs; [| |eassumption]; [by apply grows_neutral|reflexivity]).
  - intros b d Hd. apply hash_wp. intros blk x Hb Hk _. eapply Hs; [by eapply cache_grows|done..].
  - intros s d Hd. unfold new_block. do 5 wp_step. eapply Hs; [apply append_grows|done..].
  - intros g d Hg Hd. apply (Hs d); [|done..]. apply grows_neutral. specialize (Hg (d_pacemaker d)). unfold constants, fast_part in *. simpl. congruence.
  - intros d Hd. cbn. apply next_ok_snoc; [done|]. eapply next_ok_grows; [|exact Hd]. by apply grows_neutral.
Qed.
Lemma same_half_frame a f : frame (λ d, d_fasts d !! a = Some f).
Proof.
  split; [split|..]; try done; [intros b d Hd; by apply hash_wp|]. intros s d Hd. unfold new_block. by do 5 wp_step.
Qed.
Lemma state_upward blk m : upward (λ d, ∃ b, d_blocks d !! blk = Some b ∧ blk_State b = m).
Proof. intros d d' Hg (b & Hb & Hm). destruct (gr_blocks _ _ Hg _ _ Hb) as (b' & Hb' & E & _). exists b'. split; [done|congruence]. Qed.
Lemma cached_upward blk k : upward (λ d, cached d blk k).
Proof. intros d d' Hg. by apply cached_grows. Qed.
Lemma posted_frame L L' R l h m blk : frame (posted L L' R l h m blk).
Proof.
  apply frame_and; [apply rest_frame|apply frame_and; [apply same_next_frame|apply frame_and; [apply up_frame, state_upward|]]].
  destruct (mb_FastState m) as [a|]; [|apply frame_const]. apply frame_ex. intros k. apply frame_ex. intros f.
  apply frame_and; [apply frame_const|apply frame_and; [apply frame_const|apply frame_and; [apply up_frame, cached_upward|apply same_half_frame]]].
Qed.
Lemma rest_send L R l n h d to b :
  at_rest L R l n h d → proposal_of L (d_id d) (mkMessage (d_id d) to b []) →
  at_rest L R l n h (d <| d_msgs ::= λ ms, ms ++ [mkMessage (d_id d) to b []] |>).
Proof.
  intros Hrest Hp. apply (rest_modify L R _ l n h (λ d, d <| d_msgs ::= λ ms, ms ++ [mkMessage (d_id d) to b []] |>)); [done..|].
  destruct Hrest as (_ & _ & _ & [A1 A2 A3 A4 A5 A6 A7 A8 A9 A10 A11 A12 A13 A14 A15]). split; try same_field.
  cbn. intros m [Hm|Hm]%elem_of_app; [by apply A15|]. apply list_elem_of_singleton in Hm as ->. split; [done|by right].
Qed.
Lemma posted_send L L' R l h m blk d to b :
  posted L L' R l h m blk d → proposal_of L' (d_id d) (mkMessage (d_id d) to b []) →
  posted L L' R l h m blk (d <| d_msgs ::= λ ms, ms ++ [mkMessage (d_id d) to b []] |>).
Proof.
  intros (Hrest & Hn & Hb & Hm) Hp. split; [by apply rest_send|]. split; [|by split].
  apply (next_ok_grows _ d); [by apply grows_neutral|exact Hn].
Qed.
Lemma rest_schedule L L' R l h m blk d :
  posted L L' R l h m blk d → wp (scheduleBack (NextStep m blk)) (λ _, at_rest L' R l l h) d.
Proof.
  intros (Hrest & Hn & Hb & Hm). unfold scheduleBack. do 2 wp_step. case_decide; wp_step.
  apply (rest_modify L' R _ l l h (λ d, d <| d_callbackC ::= λ cbs, cbs ++ [((d_ctrID d, NextStep m blk), Ret [])] |>)); [done..|].
  destruct Hrest as (_ & _ & _ & [A1 A2 A3 A4 A5 A6 A7 A8 A9 A10 A11 A12 A13 A14 A15]). split; try same_field. cbn.
  apply (next_ok_grows _ d); [by apply grows_neutral|]. destruct (mb_FastState m) as [a|] eqn:Ea.
  - destruct Hm as (k & f & -> & Hl & Hc & _). by eapply (next_ok_next L); [|rewrite Ea|..].
  - subst. by apply next_ok_none.
Qed.
Lemma rest_announce L L' R l h m blk d :
  posted L L' R l h m blk d →
  wp (d ← get;
      mBytes ← marshall (ChainDuoBFTMessage_Propose (value d m));
      broadcast mBytes false [];;
      scheduleBack (NextStep m blk);;
      mret true) (λ _, at_rest L' R l l h) d.
Proof.
  intros Hd. do 3 wp_step. unfold marshall. destruct (Marshal _) as [bs|] eqn:Hbs; [|by wp_step]. do 2 wp_step.
  eapply (wp_mono _ (λ _, posted L L' R l h m blk)).
  - unfold broadcast. do 2 wp_step. eapply wp_mono; [apply (wp_for_each (λ d', posted L L' R l h m blk d' ∧ d_id d' = d_id d))|].
    + intros to d1 _ [Hd1 E]. simpl. wp_step; [|by split]. case_bool_decide as Hne; [|done]. unfold enqueueForSending. wp_step.
      split; [|exact E]. apply posted_send; [done|]. split; [simpl; congruence|]. exists (value d m). split; [exact Hbs|].
      intros f Hf. simpl in Hf. destruct (mb_FastState m) as [a|] eqn:Ea; [|done]. simpl in Hf.
      destruct Hd as (_ & _ & _ & Hm). rewrite Ea in Hm. destruct Hm as (k & f' & -> & _ & _ & Hfa).
      rewrite Hfa in Hf. injection Hf as <-. exists (length L), k. by rewrite lookup_app_r, Nat.sub_diag by done.
    + by split.
    + by intros _ d1 [? _].
  - intros _ d1 Hd1. wp_step. eapply wp_mono; [by eapply rest_schedule|]. intros ? d2 Hd2. by wp_step.
Qed.

(** *** The whole of [propose] *)
Definition next_rest L R l h d : Prop := ∃ L', L `prefix_of` L' ∧ at_rest L' R l l h d.
Lemma bad_propose_slow f : preserves bad (propose_slow f).
Proof. apply to_propose_slow, bad_tolerant. Qed.
Lemma bad_storeBlock b : preserves bad (storeBlock b).
Proof. apply to_storeBlock, bad_tolerant. Qed.
Lemma bad_schedule j : preserves bad (scheduleBack j).
Proof. apply to_schedule, bad_tolerant. Qed.
Lemma bad_broadcast b s c : preserves bad (broadcast b s c).
Proof. unfold broadcast, enqueueForSending. preserves_steps. apply bad_modify. by intros []. Qed.
#[local] Hint Resolve bad_propose_slow bad_storeBlock bad_schedule bad_broadcast : go_inv.
Lemma block_wp b blk (Q : block → ChainDuoBFT U → Prop) d : d_blocks d !! b = Some blk → Q blk d → wp (get_block b) Q d.
Proof. intros Hb HQ. unfold get_block. do 2 wp_step. rewrite Hb. by wp_step. Qed.
(** The block of a new half is stored as the next entry. *)
Lemma store_entry L R l h f a view slow d :
  wf_ledger L → next_entry L f → mid L R l h f d → d_fasts d !! a = Some f →
  let m := mkMBS view (Some a) slow in let blk := length (d_blocks d) in
  wp (storeBlock blk) (λ _ d', ∃ k, posted L (L ++ [(k, f)]) R l h m blk d') (d <| d_blocks ::= λ x, x ++ [mkBlock m None] |>).
Proof.
  intros Hw Hn Hd Ha m blk. set (d1 := d <| d_blocks ::= _ |>).
  assert (mid L R l h f d1) as Hd1 by exact (frame_new_block _ (mid_frame L R l h f) m d Hd).
  assert (d_blocks d1 !! blk = Some (mkBlock m None)) as Hb by (unfold d1; cbn; by rewrite lookup_app_r, Nat.sub_diag by done).
  assert (S (length L) ≤ length (d_blocks d1)) as Hlen.
  { destruct Hd as (_ & _ & Hd). pose proof (ld_length _ _ _ _ _ _ Hd). unfold d1. cbn. rewrite length_app. simpl. lia. }
  assert (l < length L) as Hl. { destruct Hd as (_ & _ & Hd). destruct (ld_lock _ _ _ _ _ _ Hd) as (? & ? & Hlk & _). by apply lookup_lt_Some in Hlk. }
  unfold storeBlock, has_fast, has_slow. wp_step. wp_step. apply (block_wp _ _ _ _ Hb). do 2 wp_step. simpl.
  eapply (wp_mono _ (λ _ d', ∃ k, posted L (L ++ [(k, f)]) R l h m blk d')).
  - unfold storeFastBlock, on_chain. wp_step. eapply wp_mono.
    { apply wp_and; [by apply (frame_hash _ (mid_frame L R l h f))|].
      apply (hash_wp _ (λ k d2, length k = 64 ∧ cached d2 blk k ∧ half d2 blk = Some f ∧ d_fasts d2 !! a = Some f ∧
        length (d_blocks d2) = length (d_blocks d1) ∧ ∃ b, d_blocks d2 !! blk = Some b ∧ blk_State b = m)).
      intros blk' k Hb' Hk Hv. rewrite Hb in Hb'. injection Hb' as <-. specialize (Hv eq_refl).
      set (d2 := d1 <| d_blocks ::= _ |>).
      assert (d_blocks d2 !! blk = Some (mkBlock m (Some k))) as Hb2 by (change (alter (set blk_512Hash (λ _, Some k)) blk (d_blocks d1) !! blk = Some (mkBlock m (Some k)));
        by rewrite list_lookup_alter_eq, Hb).
      split_and!; [by eapply length_hash_value|by eexists| |exact Ha|apply length_alter|by eexists].
      unfold half. rewrite Hb2. exact Ha. }
    intros k d2 (Hd2 & Hk & Hc & Hf & Ha2 & Hlen2 & Hm). do 3 wp_step. apply FastState_wp. intros f1 _. wp_step. exists k.
    apply (fr_slow_chain _ (fr_calm _ (posted_frame L (L ++ [(k, f)]) R l h m blk))); [done|].
    split; [apply rest_entry; [done..|lia]|]. split; [|split; [exact Hm|exists k, f; by split_and!]].
    destruct Hd2 as (_ & _ & Hd2). apply (next_ok_grows _ d2); [by apply grows_neutral|apply Hd2].
  - intros _ d2 [k Hd2]. wp_step. destruct Hd2 as (Hr2 & Hn2 & (b2 & Hb2 & Em) & Hm2). wp_step. apply (block_wp _ _ _ _ Hb2). wp_step.
    assert (posted L (L ++ [(k, f)]) R l h m blk d2) as Hd2 by (split_and!; [done..|by exists b2|done]).
    eapply (wp_mono _ (λ _, posted L (L ++ [(k, f)]) R l h m blk)); [|intros _ d3; by exists k].
    revert Hd2. apply preserves_when, frame_storeSlow, posted_frame.
Qed.
(** A block with a slow half only. *)
Lemma store_slow_only L R l h view slow d :
  at_rest L R l l h d →
  let m := mkMBS view None slow in let blk := length (d_blocks d) in
  wp (storeBlock blk) (λ _, posted L L R l h m blk) (d <| d_blocks ::= λ x, x ++ [mkBlock m None] |>).
Proof.
  intros Hd m blk. set (d1 := d <| d_blocks ::= _ |>).
  assert (at_rest L R l l h d1) as Hd1 by exact (frame_new_block _ (rest_frame L R l l h) m d Hd).
  assert (d_blocks d1 !! blk = Some (mkBlock m None)) as Hb by (unfold d1; cbn; by rewrite lookup_app_r, Nat.sub_diag by done).
  assert (posted L L R l h m blk d1) as Hp.
  { split; [done|]. split; [apply Hd1|]. split; [by eexists|done]. }
  unfold storeBlock, has_fast, has_slow. do 2 wp_step. apply (block_wp _ _ _ _ Hb). do 2 wp_step. simpl. do 3 wp_step.
  apply (block_wp _ _ _ _ Hb). wp_step. revert d1 Hd1 Hb Hp. intros d1 _ _ Hp. revert Hp. apply preserves_when, frame_storeSlow, posted_frame.
Qed.
Lemma rest_propose L R l h d : at_rest L R l l h d → wp propose (λ _ d', next_rest L R l h d' ∨ bad d') d.
Proof.
  intros Hd. pose proof Hd as (Hw & _). unfold propose. wp_step. eapply wp_mono; [by apply rest_propose_fast|].
  intros fast d1 [Hd1|Hbad]; [|unfold get_pm, newBlock; by spoiled].
  destruct fast as [a|].
  - destruct Hd1 as (f & Hn & Hm & Ha). wp_step. eapply wp_mono.
    { apply wp_and; [by apply (fr_propose_slow _ (fr_calm _ (mid_frame L R l h f)))|].
      by apply (fr_propose_slow _ (fr_calm _ (same_half_frame a f))). }
    intros slow d2 [Hm2 Ha2]. rewrite bool_decide_false by done. cbn [andb]. unfold get_pm, newBlock, new_block. do 9 wp_step.
    apply (block_wp _ (mkBlock (mkMBS (pm_currentView (d_pacemaker d2)) (Some a) slow) None)); [cbn; by rewrite lookup_app_r, Nat.sub_diag by done|].
    cbn [blk_State]. wp_step. eapply wp_mono; [by apply (store_entry L R l h f a)|].
    intros _ d3 [k Hd3]. eapply wp_mono; [by eapply rest_announce|]. intros ? d4 Hd4. left. exists (L ++ [(k, f)]).
    split; [by apply prefix_app_r|exact Hd4].
  - wp_step. eapply wp_mono; [by apply (fr_propose_slow _ (fr_calm _ (rest_frame L R l l h)))|].
    intros slow d2 Hd2. cbn [andb]. destruct (_ && _); [wp_step; left; by exists L|]. unfold get_pm, newBlock, new_block. do 9 wp_step.
    apply (block_wp _ (mkBlock (mkMBS (pm_currentView (d_pacemaker d2)) None slow) None)); [cbn; by rewrite lookup_app_r, Nat.sub_diag by done|].
    cbn [blk_State]. wp_step. eapply wp_mono; [by apply (store_slow_only L R l h)|].
    intros ? d3 Hd3. eapply wp_mono; [exact (rest_announce _ _ _ _ _ _ _ _ Hd3)|]. intros ? d4 Hd4. left. exists L. by split.
Qed.

(** ** The calls

    At the leader, with a ledger that [L0] is the start of. *)
Definition leading (L0 : ledger) R (h : list ExecPacket) d : Prop :=
  (∃ L l, L0 `prefix_of` L ∧ at_rest L R l l h d) ∨ bad d.
Lemma leading_frame L0 R h : frame (leading L0 R h).
Proof.
  apply frame_or; [|apply to_frame, bad_tolerant]. apply frame_ex. intros L. apply frame_ex. intros l.
  apply frame_and; [apply frame_const|apply rest_frame].
Qed.
Lemma leading_rest L0 L R l h d : L0 `prefix_of` L → rest_or_bad L R l l h d → leading L0 R h d.
Proof. intros Hp [Hd|Hd]; [left; by exists L, l|by right]. Qed.
Lemma leading_next L0 L R l h d : L0 `prefix_of` L → next_rest L R l h d ∨ bad d → leading L0 R h d.
Proof. intros Hp [(L' & Hp' & Hd)|Hd]; [left; exists L', l; split; [by etrans|done]|by right]. Qed.
Lemma bad_msgs g : preserves bad (modify (λ d, d <| d_msgs ::= g |>)).
Proof. apply bad_modify. by intros []. Qed.
Lemma bad_beat : preserves bad beat.
Proof. apply to_beat; [apply bad_tolerant|apply bad_broadcast]. Qed.
Lemma bad_callback j r : preserves bad (callback j r).
Proof. apply to_callback; [apply bad_tolerant|apply bad_broadcast]. Qed.
Lemma leading_beat L0 R h : preserves (leading L0 R h) beat.
Proof.
  intros d [(L & l & Hp & Hd)|Hbad]; [|eapply wp_mono; [by apply bad_beat|by right]].
  unfold beat, get_pm. do 4 wp_step. wp_step. eapply wp_mono.
  { apply wp_and; [by apply (preserves_getLeader (at_rest L R l l h))|].
    apply (preserves_getLeader (λ d', d' = d)). done. }
  intros leader ? [_ ->]. assert (leading L0 R h d) as Hl by (left; by exists L, l).
  destruct (bool_decide _); [by wp_step|]. destruct (_ && _); [by wp_step|]. wp_step.
  eapply wp_mono; [by apply rest_propose|]. intros sent d1 Hd1. apply (leading_next L0) in Hd1; [|done].
  revert d1 Hd1. apply preserves_when. unfold get_pm, on_pm. preserves_steps; apply preserves_modify; intros d1;
    by apply (fr_pm _ (fr_calm _ (leading_frame L0 R h))).
Qed.
(** What a certificate is made of. *)
Lemma certificate_wp b x votes d :
  wp (certificate b x votes) (λ r d', grows d d' ∧ ∀ qc, r = Some qc →
    qc_Height qc = x ∧ ∃ k, cached d' b k ∧ qc_BlockHash qc = Some k) d.
Proof.
  unfold certificate. wp_step. apply hash_wp. intros blk k Hb Hk _. wp_step. apply wp_lift. intros r Hr. wp_step.
  split; [by eapply cache_grows|]. intros qc Hqc. unfold createQuorumCert in Hr.
  destruct (add_votes _ votes ∅) as [[sigs|err]| |]; try done; injection Hr as <-; [|done]. injection Hqc as <-. split; [done|].
  exists k. split; [|done]. exists (set blk_512Hash (λ _, Some k) blk). split; [|done]. cbn. by rewrite list_lookup_alter_eq, Hb.
Qed.
Lemma rest_count_vote L R l h v b : preserves (rest_or_bad L R l l h) (count_vote v b).
Proof.
  intros d [Hd|Hbad]; [|eapply wp_mono; [by apply (to_count_vote _ bad_tolerant)|by right]].
  pose proof (rest_or_bad_frame L R l l h) as Hfr. pose proof (fr_calm _ Hfr) as Hca.
  unfold count_vote. wp_step. wp_step. do 4 wp_step.
  match goal with |- wp _ _ ?x => set (d1 := x); assert (at_rest L R l l h d1) as Hd1 end.
  { by apply (fr_votes _ (fr_calm _ (rest_frame L R l l h))). }
  wp_step. eapply wp_mono; [apply wp_and; [by apply (preserves_get_block (at_rest L R l l h))|by apply (preserves_get_block (λ d', d' = d1))]|].
  intros blk ? [_ ->]. wp_step. eapply (wp_mono _ (λ _, rest_or_bad L R l l h)).
  - destruct (bool_decide _); [|wp_step; by left]. destruct (bool_decide _); [wp_step; by left|].
    destruct (bool_decide _); [|wp_step; by left]. wp_step. apply FastState_wp. intros f Hf. wp_step.
    eapply wp_mono; [apply wp_and; [by apply (fr_certificate _ (fr_calm _ (rest_frame L R l l h)))|apply certificate_wp]|].
    intros r d2 (Hd2 & Hg & Hr). destruct r as [qc|]; [|wp_step; by left]. destruct (Hr qc eq_refl) as (Eh & k & Hk & Ek).
    destruct (half_grows _ _ _ _ Hg Hf) as (f2 & Hf2 & E2 & _).
    rewrite <-E2 in Eh. pose proof (rest_fastQC L R l l h d2 b k f2 qc Hd2 Hk Hf2 Ek Eh) as Hq. apply wp_bind_inv in Hq.
    wp_step. eapply wp_mono; [exact Hq|]. intros [] d3 Hd3. wp_step. eapply wp_mono; [exact Hd3|]. intros [] d4 Hd4. by wp_step.
  - intros go. generalize (d_skipSlowPath d). intros skip.
    assert (preserves (rest_or_bad L R l l h) (
      if negb go || bool_decide (mb_SlowState (blk_State blk) = None) || skip then mret tt else
      if bool_decide (Z.of_nat (length (default [] (d_verifiedVotes d !! a) ++ [v])) < d_slowQuorumSize d)%Z then mret tt else
      s ← SlowState b;
      qc ← certificate b (sl_Height s) (default [] (d_verifiedVotes d !! a) ++ [v]);
      match qc with
      | None => mret tt
      | Some qc =>
          modify (λ d, d <| d_verifiedVotes ::= delete a |>);;
          updateSlowHighQC (Some qc);;
          onSlowQC qc
      end)) as Hp; [|exact Hp].
    pose proof (fr_certificate _ Hca). pose proof (fr_updateSlowHighQC _ Hca). pose proof (fr_onSlowQC _ Hfr).
    preserves_steps. apply preserves_modify. intros d'. apply (fr_votes _ Hca).
Qed.
(** Taking the first callback off the channel. *)
Lemma rest_pop L R l n n' h d cbs :
  at_rest L R l n h d → next_ok L d n' cbs → l ≤ n' → at_rest L R l n' h (d <| d_callbackC := cbs |>).
Proof.
  intros (Hw & H64 & (e & Hr) & Hd) Hn Hl. split; [done|]. split; [by apply (hashed64_same d)|].
  split; [exists e; by apply (ro_same L e h d); [apply grows_neutral|..]|].
  destruct Hd as [A1 A2 A3 A4 A5 A6 A7 A8 A9 A10 A11 A12 A13 A14 A15]. split; try same_field; try done.
Qed.
Lemma rest_callback_next L R l h m b d cbs t res :
  at_rest L R l l h d → d_callbackC d = ((t, NextStep m b), res) :: cbs →
  wp (callback (NextStep m b) res) (λ _, leading L R h) (d <| d_callbackC := cbs |>).
Proof.
  intros Hd Hcb. pose proof (ld_next _ _ _ _ _ _ (proj2 (proj2 (proj2 Hd)))) as Hn. rewrite Hcb in Hn. simpl in Hn.
  destruct Hn as [(blk & Hb & Em) Hn]. unfold callback. wp_step. apply wp_lift. intros bs _.
  set (d1 := d <| d_callbackC := cbs |>). assert (d_blocks d1 !! b = Some blk) as Hb1 by exact Hb.
  assert (∀ n, preserves (rest_or_bad L R n n h) (slow ← has_slow b; when slow (onSlowProposeContinue m b))) as Hslow.
  { intros n. apply preserves_bind; [apply preserves_has_slow|intros slow]. apply preserves_when, rest_slow. }
  unfold has_fast. do 2 wp_step. apply (block_wp _ _ _ _ Hb1). rewrite Em. do 2 wp_step.
  destruct (mb_FastState m) as [a|]; simpl.
  - destruct Hn as (n' & k & f0 & Hi & Hc & Hl & Hn). pose proof (rest_pop L R l l n' h d cbs Hd Hn ltac:(lia)) as Hd1.
    eapply wp_mono; [apply (rest_own L R l n' h d1 m b k n' f0); [exact Hd1| |done..]|].
    + destruct Hc as (x & Hx & Hk). by exists x.
    + intros ? d2 Hd2. eapply wp_mono; [by apply (Hslow n')|]. intros ? d3. by apply leading_rest.
  - wp_step. eapply wp_mono; [apply (Hslow l); left; by apply (rest_pop L R l l l)|]. intros ? d3. by apply leading_rest.
Qed.
Lemma leading_weaken L L0 R h d : L0 `prefix_of` L → leading L R h d → leading L0 R h d.
Proof. intros Hp [(L' & l & Hp' & Hd)|Hbad]; [left; exists L', l; split; [by etrans|done]|by right]. Qed.
Lemma leading_body L0 R h : preserves (leading L0 R h) AsyncCallback_body.
Proof.
  intros d [(L & l & Hp & Hd)|Hbad].
  2:{ eapply (wp_mono _ (λ _, bad)); [|by right]. revert d Hbad. pose proof bad_callback. unfold AsyncCallback_body.
      change (preserves bad AsyncCallback_body). unfold AsyncCallback_body. preserves_steps. apply bad_modify. by intros []. }
  unfold AsyncCallback_body. do 2 wp_step. destruct (d_callbackC d) as [|[[t j] res] cbs] eqn:Hcb.
  { wp_step. left. by exists L, l. }
  do 3 wp_step. eapply (wp_mono _ (λ _, leading L R h)); [|intros ? d1 Hd1; wp_step; by eapply leading_weaken].
  pose proof (ld_next _ _ _ _ _ _ (proj2 (proj2 (proj2 Hd)))) as Hn. rewrite Hcb in Hn. simpl in Hn.
  destruct j as [m b|m b|b u|v b| |m b]; [done| | | | |by eapply rest_callback_next];
    pose proof (rest_pop L R l l l h d cbs Hd Hn ltac:(lia)) as Hd1; set (d1 := d <| d_callbackC := cbs |>) in *;
    pose proof (rest_or_bad_frame L R l l h) as Hfr.
  - unfold callback. wp_step. apply wp_lift. intros bs _. case_decide; [by wp_step|].
    eapply wp_mono; [by apply rest_slow; left|]. intros ? d2. by apply leading_rest.
  - unfold callback. wp_step. apply wp_lift. intros bs _. eapply wp_mono; [apply (fr_vote_signed _ (fr_calm _ Hfr)); by left|].
    intros ? d2. by apply leading_rest.
  - unfold callback. wp_step. apply wp_lift. intros bs _. case_decide; [by wp_step|].
    unfold onVoteContinue. destruct (v_Signature v); [|by wp_step]. wp_step. eapply wp_mono; [by apply rest_count_vote; left|].
    intros ? d2 Hd2. eapply wp_mono; [by apply (fr_clean_votes _ (fr_calm _ Hfr))|]. intros ? d3. by apply leading_rest.
  - unfold callback. wp_step. apply wp_lift. intros bs _. eapply wp_mono; [apply (leading_beat L); left; by exists L, l|].
    intros ? d2 Hd2. exact Hd2.
Qed.
Lemma leading_AsyncCallback L0 R h : preserves (leading L0 R h) AsyncCallback.
Proof. unfold AsyncCallback. preserves_step; [apply preserves_get|]. apply preserves_loop, leading_body. Qed.

(** *** The worker threads *)
Lemma worker_new {P X : Type} (exec : P → X) cap e w cbs w' cbs' :
  Worker.step exec cap e w cbs = Some (w', cbs') →
  (∀ j, j ∈ Worker.pending w' → j ∈ Worker.pending w) ∧
  ∃ new, cbs' = cbs ++ new ∧ ∀ c, c ∈ new → c.1 ∈ Worker.pending w.
Proof.
  intros Hs. pose proof (Worker.step_jobs _ _ _ _ _ _ _ Hs) as [Hj _]. split; [done|].
  pose proof (Worker.step_conserves _ _ _ _ _ _ _ Hs) as Hc.
  destruct (Worker.step_results _ _ _ _ _ _ _ Hs) as (new & -> & _). exists new. split; [done|].
  rewrite fmap_app, <-app_assoc in Hc. apply Permutation_app_inv_l in Hc. intros c Hin. rewrite <-Hc.
  apply elem_of_app. left. by apply list_elem_of_fmap_2.
Qed.
Lemma pools_step_new exec digest cap e (pl pl' : pools U) cbs cbs' :
  pools_step exec digest cap e pl cbs = Some (pl', cbs') →
  (∀ t, t ∈ pool_tasks pl' → t ∈ pool_tasks pl) ∧ ∃ new, cbs' = cbs ++ new ∧ ∀ c, c ∈ new → c.1 ∈ pool_tasks pl.
Proof.
  assert (∀ (w w' : Worker.Dispatcher task) (x : task → outcome bytes) e1 (pl1 : pools U) cbs1,
    Worker.step x cap e1 w cbs = Some (w', cbs1) →
    (∀ t, t ∈ pool_tasks pl1 → t ∈ Worker.pending w' ∨ t ∈ pool_tasks pl) → (∀ t, t ∈ Worker.pending w → t ∈ pool_tasks pl) →
    (∀ t, t ∈ pool_tasks pl1 → t ∈ pool_tasks pl) ∧ ∃ new, cbs1 = cbs ++ new ∧ ∀ c, c ∈ new → c.1 ∈ pool_tasks pl) as Hpool.
  { intros w w' x e1 pl1 cbs1 [Hj (new & -> & Hn)]%worker_new Hin Hout. split.
    - intros t [?|?]%Hin; [by apply Hout, Hj|done].
    - exists new. split; [done|]. intros c Hc. by apply Hout, Hn. }
  assert (∀ w1 w2 w3 w4 u s t, t ∈ pool_tasks (mkPools w1 w2 w3 w4 u s : pools U) ↔ t ∈ Worker.pending w1 ∨ t ∈ Worker.pending w2 ∨
    t ∈ Worker.pending w3 ∨ t ∈ Worker.pending w4) as Ht.
  { intros. unfold pool_tasks. by rewrite !elem_of_app. }
  destruct pl as [w1 w2 w3 w4 u s]. intros Hs. destruct e as [e0|k|e|e|e]; cbn [pools_step] in Hs.
  - assert (∃ x w', Worker.step x cap e0 w1 cbs = Some (w', cbs') ∧ ∃ s', pl' = mkPools w' w2 w3 w4 u s') as (x & w' & Hw & s' & ->).
    { destruct e0; repeat (apply bind_Some in Hs as ([? ?] & Hw & Hs) || apply bind_Some in Hs as (? & ? & Hs));
        injection Hs as <- <-; by eexists _, _; split; [exact Hw|eexists]. }
    eapply Hpool; [exact Hw|intros t; rewrite !Ht; tauto..].
  - destruct (Worker.d_workers w1 !! k ≫= Worker.running) as [t|] eqn:E; simpl in Hs; rewrite E in Hs; [|done]. simpl in Hs.
    destruct (digest t), (s !! k); try done. destruct (signUsig _ _ _). injection Hs as <- <-.
    split; [done|]. exists []. rewrite app_nil_r. split; [done|]. by intros c ?%not_elem_of_nil.
  - apply bind_Some in Hs as ([w' cbs1] & Hw & Hs). injection Hs as <- <-. eapply Hpool; [exact Hw|intros t; unfold pool_tasks; cbn; rewrite !elem_of_app; tauto..].
  - apply bind_Some in Hs as ([w' cbs1] & Hw & Hs). injection Hs as <- <-. eapply Hpool; [exact Hw|intros t; unfold pool_tasks; cbn; rewrite !elem_of_app; tauto..].
  - apply bind_Some in Hs as ([w' cbs1] & Hw & Hs). injection Hs as <- <-. eapply Hpool; [exact Hw|intros t; unfold pool_tasks; cbn; rewrite !elem_of_app; tauto..].
Qed.
Lemma next_ok_app L d n cbs new :
  (∀ c, c ∈ new → pool_job c.1.2) → next_ok L d n cbs → next_ok L d n (cbs ++ new).
Proof.
  revert cbs. induction new as [|[[t j] r] new IH]; intros cbs Hn Hc; [by rewrite app_nil_r|].
  replace (cbs ++ (t, j, r) :: new) with ((cbs ++ [(t, j, r)]) ++ new) by by rewrite <-app_assoc.
  apply IH; [intros c ?; apply Hn; by right|]. apply next_ok_snoc; [|done]. apply (Hn (t, j, r)). by left.
Qed.
Lemma leading_step L0 R h e d d' : worker_step e d = Some d' → leading L0 R h d → leading L0 R h d'.
Proof.
  unfold worker_step. intros ([pl cbs] & Hs & [= <-])%bind_Some [(L & l & Hp & Hd)|Hbad].
  2:{ right. eapply bad_upward, Hbad. by apply grows_neutral. }
  left. exists L, l. split; [done|]. apply pools_step_new in Hs as [Hj (new & -> & Hn)].
  pose proof (λ t, ld_pools _ _ _ _ _ _ (proj2 (proj2 (proj2 Hd))) t) as Hok.
  apply (rest_modify L R _ l l h (λ d, d <| d_pools := pl |> <| d_callbackC := d_callbackC d ++ new |>)); [done..|].
  destruct Hd as (_ & _ & _ & [A1 A2 A3 A4 A5 A6 A7 A8 A9 A10 A11 A12 A13 A14 A15]). split; try same_field; cbn.
  - apply next_ok_app; [intros c Hc; by apply Hok, Hn|]. by apply (next_ok_grows _ d); [apply grows_neutral|].
  - intros t Ht. by apply Hok, Hj.
Qed.
Lemma leading_request L0 R h c d :
  canonical c → leading L0 R h d → wp (Request c) (λ _, leading L0 (R ++ [c]) h) d.
Proof.
  intros Hc Hd. unfold Request, onRequest, pm_onRequest. do 2 wp_step. apply leading_beat.
  destruct Hd as [(L & l & Hp & Hd)|Hbad]; [left; exists L, l; split; [done|]|right; eapply bad_upward, Hbad; by apply grows_neutral].
  apply (rest_modify L R _ l l h (λ d, d <| d_cmdQueue ::= λ q, q ++ [c] |>)); [done..|].
  destruct Hd as (_ & _ & _ & [A1 A2 A3 A4 A5 A6 A7 A8 A9 A10 A11 A12 A13 A14 A15]). split; try same_field; cbn.
  - apply Forall_app. split; [done|by apply Forall_singleton].
  - by rewrite app_assoc, A11.
Qed.
(** A message that is no proposal. *)
Definition no_proposal (b : bytes) : Prop := ∀ m, Unmarshal b ≠ Some (ChainDuoBFTMessage_Propose m).
Lemma leading_Step L0 R h m : no_proposal (msg_Content m) → preserves (leading L0 R h) (Step m).
Proof.
  intros Hm. unfold Step. destruct (Unmarshal (msg_Content m)) as [[p|v|]|] eqn:Hu; try apply preserves_panic.
  - by destruct (Hm p).
  - apply (fr_onVote _ (fr_calm _ (leading_frame L0 R h))).
Qed.
Lemma rest_clear L R l h d : at_rest L R l l h d → at_rest L R l l h (d <| d_msgs := [] |>).
Proof.
  intros Hd. apply (rest_modify L R _ l l h (λ d, d <| d_msgs := [] |>)); [done..|].
  destruct Hd as (_ & _ & _ & [A1 A2 A3 A4 A5 A6 A7 A8 A9 A10 A11 A12 A13 A14 A15]). split; try same_field; cbn.
  by intros m ?%not_elem_of_nil.
Qed.
Lemma leading_clear L0 R h : preserves (leading L0 R h) ClearMsgs.
Proof.
  intros d [(L & l & Hp & Hd)|Hbad]; [left; exists L, l; split; [done|by apply rest_clear]|].
  right. eapply bad_upward, Hbad. by apply grows_neutral.
Qed.
Lemma rest_taken L R l h d :
  at_rest L R l l h d → at_rest L R l l (h ++ d_committedCmds d) (d <| d_committedCmds := [] |>).
Proof.
  intros (Hw & H64 & (e & Hr) & Hd). split; [done|]. split; [by apply (hashed64_same d)|].
  split; [exists e; by apply ro_taken|]. by apply (leads_modify _ _ _ _ _ (λ d, d <| d_committedCmds := [] |>)).
Qed.
(** What the leader has to send is in its ledger. *)
Lemma leading_msgs L R l h d m : at_rest L R l l h d → m ∈ d_msgs d →
  msg_From m = d_id d ∧ (vote_content (msg_Content m) ∨ proposal_of L (d_id d) m).
Proof. intros (_ & _ & _ & Hd). apply (ld_msgs _ _ _ _ _ _ Hd). Qed.
End chain_leader.
