(* ===== verification/ChainDuoNet.v ===== *)
(** * A network of DuoBFT chains with one leader

    The replicas of a view run in any interleaving; only the leader proposes.  The
    ledger of the leader grows, every message under way is a vote or a proposal out
    of the ledger, and what every replica has executed by the fast rule is what a
    prefix of the ledger says, unless two blocks of different heights have one
    hash. *)
From S2P Require Import Prelude Command Worker Peer Runs Network ChainHotstuff ChainDuo ChainDuoSafety ChainDuoLeader.
From Stdlib Require Import Strings.Byte.
Import ChainDuo.

(** What the messages keep on the wire: a proposal its heights, hashes and
    canonical commands, and a vote is no proposal. *)
Class ChainDuoCodecLaws `{Codec ChainDuoBFTMessage} := {
  propose_law m b : Marshal (ChainDuoBFTMessage_Propose m) = Some b → ∀ m' f',
    Unmarshal b = Some (ChainDuoBFTMessage_Propose m') → b_FastState m' = Some f' →
    ∃ f, b_FastState m = Some f ∧ half_like f f' ∧
      ((∀ c, f_Command f = Some c → canonical c) → f_Command f' = f_Command f);
  vote_law v b : Marshal (ChainDuoBFTMessage_Vote v) = Some b → ∀ m, Unmarshal b ≠ Some (ChainDuoBFTMessage_Propose m);
}.

Section chain_net.
Context {U : Type} `{GoEnv, !GoEnvLaws, Codec BlockState, Codec ChainDuoBFTMessage, MapRange, Ed25519, UsigEd U, !ChainDuoCodecLaws}.
Abbreviation chain := (ChainDuoBFT U).
Implicit Types (d : chain) (n : network (P:=chain)) (L : ledger) (R : list Command).
Abbreviation event := (net_event (E:=pool_event)).

Lemma from_ledger_prefix L L' b : L `prefix_of` L' → from_ledger L b → from_ledger L' b.
Proof.
  intros Hp Hb m f Hu Hf. destruct (Hb m f Hu Hf) as (n & k & f0 & Hn & ?). exists n, k, f0.
  split; [by eapply prefix_lookup_Some|done].
Qed.
Lemma vote_no_proposal b : vote_content b → no_proposal b.
Proof. intros [v Hv] m. by eapply vote_law. Qed.
Lemma no_proposal_from L b : no_proposal b → from_ledger L b.
Proof. intros Hb m f Hu. by destruct (Hb m). Qed.
Lemma proposal_from L id m : wf_ledger L → proposal_of L id m → from_ledger L (msg_Content m).
Proof.
  intros Hw (_ & p & Hm & Hp) m' f' Hu Hf'. destruct (propose_law _ _ Hm _ _ Hu Hf') as (f & Hf & Hl & Hc).
  destruct (Hp f Hf) as (n & k & Hn). exists n, k, f. split; [done|]. split; [done|]. apply Hc. intros c Hfc.
  by eapply (wf_canonical _ Hw).
Qed.

(** ** What holds in every run *)
Section run.
Context (leader : Z).
Record chain_ok L R n : Prop := {
  ck_leader : ∃ h d l, nw_replicas n !! leader = Some (h, d) ∧ d_id d = leader ∧ at_rest L R l l h d;
  ck_others r h d : r ≠ leader → nw_replicas n !! r = Some (h, d) → follows L h d;
  ck_flight m : m ∈ nw_flight n → from_ledger L (msg_Content m) ∧ (msg_To m = leader → no_proposal (msg_Content m));
}.
Definition broken n : Prop := ∃ h d, nw_replicas n !! leader = Some (h, d) ∧ bad d.

(** What the leader is asked. *)
Definition requests_to (es : list event) : list Command :=
  omap (λ e, match e with Local r (Do (Call_Request c)) => if decide (r = leader) then Some c else None | _ => None end) es.
(** Nobody else proposes, and the requests are canonical. *)
Definition leader_proposes (e : event) : Prop :=
  match e with
  | Local r (Do (Call_Request c)) => r = leader → canonical c
  | Local _ (Do (Call_Step _)) => False
  | Forge m => no_proposal (msg_Content m)
  | _ => True
  end.

#[export] Instance leader_proposes_dec e : Decision (leader_proposes e).
Proof.
  destruct e as [r [[]|]| | |m]; simpl; try apply _. unfold no_proposal.
  destruct (Unmarshal (msg_Content m)) as [[p|v|]|]; [right; intros Hm; by apply (Hm p)|left..]; done.
Defined.

Lemma do_act_keeps (I : chain → Prop) d a :
  (∀ c, preserves I (do_call c)) → (∀ e d d', worker_step e d = Some d' → I d → I d') → I d → I (do_act worker_step d a).
Proof.
  intros Hc Hs Hd. destruct a as [c|e]; simpl.
  - specialize (Hc c d Hd). unfold wp in Hc. by destruct (do_call c d) as [[[] d']| |].
  - destruct (worker_step e d) as [d'|] eqn:He; simpl; [by eapply Hs|done].
Qed.
Lemma do_act_upward (I : chain → Prop) d a : upward I → I d → I (do_act worker_step d a).
Proof. intros Hup. apply do_act_keeps; [intros c; by apply upward_call|intros e d1 d2; by apply upward_step]. Qed.
Lemma id_upward r : upward (λ d, d_id d = r).
Proof. intros d d' Hg <-. pose proof (gr_constants _ _ Hg) as E. unfold constants in E. congruence. Qed.
Lemma act_follows L h d a :
  wf_ledger L → match a with Do (Call_Step m) => from_ledger L (msg_Content m) | _ => True end →
  follows L h d → follows L h (do_act worker_step d a).
Proof.
  intros Hw Ha Hd. destruct a as [c|e]; simpl.
  - pose proof (follows_call L h Hw c ltac:(by destruct c) d Hd) as Hc. unfold wp in Hc. by destruct (do_call c d) as [[[] d']| |].
  - destruct (worker_step e d) as [d'|] eqn:He; simpl; [by eapply follows_step|done].
Qed.
(** The requests after an act of the leader: it drops the one on which it panics. *)
Definition request_of (a : act pool_event) : list Command := match a with Do (Call_Request c) => [c] | _ => [] end.
Lemma act_leads L R l h d a :
  match a with
  | Do (Call_Step m) => no_proposal (msg_Content m)
  | Do (Call_Request c) => canonical c
  | _ => True
  end → at_rest L R l l h d →
  ∃ R', R' `sublist_of` R ++ request_of a ∧ leading L R' h (do_act worker_step d a).
Proof.
  intros Ha Hd. assert (leading L R h d) as Hl by (left; by exists L, l).
  assert (∀ m : M chain unit, preserves (leading L R h) m →
    leading L R h (match m d with Ret (_, p) => p | _ => d end)) as Hcall.
  { intros m Hm. specialize (Hm d Hl). unfold wp in Hm. by destruct (m d) as [[[] d']| |]. }
  destruct a as [[m|c| |cb| |]|e]; simpl.
  2:{ pose proof (leading_request L R h c d Ha Hl) as Hc. unfold wp in Hc.
      change (Peer.Request c d) with (Request c d). destruct (Request c d) as [[[] d']| |]; [by exists (R ++ [c])|exists R; split; [by apply sublist_inserts_r|done]..]. }
  all: exists R; split; [by rewrite app_nil_r|].
  - apply Hcall. by apply leading_Step.
  - exact Hl.
  - exact Hl.
  - apply Hcall. apply leading_AsyncCallback.
  - exact (leading_clear L R h d Hl).
  - destruct (worker_step e d) as [d'|] eqn:He; simpl; [by eapply leading_step|done].
Qed.

(** *** One event *)
Lemma ck_leader_eq L R n h d : chain_ok L R n → nw_replicas n !! leader = Some (h, d) →
  d_id d = leader ∧ ∃ l, at_rest L R l l h d.
Proof. intros Hn Hd. destruct (ck_leader _ _ _ Hn) as (h' & d' & l & Hd' & ? & ?). rewrite Hd in Hd'. injection Hd' as <- <-. eauto. Qed.
(** The leader moves, and what it has sent is in its ledger. *)
Lemma leader_moves L R L' R' n h d l flight :
  chain_ok L R n → L `prefix_of` L' → d_id d = leader → at_rest L' R' l l h d →
  (∀ m, m ∈ flight → m ∈ nw_flight n ∨ msg_From m = leader ∧ (vote_content (msg_Content m) ∨ proposal_of L' leader m)) →
  chain_ok L' R' (mkNetwork (<[leader := (h, d)]> (nw_replicas n)) flight).
Proof.
  intros [_ Ho Hf] Hp Hid Hd Hin. split.
  - exists h, d, l. simpl. by rewrite lookup_insert_eq.
  - intros r h' d' Hne. simpl. rewrite lookup_insert_ne by done. intros Hr. eapply follows_prefix; [done|by eapply Ho].
  - intros m [Hm|[_ Hm]]%Hin.
    + destruct (Hf m Hm) as [? ?]. split; [by eapply from_ledger_prefix|done].
    + destruct Hm as [Hv%vote_no_proposal|Hm]; [split; [by apply no_proposal_from|done]|].
      split; [eapply proposal_from; [apply Hd|done]|]. intros E. by destruct (proj1 Hm).
Qed.
Lemma other_moves L R n r h d flight :
  chain_ok L R n → r ≠ leader → follows L h d →
  (∀ m, m ∈ flight → m ∈ nw_flight n ∨ vote_content (msg_Content m)) →
  chain_ok L R (mkNetwork (<[r := (h, d)]> (nw_replicas n)) flight).
Proof.
  intros [Hl Ho Hf] Hne Hd Hin. split.
  - simpl. by rewrite lookup_insert_ne.
  - intros r' h' d' Hne'. simpl. intros [[-> [= <- <-]]|[_ Hr]]%lookup_insert_Some; [done|by eapply Ho].
  - intros m [Hm|Hv%vote_no_proposal]%Hin; [by apply Hf|]. split; [by apply no_proposal_from|done].
Qed.
Lemma act_at_eq r (a : act pool_event) n flight : act_at worker_step r a (mkNetwork (nw_replicas n) flight) =
  mkNetwork (match nw_replicas n !! r with
             | Some (h, d) => <[r := (h, do_act worker_step d a)]> (nw_replicas n)
             | None => nw_replicas n
             end) flight.
Proof.
  unfold act_at. simpl. f_equal. apply map_eq. intros j. rewrite lookup_alter.
  destruct (nw_replicas n !! r) as [[h d]|] eqn:Hr; case_decide as E.
  - subst. by rewrite lookup_insert_eq.
  - by rewrite lookup_insert_ne.
  - subst. by rewrite Hr.
  - done.
Qed.
Definition next_ok_net L R (a : list Command) n : Prop :=
  broken n ∨ ∃ L' R', R' `sublist_of` R ++ a ∧ chain_ok L' R' n.
Lemma act_at_chain L R r a n flight :
  chain_ok L R n → (∀ m, m ∈ flight → m ∈ nw_flight n) →
  match a with
  | Do (Call_Step m) => from_ledger L (msg_Content m) ∧ (r = leader → no_proposal (msg_Content m))
  | Do (Call_Request c) => r = leader → canonical c
  | _ => True
  end →
  next_ok_net L R (if decide (r = leader) then request_of a else []) (act_at worker_step r a (mkNetwork (nw_replicas n) flight)).
Proof.
  intros Hn Hfl Ha. rewrite act_at_eq. destruct (decide (r = leader)) as [->|Hne].
  - destruct (ck_leader _ _ _ Hn) as (h & d & l & Hd & Hid & Hrest). rewrite Hd.
    destruct (act_leads L R l h d a) as (R' & HR & Hl); [by destruct a as [[]|]; try done; [apply Ha|apply Ha]|done|].
    destruct Hl as [(L' & l' & Hp & Hd')|Hbad].
    + right. exists L', R'. split; [done|]. eapply leader_moves; [done..| |done|intros m Hm; left; by apply Hfl].
      by apply (do_act_upward (λ d, d_id d = leader)); [apply id_upward|].
    + left. exists h, (do_act worker_step d a). simpl. by rewrite lookup_insert_eq.
  - right. exists L, R. split; [by rewrite app_nil_r|]. destruct (nw_replicas n !! r) as [[h d]|] eqn:Hr.
    + apply other_moves; [done..| |intros m Hm; left; by apply Hfl]. destruct (ck_leader _ _ _ Hn) as (? & ? & ? & _ & _ & Hrest).
      apply act_follows; [apply Hrest| |by eapply ck_others]. destruct a as [[]|]; try done. apply Ha.
    + destruct Hn as [Hl Ho Hf]. split; [done..|]. intros m Hm. by apply Hf, Hfl.
Qed.
(** What a peer takes. *)
Definition ready d : chain := d <| d_msgs := [] |> <| d_committedCmds := [] |>.
Lemma hand_over_eq r h d n : nw_replicas n !! r = Some (h, d) →
  hand_over r n = mkNetwork (<[r := (h ++ d_committedCmds d, ready d)]> (nw_replicas n)) (nw_flight n ++ d_msgs d).
Proof. unfold hand_over. by intros ->. Qed.
Lemma hand_over_chain L R r n : chain_ok L R n → chain_ok L R (hand_over r n).
Proof.
  intros Hn. destruct (nw_replicas n !! r) as [[h d]|] eqn:Hr; [|unfold hand_over; by rewrite Hr].
  rewrite (hand_over_eq r h d n Hr). destruct (decide (r = leader)) as [->|Hne].
  - destruct (ck_leader_eq _ _ _ _ _ Hn Hr) as [Hid (l & Hd)]. apply (leader_moves L R L R n _ _ l); try done.
    + exact (rest_taken L R l h (d <| d_msgs := [] |>) (rest_clear _ _ _ _ _ Hd)).
    + intros m [Hm|Hm]%elem_of_app; [by left|right]. rewrite <-Hid. by eapply leading_msgs.
  - destruct (ck_leader _ _ _ Hn) as (? & ? & ? & _ & _ & Hrest). pose proof (ck_others _ _ _ Hn _ _ _ Hne Hr) as Hd.
    apply other_moves; [done..| |].
    + pose proof (follows_call L h (proj1 Hrest) Call_ClearMsgs I d Hd) as Hc. exact (follows_taken L h (d <| d_msgs := [] |>) Hc).
    + intros m [Hm|Hm]%elem_of_app; [by left|right]. destruct Hd as [[_ Hq] _]. by apply Hq.
Qed.
Lemma deliver_chain L R from to n : chain_ok L R n → next_ok_net L R [] (deliver worker_step from to n).
Proof.
  intros Hn. unfold deliver. destruct (list_find _ (nw_flight n)) as [[k m]|] eqn:Hf.
  2:{ right. exists L, R. split; [by rewrite app_nil_r|done]. }
  apply list_find_Some in Hf as (Hk & [_ Ht] & _).
  pose proof (act_at_chain L R to (Do (Call_Step m)) n (delete k (nw_flight n)) Hn) as Ha. simpl in Ha.
  destruct (decide (to = leader)); apply Ha.
  1,3: intros m' Hm'; by eapply list_elem_of_delete_inv.
  all: destruct (ck_flight _ _ _ Hn m) as [? Hno]; [by eapply list_elem_of_lookup_2|]; split; [done|]; intros E; apply Hno; congruence.
Qed.
Lemma net_do_chain L R n e :
  chain_ok L R n → leader_proposes e → next_ok_net L R (requests_to [e]) (net_do worker_step n e).
Proof.
  intros Hn He. destruct e as [r a|r|from to|m]; simpl.
  - pose proof (act_at_chain L R r a n (nw_flight n) Hn (λ m Hm, Hm)) as Ha. destruct n as [reps fl]. simpl in Ha.
    destruct a as [[m|c| |cb| |]|e]; simpl in He |- *; try done; specialize (Ha ltac:(done));
      destruct (decide (r = leader)); exact Ha.
  - right. exists L, R. split; [by rewrite app_nil_r|by apply hand_over_chain].
  - by apply deliver_chain.
  - right. exists L, R. split; [by rewrite app_nil_r|]. destruct Hn as [Hl Ho Hf]. split; [done..|].
    intros m' [Hm|Hm]%elem_of_app; [by apply Hf|]. apply list_elem_of_singleton in Hm as ->. simpl in He.
    split; [by apply no_proposal_from|done].
Qed.
(** What has gone wrong stays so. *)
Lemma broken_do n e : broken n → broken (net_do worker_step n e).
Proof.
  intros (h & d & Hd & Hb). assert (∀ r a flight, broken (act_at worker_step r a (mkNetwork (nw_replicas n) flight))) as Hact.
  { intros r a flight. rewrite act_at_eq. destruct (decide (r = leader)) as [->|Hne].
    - rewrite Hd. exists h, (do_act worker_step d a). simpl. rewrite lookup_insert_eq. split; [done|].
      by apply do_act_upward; [apply bad_upward|].
    - exists h, d. simpl. split; [|done]. destruct (nw_replicas n !! r) as [[h' d']|]; [by rewrite lookup_insert_ne|done]. }
  destruct e as [r a|r|from to|m]; simpl.
  - specialize (Hact r a (nw_flight n)). by destruct n.
  - destruct (nw_replicas n !! r) as [[h' d']|] eqn:Hr; [|unfold hand_over; rewrite Hr; by exists h, d].
    rewrite (hand_over_eq r h' d' n Hr). destruct (decide (r = leader)) as [->|Hne].
    + rewrite Hd in Hr. injection Hr as <- <-. eexists _, _. simpl. rewrite lookup_insert_eq. split; [done|].
      eapply bad_upward, Hb. by apply grows_neutral.
    + exists h, d. simpl. by rewrite lookup_insert_ne.
  - unfold deliver. destruct (list_find _ _) as [[k m]|]; [apply Hact|by exists h, d].
  - by exists h, d.
Qed.
Lemma net_run_chain L R es n :
  chain_ok L R n → Forall leader_proposes es → next_ok_net L R (requests_to es) (net_run worker_step es n).
Proof.
  unfold net_run. intros Hn. induction es as [|e es IH] using rev_ind; intros Hes.
  { right. exists L, R. split; [by rewrite app_nil_r|done]. }
  apply Forall_app in Hes as [Hes [He _]%Forall_cons]. rewrite foldl_app. simpl.
  destruct (IH Hes) as [Hb|(L' & R' & HR & Hn')]; [left; by apply broken_do|].
  destruct (net_do_chain L' R' _ e Hn' He) as [Hb|(L2 & R2 & HR2 & Hn2)]; [by left|]. right. exists L2, R2. split; [|done].
  etrans; [exact HR2|]. unfold requests_to. rewrite omap_app, app_assoc. by apply sublist_app.
Qed.
End run.
End chain_net.
