(* ===== verification/ChainDuoEnds.v ===== *)
(** * The loops of a DuoBFT chain end

    The walks and the commits go from a block to its parent by the hash: where
    every stored block is above its stored parent they end within the fuel.  The
    bounds of the loops over the pending proposals, and of [AsyncCallback] at a
    replica that does not lead, are enough in every state: more fuel gives the
    same result. *)
From S2P Require Import Prelude Command Worker Peer Runs ChainHotstuff ChainDuo ChainDuoSafety.
From Stdlib Require Import Strings.Byte.
Import ChainDuo.

(** ** Stored blocks below a height, or without one *)
Section below.
Context (m : gmap (list Byte.byte) nat) (height : nat → option Z).
Definition is_below (h : Z) (b : nat) : bool :=
  match height b with Some x => bool_decide (x < h)%Z | None => true end.
Definition below (h : Z) : gmap (list Byte.byte) nat :=
  filter (λ kb : list Byte.byte * nat, is_below h kb.2 = true) m.
Lemma stored_below_lt k b x h : m !! k = Some b → height b = Some x → (x < h)%Z → size (below x) < size (below h).
Proof.
  intros Hk Hb Hx. apply map_subset_size, map_subset_alt. split.
  - apply map_subseteq_spec. intros k' b' [? Hb']%map_lookup_filter_Some. apply map_lookup_filter_Some. split; [done|].
    unfold is_below in *. simpl in *. destruct (height b'); [|done]. case_bool_decide; [|done]. apply bool_decide_eq_true. lia.
  - exists k. split; [|exists b; apply map_lookup_filter_Some; split; [done|]].
    + apply map_lookup_filter_None. right. intros b' Hb'. rewrite Hk in Hb'. injection Hb' as <-. unfold is_below. simpl.
      rewrite Hb. case_bool_decide; [lia|done].
    + unfold is_below. simpl. rewrite Hb. by apply bool_decide_eq_true.
Qed.
Lemma below_one k b h : m !! k = Some b → height b = None → 0 < size (below h).
Proof.
  intros Hk Hb. apply Nat.neq_0_lt_0. intros E%map_size_empty_inv. apply (map_empty (below h)) with k in E as E'.
  apply map_lookup_filter_None in E' as [E'|E']; [congruence|]. apply (E' b Hk). unfold is_below. simpl. by rewrite Hb.
Qed.
Lemma below_le h : size (below h) ≤ size m.
Proof. apply map_subseteq_size, map_filter_subseteq. Qed.
End below.

(** ** Methods that are the same from some states *)
Definition agree {S A} (I : S → Prop) (m m' : M S A) : Prop := ∀ s, I s → m s = m' s.
Section agree.
Context {S : Type} (I : S → Prop).
Lemma agree_bind {A B} (m : M S A) (k k' : A → M S B) :
  preserves I m → (∀ a, agree I (k a) (k' a)) → agree I (m ≫= k) (m ≫= k').
Proof.
  intros Hm Hk s Hs. specialize (Hm s Hs). unfold wp, mbind, M_bind in *.
  destruct (m s) as [[a s']| |]; [by apply Hk|done..].
Qed.
Lemma agree_get {A} (k k' : S → M S A) : (∀ s, I s → k s s = k' s s) → agree I (get ≫= k) (get ≫= k').
Proof. intros Hk s Hs. by apply Hk. Qed.
Lemma agree_head {A B} (m m' : M S A) (k : A → M S B) : agree I m m' → agree I (m ≫= k) (m' ≫= k).
Proof. intros Hm s Hs. unfold mbind, M_bind. by rewrite Hm. Qed.
Lemma agree_refl {A} (m : M S A) : agree I m m.
Proof. by intros s. Qed.
End agree.

Section chain_ends.
Context {U : Type} `{GoEnv, Codec BlockState, Codec ChainDuoBFTMessage, MapRange, Ed25519, UsigEd U}.
Implicit Types (d : ChainDuoBFT U).

Definition slow_half d (b : nat) : option SlowChainState := blk ← d_blocks d !! b; mb_SlowState (blk_State blk).
(** Every stored block is above its stored parent. *)
Definition fast_rises d : Prop := ∀ k b f p b' f',
  fastBlocks (d_blockchain d) !! k = Some b → half d b = Some f → Array (f_Parent f) = Ret p →
  fastBlocks (d_blockchain d) !! p = Some b' → half d b' = Some f' → (f_Height f' < f_Height f)%Z.
Definition slow_rises d : Prop := ∀ k b s p b' s',
  slowBlocks (d_blockchain d) !! k = Some b → slow_half d b = Some s → Array (sl_Parent s) = Ret p →
  slowBlocks (d_blockchain d) !! p = Some b' → slow_half d b' = Some s' → (sl_Height s' < sl_Height s)%Z.

(** What reading a half gives. *)
Lemma FastState_ends {A} b (k : FastChainState → M (ChainDuoBFT U) A) d :
  (∀ f, half d b = Some f → ends (k f) d) → ends (FastState b ≫= k) d.
Proof.
  unfold ends, FastState, get_block, half, get, mbind, M_bind. intros Hk.
  destruct (d_blocks d !! b) as [blk|]; [|done]. simpl in *.
  destruct (mb_FastState (blk_State blk)) as [a|]; [|done]. simpl in *.
  destruct (d_fasts d !! a) as [f|]; [|done]. by apply Hk.
Qed.
Lemma SlowState_ends {A} b (k : SlowChainState → M (ChainDuoBFT U) A) d :
  (∀ s, slow_half d b = Some s → ends (k s) d) → ends (SlowState b ≫= k) d.
Proof.
  unfold ends, SlowState, get_block, slow_half, get, mbind, M_bind. intros Hk.
  destruct (d_blocks d !! b) as [blk|]; [|done]. simpl in *.
  destruct (mb_SlowState (blk_State blk)) as [s|]; [|done]. by apply Hk.
Qed.
Lemma lift_ends {A B} (o : outcome A) (k : A → M (ChainDuoBFT U) B) d :
  o ≠ Diverge → (∀ a, o = Ret a → ends (k a) d) → ends (lift o ≫= k) d.
Proof. unfold ends, lift, mbind, M_bind. destruct o; auto. Qed.
Lemma gets_ends {A} (g : ChainDuoBFT U → A) d : ends (gets g) d.
Proof. done. Qed.
Lemma Array_ends s : Array s ≠ Diverge.
Proof. unfold Array. by case_decide. Qed.
#[local] Hint Resolve gets_ends Array_ends : go_ends.
Lemma hash_of_ends b d : hash_of b d ≠ Diverge.
Proof. unfold hash_of, hash_value. ends_steps. Qed.
#[local] Hint Resolve hash_of_ends : go_ends.
Lemma chain_hash_ends b d : ends (hash b) d.
Proof. unfold hash. ends_steps. Qed.
Lemma get_block_ends b d : ends (get_block b) d.
Proof. unfold get_block. ends_steps. Qed.
#[local] Hint Resolve chain_hash_ends get_block_ends : go_ends.
Lemma has_fast_ends b d : ends (has_fast b) d.
Proof. unfold has_fast. ends_steps. Qed.
Lemma read_FastState_ends b d : ends (FastState b) d.
Proof. unfold FastState. ends_steps. Qed.
Lemma read_SlowState_ends b d : ends (SlowState b) d.
Proof. unfold SlowState. ends_steps. Qed.
Lemma clear_Command_ends b d : ends (clear_Command b) d.
Proof. unfold clear_Command. ends_steps. Qed.
#[local] Hint Resolve has_fast_ends read_FastState_ends read_SlowState_ends clear_Command_ends : go_ends.
Lemma same_hash_ends c t d : ends (same_hash c t) d.
Proof. unfold same_hash. ends_steps. Qed.
#[local] Hint Resolve same_hash_ends : go_ends.

(** *** The walks and the commits *)
Abbreviation below_fast d f := (below (fastBlocks (d_blockchain d)) (λ b, f_Height <$> half d b) (f_Height f)).
Abbreviation below_slow d s := (below (slowBlocks (d_blockchain d)) (λ b, sl_Height <$> slow_half d b) (sl_Height s)).
Lemma fast_parent d k b f p b' f' :
  fast_rises d → fastBlocks (d_blockchain d) !! k = Some b → half d b = Some f → Array (f_Parent f) = Ret p →
  fastBlocks (d_blockchain d) !! p = Some b' → half d b' = Some f' → size (below_fast d f') < size (below_fast d f).
Proof. intros Hr Hk Hf Hp Hp' Hf'. apply (stored_below_lt _ _ p b'); [done|by rewrite Hf'|by eapply (Hr k b f p b')]. Qed.
Lemma slow_parent d k b s p b' s' :
  slow_rises d → slowBlocks (d_blockchain d) !! k = Some b → slow_half d b = Some s → Array (sl_Parent s) = Ret p →
  slowBlocks (d_blockchain d) !! p = Some b' → slow_half d b' = Some s' → size (below_slow d s') < size (below_slow d s).
Proof. intros Hr Hk Hf Hp Hp' Hf'. apply (stored_below_lt _ _ p b'); [done|by rewrite Hf'|by eapply (Hr k b s p b')]. Qed.

(** From a stored block, with enough fuel for those below it. *)
Definition fast_fuel d (n : nat) (b : nat) : Prop := (∃ k, fastBlocks (d_blockchain d) !! k = Some b) ∧
  match half d b with Some f => size (below_fast d f) < n | None => 0 < n end.
Definition slow_fuel d (n : nat) (b : nat) : Prop := (∃ k, slowBlocks (d_blockchain d) !! k = Some b) ∧
  match slow_half d b with Some s => size (below_slow d s) < n | None => 0 < n end.
Lemma fast_fuel_stored d p b : fastBlocks (d_blockchain d) !! p = Some b → fast_fuel d (S (size (fastBlocks (d_blockchain d)))) b.
Proof.
  intros Hp. split; [by exists p|]. destruct (half d b) as [f|]; [|lia].
  pose proof (below_le (fastBlocks (d_blockchain d)) (λ b, f_Height <$> half d b) (f_Height f)). lia.
Qed.
Lemma slow_fuel_stored d p b : slowBlocks (d_blockchain d) !! p = Some b → slow_fuel d (S (size (slowBlocks (d_blockchain d)))) b.
Proof.
  intros Hp. split; [by exists p|]. destruct (slow_half d b) as [s|]; [|lia].
  pose proof (below_le (slowBlocks (d_blockchain d)) (λ b, sl_Height <$> slow_half d b) (sl_Height s)). lia.
Qed.
Lemma fast_fuel_parent d n b f p b' :
  fast_rises d → fast_fuel d (S n) b → half d b = Some f → Array (f_Parent f) = Ret p →
  fastBlocks (d_blockchain d) !! p = Some b' → fast_fuel d n b'.
Proof.
  intros Hr ((k & Hk) & Hn) Hf Hp Hp'. split; [by exists p|]. rewrite Hf in Hn. destruct (half d b') as [f'|] eqn:Hf'.
  - pose proof (fast_parent _ _ _ _ _ _ _ Hr Hk Hf Hp Hp' Hf'). lia.
  - pose proof (below_one (fastBlocks (d_blockchain d)) (λ b, f_Height <$> half d b) p b' (f_Height f) Hp') as Hpos.
    specialize (Hpos ltac:(simpl; by rewrite Hf')). lia.
Qed.
Lemma slow_fuel_parent d n b s p b' :
  slow_rises d → slow_fuel d (S n) b → slow_half d b = Some s → Array (sl_Parent s) = Ret p →
  slowBlocks (d_blockchain d) !! p = Some b' → slow_fuel d n b'.
Proof.
  intros Hr ((k & Hk) & Hn) Hf Hp Hp'. split; [by exists p|]. rewrite Hf in Hn. destruct (slow_half d b') as [s'|] eqn:Hs'.
  - pose proof (slow_parent _ _ _ _ _ _ _ Hr Hk Hf Hp Hp' Hs'). lia.
  - pose proof (below_one (slowBlocks (d_blockchain d)) (λ b, sl_Height <$> slow_half d b) p b' (sl_Height s) Hp') as Hpos.
    specialize (Hpos ltac:(simpl; by rewrite Hs')). lia.
Qed.
Lemma fuel_pos_fast d n b : fast_fuel d n b → n ≠ 0.
Proof. intros [_ Hn]. destruct (half d b); lia. Qed.
Lemma fuel_pos_slow d n b : slow_fuel d n b → n ≠ 0.
Proof. intros [_ Hn]. destruct (slow_half d b); lia. Qed.

(** One round of a walk or of a commit, from a block that need not be stored. *)
Lemma walk_fast_round n height b d :
  (∀ f p b', half d b = Some f → Array (f_Parent f) = Ret p → fastBlocks (d_blockchain d) !! p = Some b' →
    ends (walk_fast n height b') d) → ends (walk_fast (S n) height b) d.
Proof.
  intros Hn. simpl. apply FastState_ends. intros f Hf. destruct (bool_decide _); [|done].
  apply lift_ends; [apply Array_ends|]. intros p Hp. apply ends_bind; [done|]. intros next d1 [= <- <-].
  destruct (fastBlocks (d_blockchain d) !! p) as [b'|] eqn:Hb'; [by eapply Hn|done].
Qed.
Lemma walk_slow_round n height b d :
  (∀ s p b', slow_half d b = Some s → Array (sl_Parent s) = Ret p → slowBlocks (d_blockchain d) !! p = Some b' →
    ends (walk_slow n height b') d) → ends (walk_slow (S n) height b) d.
Proof.
  intros Hn. simpl. apply SlowState_ends. intros s Hs. destruct (bool_decide _); [|done].
  apply lift_ends; [apply Array_ends|]. intros p Hp. apply ends_bind; [done|]. intros next d1 [= <- <-].
  destruct (slowBlocks (d_blockchain d) !! p) as [b'|] eqn:Hb'; [by eapply Hn|done].
Qed.
Lemma fastCommit_rec_round n b d :
  (∀ f p b', half d b = Some f → Array (f_Parent f) = Ret p → fastBlocks (d_blockchain d) !! p = Some b' →
    ends (fastCommit_rec n b') d) → ends (fastCommit_rec (S n) b) d.
Proof.
  intros Hn. simpl. apply ends_bind; [done|]. intros d0 d0' [= -> ->]. apply FastState_ends. intros e _.
  apply FastState_ends. intros f Hf. apply ends_when. apply lift_ends; [apply Array_ends|]. intros p Hp.
  apply ends_bind; [done|]. intros parent d1 [= <- <-].
  destruct (fastBlocks (d_blockchain d0') !! p) as [b'|] eqn:Hb'; [|done].
  apply ends_bind; [by eapply Hn|intros ? ? _]. unfold enqueueForExecution. ends_steps.
Qed.
Lemma slowCommit_rec_round n b d :
  (∀ s p b', slow_half d b = Some s → Array (sl_Parent s) = Ret p → slowBlocks (d_blockchain d) !! p = Some b' →
    ends (slowCommit_rec n b') d) → ends (slowCommit_rec (S n) b) d.
Proof.
  intros Hn. simpl. apply ends_bind; [done|]. intros d0 d0' [= -> ->]. apply SlowState_ends. intros e _.
  apply SlowState_ends. intros f Hf. apply ends_when. apply lift_ends; [apply Array_ends|]. intros p Hp.
  apply ends_bind; [done|]. intros parent d1 [= <- <-].
  destruct (slowBlocks (d_blockchain d0') !! p) as [b'|] eqn:Hb'; [|done].
  apply ends_bind; [by eapply Hn|intros ? ? _]. unfold exec_block, getFastBlockFor, enqueueForExecution. ends_steps.
Qed.

(** A recursion whose rounds go to the stored parent. *)
Lemma fast_descent {A} (rec : nat → nat → M (ChainDuoBFT U) A) d b :
  (∀ n b, (∀ f p b', half d b = Some f → Array (f_Parent f) = Ret p → fastBlocks (d_blockchain d) !! p = Some b' →
    ends (rec n b') d) → ends (rec (S n) b) d) →
  fast_rises d → ends (rec (S (S (size (fastBlocks (d_blockchain d))))) b) d.
Proof.
  intros Hround Hr. apply Hround. intros _ p b' _ _ Hb'. apply fast_fuel_stored in Hb'. revert Hb'.
  generalize (S (size (fastBlocks (d_blockchain d)))) as n. intros n. revert b'.
  induction n as [|n IH]; intros b' Hb'; [by apply fuel_pos_fast in Hb'|].
  apply Hround. intros f p' b2 Hf Hp' Hb2. apply IH. by eapply fast_fuel_parent.
Qed.
Lemma slow_descent {A} (rec : nat → nat → M (ChainDuoBFT U) A) d b :
  (∀ n b, (∀ s p b', slow_half d b = Some s → Array (sl_Parent s) = Ret p → slowBlocks (d_blockchain d) !! p = Some b' →
    ends (rec n b') d) → ends (rec (S n) b) d) →
  slow_rises d → ends (rec (S (S (size (slowBlocks (d_blockchain d))))) b) d.
Proof.
  intros Hround Hr. apply Hround. intros _ p b' _ _ Hb'. apply slow_fuel_stored in Hb'. revert Hb'.
  generalize (S (size (slowBlocks (d_blockchain d)))) as n. intros n. revert b'.
  induction n as [|n IH]; intros b' Hb'; [by apply fuel_pos_slow in Hb'|].
  apply Hround. intros f p' b2 Hf Hp' Hb2. apply IH. by eapply slow_fuel_parent.
Qed.
Lemma extendsFast_ends b t d : fast_rises d → ends (extendsFast b t) d.
Proof.
  intros Hr. unfold extendsFast. apply ends_bind; [done|]. intros d0 d1 [= -> ->]. apply FastState_ends. intros ft _.
  apply ends_bind; [|intros ? ? _; ends_step].
  apply (fast_descent (λ n, walk_fast n (f_Height ft))); [|done]. intros n b'. apply walk_fast_round.
Qed.
Lemma extendsSlow_ends b t d : slow_rises d → ends (extendsSlow b t) d.
Proof.
  intros Hr. unfold extendsSlow. apply ends_bind; [done|]. intros d0 d1 [= -> ->]. apply SlowState_ends. intros ft _.
  apply ends_bind; [|intros ? ? _; ends_step].
  apply (slow_descent (λ n, walk_slow n (sl_Height ft))); [|done]. intros n b'. apply walk_slow_round.
Qed.
Lemma fastCommit_ends b d : fast_rises d → ends (fastCommit b) d.
Proof.
  intros Hr. unfold fastCommit. apply ends_bind; [done|]. intros d0 d1 [= -> ->].
  apply (fast_descent fastCommit_rec); [|done]. intros n b'. apply fastCommit_rec_round.
Qed.
Lemma slowCommit_ends b d : slow_rises d → ends (slowCommit b) d.
Proof.
  intros Hr. unfold slowCommit. apply ends_bind; [done|]. intros d0 d1 [= -> ->].
  apply (slow_descent slowCommit_rec); [|done]. intros n b'. apply slowCommit_rec_round.
Qed.

(** ** The pending proposals

    What decides how long a replica goes on: the channel and the proposals that
    wait. *)
Definition queue_view d := (d_callbackC d, d_pendingFastProposals d, d_pendingSlowProposals d, constants d).
Section queue.
Context (I : ChainDuoBFT U → Prop) (Hi : ∀ d d', queue_view d' = queue_view d → I d → I d').
Lemma qv_modify (g : ChainDuoBFT U → ChainDuoBFT U) :
  (∀ d, queue_view (g d) = queue_view d) → preserves I (modify g).
Proof. intros Hg. apply preserves_modify. intros d. by apply Hi. Qed.
Lemma qv_calm : calm I.
Proof.
  split; try (intros; by (eapply Hi; [|done])).
  - intros b. unfold hash. preserves_steps. by apply qv_modify.
  - intros b. unfold new_block. preserves_steps. by apply qv_modify.
  - intros g d Hg. apply Hi. specialize (Hg (d_pacemaker d)). unfold queue_view, constants. simpl. unfold fast_part in Hg. congruence.
Qed.
Lemma qv_hash b : preserves I (hash b).
Proof. apply fr_hash, qv_calm. Qed.
Lemma qv_new_block b : preserves I (new_block b).
Proof. apply fr_new_block, qv_calm. Qed.
Lemma qv_sendVote b : preserves I (sendVote b).
Proof. apply fr_sendVote, qv_calm. Qed.
Lemma qv_clear b : preserves I (clear_Command b).
Proof. pose proof (preserves_get_block I). unfold clear_Command. preserves_steps. by apply qv_modify. Qed.
#[local] Hint Resolve preserves_get_block preserves_FastState preserves_SlowState preserves_has_fast preserves_has_slow
  qv_hash qv_new_block qv_sendVote qv_clear : go_inv.
Ltac qv := preserves_steps; try (apply qv_modify; intros; reflexivity).
Lemma qv_storeFast b : preserves I (storeFastBlock b).
Proof. unfold storeFastBlock, on_chain. qv. Qed.
Lemma qv_updateFast qc : preserves I (updateFastHighQC qc).
Proof. unfold updateFastHighQC, getFastBlockFor, get_pm, on_pm. qv. Qed.
Lemma qv_fast_safe b qc : preserves I (fast_safe b qc).
Proof. apply fr_fast_safe, qv_calm. Qed.
Lemma qv_fastRule b : preserves I (fastCommitRule b).
Proof. pose proof (fr_qcRefFast I). unfold fastCommitRule. qv; case_decide; qv. Qed.
Lemma qv_fastCommit b : preserves I (fastCommit b).
Proof.
  unfold fastCommit. preserves_step; [qv|]. match goal with |- preserves _ (_ ?n _) => generalize n as fuel end.
  intros fuel. revert b. induction fuel as [|fuel IH]; intros b; simpl; [by intros d|].
  unfold getFastBlockFor, enqueueForExecution. qv.
Qed.
Lemma qv_slowCommit b : preserves I (slowCommit b).
Proof.
  unfold slowCommit. preserves_step; [qv|]. match goal with |- preserves _ (_ ?n _) => generalize n as fuel end.
  intros fuel. revert b. induction fuel as [|fuel IH]; intros b; simpl; [by intros d|].
  unfold exec_block, getFastBlockFor, getSlowBlockFor, enqueueForExecution. qv.
Qed.
End queue.

Lemma delete_smaller {A} (m : gmap (list Byte.byte) A) h x n : m !! h = Some x → size m < S n → size (delete h m) < n.
Proof.
  intros Hh Hm. assert (size m ≠ 0) by (intros ->%map_size_empty_inv; by rewrite lookup_empty in Hh).
  rewrite map_size_delete_Some by done. lia.
Qed.
Lemma smaller_queue {A} (n : nat) (v : ChainDuoBFT U → gmap (list Byte.byte) A) :
  (∀ d d', queue_view d' = queue_view d → v d' = v d) →
  ∀ d d', queue_view d' = queue_view d → size (v d) < n → size (v d') < n.
Proof. intros Hv d d' E. by rewrite (Hv d d' E). Qed.
Lemma fastPropose_more n : ∀ m b,
  agree (λ d, size (d_pendingFastProposals d) < n) (fastPropose_rec n m b) (fastPropose_rec (S n) m b).
Proof.
  induction n as [|n IH]; intros m b; [intros d ?; lia|].
  pose proof (smaller_queue (S n) d_pendingFastProposals ltac:(unfold queue_view; intros; congruence)) as Hi.
  change (agree (λ d, size (d_pendingFastProposals d) < S n) (fastPropose_body (fastPropose_rec n) m b)
    (fastPropose_body (fastPropose_rec (S n)) m b)).
  unfold fastPropose_body.
  apply agree_bind; [apply preserves_FastState|intros f]. apply agree_bind; [by apply qv_updateFast|intros []].
  apply agree_bind; [by apply qv_fast_safe|intros safe]. destruct (negb safe); [apply agree_refl|].
  apply agree_bind; [by apply qv_storeFast|intros []]. apply agree_bind; [apply preserves_get|intros d0].
  apply agree_bind; [apply preserves_when; by apply qv_sendVote|intros []].
  apply agree_bind; [by apply qv_fastRule|intros r].
  apply agree_bind; [destruct r; [by apply qv_fastCommit|apply preserves_ret]|intros []].
  apply agree_bind; [by apply qv_hash|intros h]. apply agree_get. intros d Hd.
  apply (agree_head (λ d', d' = d)); [|done]. destruct (d_pendingFastProposals d !! h) as [next|] eqn:Hn; [|apply agree_refl].
  intros ? ->. apply IH. by eapply delete_smaller.
Qed.
Lemma slowPropose_more n : ∀ m b,
  agree (λ d, size (d_pendingSlowProposals d) < n) (slowPropose_rec n m b) (slowPropose_rec (S n) m b).
Proof.
  induction n as [|n IH]; intros m b; [intros d ?; lia|].
  pose proof (smaller_queue (S n) d_pendingSlowProposals ltac:(unfold queue_view; intros; congruence)) as Hi.
  pose proof (qv_calm _ Hi) as Hc.
  change (agree (λ d, size (d_pendingSlowProposals d) < S n) (slowPropose_body (slowPropose_rec n) m b)
    (slowPropose_body (slowPropose_rec (S n)) m b)).
  unfold slowPropose_body.
  apply agree_bind; [apply preserves_SlowState|intros s]. apply agree_bind; [by apply fr_updateSlowHighQC|intros []].
  apply agree_bind; [by apply fr_slow_safe|intros safe]. destruct (negb safe); [apply agree_refl|].
  apply agree_bind; [by apply fr_storeSlowBlock|intros []]. apply agree_bind; [apply preserves_get|intros d0].
  apply agree_bind; [apply preserves_has_fast|intros fast].
  apply agree_bind; [apply preserves_when; by apply qv_sendVote|intros []].
  apply agree_bind; [by apply fr_slowCommitRule|intros r].
  apply agree_bind; [destruct r; [by apply qv_slowCommit|apply preserves_ret]|intros []].
  apply agree_bind; [by apply qv_hash|intros h]. apply agree_get. intros d Hd.
  apply (agree_head (λ d', d' = d)); [|done]. destruct (d_pendingSlowProposals d !! h) as [next|] eqn:Hn; [|apply agree_refl].
  intros ? ->. apply IH. by eapply delete_smaller.
Qed.
(** The bound is enough. *)
Lemma more_fuel {A} (rec : nat → M (ChainDuoBFT U) A) (v : ChainDuoBFT U → nat) :
  (∀ n, agree (λ d, v d < n) (rec n) (rec (S n))) → ∀ d n k, v d < n → rec (n + k) d = rec n d.
Proof.
  intros Hr d n k Hn. induction k as [|k IH]; [by rewrite Nat.add_0_r|].
  rewrite <-IH, Nat.add_succ_r. symmetry. apply Hr. lia.
Qed.
Lemma fastPropose_fuel m b d n :
  size (d_pendingFastProposals d) + 2 ≤ n → fastPropose_rec n m b d = onFastProposeContinue m b d.
Proof.
  intros Hn. unfold onFastProposeContinue, mbind, M_bind, get.
  pose proof (more_fuel _ (λ d, size (d_pendingFastProposals d)) (λ n, fastPropose_more n m b) d) as Hm. cbv beta in Hm.
  replace n with (S (S (size (d_pendingFastProposals d))) + (n - size (d_pendingFastProposals d) - 2)) by lia.
  apply Hm. lia.
Qed.
Lemma slowPropose_fuel m b d n :
  size (d_pendingSlowProposals d) + 2 ≤ n → slowPropose_rec n m b d = onSlowProposeContinue m b d.
Proof.
  intros Hn. unfold onSlowProposeContinue, mbind, M_bind, get.
  pose proof (more_fuel _ (λ d, size (d_pendingSlowProposals d)) (λ n, slowPropose_more n m b) d) as Hm. cbv beta in Hm.
  replace n with (S (S (size (d_pendingSlowProposals d))) + (n - size (d_pendingSlowProposals d) - 2)) by lia.
  apply Hm. lia.
Qed.

(** ** The callbacks of a replica that does not lead

    What a callback can add to the channel: a beat for each height that moves. *)
Definition weight (j : job) : nat :=
  match j with BeatStep | SignJob _ _ => 1 | VoteJob _ _ | FastProposeJob _ _ | SlowProposeJob _ _ => 3 | NextStep _ _ => 5 end.
Definition load_of d : nat :=
  sum_list_with (λ c : task * outcome bytes, weight c.1.2) (d_callbackC d) +
  2 * (size (d_pendingFastProposals d) + size (d_pendingSlowProposals d)).
Definition bounded (n : nat) d : Prop := follower d ∧ load_of d ≤ n.
Lemma bounded_mono n n' d : n ≤ n' → bounded n d → bounded n' d.
Proof. intros Hn [Hf Hl]. split; [done|lia]. Qed.
Lemma follower_view d d' : constants d' = constants d → follower d → follower d'.
Proof.
  unfold constants, follower. intros E Hf. replace (d_id d') with (d_id d) by congruence.
  replace (d_peers d') with (d_peers d) by congruence.
  by replace (pm_currentView (d_pacemaker d')) with (pm_currentView (d_pacemaker d)) by congruence.
Qed.
Lemma bounded_view n d d' : queue_view d' = queue_view d → bounded n d → bounded n d'.
Proof.
  intros E [Hf Hl]. unfold queue_view in E. split; [apply (follower_view d); [congruence|done]|]. unfold load_of in *.
  replace (d_callbackC d') with (d_callbackC d) by congruence.
  replace (d_pendingFastProposals d') with (d_pendingFastProposals d) by congruence.
  by replace (d_pendingSlowProposals d') with (d_pendingSlowProposals d) by congruence.
Qed.
(** From at most [n] to at most [n']. *)
Definition grows_to {A} n n' (m : M (ChainDuoBFT U) A) : Prop := ∀ d, bounded n d → wp m (λ _, bounded n') d.
Lemma gt_bind {A B} n n1 n2 (m : M (ChainDuoBFT U) A) (k : A → M (ChainDuoBFT U) B) :
  grows_to n n1 m → (∀ a, grows_to n1 n2 (k a)) → grows_to n n2 (m ≫= k).
Proof. intros Hm Hk d Hd. apply wp_bind. eapply wp_mono; [by apply Hm|]. simpl. intros a d'. apply Hk. Qed.
Lemma gt_keep {A} n n' (m : M (ChainDuoBFT U) A) : n ≤ n' → preserves (bounded n) m → grows_to n n' m.
Proof. intros Hn Hm d Hd. eapply wp_mono; [by apply Hm|]. simpl. intros _ d'. by apply bounded_mono. Qed.
Lemma gt_weaken {A} n n1 n2 (m : M (ChainDuoBFT U) A) : n1 ≤ n2 → grows_to n n1 m → grows_to n n2 m.
Proof. intros Hn Hm d Hd. eapply wp_mono; [by apply Hm|]. simpl. intros _ d'. by apply bounded_mono. Qed.
Lemma gt_keep_bind {A B} n n' (m : M (ChainDuoBFT U) A) (k : A → M (ChainDuoBFT U) B) :
  preserves (bounded n) m → (∀ a, grows_to n n' (k a)) → grows_to n n' (m ≫= k).
Proof. intros Hm. apply gt_bind. by apply gt_keep. Qed.
Lemma gt_pure {A} n n' (m : M (ChainDuoBFT U) A) : n ≤ n' → (∀ I : ChainDuoBFT U → Prop, preserves I m) → grows_to n n' m.
Proof. intros Hn Hm. by apply gt_keep. Qed.
Lemma gt_beat n : grows_to n (S n) (scheduleBack BeatStep).
Proof.
  intros d [Hf Hl]. unfold scheduleBack. wp_step. wp_step. case_decide; wp_step. split; [exact Hf|].
  unfold load_of. cbn. rewrite sum_list_with_app. unfold load_of in Hl. simpl. lia.
Qed.
Lemma gt_onFastQC n qc : grows_to n (S n) (onFastQC qc).
Proof.
  unfold onFastQC, get_pm, on_pm. apply gt_keep_bind; [apply preserves_gets|intros pm].
  destruct (bool_decide _); [apply gt_pure; [lia|intros; apply preserves_ret]|].
  apply gt_keep_bind; [by apply (qv_modify _ (bounded_view n))|intros []; apply gt_beat].
Qed.
Lemma gt_onSlowQC n qc : grows_to n (S n) (onSlowQC qc).
Proof.
  unfold onSlowQC, get_pm, on_pm. apply gt_keep_bind; [apply preserves_gets|intros pm].
  destruct (bool_decide _); [apply gt_pure; [lia|intros; apply preserves_ret]|].
  apply gt_keep_bind; [by apply (qv_modify _ (bounded_view n))|intros []; apply gt_beat].
Qed.
Lemma insert_larger {A} (m : gmap (list Byte.byte) A) h x : size (<[h := x]> m) ≤ S (size m).
Proof. rewrite map_size_insert. destruct (m !! h); simpl; lia. Qed.
Lemma gt_queueFast n m : grows_to n (n + 2) (queueBlockFastPropose m).
Proof.
  pose proof (bounded_view n) as Hv. unfold queueBlockFastPropose.
  apply gt_keep_bind; [by apply qv_new_block|intros b]. apply gt_keep_bind; [by apply qv_hash|intros _].
  apply gt_keep_bind; [apply preserves_FastState|intros f].
  destruct (f_QC f) as [qc|]; [|apply gt_pure; [lia|intros; apply preserves_panic]].
  apply gt_keep_bind; [apply preserves_lift|intros h].
  intros d [Hf Hl]. wp_step. split; [exact Hf|]. unfold load_of in *. cbn.
  pose proof (insert_larger (d_pendingFastProposals d) h m). lia.
Qed.
Lemma gt_queueSlow n m : grows_to n (n + 2) (queueBlockSlowPropose m).
Proof.
  pose proof (bounded_view n) as Hv. unfold queueBlockSlowPropose.
  apply gt_keep_bind; [by apply qv_new_block|intros b]. apply gt_keep_bind; [apply preserves_SlowState|intros f].
  destruct (sl_QC f) as [qc|]; [|apply gt_pure; [lia|intros; apply preserves_panic]].
  apply gt_keep_bind; [apply preserves_lift|intros h]. apply gt_keep_bind; [by apply qv_hash|intros _].
  apply gt_keep_bind; [apply preserves_get|intros d0].
  destruct (d_pendingSlowProposals d0 !! h); [apply gt_pure; [lia|intros; apply preserves_panic]|].
  intros d [Hf Hl]. wp_step. split; [exact Hf|]. unfold load_of in *. cbn.
  pose proof (insert_larger (d_pendingSlowProposals d) h m). lia.
Qed.
(** A proposal that is taken out of a queue makes room for what it adds. *)
Lemma gt_taken n (m : nat → M (ChainDuoBFT U) unit) next (g : ChainDuoBFT U → ChainDuoBFT U) d :
  (∀ n b, grows_to n (n + 2) (m b)) → constants (g d) = constants d → load_of (g d) + 2 ≤ load_of d → bounded n d →
  wp (modify g;; b ← new_block next; m b) (λ _, bounded n) d.
Proof.
  intros Hm Hc Hg [Hf Hl]. wp_step. wp_step. wp_step.
  eapply wp_mono; [apply (qv_new_block (bounded (n - 2))); [apply bounded_view|]|].
  - split; [by apply (follower_view d)|lia].
  - simpl. intros b d' Hd'. apply (Hm _ b) in Hd'. by replace (n - 2 + 2) with n in Hd' by lia.
Qed.
Lemma gt_fastPropose_rec fuel : ∀ n m b, grows_to n (n + 2) (fastPropose_rec fuel m b).
Proof.
  induction fuel as [|fuel IH]; intros n m b; simpl; [by intros d|]. pose proof (bounded_view n) as Hv. unfold fastPropose_body.
  apply gt_keep_bind; [apply preserves_FastState|intros f]. apply gt_keep_bind; [by apply qv_updateFast|intros []].
  apply gt_keep_bind; [by apply qv_fast_safe|intros safe]. destruct (negb safe); [apply gt_queueFast|].
  apply gt_keep_bind; [by apply qv_storeFast|intros []]. apply gt_keep_bind; [apply preserves_get|intros d0].
  apply gt_keep_bind; [apply preserves_when; by apply qv_sendVote|intros []].
  apply gt_keep_bind; [by apply qv_fastRule|intros r].
  apply gt_keep_bind; [destruct r; [by apply qv_fastCommit|apply preserves_ret]|intros []].
  apply gt_keep_bind; [by apply qv_hash|intros h].
  intros d Hd. wp_step. wp_step. wp_step. eapply (wp_mono _ (λ _, bounded n)).
  - destruct (d_pendingFastProposals d !! h) as [next|] eqn:Hn; [|by wp_step]. apply gt_taken; [intros; apply IH|done| |done].
    unfold load_of. cbn. pose proof (delete_smaller _ _ _ _ Hn (Nat.lt_succ_diag_r _)). lia.
  - simpl. intros _ d'. destruct (f_QC f); [|done]. intros Hd'. by apply (gt_weaken n (S n) (n + 2) _ ltac:(lia) (gt_onFastQC n _)).
Qed.
Lemma gt_slowPropose_rec fuel : ∀ n m b, grows_to n (n + 2) (slowPropose_rec fuel m b).
Proof.
  induction fuel as [|fuel IH]; intros n m b; simpl; [by intros d|]. pose proof (bounded_view n) as Hv. unfold slowPropose_body.
  pose proof (qv_calm _ Hv) as Hc.
  apply gt_keep_bind; [apply preserves_SlowState|intros f]. apply gt_keep_bind; [by apply fr_updateSlowHighQC|intros []].
  apply gt_keep_bind; [by apply fr_slow_safe|intros safe]. destruct (negb safe); [apply gt_queueSlow|].
  apply gt_keep_bind; [by apply fr_storeSlowBlock|intros []]. apply gt_keep_bind; [apply preserves_get|intros d0].
  apply gt_keep_bind; [apply preserves_has_fast|intros fast].
  apply gt_keep_bind; [apply preserves_when; by apply qv_sendVote|intros []].
  apply gt_keep_bind; [by apply fr_slowCommitRule|intros r].
  apply gt_keep_bind; [destruct r; [by apply qv_slowCommit|apply preserves_ret]|intros []].
  apply gt_keep_bind; [by apply qv_hash|intros h].
  intros d Hd. wp_step. wp_step. wp_step. eapply (wp_mono _ (λ _, bounded n)).
  - destruct (d_pendingSlowProposals d !! h) as [next|] eqn:Hn; [|by wp_step]. apply gt_taken; [intros; apply IH|done| |done].
    unfold load_of. cbn. pose proof (delete_smaller _ _ _ _ Hn (Nat.lt_succ_diag_r _)). lia.
  - simpl. intros _ d'. destruct (sl_QC f); [|done]. intros Hd'. by apply (gt_weaken n (S n) (n + 2) _ ltac:(lia) (gt_onSlowQC n _)).
Qed.
Lemma gt_fastPropose n m b : grows_to n (n + 2) (onFastProposeContinue m b).
Proof. unfold onFastProposeContinue. apply gt_keep_bind; [apply preserves_get|intros d0; apply gt_fastPropose_rec]. Qed.
Lemma gt_slowPropose n m b : grows_to n (n + 2) (onSlowProposeContinue m b).
Proof. unfold onSlowProposeContinue. apply gt_keep_bind; [apply preserves_get|intros d0; apply gt_slowPropose_rec]. Qed.
Lemma gt_count_vote n v b : grows_to n (n + 2) (count_vote v b).
Proof.
  pose proof (bounded_view n) as Hv. pose proof (bounded_view (n + 1)) as Hv1.
  unfold count_vote. apply gt_keep_bind; [apply preserves_lift|intros h]. apply gt_keep_bind; [apply preserves_get|intros d0].
  apply gt_keep_bind; [by apply qv_modify|intros []]. apply gt_keep_bind; [apply preserves_get_block|intros blk].
  apply (gt_bind n (n + 1)).
  - destruct (bool_decide _); [|apply gt_pure; [lia|intros; apply preserves_ret]].
    destruct (bool_decide _); [apply gt_pure; [lia|intros; apply preserves_ret]|].
    destruct (bool_decide _); [|apply gt_pure; [lia|intros; apply preserves_ret]].
    apply gt_keep_bind; [apply preserves_FastState|intros f].
    apply gt_keep_bind; [by apply fr_certificate, qv_calm|intros [qc|]]; [|apply gt_pure; [lia|intros; apply preserves_ret]].
    apply gt_keep_bind; [by apply qv_updateFast|intros []].
    eapply gt_bind; [apply gt_onFastQC|intros []]. apply gt_pure; [lia|intros; apply preserves_ret].
  - intros go. destruct (_ || _); [apply gt_pure; [lia|intros; apply preserves_ret]|].
    destruct (bool_decide _); [apply gt_pure; [lia|intros; apply preserves_ret]|].
    apply gt_keep_bind; [apply preserves_SlowState|intros s].
    apply gt_keep_bind; [by apply fr_certificate, qv_calm|intros [qc|]]; [|apply gt_pure; [lia|intros; apply preserves_ret]].
    apply gt_keep_bind; [by apply qv_modify|intros []].
    apply gt_keep_bind; [by apply fr_updateSlowHighQC, qv_calm|intros []].
    eapply gt_weaken; [|apply gt_onSlowQC]. lia.
Qed.
Lemma gt_follower_beat n : preserves (bounded n) beat.
Proof.
  intros d Hd. unfold beat, getLeader, get_pm. do 7 wp_step. case_decide as Hp; [by wp_step|]. wp_step.
  pose proof (proj1 Hd Hp) as Hf. rewrite bool_decide_true; [simpl; by wp_step|]. intros E. by apply Hf.
Qed.
Lemma gt_callback n j res : grows_to n (n + (weight j - 1)) (callback j res).
Proof.
  pose proof (bounded_view n) as Hv.
  unfold callback. apply gt_keep_bind; [apply preserves_lift|intros bs].
  destruct j as [m b|m b|b u|v b| |m b]; simpl; try case_decide; try (apply gt_pure; [lia|intros; apply preserves_panic]).
  - apply gt_fastPropose.
  - apply gt_slowPropose.
  - apply gt_keep; [lia|]. by apply fr_vote_signed, qv_calm.
  - unfold onVoteContinue. destruct (v_Signature v); [|apply gt_pure; [lia|intros; apply preserves_panic]].
    eapply gt_bind; [apply gt_count_vote|intros []]. apply gt_keep; [done|]. by apply fr_clean_votes, qv_calm, bounded_view.
  - apply gt_keep; [lia|apply gt_follower_beat].
  - apply gt_keep_bind; [apply preserves_has_fast|intros fast]. apply (gt_bind n (n + 2)).
    { destruct fast; [apply gt_fastPropose|apply gt_pure; [lia|intros; apply preserves_ret]]. }
    intros []. apply gt_keep_bind; [apply preserves_has_slow|intros slow].
    destruct slow; [|apply gt_pure; [lia|intros; apply preserves_ret]]. eapply gt_weaken; [|apply gt_slowPropose]. lia.
Qed.
(** The loop stops within [load_of] rounds. *)
Lemma follower_round d : follower d →
  wp AsyncCallback_body (λ b d', b = true → follower d' ∧ load_of d' < load_of d) d.
Proof.
  intros Hf. unfold AsyncCallback_body. wp_step. wp_step. destruct (d_callbackC d) as [|[[t j] res] rest] eqn:Hc; [by wp_step|].
  do 3 wp_step. eapply wp_mono; [apply (gt_callback (load_of (d <| d_callbackC := rest |>))); by split|].
  simpl. intros _ d' [Hf' Hl']. wp_step. intros _. split; [done|]. unfold load_of in *. cbn in *. rewrite Hc. simpl.
  assert (weight j ≠ 0) by by destruct j. lia.
Qed.
Lemma follower_loop n k d : follower d → load_of d < n → loop (n + k) AsyncCallback_body d = loop n AsyncCallback_body d.
Proof.
  revert d. induction n as [|n IH]; intros d Hf Hn; [lia|]. simpl.
  pose proof (follower_round d Hf) as Hr. unfold wp, mbind, M_bind in *.
  destruct (AsyncCallback_body d) as [[[] d']| |]; [|done..]. destruct (Hr eq_refl). apply IH; [done|lia].
Qed.
Lemma load_fuel d : load_of d < AsyncCallback_fuel d.
Proof.
  unfold load_of, AsyncCallback_fuel. assert (∀ l : callbacks, sum_list_with (λ c : task * outcome bytes, weight c.1.2) l ≤ 5 * length l) as Hw.
  { induction l as [|[[t j] r] l IH]; simpl; [lia|]. destruct j; simpl in *; lia. }
  specialize (Hw (d_callbackC d)). lia.
Qed.
Lemma AsyncCallback_fuel_enough d n :
  follower d → AsyncCallback_fuel d ≤ n → loop n AsyncCallback_body d = AsyncCallback d.
Proof.
  intros Hf Hn. unfold AsyncCallback, mbind, M_bind, get. pose proof (load_fuel d).
  replace n with (AsyncCallback_fuel d + (n - AsyncCallback_fuel d)) by lia. by apply follower_loop.
Qed.
End chain_ends.
