(* ===== verification/ChainDuoProps.v ===== *)
(** * The properties of a DuoBFT chain

    What a replica that does not lead executes by the fast rule, the bounds of its
    loops, and the runs that show how the slow rule loses a command and what one
    duplicate of a vote does. *)
From S2P Require Import Prelude Command Worker Peer Runs Network Wire ChainHotstuff ChainDuo ChainDuoSafety ChainDuoLeader ChainDuoNet ChainDuoEnds.
From Stdlib Require Import Strings.Byte.
Import ChainDuo.

Section chain_props.
Context {U : Type} `{GoEnv, !GoEnvLaws, Codec BlockState, Codec ChainDuoBFTMessage, MapRange, Ed25519, UsigEd U}.
Abbreviation chain := (ChainDuoBFT U).
Implicit Types (d : chain) (n : network (P:=chain)).

(** ** The network

    A start state, and the leader of its view. *)
Definition chain_start (c : Config) d : Prop := ∃ u, NewChainDuoBFT c u = Ret d.
Definition leader_of (c : Config) : Z := (cfg_LeaderID c `mod` Z.of_nat (length (cfg_Peers c)))%Z.
(** Replicas that start from their configurations, each under its identity, with
    one leader. *)
Record chain_net (leader : Z) (config : Z → Config) n : Prop := {
  cn_quiet : nw_flight n = [];
  cn_replicas r h d : nw_replicas n !! r = Some (h, d) →
    h = [] ∧ cfg_ID (config r) = r ∧ cfg_Peers (config r) ≠ [] ∧ leader_of (config r) = leader ∧ chain_start (config r) d;
  cn_leader : is_Some (nw_replicas n !! leader);
}.



(** C34. The loops of a chain end within the bounds of the model.  When the heights
    of the stored fast (slow) blocks grow from parent to child, [extendsFast] and
    [fastCommit] ([extendsSlow] and [slowCommit]) return or panic and never run
    out of fuel, from any block and towards any target; more fuel never changes
    what [onFastProposeContinue] and [onSlowProposeContinue] do, which take one
    proposal of the queue in each call; and for a replica that does not lead, nor
    what [AsyncCallback] does, whose callbacks put others on the channel. *)
Theorem chain_bounds_suffice d :
  (fast_rises d → ∀ b t, ends (extendsFast b t) d ∧ ends (fastCommit b) d) ∧
  (slow_rises d → ∀ b t, ends (extendsSlow b t) d ∧ ends (slowCommit b) d) ∧
  (∀ m b k, size (d_pendingFastProposals d) + 2 ≤ k → fastPropose_rec k m b d = onFastProposeContinue m b d) ∧
  (∀ m b k, size (d_pendingSlowProposals d) + 2 ≤ k → slowPropose_rec k m b d = onSlowProposeContinue m b d) ∧
  (follower d → ∀ k, AsyncCallback_fuel d ≤ k → loop k AsyncCallback_body d = AsyncCallback d).
Proof.
  split; [|split; [|split; [|split]]].
  - intros Hr b t. split; [by apply extendsFast_ends|by apply fastCommit_ends].
  - intros Hr b t. split; [by apply extendsSlow_ends|by apply slowCommit_ends].
  - intros m b k. apply fastPropose_fuel.
  - intros m b k. apply slowPropose_fuel.
  - intros Hf k. by apply AsyncCallback_fuel_enough.
Qed.

(** A check for [fast_rises]. *)
Definition above_parent d (b : nat) : Prop :=
  match half d b with
  | Some f =>
      match Array (f_Parent f) with
      | Ret p => match fastBlocks (d_blockchain d) !! p ≫= half d with Some f' => f_Height f' < f_Height f | None => True end
      | _ => True
      end
  | None => True
  end%Z.
#[export] Instance above_parent_dec d b : Decision (above_parent d b).
Proof. unfold above_parent. repeat case_match; apply _. Defined.
Lemma fast_rises_check d : map_Forall (λ _ b, above_parent d b) (fastBlocks (d_blockchain d)) → fast_rises d.
Proof.
  intros Hall k b f p b' f' Hk Hf Hp Hb' Hf'. specialize (Hall k b Hk). simpl in Hall.
  unfold above_parent in Hall. rewrite Hf, Hp, Hb' in Hall. simpl in Hall. by rewrite Hf' in Hall.
Qed.
End chain_props.

(** ** Concrete runs *)
Module ChainDuoDemo.
Import Toy.
#[export] Instance wire_Signature : Wire Signature :=
  wire_iso (λ s, (s_Sig s, s_Signer s, s_Counter s)) (λ '(a, b, c), mkSig a b c) ltac:(by intros []).
#[export] Instance wire_QC : Wire QuorumCert :=
  wire_iso (λ q, (qc_Sigs q, qc_BlockHash q, qc_Height q)) (λ '(a, b, c), mkQC a b c) ltac:(by intros []).
#[export] Instance wire_Slow : Wire SlowChainState :=
  wire_iso (λ s, (sl_ProposeBlockHash s, sl_ProposeBlockHeight s, sl_Height s, sl_Parent s, sl_QC s, sl_SelfPropose s))
    (λ '(a, b, c, d, e, f), mkSlow a b c d e f) ltac:(by intros []).
#[export] Instance wire_Fast : Wire FastChainState :=
  wire_iso (λ s, (f_Command s, f_Height s, f_Parent s, f_QC s)) (λ '(a, b, c, d), mkFast a b c d) ltac:(by intros []).
#[export] Instance wire_BS : Wire BlockState :=
  wire_iso (λ b, (b_View b, b_FastState b, b_SlowState b)) (λ '(v, f, s), mkBS v f s) ltac:(by intros []).
#[export] Instance wire_Vote : Wire VoteMessage :=
  wire_iso (λ v, (v_BlockHash v, v_Signature v)) (λ '(a, b), mkVote a b) ltac:(by intros []).
#[export] Instance BS_codec : Codec BlockState := wire_codec wire_BS.
#[export] Instance wire_Msg : Wire ChainDuoBFTMessage :=
  wire_iso (λ m, match m with
    | ChainDuoBFTMessage_Propose m => (Some m, None)
    | ChainDuoBFTMessage_Vote m => (None, Some m)
    | ChainDuoBFTMessage_nil => (None, None)
    end) (λ '(a, b), match a, b with
    | Some m, _ => ChainDuoBFTMessage_Propose m
    | _, Some m => ChainDuoBFTMessage_Vote m
    | _, _ => ChainDuoBFTMessage_nil
    end) ltac:(by intros []).
#[export] Instance Msg_codec : Codec ChainDuoBFTMessage := wire_codec wire_Msg.
#[export] Instance ed : Ed25519 := {|
  ed_Sign m := Some m;
  ed_Verify m s := bool_decide (s = Some m);
  ed_VerifyBatch l :=
    let oks := (λ ms : slice * slice, bool_decide (ms.2 = Some (default [] ms.1))) <$> l in
    Some (forallb id oks, oks);
|}.
#[export] Instance usig : UsigEd (gmap Z Z) := {|
  CreateUISigEd25519 ctrID d u :=
    let c := (default 0 (u !! ctrID) + 1)%Z in ((c, ctr_msg ctrID c d), <[ctrID := c]> u)
|}.
Abbreviation event := (net_event (E:=pool_event)).
Abbreviation chain := (ChainDuoBFT (gmap Z Z)).
#[export] Instance chain_laws : ChainDuoCodecLaws.
Proof.
  split.
  - intros m b Hb%(wire_codec_law wire_Msg) m' f' Hu Hf. change (Unmarshal b = Some (ChainDuoBFTMessage_Propose m)) in Hb.
    rewrite Hb in Hu. injection Hu as <-. exists f'. split; [done|]. split; [|done]. split_and!; [done..|].
    destruct (f_QC f') as [qc|]; [by exists qc|done].
  - intros v b Hb%(wire_codec_law wire_Msg) m Hu. change (Unmarshal b = Some (ChainDuoBFTMessage_Vote v)) in Hb. by rewrite Hb in Hu.
Qed.

Definition workers : gmap string nat := {["edd_sign"%string := 1; "edd_verify"%string := 1]}.
Definition four : list Z := [0; 1; 2; 3]%Z.
Definition config (j : Z) : Config := mkConfig j four 0 1 false workers workers.
Definition start (j : Z) : chain :=
  match NewChainDuoBFT (config j) (∅ : gmap Z Z) with Ret d => d | _ =>
    initial (config j) 0 [] (newPacemaker (mkQC ∅ None 0) 0)
      (mkPools (Worker.NewDispatcher 0) (Worker.NewDispatcher 0) (Worker.NewDispatcher 0) (Worker.NewDispatcher 0) ∅ ∅) 0 end.
(** Four correct replicas, with [f = 1]; replica 0 leads. *)
Definition net4 : network (P:=chain) := mkNetwork (list_to_map ((λ j, (j, ([], start j))) <$> four)) [].
Definition run (es : list event) : network (P:=chain) := net_run worker_step es net4.

(** One turn of each pool, then the callbacks; three times, and what is to be sent
    is taken. *)
Definition turn : list Worker.event := [Worker.Register 0; Worker.Take; Worker.Assign; Worker.Done 0].
Definition usigs : list pool_event :=
  (UsigPool <$> [Worker.Register 0; Worker.Take; Worker.Assign]) ++ [SignStep 0; UsigPool (Worker.Done 0)].
Definition signs : list pool_event := SignPool <$> turn.
Definition fasts : list pool_event := FastPool <$> turn.
Definition slows : list pool_event := SlowPool <$> turn.
Definition work (r : Z) (ps : list pool_event) : list event := (λ e, Local r (Other e)) <$> ps.
Definition call_back (r : Z) : event := Local r (Do Call_AsyncCallback).
Definition busy (r : Z) (ps : list pool_event) : list event :=
  mjoin (replicate 3 (work r ps ++ [call_back r])) ++ [Hand_over r].
Definition all : list pool_event := usigs ++ signs ++ fasts ++ slows.
Definition links (froms tos : list Z) (k : nat) : list event := j ← froms; t ← tos; replicate k (Deliver j t).
Definition request (c : Command) : event := Local 0 (Do (Call_Request c)).
Definition round (rs : list Z) : list event :=
  (r ← rs; busy r all) ++ links rs rs 5 ++ busy 0 all ++ busy 0 all ++ links [0]%Z four 8.

(** [c1], [c2] and [c3] are executed by the slow rule, [c4] by the fast one. *)
Definition c1 : Command := cmd 1 5.
Definition c2 : Command := cmd 2 5.
Definition c3 : Command := cmd 3 5.
Definition c4 : Command := mkCommand 4 (c_Ops c1) 5 (Some [x61]) (Some [x63]) None.

(** Everything works. *)
Definition fair : list event := [request c1; request c4] ++ links [0]%Z four 5 ++ mjoin (replicate 5 (round four)).
(** Replica 3 never runs its pool for the fast proposals until the end. *)
Definition lagging : list event :=
  [request c1; request c2; request c3] ++ busy 0 all ++ links [0]%Z four 5 ++
  busy 1 all ++ links [1]%Z [0]%Z 5 ++ busy 0 all ++ links [0]%Z four 5 ++
  busy 2 all ++ [Deliver 2 0] ++ busy 0 all ++ links [0]%Z four 5 ++
  busy 1 all ++ busy 2 all ++ links [1; 2]%Z [0]%Z 5 ++ mjoin (replicate 6 (work 0 fasts)) ++ busy 0 all ++ links [0]%Z four 5 ++
  mjoin (replicate 3 (busy 1 all ++ busy 2 all ++ busy 3 (usigs ++ signs ++ slows) ++
    links [1; 2; 3]%Z [0]%Z 5 ++ busy 0 all ++ busy 0 all ++ links [0]%Z four 8)) ++
  busy 3 all ++ busy 3 all ++ busy 3 all.
(** Replica 3 sends its vote for the first block twice, and the leader counts both
    before its own. *)
Definition announced : list event := [request c1; Hand_over 0] ++ links [0]%Z four 1.
Definition vote3 : Message :=
  match nw_flight (run (announced ++ busy 3 all)) with m :: _ => m | [] => mkMessage 0 0 [] [] end.
Definition doubled : list event :=
  announced ++ [Forge vote3; Forge vote3] ++ links [3]%Z [0]%Z 2 ++ work 0 (fasts ++ fasts) ++ [call_back 0] ++
  mjoin (replicate 6 (round [0; 1; 2]%Z)).
End ChainDuoDemo.

Section chain_runs.
Import Toy ChainDuoDemo.

Lemma net4_chain : chain_net 0 config net4.
Proof.
  split; [done| |by eexists]. intros r h d Hr. apply elem_of_list_to_map_2, list_elem_of_fmap in Hr as (j & [= -> -> ->] & Hj).
  split_and!; [done..|]. exists ∅. reflexivity.
Qed.

Lemma chain_bounds_suffice_witness :
  is_Some (nw_replicas (run fair) !! 1%Z) ∧ ∀ h d, nw_replicas (run fair) !! 1%Z = Some (h, d) →
    fast_rises d ∧ ends (fastCommit (pm_bLeafFast (d_pacemaker d))) d ∧
    follower d ∧ loop (AsyncCallback_fuel d + 7) AsyncCallback_body d = AsyncCallback d.
Proof.
  split; [vm_compute; by eexists|]. intros h d Hd.
  assert (map_Forall (λ r hp, r = 1%Z → map_Forall (λ _ b, above_parent hp.2 b) (fastBlocks (d_blockchain hp.2)) ∧
    d_id hp.2 = 1%Z ∧ d_peers hp.2 = four ∧ pm_currentView (d_pacemaker hp.2) = 0%Z) (nw_replicas (run fair))) as Hall
    by (apply (bool_decide_unpack _); vm_compute; exact I).
  destruct (Hall 1%Z (h, d) Hd eq_refl) as (Hrises & Hid & Hp & Hv). apply fast_rises_check in Hrises. cbn in Hid, Hp, Hv.
  destruct (chain_bounds_suffice d) as (Hfast & _ & _ & _ & Hfollow).
  assert (follower d) as Hf by (intros _; rewrite Hid, Hp, Hv; done).
  split; [exact Hrises|]. split; [by apply (Hfast Hrises _ 0)|]. split; [done|]. apply Hfollow; [done|lia].
Defined.

(** C39. The slow rule loses a command, and no replica is faulty.  In a run of four
    correct replicas, [slowCommit] of replica 3 meets a slow block whose fast block it
    has not stored yet and returns, but its child, which proposes itself, is
    executed and moves [bExecSlow] past it: the replicas 0, 1 and 2 execute [c1], [c2] and
    [c3], and replica 3 executes [c1] and [c3]. *)
Theorem chain_slow_skips :
  chain_net 0 config net4 ∧ Forall (leader_proposes 0) lagging ∧
  Forall (λ r, executed_by r (run lagging) = [c1; c2; c3]) [0; 1; 2]%Z ∧ executed_by 3 (run lagging) = [c1; c3].
Proof.
  split; [apply net4_chain|]. split; [apply (bool_decide_unpack _); vm_compute; exact I|].
  assert (all_executed_by (run lagging) = {[0 := [c1; c2; c3]; 1 := [c1; c2; c3]; 2 := [c1; c2; c3]; 3 := [c1; c3]]}%Z) as E
    by (vm_compute; reflexivity).
  rewrite !executed_by_all. split; [|by rewrite E]. repeat (apply Forall_cons_2; [by rewrite executed_by_all, E|]). apply Forall_nil_2.
Qed.
(** One faulty replica stops the chain.  Replica 3 sends its vote for the first
    block twice, before the others: [createQuorumCert] refuses the votes both
    when the fast and when the slow quorum is there, the votes are never removed,
    and the three correct replicas, which exchange everything six times over, execute nothing. *)
Theorem chain_doubled_vote_stops :
  chain_net 0 config net4 ∧ Forall (leader_proposes 0) doubled ∧ Forall (net_allowed {[3%Z]}) doubled ∧
  Forall (λ r, executed_by r (run doubled) = []) four ∧
  map_Forall (λ r hp, r = 0%Z →
    pm_currentFastHeight (d_pacemaker hp.2) = 1%Z ∧ pm_currentSlowHeight (d_pacemaker hp.2) = 1%Z ∧
    map_Forall (λ _ votes, omap (λ v, s_Signer <$> v_Signature v) votes = [3; 3; 0; 1; 2]%Z) (d_verifiedVotes hp.2))
    (nw_replicas (run doubled)).
Proof.
  split; [apply net4_chain|]. split; [apply (bool_decide_unpack _); vm_compute; exact I|].
  split; [apply (bool_decide_unpack _); vm_compute; exact I|]. split; [|apply (bool_decide_unpack _); vm_compute; exact I].
  assert (all_executed_by (run doubled) = {[0 := []; 1 := []; 2 := []; 3 := []]}%Z) as E by (vm_compute; reflexivity).
  repeat (apply Forall_cons_2; [by rewrite executed_by_all, E|]). apply Forall_nil_2.
Qed.
End chain_runs.
